(* ===== verification/_CoqProject ===== *)
-Q . S2P
Prelude.v
Crypto.v
Cert.v
Dag.v
Commit.v
Joint.v
Equivocation.v
BridgeHeader.v
Rings.v
FastPath.v
Mempool.v
ExecTypes.v
Codec.v
Registries.v
Substrate.v
LedgerSpec.v
Moves.v
Refinement.v
Ledger.v
Simulation.v
Stakes.v
Block.v
Checkpoint.v
Issuer.v
Reserve.v
Rewards.v
Did.v
MintCommit.v
Sequencer.v
Sha3.v
Confidential.v
Ltp.v
Da.v
RecordSet.v
Governance.v
NodeState.v
Wire.v
Ingest.v
NodeCommit.v
NodeSafety.v
Inbox.v
Driver.v
Client.v
Node.v
NodeTypes.v
CommitTasks.v
NodeExamples.v
NodeIndex.v
Rpc.v
Indexer.v
RpcMethods.v
Metrics.v
RpcExamples.v
DbSubstrate.v
Transport.v
Bridge.v
