(* ===== verification/Prelude.v ===== *)
(** * suwappu-dag: a verification library

    A shallow embedding of suwappu-dag (a DAG-based two-ring BFT layer 1 written
    in Rust, under [src/crates/]) and the theorems that make it correct.  Every
    definition is executable, so the examples at the end of each file are
    evaluated by the kernel.

    ** The program

    Authority nodes sign certificates that reference earlier certificates
    ([suwappu-consensus]: [cert.rs], [dag.rs]).  A commit rule picks leaders out
    of the growing DAG and linearizes their histories ([commit.rs]); a commit is
    final when the validator ring's stake agrees ([joint.rs]).  Both rings admit,
    remove and slash members ([suwappu-authority], [suwappu-validator],
    [equivocation.rs]), and single-owner transactions may take a quorum fast path
    ([suwappu-fastpath]).  Transactions wait in a rate-limited priority pool
    ([suwappu-mempool]).  Committed blocks of intents run against a substrate of
    balances and byte records ([suwappu-execution]: [substrate.rs] and the record
    codecs), whose state root is checkpointed and co-signed ([block.rs],
    [checkpoint.rs]).  The node ([suwappu-node]) ties these together: it frames
    messages over sockets ([wire.rs], [codec.rs]), ingests certificates, votes,
    walks the commit rule and executes blocks, enacts governance at epoch
    boundaries, authors one certificate per round, synchronises with its peers
    ([daemon.rs]) and answers clients ([client.rs], [rpc_adapter.rs]).  Around it
    stand the JSON-RPC server ([suwappu-rpc]) with its Rust SDK, the faucet, the
    indexer and the event-log analyser.  Beside the
    ledger stand the institutional precompiles ([suwappu-precompiles]: issuers,
    reserve coverage, rewards, identities), the ML-DSA mint gate
    ([suwappu-mldsa-precompile]), the lattice transfer protocol ([suwappu-ltp]),
    the transport ([suwappu-transport]) and the L2 crates ([suwappu-l2-sequencer],
    [suwappu-l2-confidential], [suwappu-l2-bridge]).

    ** Files, and the code each models

    - [Prelude]: bytes, machine integers ([wrap], [checked_add], ...), outcomes,
      ordered maps, sums, self-delimiting encodings; shared lemmas and hints.
    - [Crypto], [Sha3]: the classes [Blake3], [MlDsa65], [Sha3] for the external
      crates, and the wrappers [suwappu-crypto/src/mldsa.rs] and [hash.rs].
    - [Cert], [Dag], [Commit], [Joint], [Equivocation], [BridgeHeader]:
      [suwappu-consensus/src/]: [cert.rs], [dag.rs], [commit.rs], [joint.rs],
      [equivocation.rs], [bridge_header.rs].  The state is the record [DagStore];
      [insert] is its only mutator; histories are lists of inserted certificates.
    - [Rings]: the registries and slashing of both rings.  [FastPath]: the five
      files of [suwappu-fastpath].  [Mempool]: [bucket.rs] and [mempool.rs].
    - [ExecTypes], [Codec], [Registries]: error and status types, reserved
      accounts and the batch format gate; the byte parser; the nine record codecs
      of [suwappu-execution], each an instance of the class [StateCodec].
    - [Substrate]: [InMemorySubstrate] and all 32 intents of [apply_intent] in a
      state-and-error monad.  [LedgerSpec]: the abstract ledger (guards, postings,
      registry updates).  [Moves], [Refinement]: the weakest-precondition calculus
      of the monad and the proof that every intent implements its abstract
      verdict.  [Ledger], [Simulation], [Stakes]: theorems on whole histories.
    - [Block], [Checkpoint]: [block.rs] (over the class [SubstrateOps]) and
      [checkpoint.rs].  [DbSubstrate]: [suwappu_db_substrate.rs], the second
      instance of that class.
    - [Issuer], [Reserve], [Rewards], [Did]: the modules of
      [suwappu-precompiles].  [MintCommit]: [suwappu-mldsa-precompile].
      [Sequencer], [Confidential]: the L2 crates.  [Ltp], [Da]: [suwappu-ltp].
    - [RecordSet]: record update notation.  [Governance]: the signature gates of
      [client.rs].  [NodeState]: the daemon's [State], the genesis manifest and
      the wire messages.  [Wire]: frames, the connection reader, peer counts.
      [Ingest]: certificate ingestion with the orphan cascade.  [NodeCommit]: the
      commit walk, block execution, governance and ejections.  [Inbox]: the
      reaction to each message, the fast-path and corridor lanes.  [Driver]:
      authoring, backfill, the retry sweeper, fan-out.  [Client]: client
      submissions and the listener's caps.  [Node]: one step relation over all of
      them, and runs.  [NodeSafety], [NodeTypes]: properties of walks and runs.
      [CommitTasks]: concurrent commit walks, one lock window at a time.
      [NodeExamples]: a toy committee; the witnesses of the node's theorems and
      counterexamples.
    - [NodeIndex]: the daemon's block and transaction indices over runs.  [Rpc]:
      the adapter that answers JSON-RPC ([rpc_adapter.rs]), the per-address limiter
      ([suwappu-rpc/src/per_ip.rs]) and the faucet ([suwappu-faucet]).  [Indexer]:
      the event log ([events.rs]) and [suwappu-indexer], its store trait as the
      class [Store] with laws.  [RpcMethods]: JSON values, the methods and routes of
      [suwappu-rpc], and the SDK under [src/clients/rust-sdk].  [Metrics]:
      [bin/suwappu-metrics.rs].  [RpcExamples]: their witnesses and
      counterexamples.
    - [Transport]: [scion.rs], [gateway.rs], [raptorq.rs].
    - [Bridge]: [suwappu-l2-bridge], and the points of [suwappu-validator-program].

    ** What the theorems show

    - Consensus: the store accepts exactly the admissible certificates and keeps
      its invariant; the order does not depend on arrival and respects causality;
      the history walk terminates with exactly the ancestors; slots are decided by
      the published rule; a committed leader stays committed without equivocation;
      conflicting joint commits expose a third of a ring.
    - Ledger: the substrate simulates the abstract ledger over every history;
      money is conserved up to declared issuance, debited only with authority, and
      rejections are atomic up to the exceptions stated; burns and epochs are paid
      once; stake pools are solvent and locked until the cooldown; slots and
      obligations move along their life cycles; every record codec round-trips and
      no decoder panics.
    - Blocks and checkpoints: block reports are exact; roots and checkpoint hashes
      bind what they summarise; conflicting checkpoints expose their signers; the
      database substrate reports what the in-memory one does on the intents it
      carries out, and nothing else it does has an effect.
    - Node: over every run the store and buffers are well-formed, the substrate is
      the genesis one with the commit log executed in order and once, and rounds
      are authored without repetition; nodes with the same log hold the same
      state; the commit walk follows the finalized sequence; concurrent walks
      claim each certificate once (and a counterexample shows they may execute out
      of order); the indices RPC reads from point to the intents they name and
      cover everything committed, and a faucet's drip reaches the pool; the
      Authority Ring changes only under two seated signatures or an equivocation
      proof; ingestion terminates and bounds its buffer; every stored integer keeps
      its width; clients add only what seated authorities signed.
    - Around the node: every RPC answer is a well-formed envelope and only an
      accepted submission changes the node; through the JSON of both sides the SDK
      returns what the adapter reads; what a subscriber indexes was committed, the
      batched backfill is one pass over the gap and ends (except at the largest
      round), and counterexamples show which commits the index loses; the reports
      of the analyser are the minima, counts and gaps they claim to be.
    - Wire and transport: the connection reader is total on arbitrary bytes and
      inverts the writer; gateway responses bind their request and route.
    - Rings, fast path, pool: capacity, stake and size invariants, quorum
      intersection, exact slashing and admission.
    - Precompiles: the issuer's books balance and burns settle once; minting stays
      within coverage and recovers; reward issuance is bounded by the budget per
      epoch; identities change only under their own keys; the mint gate counts
      distinct valid signers.  L2: the pool is a bounded FIFO and a batch's public
      inputs bind its context and transactions.

    ** Conventions and bounds

    Unsigned integers are [N] kept at their width: arithmetic that can wrap in a
    release build (no overflow checks) is written with [wrap], checked and
    saturating arithmetic with the named functions.  A panic is [Panic] or [None]
    and ends the run, as the release profile aborts.  [HashMap] and [BTreeMap] are
    [gmap]; where iteration order matters [btree_entries] sorts by key, and where
    the code iterates a [HashMap] the theorems hold for any order.  Loops over
    collections recurse on the list; the breadth-first walk of [Commit] has fuel 2
    plus the number of parent references in the store, which the theorem
    [causal_history_spec] proves sufficient; ingestion has fuel one plus the number
    of parked certificates and the connection reader the number of bytes left, both
    proved sufficient; the backfill of the indexer takes its fuel as an argument,
    and the number of rounds up to the head suffices ([catch_up_batches]).  A message handler of the node is one step; only commit
    walks, which release their locks between certificates, are interleaved
    ([CommitTasks]), one governance application or ejection counting as one window.
    Clocks and timers are inputs.  Theorems on histories carry the bounds under
    which counters do not wrap: [within_limits] (total balance below 2^128, fewer
    than 2^32 - 1 entries per registry) and the typing of intents and messages.

    ** Assumptions

    BLAKE3 (plain and keyed), SHA3-256, ML-DSA-65, BLS, bincode, hex, the wire
    serializer, RaptorQ and the suwappu-db crates are class parameters with their
    documented laws: output lengths, round trips, and for the database what a
    transfer or credit does to the balances it reads back.  Collision resistance is
    never assumed: binding theorems conclude equality or an explicit collision.
    [ReservedDistinct] says the fixed protocol accounts, hashes of distinct tags,
    differ; the examples instantiate all classes with concrete functions.

    ** Not modelled, and why

    Process start-up, sockets, the dialer task, log files, channels, HTTP, the text
    of JSON and of error messages, and the SQL of the indexer and the validator
    programme are input and output over external crates.  Key generation draws
    randomness.  The load generator is a source of traffic.  The zero-knowledge
    verifier behind a feature gate is a parameter of [Reserve]. *)

From Stdlib Require Export NArith Lia.
From Stdlib Require Import Strings.Byte.
From stdpp Require Export gmap sorting list fin_maps numbers strings.

Create HintDb suwappu.
Create Rewrite HintDb suwappu.

Declare Scope suwappu_scope.
Delimit Scope suwappu_scope with suwappu.

(** ** Bytes and fixed-width integers

    A Rust [u8] is a [byte]; a byte string ([Vec<u8>], [[u8; n]]) is a list of
    bytes.  The unsigned integers are kept as [N]; the wrap-around of the
    release profile (no overflow checks) is written out with [wrap]. *)

Abbreviation byte := Byte.byte.
Abbreviation bytes := (list Byte.byte).

#[global] Instance byte_eq_dec : EqDecision byte.
Proof. intros x y. destruct (Byte.eqb x y) eqn:E.
  - left. by apply Byte.byte_dec_bl in E.
  - right. intros ->. by rewrite (Byte.byte_dec_lb eq_refl) in E.
Defined.

#[global] Program Instance byte_countable : Countable byte :=
  {| encode b := N.succ_pos (Byte.to_N b); decode p := Byte.of_N (Pos.pred_N p) |}.
Next Obligation.
  intros b. cbn. rewrite N.pos_pred_succ. apply Byte.of_to_N.
Qed.

(** [2 ^ w], the number of values of a [w]-bit integer. *)
Definition width (w : N) : N := 2 ^ w.

Definition wrap (w n : N) : N := n mod width w.

(** [checked_add] at width [w]. *)
Definition checked_add (w a b : N) : option N :=
  let s := (a + b)%N in if bool_decide (s < width w)%N then Some s else None.

(** [checked_mul] at width [w], and [checked_sub]. *)
Definition checked_mul (w a b : N) : option N :=
  let p := (a * b)%N in if bool_decide (p < width w)%N then Some p else None.
Definition checked_sub (a b : N) : option N :=
  if bool_decide (b ≤ a)%N then Some (a - b)%N else None.

(** [saturating_add] and [saturating_mul] at width [w]. *)
Definition saturating_add (w a b : N) : N := N.min (a + b) (width w - 1).
Definition saturating_mul (w a b : N) : N := N.min (a * b) (width w - 1).

Definition byte_of_N (n : N) : byte :=
  match Byte.of_N (n mod 256) with Some b => b | None => Byte.x00 end.

(** [to_be_bytes]: the [k] big-endian bytes of [n]. *)
Fixpoint be_bytes (k : nat) (n : N) : bytes :=
  match k with
  | O => []
  | S k' => be_bytes k' (n / 256) ++ [byte_of_N n]
  end.

(** [from_be_bytes]. *)
Definition be_value (bs : bytes) : N :=
  foldl (λ acc b, (acc * 256 + Byte.to_N b)%N) 0%N bs.

(** [Iterator::sum] on a [w]-bit integer type. *)
Definition wrapping_sum (w : N) (l : list N) : N :=
  foldl (λ acc x, wrap w (acc + x)) 0%N l.

(** The mathematical sum. *)
Definition sum_N (l : list N) : N := foldr N.add 0%N l.

(** Half-open and closed ranges [lo..hi], [lo..=hi]. *)
Definition range (lo hi : N) : list N :=
  (λ i, (lo + N.of_nat i)%N) <$> seq 0 (N.to_nat (hi - lo)).
Definition range_incl (lo hi : N) : list N := range lo (hi + 1).

(** ** Results

    [Result<A, E>] extended with the abort of a panicking operation. *)

Inductive outcome (E A : Type) : Type :=
| Ok (a : A)
| Err (e : E)
| Panic.
Arguments Ok {E A} a.
Arguments Err {E A} e.
Arguments Panic {E A}.

Definition obind {E A B} (x : outcome E A) (k : A → outcome E B) : outcome E B :=
  match x with
  | Ok a => k a
  | Err e => Err e
  | Panic => Panic
  end.

Notation "'let!' x := c 'in' k" := (obind c (λ x, k))
  (at level 10, x name, c at level 200, k at level 200)
  : suwappu_scope.

#[global] Open Scope suwappu_scope.

Definition is_Ok {E A} (x : outcome E A) : bool :=
  match x with Ok _ => true | _ => false end.

(** [Option::ok_or]. *)
Definition ok_or {E A} (o : option A) (e : E) : outcome E A :=
  match o with Some a => Ok a | None => Err e end.

(** [Result::unwrap_or_default]-style recovery. *)
Definition unwrap_or {E A} (x : outcome E A) (d : A) : A :=
  match x with Ok a => a | _ => d end.

(** ** Key orders

    The order a [BTreeMap] or [sort_by_key] uses on a key type. *)

Class KeyOrder (K : Type) := {
  key_le : relation K;
  key_le_dec :: RelDecision key_le;
  key_le_refl : Reflexive key_le;
  key_le_trans : Transitive key_le;
  key_le_antisymm : AntiSymm (=) key_le;
  key_le_total : Total key_le;
}.
#[global] Existing Instances key_le_refl key_le_trans key_le_antisymm key_le_total.
#[global] Hint Mode KeyOrder ! : typeclass_instances.

#[global] Instance N_key_order : KeyOrder N := {| key_le := N.le |}.

Definition byte_le (x y : byte) : Prop := (Byte.to_N x ≤ Byte.to_N y)%N.
#[global] Instance byte_le_dec : RelDecision byte_le.
Proof. intros x y. unfold byte_le. apply _. Defined.

Lemma byte_to_N_inj x y : Byte.to_N x = Byte.to_N y → x = y.
Proof. intros E. apply (f_equal Byte.of_N) in E. rewrite !Byte.of_to_N in E. congruence. Qed.

#[global] Program Instance byte_key_order : KeyOrder byte := {| key_le := byte_le |}.
Next Obligation. intros x. unfold byte_le. lia. Qed.
Next Obligation. intros x y z. unfold byte_le. lia. Qed.
Next Obligation. intros x y ??. apply byte_to_N_inj. unfold byte_le in *. lia. Qed.
Next Obligation. intros x y. unfold byte_le. lia. Qed.

(** Turn two opposite comparisons into an equality. *)
Ltac key_antisymm :=
  match goal with
  | H1 : key_le ?x ?y, H2 : key_le ?y ?x |- _ =>
      pose proof (anti_symm key_le x y H1 H2); clear H1 H2; simplify_eq
  end.

(** Lexicographic order on tuples. *)
Section prod_order.
Context `{KeyOrder A, EqDecision A, KeyOrder B}.

Definition prod_le (p q : A * B) : Prop :=
  if decide (p.1 = q.1) then key_le p.2 q.2 else key_le p.1 q.1.

#[global] Instance prod_le_dec : RelDecision prod_le.
Proof. intros p q. unfold prod_le. destruct (decide (p.1 = q.1)); apply _. Defined.

#[global] Program Instance prod_key_order : KeyOrder (A * B) := {| key_le := prod_le |}.
Next Obligation. intros [a b]. unfold prod_le; simpl. case_decide; [reflexivity | done]. Qed.
Next Obligation.
  intros [a b] [c d] [e f]. unfold prod_le; simpl.
  repeat case_decide; subst; intros; simplify_eq; try done; try (by etransitivity).
  all: by repeat key_antisymm.
Qed.
Next Obligation.
  intros [a b] [c d]. unfold prod_le; simpl.
  repeat case_decide; subst; intros; simplify_eq; repeat key_antisymm; done.
Qed.
Next Obligation.
  intros [a b] [c d]. unfold prod_le; simpl.
  repeat case_decide; subst; simplify_eq; apply (total key_le).
Qed.
End prod_order.

(** Lexicographic order on byte strings ([Ord] for [[u8; n]] and [Vec<u8>]). *)
Fixpoint list_le `{KeyOrder A, EqDecision A} (l k : list A) : Prop :=
  match l, k with
  | [], _ => True
  | _ :: _, [] => False
  | x :: l', y :: k' => if decide (x = y) then list_le l' k' else key_le x y
  end.

#[global] Instance list_le_dec `{KeyOrder A, EqDecision A} : RelDecision (list_le (A := A)).
Proof.
  intros l. induction l as [|x l IH]; intros [|y k]; simpl; try apply _.
  destruct (decide (x = y)); apply _.
Defined.

#[global] Program Instance list_key_order `{KeyOrder A, EqDecision A} : KeyOrder (list A) :=
  {| key_le := list_le |}.
Next Obligation. intros A ?? l. induction l; simpl; [done|]. by case_decide. Qed.
Next Obligation.
  intros A ?? l. induction l as [|x l IH]; intros [|y k] [|z m]; simpl; try done.
  repeat case_decide; subst; intros; simplify_eq; try done; eauto; try (by etransitivity).
  all: by repeat key_antisymm.
Qed.
Next Obligation.
  intros A ?? l. induction l as [|x l IH]; intros [|y k]; simpl; try done.
  repeat case_decide; subst; intros; simplify_eq; try done.
  - f_equal. eauto.
  - by repeat key_antisymm.
Qed.
Next Obligation.
  intros A ?? l. induction l as [|x l IH]; intros [|y k]; simpl; auto.
  repeat case_decide; subst; simplify_eq; [apply IH | apply (total key_le)].
Qed.

(** ** Sorting and ordered containers *)

(** [slice::sort_by_key].  Rust's sort is stable; every key used by the code
    determines the element, so stability is not observable. *)
Definition key_rel {A K} `{KeyOrder K} (f : A → K) : relation A :=
  λ x y, key_le (f x) (f y).
#[global] Instance key_rel_dec {A K} `{KeyOrder K} (f : A → K) x y : Decision (key_rel f x y).
Proof. unfold key_rel. apply _. Defined.

Definition sort_by_key {A K} `{KeyOrder K} (f : A → K) (l : list A) : list A :=
  merge_sort (key_rel f) l.

(** [BTreeMap] iteration: the entries in ascending key order. *)
Definition btree_entries {K V} `{KeyOrder K, Countable K} (m : gmap K V) : list (K * V) :=
  sort_by_key fst (map_to_list m).
Definition btree_keys {K V} `{KeyOrder K, Countable K} (m : gmap K V) : list K :=
  fst <$> btree_entries m.
Definition btree_values {K V} `{KeyOrder K, Countable K} (m : gmap K V) : list V :=
  snd <$> btree_entries m.

(** [BTreeSet] iteration. *)
Definition bset_elems {K} `{KeyOrder K, Countable K} (s : gset K) : list K :=
  sort_by_key id (elements s).

(** [Iterator::min]. *)
Definition list_min {K} `{KeyOrder K} (l : list K) : option K :=
  foldr (λ x acc, match acc with
                  | None => Some x
                  | Some y => Some (if decide (key_le x y) then x else y)
                  end) None l.

Lemma list_min_spec {K} `{KeyOrder K} (l : list K) :
  match list_min l with
  | None => l = []
  | Some x => x ∈ l ∧ ∀ y, y ∈ l → key_le x y
  end.
Proof.
  induction l as [|x l IH]; simpl; [done|]. destruct (list_min l) as [y|]; simpl in *.
  - destruct IH as [Hy Hmin]. case_decide as Hxy.
    + split; [by left|]. intros z [->|Hz]%elem_of_cons; [reflexivity|].
      etransitivity; [done|]. by apply Hmin.
    + split; [by right|]. intros z [->|Hz]%elem_of_cons; [|by apply Hmin].
      by destruct (total key_le x y).
  - subst. split; [by left|]. intros z [->|[]%elem_of_nil]%elem_of_cons. reflexivity.
Qed.

Section sort_lemmas.
Context {A K : Type} `{KeyOrder K} (f : A → K).

Lemma sort_by_key_perm l : sort_by_key f l ≡ₚ l.
Proof. apply merge_sort_Permutation. Qed.

#[local] Instance key_of_total : Total (key_rel f).
Proof. intros x y. apply (total key_le). Qed.
#[local] Instance key_of_trans : Transitive (key_rel f).
Proof. intros x y z. unfold key_rel. apply key_le_trans. Qed.

Lemma sort_by_key_sorted l : StronglySorted (key_rel f) (sort_by_key f l).
Proof. apply StronglySorted_merge_sort; apply _. Qed.

(** A key that determines the element makes the sorted list unique. *)
Lemma sorted_by_key_unique l1 l2 :
  (∀ x y, x ∈ l1 → y ∈ l1 → f x = f y → x = y) →
  StronglySorted (key_rel f) l1 →
  StronglySorted (key_rel f) l2 →
  l1 ≡ₚ l2 → l1 = l2.
Proof.
  intros Hinj S1 S2 HP.
  eapply (StronglySorted_unique_strong (key_rel f)); [|done..].
  intros x y Hx Hy ??. apply Hinj; [done|by rewrite HP|]. by apply (anti_symm key_le).
Qed.

Lemma sort_by_key_proper l1 l2 :
  (∀ x y, x ∈ l1 → y ∈ l1 → f x = f y → x = y) →
  l1 ≡ₚ l2 → sort_by_key f l1 = sort_by_key f l2.
Proof.
  intros Hinj HP. apply sorted_by_key_unique; auto using sort_by_key_sorted.
  - intros x y. rewrite sort_by_key_perm. apply Hinj.
  - by rewrite !sort_by_key_perm.
Qed.

Lemma sort_by_key_sorted_id l :
  (∀ x y, x ∈ l → y ∈ l → f x = f y → x = y) →
  StronglySorted (key_rel f) l → sort_by_key f l = l.
Proof.
  intros Hinj Hs. apply sorted_by_key_unique; auto using sort_by_key_sorted.
  - intros x y. rewrite sort_by_key_perm. apply Hinj.
  - apply sort_by_key_perm.
Qed.
End sort_lemmas.

Lemma elem_of_sort_by_key {A K} `{KeyOrder K} (f : A → K) l x :
  x ∈ sort_by_key f l ↔ x ∈ l.
Proof. by rewrite sort_by_key_perm. Qed.

Lemma NoDup_sort_by_key {A K} `{KeyOrder K} (f : A → K) l :
  NoDup (sort_by_key f l) ↔ NoDup l.
Proof. by rewrite sort_by_key_perm. Qed.

Lemma StronglySorted_filter {A} (R : relation A) (P : A → Prop) `{∀ x, Decision (P x)} l :
  StronglySorted R l → StronglySorted R (filter P l).
Proof.
  induction 1 as [|x l Hs IH Hx]; [constructor|]. rewrite filter_cons. case_decide; [|done].
  constructor; [done|]. rewrite Forall_forall in *.
  intros y [_ Hy]%list_elem_of_filter. by apply Hx.
Qed.

Lemma filter_all {A} (P : A → Prop) `{∀ x, Decision (P x)} (l : list A) :
  Forall P l → filter P l = l.
Proof. induction 1; [done|]. rewrite filter_cons_True by done. by f_equal. Qed.

Lemma sublist_fmap {A B} (f : A → B) (l k : list A) :
  l `sublist_of` k → (f <$> l) `sublist_of` (f <$> k).
Proof. induction 1; csimpl; by constructor. Qed.

(** An [omap] that keeps keys yields a sublist of the keys. *)
Lemma omap_key_sublist {A B C} (f : A → option B) (ka : A → C) (kb : B → C) (l : list A) :
  (∀ x y, f x = Some y → kb y = ka x) → (kb <$> omap f l) `sublist_of` (ka <$> l).
Proof.
  intros Hf. induction l as [|x l IH]; csimpl; [constructor|].
  destruct (f x) as [y|] eqn:E; csimpl; [rewrite (Hf _ _ E)|]; by constructor.
Qed.

Section btree_lemmas.
Context {K V : Type} `{KeyOrder K, Countable K}.
Implicit Types m : gmap K V.

Lemma btree_entries_perm m : btree_entries m ≡ₚ map_to_list m.
Proof. apply sort_by_key_perm. Qed.

Lemma elem_of_btree_entries m k v : (k, v) ∈ btree_entries m ↔ m !! k = Some v.
Proof. rewrite btree_entries_perm. apply elem_of_map_to_list. Qed.

Lemma NoDup_fst_btree_entries m : NoDup (fst <$> btree_entries m).
Proof. rewrite btree_entries_perm. apply NoDup_fst_map_to_list. Qed.

Lemma NoDup_btree_entries m : NoDup (btree_entries m).
Proof. eapply NoDup_fmap_1, NoDup_fst_btree_entries. Qed.

Lemma list_to_map_btree_entries m : list_to_map (btree_entries m) = m.
Proof.
  rewrite <-(list_to_map_to_list (M := gmap K) m) at 2.
  apply list_to_map_proper; [apply NoDup_fst_btree_entries | apply btree_entries_perm].
Qed.

Lemma length_btree_entries m : length (btree_entries m) = size m.
Proof. rewrite btree_entries_perm. apply length_map_to_list. Qed.

Lemma elem_of_btree_keys m k : k ∈ btree_keys m ↔ is_Some (m !! k).
Proof.
  unfold btree_keys. rewrite list_elem_of_fmap. split.
  - intros ([k' v] & -> & Hin). apply elem_of_btree_entries in Hin. eauto.
  - intros [v Hv]. exists (k, v). by rewrite elem_of_btree_entries.
Qed.

Lemma NoDup_btree_keys m : NoDup (btree_keys m).
Proof. apply NoDup_fst_btree_entries. Qed.

Lemma btree_entries_sorted m : StronglySorted (key_rel fst) (btree_entries m).
Proof. apply sort_by_key_sorted. Qed.

(** Removing the first entry of a tree. *)
Lemma btree_entries_pop m k v rest :
  btree_entries m = (k, v) :: rest → btree_entries (delete k m) = rest.
Proof.
  intros E. assert (m !! k = Some v) as Hk by (rewrite <-elem_of_btree_entries, E; by left).
  pose proof (btree_entries_perm m) as HP. rewrite E in HP.
  rewrite <-(map_to_list_delete m k v Hk) in HP. apply Permutation_cons_inv in HP.
  pose proof (btree_entries_sorted m) as Hs. rewrite E in Hs.
  apply StronglySorted_cons in Hs as [_ Hs].
  symmetry. apply (sorted_by_key_unique fst); [|done|apply btree_entries_sorted|].
  - intros [k1 v1] [k2 v2] H1 H2 ?; simpl in *; subst. rewrite HP in H1, H2.
    rewrite elem_of_map_to_list in H1, H2. congruence.
  - rewrite HP. symmetry. apply btree_entries_perm.
Qed.

Lemma btree_entries_nil m : btree_entries m = [] → m = ∅.
Proof.
  intros E. apply map_empty. intros k. apply eq_None_not_Some. intros [v Hv].
  apply elem_of_btree_entries in Hv. rewrite E in Hv. by apply elem_of_nil in Hv.
Qed.

Lemma btree_keys_sorted m : StronglySorted key_le (btree_keys m).
Proof.
  unfold btree_keys. induction (btree_entries_sorted m) as [|e es Hs IH He]; csimpl; constructor;
    [done|]. rewrite Forall_fmap. eapply Forall_impl; [exact He|]. done.
Qed.

(** The last key is the greatest. *)
Lemma btree_keys_last m k :
  last (btree_keys m) = Some k →
  is_Some (m !! k) ∧ ∀ k', is_Some (m !! k') → key_le k' k.
Proof.
  intros El. apply last_Some in El as [l El]. split.
  - rewrite <-elem_of_btree_keys, El. set_solver.
  - intros k' Hk'. rewrite <-elem_of_btree_keys, El in Hk'.
    pose proof (btree_keys_sorted m) as Hs. rewrite El in Hs.
    apply elem_of_app in Hk' as [Hk'|Hk'%list_elem_of_singleton]; [|by subst].
    eapply StronglySorted_app_1_elem_of; [exact Hs|done|by left].
Qed.

Lemma btree_keys_last_None m : last (btree_keys m) = None → m = ∅.
Proof. intros El%last_None. apply btree_entries_nil. by apply fmap_nil_inv in El. Qed.
End btree_lemmas.

Lemma bset_elems_perm `{KeyOrder K, Countable K} (s : gset K) : bset_elems s ≡ₚ elements s.
Proof. apply sort_by_key_perm. Qed.

Lemma elem_of_bset_elems `{KeyOrder K, Countable K} (s : gset K) x : x ∈ bset_elems s ↔ x ∈ s.
Proof. rewrite bset_elems_perm. apply elem_of_elements. Qed.

#[export] Hint Rewrite @elem_of_sort_by_key @elem_of_btree_entries @elem_of_btree_keys
  @elem_of_bset_elems @length_btree_entries : suwappu.

(** ** Big-endian codecs *)

Lemma to_N_byte_of_N n : Byte.to_N (byte_of_N n) = (n mod 256)%N.
Proof.
  unfold byte_of_N. destruct (Byte.of_N (n mod 256)) as [b|] eqn:E.
  - by apply Byte.to_of_N.
  - apply Byte.of_N_None_iff in E. pose proof (N.mod_lt n 256). lia.
Qed.

Lemma to_N_lt b : (Byte.to_N b < 256)%N.
Proof. pose proof (Byte.to_N_bounded b). lia. Qed.

Lemma byte_of_N_to_N b m : byte_of_N (m * 256 + Byte.to_N b) = b.
Proof.
  apply byte_to_N_inj. rewrite to_N_byte_of_N.
  pose proof (to_N_lt b). rewrite N.add_comm, N.Div0.mod_add. by apply N.mod_small.
Qed.

Lemma length_be_bytes k n : length (be_bytes k n) = k.
Proof. revert n. induction k; intros n; simpl; [done|]. rewrite length_app, IHk. simpl. lia. Qed.

Lemma be_value_snoc l b : be_value (l ++ [b]) = (be_value l * 256 + Byte.to_N b)%N.
Proof. unfold be_value. by rewrite foldl_app. Qed.

Lemma be_value_lt l : (be_value l < 256 ^ N.of_nat (length l))%N.
Proof.
  induction l as [|b l IH] using rev_ind; [done|].
  rewrite be_value_snoc, length_app, Nat.add_1_r, Nat2N.inj_succ, N.pow_succ_r'.
  pose proof (to_N_lt b). nia.
Qed.

Lemma be_value_be_bytes k n :
  (n < 256 ^ N.of_nat k)%N → be_value (be_bytes k n) = n.
Proof.
  revert n. induction k as [|k IH]; intros n Hn; simpl.
  { change (256 ^ N.of_nat 0)%N with 1%N in Hn. unfold be_value; simpl. lia. }
  rewrite be_value_snoc, to_N_byte_of_N, IH.
  - pose proof (N.div_mod n 256). lia.
  - rewrite Nat2N.inj_succ, N.pow_succ_r' in Hn. by apply N.Div0.div_lt_upper_bound.
Qed.

Lemma be_bytes_be_value l : be_bytes (length l) (be_value l) = l.
Proof.
  induction l as [|b l IH] using rev_ind; [done|].
  rewrite length_app, Nat.add_1_r, be_value_snoc. simpl.
  rewrite byte_of_N_to_N.
  assert ((be_value l * 256 + Byte.to_N b) / 256 = be_value l)%N as ->; [|by rewrite IH].
  pose proof (to_N_lt b). symmetry. apply N.div_unique with (Byte.to_N b); lia.
Qed.

Lemma be_bytes_inj k n m :
  (n < 256 ^ N.of_nat k)%N → (m < 256 ^ N.of_nat k)%N → be_bytes k n = be_bytes k m → n = m.
Proof. intros Hn Hm E. apply (f_equal be_value) in E. by rewrite !be_value_be_bytes in E. Qed.

Lemma be_bytes_app_nonempty k n l : k ≠ 0 → be_bytes k n ++ l ≠ [].
Proof. intros Hk E%(f_equal length). rewrite length_app, length_be_bytes in E. simpl in E. lia. Qed.

#[global] Arguments be_bytes : simpl never.

(** The widths the code uses, as powers of 256. *)
Lemma width_32 : width 32 = (256 ^ N.of_nat 4)%N.
Proof. reflexivity. Qed.
Lemma width_64 : width 64 = (256 ^ N.of_nat 8)%N.
Proof. reflexivity. Qed.
Lemma width_128 : width 128 = (256 ^ N.of_nat 16)%N.
Proof. reflexivity. Qed.

Lemma width_pos w : (0 < width w)%N.
Proof. unfold width. pose proof (N.pow_nonzero 2 w). lia. Qed.

Lemma wrap_small w n : (n < width w)%N → wrap w n = n.
Proof. apply N.mod_small. Qed.

Lemma wrap_lt w n : (wrap w n < width w)%N.
Proof. apply N.mod_lt. pose proof (width_pos w). lia. Qed.

(** Quotient and remainder as fresh variables, for [lia]. *)
Lemma div_mod_N (a b : N) : (0 < b)%N → ∃ q r, (a / b = q ∧ a mod b = r ∧ a = b * q + r ∧ r < b)%N.
Proof.
  intros Hb. eexists _, _. split_and!; [done..| |].
  - apply N.div_mod. lia.
  - apply N.mod_lt. lia.
Qed.

Lemma checked_add_Some w a b c :
  checked_add w a b = Some c ↔ c = (a + b)%N ∧ (a + b < width w)%N.
Proof. unfold checked_add. case_bool_decide; naive_solver. Qed.

Lemma checked_add_None w a b : checked_add w a b = None ↔ (width w ≤ a + b)%N.
Proof. unfold checked_add. case_bool_decide; split; try done; lia. Qed.

Lemma checked_mul_Some w a b c :
  checked_mul w a b = Some c ↔ c = (a * b)%N ∧ (a * b < width w)%N.
Proof. unfold checked_mul. case_bool_decide; naive_solver. Qed.

Lemma checked_sub_Some a b c : checked_sub a b = Some c ↔ c = (a - b)%N ∧ (b ≤ a)%N.
Proof. unfold checked_sub. case_bool_decide; naive_solver. Qed.

(** ** Sums *)

#[global] Instance sum_N_proper : Proper ((≡ₚ) ==> (=)) sum_N.
Proof. intros l k HP. unfold sum_N. induction HP; simpl in *; lia. Qed.

Lemma sum_N_cons x l : sum_N (x :: l) = (x + sum_N l)%N.
Proof. done. Qed.

Lemma sum_N_app l k : sum_N (l ++ k) = (sum_N l + sum_N k)%N.
Proof. unfold sum_N. induction l; simpl in *; lia. Qed.

Lemma sum_N_elem x l : x ∈ l → (x ≤ sum_N l)%N.
Proof. induction 1; rewrite sum_N_cons; lia. Qed.

Lemma wrapping_sum_small w l :
  (sum_N l < width w)%N → wrapping_sum w l = sum_N l.
Proof.
  intros Hl. unfold wrapping_sum.
  enough (∀ a, (a + sum_N l < width w)%N → foldl (λ acc x, wrap w (acc + x)) a l = (a + sum_N l)%N)
    as Hgen by (rewrite Hgen; lia).
  clear Hl. induction l as [|x l IH]; intros a Ha; simpl; [lia|].
  rewrite sum_N_cons in Ha. rewrite wrap_small by lia. rewrite IH by lia. simpl. lia.
Qed.

(** The sum of the values of a finite map. *)
Definition map_sum {K} `{Countable K} (m : gmap K N) : N :=
  sum_N (snd <$> map_to_list m).

Section map_sum.
Context {K : Type} `{Countable K}.
Implicit Types m : gmap K N.

Lemma map_sum_empty : map_sum (∅ : gmap K N) = 0%N.
Proof. unfold map_sum. by rewrite map_to_list_empty. Qed.

Lemma map_sum_insert_fresh m k v :
  m !! k = None → map_sum (<[k:=v]> m) = (v + map_sum m)%N.
Proof. intros Hk. unfold map_sum. by rewrite map_to_list_insert by done. Qed.

Lemma map_sum_delete m k :
  (map_sum (delete k m) + default 0 (m !! k) = map_sum m)%N.
Proof.
  destruct (m !! k) as [v|] eqn:E; simpl.
  - rewrite <-(insert_delete_id m k v) at 2 by done.
    rewrite map_sum_insert_fresh by apply lookup_delete_eq. lia.
  - rewrite delete_id by done. lia.
Qed.

Lemma map_sum_insert m k v :
  (map_sum (<[k:=v]> m) + default 0 (m !! k) = v + map_sum m)%N.
Proof.
  rewrite <-insert_delete_eq, map_sum_insert_fresh by apply lookup_delete_eq.
  pose proof (map_sum_delete m k). lia.
Qed.

Lemma map_sum_lookup m k : (default 0 (m !! k) ≤ map_sum m)%N.
Proof. pose proof (map_sum_delete m k). lia. Qed.
End map_sum.

(** The sum of a function over a finite set. *)
Definition set_sum {K} `{Countable K} (f : K → N) (X : gset K) : N :=
  sum_N (f <$> elements X).

Section set_sum.
Context {K : Type} `{Countable K} (f : K → N).
Implicit Types X Y : gset K.

Lemma set_sum_empty : set_sum f ∅ = 0%N.
Proof. unfold set_sum. by rewrite elements_empty. Qed.

Lemma set_sum_singleton_union x X : x ∉ X → set_sum f ({[x]} ∪ X) = (f x + set_sum f X)%N.
Proof. intros Hx. unfold set_sum. by rewrite elements_union_singleton by done. Qed.

Lemma set_sum_union_inter X Y :
  (set_sum f (X ∪ Y) + set_sum f (X ∩ Y) = set_sum f X + set_sum f Y)%N.
Proof.
  induction X as [|x X Hx IH] using set_ind_L.
  { rewrite (left_id_L ∅ (∪)), intersection_empty_l_L, set_sum_empty. lia. }
  rewrite (set_sum_singleton_union x X) by done.
  destruct (decide (x ∈ Y)) as [Hy|Hy].
  - replace ({[x]} ∪ X ∪ Y) with (X ∪ Y) by set_solver.
    replace (({[x]} ∪ X) ∩ Y) with ({[x]} ∪ (X ∩ Y)) by set_solver.
    rewrite set_sum_singleton_union by set_solver. lia.
  - replace ({[x]} ∪ X ∪ Y) with ({[x]} ∪ (X ∪ Y)) by set_solver.
    replace (({[x]} ∪ X) ∩ Y) with (X ∩ Y) by set_solver.
    rewrite set_sum_singleton_union by set_solver. lia.
Qed.

Lemma set_sum_subseteq X Y : X ⊆ Y → (set_sum f X ≤ set_sum f Y)%N.
Proof.
  intros HX. pose proof (set_sum_union_inter X (Y ∖ X)) as E.
  rewrite <-(union_difference_L X Y HX) in E.
  replace (X ∩ (Y ∖ X)) with (∅ : gset K) in E by set_solver. rewrite set_sum_empty in E. lia.
Qed.
End set_sum.

(** Restricting a map's sum to a set of keys only loses weight. *)
Lemma set_sum_map_le {K} `{Countable K} (m : gmap K N) (X : gset K) :
  (set_sum (λ k, default 0 (m !! k)) X ≤ map_sum m)%N.
Proof.
  revert m. induction X as [|x X Hx IH] using set_ind_L; intros m.
  { rewrite set_sum_empty. lia. }
  rewrite set_sum_singleton_union by done. pose proof (map_sum_delete m x). specialize (IH (delete x m)).
  assert (set_sum (λ k, default 0%N (m !! k)) X = set_sum (λ k, default 0%N (delete x m !! k)) X)
    as E; [|unfold set_sum in *; lia].
  unfold set_sum. f_equal. apply list_fmap_ext. intros i k Hk.
  rewrite lookup_delete_ne; [done|]. intros <-. apply Hx, elem_of_elements.
  by eapply list_elem_of_lookup_2.
Qed.

Lemma set_sum_one {K} `{Countable K} (X : gset K) : set_sum (λ _, 1%N) X = N.of_nat (size X).
Proof.
  induction X as [|x X Hx IH] using set_ind_L; [by rewrite set_sum_empty|].
  rewrite set_sum_singleton_union, IH by done. rewrite size_union, size_singleton by set_solver. lia.
Qed.

(** Two sets of size at least [q] among [n] elements share [2q - n]. *)
Lemma quorum_intersection (X Y U : gset N) :
  X ⊆ U → Y ⊆ U → size X + size Y ≤ size U + size (X ∩ Y).
Proof.
  intros HX HY. pose proof (set_sum_union_inter (λ _, 1%N) X Y) as E.
  rewrite !set_sum_one in E. assert (size (X ∪ Y) ≤ size U); [apply subseteq_size; set_solver|lia].
Qed.

Lemma btree_values_sum {K} `{KeyOrder K, Countable K} (m : gmap K N) :
  sum_N (btree_values m) = map_sum m.
Proof. unfold btree_values, map_sum. by rewrite btree_entries_perm. Qed.

(** ** Ranges *)

Definition range_set (n : N) : gset N := list_to_set (range 0 n).

Lemma elem_of_range lo hi x : x ∈ range lo hi ↔ (lo ≤ x < hi)%N.
Proof.
  unfold range. rewrite list_elem_of_fmap. split.
  - intros (i & -> & Hi). apply elem_of_seq in Hi. lia.
  - intros Hx. exists (N.to_nat (x - lo)). rewrite elem_of_seq. lia.
Qed.

Lemma size_range_set n : size (range_set n) = N.to_nat n.
Proof.
  unfold range_set. rewrite size_list_to_set; unfold range.
  - rewrite length_fmap, length_seq. lia.
  - apply NoDup_fmap_2_strong; [intros; lia|apply NoDup_seq].
Qed.

Lemma elem_of_range_set n a : a ∈ range_set n ↔ (a < n)%N.
Proof. unfold range_set. rewrite elem_of_list_to_set, elem_of_range. lia. Qed.

Lemma elem_of_range_incl lo hi x : x ∈ range_incl lo hi ↔ (lo ≤ x ≤ hi)%N.
Proof. unfold range_incl. rewrite elem_of_range. lia. Qed.

#[export] Hint Rewrite length_be_bytes elem_of_range elem_of_range_incl : suwappu.

(** ** Weighted maps *)

(** The sum over the entries of a map of a weight of each entry. *)
Definition map_weight {K V} `{Countable K} (f : K → V → N) (m : gmap K V) : N :=
  sum_N (uncurry f <$> map_to_list m).

Section map_weight.
Context {K V : Type} `{Countable K} (f : K → V → N).
Implicit Types m : gmap K V.

Definition weight_at m (k : K) : N := from_option (f k) 0%N (m !! k).

Lemma map_weight_empty : map_weight f ∅ = 0%N.
Proof. unfold map_weight. by rewrite map_to_list_empty. Qed.

Lemma map_weight_insert_fresh m k v :
  m !! k = None → map_weight f (<[k:=v]> m) = (f k v + map_weight f m)%N.
Proof. intros Hk. unfold map_weight. by rewrite map_to_list_insert by done. Qed.

Lemma map_weight_delete m k : (map_weight f (delete k m) + weight_at m k = map_weight f m)%N.
Proof.
  unfold weight_at. destruct (m !! k) as [v|] eqn:E; simpl.
  - rewrite <-(insert_delete_id m k v) at 2 by done.
    rewrite map_weight_insert_fresh by apply lookup_delete_eq. lia.
  - rewrite delete_id by done. lia.
Qed.

Lemma map_weight_insert m k v :
  (map_weight f (<[k:=v]> m) + weight_at m k = f k v + map_weight f m)%N.
Proof.
  rewrite <-insert_delete_eq, map_weight_insert_fresh by apply lookup_delete_eq.
  pose proof (map_weight_delete m k). lia.
Qed.

Lemma map_weight_lookup m k v : m !! k = Some v → (f k v ≤ map_weight f m)%N.
Proof. intros E. pose proof (map_weight_delete m k) as Hd. unfold weight_at in Hd. rewrite E in Hd. simpl in Hd. lia. Qed.
End map_weight.

Lemma btree_weight {K V} `{KeyOrder K, Countable K} (f : K → V → N) (m : gmap K V) :
  sum_N (uncurry f <$> btree_entries m) = map_weight f m.
Proof. unfold map_weight. by rewrite btree_entries_perm. Qed.

(** ** Self-delimiting encodings *)

(** [f] is self-delimiting on [P]: a reader knows where an encoding ends. *)
Definition delimited {A} (P : A → Prop) (f : A → bytes) : Prop :=
  ∀ x y r1 r2, P x → P y → f x ++ r1 = f y ++ r2 → x = y ∧ r1 = r2.

Lemma delimited_be k : delimited (λ n, (n < 256 ^ N.of_nat k)%N) (be_bytes k).
Proof.
  intros x y r1 r2 Hx Hy E. apply app_inj_1 in E as [E ->]; [|by rewrite !length_be_bytes].
  by apply be_bytes_inj in E as ->.
Qed.

(** Lists of self-delimiting items with the same number of items. *)
Lemma delimited_items {A} (P : A → Prop) (f : A → bytes) l1 l2 r1 r2 :
  delimited P f → Forall P l1 → Forall P l2 → length l1 = length l2 →
  mjoin (f <$> l1) ++ r1 = mjoin (f <$> l2) ++ r2 → l1 = l2 ∧ r1 = r2.
Proof.
  intros Hf H1. revert l2. induction H1 as [|x l1 Hx _ IH]; intros [|y l2] H2 El E; try done.
  apply Forall_cons in H2 as [Hy H2]. rewrite !fmap_cons in E. cbn [mjoin list_join] in E.
  rewrite <-!(assoc_L (++)) in E. apply Hf in E as [-> E]; [|done..].
  destruct (IH l2) as [-> ->]; [done|by injection El|done|done].
Qed.

(** Concatenations of non-empty self-delimiting items. *)
Lemma join_entries_inj {A} (P : A → Prop) (f : A → bytes) l1 l2 :
  (∀ x, P x → f x ≠ []) → delimited P f →
  Forall P l1 → Forall P l2 → mjoin (f <$> l1) = mjoin (f <$> l2) → l1 = l2.
Proof.
  intros Hne Hf H1. revert l2. induction H1 as [|x l1 Hx _ IH]; intros [|y l2] H2 E; csimpl in E.
  - done.
  - apply Forall_cons in H2 as [Hy _]. symmetry in E. apply app_nil in E as [E _]. by apply Hne in E.
  - apply app_nil in E as [E _]. by apply Hne in E.
  - apply Forall_cons in H2 as [Hy H2]. apply Hf in E as [-> E]; [|done..]. f_equal. by apply IH.
Qed.
