(* ===== verification/Crypto.v ===== *)
(** * Cryptographic primitives

    The crates [blake3] and [pqcrypto-mldsa] are not part of the repository:
    they are parameters, gathered in the classes [Blake3] and [MlDsa65], with
    their documented output sizes and the signing round trip as laws.  The
    module [mldsa] models the wrapper of [crates/suwappu-crypto/src/mldsa.rs].
    [Toy] is a concrete instance used by the witnesses. *)

From Stdlib Require Import Strings.String.
From S2P Require Import Prelude.

(** A byte-string literal [b"..."]. *)
Definition tag (s : string) : bytes := String.list_byte_of_string s.

(** [blake3::hash] and the streaming [Hasher]: feeding the hasher piecewise is
    hashing the concatenation of the pieces. *)
Class Blake3 := {
  blake3 : bytes → bytes;
  blake3_length : ∀ b, length (blake3 b) = 32;
}.

(** [pqcrypto_mldsa::mldsa65]: the parsers, signing and verification. *)
Class MlDsa65 := {
  mldsa65_pk_parses : bytes → bool;
  mldsa65_sk_parses : bytes → bool;
  mldsa65_sig_parses : bytes → bool;
  mldsa65_detached_sign : bytes → bytes → bytes;
  mldsa65_verify : bytes → bytes → bytes → bool;
}.

(** The documented correctness of a keypair: what [sk] signs, [pk] verifies. *)
Definition mldsa65_keypair_ok `{MlDsa65} (pk sk : bytes) : Prop :=
  mldsa65_pk_parses pk = true ∧ mldsa65_sk_parses sk = true ∧
  ∀ msg, mldsa65_sig_parses (mldsa65_detached_sign msg sk) = true ∧
         mldsa65_detached_sign msg sk ≠ [] ∧
         mldsa65_verify (mldsa65_detached_sign msg sk) msg pk = true.

Module mldsa.
Inductive CryptoError :=
| InvalidSignature
| MalformedKey (what : string).

(** [PublicKey], [SecretKey] and [Signature] are newtypes over [Vec<u8>]. *)
Record PublicKey := mk_pk { pk_bytes : bytes }.
Record SecretKey := mk_sk { sk_bytes : bytes }.
Record Signature := mk_sig { sig_bytes : bytes }.

Section mldsa.
Context `{MlDsa65}.

Definition PublicKey_from_bytes (b : bytes) : outcome CryptoError PublicKey :=
  if mldsa65_pk_parses b then Ok (mk_pk b)
  else Err (MalformedKey "ml-dsa-65 public key").

Definition SecretKey_from_bytes (b : bytes) : outcome CryptoError SecretKey :=
  if mldsa65_sk_parses b then Ok (mk_sk b)
  else Err (MalformedKey "ml-dsa-65 secret key").

Definition Signature_from_bytes (b : bytes) : outcome CryptoError Signature :=
  if mldsa65_sig_parses b then Ok (mk_sig b) else Err InvalidSignature.

Definition sign (message : bytes) (sk : SecretKey) : outcome CryptoError Signature :=
  if mldsa65_sk_parses (sk_bytes sk)
  then Ok (mk_sig (mldsa65_detached_sign message (sk_bytes sk)))
  else Err (MalformedKey "ml-dsa-65 secret key").

Definition verify (message : bytes) (sig : Signature) (pk : PublicKey)
    : outcome CryptoError unit :=
  if mldsa65_pk_parses (pk_bytes pk) then
    if mldsa65_sig_parses (sig_bytes sig) then
      if mldsa65_verify (sig_bytes sig) message (pk_bytes pk) then Ok tt
      else Err InvalidSignature
    else Err InvalidSignature
  else Err (MalformedKey "ml-dsa-65 public key").

(** Signing then verifying under the matching key accepts. *)
Lemma sign_verify msg pk sk :
  mldsa65_keypair_ok pk sk →
  ∃ sig, sign msg (mk_sk sk) = Ok sig ∧ Signature_from_bytes (sig_bytes sig) = Ok sig ∧
         sig_bytes sig ≠ [] ∧
         PublicKey_from_bytes pk = Ok (mk_pk pk) ∧
         verify msg sig (mk_pk pk) = Ok tt.
Proof.
  intros (Hpk & Hsk & Hok). destruct (Hok msg) as (Hparse & Hne & Hv).
  exists (mk_sig (mldsa65_detached_sign msg sk)).
  unfold sign, Signature_from_bytes, PublicKey_from_bytes, verify; simpl.
  by rewrite Hsk, Hparse, Hpk, Hv.
Qed.
End mldsa.
End mldsa.

(** ** Concrete instances for the witnesses *)
Module Toy.
(** A polynomial rolling hash, reduced to 32 bytes. *)
Definition hash (b : bytes) : bytes :=
  be_bytes 32 (foldl (λ acc x, (acc * 257 + Byte.to_N x + 1)%N) 0%N b).

#[refine] Definition toy_blake3 : Blake3 := {| blake3 := hash |}.
Proof. intros b. apply length_be_bytes. Defined.

(** A signature is the key byte followed by the message. *)
Definition toy_mldsa : MlDsa65 := {|
  mldsa65_pk_parses b := bool_decide (length b = 1);
  mldsa65_sk_parses b := bool_decide (length b = 1);
  mldsa65_sig_parses b := negb (bool_decide (b = []));
  mldsa65_detached_sign msg sk := sk ++ msg;
  mldsa65_verify sig msg pk := bool_decide (sig = pk ++ msg);
|}.
End Toy.
