(* ===== verification/Cert.v ===== *)
(** * Certificates ([crates/suwappu-consensus/src/cert.rs])

    The certificate record, its canonical encoding and hash, signing and
    signature verification. *)

From Stdlib Require Import Strings.String.
From S2P Require Import Prelude Crypto.

Abbreviation AuthorityId := N (only parsing).
Abbreviation Round := N (only parsing).
(** [CertHash] is a newtype over 32 bytes. *)
Abbreviation CertHash := bytes (only parsing).

Module Certificate.

Record Certificate := mk {
  author : AuthorityId;
  round : Round;
  parents : list CertHash;
  payload_digest : bytes;
  signature : bytes;
}.

#[global] Instance Certificate_eq_dec : EqDecision Certificate.
Proof. solve_decision. Defined.

Definition genesis (author : AuthorityId) (payload_digest : bytes) : Certificate :=
  mk author 0 [] payload_digest [].

(** The byte sequence fed to the hasher. *)
Definition preimage (c : Certificate) : bytes :=
  tag "SUWAPPU-CERT-V1" ++ be_bytes 4 (author c) ++ be_bytes 8 (round c)
  ++ be_bytes 4 (wrap 32 (N.of_nat (length (parents c))))
  ++ mjoin (parents c) ++ payload_digest c.

Section Certificate.
Context `{Blake3, MlDsa65}.

Definition hash (c : Certificate) : CertHash := blake3 (preimage c).

(** [None] is the panic of the [expect] on a malformed secret key. *)
Definition sign (c : Certificate) (sk : mldsa.SecretKey) : option Certificate :=
  match mldsa.sign (hash c) sk with
  | Ok sig => Some (mk (author c) (round c) (parents c) (payload_digest c) (mldsa.sig_bytes sig))
  | _ => None
  end.

Definition verify_signature (c : Certificate) (pk : mldsa.PublicKey) : bool :=
  if bool_decide (signature c = []) then false
  else
    let digest := hash c in
    match mldsa.Signature_from_bytes (signature c) with
    | Ok sig => is_Ok (mldsa.verify digest sig pk)
    | _ => false
    end.
End Certificate.

(** What the type [Certificate] enforces by itself: integer and array widths. *)
Definition wf (c : Certificate) : Prop :=
  (author c < width 32)%N ∧ (round c < width 64)%N ∧
  (N.of_nat (length (parents c)) < width 32)%N ∧
  Forall (λ p, length p = 32) (parents c) ∧ length (payload_digest c) = 32.

(** The fields a certificate hash commits to: everything but the signature. *)
Definition body (c : Certificate) : AuthorityId * Round * list CertHash * bytes :=
  (author c, round c, parents c, payload_digest c).

Lemma mjoin_fixed_inj (n : nat) (l1 l2 : list bytes) :
  length l1 = length l2 →
  Forall (λ p, length p = n) l1 → Forall (λ p, length p = n) l2 →
  ∀ r1 r2, mjoin l1 ++ r1 = mjoin l2 ++ r2 → l1 = l2 ∧ r1 = r2.
Proof.
  revert l2. induction l1 as [|x l1 IH]; intros [|y l2] Hlen H1 H2 r1 r2 E;
    simplify_eq/=; [naive_solver|].
  inv H1. inv H2. rewrite <-!app_assoc in E.
  apply app_inj_1 in E as [-> E]; [|congruence].
  destruct (IH l2 ltac:(lia) ltac:(done) ltac:(done) _ _ E) as [-> ->]. done.
Qed.

(** The encoding is unambiguous: equal preimages come from equal bodies. *)
Lemma preimage_inj c1 c2 : wf c1 → wf c2 → preimage c1 = preimage c2 → body c1 = body c2.
Proof.
  intros (Ha1 & Hr1 & Hn1 & Hp1 & Hd1) (Ha2 & Hr2 & Hn2 & Hp2 & Hd2). unfold preimage, body.
  rewrite width_32 in *. rewrite width_64 in *. intros E.
  do 4 (apply app_inj_1 in E as [? E]; [|by rewrite ?length_be_bytes]).
  rewrite !wrap_small in * by (by rewrite width_32).
  assert (author c1 = author c2) as -> by (by eapply be_bytes_inj).
  assert (round c1 = round c2) as -> by (by eapply be_bytes_inj).
  assert (length (parents c1) = length (parents c2)) as Hlen.
  { apply Nat2N.inj. by eapply be_bytes_inj. }
  by destruct (mjoin_fixed_inj 32 (parents c1) (parents c2) Hlen Hp1 Hp2 _ _ E) as [-> ->].
Qed.

Section properties.
Context `{Blake3, MlDsa65}.

(** Signing a certificate under a matching key pair succeeds, changes neither
    its body nor its hash, and the signature verifies; the unsigned certificate
    never verifies. *)
Theorem sign_verify_signature c pk sk :
  mldsa65_keypair_ok pk sk →
  ∃ c', sign c (mldsa.mk_sk sk) = Some c' ∧ body c' = body c ∧ hash c' = hash c ∧
    verify_signature c' (mldsa.mk_pk pk) = true ∧
    (signature c = [] → verify_signature c (mldsa.mk_pk pk) = false).
Proof.
  intros Hk. destruct (mldsa.sign_verify (hash c) pk sk Hk) as (sig & E & Ep & Hne & _ & Hv).
  unfold sign. rewrite E. eexists. split_and!; [done..| |].
  - unfold verify_signature. cbn [signature]. rewrite bool_decide_false by done. rewrite Ep.
    change (hash (mk _ _ _ _ _)) with (hash c). by rewrite Hv.
  - intros Hs. unfold verify_signature. by rewrite bool_decide_true.
Qed.

(** The certificate hash binds author, round, parents and payload: two
    certificates with the same hash and different bodies exhibit a collision of
    BLAKE3. *)
Theorem hash_binding c1 c2 :
  wf c1 → wf c2 → hash c1 = hash c2 →
  body c1 = body c2 ∨ (preimage c1 ≠ preimage c2 ∧ blake3 (preimage c1) = blake3 (preimage c2)).
Proof.
  intros H1 H2 E. destruct (decide (preimage c1 = preimage c2)) as [Ep|Hn].
  - left. by apply preimage_inj.
  - right. done.
Qed.
End properties.

(** A one-parent certificate, for the witnesses. *)
Definition example_cert : Certificate :=
  mk 3 7 [replicate 32 Byte.x01] (replicate 32 Byte.x02) [].

Lemma sign_verify_signature_witness :
  ∃ c', @sign Toy.toy_blake3 Toy.toy_mldsa example_cert (mldsa.mk_sk [Byte.x2a]) = Some c' ∧
    @verify_signature Toy.toy_blake3 Toy.toy_mldsa c' (mldsa.mk_pk [Byte.x2a]) = true.
Proof.
  destruct (@sign_verify_signature Toy.toy_blake3 Toy.toy_mldsa example_cert [Byte.x2a] [Byte.x2a])
    as (c' & E & _ & _ & V & _).
  - split; [reflexivity|]. split; [reflexivity|]. intros msg. simpl.
    split; [reflexivity|]. split; [discriminate|]. by apply bool_decide_eq_true_2.
  - exists c'. split; [exact E|exact V].
Defined.

Lemma hash_binding_witness :
  body example_cert = body (mk 3 7 (parents example_cert) (payload_digest example_cert) [Byte.x01])
  ∨ preimage example_cert ≠ preimage example_cert.
Proof.
  assert (∀ s, wf (mk 3 7 (parents example_cert) (payload_digest example_cert) s)) as W.
  { intros s. unfold wf. simpl. rewrite width_32, width_64. split; [lia|]. split; [lia|].
    split; [lia|]. split; [|reflexivity]. constructor; [reflexivity|constructor]. }
  destruct (@hash_binding Toy.toy_blake3 example_cert
    (mk 3 7 (parents example_cert) (payload_digest example_cert) [Byte.x01])) as [E|[N _]].
  - apply (W []).
  - apply W.
  - reflexivity.
  - left. exact E.
  - right. exact N.
Defined.
End Certificate.
Abbreviation Certificate := Certificate.Certificate.
