(* ===== verification/Dag.v ===== *)
(** * The certificate DAG store ([crates/suwappu-consensus/src/dag.rs])

    [DagStore] with its two maps, insertion with validation, the round index
    and the deterministic linearization; the store invariant and its
    preservation; independence of the linearization from insertion order. *)

From S2P Require Import Prelude Crypto Cert.

Module DagStore.

Inductive ConsensusError :=
| UnknownParent (h : CertHash)
| NonMonotonicRound (child parent : Round)
| DuplicateCertificate (h : CertHash)
| GenesisWithParents.

Record DagStore := mk {
  certs : gmap CertHash Certificate;
  by_round : gmap Round (list CertHash);
}.

Section DagStore.
Context `{Blake3}.

Definition new : DagStore := mk ∅ ∅.

Definition len (d : DagStore) : nat := size (certs d).
Definition is_empty (d : DagStore) : bool := bool_decide (certs d = ∅).
Definition contains (d : DagStore) (h : CertHash) : bool := bool_decide (is_Some (certs d !! h)).
Definition get (d : DagStore) (h : CertHash) : option Certificate := certs d !! h.

(** Step 2 of [insert]: every parent exists with a strictly smaller round. *)
Fixpoint check_parents (cs : gmap CertHash Certificate) (child : Round) (ps : list CertHash)
    : outcome ConsensusError unit :=
  match ps with
  | [] => Ok tt
  | p :: ps' =>
      match cs !! p with
      | Some parent =>
          if bool_decide (child ≤ Certificate.round parent)%N
          then Err (NonMonotonicRound child (Certificate.round parent))
          else check_parents cs child ps'
      | None => Err (UnknownParent p)
      end
  end.

Definition round_hashes (d : DagStore) (r : Round) : list CertHash :=
  default [] (by_round d !! r).

Definition insert (d : DagStore) (cert : Certificate)
    : outcome ConsensusError CertHash * DagStore :=
  if bool_decide (Certificate.round cert = 0%N ∧ Certificate.parents cert ≠ [])
  then (Err GenesisWithParents, d)
  else
    match check_parents (certs d) (Certificate.round cert) (Certificate.parents cert) with
    | Err e => (Err e, d)
    | Panic => (Panic, d)
    | Ok _ =>
        let h := Certificate.hash cert in
        if contains d h then (Err (DuplicateCertificate h), d)
        else
          (Ok h,
           mk (<[h := cert]> (certs d))
              (<[Certificate.round cert := round_hashes d (Certificate.round cert) ++ [h]]>
                 (by_round d)))
    end.

Definition max_round (d : DagStore) : option Round := last (btree_keys (by_round d)).
Definition rounds (d : DagStore) : list Round := btree_keys (by_round d).

(** Look up every hash; [None] is the panic of an [expect] or of [certs[h]] on a
    hash the store does not hold. *)
Definition resolve (d : DagStore) (hs : list CertHash) : option (list (CertHash * Certificate)) :=
  mapM (λ h, c ← get d h; Some (h, c)) hs.

Definition author_key (p : CertHash * Certificate) : AuthorityId * CertHash :=
  (Certificate.author p.2, p.1).

Definition linearize (d : DagStore) : option (list CertHash) :=
  ls ← mapM (λ hs, rs ← resolve d hs; Some (fst <$> sort_by_key author_key rs))
         (btree_values (by_round d));
  Some (mjoin ls).

(** ** Invariant *)

Record wf (d : DagStore) : Prop := {
  wf_round : ∀ r h,
    h ∈ round_hashes d r ↔ ∃ c, certs d !! h = Some c ∧ Certificate.round c = r;
  wf_nonempty : ∀ r hs, by_round d !! r = Some hs → hs ≠ [];
  wf_nodup : ∀ r, NoDup (round_hashes d r);
  wf_hash : ∀ h c, certs d !! h = Some c → Certificate.hash c = h;
  wf_parents : ∀ h c p,
    certs d !! h = Some c → p ∈ Certificate.parents c →
    ∃ pc, certs d !! p = Some pc ∧ (Certificate.round pc < Certificate.round c)%N;
}.

(** The stores the public API can build. *)
Inductive reachable : DagStore → Prop :=
| reachable_new : reachable new
| reachable_insert d c r d' : reachable d → insert d c = (r, d') → reachable d'.

(** Insert a sequence of certificates, stopping at the first rejection. *)
Fixpoint insert_all (d : DagStore) (cs : list Certificate) : outcome ConsensusError DagStore :=
  match cs with
  | [] => Ok d
  | c :: cs' =>
      match insert d c with
      | (Ok _, d') => insert_all d' cs'
      | (Err e, _) => Err e
      | (Panic, _) => Panic
      end
  end.

Lemma check_parents_Ok cs child ps :
  check_parents cs child ps = Ok tt ↔
  ∀ p, p ∈ ps → ∃ pc, cs !! p = Some pc ∧ (Certificate.round pc < child)%N.
Proof.
  induction ps as [|p ps IH]; simpl.
  { split; [|done]. intros _ p Hp. by apply elem_of_nil in Hp. }
  setoid_rewrite elem_of_cons. destruct (cs !! p) as [pc|] eqn:E.
  - case_bool_decide.
    + split; [done|]. intros Hall. destruct (Hall p) as (pc' & ? & ?); [by left|].
      simplify_eq. lia.
    + rewrite IH. split.
      * intros Hall q [->|Hq]; [|by apply Hall]. exists pc. split; [done|lia].
      * intros Hall q Hq. apply Hall. by right.
  - split; [done|]. intros Hall. destruct (Hall p) as (pc' & ? & ?); [by left|]. congruence.
Qed.

Lemma check_parents_no_panic cs child ps : check_parents cs child ps ≠ Panic.
Proof.
  induction ps as [|p ps IH]; simpl; [done|].
  destruct (cs !! p); [|done]. by case_bool_decide.
Qed.

(** The condition under which [insert] accepts a certificate. *)
Definition admissible (d : DagStore) (c : Certificate) : Prop :=
  (Certificate.round c = 0%N → Certificate.parents c = []) ∧
  (∀ p, p ∈ Certificate.parents c →
     ∃ pc, certs d !! p = Some pc ∧ (Certificate.round pc < Certificate.round c)%N) ∧
  certs d !! Certificate.hash c = None.

Definition insert_result (d : DagStore) (c : Certificate) : DagStore :=
  mk (<[Certificate.hash c := c]> (certs d))
     (<[Certificate.round c := round_hashes d (Certificate.round c) ++ [Certificate.hash c]]>
        (by_round d)).

Lemma insert_Ok d c :
  admissible d c → insert d c = (Ok (Certificate.hash c), insert_result d c).
Proof.
  intros (Hgen & Hpar & Hdup). unfold insert. rewrite bool_decide_false by naive_solver.
  rewrite (proj2 (check_parents_Ok _ _ _) Hpar). unfold contains.
  rewrite bool_decide_false; [done|]. rewrite Hdup. by intros [? ?].
Qed.

Lemma insert_inv d c r d' :
  insert d c = (r, d') →
  (r = Ok (Certificate.hash c) ∧ d' = insert_result d c ∧ admissible d c) ∨
  (∃ e, r = Err e ∧ d' = d ∧ ¬ admissible d c).
Proof.
  unfold insert, admissible. intros E. case_bool_decide as Hg.
  { simplify_eq. right. eexists. split_and!; [done..|]. naive_solver. }
  destruct (check_parents _ _ _) as [[]|e|] eqn:Hp.
  - rewrite check_parents_Ok in Hp. unfold contains in E. case_bool_decide as Hc; simplify_eq.
    + right. eexists. split_and!; [done..|]. intros (_ & _ & Hn).
      rewrite Hn in Hc. by destruct Hc.
    + left. split_and!; try done.
      * intros Hr. destruct (Certificate.parents c) eqn:?; [done|]. destruct Hg. naive_solver.
      * destruct (certs d !! Certificate.hash c) eqn:Hl; [|done]. destruct Hc. eauto.
  - simplify_eq. right. exists e. split_and!; [done..|].
    intros (_ & Hpar & _). apply check_parents_Ok in Hpar. congruence.
  - by apply check_parents_no_panic in Hp.
Qed.

Lemma round_hashes_insert_result d c r :
  round_hashes (insert_result d c) r =
  if decide (Certificate.round c = r) then round_hashes d r ++ [Certificate.hash c]
  else round_hashes d r.
Proof.
  unfold round_hashes at 1, insert_result; simpl. rewrite lookup_insert.
  by case_decide; subst.
Qed.

Lemma wf_new : wf new.
Proof.
  split; unfold round_hashes, new; simpl.
  - intros r h. rewrite lookup_empty, elem_of_nil. naive_solver.
  - intros r hs. by rewrite lookup_empty.
  - intros r. rewrite lookup_empty. constructor.
  - intros h c. by rewrite lookup_empty.
  - intros h c p. by rewrite lookup_empty.
Qed.

Lemma wf_insert_result d c : wf d → admissible d c → wf (insert_result d c).
Proof.
  intros [Hr Hne Hnd Hh Hp] (Hgen & Hpar & Hfresh). split.
  - intros r h. rewrite round_hashes_insert_result. simpl.
    setoid_rewrite lookup_insert.
    destruct (decide (Certificate.hash c = h)) as [<-|Hneq].
    + case_decide as Hrd.
      * rewrite elem_of_app, list_elem_of_singleton. naive_solver.
      * rewrite Hr. naive_solver.
    + case_decide; [rewrite elem_of_app, list_elem_of_singleton|]; rewrite Hr; naive_solver.
  - intros r hs. simpl. rewrite lookup_insert. case_decide; [|apply Hne].
    intros [= <-]. by destruct (round_hashes d _).
  - intros r. rewrite round_hashes_insert_result. case_decide; [|done].
    apply NoDup_app. split_and!; [done| |apply NoDup_singleton].
    intros x Hx ->%list_elem_of_singleton. apply Hr in Hx as (? & ? & _). congruence.
  - intros h c'. simpl. rewrite lookup_insert. case_decide; [naive_solver|apply Hh].
  - intros h c' p. simpl. rewrite lookup_insert. intros Hl Hin.
    assert (∃ pc, certs d !! p = Some pc ∧ (Certificate.round pc < Certificate.round c')%N)
      as (pc & Hpc & Hlt) by (case_decide; simplify_eq; eauto).
    exists pc. split; [|done]. rewrite lookup_insert_ne; [done|]. congruence.
Qed.

Lemma wf_insert d c r d' : wf d → insert d c = (r, d') → wf d'.
Proof.
  intros Hwf [(? & -> & ?)|(? & ? & -> & _)]%insert_inv; [|done]. by apply wf_insert_result.
Qed.

Lemma reachable_wf d : reachable d → wf d.
Proof. induction 1; eauto using wf_new, wf_insert. Qed.

(** ** Linearization *)

(** The order of [linearize]: by round, then author, then hash. *)
Definition dag_key (p : CertHash * Certificate) : Round * (AuthorityId * CertHash) :=
  (Certificate.round p.2, author_key p).

Lemma author_key_inj d p q :
  certs d !! p.1 = Some p.2 → certs d !! q.1 = Some q.2 → author_key p = author_key q → p = q.
Proof. destruct p, q; unfold author_key; simpl. congruence. Qed.

(** The in-store pairs for a list of hashes. *)
Definition pairs (d : DagStore) (hs : list CertHash) : list (CertHash * Certificate) :=
  omap (λ h, (h,.) <$> certs d !! h) hs.

Lemma elem_of_pairs d hs h c : (h, c) ∈ pairs d hs ↔ h ∈ hs ∧ certs d !! h = Some c.
Proof.
  unfold pairs. rewrite list_elem_of_omap. split.
  - intros (h' & Hin & E). destruct (certs d !! h') eqn:?; naive_solver.
  - intros [Hin Hc]. exists h. by rewrite Hc.
Qed.

Lemma pairs_cons d h hs :
  pairs d (h :: hs) =
  match certs d !! h with Some c => (h, c) :: pairs d hs | None => pairs d hs end.
Proof. unfold pairs; simpl. by destruct (certs d !! h). Qed.

Lemma resolve_pairs d hs :
  (∀ h, h ∈ hs → is_Some (certs d !! h)) → resolve d hs = Some (pairs d hs) ∧ (pairs d hs).*1 = hs.
Proof.
  induction hs as [|h hs IH]; intros Hall; [done|].
  destruct (Hall h) as [c Hc]; [by left|].
  destruct IH as [IH1 IH2]; [by intros; apply Hall; right|].
  unfold resolve in *; simpl. unfold get in *. rewrite Hc; simpl. rewrite IH1; simpl.
  split; [done|]. by f_equal.
Qed.

Lemma NoDup_pairs d hs : NoDup hs → NoDup (pairs d hs).
Proof.
  induction 1 as [|h hs Hh Hnd IH]; [constructor|].
  rewrite pairs_cons. destruct (certs d !! h) as [c|] eqn:Hc; [|done]. constructor; [|done].
  rewrite elem_of_pairs. naive_solver.
Qed.

Lemma block_sorted (r : Round) (b : list (CertHash * Certificate)) :
  (∀ p, p ∈ b → Certificate.round p.2 = r) →
  StronglySorted (key_rel author_key) b → StronglySorted (key_rel dag_key) b.
Proof.
  intros Hr Hs. induction Hs as [|p b Hs IH Hp]; constructor.
  - apply IH. intros q Hq. apply Hr. by right.
  - rewrite Forall_forall in *. intros q Hq. specialize (Hp q Hq).
    unfold key_rel, dag_key in *; simpl. unfold prod_le; simpl.
    rewrite (Hr p), (Hr q) by set_solver. by rewrite decide_True.
Qed.

(** The blocks of ascending rounds, concatenated. *)
Lemma blocks_sorted d (es : list (Round * list CertHash)) :
  StronglySorted (key_rel fst) es → NoDup es.*1 →
  (∀ r hs, (r, hs) ∈ es → NoDup hs ∧ ∀ h c, h ∈ hs → certs d !! h = Some c → Certificate.round c = r) →
  let L := mjoin ((λ e, sort_by_key author_key (pairs d e.2)) <$> es) in
  StronglySorted (key_rel dag_key) L ∧ NoDup L.
Proof.
  induction es as [|[r hs] es IH]; intros Hs Hk Hall; simpl; [split; constructor|].
  apply StronglySorted_cons in Hs as [Hle Hs]. apply NoDup_cons in Hk as [Hr Hk].
  destruct IH as [IHs IHn]; [done..|intros; apply Hall; by right|].
  destruct (Hall r hs) as [Hnd Hround]; [by left|].
  assert (∀ p, p ∈ sort_by_key author_key (pairs d hs) → Certificate.round p.2 = r) as Hblk.
  { intros [h c]. rewrite elem_of_sort_by_key, elem_of_pairs. intros []. by eapply Hround. }
  assert (∀ p, p ∈ mjoin ((λ e, sort_by_key author_key (pairs d e.2)) <$> es) →
    (r < Certificate.round p.2)%N) as Hrest.
  { intros [h c]. rewrite list_elem_of_join. intros (b & Hin & Hb).
    apply list_elem_of_fmap in Hb as ([r' hs'] & -> & He). simpl in Hin.
    rewrite elem_of_sort_by_key, elem_of_pairs in Hin. destruct Hin.
    destruct (Hall r' hs') as [_ Hr']; [by right|]. simpl. rewrite (Hr' h c) by done.
    rewrite Forall_forall in Hle. specialize (Hle _ He). unfold key_rel in Hle; simpl in Hle.
    assert (r ≠ r'); [|lia]. intros ->. apply Hr. apply list_elem_of_fmap. by exists (r', hs'). }
  split.
  - apply StronglySorted_app_2; [|eapply block_sorted; eauto using sort_by_key_sorted|done].
    intros p q Hp Hq. unfold key_rel, dag_key; simpl. unfold prod_le; simpl.
    rewrite (Hblk p) by done. specialize (Hrest q Hq). rewrite decide_False by lia. lia.
  - apply NoDup_app. split_and!; [by apply NoDup_sort_by_key, NoDup_pairs| |done].
    intros p Hp Hq. apply Hblk in Hp. apply Hrest in Hq. lia.
Qed.

Lemma linearize_blocks d (es : list (Round * list CertHash)) :
  (∀ e, e ∈ es → resolve d e.2 = Some (pairs d e.2)) →
  (ls ← mapM (λ hs, rs ← resolve d hs; Some (fst <$> sort_by_key author_key rs)) (snd <$> es);
   Some (mjoin ls)) =
  Some (fst <$> mjoin ((λ e, sort_by_key author_key (pairs d e.2)) <$> es)).
Proof.
  induction es as [|e es IH]; intros Hres; [done|]. simpl.
  rewrite Hres by (by left). simpl.
  specialize (IH ltac:(intros; apply Hres; by right)).
  destruct (mapM _ _) as [ls|]; simpl in *; [|done].
  rewrite fmap_app. by injection IH as ->.
Qed.

(** [linearize] never panics on a well-formed store, and its result depends on
    the certificates only. *)
Lemma linearize_canonical d :
  wf d → linearize d = Some (fst <$> sort_by_key dag_key (map_to_list (certs d))).
Proof.
  intros [Hr Hne Hnd Hh Hp].
  assert (∀ r hs, (r, hs) ∈ btree_entries (by_round d) → round_hashes d r = hs) as Hrh.
  { intros r hs Hin%elem_of_btree_entries. unfold round_hashes. by rewrite Hin. }
  set (L := mjoin ((λ e, sort_by_key author_key (pairs d e.2)) <$> btree_entries (by_round d))).
  assert (linearize d = Some (fst <$> L)) as ->.
  { unfold linearize, btree_values, L. rewrite linearize_blocks; [done|].
    intros [r hs] <-%Hrh. apply resolve_pairs. intros h (c & ? & _)%Hr. eauto. }
  do 2 f_equal.
  destruct (blocks_sorted d (btree_entries (by_round d))) as [HS HN];
    [apply btree_entries_sorted|apply NoDup_fst_btree_entries| |].
  { intros r hs Hin%Hrh. subst hs. split; [done|]. intros h c Hin Hc.
    apply Hr in Hin as (c' & ? & ?). congruence. }
  symmetry. apply (sorted_by_key_unique dag_key); auto using sort_by_key_sorted.
  - intros [h1 c1] [h2 c2]. rewrite !elem_of_sort_by_key, !elem_of_map_to_list.
    unfold dag_key, author_key; simpl. intros ?? [= ???]. congruence.
  - rewrite sort_by_key_perm. apply NoDup_Permutation; [apply NoDup_map_to_list|done|].
    intros [h c]. rewrite elem_of_map_to_list. unfold L.
    rewrite list_elem_of_join. split.
    + intros Hc. assert (h ∈ round_hashes d (Certificate.round c)) as Hin by (apply Hr; eauto).
      unfold round_hashes in Hin. destruct (by_round d !! _) as [hs|] eqn:Hb; simpl in Hin;
        [|by apply elem_of_nil in Hin].
      eexists. split; [|apply list_elem_of_fmap; exists (Certificate.round c, hs); split;
        [done|by apply elem_of_btree_entries]].
      by rewrite elem_of_sort_by_key, elem_of_pairs.
    + intros (b & Hin & (e & -> & _)%list_elem_of_fmap).
      rewrite elem_of_sort_by_key, elem_of_pairs in Hin. naive_solver.
Qed.

Lemma elem_of_linearize d l h : wf d → linearize d = Some l → h ∈ l ↔ is_Some (certs d !! h).
Proof.
  intros Hwf E. rewrite linearize_canonical in E by done. injection E as <-.
  rewrite list_elem_of_fmap. split.
  - intros ([h' c] & -> & Hin). rewrite elem_of_sort_by_key, elem_of_map_to_list in Hin. eauto.
  - intros [c Hc]. exists (h, c). by rewrite elem_of_sort_by_key, elem_of_map_to_list.
Qed.

Lemma NoDup_linearize d l : wf d → linearize d = Some l → NoDup l.
Proof.
  intros Hwf E. rewrite linearize_canonical in E by done. injection E as <-.
  rewrite sort_by_key_perm. apply NoDup_fst_map_to_list.
Qed.

(** Position in a list sorted by a key follows the key strictly. *)
Lemma sorted_lookup_lt {A K} `{KeyOrder K} (f : A → K) (l : list A) i j x y :
  StronglySorted (key_rel f) l → l !! i = Some x → l !! j = Some y →
  ¬ key_le (f y) (f x) → i < j.
Proof.
  intros Hs Hi Hj Hlt. destruct (decide (i < j)) as [|Hge]; [done|]. destruct Hlt.
  destruct (decide (i = j)) as [->|Hne].
  { simplify_eq. reflexivity. }
  assert (j < i) as Hji by lia. revert i j Hi Hj Hji Hge Hne.
  induction Hs as [|z l Hs IH Hz]; intros i j Hi Hj Hji _ _; [done|].
  destruct j as [|j], i as [|i]; simplify_eq/=; try lia.
  - rewrite Forall_forall in Hz. apply Hz. by eapply list_elem_of_lookup_2.
  - eapply IH; eauto; lia.
Qed.

Lemma max_round_spec d :
  wf d →
  match max_round d with
  | None => certs d = ∅
  | Some r => (∃ h c, certs d !! h = Some c ∧ Certificate.round c = r) ∧
              ∀ h c, certs d !! h = Some c → (Certificate.round c ≤ r)%N
  end.
Proof.
  intros [Hr Hne _ _ _]. unfold max_round.
  assert (∀ h c, certs d !! h = Some c → Certificate.round c ∈ btree_keys (by_round d)) as Hkey.
  { intros h c Hc. apply elem_of_btree_keys.
    assert (h ∈ round_hashes d (Certificate.round c)) as Hin by (apply Hr; eauto).
    unfold round_hashes in Hin. destruct (by_round d !! _); [eauto|by apply elem_of_nil in Hin]. }
  destruct (last (btree_keys (by_round d))) as [r|] eqn:El.
  - apply last_Some in El as [ks Ek]. split.
    + assert (is_Some (by_round d !! r)) as [hs Hhs].
      { rewrite <-elem_of_btree_keys, Ek. set_solver. }
      destruct hs as [|h hs']; [by destruct (Hne _ _ Hhs)|].
      destruct (proj1 (Hr r h)) as (c & ? & ?); [|eauto].
      unfold round_hashes. rewrite Hhs. by left.
    + intros h c Hc. apply Hkey in Hc. rewrite Ek in Hc.
      assert (StronglySorted (key_rel id) (btree_keys (by_round d))) as Hs.
      { unfold btree_keys. pose proof (btree_entries_sorted (by_round d)) as Hs.
        induction Hs as [|e es Hs IH He]; simpl; constructor; [done|].
        rewrite Forall_fmap. eapply Forall_impl; [exact He|]. done. }
      rewrite Ek in Hs. apply elem_of_app in Hc as [Hc|Hc%list_elem_of_singleton]; [|by subst].
      pose proof (StronglySorted_app_1_elem_of _ _ _ _ _ Hs Hc
                    (proj2 (list_elem_of_singleton r r) eq_refl)) as Hle.
      unfold key_rel in Hle; simpl in Hle. lia.
  - apply last_None in El. apply map_empty. intros h.
    destruct (certs d !! h) as [c|] eqn:Hc; [|done].
    apply Hkey in Hc. rewrite El in Hc. by apply elem_of_nil in Hc.
Qed.

Lemma insert_all_spec d cs d' :
  wf d → insert_all d cs = Ok d' →
  wf d' ∧ ∀ h c, certs d' !! h = Some c ↔ certs d !! h = Some c ∨ (c ∈ cs ∧ Certificate.hash c = h).
Proof.
  revert d. induction cs as [|c cs IH]; intros d Hwf E; simpl in E.
  { simplify_eq. split; [done|]. intros. rewrite elem_of_nil. naive_solver. }
  destruct (insert d c) as [r d1] eqn:Ei. pose proof Ei as Ei'.
  apply insert_inv in Ei' as [(-> & -> & Hadm)|(e & -> & _)]; [|done].
  destruct (IH _ (wf_insert_result _ _ Hwf Hadm) E) as [Hwf' Hl].
  split; [done|]. intros h c'. rewrite Hl. simpl. rewrite elem_of_cons, lookup_insert.
  destruct Hadm as (_ & _ & Hfresh). case_decide; subst; naive_solver.
Qed.

Lemma insert_all_app d cs1 cs2 :
  insert_all d (cs1 ++ cs2) = let! d' := insert_all d cs1 in insert_all d' cs2.
Proof.
  revert d. induction cs1 as [|c cs1 IH]; intros d; [done|]. simpl.
  destruct (insert d c) as [[h|e|] d']; [apply IH|done..].
Qed.

Lemma insert_all_reachable d cs d' :
  reachable d → insert_all d cs = Ok d' → reachable d' ∧ certs d ⊆ certs d'.
Proof.
  intros Hr E. split.
  - revert d Hr E. induction cs as [|c cs IH]; intros d Hr E; simpl in E; [by simplify_eq|].
    destruct (insert d c) as [[h|e|] d1] eqn:Ei; [|done..]. eapply IH; [|done].
    by eapply reachable_insert.
  - apply insert_all_spec in E as [_ Hl]; [|by apply reachable_wf].
    apply map_subseteq_spec. intros h c Hc. apply Hl. by left.
Qed.

(** What each rejection says about the certificate. *)
Definition error_explains (d : DagStore) (c : Certificate) (e : ConsensusError) : Prop :=
  match e with
  | GenesisWithParents => Certificate.round c = 0%N ∧ Certificate.parents c ≠ []
  | UnknownParent p => p ∈ Certificate.parents c ∧ certs d !! p = None
  | NonMonotonicRound child parent =>
      child = Certificate.round c ∧ (child ≤ parent)%N ∧
      ∃ p pc, p ∈ Certificate.parents c ∧ certs d !! p = Some pc ∧ Certificate.round pc = parent
  | DuplicateCertificate h => h = Certificate.hash c ∧ is_Some (certs d !! h)
  end.

Lemma check_parents_Err cs child ps e :
  check_parents cs child ps = Err e →
  (∃ p, e = UnknownParent p ∧ p ∈ ps ∧ cs !! p = None) ∨
  (∃ p pc, e = NonMonotonicRound child (Certificate.round pc) ∧ p ∈ ps ∧ cs !! p = Some pc ∧
     (child ≤ Certificate.round pc)%N).
Proof.
  induction ps as [|p ps IH]; simpl; [done|]. destruct (cs !! p) as [pc|] eqn:Hc.
  - case_bool_decide.
    + intros [= <-]. right. exists p, pc. set_solver.
    + intros [(q & ? & ? & ?)|(q & qc & ? & ? & ? & ?)]%IH; [left|right]; set_solver.
  - intros [= <-]. left. set_solver.
Qed.

Lemma insert_Err d c e d' : insert d c = (Err e, d') → error_explains d c e.
Proof.
  unfold insert. case_bool_decide; [intros [= <- <-]; done|].
  destruct (check_parents _ _ _) as [[]|e'|] eqn:Hp; [| |done].
  - unfold contains. case_bool_decide; intros [= <- <-]. done.
  - intros [= <- <-].
    apply check_parents_Err in Hp as [(p & -> & ? & ?)|(p & pc & -> & ? & ? & ?)]; simpl;
      [done|]. split_and!; [done|lia|]. eauto 6.
Qed.

(** ** Properties *)

(** [DagStore::insert] accepts a certificate exactly when it is admissible
    (a genesis certificate has no parents, every parent is stored with a
    strictly smaller round, the hash is new); it then records it under its
    hash and appends the hash to its round.  A rejected certificate leaves the
    store unchanged and the error names the violated condition. *)
Theorem insert_spec d c :
  match insert d c with
  | (Ok h, d') => admissible d c ∧ h = Certificate.hash c ∧ d' = insert_result d c
  | (Err e, d') => ¬ admissible d c ∧ d' = d ∧ error_explains d c e
  | (Panic, _) => False
  end.
Proof.
  destruct (insert d c) as [r d'] eqn:E. pose proof E as E'.
  apply insert_inv in E' as [(-> & -> & ?)|(e & -> & -> & ?)]; [done|].
  split_and!; [done..|]. by eapply insert_Err.
Qed.

(** C23. Every store the API can build satisfies the store invariant (round index
    and certificate map agree, hashes are content hashes, parents are stored at
    smaller rounds), so no lookup of an indexed hash panics, and [max_round] is
    the largest certificate round, or [None] exactly on the empty store. *)
Theorem reachable_invariant d :
  reachable d →
  wf d ∧ is_Some (linearize d) ∧
  match max_round d with
  | None => certs d = ∅
  | Some r => (∃ h c, certs d !! h = Some c ∧ Certificate.round c = r) ∧
              ∀ h c, certs d !! h = Some c → (Certificate.round c ≤ r)%N
  end.
Proof.
  intros Hd%reachable_wf. split_and!; [done| |by apply max_round_spec].
  rewrite linearize_canonical by done. eauto.
Qed.

(** C24. The linearization does not depend on the order of insertion: two stores
    built by accepting the same certificates in different orders linearize to
    the same sequence. *)
Theorem linearize_insertion_order cs1 cs2 d1 d2 :
  cs1 ≡ₚ cs2 → insert_all new cs1 = Ok d1 → insert_all new cs2 = Ok d2 →
  is_Some (linearize d1) ∧ linearize d1 = linearize d2.
Proof.
  intros HP E1 E2.
  apply insert_all_spec in E1 as [Hw1 H1]; [|apply wf_new].
  apply insert_all_spec in E2 as [Hw2 H2]; [|apply wf_new].
  assert (certs d1 = certs d2) as Hc.
  { apply map_eq. intros h. apply option_eq. intros c. by rewrite H1, H2, HP. }
  rewrite !linearize_canonical by done. rewrite Hc. eauto.
Qed.

(** The linearization lists every stored certificate exactly once, each after
    all of its parents. *)
Theorem linearize_topological d :
  reachable d →
  ∃ l, linearize d = Some l ∧ NoDup l ∧ (∀ h, h ∈ l ↔ is_Some (certs d !! h)) ∧
    ∀ i j p h c, l !! i = Some p → l !! j = Some h → certs d !! h = Some c →
      p ∈ Certificate.parents c → i < j.
Proof.
  intros Hwf%reachable_wf. destruct (linearize d) as [l|] eqn:E;
    [|by rewrite linearize_canonical in E].
  exists l. split_and!; [done|by eapply NoDup_linearize|by intros; eapply elem_of_linearize|].
  intros i j p h c Hi Hj Hc Hp. rewrite linearize_canonical in E by done. injection E as <-.
  apply list_lookup_fmap_Some in Hi as ([p' pc] & -> & Hi).
  apply list_lookup_fmap_Some in Hj as ([h' hc] & -> & Hj). simpl in *.
  assert (certs d !! p' = Some pc ∧ certs d !! h' = Some hc) as [Hpc Hhc].
  { split; apply elem_of_map_to_list, (elem_of_sort_by_key dag_key);
      by eapply list_elem_of_lookup_2. }
  destruct (wf_parents d Hwf h' c p' Hc Hp) as (pc' & ? & ?). simplify_eq.
  eapply (sorted_lookup_lt dag_key); [apply sort_by_key_sorted|done..|].
  unfold dag_key; simpl. unfold prod_le; simpl. rewrite decide_False by lia. lia.
Qed.
End DagStore.
End DagStore.
Abbreviation DagStore := DagStore.DagStore.
#[export] Hint Resolve DagStore.reachable_wf : suwappu.

(** ** Concrete stores *)
Module DagExamples.
#[local] Existing Instance Toy.toy_blake3.

Definition payload (x : byte) : bytes := replicate 31 Byte.x00 ++ [x].
Definition cert (author : AuthorityId) (round : Round) (parents : list CertHash) (x : byte)
    : Certificate := Certificate.mk author round parents (payload x) [].
Definition gen (author : AuthorityId) : Certificate := Certificate.genesis author (payload Byte.x05).
Definition build (cs : list Certificate) : DagStore :=
  match DagStore.insert_all DagStore.new cs with Ok d => d | _ => DagStore.new end.

(** Four genesis certificates and three round-1 certificates citing author 0's. *)
Definition g (a : AuthorityId) : CertHash := Certificate.hash (gen a).
Definition two_rounds : list Certificate :=
  (gen <$> [0; 1; 2; 3]%N) ++ ((λ a, cert a 1 [g 0; g a] Byte.x01) <$> [1; 2; 3]%N).

Lemma build_reachable cs d :
  DagStore.insert_all DagStore.new cs = Ok d → DagStore.reachable d.
Proof. intros E. eapply DagStore.insert_all_reachable; [constructor|done]. Qed.

(** The run succeeds, checked without normalising the store itself. *)
Lemma build_ok cs :
  is_Ok (DagStore.insert_all DagStore.new cs) = true →
  DagStore.insert_all DagStore.new cs = Ok (build cs).
Proof. unfold build. by destruct (DagStore.insert_all _ _). Qed.

Lemma build_app cs1 cs2 :
  is_Ok (DagStore.insert_all DagStore.new (cs1 ++ cs2)) = true →
  DagStore.insert_all (build cs1) cs2 = Ok (build (cs1 ++ cs2)).
Proof.
  intros Hok. pose proof (build_ok _ Hok) as E. rewrite DagStore.insert_all_app in E.
  destruct (DagStore.insert_all DagStore.new cs1) as [d| |] eqn:E1; [|done..].
  unfold build at 1. by rewrite E1.
Qed.

Lemma two_rounds_reachable : DagStore.reachable (build two_rounds).
Proof. eapply build_reachable, build_ok. vm_compute. reflexivity. Qed.

Lemma reachable_invariant_witness :
  DagStore.wf (build two_rounds) ∧ is_Some (DagStore.linearize (build two_rounds)) ∧
  DagStore.max_round (build two_rounds) = Some 1%N.
Proof.
  destruct (DagStore.reachable_invariant (build two_rounds)) as (? & ? & _).
  - apply two_rounds_reachable.
  - split; [assumption|]. split; [assumption|]. vm_compute. reflexivity.
Defined.

Lemma linearize_insertion_order_witness :
  DagStore.linearize (build [gen 0; gen 1]) = DagStore.linearize (build [gen 1; gen 0]).
Proof.
  apply (DagStore.linearize_insertion_order [gen 0; gen 1] [gen 1; gen 0]).
  - apply perm_swap.
  - apply build_ok. vm_compute. reflexivity.
  - apply build_ok. vm_compute. reflexivity.
Defined.

Lemma linearize_topological_witness :
  ∃ l, DagStore.linearize (build two_rounds) = Some l ∧ NoDup l ∧ length l = 7.
Proof.
  destruct (DagStore.linearize_topological (build two_rounds)) as (l & E & Hnd & _).
  - apply two_rounds_reachable.
  - assert (length <$> DagStore.linearize (build two_rounds) = Some 7) as E'
      by (vm_compute; reflexivity).
    rewrite E in E'. injection E' as E'. exists l. split; [exact E|]. split; [exact Hnd|exact E'].
Defined.
End DagExamples.
