(* ===== verification/Commit.v ===== *)
(** * The DagBft-C commit rule ([crates/suwappu-consensus/src/commit.rs])

    Quorum threshold, leader schedule, direct and indirect commit rules, causal
    history by breadth-first search, and the finalized history.

    A result of type [option] is [None] when the Rust function panics: the
    [assert!] of [leader] on an empty committee, or an [expect] on a hash that
    does not resolve.  The search of [causal_history] carries fuel; [bfs_fuel]
    is the number of queue operations plus one, and is always enough. *)

From S2P Require Import Prelude Crypto Cert Dag.
Import DagStore(certs, wf, get, resolve, round_hashes, max_round, linearize, contains, dag_key).

Abbreviation CommitteeSize := N (only parsing).

Inductive LeaderStatus :=
| Direct (h : CertHash)
| Skip
| Undecided.

#[global] Instance LeaderStatus_eq_dec : EqDecision LeaderStatus.
Proof. solve_decision. Defined.

Definition quorum_threshold (n : CommitteeSize) : N :=
  if bool_decide (n = 0%N) then 1%N else (n - (n - 1) / 3)%N.

Definition leader (round : Round) (n : CommitteeSize) : option AuthorityId :=
  if bool_decide (0 < n)%N then Some (wrap 32 (round mod n)) else None.

Section commit.
Context `{Blake3}.

Definition cert_at (dag : DagStore) (round : Round) (author : AuthorityId)
    : option (option CertHash) :=
  rs ← resolve dag (round_hashes dag round);
  Some (list_min (fst <$> filter (λ p, Certificate.author p.2 = author) rs)).

Definition supporters (dag : DagStore) (target : CertHash) (round : Round)
    : option (gset AuthorityId) :=
  rs ← resolve dag (round_hashes dag round);
  Some (list_to_set
    (omap (λ p, if bool_decide (target ∈ Certificate.parents p.2)
                then Some (Certificate.author p.2) else None) rs)).

Definition try_direct_decide (dag : DagStore) (round : Round) (n : CommitteeSize)
    : option LeaderStatus :=
  author ← leader round n;
  lh ← cert_at dag round author;
  match lh with
  | None => Some Undecided
  | Some leader_hash =>
      support ← supporters dag leader_hash (wrap 64 (round + 1));
      Some (if bool_decide (quorum_threshold n ≤ wrap 32 (N.of_nat (size support)))%N
            then Direct leader_hash else Undecided)
  end.

(** The worklist loop of [causal_history]. *)
Fixpoint bfs (fuel : nat) (dag : DagStore) (seen : gset CertHash) (queue : list CertHash)
    : option (gset CertHash) :=
  match fuel with
  | O => None
  | S fuel' =>
      match queue with
      | [] => Some seen
      | h :: q =>
          if decide (h ∈ seen) then bfs fuel' dag seen q
          else
            match get dag h with
            | Some c => bfs fuel' dag ({[h]} ∪ seen) (q ++ Certificate.parents c)
            | None => bfs fuel' dag ({[h]} ∪ seen) q
            end
      end
  end.

Definition parent_count (dag : DagStore) : nat :=
  sum_list_with (λ p, length (Certificate.parents p.2)) (map_to_list (certs dag)).
Definition bfs_fuel (dag : DagStore) : nat := 2 + parent_count dag.

Definition causal_history (dag : DagStore) (start : CertHash) : option (list CertHash) :=
  seen ← bfs (bfs_fuel dag) dag ∅ [start];
  rs ← resolve dag (filter (λ h, contains dag h = true) (elements seen));
  Some (fst <$> sort_by_key dag_key rs).

Definition try_indirect_decide (dag : DagStore) (target_round : Round) (anchor : CertHash)
    (n : CommitteeSize) : option LeaderStatus :=
  target_author ← leader target_round n;
  th ← cert_at dag target_round target_author;
  match th with
  | None => Some Skip
  | Some target_hash =>
      hist ← causal_history dag anchor;
      Some (if bool_decide (target_hash ∈ hist) then Direct target_hash else Skip)
  end.

(** The [for anchor_round in ..] loop of [decide_slot]. *)
Fixpoint scan_anchors (dag : DagStore) (target_round : Round) (n : CommitteeSize)
    (anchors : list Round) (any_anchor_seen : bool) : option LeaderStatus :=
  match anchors with
  | [] => Some (if any_anchor_seen then Skip else Undecided)
  | anchor_round :: rest =>
      st ← try_direct_decide dag anchor_round n;
      match st with
      | Direct anchor_hash =>
          ind ← try_indirect_decide dag target_round anchor_hash n;
          match ind with
          | Direct h => Some (Direct h)
          | Skip | Undecided => scan_anchors dag target_round n rest true
          end
      | Skip | Undecided => scan_anchors dag target_round n rest any_anchor_seen
      end
  end.

Definition decide_slot (dag : DagStore) (target_round : Round) (n : CommitteeSize)
    : option LeaderStatus :=
  st ← try_direct_decide dag target_round n;
  match st with
  | Direct h => Some (Direct h)
  | Skip => Some Skip
  | Undecided =>
      match max_round dag with
      | None => Some Undecided
      | Some m =>
          scan_anchors dag target_round n (range_incl (wrap 64 (target_round + 2)) m) false
      end
  end.

Definition commit_leader (dag : DagStore) (round : Round) (n : CommitteeSize)
    : option (option CertHash) :=
  st ← decide_slot dag round n;
  Some (match st with Direct h => Some h | _ => None end).

(** The inner loop of [finalize]: push the hashes not yet included. *)
Fixpoint extend_finalized (finalized : list CertHash) (included : gset CertHash)
    (hs : list CertHash) : list CertHash * gset CertHash :=
  match hs with
  | [] => (finalized, included)
  | h :: hs' =>
      if decide (h ∈ included) then extend_finalized finalized included hs'
      else extend_finalized (finalized ++ [h]) ({[h]} ∪ included) hs'
  end.

(** The outer loop of [finalize], over the rounds. *)
Fixpoint finalize_rounds (dag : DagStore) (n : CommitteeSize) (rs : list Round)
    (acc : list CertHash * gset CertHash) : option (list CertHash * gset CertHash) :=
  match rs with
  | [] => Some acc
  | r :: rs' =>
      st ← decide_slot dag r n;
      match st with
      | Direct leader_hash =>
          hist ← causal_history dag leader_hash;
          finalize_rounds dag n rs' (extend_finalized acc.1 acc.2 hist)
      | Skip | Undecided => finalize_rounds dag n rs' acc
      end
  end.

Definition finalize (dag : DagStore) (n : CommitteeSize) : option (list CertHash) :=
  match max_round dag with
  | None => Some []
  | Some m => acc ← finalize_rounds dag n (range 0 m) ([], ∅); Some acc.1
  end.

(** ** Reachability along parent links *)

Definition edge (dag : DagStore) (a b : CertHash) : Prop :=
  ∃ c, certs dag !! a = Some c ∧ b ∈ Certificate.parents c.
Definition reaches (dag : DagStore) : relation CertHash := rtc (edge dag).

(** ** The breadth-first search *)

Definition total_parents (m : gmap CertHash Certificate) : nat :=
  sum_list_with (λ p, length (Certificate.parents p.2)) (map_to_list m).

Lemma total_parents_delete m h c :
  m !! h = Some c → total_parents m = length (Certificate.parents c) + total_parents (delete h m).
Proof. intros Hc. unfold total_parents. by rewrite <-(map_to_list_delete m h c Hc). Qed.

(** The loop ends: the queue and the parents still to be pushed shrink.  [m]
    holds every stored certificate not yet visited. *)
Lemma bfs_terminates dag fuel m seen queue :
  (∀ h c, certs dag !! h = Some c → h ∉ seen → m !! h = Some c) →
  length queue + total_parents m < fuel →
  is_Some (bfs fuel dag seen queue).
Proof.
  revert m seen queue. induction fuel as [|fuel IH]; intros m seen queue Hm Hf; [lia|].
  destruct queue as [|h q]; simpl in *; [eauto|].
  case_decide as Hs; [apply (IH m); [done|lia]|].
  unfold get. destruct (certs dag !! h) as [c|] eqn:Hc.
  - rewrite (total_parents_delete m h c) in Hf by eauto.
    apply (IH (delete h m)); [|rewrite length_app; lia].
    intros h' c' Hc' Hn. rewrite lookup_delete_ne by set_solver. apply Hm; set_solver.
  - apply (IH m); [|lia]. intros h' c' Hc' Hn. apply Hm; set_solver.
Qed.

Lemma bfs_sound dag start fuel seen queue res :
  (∀ h, h ∈ seen ∨ h ∈ queue → reaches dag start h) →
  bfs fuel dag seen queue = Some res → ∀ h, h ∈ res → reaches dag start h.
Proof.
  revert seen queue. induction fuel as [|fuel IH]; intros seen queue Hinv E h Hh; [done|].
  destruct queue as [|x q]; simpl in *; [simplify_eq; auto|].
  case_decide; [eapply IH; [|done..]; set_solver|].
  assert (reaches dag start x) as Hx by (apply Hinv; set_solver).
  unfold get in E. destruct (certs dag !! x) as [c|] eqn:Hc; (eapply IH; [|done..]); [|set_solver].
  intros y [Hy|[Hy|Hy]%elem_of_app]; [set_solver..|].
  eapply rtc_r; [exact Hx|]. by exists c.
Qed.

Lemma bfs_complete dag fuel seen queue res :
  (∀ h c, h ∈ seen → certs dag !! h = Some c →
     ∀ p, p ∈ Certificate.parents c → p ∈ seen ∨ p ∈ queue) →
  bfs fuel dag seen queue = Some res →
  (∀ h, h ∈ seen ∨ h ∈ queue → h ∈ res) ∧
  (∀ a b, a ∈ res → edge dag a b → b ∈ res).
Proof.
  revert seen queue. induction fuel as [|fuel IH]; intros seen queue Hinv E; [done|].
  destruct queue as [|x q]; simpl in *.
  { simplify_eq. split; [set_solver|]. intros a b Ha (c & Hc & Hb).
    destruct (Hinv a c Ha Hc b Hb); set_solver. }
  case_decide.
  { edestruct (IH seen q) as [H1 H2]; [|done|split; [|done]; set_solver].
    intros h c Hh Hc p Hp. destruct (Hinv h c Hh Hc p Hp); set_solver. }
  unfold get in E. destruct (certs dag !! x) as [cx|] eqn:Hx;
    (edestruct IH as [H1 H2]; [|exact E|split; [|done]; set_solver]);
    intros h c [->%elem_of_singleton|Hh]%elem_of_union Hc p Hp; simplify_eq.
  - set_solver.
  - destruct (Hinv h c Hh Hc p Hp); set_solver.
  - destruct (Hinv h c Hh Hc p Hp); set_solver.
Qed.

Lemma bfs_spec dag start :
  ∃ res, bfs (bfs_fuel dag) dag ∅ [start] = Some res ∧ ∀ h, h ∈ res ↔ reaches dag start h.
Proof.
  destruct (bfs_terminates dag (bfs_fuel dag) (certs dag) ∅ [start]) as [res E];
    [done|unfold bfs_fuel; change (parent_count dag) with (total_parents (certs dag)); simpl; lia|].
  exists res. split; [done|]. intros h. split.
  - eapply bfs_sound; [|done]. intros x Hx. assert (x = start) as -> by set_solver. apply rtc_refl.
  - destruct (bfs_complete dag (bfs_fuel dag) ∅ [start] res) as [H1 H2]; [set_solver|done|].
    assert (start ∈ res) as Hs by (apply H1; set_solver). clear -Hs H2.
    intros Hr. revert h Hr. apply (rtc_ind_r (λ h, h ∈ res) start); eauto.
Qed.

Lemma causal_history_pairs dag start :
  ∃ ps, causal_history dag start = Some (fst <$> sort_by_key dag_key ps) ∧ NoDup ps ∧
    ∀ h c, (h, c) ∈ ps ↔ certs dag !! h = Some c ∧ reaches dag start h.
Proof.
  destruct (bfs_spec dag start) as (seen & E & Hseen).
  set (hs := filter (λ h, contains dag h = true) (elements seen)).
  assert (∀ h, h ∈ hs ↔ is_Some (certs dag !! h) ∧ reaches dag start h) as Hhs.
  { intros h. unfold hs. rewrite list_elem_of_filter, elem_of_elements, Hseen.
    unfold contains. by rewrite bool_decide_eq_true. }
  destruct (DagStore.resolve_pairs dag hs) as [Hres _]; [by intros h [? _]%Hhs|].
  exists (DagStore.pairs dag hs). unfold causal_history. rewrite E. simpl.
  fold hs. rewrite Hres. simpl. split_and!; [done| |].
  - apply DagStore.NoDup_pairs. unfold hs. apply NoDup_filter, NoDup_elements.
  - intros h c. rewrite DagStore.elem_of_pairs, Hhs. naive_solver.
Qed.

Lemma elem_of_causal_history dag start l h :
  causal_history dag start = Some l → h ∈ l ↔ is_Some (certs dag !! h) ∧ reaches dag start h.
Proof.
  destruct (causal_history_pairs dag start) as (ps & -> & _ & Hps). intros [= <-].
  rewrite list_elem_of_fmap. split.
  - intros ([h' c] & -> & Hin). rewrite elem_of_sort_by_key, Hps in Hin. naive_solver.
  - intros [[c Hc] Hr]. exists (h, c). by rewrite elem_of_sort_by_key, Hps.
Qed.

Lemma NoDup_causal_history dag start l : causal_history dag start = Some l → NoDup l.
Proof.
  destruct (causal_history_pairs dag start) as (ps & -> & Hnd & Hps). intros [= <-].
  rewrite sort_by_key_perm. apply NoDup_fmap_2_strong; [|done].
  intros [h1 c1] [h2 c2] H1%Hps H2%Hps ?; simpl in *. naive_solver.
Qed.

Lemma causal_history_total dag start : is_Some (causal_history dag start).
Proof. destruct (causal_history_pairs dag start) as (ps & -> & _). eauto. Qed.

(** ** The slot rules on a well-formed store *)

(** The leader certificate of a slot: the least hash among those the leader
    authored at the round. *)
Definition slot_cert (dag : DagStore) (r : Round) (a : AuthorityId) (h : CertHash) : Prop :=
  (∃ c, certs dag !! h = Some c ∧ Certificate.round c = r ∧ Certificate.author c = a) ∧
  ∀ h' c', certs dag !! h' = Some c' → Certificate.round c' = r → Certificate.author c' = a →
    key_le h h'.

Lemma resolve_round dag r :
  wf dag → ∃ rs, resolve dag (round_hashes dag r) = Some rs ∧
    ∀ h c, (h, c) ∈ rs ↔ certs dag !! h = Some c ∧ Certificate.round c = r.
Proof.
  intros Hwf. exists (DagStore.pairs dag (round_hashes dag r)). split.
  - apply DagStore.resolve_pairs. intros h (c & ? & _)%(DagStore.wf_round dag Hwf). eauto.
  - intros h c. rewrite DagStore.elem_of_pairs, (DagStore.wf_round dag Hwf). naive_solver.
Qed.

Lemma cert_at_spec dag r a :
  wf dag →
  ∃ o, cert_at dag r a = Some o ∧
    match o with
    | Some h => slot_cert dag r a h
    | None => ∀ h c, certs dag !! h = Some c → Certificate.round c = r → Certificate.author c ≠ a
    end.
Proof.
  intros Hwf. destruct (resolve_round dag r Hwf) as (rs & E & Hrs).
  unfold cert_at. rewrite E. simpl. eexists. split; [done|].
  set (l := fst <$> filter (λ p, Certificate.author p.2 = a) rs).
  assert (∀ h, h ∈ l ↔ ∃ c, certs dag !! h = Some c ∧ Certificate.round c = r ∧
    Certificate.author c = a) as Hl.
  { intros h. unfold l. rewrite list_elem_of_fmap. split.
    - intros ([h' c] & -> & [Ha Hin]%list_elem_of_filter). apply Hrs in Hin. naive_solver.
    - intros (c & Hc & Hr & Ha). exists (h, c). rewrite list_elem_of_filter, Hrs. done. }
  pose proof (list_min_spec l) as Hmin. destruct (list_min l) as [h|].
  - destruct Hmin as [Hin Hmin]. split; [by apply Hl|]. intros. apply Hmin, Hl. eauto.
  - intros h c Hc Hr Ha. assert (h ∈ l) as Hin by (apply Hl; eauto).
    rewrite Hmin in Hin. by apply elem_of_nil in Hin.
Qed.

Lemma slot_cert_unique dag r a h1 h2 : slot_cert dag r a h1 → slot_cert dag r a h2 → h1 = h2.
Proof. intros [(?&?&?&?) Hm1] [(?&?&?&?) Hm2]. apply (anti_symm key_le); eauto. Qed.

Lemma cert_at_Some dag r a h : wf dag → cert_at dag r a = Some (Some h) ↔ slot_cert dag r a h.
Proof.
  intros Hwf. destruct (cert_at_spec dag r a Hwf) as ([h'|] & -> & Hs).
  - split; [naive_solver|]. intros Hh. do 2 f_equal. by eapply slot_cert_unique.
  - split; [done|]. intros [(c & Hc & Hr & Ha) _]. naive_solver.
Qed.

Lemma supporters_spec dag t r :
  wf dag → ∃ S, supporters dag t r = Some S ∧
    ∀ a, a ∈ S ↔ ∃ h c, certs dag !! h = Some c ∧ Certificate.round c = r ∧
                   t ∈ Certificate.parents c ∧ Certificate.author c = a.
Proof.
  intros Hwf. destruct (resolve_round dag r Hwf) as (rs & E & Hrs).
  unfold supporters. rewrite E. simpl. eexists. split; [done|].
  intros a. rewrite elem_of_list_to_set, list_elem_of_omap. split.
  - intros ([h c] & Hin & Ha). simpl in *. apply Hrs in Hin as [??].
    case_bool_decide; simplify_eq. eauto 7.
  - intros (h & c & Hc & Hr & Hp & Ha). exists (h, c). rewrite Hrs. split; [done|].
    simpl. rewrite bool_decide_true by done. congruence.
Qed.

Lemma leader_Some r n : (0 < n)%N → leader r n = Some (wrap 32 (r mod n)).
Proof. intros. unfold leader. by rewrite bool_decide_true. Qed.

(** The slot's leader certificate, with the leader resolved. *)
Definition leader_cert (dag : DagStore) (r : Round) (n : CommitteeSize) (h : CertHash) : Prop :=
  ∃ a, leader r n = Some a ∧ slot_cert dag r a h.

(** Quorum support at the next round, on [supporters]. *)
Definition quorum_supported (dag : DagStore) (r : Round) (n : CommitteeSize) (h : CertHash) : Prop :=
  ∃ S, supporters dag h (wrap 64 (r + 1)) = Some S ∧
       (quorum_threshold n ≤ wrap 32 (N.of_nat (size S)))%N.

Definition direct_committed (dag : DagStore) (r : Round) (n : CommitteeSize) (h : CertHash) : Prop :=
  leader_cert dag r n h ∧ quorum_supported dag r n h.

Lemma try_direct_decide_spec dag r n :
  wf dag → (0 < n)%N →
  (∃ h, try_direct_decide dag r n = Some (Direct h) ∧ direct_committed dag r n h) ∨
  (try_direct_decide dag r n = Some Undecided ∧ ∀ h, ¬ direct_committed dag r n h).
Proof.
  intros Hwf Hn. unfold try_direct_decide, direct_committed, leader_cert, quorum_supported.
  rewrite leader_Some by done. simpl.
  destruct (cert_at_spec dag r (wrap 32 (r mod n)) Hwf) as ([h|] & -> & Hs); simpl.
  - destruct (supporters_spec dag h (wrap 64 (r + 1)) Hwf) as (S & ES & _). rewrite ES. simpl.
    case_bool_decide as Hq; [left; exists h; naive_solver|]. right. split; [done|].
    intros h' [(a & [= <-] & Hs') (S' & HS & Hq')].
    assert (h' = h) as -> by (by eapply slot_cert_unique).
    naive_solver.
  - right. split; [done|]. intros h [(a & [= <-] & [(c & Hc & Hr & Ha) _]) _]. naive_solver.
Qed.

Lemma leader_cert_unique dag r n h1 h2 :
  leader_cert dag r n h1 → leader_cert dag r n h2 → h1 = h2.
Proof. intros (a1 & E1 & S1) (a2 & E2 & S2). simplify_eq. by eapply slot_cert_unique. Qed.

Lemma leader_cert_stored dag r n h :
  leader_cert dag r n h → ∃ c, certs dag !! h = Some c ∧ Certificate.round c = r.
Proof. intros (a & _ & (c & ? & ? & _) & _). eauto. Qed.

Lemma try_indirect_decide_spec dag t anchor n :
  wf dag → (0 < n)%N →
  (∃ h, try_indirect_decide dag t anchor n = Some (Direct h) ∧
        leader_cert dag t n h ∧ reaches dag anchor h) ∨
  (try_indirect_decide dag t anchor n = Some Skip ∧
   ∀ h, leader_cert dag t n h → ¬ reaches dag anchor h).
Proof.
  intros Hwf Hn. unfold try_indirect_decide, leader_cert.
  rewrite leader_Some by done. simpl.
  destruct (cert_at_spec dag t (wrap 32 (t mod n)) Hwf) as ([h|] & -> & Hs); simpl.
  - destruct (causal_history_total dag anchor) as [l El]. rewrite El. simpl.
    pose proof (elem_of_causal_history _ _ _ h El) as Hin.
    case_bool_decide as Hh.
    + left. exists h. split_and!; [done|eauto|by apply Hin].
    + right. split; [done|]. intros h' (a & [= <-] & Hs') Hr.
      assert (h' = h) as -> by (by eapply slot_cert_unique). apply Hh, Hin. split; [|done].
      destruct Hs as [(c & ? & _) _]. eauto.
  - right. split; [done|]. intros h (a & [= <-] & [(c & Hc & Hr & Ha) _]). naive_solver.
Qed.

Lemma scan_anchors_spec dag t n anchors seen :
  wf dag → (0 < n)%N →
  match scan_anchors dag t n anchors seen with
  | Some (Direct h) =>
      leader_cert dag t n h ∧
      ∃ ar ah, ar ∈ anchors ∧ direct_committed dag ar n ah ∧ reaches dag ah h
  | Some Skip =>
      (∀ h ar ah, leader_cert dag t n h → ar ∈ anchors → direct_committed dag ar n ah →
         ¬ reaches dag ah h) ∧
      (seen = true ∨ ∃ ar ah, ar ∈ anchors ∧ direct_committed dag ar n ah)
  | Some Undecided =>
      seen = false ∧ ∀ ar ah, ar ∈ anchors → ¬ direct_committed dag ar n ah
  | None => False
  end.
Proof.
  intros Hwf Hn. revert seen. induction anchors as [|ar anchors IH]; intros seen; simpl.
  { destruct seen; set_solver. }
  destruct (try_direct_decide_spec dag ar n Hwf Hn) as [(ah & -> & Hd)|[-> Hd]]; simpl.
  - destruct (try_indirect_decide_spec dag t ah n Hwf Hn) as [(h & -> & Hl & Hr)|[-> Hsk]]; simpl.
    + split; [done|]. exists ar, ah. set_solver.
    + specialize (IH true). destruct (scan_anchors dag t n anchors true) as [[h| |]|];
        [| | |done]; setoid_rewrite elem_of_cons.
      * destruct IH as [? (ar' & ah' & ? & ? & ?)]. split; [done|]. exists ar', ah'. auto.
      * destruct IH as [IH _]. split; [|right; exists ar, ah; auto].
        intros h ar' ah' Hl [->|Hin] Hd' Hr; [|by eapply IH].
        assert (ah' = ah) as -> by (destruct Hd, Hd'; by eapply leader_cert_unique).
        by eapply Hsk.
      * by destruct IH.
  - specialize (IH seen). destruct (scan_anchors dag t n anchors seen) as [[h| |]|];
      [| | |done]; setoid_rewrite elem_of_cons.
    + destruct IH as [? (ar' & ah' & ? & ? & ?)]. split; [done|]. exists ar', ah'. auto.
    + destruct IH as [IH1 IH2]. split; [naive_solver|naive_solver].
    + naive_solver.
Qed.

(** A directly committed anchor that [decide_slot] consults for slot [t]. *)
Definition anchor (dag : DagStore) (t : Round) (n : CommitteeSize) (ah : CertHash) : Prop :=
  ∃ ar, (wrap 64 (t + 2) ≤ ar)%N ∧ direct_committed dag ar n ah.

Lemma direct_committed_round dag r n h m :
  wf dag → direct_committed dag r n h → max_round dag = Some m → (r ≤ m)%N.
Proof.
  intros Hwf [Hl _] Hm. destruct (leader_cert_stored _ _ _ _ Hl) as (c & Hc & <-).
  pose proof (DagStore.max_round_spec dag Hwf) as Hmax. rewrite Hm in Hmax. by eapply Hmax.
Qed.

Lemma direct_committed_max dag r n h :
  wf dag → direct_committed dag r n h → is_Some (max_round dag).
Proof.
  intros Hwf [Hl _]. destruct (leader_cert_stored _ _ _ _ Hl) as (c & Hc & <-).
  pose proof (DagStore.max_round_spec dag Hwf) as Hmax. destruct (max_round dag); [eauto|].
  rewrite Hmax in Hc. by rewrite lookup_empty in Hc.
Qed.

Lemma anchor_in_range dag t n m :
  wf dag → max_round dag = Some m →
  ∀ ar ah, direct_committed dag ar n ah →
    (ar ∈ range_incl (wrap 64 (t + 2)) m ↔ (wrap 64 (t + 2) ≤ ar)%N).
Proof.
  intros Hwf Hm ar ah Hd. rewrite elem_of_range_incl.
  pose proof (direct_committed_round _ _ _ _ _ Hwf Hd Hm). lia.
Qed.

Lemma decide_slot_cases dag t n :
  wf dag → (0 < n)%N →
  match decide_slot dag t n with
  | Some (Direct h) =>
      leader_cert dag t n h ∧
      (quorum_supported dag t n h ∨ ∃ ah, anchor dag t n ah ∧ reaches dag ah h)
  | Some Skip =>
      (∀ h, leader_cert dag t n h →
         ¬ quorum_supported dag t n h ∧ ∀ ah, anchor dag t n ah → ¬ reaches dag ah h) ∧
      ∃ ah, anchor dag t n ah
  | Some Undecided =>
      (∀ h, leader_cert dag t n h → ¬ quorum_supported dag t n h) ∧ ∀ ah, ¬ anchor dag t n ah
  | None => False
  end.
Proof.
  intros Hwf Hn. unfold decide_slot.
  destruct (try_direct_decide_spec dag t n Hwf Hn) as [(h & -> & [? ?])|[-> Hd]]; simpl; [auto|].
  destruct (max_round dag) as [m|] eqn:Hm.
  2: { split; [unfold direct_committed in Hd; naive_solver|]. intros ah (ar & _ & Hc).
       apply direct_committed_max in Hc as [? ?]; [congruence|done]. }
  pose proof (scan_anchors_spec dag t n (range_incl (wrap 64 (t + 2)) m) false Hwf Hn) as Hs.
  pose proof (anchor_in_range dag t n m Hwf Hm) as Hr.
  unfold anchor, direct_committed in *.
  destruct (scan_anchors _ _ _ _ _) as [[h| |]|]; [| | |done].
  - destruct Hs as [Hl (ar & ah & Hin & Hc & Hreach)]. split; [done|]. right.
    exists ah. split; [|done]. exists ar. split; [by eapply Hr|done].
  - destruct Hs as [Hs [?|(ar & ah & Hin & Hc)]]; [done|]. split.
    + intros h Hl. split; [naive_solver|]. intros ah' (ar' & Hle & Hc').
      eapply Hs; [done| |done]. by eapply Hr.
    + exists ah, ar. split; [by eapply Hr|done].
  - destruct Hs as [_ Hs]. split; [naive_solver|]. intros ah (ar & Hle & Hc).
    eapply Hs; [|done]. by eapply Hr.
Qed.

(** ** Finality *)

Definition extends (dag dag' : DagStore) : Prop := certs dag ⊆ certs dag'.

(** Every stored certificate is authored by a committee member. *)
Definition committee (dag : DagStore) (n : CommitteeSize) : Prop :=
  map_Forall (λ _ c, (Certificate.author c < n)%N) (certs dag).

(** No leader slot holds two certificates of its leader. *)
Definition leader_honest (dag : DagStore) (n : CommitteeSize) : Prop :=
  map_Forall (λ h1 c1, map_Forall (λ h2 c2,
    Certificate.round c1 = Certificate.round c2 →
    Certificate.author c1 = Certificate.author c2 →
    leader (Certificate.round c1) n = Some (Certificate.author c1) → h1 = h2)
    (certs dag)) (certs dag).

Lemma extends_reaches dag dag' a b : extends dag dag' → reaches dag a b → reaches dag' a b.
Proof.
  intros He Hr. revert b Hr. apply (rtc_ind_r (reaches dag' a)); [apply rtc_refl|].
  intros x y _ (c & Hc & Hy) IH. eapply rtc_r; [exact IH|]. exists c. split; [|done].
  by eapply lookup_weaken.
Qed.

Lemma leader_cert_mono dag dag' r n h :
  extends dag dag' → leader_honest dag' n → leader_cert dag r n h → leader_cert dag' r n h.
Proof.
  intros He Hh (a & Ha & (c & Hc & Hr & Hau) & _). exists a. split; [done|]. subst.
  assert (certs dag' !! h = Some c) as Hc' by (by eapply lookup_weaken).
  split; [eauto|]. intros h' c' Hl' Hr' Ha'.
  assert (h = h') as <-; [|reflexivity]. by eapply (Hh h c Hc' h' c' Hl').
Qed.

Lemma size_below (S : gset N) n : (∀ a, a ∈ S → (a < n)%N) → (N.of_nat (size S) ≤ n)%N.
Proof.
  intros HS. assert (S ⊆ range_set n) as Hsub%subseteq_size.
  { intros a Ha. by apply elem_of_range_set, HS. }
  rewrite size_range_set in Hsub. lia.
Qed.

Lemma supporters_mono dag dag' t r S S' :
  wf dag → wf dag' → extends dag dag' →
  supporters dag t r = Some S → supporters dag' t r = Some S' → S ⊆ S'.
Proof.
  intros Hw Hw' He E E'.
  destruct (supporters_spec dag t r Hw) as (S1 & E1 & H1).
  destruct (supporters_spec dag' t r Hw') as (S2 & E2 & H2). simplify_eq.
  intros a (h & c & Hc & ? & ? & ?)%H1. apply H2. exists h, c.
  split_and!; try done. by eapply lookup_weaken.
Qed.

Lemma supporters_below dag t r S n :
  wf dag → committee dag n → supporters dag t r = Some S → ∀ a, a ∈ S → (a < n)%N.
Proof.
  intros Hw Hcm E a Ha. destruct (supporters_spec dag t r Hw) as (S1 & E1 & H1). simplify_eq.
  apply H1 in Ha as (h & c & Hc & _ & _ & <-). by eapply (Hcm h c).
Qed.

Lemma quorum_supported_mono dag dag' r n h :
  wf dag → wf dag' → extends dag dag' → committee dag' n → (n < width 32)%N →
  quorum_supported dag r n h → quorum_supported dag' r n h.
Proof.
  intros Hw Hw' He Hc Hn (S & ES & Hq).
  destruct (supporters_spec dag' h (wrap 64 (r + 1)) Hw') as (S' & ES' & _).
  exists S'. split; [done|].
  pose proof (supporters_mono _ _ _ _ _ _ Hw Hw' He ES ES') as Hsub.
  pose proof (size_below S' n (supporters_below _ _ _ _ _ Hw' Hc ES')) as HS'.
  apply subseteq_size in Hsub. rewrite !wrap_small in * by lia. lia.
Qed.

Lemma decide_slot_mono dag dag' r n h :
  wf dag → wf dag' → extends dag dag' → (0 < n < width 32)%N → committee dag' n →
  leader_honest dag' n →
  decide_slot dag r n = Some (Direct h) → decide_slot dag' r n = Some (Direct h).
Proof.
  intros Hw Hw' He [Hn Hn'] Hc Hh E.
  pose proof (decide_slot_cases dag r n Hw Hn) as Hd. rewrite E in Hd.
  destruct Hd as [Hl Hd]. apply (leader_cert_mono _ dag') in Hl; [|done..].
  assert (quorum_supported dag' r n h ∨ ∃ ah, anchor dag' r n ah ∧ reaches dag' ah h) as Hd'.
  { destruct Hd as [Hq|(ah & (ar & Hle & Hdl & Hdq) & Hr)]; [left|right].
    - by apply (quorum_supported_mono dag).
    - exists ah. split; [|by apply (extends_reaches dag)]. exists ar. split; [done|]. split.
      + by apply (leader_cert_mono dag).
      + by apply (quorum_supported_mono dag). }
  pose proof (decide_slot_cases dag' r n Hw' Hn) as Hd2.
  destruct (decide_slot dag' r n) as [[h'| |]|]; [| | |done].
  - do 2 f_equal. eapply leader_cert_unique; [apply Hd2|done].
  - destruct Hd2 as [Hd2 _]. destruct (Hd2 h Hl) as [? Hno].
    destruct Hd' as [?|(ah & ? & ?)]; [done|]. by destruct (Hno ah).
  - destruct Hd2 as [Hd2 Hno]. destruct Hd' as [?|(ah & Ha & _)]; [by destruct (Hd2 h)|].
    by destruct (Hno ah).
Qed.

(** ** The finalized history *)

(** Every element is preceded by its parents. *)
Definition parents_first (dag : DagStore) (l : list CertHash) : Prop :=
  ∀ pre h post c p, l = pre ++ h :: post → certs dag !! h = Some c →
    p ∈ Certificate.parents c → p ∈ pre.

Lemma causal_history_parents_first dag start l :
  wf dag → causal_history dag start = Some l → parents_first dag l.
Proof.
  intros Hwf E pre h post c p El Hc Hp. pose proof (elem_of_causal_history _ _ _ p E) as Hin.
  destruct (causal_history_pairs dag start) as (ps & E' & _ & Hps).
  rewrite E in E'. injection E' as ->.
  destruct (DagStore.wf_parents dag Hwf h c p Hc Hp) as (pc & Hpc & Hlt).
  apply fmap_app_inv in El as (l1 & l2 & -> & El2 & Esort).
  symmetry in El2. apply fmap_cons_inv in El2 as ([h' c'] & l3 & -> & -> & ->). simpl in *.
  assert ((h', c') ∈ ps) as Hin'.
  { rewrite <-(elem_of_sort_by_key dag_key), Esort. set_solver. }
  apply Hps in Hin' as [Hc' Hr]. simplify_eq.
  assert (reaches dag start p) as Hrp by (eapply rtc_r; [done|]; by exists c).
  assert ((p, pc) ∈ l1 ++ (h', c) :: l3) as Hpp.
  { by rewrite <-Esort, elem_of_sort_by_key, Hps. }
  apply elem_of_app in Hpp as [?|[?|Hpp]%elem_of_cons].
  - apply list_elem_of_fmap. by exists (p, pc).
  - simplify_eq. lia.
  - pose proof (sort_by_key_sorted dag_key ps) as Hs. rewrite Esort in Hs.
    apply StronglySorted_app_1_r, StronglySorted_cons in Hs as [Hs _].
    rewrite Forall_forall in Hs. specialize (Hs _ Hpp).
    unfold key_rel, dag_key in Hs; simpl in Hs. unfold prod_le in Hs; simpl in Hs.
    rewrite decide_False in Hs by lia. lia.
Qed.

Lemma parents_first_snoc dag l h :
  parents_first dag l →
  (∀ c p, certs dag !! h = Some c → p ∈ Certificate.parents c → p ∈ l) →
  parents_first dag (l ++ [h]).
Proof.
  intros Hl Hh pre x post c p E Hc Hp.
  destruct post as [|y post _] using rev_ind.
  - apply app_inj_2 in E as [-> E]; [|done]. injection E as ->. eauto.
  - rewrite app_comm_cons, app_assoc in E. apply app_inj_2 in E as [E _]; [|done]. by eapply Hl.
Qed.

Lemma extend_finalized_spec dag fin inc hs :
  inc = list_to_set fin → NoDup fin → parents_first dag fin →
  (∀ pre h post c p, hs = pre ++ h :: post → certs dag !! h = Some c →
     p ∈ Certificate.parents c → p ∈ pre ∨ p ∈ fin) →
  let acc := extend_finalized fin inc hs in
  acc.2 = list_to_set acc.1 ∧ NoDup acc.1 ∧ parents_first dag acc.1 ∧
  ∀ x, x ∈ acc.1 ↔ x ∈ fin ∨ x ∈ hs.
Proof.
  revert fin inc. induction hs as [|h hs IH]; intros fin inc -> Hnd Hpf Hhs; simpl.
  { split_and!; [done..|]. set_solver. }
  case_decide as Hin; rewrite elem_of_list_to_set in Hin.
  - destruct (IH fin (list_to_set fin)) as (? & ? & ? & Hx); [done..| |].
    { intros pre x post c p -> Hc Hp.
      destruct (Hhs (h :: pre) x post c p eq_refl Hc Hp); set_solver. }
    split_and!; [done..|]. intros x. rewrite Hx. set_solver.
  - destruct (IH (fin ++ [h]) ({[h]} ∪ list_to_set fin)) as (? & ? & ? & Hx).
    + rewrite list_to_set_app_L. set_solver.
    + apply NoDup_app. split_and!; [done|set_solver|apply NoDup_singleton].
    + apply parents_first_snoc; [done|]. intros c p Hc Hp.
      destruct (Hhs [] h hs c p eq_refl Hc Hp) as [Hn|]; [by apply elem_of_nil in Hn|done].
    + intros pre x post c p -> Hc Hp.
      destruct (Hhs (h :: pre) x post c p eq_refl Hc Hp); set_solver.
    + split_and!; [done..|]. intros x. rewrite Hx. set_solver.
Qed.

Lemma finalize_rounds_spec dag n rs acc :
  wf dag → (0 < n)%N →
  acc.2 = list_to_set acc.1 → NoDup acc.1 → parents_first dag acc.1 →
  ∃ acc', finalize_rounds dag n rs acc = Some acc' ∧
    NoDup acc'.1 ∧ parents_first dag acc'.1 ∧
    ∀ x, x ∈ acc'.1 ↔ x ∈ acc.1 ∨
      ∃ r lh, r ∈ rs ∧ decide_slot dag r n = Some (Direct lh) ∧
        is_Some (certs dag !! x) ∧ reaches dag lh x.
Proof.
  intros Hw Hn. revert acc. induction rs as [|r rs IH]; intros acc H2 Hnd Hpf; simpl.
  { exists acc. split_and!; [done..|]. set_solver. }
  pose proof (decide_slot_cases dag r n Hw Hn) as Hd.
  destruct (decide_slot dag r n) as [[lh| |]|] eqn:Ed; [| | |done]; simpl.
  2,3: destruct (IH acc H2 Hnd Hpf) as (acc' & -> & ? & ? & Hx); exists acc';
    split_and!; [done..|]; intros x; rewrite Hx; setoid_rewrite elem_of_cons; naive_solver.
  destruct (causal_history_total dag lh) as [l El]. rewrite El. simpl.
  destruct (extend_finalized_spec dag acc.1 acc.2 l H2 Hnd Hpf) as (E2 & End & Epf & Ex).
  { intros. left. by eapply causal_history_parents_first. }
  destruct (IH _ E2 End Epf) as (acc' & -> & ? & ? & Hx). exists acc'.
  split_and!; [done..|]. intros x. rewrite Hx, Ex, (elem_of_causal_history _ _ _ x El).
  setoid_rewrite elem_of_cons. split; [|naive_solver].
  intros [[?|[? ?]]|(r' & lh' & ? & ? & ? & ?)]; [by left|right; exists r, lh; auto|].
  right. exists r', lh'. auto.
Qed.

Lemma finalize_cases dag n :
  wf dag → (0 < n)%N →
  ∃ l, finalize dag n = Some l ∧ NoDup l ∧ parents_first dag l ∧
    ∀ x, x ∈ l ↔ ∃ m r lh, max_round dag = Some m ∧ (r < m)%N ∧
      decide_slot dag r n = Some (Direct lh) ∧ is_Some (certs dag !! x) ∧ reaches dag lh x.
Proof.
  intros Hw Hn. unfold finalize. destruct (max_round dag) as [m|].
  - destruct (finalize_rounds_spec dag n (range 0 m) ([], ∅) Hw Hn) as (acc & -> & ? & ? & Hx);
      [done|constructor|intros [|] ? ? ? ? ?; done|].
    exists acc.1. split_and!; [done..|]. intros x. rewrite Hx.
    setoid_rewrite elem_of_range. simpl. setoid_rewrite elem_of_nil.
    split.
    + intros [[]|(r & lh & ? & ? & ? & ?)]. exists m, r, lh. split_and!; [done|lia|done..].
    + intros (m' & r & lh & [= <-] & ? & ? & ? & ?). right. exists r, lh.
      split_and!; [lia..|done|done|done].
  - exists []. split_and!; [done|constructor|intros [|] ? ? ? ? ?; done|].
    intros x. rewrite elem_of_nil. naive_solver.
Qed.

Lemma causal_history_filter dag start l :
  causal_history dag start = Some l →
  ∃ seen : gset CertHash,
    l = fst <$> filter (λ p, p.1 ∈ seen) (sort_by_key dag_key (map_to_list (certs dag))).
Proof.
  destruct (causal_history_pairs dag start) as (ps & -> & Hnd & Hps). intros [= <-].
  exists (list_to_set ps.*1). f_equal.
  apply (sorted_by_key_unique dag_key).
  - intros [h1 c1] [h2 c2]. rewrite !elem_of_sort_by_key, !Hps.
    unfold dag_key, DagStore.author_key; simpl. intros [] [] [= ???]. congruence.
  - apply sort_by_key_sorted.
  - apply StronglySorted_filter, sort_by_key_sorted.
  - rewrite sort_by_key_perm. apply NoDup_Permutation; [done| |].
    { apply NoDup_filter, NoDup_sort_by_key, NoDup_map_to_list. }
    intros [h c]. rewrite list_elem_of_filter, elem_of_sort_by_key, elem_of_map_to_list.
    rewrite elem_of_list_to_set, list_elem_of_fmap. split.
    + intros Hin. split; [by exists (h, c)|]. by apply Hps in Hin as [? _].
    + intros [([h' c'] & Eh & Hin) Hc]. simpl in Eh. subst h'.
      assert (c' = c) as -> by (apply Hps in Hin as [? _]; congruence). done.
Qed.

(** ** Properties *)

(** C22. [decide_slot] decides exactly by the commit rule: [Direct h] when [h] is
    the slot's leader certificate and it has quorum support at the next round or
    is an ancestor of a directly committed anchor two or more rounds later;
    [Skip] when some such anchor exists but none descends from the leader
    certificate; [Undecided] when there is no such anchor.  It never panics. *)
Theorem decide_slot_spec dag t n :
  DagStore.reachable dag → (0 < n)%N →
  match decide_slot dag t n with
  | Some (Direct h) =>
      leader_cert dag t n h ∧
      (quorum_supported dag t n h ∨ ∃ ah, anchor dag t n ah ∧ reaches dag ah h)
  | Some Skip =>
      (∀ h, leader_cert dag t n h →
         ¬ quorum_supported dag t n h ∧ ∀ ah, anchor dag t n ah → ¬ reaches dag ah h) ∧
      ∃ ah, anchor dag t n ah
  | Some Undecided =>
      (∀ h, leader_cert dag t n h → ¬ quorum_supported dag t n h) ∧ ∀ ah, ¬ anchor dag t n ah
  | None => False
  end.
Proof. intros Hd%DagStore.reachable_wf. by apply decide_slot_cases. Qed.

(** C6. Finality.  Once a slot is decided [Direct h], inserting further
    certificates of committee members never changes the decision, provided no
    slot leader equivocates; and every finalized certificate stays finalized. *)
Theorem finality dag cs dag' n :
  DagStore.reachable dag → DagStore.insert_all dag cs = Ok dag' → (0 < n < width 32)%N →
  committee dag' n → leader_honest dag' n →
  (∀ r h, decide_slot dag r n = Some (Direct h) → decide_slot dag' r n = Some (Direct h)) ∧
  (∀ l l', finalize dag n = Some l → finalize dag' n = Some l' → l ⊆ l').
Proof.
  intros Hr Hi Hn Hc Hh. destruct (DagStore.insert_all_reachable _ _ _ Hr Hi) as [Hr' He].
  apply DagStore.reachable_wf in Hr, Hr'.
  assert (∀ r h, decide_slot dag r n = Some (Direct h) → decide_slot dag' r n = Some (Direct h))
    as Hmono by (intros; by apply (decide_slot_mono dag dag')).
  split; [done|]. intros l l' E E' x Hx.
  destruct (finalize_cases dag n Hr) as (? & E1 & _ & _ & H1); [lia|].
  destruct (finalize_cases dag' n Hr') as (? & E2 & _ & _ & H2); [lia|]. simplify_eq.
  apply H1 in Hx as (m & r & lh & Hm & Hrm & Hd & [c Hc'] & Hre). apply H2.
  pose proof (DagStore.max_round_spec dag Hr) as Hmax. rewrite Hm in Hmax.
  destruct Hmax as [(hm & cm & Hcm & <-) _].
  assert (certs dag' !! hm = Some cm) as Hcm' by (by eapply lookup_weaken).
  pose proof (DagStore.max_round_spec dag' Hr') as Hmax'.
  destruct (max_round dag') as [m'|]; [|by rewrite Hmax', lookup_empty in Hcm'].
  destruct Hmax' as [_ Hmax']. specialize (Hmax' hm cm Hcm').
  exists m', r, lh. split_and!; [done|lia|by apply Hmono| |by apply (extends_reaches dag)].
  exists c. by eapply lookup_weaken.
Qed.

(** [causal_history] returns, for every start hash, exactly the stored
    ancestors of the start (itself included), each once and in the order of
    [linearize]: the breadth-first loop always terminates and no lookup
    panics. *)
Theorem causal_history_spec dag start :
  DagStore.reachable dag →
  ∃ l full, causal_history dag start = Some l ∧ linearize dag = Some full ∧
    l `sublist_of` full ∧ NoDup l ∧
    ∀ h, h ∈ l ↔ is_Some (certs dag !! h) ∧ reaches dag start h.
Proof.
  intros Hd%DagStore.reachable_wf. destruct (causal_history_total dag start) as [l El].
  exists l. eexists. split_and!; [done|by apply DagStore.linearize_canonical| | |].
  - destruct (causal_history_filter _ _ _ El) as (seen & ->).
    apply sublist_fmap, sublist_filter.
  - by eapply NoDup_causal_history.
  - intros h. by eapply elem_of_causal_history.
Qed.

(** [finalize] always returns; its result lists each certificate once, every
    certificate after all its parents, and contains exactly the certificates in
    the causal history of a leader committed at a round below the highest. *)
Theorem finalize_spec dag n :
  DagStore.reachable dag → (0 < n)%N →
  ∃ l, finalize dag n = Some l ∧ NoDup l ∧ parents_first dag l ∧
    ∀ x, x ∈ l ↔ ∃ m r lh, max_round dag = Some m ∧ (r < m)%N ∧
      decide_slot dag r n = Some (Direct lh) ∧ is_Some (certs dag !! x) ∧ reaches dag lh x.
Proof. intros Hd%DagStore.reachable_wf. by apply finalize_cases. Qed.
End commit.

(** ** Concrete runs *)
Module CommitExamples.
Import DagExamples.
#[local] Existing Instance Toy.toy_blake3.

(** Two rounds of a committee of four; [more] adds author 0's round-1 certificate. *)
Definition more : list Certificate := [cert 0 1 [g 0; g 1; g 2] Byte.x02].
Definition dag4 : DagStore := build two_rounds.
Definition dag4' : DagStore := build (two_rounds ++ more).

Lemma dag4_more : DagStore.insert_all dag4 more = Ok dag4'.
Proof. apply build_app. vm_compute. reflexivity. Qed.

Lemma decide_slot_spec_witness :
  leader_cert dag4 0 4 (g 0) ∧
  (quorum_supported dag4 0 4 (g 0) ∨ ∃ ah, anchor dag4 0 4 ah ∧ reaches dag4 ah (g 0)).
Proof.
  pose proof (decide_slot_spec dag4 0 4 two_rounds_reachable ltac:(lia)) as Hs.
  assert (decide_slot dag4 0 4 = Some (Direct (g 0))) as E by (vm_compute; reflexivity).
  rewrite E in Hs. exact Hs.
Defined.

Lemma finality_witness :
  decide_slot dag4 0 4 = Some (Direct (g 0)) ∧ decide_slot dag4' 0 4 = Some (Direct (g 0)).
Proof.
  assert (decide_slot dag4 0 4 = Some (Direct (g 0))) as E by (vm_compute; reflexivity).
  split; [exact E|]. eapply (finality dag4 more dag4' 4).
  - apply two_rounds_reachable.
  - apply dag4_more.
  - rewrite width_32. lia.
  - apply (bool_decide_eq_true_1 _). vm_compute. reflexivity.
  - apply (bool_decide_eq_true_1 _). vm_compute. reflexivity.
  - exact E.
Defined.

Lemma causal_history_spec_witness :
  ∃ l, causal_history dag4 (g 1) = Some l ∧ NoDup l.
Proof.
  destruct (causal_history_spec dag4 (g 1) two_rounds_reachable) as (l & full & E & _ & _ & Hnd & _).
  exists l. split; [exact E|exact Hnd].
Defined.

Lemma finalize_spec_witness : ∃ l, finalize dag4 4 = Some l ∧ l = [g 0].
Proof.
  destruct (finalize_spec dag4 4 two_rounds_reachable) as (l & E & _); [lia|].
  exists l. split; [exact E|].
  assert (finalize dag4 4 = Some [g 0]) as E' by (vm_compute; reflexivity).
  rewrite E' in E. injection E as <-. reflexivity.
Defined.

(** A second genesis certificate of author 0 with a smaller hash. *)
Definition equivocating : Certificate := cert 0 0 [] Byte.x00.

(** Without the no-equivocation hypothesis of the finality theorem a commit
    is not final: after a second round-0 certificate of the leader with a
    smaller hash is inserted, a slot decided [Direct] becomes [Undecided]. *)
Theorem leader_equivocation_uncommits :
  ∃ dag cs dag' h, DagStore.reachable dag ∧ DagStore.insert_all dag cs = Ok dag' ∧
    committee dag' 4 ∧
    decide_slot dag 0 4 = Some (Direct h) ∧ decide_slot dag' 0 4 = Some Undecided.
Proof.
  exists dag4, [equivocating], (build (two_rounds ++ [equivocating])), (g 0).
  split; [apply two_rounds_reachable|].
  split; [apply build_app; vm_compute; reflexivity|].
  split; [apply (bool_decide_eq_true_1 _); vm_compute; reflexivity|].
  split; vm_compute; reflexivity.
Qed.

(** A committee of one: round 1 does not cite round 0, round 2 cites both. *)
Definition c0 := gen 0.
Definition c1 := cert 0 1 [] Byte.x01.
Definition c2 := cert 0 2 [Certificate.hash c1; Certificate.hash c0] Byte.x02.
Definition c3 := cert 0 3 [Certificate.hash c2] Byte.x03.

(** The finalized sequence is not append-only: with honest leaders, inserting
    one more certificate turns the sequence [[c1]] into [[c0; c1; c2]], since a
    slot can be committed after a later one already was. *)
Theorem finalize_not_append_only :
  ∃ dag cs dag' l l', DagStore.reachable dag ∧ DagStore.insert_all dag cs = Ok dag' ∧
    committee dag' 1 ∧ leader_honest dag' 1 ∧
    finalize dag 1 = Some l ∧ finalize dag' 1 = Some l' ∧ ¬ l `prefix_of` l'.
Proof.
  exists (build [c0; c1; c2]), [c3], (build ([c0; c1; c2] ++ [c3])),
    [Certificate.hash c1], (Certificate.hash <$> [c0; c1; c2]).
  split; [apply (build_reachable [c0; c1; c2]), build_ok; vm_compute; reflexivity|].
  split; [apply build_app; vm_compute; reflexivity|].
  do 2 (split; [apply (bool_decide_eq_true_1 _); vm_compute; reflexivity|]).
  split; [vm_compute; reflexivity|]. split; [vm_compute; reflexivity|].
  intros [k E]. apply (f_equal head) in E. vm_compute in E. discriminate.
Qed.
End CommitExamples.
