(* ===== verification/Joint.v ===== *)
(** * The joint-quorum gate ([crates/suwappu-consensus/src/joint.rs])

    The validator stake table, stake-weighted voting, the joint commit and the
    two misbehaviour measures, with the accountability theorem: two candidates
    that both reach both quorums expose a third of the authorities and more
    than a third of the stake. *)

From S2P Require Import Prelude Crypto Cert Dag Commit.
Import DagStore(certs, wf, get, linearize).

Abbreviation ValidatorId := N (only parsing).
Abbreviation Stake := N (only parsing).

Module StakeTable.
Record StakeTable := mk { weights : gmap ValidatorId Stake }.

Definition new : StakeTable := mk ∅.

Definition insert (t : StakeTable) (id : ValidatorId) (stake : Stake) : StakeTable :=
  mk (<[id := stake]> (weights t)).

(** Later entries overwrite earlier ones. *)
Definition from_entries (entries : list (ValidatorId * Stake)) : StakeTable :=
  foldl (λ t e, insert t e.1 e.2) new entries.

Definition remove (t : StakeTable) (id : ValidatorId) : option Stake * StakeTable :=
  (weights t !! id, mk (delete id (weights t))).

Definition total (t : StakeTable) : Stake := wrapping_sum 128 (btree_values (weights t)).
Definition weight (t : StakeTable) (id : ValidatorId) : Stake := default 0%N (weights t !! id).
Definition ids (t : StakeTable) : list ValidatorId := btree_keys (weights t).
End StakeTable.
Abbreviation StakeTable := StakeTable.StakeTable.

Record Vote := mk_vote { validator : ValidatorId; candidate : CertHash }.

#[global] Instance Vote_eq_dec : EqDecision Vote.
Proof. solve_decision. Defined.

Definition validator_quorum_threshold (stake_table : StakeTable) : Stake :=
  let two_thirds := (wrap 128 (2 * StakeTable.total stake_table) / 3)%N in
  wrap 128 (two_thirds + 1).

(** The loop of [voting_stake], with its [counted] set and running [total]. *)
Fixpoint count_votes (stake_table : StakeTable) (cand : CertHash) (votes : list Vote)
    (counted : gset ValidatorId) (total : Stake) : Stake :=
  match votes with
  | [] => total
  | v :: votes' =>
      if bool_decide (candidate v = cand ∧ validator v ∉ counted)
      then count_votes stake_table cand votes' ({[validator v]} ∪ counted)
             (wrap 128 (total + StakeTable.weight stake_table (validator v)))
      else count_votes stake_table cand votes' counted total
  end.

Definition voting_stake (stake_table : StakeTable) (cand : CertHash) (votes : list Vote) : Stake :=
  count_votes stake_table cand votes ∅ 0.

Definition validator_quorum_met (stake_table : StakeTable) (cand : CertHash) (votes : list Vote)
    : bool :=
  bool_decide (validator_quorum_threshold stake_table ≤ voting_stake stake_table cand votes)%N.

(** The set of validators voting for a candidate. *)
Definition voters (cand : CertHash) (votes : list Vote) : gset ValidatorId :=
  list_to_set (validator <$> filter (λ v, candidate v = cand) votes).

Definition validator_double_vote_stake (stake_table : StakeTable) (cand_a cand_b : CertHash)
    (votes : list Vote) : Stake :=
  wrapping_sum 128
    (StakeTable.weight stake_table <$> bset_elems (voters cand_a votes ∩ voters cand_b votes)).

Section joint.
Context `{Blake3}.

(** [None] is a panic of the commit rule. *)
Definition joint_commit (dag : DagStore) (round : Round) (n : CommitteeSize)
    (stake_table : StakeTable) (votes : list Vote) : option (option CertHash) :=
  cl ← commit_leader dag round n;
  Some (match cl with
        | None => None
        | Some cand => if validator_quorum_met stake_table cand votes then Some cand else None
        end).

(** The supporters of one candidate, gathered along the linearization. *)
Definition linear_support (dag : DagStore) (cand : CertHash) (round : Round)
    : option (gset AuthorityId) :=
  hs ← linearize dag;
  Some (list_to_set (omap (λ h,
    c ← get dag h;
    if bool_decide (Certificate.round c = round ∧ cand ∈ Certificate.parents c)
    then Some (Certificate.author c) else None) hs)).

Definition authority_equivocators (dag : DagStore) (cand_a cand_b : CertHash) (round : Round)
    : option (gset AuthorityId) :=
  support_a ← linear_support dag cand_a round;
  support_b ← linear_support dag cand_b round;
  Some (support_a ∩ support_b).

(** ** Lemmas *)

Lemma total_small t :
  (map_sum (StakeTable.weights t) < width 128)%N →
  StakeTable.total t = map_sum (StakeTable.weights t).
Proof.
  intros Ht. unfold StakeTable.total. rewrite wrapping_sum_small; rewrite btree_values_sum; lia.
Qed.

Lemma weight_sum_le t X : (set_sum (StakeTable.weight t) X ≤ map_sum (StakeTable.weights t))%N.
Proof. apply set_sum_map_le. Qed.

Lemma elem_of_voters cand votes v : v ∈ voters cand votes ↔ mk_vote v cand ∈ votes.
Proof.
  unfold voters. rewrite elem_of_list_to_set, list_elem_of_fmap. split.
  - intros ([v' c'] & -> & [Hc Hin]%list_elem_of_filter). simpl in *. by subst.
  - intros Hin. exists (mk_vote v cand). by rewrite list_elem_of_filter.
Qed.

Lemma voters_cons cand v votes :
  voters cand (v :: votes) =
  (if decide (candidate v = cand) then {[validator v]} else ∅) ∪ voters cand votes.
Proof. unfold voters. rewrite filter_cons. case_decide; set_solver. Qed.

(** The loop adds each voter's stake once. *)
Lemma count_votes_spec t cand votes counted total :
  (map_sum (StakeTable.weights t) < width 128)%N →
  total = set_sum (StakeTable.weight t) counted →
  count_votes t cand votes counted total =
  set_sum (StakeTable.weight t) (counted ∪ voters cand votes).
Proof.
  intros Ht. revert counted total. induction votes as [|v votes IH]; intros counted total ->; simpl.
  { f_equal. unfold voters. set_solver. }
  rewrite voters_cons. case_bool_decide as Hv.
  - destruct Hv as [Hc Hn]. rewrite decide_True by done.
    pose proof (set_sum_singleton_union (StakeTable.weight t) _ _ Hn) as E.
    pose proof (weight_sum_le t ({[validator v]} ∪ counted)).
    rewrite IH; [f_equal; set_solver|]. rewrite wrap_small; lia.
  - rewrite IH by done. f_equal. case_decide; [|set_solver].
    assert (validator v ∈ counted); [|set_solver]. destruct (decide (validator v ∈ counted)); naive_solver.
Qed.

Lemma voting_stake_spec t cand votes :
  (map_sum (StakeTable.weights t) < width 128)%N →
  voting_stake t cand votes = set_sum (StakeTable.weight t) (voters cand votes).
Proof.
  intros Ht. unfold voting_stake. rewrite count_votes_spec; [|done|by rewrite set_sum_empty].
  f_equal. set_solver.
Qed.

Lemma double_vote_stake_spec t a b votes :
  (map_sum (StakeTable.weights t) < width 128)%N →
  validator_double_vote_stake t a b votes =
  set_sum (StakeTable.weight t) (voters a votes ∩ voters b votes).
Proof.
  intros Ht. unfold validator_double_vote_stake.
  assert (sum_N (StakeTable.weight t <$> bset_elems (voters a votes ∩ voters b votes)) =
    set_sum (StakeTable.weight t) (voters a votes ∩ voters b votes)) as E.
  { unfold set_sum. by rewrite bset_elems_perm. }
  rewrite wrapping_sum_small; [done|]. rewrite E.
  pose proof (weight_sum_le t (voters a votes ∩ voters b votes)). lia.
Qed.

Lemma quorum_met_stake t cand votes :
  (2 * map_sum (StakeTable.weights t) < width 128 - 1)%N →
  validator_quorum_met t cand votes = true ↔
  (2 * map_sum (StakeTable.weights t) < 3 * set_sum (StakeTable.weight t) (voters cand votes))%N.
Proof.
  intros Ht. unfold validator_quorum_met, validator_quorum_threshold.
  rewrite bool_decide_eq_true, voting_stake_spec, total_small by lia.
  set (T := map_sum _) in *. set (V := set_sum _ _).
  rewrite (wrap_small 128 (2 * T)) by lia.
  destruct (div_mod_N (2 * T) 3 ltac:(lia)) as (q & r & -> & _ & ? & ?).
  rewrite wrap_small by lia. lia.
Qed.

Lemma linear_support_spec dag cand r :
  wf dag → linear_support dag cand r = supporters dag cand r.
Proof.
  intros Hwf. destruct (supporters_spec dag cand r Hwf) as (S & ES & HS). rewrite ES.
  unfold linear_support. destruct (linearize dag) as [l|] eqn:E;
    [|by rewrite DagStore.linearize_canonical in E].
  simpl. f_equal. apply set_eq. intros a. rewrite elem_of_list_to_set, list_elem_of_omap, HS.
  setoid_rewrite (DagStore.elem_of_linearize _ _ _ Hwf E). split.
  - intros (h & [c Hc] & Ha). unfold get in Ha. rewrite Hc in Ha. simpl in Ha.
    case_bool_decide; naive_solver.
  - intros (h & c & Hc & Hr & Hp & Ha). exists h. split; [eauto|]. unfold get. rewrite Hc. simpl.
    rewrite bool_decide_true by done. congruence.
Qed.

Lemma quorum_threshold_bound n : (0 < n)%N → (4 * n < 6 * quorum_threshold n)%N.
Proof.
  intros Hn. unfold quorum_threshold. rewrite bool_decide_false by lia.
  destruct (div_mod_N (n - 1) 3 ltac:(lia)) as (q & r & -> & _ & ? & ?). lia.
Qed.

Lemma authority_intersection dag n r a b Sa Sb :
  wf dag → committee dag n → (0 < n)%N →
  supporters dag a r = Some Sa → supporters dag b r = Some Sb →
  (quorum_threshold n ≤ N.of_nat (size Sa))%N → (quorum_threshold n ≤ N.of_nat (size Sb))%N →
  authority_equivocators dag a b r = Some (Sa ∩ Sb) ∧ (n < 3 * N.of_nat (size (Sa ∩ Sb)))%N.
Proof.
  intros Hwf Hcm Hn Ea Eb Ha Hb. unfold authority_equivocators.
  rewrite !linear_support_spec by done. rewrite Ea, Eb. split; [done|].
  pose proof (quorum_threshold_bound n Hn).
  assert (∀ S x, supporters dag x r = Some S → S ⊆ range_set n) as Hsub.
  { intros S x E y Hy. apply elem_of_range_set. by eapply supporters_below. }
  pose proof (quorum_intersection Sa Sb (range_set n) (Hsub _ _ Ea) (Hsub _ _ Eb)) as Hq.
  rewrite size_range_set in Hq. lia.
Qed.

Lemma stake_intersection t a b votes :
  (2 * map_sum (StakeTable.weights t) < width 128 - 1)%N →
  validator_quorum_met t a votes = true → validator_quorum_met t b votes = true →
  (map_sum (StakeTable.weights t) < 3 * validator_double_vote_stake t a b votes)%N.
Proof.
  intros Ht Ha Hb. apply quorum_met_stake in Ha, Hb; [|done..].
  rewrite double_vote_stake_spec by lia.
  pose proof (set_sum_union_inter (StakeTable.weight t) (voters a votes) (voters b votes)).
  pose proof (weight_sum_le t (voters a votes ∪ voters b votes)). lia.
Qed.

(** ** Properties *)


(** [joint_commit] returns a candidate exactly when the authority ring's
    [decide_slot] commits it and the distinct validators voting for it hold
    strictly more than two thirds of the stake; it never panics. *)
Theorem joint_commit_spec dag r n t votes :
  DagStore.reachable dag → (0 < n)%N →
  (2 * map_sum (StakeTable.weights t) < width 128 - 1)%N →
  ∃ o, joint_commit dag r n t votes = Some o ∧
    ∀ h, o = Some h ↔
      decide_slot dag r n = Some (Direct h) ∧
      (2 * StakeTable.total t < 3 * set_sum (StakeTable.weight t) (voters h votes))%N.
Proof.
  intros Hd%DagStore.reachable_wf Hn Ht. rewrite total_small by lia.
  unfold joint_commit, commit_leader. pose proof (decide_slot_cases dag r n Hd Hn) as Hs.
  destruct (decide_slot dag r n) as [[h| |]|]; [| | |done]; simpl; eexists; (split; [done|]).
  - intros h'. destruct (validator_quorum_met t h votes) eqn:E.
    + apply quorum_met_stake in E; [|done]. naive_solver.
    + split; [done|]. intros [[= ->] Hv]. apply quorum_met_stake in Hv; [|done]. congruence.
  - naive_solver.
  - naive_solver.
Qed.
End joint.

Module JointExamples.
Import DagExamples.
#[local] Existing Instance Toy.toy_blake3.

(** Every author of round 1 cites the genesis certificates of authors 0 and 1. *)
Definition both_cited : list Certificate :=
  (gen <$> [0; 1; 2; 3]%N) ++ ((λ a, cert a 1 [g 0; g 1] Byte.x01) <$> [1; 2; 3]%N).
Definition table : StakeTable := StakeTable.from_entries [(1, 40); (2, 40); (3, 20)]%N.
Definition ballots : list Vote :=
  [mk_vote 1 (g 0); mk_vote 2 (g 0); mk_vote 1 (g 1); mk_vote 2 (g 1)].

Lemma both_cited_reachable : DagStore.reachable (build both_cited).
Proof. eapply build_reachable, build_ok. vm_compute. reflexivity. Qed.


Lemma joint_commit_spec_witness :
  ∃ o, joint_commit (build both_cited) 0 4 table ballots = Some o.
Proof.
  destruct (joint_commit_spec (build both_cited) 0 4 table ballots) as (o & E & _).
  - apply both_cited_reachable.
  - lia.
  - vm_compute. reflexivity.
  - exists o. exact E.
Defined.

(** [authority_equivocators] names authors who signed a single certificate:
    an author whose only round-1 certificate cites both candidates is reported,
    although it authored no two certificates at any round. *)
Theorem equivocators_without_equivocation :
  ∃ dag, DagStore.reachable dag ∧
    authority_equivocators dag (g 0) (g 1) 1 = Some {[1; 2; 3]}%N ∧
    map_Forall (λ h1 c1, map_Forall (λ h2 c2,
      Certificate.round c1 = Certificate.round c2 →
      Certificate.author c1 = Certificate.author c2 → h1 = h2) (certs dag)) (certs dag).
Proof.
  exists (build both_cited). split; [apply both_cited_reachable|]. split.
  - vm_compute. reflexivity.
  - apply (bool_decide_eq_true_1 _). vm_compute. reflexivity.
Qed.
End JointExamples.
