(* ===== verification/Equivocation.v ===== *)
(** * Equivocation detection ([crates/suwappu-consensus/src/equivocation.rs])

    The two scans that bucket certificates by author and round, and votes by
    validator, and report the two least hashes of every bucket with two or
    more; both are shown sound and complete. *)

From S2P Require Import Prelude Crypto Cert Dag Commit Joint.
Import DagStore(certs, wf, get, linearize).

Record EquivocationProof := mk_proof {
  author : AuthorityId;
  round : Round;
  cert_a : CertHash;
  cert_b : CertHash;
}.

Record ValidatorEquivocationProof := mk_vproof {
  validator : ValidatorId;
  candidate_a : CertHash;
  candidate_b : CertHash;
}.

(** ** Buckets *)

Section buckets.
Context {K V : Type} `{Countable K, EqDecision V}.
Implicit Types m : gmap K (list V).

(** [buckets.entry(k).or_default()] followed by a push. *)
Definition push_bucket m (k : K) (v : V) : gmap K (list V) :=
  <[k := default [] (m !! k) ++ [v]]> m.

(** The push guarded by [!entry.contains(v)]; the entry is created either way. *)
Definition push_distinct m (k : K) (v : V) : gmap K (list V) :=
  let e := default [] (m !! k) in <[k := if decide (v ∈ e) then e else e ++ [v]]> m.

Lemma push_bucket_lookup m k v k' :
  default [] (push_bucket m k v !! k') =
  default [] (m !! k') ++ (if decide (k = k') then [v] else []).
Proof.
  unfold push_bucket. rewrite lookup_insert. case_decide; subst; simpl; [done|]. by rewrite app_nil_r.
Qed.

Lemma push_distinct_lookup m k v k' x :
  x ∈ default [] (push_distinct m k v !! k') ↔ x ∈ default [] (m !! k') ∨ (k = k' ∧ v = x).
Proof.
  unfold push_distinct. rewrite lookup_insert. case_decide; subst; simpl; [|naive_solver].
  case_decide; set_solver.
Qed.

Lemma push_distinct_NoDup m k v k' :
  NoDup (default [] (m !! k')) → NoDup (default [] (push_distinct m k v !! k')).
Proof.
  intros Hm. unfold push_distinct. rewrite lookup_insert. case_decide; subst; simpl; [|done].
  case_decide; [done|]. apply NoDup_app. split_and!; [done|set_solver|apply NoDup_singleton].
Qed.
End buckets.

(** ** The two least elements *)

Section two_least.
Context {K : Type} `{KeyOrder K}.
Implicit Types l : list K.

(** [sort()], then elements 0 and 1 when there are two or more. *)
Definition two_least l : option (K * K) :=
  match sort_by_key id l with
  | x :: y :: _ => Some (x, y)
  | _ => None
  end.

(** [(x, y)] are the two least elements of a list. *)
Definition least_pair l (x y : K) : Prop :=
  x ∈ l ∧ y ∈ l ∧ x ≠ y ∧ key_le x y ∧ ∀ z, z ∈ l → z = x ∨ key_le y z.

Lemma least_pair_unique l x y x' y' : least_pair l x y → least_pair l x' y' → x = x' ∧ y = y'.
Proof.
  intros (Hx & Hy & Hne & Hle & Hall) (Hx' & Hy' & Hne' & Hle' & Hall').
  assert (∀ z, z ∈ l → key_le x z) as Hm.
  { intros z [->|?]%Hall; [reflexivity|]. by etransitivity. }
  assert (∀ z, z ∈ l → key_le x' z) as Hm'.
  { intros z [->|?]%Hall'; [reflexivity|]. by etransitivity. }
  assert (x = x') as -> by (apply (anti_symm key_le); auto). split; [done|].
  destruct (Hall y') as [?|?]; [done|congruence|]. destruct (Hall' y) as [?|?]; [done|congruence|].
  by apply (anti_symm key_le).
Qed.

Lemma two_least_Some l x y : NoDup l → two_least l = Some (x, y) ↔ least_pair l x y.
Proof.
  intros Hnd. assert (∀ x' y', two_least l = Some (x', y') → least_pair l x' y') as Hs.
  { clear x y. intros x y. unfold two_least. pose proof (sort_by_key_sorted id l) as Hsort.
    pose proof (elem_of_sort_by_key id l) as Hel. apply (NoDup_sort_by_key id) in Hnd.
    destruct (sort_by_key id l) as [|a [|b k]]; [done..|]. intros [= -> ->].
    apply StronglySorted_cons in Hsort as [Ha Hsort].
    apply StronglySorted_cons in Hsort as [Hb _].
    rewrite Forall_forall in Ha, Hb. apply NoDup_cons in Hnd as [Hn _].
    split_and!; [apply Hel; set_solver..|set_solver|apply Ha; set_solver|].
    intros z Hz%Hel. rewrite !elem_of_cons in Hz.
    destruct Hz as [->|[->|Hz]]; [by left|right; reflexivity|right; by apply Hb]. }
  split; [apply Hs|]. intros Hp. destruct (two_least l) as [[x' y']|] eqn:E.
  - destruct (least_pair_unique l x y x' y') as [-> ->]; auto.
  - exfalso. revert E. unfold two_least. pose proof (elem_of_sort_by_key id l) as Hel.
    destruct Hp as (Hx & Hy & Hne & _). rewrite <-Hel in Hx, Hy.
    destruct (sort_by_key id l) as [|a [|b k]]; [set_solver..|done].
Qed.

Lemma two_least_exists l a b : NoDup l → a ∈ l → b ∈ l → a ≠ b → ∃ x y, least_pair l x y.
Proof.
  intros Hnd Ha Hb Hne. destruct (two_least l) as [[x y]|] eqn:E.
  { apply two_least_Some in E; eauto. }
  exfalso. revert E. unfold two_least. pose proof (elem_of_sort_by_key id l) as Hel.
  rewrite <-Hel in Ha, Hb. destruct (sort_by_key id l) as [|c [|d k]]; [set_solver..|done].
Qed.
End two_least.

(** ** Validator double votes *)

(** The candidates a validator voted for, in order of first vote. *)
Definition vote_buckets (votes : list Vote) : gmap ValidatorId (list CertHash) :=
  foldl (λ b v, push_distinct b (Joint.validator v) (candidate v)) ∅ votes.

Definition detect_validator_double_vote (votes : list Vote) : list ValidatorEquivocationProof :=
  omap (λ e, p ← two_least e.2; Some (mk_vproof e.1 p.1 p.2)) (btree_entries (vote_buckets votes)).

Lemma vote_buckets_spec votes v :
  NoDup (default [] (vote_buckets votes !! v)) ∧
  ∀ c, c ∈ default [] (vote_buckets votes !! v) ↔ mk_vote v c ∈ votes.
Proof.
  unfold vote_buckets. induction votes as [|w votes IH] using rev_ind.
  { simpl. rewrite lookup_empty. simpl. split; [constructor|]. set_solver. }
  rewrite foldl_app. simpl. destruct IH as [IH1 IH2]. split; [by apply push_distinct_NoDup|].
  intros c. rewrite push_distinct_lookup, IH2, elem_of_app, list_elem_of_singleton.
  destruct w; simpl. naive_solver.
Qed.

Section equivocation.
Context `{Blake3}.

(** ** Authority equivocation *)

Definition cert_buckets (dag : DagStore) (hs : list CertHash)
    : gmap (AuthorityId * Round) (list CertHash) :=
  foldl (λ b h, match get dag h with
                | Some c => push_bucket b (Certificate.author c, Certificate.round c) h
                | None => b
                end) ∅ hs.

(** [None] is the panic of [linearize] on a store that misses an indexed hash. *)
Definition detect_authority_equivocation (dag : DagStore) : option (list EquivocationProof) :=
  hs ← linearize dag;
  Some (omap (λ e, p ← two_least e.2; Some (mk_proof e.1.1 e.1.2 p.1 p.2))
          (btree_entries (cert_buckets dag hs))).

(** A certificate stored under [h], authored by [a] at round [r]. *)
Definition authored (dag : DagStore) (a : AuthorityId) (r : Round) (h : CertHash) : Prop :=
  ∃ c, certs dag !! h = Some c ∧ Certificate.author c = a ∧ Certificate.round c = r.

Lemma cert_buckets_spec dag hs a r :
  NoDup hs →
  NoDup (default [] (cert_buckets dag hs !! (a, r))) ∧
  ∀ h, h ∈ default [] (cert_buckets dag hs !! (a, r)) ↔ h ∈ hs ∧ authored dag a r h.
Proof.
  unfold cert_buckets, authored. induction hs as [|h hs IH] using rev_ind; intros Hnd.
  { simpl. rewrite lookup_empty. simpl. split; [constructor|]. set_solver. }
  apply NoDup_app in Hnd as (Hnd & Hfresh & _). rewrite foldl_app. simpl. unfold get.
  destruct (IH Hnd) as [IH1 IH2]. clear IH.
  destruct (certs dag !! h) as [c|] eqn:Hc.
  - rewrite push_bucket_lookup. case_decide as Hk; [|rewrite app_nil_r].
    + injection Hk as <- <-. split.
      * apply NoDup_app. split_and!; [done| |apply NoDup_singleton].
        intros x [Hx _]%IH2 ->%list_elem_of_singleton. eapply Hfresh; [done|by left].
      * intros x. rewrite !elem_of_app, IH2, !list_elem_of_singleton. naive_solver.
    + split; [done|]. intros x. rewrite IH2, elem_of_app, list_elem_of_singleton. naive_solver.
  - split; [done|]. intros x. rewrite IH2, elem_of_app, list_elem_of_singleton. naive_solver.
Qed.

(** [x] and [y] are the two least hashes authored by [a] at [r]. *)
Definition least_authored (dag : DagStore) (a : AuthorityId) (r : Round) (x y : CertHash) : Prop :=
  authored dag a r x ∧ authored dag a r y ∧ x ≠ y ∧ key_le x y ∧
  ∀ z, authored dag a r z → z = x ∨ key_le y z.

Lemma detected_bucket dag hs a r x y :
  NoDup hs → (∀ h, h ∈ hs ↔ is_Some (certs dag !! h)) →
  (∃ b, cert_buckets dag hs !! (a, r) = Some b ∧ two_least b = Some (x, y)) ↔
  least_authored dag a r x y.
Proof.
  intros Hnd Hall. destruct (cert_buckets_spec dag hs a r Hnd) as [Hb Hin].
  assert (∀ h, h ∈ default [] (cert_buckets dag hs !! (a, r)) ↔ authored dag a r h) as Hin'.
  { intros h. rewrite Hin, Hall. unfold authored. naive_solver. }
  assert (least_pair (default [] (cert_buckets dag hs !! (a, r))) x y ↔ least_authored dag a r x y)
    as Hlp by (unfold least_pair, least_authored; by setoid_rewrite Hin').
  rewrite <-Hlp. destruct (cert_buckets dag hs !! (a, r)) as [b|] eqn:E; simpl in *.
  - rewrite <-two_least_Some by done. naive_solver.
  - split; [naive_solver|]. intros (Hx & _). by apply elem_of_nil in Hx.
Qed.

(** ** Properties *)

(** Authority equivocation detection is sound and complete: on every store
    the scan returns, without panicking, exactly one proof for each author and
    round with two distinct certificates, made of the two least hashes among
    them, and no other proof. *)
Theorem detect_authority_equivocation_spec dag :
  DagStore.reachable dag →
  ∃ ps, detect_authority_equivocation dag = Some ps ∧
    NoDup ((λ p, (author p, round p)) <$> ps) ∧
    (∀ a r x y, mk_proof a r x y ∈ ps ↔ least_authored dag a r x y) ∧
    (∀ a r h1 h2, authored dag a r h1 → authored dag a r h2 → h1 ≠ h2 →
       ∃ x y, mk_proof a r x y ∈ ps).
Proof.
  intros Hwf%DagStore.reachable_wf. unfold detect_authority_equivocation.
  destruct (linearize dag) as [hs|] eqn:E; [|by rewrite DagStore.linearize_canonical in E].
  simpl. eexists. split; [done|].
  pose proof (DagStore.NoDup_linearize _ _ Hwf E) as Hnd.
  assert (∀ h, h ∈ hs ↔ is_Some (certs dag !! h)) as Hall
    by (intros; by apply DagStore.elem_of_linearize).
  set (ps := omap _ _).
  assert (∀ a r x y, mk_proof a r x y ∈ ps ↔ least_authored dag a r x y) as Hps.
  { intros a r x y. unfold ps. rewrite list_elem_of_omap, <-(detected_bucket dag hs) by done. split.
    - intros ([[a' r'] b] & Hin & Hp). rewrite elem_of_btree_entries in Hin. simpl in *.
      destruct (two_least b) as [[]|] eqn:?; naive_solver.
    - intros (b & Hb & Ht). exists ((a, r), b). rewrite elem_of_btree_entries. simpl.
      by rewrite Ht. }
  split_and!; [|done|].
  - unfold ps. eapply sublist_NoDup; [apply (NoDup_fst_btree_entries (cert_buckets dag hs))|].
    apply omap_key_sublist. intros [[a r] b] p. simpl. by destruct (two_least b); intros [= <-].
  - intros a r h1 h2 H1 H2 Hne. destruct (cert_buckets_spec dag hs a r Hnd) as [Hb Hin].
    destruct (two_least_exists (default [] (cert_buckets dag hs !! (a, r))) h1 h2)
      as (x & y & Hp); [done|apply Hin|apply Hin|done|].
    1,2: split; [|done]; apply Hall; unfold authored in *; naive_solver.
    exists x, y. apply Hps, (detected_bucket dag hs); [done..|].
    destruct (cert_buckets dag hs !! (a, r)) as [b|] eqn:Eb; simpl in *.
    + exists b. split; [done|]. by apply two_least_Some.
    + destruct Hp as [Hx _]. by apply elem_of_nil in Hx.
Qed.

(** Double-vote detection is sound and complete: there is exactly one proof
    for each validator with votes for two distinct candidates, made of the two
    least candidates it voted for; repeated votes for one candidate are never
    reported. *)
Theorem detect_validator_double_vote_spec votes :
  let ps := detect_validator_double_vote votes in
  NoDup (validator <$> ps) ∧
  (∀ v x y, mk_vproof v x y ∈ ps ↔
     mk_vote v x ∈ votes ∧ mk_vote v y ∈ votes ∧ x ≠ y ∧ key_le x y ∧
     ∀ z, mk_vote v z ∈ votes → z = x ∨ key_le y z) ∧
  (∀ v c1 c2, mk_vote v c1 ∈ votes → mk_vote v c2 ∈ votes → c1 ≠ c2 →
     ∃ x y, mk_vproof v x y ∈ ps).
Proof.
  intros ps.
  assert (∀ v x y, mk_vproof v x y ∈ ps ↔
    ∃ b, vote_buckets votes !! v = Some b ∧ least_pair b x y) as Hps.
  { intros v x y. unfold ps, detect_validator_double_vote. rewrite list_elem_of_omap. split.
    - intros ([v' b] & Hin & Hp). rewrite elem_of_btree_entries in Hin. simpl in *.
      destruct (two_least b) as [[x' y']|] eqn:Et; simplify_eq/=. exists b. split; [done|].
      apply two_least_Some; [|done]. destruct (vote_buckets_spec votes v) as [Hn _].
      by rewrite Hin in Hn.
    - intros (b & Hb & Hp). exists (v, b). rewrite elem_of_btree_entries. simpl.
      destruct (vote_buckets_spec votes v) as [Hn _]. rewrite Hb in Hn.
      apply two_least_Some in Hp; [|done]. by rewrite Hp. }
  split_and!.
  - unfold ps. eapply sublist_NoDup; [apply (NoDup_fst_btree_entries (vote_buckets votes))|].
    apply omap_key_sublist. intros [v b] p. simpl. by destruct (two_least b); intros [= <-].
  - intros v x y. rewrite Hps. destruct (vote_buckets_spec votes v) as [_ Hin].
    setoid_rewrite <-Hin. unfold least_pair.
    destruct (vote_buckets votes !! v); simpl; setoid_rewrite elem_of_nil || idtac; naive_solver.
  - intros v c1 c2. destruct (vote_buckets_spec votes v) as [Hn Hin]. rewrite <-!Hin.
    intros H1 H2 Hne. destruct (vote_buckets votes !! v) as [b|] eqn:Eb;
      [|by apply elem_of_nil in H1].
    destruct (two_least_exists b c1 c2) as (x & y & Hp); [done..|]. exists x, y. apply Hps. eauto.
Qed.
End equivocation.

Module EquivocationExamples.
Import DagExamples.
#[local] Existing Instance Toy.toy_blake3.

Lemma detect_authority_equivocation_spec_witness :
  ∃ ps, detect_authority_equivocation (build [gen 0; gen 1; cert 0 0 [] Byte.x00]) = Some ps ∧
    length ps = 1.
Proof.
  destruct (detect_authority_equivocation_spec (build [gen 0; gen 1; cert 0 0 [] Byte.x00]))
    as (ps & E & _).
  - eapply build_reachable, build_ok. vm_compute. reflexivity.
  - exists ps. split; [exact E|].
    assert (length <$> detect_authority_equivocation (build [gen 0; gen 1; cert 0 0 [] Byte.x00])
      = Some 1) as E' by (vm_compute; reflexivity).
    rewrite E in E'. injection E' as E'. exact E'.
Defined.
End EquivocationExamples.
