(* ===== verification/BridgeHeader.v ===== *)
(** * Bridge-header attestations ([crates/suwappu-consensus/src/bridge_header.rs])

    The 148-byte preimage, its digest, and signing and verification of a
    validator's attestation of a finalized header. *)

From S2P Require Import Prelude Crypto.

Definition HEADER_PREIMAGE_LEN : nat := 148.

(** The pinned 32-byte domain constant, written as one big-endian number. *)
Definition HEADER_DOMAIN : bytes :=
  be_bytes 32 0x7bea453ea9a92bb46a6a6ecbcba670fd52d38488657c9a9373786ecb2b5c35f0.

(** [block_number] is widened to a 32-byte big-endian integer. *)
Definition header_preimage (network_id oracle : bytes) (block_number : N) (state_root : bytes)
    : bytes :=
  HEADER_DOMAIN ++ network_id ++ oracle
  ++ (replicate 24 Byte.x00 ++ be_bytes 8 block_number) ++ state_root.

Module HeaderAttestation.
Record HeaderAttestation := mk {
  block_number : N;
  state_root : bytes;
  authority_id : N;
  pubkey : bytes;
  signature : bytes;
}.
End HeaderAttestation.
Abbreviation HeaderAttestation := HeaderAttestation.HeaderAttestation.

Section bridge.
Context `{Blake3, MlDsa65}.

Definition header_digest (network_id oracle : bytes) (block_number : N) (state_root : bytes)
    : bytes :=
  blake3 (header_preimage network_id oracle block_number state_root).

(** [None] is the panic of [expect] on a malformed secret key. *)
Definition sign_header (digest : bytes) (sk : mldsa.SecretKey) : option bytes :=
  match mldsa.sign digest sk with
  | Ok sig => Some (mldsa.sig_bytes sig)
  | _ => None
  end.

Definition create (network_id oracle : bytes) (block_number : N) (state_root : bytes)
    (authority_id : N) (pubkey : mldsa.PublicKey) (sk : mldsa.SecretKey)
    : option HeaderAttestation :=
  sig ← sign_header (header_digest network_id oracle block_number state_root) sk;
  Some (HeaderAttestation.mk block_number state_root authority_id (mldsa.pk_bytes pubkey) sig).

Definition verify (a : HeaderAttestation) (network_id oracle : bytes) : bool :=
  let digest := header_digest network_id oracle
                  (HeaderAttestation.block_number a) (HeaderAttestation.state_root a) in
  match mldsa.PublicKey_from_bytes (HeaderAttestation.pubkey a),
        mldsa.Signature_from_bytes (HeaderAttestation.signature a) with
  | Ok pk, Ok sig => is_Ok (mldsa.verify digest sig pk)
  | _, _ => false
  end.

(** The widths the array types of the header fields enforce. *)
Definition header_wf (network_id oracle : bytes) (block_number : N) (state_root : bytes) : Prop :=
  length network_id = 32 ∧ length oracle = 20 ∧ (block_number < width 64)%N ∧
  length state_root = 32.

Lemma header_preimage_length nid orc bn sr :
  header_wf nid orc bn sr → length (header_preimage nid orc bn sr) = HEADER_PREIMAGE_LEN.
Proof.
  intros (H1 & H2 & _ & H4). unfold header_preimage, HEADER_DOMAIN.
  by rewrite !length_app, !length_be_bytes, length_replicate, H1, H2, H4.
Qed.

Lemma header_preimage_inj nid1 orc1 bn1 sr1 nid2 orc2 bn2 sr2 :
  header_wf nid1 orc1 bn1 sr1 → header_wf nid2 orc2 bn2 sr2 →
  header_preimage nid1 orc1 bn1 sr1 = header_preimage nid2 orc2 bn2 sr2 →
  (nid1, orc1, bn1, sr1) = (nid2, orc2, bn2, sr2).
Proof.
  unfold header_wf. rewrite width_64. intros (H1 & H2 & H3 & H4) (H1' & H2' & H3' & H4') E.
  unfold header_preimage in E. apply app_inv_head in E.
  do 2 (apply app_inj_1 in E as [-> E]; [|congruence]).
  apply app_inj_2 in E as [E ->]; [|congruence]. apply app_inv_head, be_bytes_inj in E; [|done..].
  by subst.
Qed.

(** A header attestation created under a matching key pair verifies for the
    network and oracle it was made for, and its signed digest pins the header:
    any other header (network, oracle, block number or state root) with the same
    digest is a BLAKE3 collision on two 148-byte preimages. *)
Theorem header_attestation_roundtrip nid orc bn sr id pk sk :
  mldsa65_keypair_ok pk sk → header_wf nid orc bn sr →
  ∃ a, create nid orc bn sr id (mldsa.mk_pk pk) (mldsa.mk_sk sk) = Some a ∧
    verify a nid orc = true ∧
    HeaderAttestation.block_number a = bn ∧ HeaderAttestation.state_root a = sr ∧
    ∀ nid' orc' bn' sr', header_wf nid' orc' bn' sr' →
      header_digest nid' orc' bn' sr' = header_digest nid orc bn sr →
      (nid', orc', bn', sr') = (nid, orc, bn, sr) ∨
      ∃ p q, length p = HEADER_PREIMAGE_LEN ∧ length q = HEADER_PREIMAGE_LEN ∧
        p ≠ q ∧ blake3 p = blake3 q.
Proof.
  intros Hk Hwf.
  destruct (mldsa.sign_verify (header_digest nid orc bn sr) pk sk Hk) as (sig & E & Ep & _ & Epk & Hv).
  unfold create, sign_header. rewrite E. simpl. eexists. split_and!; [done| |done..|].
  - unfold verify. cbn [HeaderAttestation.pubkey HeaderAttestation.signature
      HeaderAttestation.block_number HeaderAttestation.state_root].
    by rewrite Epk, Ep, Hv.
  - intros nid' orc' bn' sr' Hwf' Ed.
    destruct (decide (header_preimage nid' orc' bn' sr' = header_preimage nid orc bn sr)).
    + left. by apply header_preimage_inj.
    + right. exists (header_preimage nid' orc' bn' sr'), (header_preimage nid orc bn sr).
      by rewrite !header_preimage_length.
Qed.
End bridge.

Lemma header_attestation_roundtrip_witness :
  ∃ a, @create Toy.toy_blake3 Toy.toy_mldsa (replicate 32 Byte.x01) (replicate 20 Byte.x02) 9
         (replicate 32 Byte.x03) 4 (mldsa.mk_pk [Byte.x2a]) (mldsa.mk_sk [Byte.x2a]) = Some a ∧
    @verify Toy.toy_blake3 Toy.toy_mldsa a (replicate 32 Byte.x01) (replicate 20 Byte.x02) = true.
Proof.
  destruct (@header_attestation_roundtrip Toy.toy_blake3 Toy.toy_mldsa (replicate 32 Byte.x01)
    (replicate 20 Byte.x02) 9 (replicate 32 Byte.x03) 4 [Byte.x2a] [Byte.x2a])
    as (a & E & V & _).
  - split; [reflexivity|]. split; [reflexivity|]. intros msg. simpl.
    split; [reflexivity|]. split; [discriminate|]. by apply bool_decide_eq_true_2.
  - split; [reflexivity|]. split; [reflexivity|]. split; [reflexivity|reflexivity].
  - exists a. split; [exact E|exact V].
Defined.
