(* ===== verification/Rings.v ===== *)
(** * The Authority and Validator rings

    [crates/suwappu-authority] and [crates/suwappu-validator]: the two
    registries with their admission checks, the slashing operations, and the
    invariants they keep. *)

From S2P Require Import Prelude Crypto Cert Dag Commit Joint.

Module AuthorityRing.
Definition AUTHORITY_STAKE_THRESHOLD_SUWAPPU : N := 100000.
Definition AUTHORITY_RING_MAX : nat := 50.

Inductive AdmissionError :=
| StakeBelowFloor (posted floor : N)
| RingFull (size max : nat)
| DuplicateMember (id : AuthorityId).

Record AuthorityMember := mk_member {
  id : AuthorityId;
  stake_suwappu : N;
  public_key_bytes : bytes;
}.

Record AuthorityRegistry := mk { members : gmap AuthorityId AuthorityMember }.

Definition new : AuthorityRegistry := mk ∅.

Definition admit_member (r : AuthorityRegistry) (m : AuthorityMember)
    : outcome AdmissionError unit * AuthorityRegistry :=
  if bool_decide (stake_suwappu m < AUTHORITY_STAKE_THRESHOLD_SUWAPPU)%N
  then (Err (StakeBelowFloor (stake_suwappu m) AUTHORITY_STAKE_THRESHOLD_SUWAPPU), r)
  else if bool_decide (AUTHORITY_RING_MAX ≤ size (members r))
  then (Err (RingFull (size (members r)) AUTHORITY_RING_MAX), r)
  else if bool_decide (is_Some (members r !! id m))
  then (Err (DuplicateMember (id m)), r)
  else (Ok tt, mk (<[id m := m]> (members r))).

Definition remove (r : AuthorityRegistry) (i : AuthorityId)
    : option AuthorityMember * AuthorityRegistry :=
  (members r !! i, mk (delete i (members r))).

Definition len (r : AuthorityRegistry) : nat := size (members r).
Definition is_empty (r : AuthorityRegistry) : bool := bool_decide (members r = ∅).
Definition contains (r : AuthorityRegistry) (i : AuthorityId) : bool :=
  bool_decide (is_Some (members r !! i)).
Definition get (r : AuthorityRegistry) (i : AuthorityId) : option AuthorityMember := members r !! i.
Definition members_iter (r : AuthorityRegistry) : list AuthorityMember := btree_values (members r).

Definition quorum_threshold (r : AuthorityRegistry) : N :=
  let n := wrap 32 (N.of_nat (size (members r))) in
  if bool_decide (n = 0%N) then 1%N else (n - (n - 1) / 3)%N.

Record AuthoritySlash := mk_slash { stake_lost : N; expelled : bool }.

Definition slash_authority (r : AuthorityRegistry) (author : AuthorityId)
    : option AuthoritySlash * AuthorityRegistry :=
  match remove r author with
  | (Some m, r') => (Some (mk_slash (stake_suwappu m) true), r')
  | (None, r') => (None, r')
  end.

Definition readmit_authority (r : AuthorityRegistry) (i : AuthorityId) (stake : N) (pk : bytes)
    : outcome AdmissionError unit * AuthorityRegistry :=
  admit_member r (mk_member i stake pk).

(** ** Invariant *)

Record wf (r : AuthorityRegistry) : Prop := {
  wf_id : ∀ i m, members r !! i = Some m → id m = i;
  wf_floor : ∀ i m, members r !! i = Some m →
    (AUTHORITY_STAKE_THRESHOLD_SUWAPPU ≤ stake_suwappu m)%N;
  wf_ceiling : size (members r) ≤ AUTHORITY_RING_MAX;
}.

(** The operations a caller can perform. *)
Inductive op :=
| OpAdmit (m : AuthorityMember)
| OpRemove (i : AuthorityId)
| OpSlash (i : AuthorityId)
| OpReadmit (i : AuthorityId) (stake : N) (pk : bytes).

Definition step (r : AuthorityRegistry) (o : op) : AuthorityRegistry :=
  match o with
  | OpAdmit m => (admit_member r m).2
  | OpRemove i => (remove r i).2
  | OpSlash i => (slash_authority r i).2
  | OpReadmit i s pk => (readmit_authority r i s pk).2
  end.

Lemma authority_wf_new : wf new.
Proof. split; simpl; [intros ??; by rewrite lookup_empty..|]. rewrite map_size_empty. unfold AUTHORITY_RING_MAX. lia. Qed.

Lemma authority_wf_admit r m : wf r → wf (admit_member r m).2.
Proof.
  intros [Hi Hf Hc]. unfold admit_member. repeat case_bool_decide; simpl; try done. split; simpl.
  - intros i m'. rewrite lookup_insert. case_decide; naive_solver.
  - intros i m'. rewrite lookup_insert. case_decide; [|apply Hf]. intros [= <-]. lia.
  - rewrite map_size_insert. case_match; simpl; lia.
Qed.

Lemma wf_delete r i : wf r → wf (mk (delete i (members r))).
Proof.
  intros [Hi Hf Hc]. split; simpl.
  - intros j m [_ ?]%lookup_delete_Some. by apply Hi.
  - intros j m [_ ?]%lookup_delete_Some. by eapply Hf.
  - rewrite map_size_delete. case_match; simpl; lia.
Qed.

Lemma slash_authority_registry r i : (slash_authority r i).2 = mk (delete i (members r)).
Proof. unfold slash_authority, remove. by case_match. Qed.

Lemma authority_wf_step r o : wf r → wf (step r o).
Proof.
  intros Hr. destruct o; simpl.
  - by apply authority_wf_admit.
  - by apply wf_delete.
  - rewrite slash_authority_registry. by apply wf_delete.
  - by apply authority_wf_admit.
Qed.

(** The stake bonded across the ring. *)
Definition bonded (r : AuthorityRegistry) : N := map_sum (stake_suwappu <$> members r).
End AuthorityRing.

Module ValidatorRing.
Definition VALIDATOR_STAKE_THRESHOLD_SUWAPPU : N := 25000.
Definition VALIDATOR_RING_MAX : nat := 500.

Inductive AdmissionError :=
| StakeBelowFloor (posted floor : Stake)
| RingFull (size max : nat)
| DuplicateMember (id : ValidatorId).

Record ValidatorMember := mk_member { id : ValidatorId; stake_suwappu : Stake }.

Record ValidatorRegistry := mk { members : gmap ValidatorId ValidatorMember }.

Definition new : ValidatorRegistry := mk ∅.

Definition admit_member (r : ValidatorRegistry) (m : ValidatorMember)
    : outcome AdmissionError unit * ValidatorRegistry :=
  if bool_decide (stake_suwappu m < VALIDATOR_STAKE_THRESHOLD_SUWAPPU)%N
  then (Err (StakeBelowFloor (stake_suwappu m) VALIDATOR_STAKE_THRESHOLD_SUWAPPU), r)
  else if bool_decide (VALIDATOR_RING_MAX ≤ size (members r))
  then (Err (RingFull (size (members r)) VALIDATOR_RING_MAX), r)
  else if bool_decide (is_Some (members r !! id m))
  then (Err (DuplicateMember (id m)), r)
  else (Ok tt, mk (<[id m := m]> (members r))).

Definition remove (r : ValidatorRegistry) (i : ValidatorId)
    : option ValidatorMember * ValidatorRegistry :=
  (members r !! i, mk (delete i (members r))).

Definition len (r : ValidatorRegistry) : nat := size (members r).
Definition is_empty (r : ValidatorRegistry) : bool := bool_decide (members r = ∅).
Definition contains (r : ValidatorRegistry) (i : ValidatorId) : bool :=
  bool_decide (is_Some (members r !! i)).
Definition get (r : ValidatorRegistry) (i : ValidatorId) : option ValidatorMember := members r !! i.
Definition members_iter (r : ValidatorRegistry) : list ValidatorMember := btree_values (members r).

Definition total_stake (r : ValidatorRegistry) : Stake :=
  wrapping_sum 128 (stake_suwappu <$> btree_values (members r)).

Definition quorum_threshold_stake (r : ValidatorRegistry) : Stake :=
  let total := total_stake r in wrap 128 (wrap 128 (2 * total) / 3 + 1).

Inductive SlashSeverity := Minor | DoubleVote.

Definition percent (s : SlashSeverity) : N :=
  match s with Minor => 5 | DoubleVote => 30 end.

Record ValidatorSlash := mk_slash { stake_lost : Stake; remaining_stake : Stake }.

(** The error of the second admission is discarded, as in the code. *)
Definition slash_validator (r : ValidatorRegistry) (voter : ValidatorId) (severity : SlashSeverity)
    : option ValidatorSlash * ValidatorRegistry :=
  match get r voter with
  | None => (None, r)
  | Some m =>
      let current := stake_suwappu m in
      let lost := (wrap 128 (current * percent severity) / 100)%N in
      let remaining := (current - lost)%N in
      let r1 := (remove r voter).2 in
      let r2 := if bool_decide (0 < remaining)%N
                then (admit_member r1 (mk_member voter remaining)).2 else r1 in
      (Some (mk_slash lost remaining), r2)
  end.

Definition slash_validator_double_vote (r : ValidatorRegistry) (voter : ValidatorId)
    : option ValidatorSlash * ValidatorRegistry :=
  slash_validator r voter DoubleVote.

(** ** Invariant *)

Record wf (r : ValidatorRegistry) : Prop := {
  wf_id : ∀ i m, members r !! i = Some m → id m = i;
  wf_floor : ∀ i m, members r !! i = Some m →
    (VALIDATOR_STAKE_THRESHOLD_SUWAPPU ≤ stake_suwappu m)%N;
  wf_ceiling : size (members r) ≤ VALIDATOR_RING_MAX;
}.

Inductive op :=
| OpAdmit (m : ValidatorMember)
| OpRemove (i : ValidatorId)
| OpSlash (i : ValidatorId) (s : SlashSeverity).

Definition step (r : ValidatorRegistry) (o : op) : ValidatorRegistry :=
  match o with
  | OpAdmit m => (admit_member r m).2
  | OpRemove i => (remove r i).2
  | OpSlash i s => (slash_validator r i s).2
  end.

Lemma validator_wf_new : wf new.
Proof. split; simpl; [intros ??; by rewrite lookup_empty..|]. rewrite map_size_empty. unfold VALIDATOR_RING_MAX. lia. Qed.

Lemma validator_wf_admit r m : wf r → wf (admit_member r m).2.
Proof.
  intros [Hi Hf Hc]. unfold admit_member. repeat case_bool_decide; simpl; try done. split; simpl.
  - intros i m'. rewrite lookup_insert. case_decide; naive_solver.
  - intros i m'. rewrite lookup_insert. case_decide; [|apply Hf]. intros [= <-]. lia.
  - rewrite map_size_insert. case_match; simpl; lia.
Qed.

Lemma wf_remove r i : wf r → wf (remove r i).2.
Proof.
  intros [Hi Hf Hc]. split; simpl.
  - intros j m [_ ?]%lookup_delete_Some. by apply Hi.
  - intros j m [_ ?]%lookup_delete_Some. by eapply Hf.
  - rewrite map_size_delete. case_match; simpl; lia.
Qed.

Lemma validator_wf_step r o : wf r → wf (step r o).
Proof.
  intros Hr. destruct o as [m|i|i s]; simpl; [by apply validator_wf_admit|by apply wf_remove|].
  unfold slash_validator. destruct (get r i) as [m|]; simpl; [|done].
  case_bool_decide; [apply validator_wf_admit|]; by apply (wf_remove r i).
Qed.
End ValidatorRing.

Abbreviation AuthorityRegistry := AuthorityRing.AuthorityRegistry.
Abbreviation ValidatorRegistry := ValidatorRing.ValidatorRegistry.

(** ** Properties *)

(** The stake table the joint gate uses for a validator ring. *)
Definition ring_table (r : ValidatorRegistry) : StakeTable :=
  StakeTable.mk (ValidatorRing.stake_suwappu <$> ValidatorRing.members r).

(** Reading the values of a mapped tree in key order. *)
Lemma btree_values_fmap_sum {V} (f : V → N) (m : gmap N V) :
  sum_N (f <$> btree_values m) = map_sum (f <$> m).
Proof.
  unfold btree_values, map_sum. rewrite btree_entries_perm, map_to_list_fmap.
  by rewrite <-!list_fmap_compose.
Qed.

(** Ring invariants.  From the empty registries, any sequence of admissions,
    removals, slashings and readmissions keeps both rings well-formed: every
    member is stored under its own id and holds at least the ring's stake floor,
    and the ring never exceeds its size ceiling (50 authorities, 500
    validators). *)
Theorem ring_invariant (aops : list AuthorityRing.op) (vops : list ValidatorRing.op) :
  AuthorityRing.wf (foldl AuthorityRing.step AuthorityRing.new aops) ∧
  ValidatorRing.wf (foldl ValidatorRing.step ValidatorRing.new vops).
Proof.
  split.
  - induction aops as [|o ops IH] using rev_ind; [apply AuthorityRing.authority_wf_new|].
    rewrite foldl_app. by apply AuthorityRing.authority_wf_step.
  - induction vops as [|o ops IH] using rev_ind; [apply ValidatorRing.validator_wf_new|].
    rewrite foldl_app. by apply ValidatorRing.validator_wf_step.
Qed.

(** Slashing a validator of a well-formed ring removes [stake * percent / 100]
    rounded down.  The validator keeps its seat with the rest exactly when the
    rest still meets the stake floor; otherwise it is evicted, although the
    outcome reports its remaining stake.  Nobody else is affected, and an absent
    validator is a no-op. *)
Theorem slash_validator_spec r v s :
  ValidatorRing.wf r →
  match ValidatorRing.members r !! v with
  | None => ValidatorRing.slash_validator r v s = (None, r)
  | Some m =>
      (ValidatorRing.stake_suwappu m * 30 < width 128)%N →
      let lost := (ValidatorRing.stake_suwappu m * ValidatorRing.percent s / 100)%N in
      let rest := (ValidatorRing.stake_suwappu m - lost)%N in
      let seat := if bool_decide (ValidatorRing.VALIDATOR_STAKE_THRESHOLD_SUWAPPU ≤ rest)%N
                  then Some (ValidatorRing.mk_member v rest) else None in
      (0 < rest)%N ∧
      ValidatorRing.slash_validator r v s =
        (Some (ValidatorRing.mk_slash lost rest),
         ValidatorRing.mk (partial_alter (λ _, seat) v (ValidatorRing.members r)))
  end.
Proof.
  intros [Hid Hfl Hceil]. unfold ValidatorRing.slash_validator, ValidatorRing.get.
  destruct (ValidatorRing.members r !! v) as [m|] eqn:E; [|done]. intros Hov.
  specialize (Hfl v m E). unfold ValidatorRing.VALIDATOR_STAKE_THRESHOLD_SUWAPPU in *.
  assert (ValidatorRing.percent s ≤ 30)%N as Hp by (destruct s; simpl; lia).
  rewrite wrap_small by nia. set (st := ValidatorRing.stake_suwappu m) in *. cbv zeta.
  destruct (div_mod_N (st * ValidatorRing.percent s) 100 ltac:(lia)) as (q & x & -> & _ & Hq & Hx).
  assert (0 < st - q)%N as Hpos by nia. split; [done|].
  rewrite bool_decide_true by done. f_equal. unfold ValidatorRing.admit_member; simpl.
  assert (size (delete v (ValidatorRing.members r)) < ValidatorRing.VALIDATOR_RING_MAX) as Hsz.
  { rewrite map_size_delete_Some by eauto. unfold ValidatorRing.VALIDATOR_RING_MAX in *.
    assert (size (ValidatorRing.members r) ≠ 0); [|lia].
    intros Hz%map_size_empty_iff. by rewrite Hz, lookup_empty in E. }
  unfold ValidatorRing.VALIDATOR_STAKE_THRESHOLD_SUWAPPU.
  case_bool_decide as Hf; simpl.
  - rewrite bool_decide_false by lia. done.
  - rewrite (bool_decide_true (25000 ≤ st - q)%N) by lia. rewrite bool_decide_false by lia.
    rewrite lookup_delete_eq, bool_decide_false by (by intros [? ?]). simpl. f_equal.
    by rewrite insert_delete_eq.
Qed.

Lemma slash_validator_spec_witness :
  ValidatorRing.members (ValidatorRing.slash_validator_double_vote
    (ValidatorRing.admit_member ValidatorRing.new (ValidatorRing.mk_member 7 30000)).2 7).2 !! 7%N = None.
Proof.
  assert (ValidatorRing.wf
    (ValidatorRing.admit_member ValidatorRing.new (ValidatorRing.mk_member 7 30000)).2) as W
    by apply ValidatorRing.validator_wf_admit, ValidatorRing.validator_wf_new.
  pose proof (slash_validator_spec
    (ValidatorRing.admit_member ValidatorRing.new (ValidatorRing.mk_member 7 30000)).2 7
    ValidatorRing.DoubleVote W) as S.
  assert (ValidatorRing.members
    (ValidatorRing.admit_member ValidatorRing.new (ValidatorRing.mk_member 7 30000)).2 !! 7%N =
    Some (ValidatorRing.mk_member 7 30000)) as E by (vm_compute; reflexivity).
  rewrite E in S. destruct S as [_ S]; [vm_compute; reflexivity|].
  unfold ValidatorRing.slash_validator_double_vote. rewrite S. vm_compute. reflexivity.
Defined.

(** The quorum formulas of the crates agree: the authority registry's count
    is the commit rule's threshold at the ring's size, and the validator
    registry's stake threshold is the joint gate's threshold on its table. *)
Theorem quorum_formulas_agree (a : AuthorityRegistry) (v : ValidatorRegistry) :
  AuthorityRing.wf a →
  (map_sum (StakeTable.weights (ring_table v)) < width 128)%N →
  AuthorityRing.quorum_threshold a = quorum_threshold (N.of_nat (AuthorityRing.len a)) ∧
  ValidatorRing.quorum_threshold_stake v = validator_quorum_threshold (ring_table v).
Proof.
  intros Ha Hv. split.
  - pose proof (AuthorityRing.wf_ceiling a Ha) as Hc. unfold AuthorityRing.AUTHORITY_RING_MAX in Hc.
    unfold AuthorityRing.quorum_threshold, AuthorityRing.len, quorum_threshold.
    rewrite wrap_small; [done|]. rewrite width_32. lia.
  - unfold ValidatorRing.quorum_threshold_stake, validator_quorum_threshold. cbv zeta.
    assert (ValidatorRing.total_stake v = StakeTable.total (ring_table v)) as ->; [|done].
    rewrite total_small by done. unfold ValidatorRing.total_stake.
    rewrite wrapping_sum_small; rewrite btree_values_fmap_sum; done.
Qed.

Lemma quorum_formulas_agree_witness :
  AuthorityRing.quorum_threshold AuthorityRing.new = 1%N.
Proof.
  destruct (quorum_formulas_agree AuthorityRing.new ValidatorRing.new) as [E _].
  - apply AuthorityRing.authority_wf_new.
  - vm_compute. reflexivity.
  - rewrite E. vm_compute. reflexivity.
Defined.
