(* ===== verification/FastPath.v ===== *)
(** * The fast path ([crates/suwappu-fastpath])

    Fast-path transactions and certificates, the quorum that certifies them,
    the main-lane binding window, equivocation detection and the slashing of
    every signer of a contradicted certificate. *)

From S2P Require Import Prelude Crypto Cert Dag Commit Joint Rings.

Abbreviation OwnedObjectId := bytes (only parsing).
Abbreviation OwnerAddress := bytes (only parsing).

Record FastPathTx := mk_tx {
  object : OwnedObjectId;
  owner : OwnerAddress;
  nonce : N;
  lineage : CertHash;
  lineage_round : Round;
  payload_digest : bytes;
}.

Record FastPathCert := mk_cert { tx : FastPathTx; signers : gset AuthorityId }.

(** ** Quorum *)

Inductive FastPathError :=
| BelowQuorum (have need : N)
| UnknownSigner (s : AuthorityId).

Definition fast_path_quorum_size (n_authorities : N) : N :=
  if bool_decide (n_authorities = 0%N) then 1%N
  else (n_authorities - (n_authorities - 1) / 3)%N.

Definition certify (t : FastPathTx) (sgs : gset AuthorityId) (n_authorities : N)
    : outcome FastPathError FastPathCert :=
  match filter (λ s, n_authorities ≤ s)%N (bset_elems sgs) with
  | s :: _ => Err (UnknownSigner s)
  | [] =>
      let need := fast_path_quorum_size n_authorities in
      let have := wrap 32 (N.of_nat (size sgs)) in
      if bool_decide (have < need)%N then Err (BelowQuorum have need) else Ok (mk_cert t sgs)
  end.

(** ** Main-lane binding window *)

Definition FAST_PATH_CONFIRMATION_K : N := 4.

Record MainLaneTx := mk_ml {
  ml_round : Round;
  ml_object : OwnedObjectId;
  ml_payload_digest : bytes;
  ml_lineage : CertHash;
}.

(** The loop body shared by the two scans, with the window bounds [lo], [hi]. *)
Definition conflicts (cert : FastPathCert) (ml_tx : MainLaneTx) : bool :=
  let lo := wrap 64 (lineage_round (tx cert) + 1) in
  let hi := wrap 64 (lineage_round (tx cert) + FAST_PATH_CONFIRMATION_K) in
  if bool_decide (ml_round ml_tx < lo ∨ hi < ml_round ml_tx)%N then false
  else bool_decide (ml_object ml_tx = object (tx cert) ∧
                    ml_payload_digest ml_tx ≠ payload_digest (tx cert)).

Fixpoint is_main_lane_consistent (cert : FastPathCert) (main_lane : list MainLaneTx) : bool :=
  match main_lane with
  | [] => true
  | ml_tx :: rest => if conflicts cert ml_tx then false else is_main_lane_consistent cert rest
  end.

(** ** Equivocation *)

Record FastPathEquivocationProof := mk_fproof {
  cert : FastPathCert;
  conflicting_tx : MainLaneTx;
}.

Fixpoint detect_fast_path_equivocation (c : FastPathCert) (main_lane : list MainLaneTx)
    : option FastPathEquivocationProof :=
  match main_lane with
  | [] => None
  | ml_tx :: rest =>
      if conflicts c ml_tx then Some (mk_fproof c ml_tx)
      else detect_fast_path_equivocation c rest
  end.

(** ** Slashing *)

Record FastPathSlashOutcome := mk_outcome {
  slashed : list (AuthorityId * AuthorityRing.AuthoritySlash);
  missing : list AuthorityId;
}.

Definition total_stake_lost (o : FastPathSlashOutcome) : N :=
  wrapping_sum 64 ((λ p, AuthorityRing.stake_lost p.2) <$> slashed o).

(** The loop over the signers in ascending order. *)
Fixpoint slash_loop (r : AuthorityRegistry) (sgs : list AuthorityId) (acc : FastPathSlashOutcome)
    : FastPathSlashOutcome * AuthorityRegistry :=
  match sgs with
  | [] => (acc, r)
  | author :: rest =>
      match AuthorityRing.slash_authority r author with
      | (Some s, r') =>
          slash_loop r' rest (mk_outcome (slashed acc ++ [(author, s)]) (missing acc))
      | (None, r') => slash_loop r' rest (mk_outcome (slashed acc) (missing acc ++ [author]))
      end
  end.

Definition slash_fast_path_signers (r : AuthorityRegistry) (proof : FastPathEquivocationProof)
    : FastPathSlashOutcome * AuthorityRegistry :=
  slash_loop r (bset_elems (signers (cert proof))) (mk_outcome [] []).

(** ** Lemmas *)

Lemma fast_path_quorum_agrees n : fast_path_quorum_size n = quorum_threshold n.
Proof. done. Qed.

Lemma certify_Ok t S n c :
  (n < width 32)%N →
  certify t S n = Ok c ↔
  c = mk_cert t S ∧ S ⊆ range_set n ∧ (quorum_threshold n ≤ N.of_nat (size S))%N.
Proof.
  intros Hn. unfold certify. rewrite fast_path_quorum_agrees.
  destruct (filter _ _) as [|s l] eqn:E; cycle 1.
  - split; [done|]. intros (_ & HS & _). exfalso.
    assert (s ∈ filter (λ s, n ≤ s)%N (bset_elems S)) as Hs by (rewrite E; by left).
    apply list_elem_of_filter in Hs as [Hle Hs]. rewrite elem_of_bset_elems in Hs.
    apply HS, elem_of_range_set in Hs. lia.
  - assert (S ⊆ range_set n) as HS.
    { intros s Hs. apply elem_of_range_set. destruct (decide (s < n)%N); [done|].
      assert (s ∈ filter (λ s, n ≤ s)%N (bset_elems S)) as Hf.
      { apply list_elem_of_filter. rewrite elem_of_bset_elems. split; [lia|done]. }
      rewrite E in Hf. by apply elem_of_nil in Hf. }
    pose proof (subseteq_size _ _ HS) as Hsz. rewrite size_range_set in Hsz.
    rewrite wrap_small by lia. case_bool_decide as Hq.
    + split; [done|]. intros (_ & _ & ?). lia.
    + split; [|by intros (-> & _ & _)]. intros [= <-]. split_and!; [done..|lia].
Qed.

(** The slash each seated signer suffers, and the signers without a seat. *)
Definition seated_slashes (r : AuthorityRegistry) (sgs : list AuthorityId)
    : list (AuthorityId * AuthorityRing.AuthoritySlash) :=
  omap (λ a, (λ m, (a, AuthorityRing.mk_slash (AuthorityRing.stake_suwappu m) true))
               <$> AuthorityRing.members r !! a) sgs.
Definition absent (r : AuthorityRegistry) (sgs : list AuthorityId) : list AuthorityId :=
  filter (λ a, AuthorityRing.members r !! a = None) sgs.
Definition expel (r : AuthorityRegistry) (sgs : list AuthorityId) : AuthorityRegistry :=
  AuthorityRing.mk (foldr delete (AuthorityRing.members r) sgs).

#[local] Arguments seated_slashes : simpl never.
#[local] Arguments absent : simpl never.
#[local] Arguments expel : simpl never.

Lemma lookup_expel r sgs a :
  AuthorityRing.members (expel r sgs) !! a =
  if decide (a ∈ sgs) then None else AuthorityRing.members r !! a.
Proof.
  unfold expel; simpl. case_decide.
  - by apply lookup_foldr_delete.
  - by rewrite lookup_foldr_delete_not_elem_of.
Qed.

Lemma seated_slashes_cons r a sgs :
  seated_slashes r (a :: sgs) =
  match AuthorityRing.members r !! a with
  | Some m => (a, AuthorityRing.mk_slash (AuthorityRing.stake_suwappu m) true) :: seated_slashes r sgs
  | None => seated_slashes r sgs
  end.
Proof. unfold seated_slashes; csimpl. by destruct (AuthorityRing.members r !! a). Qed.

Lemma absent_cons r a sgs :
  absent r (a :: sgs) =
  match AuthorityRing.members r !! a with
  | Some m => absent r sgs
  | None => a :: absent r sgs
  end.
Proof. unfold absent. rewrite filter_cons. destruct (AuthorityRing.members r !! a); by case_decide. Qed.

(** Deleting one seat does not change what other signers see. *)
Lemma slash_views r a sgs :
  a ∉ sgs →
  let r' := AuthorityRing.mk (delete a (AuthorityRing.members r)) in
  seated_slashes r' sgs = seated_slashes r sgs ∧ absent r' sgs = absent r sgs ∧
  expel r' sgs = expel r (a :: sgs).
Proof.
  intros Ha r'. assert (∀ x, x ∈ sgs → AuthorityRing.members r' !! x = AuthorityRing.members r !! x) as Hl.
  { intros x Hx. unfold r'; simpl. rewrite lookup_delete_ne by set_solver. done. }
  split_and!.
  - clear Ha. induction sgs as [|x sgs IH]; [done|].
    rewrite !seated_slashes_cons, Hl by (by left). by rewrite IH by (intros; apply Hl; by right).
  - clear Ha. induction sgs as [|x sgs IH]; [done|].
    rewrite !absent_cons, Hl by (by left). by rewrite IH by (intros; apply Hl; by right).
  - unfold expel, r'; simpl. f_equal. by rewrite delete_foldr_delete.
Qed.

Lemma slash_loop_spec r sgs acc :
  NoDup sgs →
  slash_loop r sgs acc =
  (mk_outcome (slashed acc ++ seated_slashes r sgs) (missing acc ++ absent r sgs), expel r sgs).
Proof.
  intros Hnd. revert r acc. induction Hnd as [|a sgs Ha Hnd IH]; intros r acc; cbn [slash_loop].
  { unfold seated_slashes, absent, expel; simpl. rewrite !app_nil_r. by destruct acc, r. }
  unfold AuthorityRing.slash_authority, AuthorityRing.remove.
  destruct (slash_views r a sgs Ha) as (Es & Ea & Ex).
  rewrite seated_slashes_cons, absent_cons.
  destruct (AuthorityRing.members r !! a) as [m|] eqn:E; rewrite IH, Es, Ea, Ex; simpl;
    by rewrite <-app_assoc.
Qed.

(** A list of signers none of whom is seated. *)
Section none_seated.
Context (r : AuthorityRegistry) (sgs : list AuthorityId).
Hypothesis unseated : ∀ a, a ∈ sgs → AuthorityRing.members r !! a = None.

Lemma seated_none : seated_slashes r sgs = [].
Proof.
  induction sgs as [|x l IH]; [done|]. rewrite seated_slashes_cons, unseated by (by left).
  apply IH. intros. apply unseated. by right.
Qed.

Lemma absent_all : absent r sgs = sgs.
Proof.
  induction sgs as [|x l IH]; [done|]. rewrite absent_cons, unseated by (by left).
  f_equal. apply IH. intros. apply unseated. by right.
Qed.

Lemma expel_none : expel r sgs = r.
Proof.
  unfold expel. destruct r as [m]. f_equal. apply foldr_delete_id. by apply Forall_forall.
Qed.
End none_seated.

Lemma total_after_expel r sgs :
  NoDup sgs →
  AuthorityRing.bonded r =
  (AuthorityRing.bonded (expel r sgs) +
   sum_N ((λ p, AuthorityRing.stake_lost p.2) <$> seated_slashes r sgs))%N.
Proof.
  intros Hnd. revert r. induction Hnd as [|a sgs Ha Hnd IH]; intros r.
  { unfold expel, seated_slashes; simpl. destruct r; simpl. unfold sum_N; simpl. lia. }
  destruct (slash_views r a sgs Ha) as (Es & _ & Ex). rewrite <-Ex.
  specialize (IH (AuthorityRing.mk (delete a (AuthorityRing.members r)))). rewrite Es in IH.
  assert (sum_N ((λ p, AuthorityRing.stake_lost p.2) <$> seated_slashes r (a :: sgs)) =
    default 0 (AuthorityRing.stake_suwappu <$> AuthorityRing.members r !! a) +
    sum_N ((λ p, AuthorityRing.stake_lost p.2) <$> seated_slashes r sgs))%N as ->.
  { rewrite seated_slashes_cons. by destruct (AuthorityRing.members r !! a). }
  unfold AuthorityRing.bonded in *; simpl in *. rewrite fmap_delete in IH.
  pose proof (map_sum_delete (AuthorityRing.stake_suwappu <$> AuthorityRing.members r) a) as Hd.
  rewrite lookup_fmap in Hd. lia.
Qed.

Lemma detect_first c ml p :
  detect_fast_path_equivocation c ml = Some p ↔
  ∃ pre t post, ml = pre ++ t :: post ∧ p = mk_fproof c t ∧ conflicts c t = true ∧
    Forall (λ x, conflicts c x = false) pre.
Proof.
  split.
  - induction ml as [|x ml IH]; simpl; [done|]. destruct (conflicts c x) eqn:E.
    + intros [= <-]. exists [], x, ml. auto.
    + intros (pre & t & post & -> & ? & ? & ?)%IH. exists (x :: pre), t, post. auto.
  - intros (pre & t & post & -> & -> & Ht & Hpre).
    induction Hpre as [|x pre Hx Hpre IH]; simpl; [by rewrite Ht|by rewrite Hx].
Qed.

Lemma consistent_detect c ml :
  is_main_lane_consistent c ml = true ↔ detect_fast_path_equivocation c ml = None.
Proof. induction ml as [|x ml IH]; simpl; [done|]. by destruct (conflicts c x). Qed.

(** ** Properties *)

(** [certify] accepts exactly the signer sets inside the committee that reach
    the quorum, and any two certificates of one committee share more than
    [(n-1)/3] signers, so two contradictory certificates always have a common
    signer beyond the fault bound. *)
Theorem certify_intersection t1 t2 S1 S2 n c1 c2 :
  (0 < n < width 32)%N →
  certify t1 S1 n = Ok c1 → certify t2 S2 n = Ok c2 →
  S1 ⊆ range_set n ∧ (quorum_threshold n ≤ N.of_nat (size S1))%N ∧
  ((n - 1) / 3 < N.of_nat (size (signers c1 ∩ signers c2)))%N.
Proof.
  intros [Hn Hw] (-> & HS1 & Hq1)%certify_Ok (-> & HS2 & Hq2)%certify_Ok; [|done..]. simpl.
  split_and!; [done..|]. pose proof (quorum_intersection S1 S2 _ HS1 HS2) as Hi.
  rewrite size_range_set in Hi. unfold quorum_threshold in *.
  rewrite bool_decide_false in * by lia.
  destruct (div_mod_N (n - 1) 3 ltac:(lia)) as (q & r & Eq & _ & ? & ?). rewrite Eq in *. lia.
Qed.

(** Detection and consistency agree: a certificate is reported exactly when
    it is inconsistent with the main lane, the proof names the first conflicting
    transaction, and (away from the end of the round range) that transaction
    touches the same object with another payload inside the window of four
    rounds after the lineage. *)
Theorem fast_path_detection c ml :
  (lineage_round (tx c) + 4 < width 64)%N →
  (is_main_lane_consistent c ml = true ↔ detect_fast_path_equivocation c ml = None) ∧
  ∀ p, detect_fast_path_equivocation c ml = Some p →
    cert p = c ∧
    let m := conflicting_tx p in
    m ∈ ml ∧ ml_object m = object (tx c) ∧ ml_payload_digest m ≠ payload_digest (tx c) ∧
    (lineage_round (tx c) < ml_round m ≤ lineage_round (tx c) + 4)%N.
Proof.
  intros Hw. split; [apply consistent_detect|].
  intros p (pre & t & post & -> & -> & Ht & _)%detect_first. simpl. split; [done|].
  unfold conflicts, FAST_PATH_CONFIRMATION_K in Ht.
  rewrite !wrap_small in Ht by lia. case_bool_decide; [done|].
  apply bool_decide_eq_true in Ht as [? ?]. split_and!; [set_solver|done|done|lia|lia].
Qed.

(** Slashing a fast-path proof expels exactly the seated signers, reports each
    with its whole stake and every other signer as missing, and accounts for the
    bonded stake: what the ring loses is what the outcome reports.  A second run
    slashes nobody and changes nothing. *)
Theorem slash_fast_path_signers_spec r p :
  (AuthorityRing.bonded r < width 64)%N →
  let S := signers (cert p) in
  let '(o, r') := slash_fast_path_signers r p in
  (∀ a, AuthorityRing.members r' !! a = if decide (a ∈ S) then None else AuthorityRing.members r !! a) ∧
  (∀ a s, (a, s) ∈ slashed o ↔ a ∈ S ∧
     ∃ m, AuthorityRing.members r !! a = Some m ∧
          s = AuthorityRing.mk_slash (AuthorityRing.stake_suwappu m) true) ∧
  (∀ a, a ∈ missing o ↔ a ∈ S ∧ AuthorityRing.members r !! a = None) ∧
  AuthorityRing.bonded r = (AuthorityRing.bonded r' + total_stake_lost o)%N ∧
  slash_fast_path_signers r' p = (mk_outcome [] (bset_elems S), r').
Proof.
  intros Hw S. unfold slash_fast_path_signers.
  assert (NoDup (bset_elems S)) as Hnd by (rewrite bset_elems_perm; apply NoDup_elements).
  fold S. rewrite slash_loop_spec by done. cbn [slashed missing app]. split_and!.
  - intros a. rewrite lookup_expel. pose proof (elem_of_bset_elems S a). repeat case_decide; naive_solver.
  - intros a s. unfold seated_slashes. rewrite list_elem_of_omap.
    setoid_rewrite elem_of_bset_elems. split.
    + intros (x & Hx & (m & Hm & [= -> ->])%fmap_Some). eauto.
    + intros (Hx & m & Hm & ->). exists a. by rewrite Hm.
  - intros a. unfold absent. rewrite list_elem_of_filter, elem_of_bset_elems. naive_solver.
  - pose proof (total_after_expel r (bset_elems S) Hnd) as E. unfold total_stake_lost; simpl.
    rewrite wrapping_sum_small; lia.
  - rewrite slash_loop_spec by done. cbn [slashed missing app].
    assert (∀ a, a ∈ bset_elems S → AuthorityRing.members (expel r (bset_elems S)) !! a = None) as Hl
      by (intros a Ha; rewrite lookup_expel; by rewrite decide_True).
    f_equal; [f_equal|].
    + by rewrite seated_none.
    + by rewrite absent_all.
    + by rewrite expel_none.
Qed.

Module FastPathExamples.
Definition t (x : byte) : FastPathTx := mk_tx [] [] 0 [] 5 [x].
Definition quorum : gset AuthorityId := {[0; 1; 2]}%N.

Lemma certify_intersection_witness :
  (1 < N.of_nat (size (quorum ∩ {[1; 2; 3]})))%N.
Proof.
  destruct (certify_intersection (t Byte.x00) (t Byte.x01) quorum {[1; 2; 3]}%N 4
    (mk_cert (t Byte.x00) quorum) (mk_cert (t Byte.x01) {[1; 2; 3]}%N)) as (_ & _ & Hi).
  - split; [lia|]. vm_compute. reflexivity.
  - vm_compute. reflexivity.
  - vm_compute. reflexivity.
  - exact Hi.
Defined.

Definition lane : list MainLaneTx := [mk_ml 5 [] [Byte.x01] []; mk_ml 9 [] [Byte.x01] []].

Lemma fast_path_detection_witness :
  is_main_lane_consistent (mk_cert (t Byte.x00) quorum) lane = false ∧
  ∃ p, detect_fast_path_equivocation (mk_cert (t Byte.x00) quorum) lane = Some p ∧
    ml_round (conflicting_tx p) = 9%N ∧ ml_object (conflicting_tx p) = [].
Proof.
  destruct (fast_path_detection (mk_cert (t Byte.x00) quorum) lane) as [_ Hd].
  - vm_compute. reflexivity.
  - split; [vm_compute; reflexivity|].
    exists (mk_fproof (mk_cert (t Byte.x00) quorum) (mk_ml 9 [] [Byte.x01] [])).
    destruct (Hd (mk_fproof (mk_cert (t Byte.x00) quorum) (mk_ml 9 [] [Byte.x01] [])))
      as (_ & _ & Ho & _); [vm_compute; reflexivity|].
    split; [vm_compute; reflexivity|]. split; [reflexivity|exact Ho].
Defined.

Definition ring : AuthorityRegistry :=
  foldl AuthorityRing.step AuthorityRing.new
    [AuthorityRing.OpAdmit (AuthorityRing.mk_member 1 100000 []);
     AuthorityRing.OpAdmit (AuthorityRing.mk_member 7 200000 [])].

Lemma slash_fast_path_signers_spec_witness :
  AuthorityRing.members (slash_fast_path_signers ring
    (mk_fproof (mk_cert (t Byte.x00) quorum) (mk_ml 9 [] [Byte.x01] []))).2 !! 1%N = None.
Proof.
  pose proof (slash_fast_path_signers_spec ring
    (mk_fproof (mk_cert (t Byte.x00) quorum) (mk_ml 9 [] [Byte.x01] []))) as S.
  assert (AuthorityRing.bonded ring < width 64)%N as W by (vm_compute; reflexivity).
  specialize (S W). destruct (slash_fast_path_signers _ _) as [o r'].
  destruct S as (S & _). simpl. rewrite S. reflexivity.
Defined.
End FastPathExamples.
