(* ===== verification/Mempool.v ===== *)
(** * The mempool ([crates/suwappu-mempool])

    The leaky bucket on IEEE binary64 numbers, and the bounded priority queue
    with duplicate detection, eviction, draining and expiry.  The queue is
    verified against the interface [RateLimiter]; [LeakyBucket] is the
    implementation the code uses. *)

From Stdlib Require Import Strings.String Floats.SpecFloat.
From S2P Require Import Prelude Crypto.

(** What the mempool uses of a per-peer limiter. *)
Class RateLimiter (B : Type) := {
  bucket_new : N → N → N → B;
  take_one : B → N → outcome N unit * B;
  last_refill_ms_for_gc : B → N;
  take_one_no_panic : ∀ b now, (take_one b now).1 ≠ Panic;
}.

(** ** [bucket.rs] *)
Module LeakyBucket.
(** IEEE 754 binary64, with [u64 as f64] rounding to nearest even. *)
Definition f64 : Type := spec_float.
Definition f64_of_u64 (n : N) : f64 := binary_normalize 53 1024 (Z.of_N n) 0 false.
Definition f64_add : f64 → f64 → f64 := SFadd 53 1024.
Definition f64_sub : f64 → f64 → f64 := SFsub 53 1024.
Definition f64_mul : f64 → f64 → f64 := SFmul 53 1024.
Definition f64_div : f64 → f64 → f64 := SFdiv 53 1024.

(** [f64::min]: a NaN operand is ignored. *)
Definition f64_min (x y : f64) : f64 :=
  match x, y with
  | S754_nan, _ => y
  | _, S754_nan => x
  | _, _ => if SFltb x y then x else y
  end.

(** [x.ceil() as u64]: the saturating cast of the ceiling; NaN becomes 0. *)
Definition ceil_to_u64 (x : f64) : N :=
  match x with
  | S754_zero _ | S754_nan => 0
  | S754_infinity s => if s then 0 else width 64 - 1
  | S754_finite true _ _ => 0
  | S754_finite false m e =>
      let v := match e with
               | Z0 => N.pos m
               | Zpos p => (N.pos m * 2 ^ N.pos p)%N
               | Zneg p => ((N.pos m + 2 ^ N.pos p - 1) / 2 ^ N.pos p)%N
               end in
      N.min v (width 64 - 1)
  end.

Record LeakyBucket := mk {
  tokens : f64;
  capacity : f64;
  refill_per_ms : f64;
  last_refill_ms : N;
}.

Definition new (cap refill_per_sec now_ms : N) : LeakyBucket :=
  mk (f64_of_u64 cap) (f64_of_u64 cap)
     (f64_div (f64_of_u64 refill_per_sec) (f64_of_u64 1000)) now_ms.

Definition refill (b : LeakyBucket) (now_ms : N) : LeakyBucket :=
  let elapsed := f64_of_u64 (now_ms - last_refill_ms b) in
  if SFltb (f64_of_u64 0) elapsed
  then mk (f64_min (f64_add (tokens b) (f64_mul elapsed (refill_per_ms b))) (capacity b))
          (capacity b) (refill_per_ms b) now_ms
  else b.

Definition take_one (b : LeakyBucket) (now_ms : N) : outcome N unit * LeakyBucket :=
  let b := refill b now_ms in
  if SFleb (f64_of_u64 1) (tokens b)
  then (Ok tt, mk (f64_sub (tokens b) (f64_of_u64 1)) (capacity b) (refill_per_ms b)
                  (last_refill_ms b))
  else
    let needed := f64_sub (f64_of_u64 1) (tokens b) in
    (Err (ceil_to_u64 (f64_div needed (refill_per_ms b))), b).

End LeakyBucket.

#[global] Program Instance leaky_limiter : RateLimiter LeakyBucket.LeakyBucket := {|
  bucket_new := LeakyBucket.new;
  take_one := LeakyBucket.take_one;
  last_refill_ms_for_gc := LeakyBucket.last_refill_ms;
|}.
Next Obligation. intros b now. unfold LeakyBucket.take_one. by case_match. Qed.

(** ** [mempool.rs] *)

Record MempoolConfig := mk_config {
  cfg_capacity : nat;
  ttl_ms : N;
  per_peer_capacity : N;
  per_peer_refill_per_sec : N;
}.

Abbreviation IntentHash := bytes (only parsing).

Inductive MempoolError :=
| RateLimited (retry_after_ms : N)
| DuplicateIntent (hash : IntentHash)
| BelowFloor (given floor : N) (capacity : nat)
| Encode (msg : string).

(** [std::cmp::Reverse] on [u64]. *)
Record Reverse := mk_rev { unrev : N }.

#[global] Instance Reverse_eq_dec : EqDecision Reverse.
Proof. solve_decision. Defined.
#[global] Program Instance Reverse_countable : Countable Reverse :=
  inj_countable' unrev mk_rev _.
Next Obligation. by intros []. Qed.
#[global] Program Instance Reverse_order : KeyOrder Reverse :=
  {| key_le x y := (unrev y ≤ unrev x)%N |}.
Next Obligation. intros x y. apply _. Defined.
Next Obligation. intros x. lia. Qed.
Next Obligation. intros x y z. lia. Qed.
Next Obligation. intros [x] [y] ??; simpl in *. f_equal. lia. Qed.
Next Obligation. intros [x] [y]; simpl. lia. Qed.

(** [(Reverse(priority), submit_ms, hash)]. *)
Abbreviation EntryKey := (Reverse * (N * IntentHash))%type.
Definition key_priority (k : EntryKey) : N := unrev k.1.
Definition key_hash (k : EntryKey) : IntentHash := k.2.2.

Section mempool.
Context `{Blake3} {B : Type} `{RateLimiter B}.
(** The intent type and its [bincode] encoding are opaque to the mempool. *)
Context {Intent : Type} (bincode_encode : Intent → outcome string bytes).

Record Entry := mk_entry { intent : Intent; submit_ms : N }.

Record Mempool := mk {
  queue : gmap EntryKey Entry;
  seen : gset IntentHash;
  buckets : gmap string B;
  config : MempoolConfig;
}.

Definition new (config : MempoolConfig) : Mempool := mk ∅ ∅ ∅ config.

(** Step 2 of [submit]: charge the peer's bucket, creating it on first use. *)
Definition rate_limit (m : Mempool) (peer : option string) (now_ms : N)
    : outcome MempoolError unit * Mempool :=
  match peer with
  | None => (Ok tt, m)
  | Some label =>
      let b := match buckets m !! label with
               | Some b => b
               | None => bucket_new (per_peer_capacity (config m))
                           (per_peer_refill_per_sec (config m)) now_ms
               end in
      let '(res, b') := take_one b now_ms in
      let m' := mk (queue m) (seen m) (<[label := b']> (buckets m)) (config m) in
      match res with
      | Ok _ => (Ok tt, m')
      | Err retry => (Err (RateLimited retry), m')
      | Panic => (Panic, m')
      end
  end.

(** Step 4: reject below the floor, or evict the floor entry. *)
Definition make_room (m : Mempool) (priority : N) : outcome MempoolError unit * Mempool :=
  if bool_decide (cfg_capacity (config m) ≤ size (queue m)) then
    let floor_priority := match last (btree_keys (queue m)) with
                          | Some k => key_priority k
                          | None => 0%N
                          end in
    if bool_decide (priority ≤ floor_priority)%N
    then (Err (BelowFloor priority floor_priority (cfg_capacity (config m))), m)
    else
      match last (btree_keys (queue m)) with
      | Some k => (Ok tt, mk (delete k (queue m)) (seen m ∖ {[key_hash k]}) (buckets m) (config m))
      | None => (Ok tt, m)
      end
  else (Ok tt, m).

Definition submit (m : Mempool) (i : Intent) (priority : N) (peer : option string) (now_ms : N)
    : outcome MempoolError IntentHash * Mempool :=
  match bincode_encode i with
  | Err e => (Err (Encode e), m)
  | Panic => (Panic, m)
  | Ok b =>
      let hash := blake3 b in
      let '(rl, m1) := rate_limit m peer now_ms in
      match rl with
      | Err e => (Err e, m1)
      | Panic => (Panic, m1)
      | Ok _ =>
          if bool_decide (hash ∈ seen m1) then (Err (DuplicateIntent hash), m1)
          else
            let '(room, m2) := make_room m1 priority in
            match room with
            | Err e => (Err e, m2)
            | Panic => (Panic, m2)
            | Ok _ =>
                (Ok hash,
                 mk (<[(mk_rev priority, (now_ms, hash)) := mk_entry i now_ms]> (queue m2))
                    ({[hash]} ∪ seen m2) (buckets m2) (config m2))
            end
      end
  end.

(** The [while out.len() < max] loop: [k] iterations left. *)
Fixpoint drain_loop (k : nat) (q : gmap EntryKey Entry) (s : gset IntentHash) (out : list Intent)
    : list Intent * gmap EntryKey Entry * gset IntentHash :=
  match k with
  | O => (out, q, s)
  | S k' =>
      match head (btree_entries q) with
      | Some (key, e) => drain_loop k' (delete key q) (s ∖ {[key_hash key]}) (out ++ [intent e])
      | None => (out, q, s)
      end
  end.

Definition drain_for_block (m : Mempool) (max : nat) : list Intent * Mempool :=
  let '(out, q, s) := drain_loop max (queue m) (seen m) [] in
  (out, mk q s (buckets m) (config m)).

(** [saturating_sub] is truncated subtraction. *)
Definition expired (m : Mempool) (now_ms : N) (e : Entry) : bool :=
  bool_decide (ttl_ms (config m) < now_ms - submit_ms e)%N.

Definition expire (m : Mempool) (now_ms : N) : nat * Mempool :=
  let to_drop := fst <$> filter (λ p, expired m now_ms p.2 = true) (btree_entries (queue m)) in
  (length to_drop,
   mk (foldl (λ q k, delete k q) (queue m) to_drop)
      (foldl (λ s k, s ∖ {[key_hash k]}) (seen m) to_drop) (buckets m) (config m)).

Definition gc_buckets (m : Mempool) (now_ms idle_threshold_ms : N) : nat * Mempool :=
  let kept := filter (λ p, (now_ms - last_refill_ms_for_gc p.2 < idle_threshold_ms)%N) (buckets m) in
  (size (buckets m) - size kept, mk (queue m) (seen m) kept (config m)).

Record MempoolStats := mk_stats {
  stat_size : nat;
  stat_capacity : nat;
  max_priority : option N;
  min_priority : option N;
  tracked_peers : nat;
}.

Definition stats (m : Mempool) : MempoolStats :=
  mk_stats (size (queue m)) (cfg_capacity (config m))
    (key_priority <$> head (btree_keys (queue m)))
    (key_priority <$> last (btree_keys (queue m)))
    (size (buckets m)).

(** ** Invariant *)

(** The duplicate set mirrors the queue, and a hash is queued at most once. *)
Record consistent (q : gmap EntryKey Entry) (s : gset IntentHash) : Prop := {
  con_seen : ∀ h, h ∈ s ↔ ∃ k, is_Some (q !! k) ∧ key_hash k = h;
  con_uniq : ∀ k1 k2, is_Some (q !! k1) → is_Some (q !! k2) → key_hash k1 = key_hash k2 → k1 = k2;
  con_hash : ∀ k e, q !! k = Some e →
    submit_ms e = k.2.1 ∧ ∃ b, bincode_encode (intent e) = Ok b ∧ blake3 b = key_hash k;
}.

Definition wf (m : Mempool) : Prop :=
  consistent (queue m) (seen m) ∧ size (queue m) ≤ Nat.max 1 (cfg_capacity (config m)).

Lemma consistent_empty : consistent ∅ ∅.
Proof.
  split.
  - intros h. split; [set_solver|]. intros (k & [e He] & _). by rewrite lookup_empty in He.
  - intros k1 k2 [e He]. by rewrite lookup_empty in He.
  - intros k e He. by rewrite lookup_empty in He.
Qed.

Lemma consistent_delete q s k :
  consistent q s → is_Some (q !! k) → consistent (delete k q) (s ∖ {[key_hash k]}).
Proof.
  intros [Hs Hu Hh] Hk. split.
  - intros h. rewrite elem_of_difference, elem_of_singleton, Hs. split.
    + intros [(k' & Hk' & <-) Hne]. exists k'. rewrite lookup_delete_ne; [done|congruence].
    + intros (k' & [e [Hne He]%lookup_delete_Some] & <-). split; [eauto|].
      intros E. apply Hne. symmetry. apply Hu; eauto.
  - intros k1 k2 [e1 [_ H1]%lookup_delete_Some] [e2 [_ H2]%lookup_delete_Some]. apply Hu; eauto.
  - intros k' e [_ He]%lookup_delete_Some. by apply Hh.
Qed.

Lemma consistent_insert q s k i b :
  consistent q s → key_hash k ∉ s → bincode_encode i = Ok b → blake3 b = key_hash k →
  consistent (<[k := mk_entry i k.2.1]> q) ({[key_hash k]} ∪ s).
Proof.
  intros [Hs Hu Hh] Hn Hb Hk.
  assert (∀ k', is_Some (q !! k') → key_hash k' ≠ key_hash k) as Hne.
  { intros k' Hk' E. apply Hn. rewrite <-E. apply Hs. eauto. }
  split.
  - intros h. rewrite elem_of_union, elem_of_singleton, Hs. setoid_rewrite lookup_insert_is_Some'.
    naive_solver.
  - intros k1 k2. rewrite !lookup_insert_is_Some'. intros [->|H1] [->|H2] E; try done.
    + by destruct (Hne k2 H2).
    + by destruct (Hne k1 H1).
    + by apply Hu.
  - intros k' e. rewrite lookup_insert. case_decide; [|apply Hh]. intros [= <-]; subst; simpl. eauto.
Qed.

Lemma pool_wf_new cfg : wf (new cfg).
Proof. split; simpl; [apply consistent_empty|]. rewrite map_size_empty. lia. Qed.

Lemma rate_limit_frame m peer now r m' :
  rate_limit m peer now = (r, m') →
  queue m' = queue m ∧ seen m' = seen m ∧ config m' = config m ∧ r ≠ Panic.
Proof.
  unfold rate_limit. destruct peer as [label|]; [|by intros [= <- <-]].
  match goal with |- context [take_one ?b now] => pose proof (take_one_no_panic b now) as Hp;
    destruct (take_one b now) as [res b'] end.
  destruct res; intros [= <- <-]; by simpl in *.
Qed.

(** What making room does: nothing below capacity; at capacity, reject a
    priority at or below the floor, else evict the floor entry. *)
Lemma make_room_cases m p :
  let full := cfg_capacity (config m) ≤ size (queue m) in
  (¬ full ∧ make_room m p = (Ok tt, m)) ∨
  (full ∧ queue m = ∅ ∧ ((0 < p)%N ∧ make_room m p = (Ok tt, m) ∨
     p = 0%N ∧ make_room m p = (Err (BelowFloor p 0 (cfg_capacity (config m))), m))) ∨
  (full ∧ ∃ k, is_Some (queue m !! k) ∧ (∀ k', is_Some (queue m !! k') → key_le k' k) ∧
     ((key_priority k < p)%N ∧ make_room m p =
        (Ok tt, mk (delete k (queue m)) (seen m ∖ {[key_hash k]}) (buckets m) (config m)) ∨
      (p ≤ key_priority k)%N ∧
        make_room m p = (Err (BelowFloor p (key_priority k) (cfg_capacity (config m))), m))).
Proof.
  intros full. unfold make_room. case_bool_decide as Hf; [right|by left].
  destruct (last (btree_keys (queue m))) as [k|] eqn:El.
  - right. split; [done|]. exists k. destruct (btree_keys_last _ _ El) as [Hk Hmax].
    split_and!; [done..|]. case_bool_decide; [right|left]; split; (done || lia).
  - left. apply btree_keys_last_None in El. split_and!; [done..|].
    case_bool_decide; [right|left]; split; (done || lia).
Qed.

Lemma size_delete_lt (q : gmap EntryKey Entry) k : is_Some (q !! k) → size q = S (size (delete k q)).
Proof.
  intros Hk. rewrite map_size_delete_Some by done. assert (size q ≠ 0); [|lia].
  intros ->%map_size_empty_iff. destruct Hk as [e He]. by rewrite lookup_empty in He.
Qed.

Lemma size_insert_le (q : gmap EntryKey Entry) k e : size (<[k := e]> q) ≤ S (size q).
Proof. rewrite map_size_insert. case_match; simpl; lia. Qed.

Lemma wf_make_room m p r m' :
  wf m → make_room m p = (r, m') →
  consistent (queue m') (seen m') ∧ config m' = config m ∧ seen m' ⊆ seen m ∧
  (r = Ok tt → S (size (queue m')) ≤ Nat.max 1 (cfg_capacity (config m))) ∧
  (r ≠ Ok tt → m' = m).
Proof.
  intros [Hc Hs] E.
  destruct (make_room_cases m p) as [[Hf E']|[(Hf & Hq & [[? E']|[? E']])|
    (Hf & k & Hk & _ & [[? E']|[? E']])]]; rewrite E' in E; injection E as <- <-; simpl.
  - split_and!; [done..|intros _; lia|done].
  - rewrite Hq, map_size_empty. rewrite Hq in Hc. split_and!; [done..|intros _; lia|done].
  - done.
  - pose proof (size_delete_lt (queue m) k Hk).
    split_and!; [by apply consistent_delete|done|set_solver|intros _; lia|done].
  - done.
Qed.

Lemma wf_submit m i p peer now : wf m → wf (submit m i p peer now).2.
Proof.
  intros Hm. unfold submit. destruct (bincode_encode i) as [b|e|] eqn:Eb; [|done..].
  destruct (rate_limit m peer now) as [rl m1] eqn:E1.
  apply rate_limit_frame in E1 as (Hq & Hs & Hcf & Hp).
  assert (wf m1) as Hm1 by (unfold wf; by rewrite Hq, Hs, Hcf).
  destruct rl as [[]| |]; [|done..]. case_bool_decide as Hd; [done|].
  destruct (make_room m1 p) as [room m2] eqn:E2.
  apply wf_make_room in E2 as (Hc2 & Hcf2 & Hsub & Hroom & Hsame); [|done].
  destruct room as [[]| |]; [|by rewrite Hsame..].
  split; simpl.
  - apply (consistent_insert _ _ (mk_rev p, (now, blake3 b)) i b); try done. set_solver.
  - rewrite Hcf2. etransitivity; [apply size_insert_le|]. by apply Hroom.
Qed.

Lemma drain_loop_spec k q s out :
  consistent q s →
  let '(out', q', s') := drain_loop k q s out in
  consistent q' s' ∧ out' = out ++ (intent <$> take k (btree_values q)) ∧
  btree_entries q' = drop k (btree_entries q).
Proof.
  revert q s out. induction k as [|k IH]; intros q s out Hc; simpl.
  { split_and!; [done| |done]. by rewrite app_nil_r. }
  destruct (btree_entries q) as [|[key e] rest] eqn:E; simpl.
  { split_and!; [done| |done]. unfold btree_values. rewrite E. simpl. by rewrite app_nil_r. }
  assert (q !! key = Some e) as Hk by (rewrite <-elem_of_btree_entries, E; by left).
  specialize (IH (delete key q) (s ∖ {[key_hash key]}) (out ++ [intent e])).
  destruct (drain_loop k _ _ _) as [[out' q'] s'].
  destruct IH as (Hc' & -> & ->); [by apply consistent_delete|].
  unfold btree_values. rewrite (btree_entries_pop _ _ _ _ E), E. csimpl.
  split_and!; [done| |done]. by rewrite <-app_assoc.
Qed.

Lemma expire_fold ks q s :
  consistent q s → NoDup ks → (∀ k, k ∈ ks → is_Some (q !! k)) →
  consistent (foldl (λ q k, delete k q) q ks) (foldl (λ s k, s ∖ {[key_hash k]}) s ks) ∧
  ∀ k, foldl (λ q k, delete k q) q ks !! k = if decide (k ∈ ks) then None else q !! k.
Proof.
  intros Hc Hnd. revert q s Hc. induction Hnd as [|k ks Hk Hnd IH]; intros q s Hc Hin; cbn [foldl].
  { split; [done|]. intros k. case_decide as Hd; [by apply elem_of_nil in Hd|done]. }
  destruct (IH (delete k q) (s ∖ {[key_hash k]})) as [H1 H2].
  - apply consistent_delete; [done|]. apply Hin. by left.
  - intros k' Hk'. rewrite lookup_delete_ne by set_solver. apply Hin. by right.
  - split; [done|]. intros k'. rewrite H2, lookup_delete. repeat case_decide; set_solver.
Qed.

Lemma expire_spec m now :
  consistent (queue m) (seen m) →
  let '(n, m') := expire m now in
  consistent (queue m') (seen m') ∧
  ∀ k e, queue m' !! k = Some e ↔ queue m !! k = Some e ∧ expired m now e = false.
Proof.
  intros Hc. unfold expire.
  set (es := filter (λ p, expired m now p.2 = true) (btree_entries (queue m))).
  assert (∀ k, k ∈ es.*1 ↔ ∃ e, queue m !! k = Some e ∧ expired m now e = true) as Hes.
  { intros k. unfold es. rewrite list_elem_of_fmap. split.
    - intros ([k' e] & -> & [He Hin]%list_elem_of_filter). rewrite elem_of_btree_entries in Hin. eauto.
    - intros (e & Hin & He). exists (k, e). by rewrite list_elem_of_filter, elem_of_btree_entries. }
  destruct (expire_fold es.*1 (queue m) (seen m) Hc) as [H1 H2].
  - eapply sublist_NoDup; [apply (NoDup_fst_btree_entries (queue m))|].
    apply sublist_fmap, sublist_filter.
  - intros k (e & ? & _)%Hes. eauto.
  - split; [done|]. intros k e. simpl. rewrite H2. case_decide as Hd.
    + apply Hes in Hd as (e' & ? & ?). naive_solver congruence.
    + split; [|by intros [? _]]. intros Hq. split; [done|].
      destruct (expired m now e) eqn:?; [|done]. destruct Hd. apply Hes. eauto.
Qed.

(** The operations of the public API. *)
Inductive op :=
| OpSubmit (i : Intent) (priority : N) (peer : option string) (now_ms : N)
| OpDrain (max : nat)
| OpExpire (now_ms : N)
| OpGc (now_ms idle_threshold_ms : N).

Definition step (m : Mempool) (o : op) : Mempool :=
  match o with
  | OpSubmit i p peer now => (submit m i p peer now).2
  | OpDrain max => (drain_for_block m max).2
  | OpExpire now => (expire m now).2
  | OpGc now idle => (gc_buckets m now idle).2
  end.

Lemma size_entries_le (q q' : gmap EntryKey Entry) :
  (∀ k, is_Some (q' !! k) → is_Some (q !! k)) → size q' ≤ size q.
Proof.
  intros Hs. rewrite <-!size_dom. apply subseteq_size. intros k.
  rewrite !elem_of_dom. apply Hs.
Qed.

Lemma pool_wf_step m o : wf m → wf (step m o).
Proof.
  intros Hm. destruct o as [i p peer now|max|now|now idle]; cbn [step];
    [by apply wf_submit| | |exact Hm].
  - destruct Hm as [Hc Hs]. unfold drain_for_block.
    pose proof (drain_loop_spec max (queue m) (seen m) [] Hc) as Hd.
    destruct (drain_loop _ _ _ _) as [[out q] s]. destruct Hd as (Hc' & _ & Hq).
    split; simpl; [done|]. rewrite <-!length_btree_entries, Hq, length_drop, length_btree_entries in *.
    lia.
  - destruct Hm as [Hc Hs]. pose proof (expire_spec m now Hc) as He.
    assert (config (expire m now).2 = config m) as Hcf by done.
    destruct (expire m now) as [n m']. destruct He as [Hc' Hq]. simpl in *. split; simpl; [done|].
    rewrite Hcf. etransitivity; [|exact Hs]. apply size_entries_le.
    intros k [e He]. apply Hq in He as [? _]. eauto.
Qed.

(** ** Properties *)


(** [submit] queues the intent under its content hash; below capacity nothing
    is lost, at capacity exactly the lowest-priority entry makes room and only
    for a strictly higher priority.  Every rejection (encoding, rate limit,
    duplicate, floor) leaves queue and duplicate set as they were. *)
Theorem submit_spec m i p peer now :
  wf m →
  match submit m i p peer now with
  | (Ok h, m') =>
      h ∉ seen m ∧ (∃ b, bincode_encode i = Ok b ∧ h = blake3 b) ∧
      ∃ q, queue m' = <[(mk_rev p, (now, h)) := mk_entry i now]> q ∧
        (size (queue m) < cfg_capacity (config m) ∧ q = queue m ∨
         cfg_capacity (config m) ≤ size (queue m) ∧
         (queue m = ∅ ∧ q = ∅ ∨
          ∃ k, is_Some (queue m !! k) ∧ q = delete k (queue m) ∧ (key_priority k < p)%N ∧
            ∀ k', is_Some (queue m !! k') → (key_priority k ≤ key_priority k')%N))
  | (Err e, m') => queue m' = queue m ∧ seen m' = seen m
  | (Panic, _) => bincode_encode i = Panic
  end.
Proof.
  intros Hm. unfold submit. destruct (bincode_encode i) as [b|e|] eqn:Eb; [|done..].
  destruct (rate_limit m peer now) as [rl m1] eqn:E1.
  apply rate_limit_frame in E1 as (Hq & Hs & Hcf & Hp).
  destruct rl as [[]| |]; [|done..]. case_bool_decide as Hd; [done|]. rewrite Hs in Hd.
  destruct (make_room_cases m1 p) as [[Hf E']|[(Hf & Hq' & [[? E']|[? E']])|
    (Hf & k & Hk & Hmin & [[? E']|[? E']])]]; rewrite E'; simpl; try done;
    rewrite Hq, Hcf in *; (split_and!; [done|eauto|]); eexists; (split; [done|]).
  - left. split; [lia|done].
  - right. split; [done|]. by left.
  - right. split; [done|]. right. exists k. split_and!; [done..|].
    intros k' Hk'. specialize (Hmin k' Hk'). destruct k as [[pk] kr], k' as [[pk'] kr'].
    unfold key_priority; simpl in *. unfold prod_le in Hmin; simpl in Hmin.
    case_decide as Hd'; [injection Hd' as ->; done|simpl in Hmin; lia].
Qed.

(** [drain_for_block] removes and returns the first [max] entries in drain
    order (priority descending, then submission time, then hash), keeps the rest
    in order, and nothing kept has a higher priority than anything drained. *)
Theorem drain_spec m max :
  wf m →
  let '(out, m') := drain_for_block m max in
  out = intent <$> (take max (btree_entries (queue m))).*2 ∧
  btree_entries (queue m') = drop max (btree_entries (queue m)) ∧
  ∀ k e k', (k, e) ∈ take max (btree_entries (queue m)) → is_Some (queue m' !! k') →
    (key_priority k' ≤ key_priority k)%N.
Proof.
  intros [Hc _]. unfold drain_for_block.
  pose proof (drain_loop_spec max (queue m) (seen m) [] Hc) as Hd.
  destruct (drain_loop _ _ _ _) as [[out q] s]. destruct Hd as (_ & -> & Hq). simpl.
  split_and!; [by unfold btree_values; rewrite <-fmap_take|done|].
  intros k e k' Hk [e' He']. apply elem_of_btree_entries in He'. rewrite Hq in He'.
  pose proof (btree_entries_sorted (queue m)) as Hs.
  rewrite <-(take_drop max (btree_entries (queue m))) in Hs.
  pose proof (StronglySorted_app_1_elem_of _ _ _ _ _ Hs Hk He') as Hle.
  unfold key_rel in Hle; simpl in Hle. destruct k as [[p] kr], k' as [[p'] kr'].
  unfold prod_le, key_priority in *; simpl in *.
  case_decide as Hd; [injection Hd as ->; lia|simpl in Hle; lia].
Qed.
End mempool.

Module MempoolExamples.
#[local] Existing Instance Toy.toy_blake3.
Definition cfg : MempoolConfig := mk_config 2 60000 100 50.
(** Intents are bytes, encoded as themselves. *)
Definition enc (i : bytes) : outcome string bytes := Ok i.
Definition put (m : Mempool) (x : byte) (p now : N) : Mempool :=
  (submit enc m [x] p (Some "peer"%string) now).2.
Definition pool : Mempool (B := LeakyBucket.LeakyBucket) :=
  put (put (new cfg) Byte.x01 5 10) Byte.x02 9 11.

Lemma pool_wf : wf enc pool.
Proof. apply wf_submit, wf_submit, pool_wf_new. Qed.

(** At capacity, priority 7 evicts the entry of priority 5. *)
Lemma submit_spec_witness :
  ∃ h, (submit enc pool [Byte.x03] 7 (Some "peer"%string) 12).1 = Ok h ∧ h ∉ seen pool ∧
    (drain_for_block (submit enc pool [Byte.x03] 7 (Some "peer"%string) 12).2 9).1 =
      [[Byte.x02]; [Byte.x03]].
Proof.
  pose proof (submit_spec enc pool [Byte.x03] 7 (Some "peer"%string) 12 pool_wf) as S.
  assert ((submit enc pool [Byte.x03] 7 (Some "peer"%string) 12).1 =
    Ok (blake3 [Byte.x03])) as E by (vm_compute; reflexivity).
  exists (blake3 [Byte.x03]). split; [exact E|]. split; [|vm_compute; reflexivity].
  destruct (submit enc pool [Byte.x03] 7 (Some "peer"%string) 12) as [r m'].
  simpl in E. subst r. destruct S as [S _]. exact S.
Defined.

Lemma drain_spec_witness : (drain_for_block pool 1).1 = [[Byte.x02]].
Proof.
  pose proof (drain_spec enc pool 1 pool_wf) as S.
  destruct (drain_for_block pool 1) as [out m']. destruct S as (E & _). simpl. rewrite E.
  vm_compute. reflexivity.
Defined.

(** The bucket of [bucket.rs]: a burst of two, then a wait of 500 ms at two
    tokens a second. *)
Lemma leaky_bucket_burst :
  let b := LeakyBucket.new 2 2 0 in
  let '(r1, b1) := LeakyBucket.take_one b 0 in
  let '(r2, b2) := LeakyBucket.take_one b1 0 in
  let '(r3, b3) := LeakyBucket.take_one b2 0 in
  let '(r4, _) := LeakyBucket.take_one b3 500 in
  (r1, r2, r3, r4) = (Ok tt, Ok tt, Err 500%N, Ok tt).
Proof. vm_compute. reflexivity. Qed.
End MempoolExamples.
