(* ===== verification/ExecTypes.v ===== *)
(** * Addresses, statuses, errors and reserved accounts of the execution layer

    [error.rs], [reserved.rs] and the status enumerations of the registry
    modules of [crates/suwappu-execution], and the format gate of
    [crates/suwappu-l2-verifier-precompile]. *)

From Stdlib Require Import Strings.String.
From stdpp Require Import pretty.
From S2P Require Import Prelude Crypto.

Abbreviation Address := bytes (only parsing).
Abbreviation Balance := N (only parsing).

(** ** Status enumerations *)

Module AuthorityStatus.
Inductive AuthorityStatus := Active | Exiting | Ejected.
#[global] Instance eq_dec : EqDecision AuthorityStatus.
Proof. solve_decision. Defined.
Definition as_byte (s : AuthorityStatus) : byte :=
  match s with Active => Byte.x00 | Exiting => Byte.x01 | Ejected => Byte.x02 end.
End AuthorityStatus.
Abbreviation AuthorityStatus := AuthorityStatus.AuthorityStatus.

Module ValidatorStatus.
Inductive ValidatorStatus := Active | Exiting | Ejected.
#[global] Instance eq_dec : EqDecision ValidatorStatus.
Proof. solve_decision. Defined.
Definition as_byte (s : ValidatorStatus) : byte :=
  match s with Active => Byte.x00 | Exiting => Byte.x01 | Ejected => Byte.x02 end.
End ValidatorStatus.
Abbreviation ValidatorStatus := ValidatorStatus.ValidatorStatus.

Module ObligationStatus.
Inductive ObligationStatus := Pending | Honored | Slashed.
#[global] Instance eq_dec : EqDecision ObligationStatus.
Proof. solve_decision. Defined.
Definition as_byte (s : ObligationStatus) : byte :=
  match s with Pending => Byte.x00 | Honored => Byte.x01 | Slashed => Byte.x02 end.
End ObligationStatus.
Abbreviation ObligationStatus := ObligationStatus.ObligationStatus.

Module AssetStatus.
Inductive AssetStatus := Active | Paused | Removed.
#[global] Instance eq_dec : EqDecision AssetStatus.
Proof. solve_decision. Defined.
Definition as_byte (s : AssetStatus) : byte :=
  match s with Active => Byte.x00 | Paused => Byte.x01 | Removed => Byte.x02 end.
End AssetStatus.
Abbreviation AssetStatus := AssetStatus.AssetStatus.

Module OffenseKind.
Inductive OffenseKind := Equivocation | InvalidBatch.
#[global] Instance eq_dec : EqDecision OffenseKind.
Proof. solve_decision. Defined.
Definition as_byte (k : OffenseKind) : byte :=
  match k with Equivocation => Byte.x00 | InvalidBatch => Byte.x01 end.
End OffenseKind.
Abbreviation OffenseKind := OffenseKind.OffenseKind.

(** ** Errors *)

Inductive ExecutionError :=
| InsufficientBalance (from : Address) (have need : Balance)
| BalanceOverflow (to : Address)
| ReservedAddressTransferDenied (addr : Address)
| ReservedAddressInCounterparties (addr : Address)
| DistributionOverflow (to : Address)
| L2VerifierRejected (reason : string)
| CorruptStateRecord (addr : Address) (reason : string)
| ForceIncludeAlreadyRegistered (obligation_id : bytes)
| ForceIncludeNotFound (obligation_id : bytes)
| ForceIncludeNotPending (obligation_id : bytes) (status : ObligationStatus)
| L2VkPinMismatch (expected got : bytes)
| SetL2VkAllZeros
| BridgeAssetAlreadyRegistered (asset_id : bytes)
| BridgeAssetNotFound (asset_id : bytes)
| BridgeAssetFieldTooLong (field : string) (got max : nat)
| ForceIncludeNotSlashed (obligation_id : bytes) (status : ObligationStatus)
| SequencerEjectionAlreadyRecorded (obligation_id : bytes)
| BridgeAssetNotActive (asset_id : bytes) (status : AssetStatus)
| L2BatchNotCommitted (l2_chain_id_hash : bytes) (batch_id : N)
| L2BurnAlreadyClaimed (burn_id : bytes)
| EquivocationAlreadyRecorded (proof_hash : bytes) (kind : OffenseKind)
| AuthoritySlotAlreadyOccupied (authority_id : N)
| AuthorityNotFound (authority_id : N)
| AuthorityNotActive (authority_id : N) (status : AuthorityStatus)
| AuthorityFieldTooLong (field : string) (got max : nat)
| ValidatorSlotAlreadyOccupied (validator_id : N)
| ValidatorNotFound (validator_id : N)
| ValidatorNotActive (validator_id : N) (status : ValidatorStatus)
| ValidatorFieldTooLong (field : string) (got max : nat)
| DepositedStakeOverflow (ring : string) (slot_id : N)
| SlotNotExiting (ring : string) (slot_id : N) (status : string)
| WithdrawalExceedsDeposit (ring : string) (slot_id : N) (want have : Balance)
| ExitCooldownNotElapsed (ring : string) (slot_id required_block_height current_block_height : N)
| GenesisAfterBootstrap (current_block_height : N)
| InflationEpochAlreadyMinted (attempted_epoch last_minted_epoch : N)
| RewardsEpochAlreadyDistributed (ring : string) (attempted_epoch last_distributed_epoch : N).

#[global] Instance ExecutionError_eq_dec : EqDecision ExecutionError.
Proof. solve_decision. Defined.

(** ** Reserved accounts *)

Module reserved.
Definition L2_REGISTRY_DOMAIN : bytes := tag "suwappu-l2-registry-v1".
Definition INSURANCE_POOL_DOMAIN : bytes := tag "suwappu-insurance-pool-v1".
Definition TREASURY_DOMAIN : bytes := tag "suwappu-treasury-v1".
Definition BRIDGE_ESCROW_DOMAIN : bytes := tag "suwappu-bridge-escrow-v1".
Definition FORCE_INCLUDE_REGISTRY_DOMAIN : bytes := tag "suwappu-force-include-registry-v1".
Definition SEQUENCER_BOND_DOMAIN : bytes := tag "suwappu-sequencer-bond-v1".
Definition SAFETY_BOND_DOMAIN : bytes := tag "suwappu-safety-bond-v1".
Definition ASSET_REGISTRY_DOMAIN : bytes := tag "suwappu-asset-registry-v1".
Definition EJECTION_REGISTRY_DOMAIN : bytes := tag "suwappu-ejection-registry-v1".
Definition BURN_NULLIFIER_REGISTRY_DOMAIN : bytes := tag "suwappu-burn-nullifier-registry-v1".
Definition EQUIVOCATION_REGISTRY_DOMAIN : bytes := tag "suwappu-equivocation-registry-v1".
Definition AUTHORITY_REGISTRY_DOMAIN : bytes := tag "suwappu-authority-registry-v1".
Definition VALIDATOR_REGISTRY_DOMAIN : bytes := tag "suwappu-validator-registry-v1".
Definition AUTHORITY_STAKE_POOL_DOMAIN : bytes := tag "suwappu-authority-stake-pool-v1".
Definition VALIDATOR_STAKE_POOL_DOMAIN : bytes := tag "suwappu-validator-stake-pool-v1".
Definition AUTHORITY_REWARDS_POOL_DOMAIN : bytes := tag "suwappu-authority-rewards-pool-v1".
Definition VALIDATOR_REWARDS_POOL_DOMAIN : bytes := tag "suwappu-validator-rewards-pool-v1".
Definition INFLATION_REGISTRY_DOMAIN : bytes := tag "suwappu-inflation-registry-v1".
Definition REWARDS_DISTRIBUTION_REGISTRY_DOMAIN : bytes :=
  tag "suwappu-rewards-distribution-registry-v1".
Definition VALIDATOR_DELEGATION_REGISTRY_DOMAIN : bytes :=
  tag "suwappu-validator-delegation-registry-v1".

Section reserved.
Context `{Blake3}.

Definition derive (domain : bytes) : Address := take 20 (blake3 domain).

Definition l2_registry_address : Address := derive L2_REGISTRY_DOMAIN.
Definition insurance_pool_address : Address := derive INSURANCE_POOL_DOMAIN.
Definition treasury_address : Address := derive TREASURY_DOMAIN.
Definition bridge_escrow_address : Address := derive BRIDGE_ESCROW_DOMAIN.
Definition force_include_registry_address : Address := derive FORCE_INCLUDE_REGISTRY_DOMAIN.
Definition sequencer_bond_address : Address := derive SEQUENCER_BOND_DOMAIN.
Definition safety_bond_address : Address := derive SAFETY_BOND_DOMAIN.
Definition asset_registry_address : Address := derive ASSET_REGISTRY_DOMAIN.
Definition ejection_registry_address : Address := derive EJECTION_REGISTRY_DOMAIN.
Definition burn_nullifier_registry_address : Address := derive BURN_NULLIFIER_REGISTRY_DOMAIN.
Definition equivocation_registry_address : Address := derive EQUIVOCATION_REGISTRY_DOMAIN.
Definition authority_registry_address : Address := derive AUTHORITY_REGISTRY_DOMAIN.
Definition validator_registry_address : Address := derive VALIDATOR_REGISTRY_DOMAIN.
Definition authority_stake_pool_address : Address := derive AUTHORITY_STAKE_POOL_DOMAIN.
Definition validator_stake_pool_address : Address := derive VALIDATOR_STAKE_POOL_DOMAIN.
Definition authority_rewards_pool_address : Address := derive AUTHORITY_REWARDS_POOL_DOMAIN.
Definition validator_rewards_pool_address : Address := derive VALIDATOR_REWARDS_POOL_DOMAIN.
Definition inflation_registry_address : Address := derive INFLATION_REGISTRY_DOMAIN.
Definition rewards_distribution_registry_address : Address :=
  derive REWARDS_DISTRIBUTION_REGISTRY_DOMAIN.
Definition validator_delegation_registry_address : Address :=
  derive VALIDATOR_DELEGATION_REGISTRY_DOMAIN.

(** The accounts [is_reserved] compares against, in its order. *)
Definition all : list Address := [
  l2_registry_address; insurance_pool_address; treasury_address; bridge_escrow_address;
  force_include_registry_address; sequencer_bond_address; safety_bond_address;
  asset_registry_address; ejection_registry_address; burn_nullifier_registry_address;
  equivocation_registry_address; authority_registry_address; validator_registry_address;
  authority_stake_pool_address; validator_stake_pool_address; authority_rewards_pool_address;
  validator_rewards_pool_address; inflation_registry_address;
  rewards_distribution_registry_address; validator_delegation_registry_address].

Definition is_reserved (addr : Address) : bool := existsb (λ a, bool_decide (addr = a)) all.

Lemma is_reserved_spec addr : is_reserved addr = true ↔ addr ∈ all.
Proof.
  unfold is_reserved. rewrite existsb_exists. setoid_rewrite bool_decide_eq_true.
  setoid_rewrite <-list_elem_of_In. naive_solver.
Qed.
End reserved.
End reserved.

(** The derived accounts are pairwise distinct: what BLAKE3 provides on the
    twenty fixed domain tags, and what the tests of [reserved.rs] assert. *)
Class ReservedDistinct `{Blake3} : Prop := reserved_distinct : NoDup reserved.all.

(** ** The L2 batch verifier's format gate *)

Module l2_verifier.
Definition SP1_GROTH16_BN254_PROOF_BYTES : nat := 260.
Definition L2_PUBLIC_INPUTS_BYTES : nat := 240.
Definition DA_COMMITMENT_OFFSET : nat := 72.
Definition L1_ANCHOR_HEIGHT_OFFSET : nat := 104.
Definition L2_CHAIN_ID_HASH_OFFSET : nat := 176.

Inductive VerifyError :=
| BadProofLength (expected got : nat)
| BadPublicInputsLength (expected got : nat)
| UnpinnedVerifyingKey
| Groth16Failed.

(** The [Display] of an error. *)
Definition to_string (e : VerifyError) : string :=
  match e with
  | BadProofLength x y =>
      "proof byte length mismatch: expected " +:+ pretty x +:+ ", got " +:+ pretty y
  | BadPublicInputsLength x y =>
      "public inputs byte length mismatch: expected " +:+ pretty x +:+ ", got " +:+ pretty y
  | UnpinnedVerifyingKey => "vk_hash is all-zeros (no VK pinned in chain state)"
  | Groth16Failed => "groth16 bn254 verification failed"
  end.

Definition zeros (n : nat) : bytes := replicate n Byte.x00.

Definition verify_l2_batch (proof public_inputs vk_hash : bytes) : outcome VerifyError unit :=
  if bool_decide (length proof ≠ SP1_GROTH16_BN254_PROOF_BYTES)
  then Err (BadProofLength SP1_GROTH16_BN254_PROOF_BYTES (length proof))
  else if bool_decide (length public_inputs ≠ L2_PUBLIC_INPUTS_BYTES)
  then Err (BadPublicInputsLength L2_PUBLIC_INPUTS_BYTES (length public_inputs))
  else if bool_decide (vk_hash = zeros 32) then Err UnpinnedVerifyingKey
  else Ok tt.
End l2_verifier.
