(* ===== verification/Codec.v ===== *)
(** * Byte-cursor decoding

    The registries of the execution layer decode their records with a cursor
    into a byte slice.  A [parser] consumes the bytes after the cursor; reading
    past the end is the [Panic] of an out-of-range slice.  The file gives the
    combinators, the rules that show a decoder never panics, and the round-trip
    lemma for tables of entries, and states as the class [StateCodec] what a
    state record promises the substrate. *)

From S2P Require Import Prelude Crypto ExecTypes.

Definition parser (A : Type) : Type := bytes → outcome ExecutionError (A * bytes).

#[global] Instance parser_ret : MRet parser := λ A a s, Ok (a, s).
#[global] Instance parser_bind : MBind parser := λ A B f p s,
  match p s with
  | Ok (a, s') => f a s'
  | Err e => Err e
  | Panic => Panic
  end.

(** [bytes[cursor..cursor + n]], advancing the cursor. *)
Definition slice (n : nat) : parser bytes := λ s,
  if bool_decide (n ≤ length s) then Ok (take n s, drop n s) else Panic.

(** [bytes[cursor]], advancing the cursor by one. *)
Definition read_byte : parser byte := λ s,
  match s with [] => Panic | b :: s' => Ok (b, s') end.

(** [uN::from_be_bytes] of the next [n] bytes. *)
Definition read_be (n : nat) : parser N := b ← slice n; mret (be_value b).

Definition fail {A} (e : ExecutionError) : parser A := λ _, Err e.
Definition lift {A} (o : outcome ExecutionError A) : parser A := λ s,
  match o with Ok a => Ok (a, s) | Err e => Err e | Panic => Panic end.

(** [if cursor + n > bytes.len() { return Err(e) }]. *)
Definition require (n : nat) (e : ExecutionError) : parser unit := λ s,
  if bool_decide (length s < n) then Err e else Ok (tt, s).
(** [if bytes.len() != cursor + n { return Err(e) }]. *)
Definition require_exact (n : nat) (e : ExecutionError) : parser unit := λ s,
  if bool_decide (length s ≠ n) then Err e else Ok (tt, s).
(** [if p { return Err(e) }]. *)
Definition reject (p : bool) (e : ExecutionError) : parser unit :=
  if p then fail e else mret tt.

(** [for _ in 0..count], inserting entries; a duplicate key is an error when
    [dup] says so and an overwrite otherwise. *)
Fixpoint read_entries {K V} `{Countable K} (entry : parser (K * V)) (dup : option ExecutionError)
    (count : nat) (m : gmap K V) : parser (gmap K V) :=
  match count with
  | O => mret m
  | S c =>
      e ← entry;
      match m !! e.1, dup with
      | Some _, Some err => fail err
      | _, _ => read_entries entry dup c (<[e.1 := e.2]> m)
      end
  end.

(** The parsed value, once the whole record is consumed. *)
Definition parsed {A} (o : outcome ExecutionError (A * bytes)) : outcome ExecutionError A :=
  match o with Ok (a, _) => Ok a | Err e => Err e | Panic => Panic end.

(** ** Reading what was written *)

(** [p] recognises [b] as [a], whatever follows. *)
Definition recognises {A} (p : parser A) (b : bytes) (a : A) : Prop :=
  ∀ rest, p (b ++ rest) = Ok (a, rest).

Lemma bind_recognises {A B} (p : parser A) (f : A → parser B) b1 b2 a c :
  recognises p b1 a → recognises (f a) b2 c → recognises (p ≫= f) (b1 ++ b2) c.
Proof.
  intros Hp Hf rest. rewrite <-app_assoc. unfold mbind, parser_bind. by rewrite Hp.
Qed.

Lemma bind_recognises_nil {A B} (p : parser A) (f : A → parser B) b a c :
  (∀ rest, p (b ++ rest) = Ok (a, b ++ rest)) → recognises (f a) b c → recognises (p ≫= f) b c.
Proof. intros Hp Hf rest. unfold mbind, parser_bind. by rewrite Hp. Qed.

Lemma ret_recognises {A} (a : A) : recognises (mret a) [] a.
Proof. by intros rest. Qed.

Lemma slice_recognises n b : length b = n → recognises (slice n) b b.
Proof.
  intros <- rest. unfold slice. rewrite bool_decide_true by (rewrite length_app; lia).
  by rewrite take_app_length, drop_app_length.
Qed.

Lemma read_be_recognises n x : (x < 256 ^ N.of_nat n)%N → recognises (read_be n) (be_bytes n x) x.
Proof.
  intros Hx rest. unfold read_be, mbind, parser_bind.
  rewrite slice_recognises by apply length_be_bytes. unfold mret, parser_ret.
  by rewrite be_value_be_bytes.
Qed.

Lemma read_byte_recognises b : recognises read_byte [b] b.
Proof. by intros rest. Qed.

Lemma lift_recognises {A} (a : A) : recognises (lift (Ok a)) [] a.
Proof. by intros rest. Qed.

Lemma bind_recognises_lift {A B} (o : outcome ExecutionError A) a (f : A → parser B) b c :
  o = Ok a → recognises (f a) b c → recognises (lift o ≫= f) b c.
Proof. by intros ->. Qed.

Lemma bind_recognises_end {A B} (p : parser A) (f : A → parser B) b a c :
  recognises p b a → (∀ s, f a s = Ok (c, s)) → recognises (p ≫= f) b c.
Proof. intros Hp Hf rest. unfold mbind, parser_bind. by rewrite Hp. Qed.

Lemma require_pass n e b rest : n ≤ length b → require n e (b ++ rest) = Ok (tt, b ++ rest).
Proof. intros Hn. unfold require. rewrite bool_decide_false; [done|]. rewrite length_app. lia. Qed.

Lemma reject_pass e b rest : reject false e (b ++ rest) = Ok (tt, b ++ rest).
Proof. done. Qed.

(** [p] reads all of [b] as [a]. *)
Definition accepts {A} (p : parser A) (b : bytes) (a : A) : Prop := p b = Ok (a, []).

Lemma accepts_parsed {A} (p : parser A) b a : accepts p b a → parsed (p b) = Ok a.
Proof. unfold accepts, parsed. by intros ->. Qed.

Lemma bind_accepts {A B} (p : parser A) (f : A → parser B) b1 b2 a c :
  recognises p b1 a → accepts (f a) b2 c → accepts (p ≫= f) (b1 ++ b2) c.
Proof. intros Hp Hf. unfold accepts, mbind, parser_bind in *. by rewrite Hp. Qed.

Lemma bind_accepts_require {B} n e (f : unit → parser B) b c :
  n ≤ length b → accepts (f tt) b c → accepts (require n e ≫= f) b c.
Proof.
  intros Hn Hf. unfold accepts, mbind, parser_bind, require in *.
  by rewrite bool_decide_false by lia.
Qed.

Lemma bind_accepts_exact {B} n e (f : unit → parser B) b c :
  n = length b → accepts (f tt) b c → accepts (require_exact n e ≫= f) b c.
Proof.
  intros Hn Hf. unfold accepts, mbind, parser_bind, require_exact in *.
  by rewrite bool_decide_false by lia.
Qed.

Lemma bind_accepts_lift {A B} (o : outcome ExecutionError A) a (f : A → parser B) b c :
  o = Ok a → accepts (f a) b c → accepts (lift o ≫= f) b c.
Proof. by intros ->. Qed.

Lemma bind_accepts_reject {B} p e (f : unit → parser B) b c :
  p = false → accepts (f tt) b c → accepts (reject p e ≫= f) b c.
Proof. by intros ->. Qed.

Lemma ret_accepts {A} (a : A) : accepts (mret a) [] a.
Proof. done. Qed.

Section entries.
Context {K V : Type} `{Countable K} (entry : parser (K * V)) (enc : K → V → bytes).
Context (ok : K → V → Prop).
Hypothesis entry_recognises : ∀ k v, ok k v → recognises entry (enc k v) (k, v).

(** A table of entries, one after another, reads back as the map. *)
Lemma read_entries_recognises dup (es : list (K * V)) (m : gmap K V) :
  Forall (λ e, ok e.1 e.2) es → NoDup es.*1 → (∀ k, k ∈ es.*1 → m !! k = None) →
  recognises (read_entries entry dup (length es) m) (mjoin ((λ e, enc e.1 e.2) <$> es))
    (list_to_map es ∪ m).
Proof.
  revert m. induction es as [|[k v] es IH]; intros m Hok Hnd Hm; simpl.
  { rewrite (left_id_L ∅ (∪)). apply ret_recognises. }
  apply Forall_cons in Hok as [Hkv Hok]. apply NoDup_cons in Hnd as [Hk Hnd]. simpl in *.
  eapply bind_recognises; [by apply entry_recognises|]. simpl.
  rewrite Hm by (by left).
  replace (<[k:=v]> (list_to_map es) ∪ m) with ((list_to_map es : gmap K V) ∪ <[k:=v]> m).
  - apply IH; [done..|]. intros k' Hk'. rewrite lookup_insert_ne by (by intros ->).
    apply Hm. by right.
  - rewrite <-insert_union_r, insert_union_l; [done|]. by apply not_elem_of_list_to_map_1.
Qed.

Lemma read_table_recognises `{!KeyOrder K} dup (m : gmap K V) :
  map_Forall ok m →
  recognises (read_entries entry dup (length (btree_entries m)) ∅)
    (mjoin ((λ e, enc e.1 e.2) <$> btree_entries m)) m.
Proof.
  intros Hok. rewrite <-(list_to_map_btree_entries m) at 3.
  rewrite <-(right_id_L ∅ (∪) (list_to_map (btree_entries m))).
  apply read_entries_recognises.
  - apply Forall_forall. intros [k v] Hin%elem_of_btree_entries. by apply Hok.
  - apply NoDup_fst_btree_entries.
  - intros k _. apply lookup_empty.
Qed.
End entries.

(** ** Decoders never panic *)

(** [p] reads exactly [n] bytes when that many are left. *)
Definition reads {A} (n : nat) (p : parser A) : Prop :=
  ∀ s, n ≤ length s →
    match p s with Ok (_, s') => s' = drop n s | Err _ => True | Panic => False end.

(** [p] does not panic when at least [n] bytes are left. *)
Definition safe {A} (n : nat) (p : parser A) : Prop := ∀ s, n ≤ length s → p s ≠ Panic.

Lemma reads_safe {A} n (p : parser A) : reads n p → safe n p.
Proof. intros Hp s Hs E. specialize (Hp s Hs). by rewrite E in Hp. Qed.

Lemma safe_weaken {A} n m (p : parser A) : safe n p → n ≤ m → safe m p.
Proof. intros Hp Hnm s Hs. apply Hp. lia. Qed.

Lemma reads_bind {A B} n a (p : parser A) (f : A → parser B) :
  reads a p → a ≤ n → (∀ x, reads (n - a) (f x)) → reads n (p ≫= f).
Proof.
  intros Hp Ha Hf s Hs. unfold mbind, parser_bind. specialize (Hp s ltac:(lia)).
  destruct (p s) as [[x s']| |]; [|done..]. subst s'.
  specialize (Hf x (drop a s)). rewrite length_drop in Hf. specialize (Hf ltac:(lia)).
  destruct (f x (drop a s)) as [[y s'']| |]; [|done..]. subst s''.
  rewrite drop_drop. f_equal. lia.
Qed.

Lemma safe_bind {A B} n a (p : parser A) (f : A → parser B) :
  reads a p → a ≤ n → (∀ x, safe (n - a) (f x)) → safe n (p ≫= f).
Proof.
  intros Hp Ha Hf s Hs. unfold mbind, parser_bind. specialize (Hp s ltac:(lia)).
  destruct (p s) as [[x s']| |]; [|done..]. subst s'. apply Hf. rewrite length_drop. lia.
Qed.

Lemma safe_bind_any {A B} n (p : parser A) (f : A → parser B) :
  safe n p → (∀ x, safe 0 (f x)) → safe n (p ≫= f).
Proof.
  intros Hp Hf s Hs. unfold mbind, parser_bind. specialize (Hp s Hs).
  destruct (p s) as [[x s']| |]; [|done..]. apply Hf. lia.
Qed.

Lemma safe_bind_lift {A B} n (o : outcome ExecutionError A) (f : A → parser B) :
  o ≠ Panic → (∀ a, o = Ok a → safe n (f a)) → safe n (lift o ≫= f).
Proof.
  intros Ho Hf s Hs. unfold mbind, parser_bind, lift. destruct o; [|done..]. by apply Hf.
Qed.

Lemma require_safe {B} n m e (f : unit → parser B) :
  safe (Nat.max n m) (f tt) → safe n (require m e ≫= f).
Proof.
  intros Hf s Hs. unfold mbind, parser_bind, require. case_bool_decide; [done|]. apply Hf. lia.
Qed.

Lemma require_exact_safe {B} n m e (f : unit → parser B) :
  (n ≤ m → safe m (f tt)) → safe n (require_exact m e ≫= f).
Proof.
  intros Hf s Hs. unfold mbind, parser_bind, require_exact. case_bool_decide; [done|].
  apply Hf; lia.
Qed.

Lemma reads_ret {A} (a : A) : reads 0 (mret a).
Proof. intros s _. simpl. by rewrite drop_0. Qed.
Lemma reads_fail {A} n e : reads n (fail (A := A) e).
Proof. by intros s _. Qed.
Lemma reads_lift {A} (o : outcome ExecutionError A) : o ≠ Panic → reads 0 (lift o).
Proof. intros Ho s _. destruct o; simpl; by rewrite ?drop_0. Qed.
Lemma reads_slice n : reads n (slice n).
Proof. intros s Hs. unfold slice. by rewrite bool_decide_true. Qed.
Lemma reads_be n : reads n (read_be n).
Proof.
  apply (reads_bind n n); [apply reads_slice|lia|]. intros x. rewrite Nat.sub_diag. apply reads_ret.
Qed.
Lemma reads_byte : reads 1 read_byte.
Proof. intros [|b s] Hs; simpl in *; [lia|done]. Qed.
Lemma reads_reject p e : reads 0 (reject p e).
Proof. unfold reject. destruct p; [apply reads_fail|apply reads_ret]. Qed.

Lemma safe_ret {A} n (a : A) : safe n (mret a).
Proof. by intros s _. Qed.
Lemma safe_fail {A} n e : safe n (fail (A := A) e).
Proof. by intros s _. Qed.

Lemma reads_entries {K V} `{Countable K} (entry : parser (K * V)) dup n count m :
  reads n entry → reads (count * n) (read_entries entry dup count m).
Proof.
  intros He. revert m. induction count as [|c IH]; intros m; [apply reads_ret|].
  apply (reads_bind _ n); [done|simpl; lia|]. intros [k v]. simpl.
  replace (n + c * n - n) with (c * n) by lia.
  destruct (m !! k), dup; auto using reads_fail.
Qed.

Lemma safe_entries {K V} `{Countable K} (entry : parser (K * V)) dup count m :
  safe 0 entry → safe 0 (read_entries entry dup count m).
Proof.
  intros He. revert m. induction count as [|c IH]; intros m; [apply safe_ret|].
  apply safe_bind_any; [done|]. intros [k v]. simpl.
  destruct (m !! k), dup; auto using safe_fail.
Qed.

(** ** State records *)

(** What a registry module promises the substrate about its record. *)
Class StateCodec (A : Type) := {
  codec_default : A;
  codec_encode : A → bytes;
  codec_decode : bytes → outcome ExecutionError A;
  codec_wf : A → Prop;
  codec_roundtrip : ∀ a, codec_wf a → codec_decode (codec_encode a) = Ok a;
  codec_total : ∀ b, codec_decode b ≠ Panic;
  codec_empty : codec_decode [] = Ok codec_default;
  codec_encode_nonempty : ∀ a, codec_encode a ≠ [];
}.
#[global] Hint Mode StateCodec ! : typeclass_instances.
