(* ===== verification/Registries.v ===== *)
(** * State-record registries of the execution layer

    One module per registry file of [crates/suwappu-execution/src]: the record
    types, the canonical encoding and the validating decoder, with an instance
    of [StateCodec] (round trip, no panic) for each. *)

From Stdlib Require Import Strings.String.
From S2P Require Import Prelude Crypto ExecTypes Codec.

Definition corrupt (addr : Address) (reason : string) : ExecutionError :=
  CorruptStateRecord addr reason.

(** [len > max || cursor + len > bytes.len()] guards a variable-length field. *)
Definition require_field (max len : N) (e : ExecutionError) : parser unit := λ s,
  if bool_decide (max < len ∨ N.of_nat (length s) < len)%N then Err e else Ok (tt, s).

Lemma require_field_pass max len e b rest :
  (len ≤ max)%N → (len ≤ N.of_nat (length b))%N →
  require_field max len e (b ++ rest) = Ok (tt, b ++ rest).
Proof.
  intros Hm Hb. unfold require_field. rewrite bool_decide_false; [done|].
  rewrite length_app. lia.
Qed.

Lemma require_field_safe {B} n max len e (f : unit → parser B) :
  safe (Nat.max n (N.to_nat len)) (f tt) → safe n (require_field max len e ≫= f).
Proof.
  intros Hf s Hs. unfold mbind, parser_bind, require_field. case_bool_decide; [done|].
  apply Hf. lia.
Qed.

Lemma parsed_safe {A} (p : parser A) b : safe 0 p → parsed (p b) ≠ Panic.
Proof. intros Hp. specialize (Hp b ltac:(lia)). by destruct (p b) as [[]| |]. Qed.

(** Discharge [safe] goals along a chain of reads. *)
Ltac safe_steps :=
  repeat first
    [ apply safe_ret | apply safe_fail
    | apply require_safe | apply require_field_safe
    | eapply safe_bind;
      [first [apply reads_be | apply reads_byte | apply reads_slice | apply reads_ret
             | apply reads_reject | apply reads_lift; by auto]
      |lia|intros ?] ].

(** ** The ring registries: [authority_registry.rs], [validator_registry.rs] *)

Record RingRecord (S : Type) := mk_ring {
  mldsa_public_key : bytes;
  bls_public_key : bytes;
  stake_suwappu : N;
  deposited_stake : N;
  exit_block_height : N;
  status : S;
}.
Arguments mk_ring {S}.
Arguments mldsa_public_key {S}.
Arguments bls_public_key {S}.
Arguments stake_suwappu {S}.
Arguments deposited_stake {S}.
Arguments exit_block_height {S}.
Arguments status {S}.

Definition MAX_MLDSA_PK_BYTES : N := 2048.
Definition MAX_BLS_PK_BYTES : N := 128.
Definition ENCODED_HEADER_BYTES : nat := 8.
Definition ENTRY_FIXED_BYTES_V1 : nat := 4 + 8 + 1 + 4 + 4.
Definition ENTRY_FIXED_BYTES_V2 : nat := ENTRY_FIXED_BYTES_V1 + 8.
Definition ENTRY_FIXED_BYTES : nat := ENTRY_FIXED_BYTES_V2 + 8.

(** The two files differ in the status type, the account and the wording. *)
Section ring.
Context {S : Type} (as_byte : S → byte) (from_byte : byte → outcome ExecutionError S).
Context (addr : Address) (ring : string).

Definition ring_error (reason : string) : ExecutionError := corrupt addr (ring +:+ reason).

Definition ring_encode_entry (id : N) (rec : RingRecord S) : bytes :=
  be_bytes 4 id ++ be_bytes 8 (stake_suwappu rec) ++ be_bytes 8 (deposited_stake rec)
  ++ be_bytes 8 (exit_block_height rec) ++ [as_byte (status rec)]
  ++ be_bytes 4 (wrap 32 (N.of_nat (length (mldsa_public_key rec)))) ++ mldsa_public_key rec
  ++ be_bytes 4 (wrap 32 (N.of_nat (length (bls_public_key rec)))) ++ bls_public_key rec.

Definition ring_encode (m : gmap N (RingRecord S)) : bytes :=
  be_bytes 4 3 ++ be_bytes 4 (wrap 32 (N.of_nat (size m)))
  ++ mjoin ((λ e, ring_encode_entry e.1 e.2) <$> btree_entries m).

Definition ring_entry (has_deposited has_exit_height : bool) (entry_fixed_bytes : nat)
    : parser (N * RingRecord S) :=
  _ ← require entry_fixed_bytes (ring_error " registry entry truncated");
  id ← read_be 4;
  stake ← read_be 8;
  deposited ← (if has_deposited then read_be 8 else mret 0%N);
  exit_height ← (if has_exit_height then read_be 8 else mret 0%N);
  b ← read_byte;
  st ← lift (from_byte b);
  mldsa_len ← read_be 4;
  _ ← require_field MAX_MLDSA_PK_BYTES mldsa_len (ring_error " mldsa_pk length invalid");
  mldsa ← slice (N.to_nat mldsa_len);
  _ ← require 4 (ring_error " bls_pk length missing");
  bls_len ← read_be 4;
  _ ← require_field MAX_BLS_PK_BYTES bls_len (ring_error " bls_pk length invalid");
  bls ← slice (N.to_nat bls_len);
  mret (id, mk_ring mldsa bls stake deposited exit_height st).

(** Which optional fields a version carries. *)
Definition ring_layout (version : N) : outcome ExecutionError (bool * bool * nat) :=
  if bool_decide (version = 3)%N then Ok (true, true, ENTRY_FIXED_BYTES)
  else if bool_decide (version = 2)%N then Ok (true, false, ENTRY_FIXED_BYTES_V2)
  else if bool_decide (version = 1)%N then Ok (false, false, ENTRY_FIXED_BYTES_V1)
  else Err (ring_error " registry version mismatch").

Definition ring_decode (b : bytes) : outcome ExecutionError (gmap N (RingRecord S)) :=
  if bool_decide (b = []) then Ok ∅
  else parsed ((
    _ ← require ENCODED_HEADER_BYTES (ring_error " registry header missing");
    version ← read_be 4;
    layout ← lift (ring_layout version);
    count ← read_be 4;
    m ← read_entries (ring_entry layout.1.1 layout.1.2 layout.2)
          (Some (ring_error (" registry has duplicate " +:+ ring +:+ "_id")))
          (N.to_nat count) ∅;
    _ ← require_exact 0 (ring_error " registry trailing bytes");
    mret m) b).

(** The widths of the field types, and the key-length limits admission enforces. *)
Definition ring_record_ok (id : N) (rec : RingRecord S) : Prop :=
  (id < width 32)%N ∧ (stake_suwappu rec < width 64)%N ∧ (deposited_stake rec < width 64)%N ∧
  (exit_block_height rec < width 64)%N ∧
  (N.of_nat (length (mldsa_public_key rec)) ≤ MAX_MLDSA_PK_BYTES)%N ∧
  (N.of_nat (length (bls_public_key rec)) ≤ MAX_BLS_PK_BYTES)%N.

Definition ring_ok (m : gmap N (RingRecord S)) : Prop :=
  (N.of_nat (size m) < width 32)%N ∧ map_Forall ring_record_ok m.

Hypothesis from_as : ∀ s, from_byte (as_byte s) = Ok s.
Hypothesis from_total : ∀ b, from_byte b ≠ Panic.

Lemma ring_entry_recognises id rec :
  ring_record_ok id rec →
  recognises (ring_entry true true ENTRY_FIXED_BYTES) (ring_encode_entry id rec) (id, rec).
Proof.
  destruct rec as [mk bk st dep ex s]. unfold ring_record_ok, ring_encode_entry.
  cbn [mldsa_public_key bls_public_key stake_suwappu deposited_stake exit_block_height status].
  unfold MAX_MLDSA_PK_BYTES, MAX_BLS_PK_BYTES. rewrite width_32, width_64.
  intros (Hid & Hst & Hdep & Hex & Hm & Hb).
  rewrite !wrap_small by (rewrite width_32; lia). unfold ring_entry.
  eapply bind_recognises_nil.
  { intros rest. apply require_pass. rewrite !length_app, !length_be_bytes.
    unfold ENTRY_FIXED_BYTES, ENTRY_FIXED_BYTES_V2, ENTRY_FIXED_BYTES_V1.
    cbn [length]. lia. }
  do 5 (eapply bind_recognises; [first [by apply read_be_recognises | apply read_byte_recognises]|]).
  eapply bind_recognises_lift; [apply from_as|].
  eapply bind_recognises; [apply read_be_recognises; lia|].
  eapply bind_recognises_nil.
  { intros rest. apply require_field_pass; [unfold MAX_MLDSA_PK_BYTES; lia|].
    rewrite length_app. lia. }
  eapply bind_recognises; [apply slice_recognises; lia|].
  eapply bind_recognises_nil.
  { intros rest. apply require_pass. rewrite length_app, length_be_bytes. lia. }
  eapply bind_recognises; [apply read_be_recognises; lia|].
  eapply bind_recognises_nil.
  { intros rest. apply require_field_pass; [unfold MAX_BLS_PK_BYTES; lia|lia]. }
  eapply bind_recognises_end; [apply slice_recognises; lia|done].
Qed.

Lemma ring_roundtrip m : ring_ok m → ring_decode (ring_encode m) = Ok m.
Proof.
  intros [Hs Hok]. unfold ring_decode, ring_encode.
  rewrite bool_decide_false by (by apply be_bytes_app_nonempty). rewrite wrap_small by done.
  rewrite <-length_btree_entries. rewrite width_32, <-length_btree_entries in Hs.
  apply accepts_parsed, bind_accepts_require.
  { rewrite !length_app, !length_be_bytes. unfold ENCODED_HEADER_BYTES. lia. }
  eapply bind_accepts; [apply read_be_recognises; lia|].
  eapply bind_accepts_lift; [done|].
  eapply bind_accepts; [apply read_be_recognises; lia|]. simpl.
  rewrite <-(app_nil_r (mjoin _)), Nat2N.id. eapply bind_accepts.
  { by apply (read_table_recognises _ _ ring_record_ok ring_entry_recognises). }
  by apply bind_accepts_exact.
Qed.

Lemma ring_entry_safe (hd he : bool) n :
  n = 21 + (if hd then 8 else 0) + (if he then 8 else 0) → safe 0 (ring_entry hd he n).
Proof. intros ->. unfold ring_entry. destruct hd, he; simpl Nat.add; safe_steps. Qed.

Lemma ring_total b : ring_decode b ≠ Panic.
Proof.
  unfold ring_decode. case_bool_decide; [done|]. apply parsed_safe. unfold ENCODED_HEADER_BYTES.
  apply require_safe. eapply safe_bind; [apply reads_be|lia|]. intros version.
  apply safe_bind_lift; [unfold ring_layout; by repeat case_bool_decide|].
  intros [[hd he] n] El. simpl. eapply safe_bind; [apply reads_be|lia|]. intros count.
  apply safe_bind_any.
  - eapply safe_weaken; [apply safe_entries, ring_entry_safe|lia].
    unfold ring_layout, ENTRY_FIXED_BYTES, ENTRY_FIXED_BYTES_V2, ENTRY_FIXED_BYTES_V1 in El.
    repeat case_bool_decide; by simplify_eq.
  - intros m. apply require_exact_safe. intros _. apply safe_ret.
Qed.

#[program] Definition ring_codec : StateCodec (gmap N (RingRecord S)) := {|
  codec_default := ∅;
  codec_encode := ring_encode;
  codec_decode := ring_decode;
  codec_wf := ring_ok;
  codec_roundtrip := ring_roundtrip;
  codec_total := ring_total;
|}.
Next Obligation. done. Qed.
Next Obligation. intros m. by apply be_bytes_app_nonempty. Qed.
End ring.

Module AuthorityRegistry.
Abbreviation AuthorityRecord := (RingRecord AuthorityStatus).
Section AuthorityRegistry.
Context `{Blake3}.

Definition from_byte (b : byte) : outcome ExecutionError AuthorityStatus :=
  match b with
  | Byte.x00 => Ok AuthorityStatus.Active
  | Byte.x01 => Ok AuthorityStatus.Exiting
  | Byte.x02 => Ok AuthorityStatus.Ejected
  | _ => Err (corrupt reserved.authority_registry_address "authority status out of range")
  end.

Definition encode (m : gmap N AuthorityRecord) : bytes := ring_encode AuthorityStatus.as_byte m.
Definition decode (b : bytes) : outcome ExecutionError (gmap N AuthorityRecord) :=
  ring_decode from_byte reserved.authority_registry_address "authority" b.

Lemma authority_from_as s : from_byte (AuthorityStatus.as_byte s) = Ok s.
Proof. by destruct s. Qed.
Lemma authority_from_total b : from_byte b ≠ Panic.
Proof. by destruct b. Qed.
#[export] Instance codec : StateCodec (gmap N AuthorityRecord) :=
  ring_codec AuthorityStatus.as_byte from_byte reserved.authority_registry_address "authority"
    authority_from_as authority_from_total.
End AuthorityRegistry.
End AuthorityRegistry.

Module ValidatorRegistry.
Abbreviation ValidatorRecord := (RingRecord ValidatorStatus).
Section ValidatorRegistry.
Context `{Blake3}.

Definition from_byte (b : byte) : outcome ExecutionError ValidatorStatus :=
  match b with
  | Byte.x00 => Ok ValidatorStatus.Active
  | Byte.x01 => Ok ValidatorStatus.Exiting
  | Byte.x02 => Ok ValidatorStatus.Ejected
  | _ => Err (corrupt reserved.validator_registry_address "validator status out of range")
  end.

Definition encode (m : gmap N ValidatorRecord) : bytes := ring_encode ValidatorStatus.as_byte m.
Definition decode (b : bytes) : outcome ExecutionError (gmap N ValidatorRecord) :=
  ring_decode from_byte reserved.validator_registry_address "validator" b.

Lemma validator_from_as s : from_byte (ValidatorStatus.as_byte s) = Ok s.
Proof. by destruct s. Qed.
Lemma validator_from_total b : from_byte b ≠ Panic.
Proof. by destruct b. Qed.
#[export] Instance codec : StateCodec (gmap N ValidatorRecord) :=
  ring_codec ValidatorStatus.as_byte from_byte reserved.validator_registry_address "validator"
    validator_from_as validator_from_total.
End ValidatorRegistry.
End ValidatorRegistry.

(** ** Fixed-size entry tables *)

(** The header and size check shared by the registries whose entries have a
    fixed width: an optional [version], [count], then exactly [count] entries. *)
Section table.
Context {K V : Type} `{Countable K, !KeyOrder K}.
Context (version : option N) (entry_bytes : nat) (entry : parser (K * V)) (enc : K → V → bytes).
Context (missing mismatch size_mismatch : ExecutionError) (dup : option ExecutionError).

Definition table_header_bytes : nat := match version with Some _ => 8 | None => 4 end.

Definition table_encode_entries (es : list (K * V)) : bytes :=
  match version with Some v => be_bytes 4 v | None => [] end
  ++ be_bytes 4 (wrap 32 (N.of_nat (length es)))
  ++ mjoin ((λ e, enc e.1 e.2) <$> es).

Definition table_encode (m : gmap K V) : bytes := table_encode_entries (btree_entries m).

Definition read_version : parser unit :=
  match version with
  | Some v => v' ← read_be 4; reject (bool_decide (v' ≠ v)) mismatch
  | None => mret tt
  end.

Definition table_decode (b : bytes) : outcome ExecutionError (gmap K V) :=
  if bool_decide (b = []) then Ok ∅
  else parsed ((
    _ ← require table_header_bytes missing;
    _ ← read_version;
    count ← read_be 4;
    _ ← require_exact (N.to_nat count * entry_bytes) size_mismatch;
    read_entries entry dup (N.to_nat count) ∅) b).

Lemma table_encode_nonempty m : table_encode m ≠ [].
Proof.
  unfold table_encode, table_encode_entries.
  destruct version; [|rewrite app_nil_l]; by apply be_bytes_app_nonempty.
Qed.

Lemma reads_version : reads (table_header_bytes - 4) read_version.
Proof.
  unfold table_header_bytes, read_version. destruct version; [|apply reads_ret].
  apply (reads_bind _ 4); [apply reads_be|lia|]. intros v. apply reads_reject.
Qed.

Lemma header_bytes_ge : 4 ≤ table_header_bytes.
Proof. unfold table_header_bytes. destruct version; lia. Qed.

Context (ok : K → V → Prop).
Hypothesis version_small : ∀ v, version = Some v → (v < width 32)%N.
Hypothesis entry_recognises : ∀ k v, ok k v → recognises entry (enc k v) (k, v).
Hypothesis entry_length : ∀ k v, ok k v → length (enc k v) = entry_bytes.
Hypothesis entry_reads : reads entry_bytes entry.

Definition table_ok (m : gmap K V) : Prop := (N.of_nat (size m) < width 32)%N ∧ map_Forall ok m.

Lemma length_table (m : gmap K V) :
  map_Forall ok m →
  length (mjoin ((λ e, enc e.1 e.2) <$> btree_entries m)) = length (btree_entries m) * entry_bytes.
Proof.
  intros Hok. assert (Forall (λ e, ok e.1 e.2) (btree_entries m)) as Hf.
  { apply Forall_forall. intros [k v] Hin%elem_of_btree_entries. by apply Hok. }
  induction Hf as [|[k v] es Hkv _ IH]; [done|]. csimpl.
  rewrite length_app, IH, entry_length by done. lia.
Qed.

Lemma read_version_recognises :
  recognises read_version (match version with Some v => be_bytes 4 v | None => [] end) tt.
Proof.
  unfold read_version. destruct version as [v|]; [|apply ret_recognises].
  specialize (version_small v eq_refl) as Hv. rewrite width_32 in Hv.
  eapply bind_recognises_end; [by apply read_be_recognises|]. intros s.
  by rewrite bool_decide_false by naive_solver.
Qed.

Lemma table_roundtrip m : table_ok m → table_decode (table_encode m) = Ok m.
Proof.
  intros [Hs Hok]. unfold table_decode.
  rewrite bool_decide_false by apply table_encode_nonempty.
  unfold table_encode, table_encode_entries, table_header_bytes.
  rewrite <-length_btree_entries in Hs. rewrite wrap_small by done. rewrite width_32 in Hs.
  apply accepts_parsed, bind_accepts_require.
  { destruct version; rewrite !length_app, !length_be_bytes; lia. }
  eapply bind_accepts; [apply read_version_recognises|].
  eapply bind_accepts; [apply read_be_recognises; lia|]. rewrite Nat2N.id.
  apply bind_accepts_exact; [by rewrite length_table|].
  pose proof (read_table_recognises entry enc ok entry_recognises dup m Hok []) as E.
  by rewrite app_nil_r in E.
Qed.

Lemma table_total b : table_decode b ≠ Panic.
Proof.
  unfold table_decode. case_bool_decide; [done|]. apply parsed_safe.
  apply require_safe. eapply safe_bind; [apply reads_version|lia|]. intros _.
  pose proof header_bytes_ge. eapply safe_bind; [apply reads_be|lia|]. intros count.
  apply require_exact_safe. intros _. apply reads_safe, reads_entries, entry_reads.
Qed.

#[program] Definition table_codec : StateCodec (gmap K V) := {|
  codec_default := ∅;
  codec_encode := table_encode;
  codec_decode := table_decode;
  codec_wf := table_ok;
  codec_roundtrip := table_roundtrip;
  codec_total := table_total;
  codec_encode_nonempty := table_encode_nonempty;
|}.
Next Obligation. done. Qed.
End table.

(** Discharge [reads] goals along a chain of reads. *)
Ltac reads_steps :=
  repeat first
    [ apply reads_ret | apply reads_fail
    | eapply reads_bind;
      [first [apply reads_be | apply reads_byte | apply reads_slice | apply reads_ret
             | apply reads_reject | apply reads_lift; by auto]
      |lia|intros ?; simpl Nat.sub] ].

(** ** [delegation_registry.rs] *)
Module DelegationRegistry.
Abbreviation DelegationMap := (gmap (N * Address) N).
Definition DELEGATION_REGISTRY_VERSION : N := 1.
Definition ENTRY_BYTES : nat := 4 + 20 + 8.

Section DelegationRegistry.
Context `{Blake3}.

Definition error (reason : string) : ExecutionError :=
  corrupt reserved.validator_delegation_registry_address reason.

Definition encode_entry (k : N * Address) (amount : N) : bytes :=
  be_bytes 4 k.1 ++ k.2 ++ be_bytes 8 amount.

(** Zero amounts are skipped. *)
Definition encode (m : DelegationMap) : bytes :=
  table_encode_entries (Some DELEGATION_REGISTRY_VERSION) encode_entry
    (filter (λ e, (0 < e.2)%N) (btree_entries m)).

Definition entry : parser (N * Address * N) :=
  vid ← read_be 4;
  delegator ← slice 20;
  amount ← read_be 8;
  _ ← reject (bool_decide (amount = 0%N)) (error "delegation registry has zero-amount entry");
  mret ((vid, delegator), amount).

Definition decode (b : bytes) : outcome ExecutionError DelegationMap :=
  table_decode (Some DELEGATION_REGISTRY_VERSION) ENTRY_BYTES entry
    (error "delegation registry header missing")
    (error "delegation registry version mismatch")
    (error "delegation registry length mismatch")
    (Some (error "delegation registry has duplicate (validator, delegator) pair")) b.

Definition entry_ok (k : N * Address) (amount : N) : Prop :=
  (k.1 < width 32)%N ∧ length k.2 = 20 ∧ (0 < amount < width 64)%N.

Lemma delegation_entry_recognises k v : entry_ok k v → recognises entry (encode_entry k v) (k, v).
Proof.
  destruct k as [vid d]. unfold entry_ok; simpl. rewrite width_32, width_64.
  intros (Hv & Hd & Ha & Hb).
  eapply bind_recognises; [by apply read_be_recognises|].
  eapply bind_recognises; [by apply slice_recognises|].
  eapply bind_recognises_end; [by apply read_be_recognises|]. intros s.
  by rewrite bool_decide_false by lia.
Qed.

Lemma delegation_entry_length k v : entry_ok k v → length (encode_entry k v) = ENTRY_BYTES.
Proof.
  intros (_ & Hd & _). unfold encode_entry. by rewrite !length_app, !length_be_bytes, Hd.
Qed.

Lemma delegation_entry_reads : reads ENTRY_BYTES entry.
Proof. unfold entry, ENTRY_BYTES. reads_steps. Qed.

Lemma encode_table m :
  map_Forall entry_ok m → encode m = table_encode (Some DELEGATION_REGISTRY_VERSION) encode_entry m.
Proof.
  intros Hok. unfold encode, table_encode. f_equal. apply filter_all.
  apply Forall_forall. intros [k v] Hin%elem_of_btree_entries. by apply Hok in Hin as (_ & _ & ? & _).
Qed.

#[export] Program Instance codec : StateCodec DelegationMap := {|
  codec_default := ∅;
  codec_encode := encode;
  codec_decode := decode;
  codec_wf := table_ok entry_ok;
|}.
Next Obligation.
  intros m Hok. rewrite encode_table by apply Hok. unfold decode.
  apply (table_roundtrip _ _ _ _ _ _ _ _ entry_ok);
    auto using delegation_entry_recognises, delegation_entry_length. by intros v [= <-].
Qed.
Next Obligation. intros b. apply table_total, delegation_entry_reads. Qed.
Next Obligation. done. Qed.
Next Obligation. intros m. by apply be_bytes_app_nonempty. Qed.
End DelegationRegistry.
End DelegationRegistry.

(** ** [eject_registry.rs] *)
Module EjectRegistry.
Record EjectionRecord := mk { ejector : Address }.
Definition EJECTION_REGISTRY_VERSION : N := 1.
Definition ENTRY_BYTES : nat := 32 + 20.

Section EjectRegistry.
Context `{Blake3}.

Definition error (reason : string) : ExecutionError :=
  corrupt reserved.ejection_registry_address reason.

Definition encode_entry (id : bytes) (rec : EjectionRecord) : bytes := id ++ ejector rec.
Definition encode (m : gmap bytes EjectionRecord) : bytes :=
  table_encode (Some EJECTION_REGISTRY_VERSION) encode_entry m.

Definition entry : parser (bytes * EjectionRecord) :=
  id ← slice 32; e ← slice 20; mret (id, mk e).

(** A repeated key overwrites. *)
Definition decode (b : bytes) : outcome ExecutionError (gmap bytes EjectionRecord) :=
  table_decode (Some EJECTION_REGISTRY_VERSION) ENTRY_BYTES entry
    (error "ejection registry header missing") (error "ejection registry version mismatch")
    (error "ejection registry size mismatch") None b.

Definition entry_ok (id : bytes) (rec : EjectionRecord) : Prop :=
  length id = 32 ∧ length (ejector rec) = 20.

Lemma eject_entry_recognises k v : entry_ok k v → recognises entry (encode_entry k v) (k, v).
Proof.
  destruct v as [e]. intros [H1 H2]; simpl in *.
  eapply bind_recognises; [by apply slice_recognises|].
  by eapply bind_recognises_end; [apply slice_recognises|].
Qed.

Lemma eject_entry_length k v : entry_ok k v → length (encode_entry k v) = ENTRY_BYTES.
Proof. intros [H1 H2]. unfold encode_entry. by rewrite length_app, H1, H2. Qed.

Lemma eject_entry_reads : reads ENTRY_BYTES entry.
Proof. unfold entry, ENTRY_BYTES. reads_steps. Qed.

#[export] Program Instance codec : StateCodec (gmap bytes EjectionRecord) :=
  table_codec (Some EJECTION_REGISTRY_VERSION) ENTRY_BYTES entry encode_entry
    (error "ejection registry header missing") (error "ejection registry version mismatch")
    (error "ejection registry size mismatch") None entry_ok _
    eject_entry_recognises eject_entry_length eject_entry_reads.
Next Obligation. by intros v [= <-]. Qed.
End EjectRegistry.
End EjectRegistry.

(** ** [burn_nullifier.rs] *)
Module BurnNullifier.
Definition BURN_NULLIFIER_VERSION : N := 1.
Definition ENTRY_BYTES : nat := 32.

Section BurnNullifier.
Context `{Blake3}.

Definition error (reason : string) : ExecutionError :=
  corrupt reserved.burn_nullifier_registry_address reason.

Definition burn_preimage (l2_chain_id_hash : bytes) (batch_id : N) (recipient : Address)
    (amount : Balance) (merkle_path : bytes) (asset_id : option bytes) : bytes :=
  tag "suwappu-burn-v1" ++ l2_chain_id_hash ++ be_bytes 8 batch_id ++ recipient
  ++ be_bytes 16 amount ++ be_bytes 4 (wrap 32 (N.of_nat (length merkle_path))) ++ merkle_path
  ++ match asset_id with Some id => [Byte.x01] ++ id | None => [Byte.x00] end.

Definition burn_id (l2_chain_id_hash : bytes) (batch_id : N) (recipient : Address)
    (amount : Balance) (merkle_path : bytes) (asset_id : option bytes) : bytes :=
  blake3 (burn_preimage l2_chain_id_hash batch_id recipient amount merkle_path asset_id).

Definition encode (s : gset bytes) : bytes :=
  be_bytes 4 BURN_NULLIFIER_VERSION ++ be_bytes 4 (wrap 32 (N.of_nat (size s)))
  ++ mjoin (bset_elems s).

(** The insertion loop. *)
Fixpoint read_ids (count : nat) (s : gset bytes) : parser (gset bytes) :=
  match count with
  | O => mret s
  | S c => id ← slice 32; read_ids c ({[id]} ∪ s)
  end.

Definition decode (b : bytes) : outcome ExecutionError (gset bytes) :=
  if bool_decide (b = []) then Ok ∅
  else parsed ((
    _ ← require ENCODED_HEADER_BYTES (error "burn nullifier header missing");
    v ← read_be 4;
    _ ← reject (bool_decide (v ≠ BURN_NULLIFIER_VERSION)) (error "burn nullifier version mismatch");
    count ← read_be 4;
    _ ← require_exact (N.to_nat count * ENTRY_BYTES) (error "burn nullifier size mismatch");
    read_ids (N.to_nat count) ∅) b).

Definition set_ok (s : gset bytes) : Prop :=
  (N.of_nat (size s) < width 32)%N ∧ set_Forall (λ id, length id = 32) s.

Lemma read_ids_recognises l s :
  Forall (λ id, length id = 32) l →
  recognises (read_ids (length l) s) (mjoin l) (list_to_set l ∪ s).
Proof.
  revert s. induction l as [|x l IH]; intros s Hl; simpl.
  { rewrite (left_id_L ∅ (∪)). apply ret_recognises. }
  apply Forall_cons in Hl as [Hx Hl]. eapply bind_recognises; [by apply slice_recognises|].
  replace ({[x]} ∪ list_to_set l ∪ s) with (list_to_set l ∪ ({[x]} ∪ s)) by set_solver.
  by apply IH.
Qed.

Lemma reads_ids count s : reads (count * ENTRY_BYTES) (read_ids count s).
Proof.
  revert s. unfold ENTRY_BYTES. induction count as [|c IH]; intros s; [apply reads_ret|].
  apply (reads_bind _ 32); [apply reads_slice|lia|]. intros id.
  replace (S c * 32 - 32) with (c * 32) by lia. apply IH.
Qed.

Lemma length_join_fixed n (l : list bytes) :
  Forall (λ x, length x = n) l → length (mjoin l) = length l * n.
Proof. induction 1 as [|x l Hx _ IH]; [done|]. csimpl. rewrite length_app, IH, Hx. lia. Qed.

#[export] Program Instance codec : StateCodec (gset bytes) := {|
  codec_default := ∅;
  codec_encode := encode;
  codec_decode := decode;
  codec_wf := set_ok;
|}.
Next Obligation.
  intros s [Hs Hok]. unfold decode, encode.
  rewrite bool_decide_false by (by apply be_bytes_app_nonempty). rewrite wrap_small by done.
  assert (size s = length (bset_elems s)) as Hsz by (unfold size, set_size; simpl; by rewrite bset_elems_perm).
  rewrite Hsz, width_32 in *.
  assert (Forall (λ x, length x = 32) (bset_elems s)) as Hf.
  { apply Forall_forall. intros x Hx. rewrite elem_of_bset_elems in Hx. by apply Hok. }
  apply accepts_parsed, bind_accepts_require.
  { rewrite !length_app, !length_be_bytes. unfold ENCODED_HEADER_BYTES. lia. }
  eapply bind_accepts; [by apply read_be_recognises|]. apply bind_accepts_reject; [done|].
  eapply bind_accepts; [apply read_be_recognises; lia|]. rewrite Nat2N.id.
  apply bind_accepts_exact; [by rewrite (length_join_fixed 32)|].
  pose proof (read_ids_recognises (bset_elems s) ∅ Hf []) as E. rewrite app_nil_r in E.
  unfold accepts. rewrite E. do 2 f_equal. apply set_eq. intros x.
  rewrite elem_of_union, elem_of_list_to_set, elem_of_bset_elems. set_solver.
Qed.
Next Obligation.
  intros b. unfold decode. case_bool_decide; [done|]. apply parsed_safe.
  unfold ENCODED_HEADER_BYTES. safe_steps. apply require_exact_safe. intros _.
  apply reads_safe, reads_ids.
Qed.
Next Obligation. done. Qed.
Next Obligation. intros s. by apply be_bytes_app_nonempty. Qed.
End BurnNullifier.
End BurnNullifier.

(** ** [equivocation_registry.rs] *)
Module EquivocationRegistry.
Record EquivocationRecord := mk { kind : OffenseKind; slashed_at_l1_height : N }.
Definition EQUIVOCATION_REGISTRY_VERSION : N := 1.
Definition ENTRY_BYTES : nat := 32 + 1 + 8.

Section EquivocationRegistry.
Context `{Blake3}.

Definition error (reason : string) : ExecutionError :=
  corrupt reserved.equivocation_registry_address reason.

Definition from_byte (b : byte) : outcome ExecutionError OffenseKind :=
  match b with
  | Byte.x00 => Ok OffenseKind.Equivocation
  | Byte.x01 => Ok OffenseKind.InvalidBatch
  | _ => Err (error "equivocation offense kind out of range")
  end.

Definition encode_entry (id : bytes) (rec : EquivocationRecord) : bytes :=
  id ++ [OffenseKind.as_byte (kind rec)] ++ be_bytes 8 (slashed_at_l1_height rec).
Definition encode (m : gmap bytes EquivocationRecord) : bytes :=
  table_encode (Some EQUIVOCATION_REGISTRY_VERSION) encode_entry m.

Definition entry : parser (bytes * EquivocationRecord) :=
  id ← slice 32;
  b ← read_byte;
  k ← lift (from_byte b);
  h ← read_be 8;
  mret (id, mk k h).

Definition decode (b : bytes) : outcome ExecutionError (gmap bytes EquivocationRecord) :=
  table_decode (Some EQUIVOCATION_REGISTRY_VERSION) ENTRY_BYTES entry
    (error "equivocation registry header missing") (error "equivocation registry version mismatch")
    (error "equivocation registry size mismatch")
    (Some (error "equivocation registry has duplicate keys")) b.

Definition entry_ok (id : bytes) (rec : EquivocationRecord) : Prop :=
  length id = 32 ∧ (slashed_at_l1_height rec < width 64)%N.

Lemma equivocation_entry_recognises k v : entry_ok k v → recognises entry (encode_entry k v) (k, v).
Proof.
  destruct v as [kd h]. unfold entry_ok; simpl. rewrite width_64. intros [H1 H2].
  eapply bind_recognises; [by apply slice_recognises|].
  eapply bind_recognises; [apply read_byte_recognises|].
  eapply bind_recognises_lift; [by destruct kd|].
  by eapply bind_recognises_end; [apply read_be_recognises|].
Qed.

Lemma equivocation_entry_length k v : entry_ok k v → length (encode_entry k v) = ENTRY_BYTES.
Proof. intros [H1 _]. unfold encode_entry. by rewrite !length_app, length_be_bytes, H1. Qed.

Lemma equivocation_from_total b : from_byte b ≠ Panic.
Proof. by destruct b. Qed.
#[local] Hint Resolve equivocation_from_total : core.

Lemma equivocation_entry_reads : reads ENTRY_BYTES entry.
Proof. unfold entry, ENTRY_BYTES. reads_steps. Qed.

#[export] Program Instance codec : StateCodec (gmap bytes EquivocationRecord) :=
  table_codec (Some EQUIVOCATION_REGISTRY_VERSION) ENTRY_BYTES entry encode_entry
    (error "equivocation registry header missing") (error "equivocation registry version mismatch")
    (error "equivocation registry size mismatch")
    (Some (error "equivocation registry has duplicate keys")) entry_ok _
    equivocation_entry_recognises equivocation_entry_length equivocation_entry_reads.
Next Obligation. by intros v [= <-]. Qed.
End EquivocationRegistry.
End EquivocationRegistry.

(** ** [force_include.rs] *)
Module ForceInclude.
Record ForceIncludeObligation := mk {
  tx_hash_of : bytes;
  deadline_l1_height : N;
  submitter : Address;
  l2_nonce : N;
  status : ObligationStatus;
}.
Definition OBLIGATION_BYTES : nat := 32 + 8 + 20 + 8 + 1.
Definition ENCODED_ENTRY_BYTES : nat := 32 + OBLIGATION_BYTES.

Section ForceInclude.
Context `{Blake3}.

Definition error (reason : string) : ExecutionError :=
  corrupt reserved.force_include_registry_address reason.

Definition from_byte (b : byte) : outcome ExecutionError ObligationStatus :=
  match b with
  | Byte.x00 => Ok ObligationStatus.Pending
  | Byte.x01 => Ok ObligationStatus.Honored
  | Byte.x02 => Ok ObligationStatus.Slashed
  | _ => Err (error "force-include obligation status out of range")
  end.

Definition obligation_id (tx : bytes) (deadline : N) (sub : Address) (nonce : N) : bytes :=
  blake3 (tag "suwappu-force-include-v1" ++ be_bytes 4 (wrap 32 (N.of_nat (length tx))) ++ tx
          ++ be_bytes 8 deadline ++ sub ++ be_bytes 8 nonce).

Definition tx_hash (tx : bytes) : bytes := blake3 tx.

Definition encode_entry (id : bytes) (ob : ForceIncludeObligation) : bytes :=
  id ++ tx_hash_of ob ++ be_bytes 8 (deadline_l1_height ob) ++ submitter ob
  ++ be_bytes 8 (l2_nonce ob) ++ [ObligationStatus.as_byte (status ob)].
Definition encode_map (m : gmap bytes ForceIncludeObligation) : bytes :=
  table_encode None encode_entry m.

Definition entry : parser (bytes * ForceIncludeObligation) :=
  id ← slice 32;
  th ← slice 32;
  deadline ← read_be 8;
  sub ← slice 20;
  nonce ← read_be 8;
  b ← read_byte;
  st ← lift (from_byte b);
  mret (id, mk th deadline sub nonce st).

Definition decode_map (b : bytes) : outcome ExecutionError (gmap bytes ForceIncludeObligation) :=
  table_decode None ENCODED_ENTRY_BYTES entry
    (error "force-include map header missing") (error "force-include map header missing")
    (error "force-include map size mismatch") (Some (error "force-include map has duplicate ids")) b.

Definition entry_ok (id : bytes) (ob : ForceIncludeObligation) : Prop :=
  length id = 32 ∧ length (tx_hash_of ob) = 32 ∧ (deadline_l1_height ob < width 64)%N ∧
  length (submitter ob) = 20 ∧ (l2_nonce ob < width 64)%N.

Lemma force_include_entry_recognises k v : entry_ok k v → recognises entry (encode_entry k v) (k, v).
Proof.
  destruct v as [th dl sb nn st]. unfold entry_ok, encode_entry.
  cbn [tx_hash_of deadline_l1_height submitter l2_nonce status]. rewrite width_64.
  intros (H1 & H2 & H3 & H4 & H5). unfold entry.
  do 5 (eapply bind_recognises; [first [by apply slice_recognises | by apply read_be_recognises]|]).
  eapply bind_recognises_end; [apply read_byte_recognises|]. intros s. by destruct st.
Qed.

Lemma force_include_entry_length k v : entry_ok k v → length (encode_entry k v) = ENCODED_ENTRY_BYTES.
Proof.
  intros (H1 & H2 & _ & H4 & _). unfold encode_entry.
  by rewrite !length_app, !length_be_bytes, H1, H2, H4.
Qed.

Lemma force_include_from_total b : from_byte b ≠ Panic.
Proof. by destruct b. Qed.
#[local] Hint Resolve force_include_from_total : core.

Lemma force_include_entry_reads : reads ENCODED_ENTRY_BYTES entry.
Proof. unfold entry, ENCODED_ENTRY_BYTES, OBLIGATION_BYTES. reads_steps. Qed.

#[export] Program Instance codec : StateCodec (gmap bytes ForceIncludeObligation) :=
  table_codec None ENCODED_ENTRY_BYTES entry encode_entry
    (error "force-include map header missing") (error "force-include map header missing")
    (error "force-include map size mismatch") (Some (error "force-include map has duplicate ids"))
    entry_ok _ force_include_entry_recognises force_include_entry_length force_include_entry_reads.
Next Obligation. done. Qed.
End ForceInclude.
End ForceInclude.

(** ** [l2_state.rs] *)
Module L2State.
Definition L2_REGISTRY_VERSION : N := 2.
Definition L2_REGISTRY_VERSION_V1 : N := 1.
Definition ENCODED_STATE_ROOT_ENTRY_BYTES : nat := 32 + 8 + (32 + 8 + 32 + 32).
Definition ENCODED_CHAIN_VKS_ENTRY_BYTES : nat := 32 + 32 + 32.

Record ChainVks := mk_vks { aggregation_vk : bytes; range_vk : bytes }.

Record L2StateRootRecord := mk_root {
  state_root : bytes;
  committed_at_l1_height : N;
  vk_hash : bytes;
  da_commitment : bytes;
}.

(** [L2BatchKey]: [(l2_chain_id_hash, batch_id)], ordered lexicographically. *)
Abbreviation L2BatchKey := (bytes * N)%type.

Record L2Registry := mk {
  chain_vks : gmap bytes ChainVks;
  state_roots : gmap L2BatchKey L2StateRootRecord;
}.

Definition empty : L2Registry := mk ∅ ∅.
Definition zeros32 : bytes := replicate 32 Byte.x00.

Definition aggregation_vk_hash (r : L2Registry) (chain : bytes) : bytes :=
  match chain_vks r !! chain with Some v => aggregation_vk v | None => zeros32 end.
Definition range_vk_commitment (r : L2Registry) (chain : bytes) : bytes :=
  match chain_vks r !! chain with Some v => range_vk v | None => zeros32 end.
Definition set_chain_vks (r : L2Registry) (chain agg range : bytes) : L2Registry :=
  mk (<[chain := mk_vks agg range]> (chain_vks r)) (state_roots r).

Definition encode_vks (chain : bytes) (v : ChainVks) : bytes :=
  chain ++ aggregation_vk v ++ range_vk v.
Definition encode_root (k : L2BatchKey) (rec : L2StateRootRecord) : bytes :=
  k.1 ++ be_bytes 8 k.2 ++ state_root rec ++ be_bytes 8 (committed_at_l1_height rec)
  ++ vk_hash rec ++ da_commitment rec.

Definition encode (r : L2Registry) : bytes :=
  be_bytes 4 L2_REGISTRY_VERSION
  ++ be_bytes 4 (wrap 32 (N.of_nat (size (chain_vks r))))
  ++ mjoin ((λ e, encode_vks e.1 e.2) <$> btree_entries (chain_vks r))
  ++ be_bytes 4 (wrap 32 (N.of_nat (size (state_roots r))))
  ++ mjoin ((λ e, encode_root e.1 e.2) <$> btree_entries (state_roots r)).

Section L2State.
Context `{Blake3}.

Definition error (reason : string) : ExecutionError := corrupt reserved.l2_registry_address reason.

Definition vks_entry : parser (bytes * ChainVks) :=
  chain ← slice 32; agg ← slice 32; range ← slice 32; mret (chain, mk_vks agg range).

Definition root_entry : parser (L2BatchKey * L2StateRootRecord) :=
  chain ← slice 32;
  batch ← read_be 8;
  root ← slice 32;
  height ← read_be 8;
  vk ← slice 32;
  da ← slice 32;
  mret ((chain, batch), mk_root root height vk da).

Definition decode_state_roots (count : nat) : parser (gmap L2BatchKey L2StateRootRecord) :=
  read_entries root_entry (Some (error "L2 registry has duplicate keys")) count ∅.

(** [checked_mul] on a 64-bit [usize]. *)
Definition checked_size (count : N) (bytes_each : nat) (e : ExecutionError) : parser unit :=
  reject (bool_decide (width 64 ≤ count * N.of_nat bytes_each)%N) e.

(** After the version field. *)
Definition decode_v2 : parser L2Registry :=
  _ ← require 4 (error "L2 registry v2 header missing");
  chain_vk_count ← read_be 4;
  _ ← checked_size chain_vk_count ENCODED_CHAIN_VKS_ENTRY_BYTES
        (error "L2 registry chain_vks size overflow");
  _ ← require (N.to_nat chain_vk_count * ENCODED_CHAIN_VKS_ENTRY_BYTES + 4)
        (error "L2 registry chain_vks truncated");
  vks ← read_entries vks_entry (Some (error "L2 registry has duplicate chain_vks"))
          (N.to_nat chain_vk_count) ∅;
  state_root_count ← read_be 4;
  _ ← checked_size state_root_count ENCODED_STATE_ROOT_ENTRY_BYTES
        (error "L2 registry state_roots size overflow");
  _ ← require_exact (N.to_nat state_root_count * ENCODED_STATE_ROOT_ENTRY_BYTES)
        (error "L2 registry size mismatch");
  roots ← decode_state_roots (N.to_nat state_root_count);
  mret (mk vks roots).

(** The version-1 record holds one key pair, lifted to the all-zero chain. *)
Definition decode_v1 : parser L2Registry :=
  _ ← require (32 + 32 + 4) (error "L2 registry v1 header missing");
  agg ← slice 32;
  range ← slice 32;
  state_root_count ← read_be 4;
  _ ← checked_size state_root_count ENCODED_STATE_ROOT_ENTRY_BYTES
        (error "L2 registry v1 state_roots size overflow");
  _ ← require_exact (N.to_nat state_root_count * ENCODED_STATE_ROOT_ENTRY_BYTES)
        (error "L2 registry v1 size mismatch");
  let vks := if bool_decide (agg ≠ zeros32 ∨ range ≠ zeros32)
             then {[ zeros32 := mk_vks agg range ]} else ∅ in
  roots ← decode_state_roots (N.to_nat state_root_count);
  mret (mk vks roots).

Definition decode (b : bytes) : outcome ExecutionError L2Registry :=
  if bool_decide (b = []) then Ok empty
  else parsed ((
    _ ← require 4 (error "L2 registry header missing");
    version ← read_be 4;
    if bool_decide (version = L2_REGISTRY_VERSION) then decode_v2
    else if bool_decide (version = L2_REGISTRY_VERSION_V1) then decode_v1
    else fail (error "L2 registry version mismatch")) b).

Definition vks_ok (chain : bytes) (v : ChainVks) : Prop :=
  length chain = 32 ∧ length (aggregation_vk v) = 32 ∧ length (range_vk v) = 32.
Definition root_ok (k : L2BatchKey) (rec : L2StateRootRecord) : Prop :=
  length k.1 = 32 ∧ (k.2 < width 64)%N ∧ length (state_root rec) = 32 ∧
  (committed_at_l1_height rec < width 64)%N ∧ length (vk_hash rec) = 32 ∧
  length (da_commitment rec) = 32.
Definition registry_ok (r : L2Registry) : Prop :=
  (N.of_nat (size (chain_vks r)) < width 32)%N ∧ map_Forall vks_ok (chain_vks r) ∧
  (N.of_nat (size (state_roots r)) < width 32)%N ∧ map_Forall root_ok (state_roots r).

Lemma vks_recognises k v : vks_ok k v → recognises vks_entry (encode_vks k v) (k, v).
Proof.
  destruct v as [a r]. intros (H1 & H2 & H3). cbn [aggregation_vk range_vk] in *.
  do 2 (eapply bind_recognises; [by apply slice_recognises|]).
  by eapply bind_recognises_end; [apply slice_recognises|].
Qed.

Lemma root_recognises k v : root_ok k v → recognises root_entry (encode_root k v) (k, v).
Proof.
  destruct k as [ch bt], v as [sr ht vk da]. unfold root_ok, encode_root.
  cbn [state_root committed_at_l1_height vk_hash da_commitment fst snd]. rewrite width_64.
  intros (H1 & H2 & H3 & H4 & H5 & H6). unfold root_entry.
  do 5 (eapply bind_recognises; [first [by apply slice_recognises | by apply read_be_recognises]|]).
  by eapply bind_recognises_end; [apply slice_recognises|].
Qed.

Lemma vks_length k v : vks_ok k v → length (encode_vks k v) = ENCODED_CHAIN_VKS_ENTRY_BYTES.
Proof. intros (H1 & H2 & H3). unfold encode_vks. by rewrite !length_app, H1, H2, H3. Qed.

Lemma root_length k v : root_ok k v → length (encode_root k v) = ENCODED_STATE_ROOT_ENTRY_BYTES.
Proof.
  intros (H1 & _ & H3 & _ & H5 & H6). unfold encode_root.
  by rewrite !length_app, !length_be_bytes, H1, H3, H5, H6.
Qed.

Lemma checked_size_small count n e :
  (count < width 32)%N → n ≤ 200 → checked_size count n e = mret tt.
Proof.
  intros Hc Hn. unfold checked_size. rewrite bool_decide_false; [done|].
  rewrite width_32 in Hc. rewrite width_64. nia.
Qed.

Lemma l2_decode_encode r : registry_ok r → decode (encode r) = Ok r.
Proof.
  destruct r as [vks roots]. intros (Hs1 & Hok1 & Hs2 & Hok2). simpl in *.
  unfold decode, encode. cbn [chain_vks state_roots].
  rewrite bool_decide_false by (by apply be_bytes_app_nonempty). rewrite !wrap_small by done.
  rewrite <-!length_btree_entries in *.
  apply accepts_parsed, bind_accepts_require; [rewrite length_app, length_be_bytes; lia|].
  eapply bind_accepts; [by apply read_be_recognises|]. rewrite bool_decide_true by done.
  apply bind_accepts_require; [rewrite length_app, length_be_bytes; lia|].
  eapply bind_accepts; [apply read_be_recognises; by rewrite <-width_32|].
  rewrite checked_size_small by (done || (unfold ENCODED_CHAIN_VKS_ENTRY_BYTES; lia)).
  rewrite Nat2N.id. change (mret tt ≫= ?f) with (f tt).
  apply bind_accepts_require.
  { rewrite !length_app, length_be_bytes, (length_table _ _ vks_ok vks_length) by done. lia. }
  eapply bind_accepts; [by apply (read_table_recognises _ _ vks_ok vks_recognises)|].
  eapply bind_accepts; [apply read_be_recognises; by rewrite <-width_32|].
  rewrite checked_size_small by (done || (unfold ENCODED_STATE_ROOT_ENTRY_BYTES; lia)).
  rewrite Nat2N.id. change (mret tt ≫= ?f) with (f tt).
  apply bind_accepts_exact; [by rewrite (length_table _ _ root_ok root_length)|].
  rewrite <-(app_nil_r (mjoin _)). eapply bind_accepts; [|apply ret_accepts].
  by apply (read_table_recognises _ _ root_ok root_recognises).
Qed.

Lemma vks_reads : reads ENCODED_CHAIN_VKS_ENTRY_BYTES vks_entry.
Proof. unfold vks_entry, ENCODED_CHAIN_VKS_ENTRY_BYTES. reads_steps. Qed.
Lemma root_reads : reads ENCODED_STATE_ROOT_ENTRY_BYTES root_entry.
Proof. unfold root_entry, ENCODED_STATE_ROOT_ENTRY_BYTES. reads_steps. Qed.

Lemma roots_safe (vks : gmap bytes ChainVks) count e n :
  safe n (_ ← require_exact (count * ENCODED_STATE_ROOT_ENTRY_BYTES) e;
          roots ← decode_state_roots count; mret (mk vks roots)).
Proof.
  apply require_exact_safe. intros _. apply safe_bind_any; [|intros; apply safe_ret].
  apply reads_safe, reads_entries, root_reads.
Qed.

Lemma l2_decode_total b : decode b ≠ Panic.
Proof.
  unfold decode. case_bool_decide; [done|]. apply parsed_safe. apply require_safe.
  eapply safe_bind; [apply reads_be|lia|]. intros version.
  case_bool_decide; [|case_bool_decide; [|apply safe_fail]].
  - unfold decode_v2, checked_size. safe_steps.
    eapply safe_bind; [apply reads_entries, vks_reads|lia|]. intros vks. safe_steps.
    apply roots_safe.
  - unfold decode_v1, checked_size. safe_steps. apply roots_safe.
Qed.

#[export] Program Instance codec : StateCodec L2Registry := {|
  codec_default := empty;
  codec_encode := encode;
  codec_decode := decode;
  codec_wf := registry_ok;
  codec_roundtrip := l2_decode_encode;
  codec_total := l2_decode_total;
|}.
Next Obligation. done. Qed.
Next Obligation. intros s. by apply be_bytes_app_nonempty. Qed.
End L2State.
End L2State.

(** ** [asset_registry.rs] *)
Module AssetRegistry.
Definition ASSET_REGISTRY_VERSION : N := 1.
Definition MAX_SOURCE_CONTRACT_BYTES : N := 64.
Definition MAX_ASSET_NAME_BYTES : N := 64.
Definition MAX_ASSET_SYMBOL_BYTES : N := 16.

Record AssetRecord := mk {
  source_chain : N;
  source_contract : bytes;
  decimals : byte;
  name : bytes;
  symbol : bytes;
  status : AssetStatus;
}.

(** [AssetRegistry { assets }]. *)
Abbreviation AssetRegistry := (gmap bytes AssetRecord).

Section AssetRegistry.
Context `{Blake3}.

Definition error (reason : string) : ExecutionError :=
  corrupt reserved.asset_registry_address reason.

Definition from_byte (b : byte) : outcome ExecutionError AssetStatus :=
  match b with
  | Byte.x00 => Ok AssetStatus.Active
  | Byte.x01 => Ok AssetStatus.Paused
  | Byte.x02 => Ok AssetStatus.Removed
  | _ => Err (error "asset status out of range")
  end.

Definition asset_id (chain : N) (contract : bytes) : bytes :=
  blake3 (tag "suwappu-asset-v1" ++ be_bytes 8 chain
          ++ be_bytes 4 (wrap 32 (N.of_nat (length contract))) ++ contract).

Definition prefixed (data : bytes) : bytes :=
  be_bytes 4 (wrap 32 (N.of_nat (length data))) ++ data.

Definition encode_entry (id : bytes) (rec : AssetRecord) : bytes :=
  id ++ be_bytes 8 (source_chain rec) ++ [decimals rec] ++ [AssetStatus.as_byte (status rec)]
  ++ prefixed (source_contract rec) ++ prefixed (name rec) ++ prefixed (symbol rec).

Definition encode (m : AssetRegistry) : bytes :=
  be_bytes 4 ASSET_REGISTRY_VERSION ++ be_bytes 4 (wrap 32 (N.of_nat (size m)))
  ++ mjoin ((λ e, encode_entry e.1 e.2) <$> btree_entries m).

Definition read_length_prefixed (max_len : N) : parser bytes :=
  _ ← require 4 (error "asset registry field length-prefix truncated");
  len ← read_be 4;
  _ ← reject (bool_decide (max_len < len)%N) (error "asset registry field exceeds maximum length");
  _ ← require_field max_len len (error "asset registry field data truncated");
  slice (N.to_nat len).

Definition entry : parser (bytes * AssetRecord) :=
  _ ← require (42 + 4) (error "asset registry entry truncated (fixed header)");
  id ← slice 32;
  chain ← read_be 8;
  dec ← read_byte;
  b ← read_byte;
  st ← lift (from_byte b);
  contract ← read_length_prefixed MAX_SOURCE_CONTRACT_BYTES;
  nm ← read_length_prefixed MAX_ASSET_NAME_BYTES;
  sym ← read_length_prefixed MAX_ASSET_SYMBOL_BYTES;
  mret (id, mk chain contract dec nm sym st).

Definition decode (b : bytes) : outcome ExecutionError AssetRegistry :=
  if bool_decide (b = []) then Ok ∅
  else parsed ((
    _ ← require ENCODED_HEADER_BYTES (error "asset registry header missing");
    v ← read_be 4;
    _ ← reject (bool_decide (v ≠ ASSET_REGISTRY_VERSION)) (error "asset registry version mismatch");
    count ← read_be 4;
    m ← read_entries entry (Some (error "asset registry has duplicate ids")) (N.to_nat count) ∅;
    _ ← require_exact 0 (error "asset registry has trailing bytes");
    mret m) b).

Definition entry_ok (id : bytes) (rec : AssetRecord) : Prop :=
  length id = 32 ∧ (source_chain rec < width 64)%N ∧
  (N.of_nat (length (source_contract rec)) ≤ MAX_SOURCE_CONTRACT_BYTES)%N ∧
  (N.of_nat (length (name rec)) ≤ MAX_ASSET_NAME_BYTES)%N ∧
  (N.of_nat (length (symbol rec)) ≤ MAX_ASSET_SYMBOL_BYTES)%N.

Definition registry_ok (m : AssetRegistry) : Prop :=
  (N.of_nat (size m) < width 32)%N ∧ map_Forall entry_ok m.

Lemma prefixed_recognises max data :
  (N.of_nat (length data) ≤ max)%N → (max ≤ 64)%N →
  recognises (read_length_prefixed max) (prefixed data) data.
Proof.
  intros Hd Hm. unfold read_length_prefixed, prefixed.
  rewrite wrap_small by (rewrite width_32; lia).
  eapply bind_recognises_nil.
  { intros rest. apply require_pass. rewrite length_app, length_be_bytes. lia. }
  eapply bind_recognises; [apply read_be_recognises; lia|].
  rewrite bool_decide_false by lia.
  eapply bind_recognises_nil; [done|]. eapply bind_recognises_nil.
  { intros rest. apply require_field_pass; lia. }
  apply slice_recognises. lia.
Qed.

Lemma asset_entry_recognises k v : entry_ok k v → recognises entry (encode_entry k v) (k, v).
Proof.
  destruct v as [ch ct dc nm sy st]. unfold entry_ok, encode_entry, entry.
  cbn [source_chain source_contract decimals name symbol status]. rewrite width_64.
  intros (H1 & H2 & H3 & H4 & H5). eapply bind_recognises_nil.
  { intros rest. apply require_pass. unfold prefixed.
    rewrite !length_app, !length_be_bytes, H1. cbn [length]. lia. }
  do 4 (eapply bind_recognises; [first [by apply slice_recognises | by apply read_be_recognises
    | apply read_byte_recognises]|]).
  eapply bind_recognises_lift; [by destruct st|].
  do 2 (eapply bind_recognises; [by apply prefixed_recognises|]).
  by eapply bind_recognises_end; [apply prefixed_recognises|].
Qed.

Lemma asset_decode_encode m : registry_ok m → decode (encode m) = Ok m.
Proof.
  intros [Hs Hok]. unfold decode, encode.
  rewrite bool_decide_false by (by apply be_bytes_app_nonempty). rewrite wrap_small by done.
  rewrite <-length_btree_entries. rewrite width_32, <-length_btree_entries in Hs.
  apply accepts_parsed, bind_accepts_require.
  { rewrite !length_app, !length_be_bytes. unfold ENCODED_HEADER_BYTES. lia. }
  eapply bind_accepts; [by apply read_be_recognises|]. apply bind_accepts_reject; [done|].
  eapply bind_accepts; [apply read_be_recognises; lia|].
  rewrite <-(app_nil_r (mjoin _)), Nat2N.id. eapply bind_accepts.
  { by apply (read_table_recognises _ _ entry_ok asset_entry_recognises). }
  by apply bind_accepts_exact.
Qed.

Lemma prefixed_safe max : safe 0 (read_length_prefixed max).
Proof.
  unfold read_length_prefixed. safe_steps.
  eapply safe_weaken; [apply reads_safe, reads_slice|lia].
Qed.

Lemma asset_from_total b : from_byte b ≠ Panic.
Proof. by destruct b. Qed.
#[local] Hint Resolve asset_from_total : core.

Lemma entry_safe : safe 0 entry.
Proof.
  unfold entry. safe_steps.
  repeat (apply safe_bind_any; [eapply safe_weaken; [apply prefixed_safe|lia]|intros ?]).
  apply safe_ret.
Qed.

Lemma asset_decode_total b : decode b ≠ Panic.
Proof.
  unfold decode. case_bool_decide; [done|]. apply parsed_safe. unfold ENCODED_HEADER_BYTES.
  safe_steps. apply safe_bind_any; [eapply safe_weaken; [apply safe_entries, entry_safe|lia]|].
  intros m. apply require_exact_safe. intros _. apply safe_ret.
Qed.

#[export] Program Instance codec : StateCodec AssetRegistry := {|
  codec_default := ∅;
  codec_encode := encode;
  codec_decode := decode;
  codec_wf := registry_ok;
  codec_roundtrip := asset_decode_encode;
  codec_total := asset_decode_total;
|}.
Next Obligation. done. Qed.
Next Obligation. intros s. by apply be_bytes_app_nonempty. Qed.
End AssetRegistry.
End AssetRegistry.

(** ** Properties *)

Section properties.
Context `{Blake3}.


(** No decoder panics: on arbitrary bytes, truncated and hostile length fields
    included, every registry decoder returns a value or a corruption error,
    never an out-of-range slice. *)
Theorem registries_decode_total (b : bytes) :
  AuthorityRegistry.decode b ≠ Panic ∧ ValidatorRegistry.decode b ≠ Panic ∧
  DelegationRegistry.decode b ≠ Panic ∧ EjectRegistry.decode b ≠ Panic ∧
  BurnNullifier.decode b ≠ Panic ∧ EquivocationRegistry.decode b ≠ Panic ∧
  ForceInclude.decode_map b ≠ Panic ∧ L2State.decode b ≠ Panic ∧ AssetRegistry.decode b ≠ Panic.
Proof.
  split_and!.
  - apply (codec_total (StateCodec := AuthorityRegistry.codec)).
  - apply (codec_total (StateCodec := ValidatorRegistry.codec)).
  - apply (codec_total (StateCodec := DelegationRegistry.codec)).
  - apply (codec_total (StateCodec := EjectRegistry.codec)).
  - apply (codec_total (StateCodec := BurnNullifier.codec)).
  - apply (codec_total (StateCodec := EquivocationRegistry.codec)).
  - apply (codec_total (StateCodec := ForceInclude.codec)).
  - apply (codec_total (StateCodec := L2State.codec)).
  - apply (codec_total (StateCodec := AssetRegistry.codec)).
Qed.
End properties.
