(* ===== verification/Substrate.v ===== *)
(** * The execution substrate ([crates/suwappu-execution/src/substrate.rs])

    The intent language, the in-memory substrate (balances and state records),
    its internal credit and debit operations, one definition per arm of
    [apply_intent], the read accessors and the canonical state root.

    Operations run in the monad [exec]: they thread the substrate and stop at
    the first error, keeping the state reached so far, as the early returns of
    the code do. *)

From Stdlib Require Import Strings.String.
From S2P Require Import Prelude Crypto ExecTypes Codec Registries.

Definition LIVENESS_SLASH_BPS : N := 500.
Definition EXIT_COOLDOWN_BLOCKS : N := 2419200.
Definition SNITCH_BOUNTY_BPS : N := 1000.
Definition SNITCH_BOUNTY_CAP : N := 1000000.

Definition liveness_slash_amount (bond_balance : Balance) : Balance :=
  (wrap 128 (bond_balance * LIVENESS_SLASH_BPS) / 10000)%N.

Definition snitch_bounty_amount (slash_amount : Balance) : Balance :=
  let pct := (saturating_mul 128 slash_amount SNITCH_BOUNTY_BPS / 10000)%N in
  if bool_decide (pct < SNITCH_BOUNTY_CAP)%N then pct else SNITCH_BOUNTY_CAP.

Module RewardsRing.
Inductive RewardsRing := Authority | Validator.
Definition as_str (r : RewardsRing) : string :=
  match r with Authority => "authority" | Validator => "validator" end.
End RewardsRing.
Abbreviation RewardsRing := RewardsRing.RewardsRing.

Module SlashReason.
Inductive SlashReason := MissedForceInclude | Equivocation | InvalidBatch | Downtime.
End SlashReason.
Abbreviation SlashReason := SlashReason.SlashReason.

Inductive Intent :=
| Transfer (from to : Address) (amount : Balance)
| GenesisAllocation (allocations : list (Address * Balance))
| DistributeRewards (epoch : N) (ring : RewardsRing) (recipients : list (Address * Balance))
| Delegate (from : Address) (validator_id : N) (amount : Balance)
| MintInflation (epoch : N) (authority_share validator_share treasury_share : Balance)
| AdmitAuthority (authority_id stake_suwappu : N) (mldsa_public_key bls_public_key : bytes)
| ExitAuthority (authority_id : N)
| EjectAuthority (authority_id : N) (proof_ref : bytes)
| AdmitValidator (validator_id stake_suwappu : N) (mldsa_public_key bls_public_key : bytes)
| ExitValidator (validator_id : N)
| EjectValidator (validator_id : N) (proof_ref : bytes)
| CommitL2StateRoot (batch_id : N) (new_state_root proof_bytes public_inputs vk_hash : bytes)
| SetL2VerifyingKey (chain_id_hash new_aggregation_vk new_range_commitment : bytes)
| L1Lock (user_address l2_recipient : Address) (amount : Balance) (asset_id : option bytes)
| L2BurnProven (batch_id : N) (recipient : Address) (amount : Balance) (merkle_path : bytes)
    (asset_id : option bytes) (l2_chain_id_hash : bytes)
| L2ForceInclude (tx : bytes) (deadline_l1_height : N) (submitter : Address) (l2_nonce : N)
| SlashSequencer (reason : SlashReason) (intent_hash : bytes)
| MarkForceIncludeHonored (obligation_id : bytes)
| EjectSequencer (obligation_id : bytes) (ejector : Address)
| DepositSequencerBond (from : Address) (amount : Balance)
| DepositSafetyBond (from : Address) (amount : Balance)
| DepositAuthorityStake (from : Address) (authority_id : N) (amount : Balance)
| DepositValidatorStake (from : Address) (validator_id : N) (amount : Balance)
| WithdrawAuthorityStake (to : Address) (authority_id : N) (amount : Balance)
| WithdrawValidatorStake (to : Address) (validator_id : N) (amount : Balance)
| DisburseTreasury (recipient : Address) (amount : Balance) (purpose_tag : bytes)
| ClaimInsurance (claimant : Address) (amount : Balance) (claim_reference : bytes)
| PostL2DA (batch_id : N) (da_blob : bytes)
| DistributeSlashedFunds (slash_event_id : bytes) (counterparties : list (Address * Balance))
    (insurance_share treasury_share : Balance)
| AddBridgeAsset (source_chain : N) (source_contract : bytes) (decimals : byte)
    (name symbol : bytes)
| PauseBridgeAsset (asset_id : bytes)
| RemoveBridgeAsset (asset_id : bytes).

Record InMemorySubstrate := mk {
  balances : gmap Address Balance;
  bytes_state : gmap Address bytes;
  current_block_height : N;
}.

Definition new : InMemorySubstrate := mk ∅ ∅ 0.

Definition from_balances (entries : list (Address * Balance)) : InMemorySubstrate :=
  mk (foldl (λ m e, if bool_decide (0 < e.2)%N then <[e.1 := e.2]> m else m) ∅ entries) ∅ 0.

Definition balance (s : InMemorySubstrate) (a : Address) : Balance := default 0%N (balances s !! a).
Definition read_bytes (s : InMemorySubstrate) (a : Address) : option bytes := bytes_state s !! a.
Definition set_current_block_height (s : InMemorySubstrate) (height : N) : InMemorySubstrate :=
  mk (balances s) (bytes_state s) height.
Definition total_supply (s : InMemorySubstrate) : Balance :=
  wrapping_sum 128 (btree_values (balances s)).
Definition entries (s : InMemorySubstrate) : list (Address * Balance) := btree_entries (balances s).

(** ** The execution monad *)

Definition exec (A : Type) : Type :=
  InMemorySubstrate → outcome ExecutionError A * InMemorySubstrate.

#[global] Instance exec_ret : MRet exec := λ A a s, (Ok a, s).
#[global] Instance exec_bind : MBind exec := λ A B f m s,
  match m s with
  | (Ok a, s') => f a s'
  | (Err e, s') => (Err e, s')
  | (Panic, s') => (Panic, s')
  end.

Definition throw {A} (e : ExecutionError) : exec A := λ s, (Err e, s).
Definition gets {A} (f : InMemorySubstrate → A) : exec A := λ s, (Ok (f s), s).
Definition of_outcome {A} (o : outcome ExecutionError A) : exec A := λ s, (o, s).
(** [if p { return Err(e) }]. *)
Definition deny (p : bool) (e : ExecutionError) : exec unit := if p then throw e else mret tt.

Definition set_balances (m : gmap Address Balance) : exec unit := λ s,
  (Ok tt, mk m (bytes_state s) (current_block_height s)).

Definition write_bytes_unchecked (addr : Address) (b : bytes) : exec unit := λ s,
  (Ok tt, mk (balances s)
             (if bool_decide (b = []) then delete addr (bytes_state s)
              else <[addr := b]> (bytes_state s)) (current_block_height s)).

(** Read and decode a record; an absent record reads as empty bytes. *)
Definition load {A} (decode : bytes → outcome ExecutionError A) (addr : Address) : exec A := λ s,
  (decode (default [] (read_bytes s addr)), s).

(** Write a balance, keeping zero absent. *)
Definition put_balance (m : gmap Address Balance) (a : Address) (v : Balance) : gmap Address Balance :=
  if bool_decide (v = 0%N) then delete a m else <[a := v]> m.

(** ** Protocol-owned credits and debits *)

Definition credit_unchecked (addr : Address) (amount : Balance) : exec unit :=
  if bool_decide (amount = 0%N) then mret tt
  else
    s ← gets id;
    new_balance ← of_outcome (ok_or (checked_add 128 (balance s addr) amount)
                               (DistributionOverflow addr));
    set_balances (<[addr := new_balance]> (balances s)).

Definition debit_unchecked (addr : Address) (amount : Balance) : exec unit :=
  if bool_decide (amount = 0%N) then mret tt
  else
    s ← gets id;
    let source := balance s addr in
    _ ← deny (bool_decide (source < amount)%N) (InsufficientBalance addr source amount);
    set_balances (put_balance (balances s) addr (source - amount)).

Definition transfer_internal (from to : Address) (amount : Balance) : exec unit :=
  if bool_decide (amount = 0%N) then mret tt
  else
    s ← gets id;
    let source := balance s from in
    _ ← deny (bool_decide (source < amount)%N) (InsufficientBalance from source amount);
    if bool_decide (from = to) then mret tt
    else
      new_dest ← of_outcome (ok_or (checked_add 128 (balance s to) amount)
                              (DistributionOverflow to));
      set_balances (<[to := new_dest]> (put_balance (balances s) from (source - amount))).

(** The staging loop: [base] is what an address holds before its first credit. *)
Fixpoint stage (base : Address → Balance) (credits : list (Address * Balance))
    (staged : gmap Address Balance) : outcome ExecutionError (gmap Address Balance) :=
  match credits with
  | [] => Ok staged
  | (to, amount) :: rest =>
      if bool_decide (amount = 0%N) then stage base rest staged
      else
        let b := match staged !! to with Some v => v | None => base to end in
        match checked_add 128 b amount with
        | None => Err (DistributionOverflow to)
        | Some v => stage base rest (<[to := v]> staged)
        end
  end.

Definition credit_many_atomic (credits : list (Address * Balance)) : exec unit :=
  s ← gets id;
  staged ← of_outcome (stage (balance s) credits ∅);
  set_balances (staged ∪ balances s).

(** The checked total of the amounts. *)
Fixpoint checked_total (from : Address) (credits : list (Address * Balance)) (total : Balance)
    : outcome ExecutionError Balance :=
  match credits with
  | [] => Ok total
  | (_, amount) :: rest =>
      match checked_add 128 total amount with
      | None => Err (DistributionOverflow from)
      | Some t => checked_total from rest t
      end
  end.

Definition drain_and_credit_atomic (from : Address) (credits : list (Address * Balance))
    : exec unit :=
  total ← of_outcome (checked_total from credits 0);
  if bool_decide (total = 0%N) then mret tt
  else
    s ← gets id;
    let source := balance s from in
    _ ← deny (bool_decide (source < total)%N) (InsufficientBalance from source total);
    staged ← of_outcome (stage (λ to, if bool_decide (to = from) then (source - total)%N
                                      else balance s to) credits ∅);
    let debited := match staged !! from with
                   | Some _ => balances s
                   | None => put_balance (balances s) from (source - total)
                   end in
    set_balances (staged ∪ debited).

(** A record decoded for reading: corruption reads as the default. *)
Definition peek {A} {C : StateCodec A} (s : InMemorySubstrate) (addr : Address) : A :=
  unwrap_or (codec_decode (default [] (read_bytes s addr))) codec_default.

Section substrate.
Context `{Blake3}.

(** ** Read accessors *)

Definition l2_registry (s : InMemorySubstrate) : L2State.L2Registry :=
  peek (C := L2State.codec) s reserved.l2_registry_address.
Definition l2_commit_count (s : InMemorySubstrate) : nat := size (L2State.state_roots (l2_registry s)).
Definition l2_state_root_record (s : InMemorySubstrate) (key : L2State.L2BatchKey)
    : option L2State.L2StateRootRecord := L2State.state_roots (l2_registry s) !! key.
Definition l2_aggregation_vk_hash (s : InMemorySubstrate) (chain : bytes) : bytes :=
  L2State.aggregation_vk_hash (l2_registry s) chain.
Definition l2_range_vk_commitment (s : InMemorySubstrate) (chain : bytes) : bytes :=
  L2State.range_vk_commitment (l2_registry s) chain.

Definition bridge_escrow_balance (s : InMemorySubstrate) : Balance :=
  balance s reserved.bridge_escrow_address.
Definition sequencer_bond_balance (s : InMemorySubstrate) : Balance :=
  balance s reserved.sequencer_bond_address.
Definition safety_bond_balance (s : InMemorySubstrate) : Balance :=
  balance s reserved.safety_bond_address.

Definition fund_sequencer_bond (amount : Balance) : exec unit :=
  credit_unchecked reserved.sequencer_bond_address amount.
Definition fund_safety_bond (amount : Balance) : exec unit :=
  credit_unchecked reserved.safety_bond_address amount.

Definition force_include_map (s : InMemorySubstrate) : gmap bytes ForceInclude.ForceIncludeObligation :=
  peek (C := ForceInclude.codec) s reserved.force_include_registry_address.
Definition force_include_obligation (s : InMemorySubstrate) (obligation_id : bytes)
    : option ForceInclude.ForceIncludeObligation := force_include_map s !! obligation_id.
Definition force_include_count (s : InMemorySubstrate) : nat := size (force_include_map s).

Definition asset_registry (s : InMemorySubstrate) : AssetRegistry.AssetRegistry :=
  peek (C := AssetRegistry.codec) s reserved.asset_registry_address.
Definition bridge_asset (s : InMemorySubstrate) (asset_id : bytes)
    : option AssetRegistry.AssetRecord := asset_registry s !! asset_id.
Definition bridge_asset_count (s : InMemorySubstrate) : nat := size (asset_registry s).

Definition ejection_map (s : InMemorySubstrate) : gmap bytes EjectRegistry.EjectionRecord :=
  peek (C := EjectRegistry.codec) s reserved.ejection_registry_address.
Definition sequencer_ejection (s : InMemorySubstrate) (obligation_id : bytes)
    : option EjectRegistry.EjectionRecord := ejection_map s !! obligation_id.
Definition sequencer_ejection_count (s : InMemorySubstrate) : nat := size (ejection_map s).

Definition nullifiers (s : InMemorySubstrate) : gset bytes :=
  peek (C := BurnNullifier.codec) s reserved.burn_nullifier_registry_address.
Definition burn_id_claimed (s : InMemorySubstrate) (burn_id : bytes) : bool :=
  bool_decide (burn_id ∈ nullifiers s).
Definition burn_nullifier_count (s : InMemorySubstrate) : nat := size (nullifiers s).

Definition equivocation_map (s : InMemorySubstrate)
    : gmap bytes EquivocationRegistry.EquivocationRecord :=
  peek (C := EquivocationRegistry.codec) s reserved.equivocation_registry_address.
Definition equivocation_record (s : InMemorySubstrate) (proof_hash : bytes)
    : option EquivocationRegistry.EquivocationRecord := equivocation_map s !! proof_hash.
Definition equivocation_count (s : InMemorySubstrate) : nat := size (equivocation_map s).

Definition authority_map (s : InMemorySubstrate) : gmap N AuthorityRegistry.AuthorityRecord :=
  peek (C := AuthorityRegistry.codec) s reserved.authority_registry_address.
Definition authority_record (s : InMemorySubstrate) (authority_id : N)
    : option AuthorityRegistry.AuthorityRecord := authority_map s !! authority_id.
Definition authority_count (s : InMemorySubstrate) : nat := size (authority_map s).
Definition validator_map (s : InMemorySubstrate) : gmap N ValidatorRegistry.ValidatorRecord :=
  peek (C := ValidatorRegistry.codec) s reserved.validator_registry_address.
Definition validator_record (s : InMemorySubstrate) (validator_id : N)
    : option ValidatorRegistry.ValidatorRecord := validator_map s !! validator_id.
Definition validator_count (s : InMemorySubstrate) : nat := size (validator_map s).
Definition authority_deposited_stake (s : InMemorySubstrate) (authority_id : N) : N :=
  match authority_record s authority_id with Some r => deposited_stake r | None => 0%N end.
Definition validator_deposited_stake (s : InMemorySubstrate) (validator_id : N) : N :=
  match validator_record s validator_id with Some r => deposited_stake r | None => 0%N end.

Definition last_minted_inflation_epoch (s : InMemorySubstrate) : N :=
  let b := default [] (read_bytes s reserved.inflation_registry_address) in
  if bool_decide (length b = 8) then be_value b else 0%N.

Definition delegation_map (s : InMemorySubstrate) : DelegationRegistry.DelegationMap :=
  peek (C := DelegationRegistry.codec) s reserved.validator_delegation_registry_address.
Definition delegation (s : InMemorySubstrate) (validator_id : N) (delegator : Address) : N :=
  default 0%N (delegation_map s !! (validator_id, delegator)).
Definition total_delegated_to_validator (s : InMemorySubstrate) (validator_id : N) : N :=
  wrapping_sum 64 (snd <$> filter (λ e, e.1.1 = validator_id) (btree_entries (delegation_map s))).

Definition last_distributed_rewards_epoch (s : InMemorySubstrate) (ring : RewardsRing) : N :=
  let b := default [] (read_bytes s reserved.rewards_distribution_registry_address) in
  if bool_decide (length b = 16) then
    match ring with
    | RewardsRing.Authority => be_value (take 8 b)
    | RewardsRing.Validator => be_value (drop 8 b)
    end
  else 0%N.

Definition assert_bridge_asset_active (asset_id : bytes) : exec unit :=
  s ← gets id;
  match bridge_asset s asset_id with
  | None => throw (BridgeAssetNotFound asset_id)
  | Some rec =>
      match AssetRegistry.status rec with
      | AssetStatus.Active => mret tt
      | status => throw (BridgeAssetNotActive asset_id status)
      end
  end.

(** ** The arms of [apply_intent] *)

Definition apply_transfer (from to : Address) (amount : Balance) : exec unit :=
  _ ← deny (reserved.is_reserved from) (ReservedAddressTransferDenied from);
  _ ← deny (reserved.is_reserved to) (ReservedAddressTransferDenied to);
  if bool_decide (amount = 0%N) then mret tt
  else
    s ← gets id;
    let source_balance := balance s from in
    _ ← deny (bool_decide (source_balance < amount)%N)
          (InsufficientBalance from source_balance amount);
    if bool_decide (from = to) then mret tt
    else
      new_dest ← of_outcome (ok_or (checked_add 128 (balance s to) amount) (BalanceOverflow to));
      set_balances (<[to := new_dest]> (put_balance (balances s) from (source_balance - amount))).

Definition apply_genesis_allocation (allocations : list (Address * Balance)) : exec unit :=
  height ← gets current_block_height;
  _ ← deny (bool_decide (height ≠ 0%N)) (GenesisAfterBootstrap height);
  credit_many_atomic allocations.

Definition apply_mint_inflation (epoch : N)
    (authority_share validator_share treasury_share : Balance) : exec unit :=
  let registry_addr := reserved.inflation_registry_address in
  s ← gets id;
  let existing := default [] (read_bytes s registry_addr) in
  last_epoch ← of_outcome
    (if bool_decide (existing = []) then Ok 0%N
     else if bool_decide (length existing = 8) then Ok (be_value existing)
     else Err (corrupt registry_addr "inflation registry size mismatch"));
  _ ← deny (bool_decide (epoch ≤ last_epoch)%N) (InflationEpochAlreadyMinted epoch last_epoch);
  _ ← credit_many_atomic
        [(reserved.authority_rewards_pool_address, authority_share);
         (reserved.validator_rewards_pool_address, validator_share);
         (reserved.treasury_address, treasury_share)];
  write_bytes_unchecked registry_addr (be_bytes 8 epoch).

(** The check that rejects the first reserved recipient. *)
Fixpoint deny_reserved (err : Address → ExecutionError) (l : list (Address * Balance)) : exec unit :=
  match l with
  | [] => mret tt
  | (a, _) :: rest => _ ← deny (reserved.is_reserved a) (err a); deny_reserved err rest
  end.

Definition apply_distribute_rewards (epoch : N) (ring : RewardsRing)
    (recipients : list (Address * Balance)) : exec unit :=
  let registry_addr := reserved.rewards_distribution_registry_address in
  s ← gets id;
  let existing := default [] (read_bytes s registry_addr) in
  lasts ← of_outcome
    (if bool_decide (existing = []) then Ok (0%N, 0%N)
     else if bool_decide (length existing = 16)
     then Ok (be_value (take 8 existing), be_value (drop 8 existing))
     else Err (corrupt registry_addr "rewards distribution registry size mismatch"));
  let last_ring := match ring with RewardsRing.Authority => lasts.1 | RewardsRing.Validator => lasts.2 end in
  _ ← deny (bool_decide (epoch ≤ last_ring)%N)
        (RewardsEpochAlreadyDistributed (RewardsRing.as_str ring) epoch last_ring);
  let pool_addr := match ring with
                   | RewardsRing.Authority => reserved.authority_rewards_pool_address
                   | RewardsRing.Validator => reserved.validator_rewards_pool_address
                   end in
  _ ← deny_reserved ReservedAddressTransferDenied recipients;
  _ ← drain_and_credit_atomic pool_addr recipients;
  write_bytes_unchecked registry_addr
    (match ring with
     | RewardsRing.Authority => be_bytes 8 epoch ++ be_bytes 8 lasts.2
     | RewardsRing.Validator => be_bytes 8 lasts.1 ++ be_bytes 8 epoch
     end).

(** [u64::try_from(amount)], then [checked_add] to a stake counter. *)
Definition add_stake (ring : string) (slot_id current : N) (amount : Balance) : exec N :=
  _ ← deny (bool_decide (width 64 ≤ amount)%N) (DepositedStakeOverflow ring slot_id);
  of_outcome (ok_or (checked_add 64 current amount) (DepositedStakeOverflow ring slot_id)).

Definition apply_delegate (from : Address) (validator_id : N) (amount : Balance) : exec unit :=
  if bool_decide (amount = 0%N) then mret tt
  else
    _ ← deny (reserved.is_reserved from) (ReservedAddressTransferDenied from);
    v_map ← load ValidatorRegistry.decode reserved.validator_registry_address;
    rec ← of_outcome (ok_or (v_map !! validator_id) (ValidatorNotFound validator_id));
    _ ← deny (bool_decide (status rec ≠ ValidatorStatus.Active))
          (ValidatorNotActive validator_id (status rec));
    _ ← deny (bool_decide (width 64 ≤ amount)%N) (DepositedStakeOverflow "delegation" validator_id);
    reg ← load DelegationRegistry.decode reserved.validator_delegation_registry_address;
    entry ← of_outcome (ok_or (checked_add 64 (default 0%N (reg !! (validator_id, from))) amount)
                          (DepositedStakeOverflow "delegation" validator_id));
    _ ← transfer_internal from reserved.validator_stake_pool_address amount;
    write_bytes_unchecked reserved.validator_delegation_registry_address
      (DelegationRegistry.encode (<[(validator_id, from) := entry]> reg)).

Definition apply_admit_authority (authority_id stake : N) (mldsa bls : bytes) : exec unit :=
  _ ← deny (bool_decide (MAX_MLDSA_PK_BYTES < N.of_nat (length mldsa))%N)
        (AuthorityFieldTooLong "mldsa_pk" (length mldsa) (N.to_nat MAX_MLDSA_PK_BYTES));
  _ ← deny (bool_decide (MAX_BLS_PK_BYTES < N.of_nat (length bls))%N)
        (AuthorityFieldTooLong "bls_pk" (length bls) (N.to_nat MAX_BLS_PK_BYTES));
  m ← load AuthorityRegistry.decode reserved.authority_registry_address;
  _ ← deny (bool_decide (is_Some (m !! authority_id))) (AuthoritySlotAlreadyOccupied authority_id);
  write_bytes_unchecked reserved.authority_registry_address
    (AuthorityRegistry.encode
       (<[authority_id := mk_ring mldsa bls stake 0 0 AuthorityStatus.Active]> m)).

Definition with_status {S} (r : RingRecord S) (st : S) : RingRecord S :=
  mk_ring (mldsa_public_key r) (bls_public_key r) (stake_suwappu r) (deposited_stake r)
    (exit_block_height r) st.
Definition with_exit {S} (r : RingRecord S) (height : N) : RingRecord S :=
  mk_ring (mldsa_public_key r) (bls_public_key r) (stake_suwappu r) (deposited_stake r)
    height (status r).
Definition with_deposit {S} (r : RingRecord S) (stake : N) : RingRecord S :=
  mk_ring (mldsa_public_key r) (bls_public_key r) (stake_suwappu r) stake
    (exit_block_height r) (status r).

Definition apply_exit_authority (authority_id : N) : exec unit :=
  height ← gets current_block_height;
  m ← load AuthorityRegistry.decode reserved.authority_registry_address;
  rec ← of_outcome (ok_or (m !! authority_id) (AuthorityNotFound authority_id));
  _ ← deny (bool_decide (status rec ≠ AuthorityStatus.Active))
        (AuthorityNotActive authority_id (status rec));
  write_bytes_unchecked reserved.authority_registry_address
    (AuthorityRegistry.encode
       (<[authority_id := with_exit (with_status rec AuthorityStatus.Exiting) height]> m)).

(** The waterfall of an ejection: 70% insurance, the rest to the treasury. *)
Definition drain_waterfall (pool_addr : Address) (drained : Balance) : exec unit :=
  if bool_decide (0 < drained)%N then
    let insurance_share := (wrap 128 (drained * 70) / 100)%N in
    let treasury_share := (drained - insurance_share)%N in
    drain_and_credit_atomic pool_addr
      [(reserved.insurance_pool_address, insurance_share);
       (reserved.treasury_address, treasury_share)]
  else mret tt.

Definition apply_eject_authority (authority_id : N) : exec unit :=
  m ← load AuthorityRegistry.decode reserved.authority_registry_address;
  rec ← of_outcome (ok_or (m !! authority_id) (AuthorityNotFound authority_id));
  s ← gets id;
  let pool_addr := reserved.authority_stake_pool_address in
  let drained := N.min (deposited_stake rec) (balance s pool_addr) in
  _ ← drain_waterfall pool_addr drained;
  write_bytes_unchecked reserved.authority_registry_address
    (AuthorityRegistry.encode
       (<[authority_id := with_status (with_deposit rec 0) AuthorityStatus.Ejected]> m)).

Definition apply_admit_validator (validator_id stake : N) (mldsa bls : bytes) : exec unit :=
  _ ← deny (bool_decide (MAX_MLDSA_PK_BYTES < N.of_nat (length mldsa))%N)
        (ValidatorFieldTooLong "mldsa_pk" (length mldsa) (N.to_nat MAX_MLDSA_PK_BYTES));
  _ ← deny (bool_decide (MAX_BLS_PK_BYTES < N.of_nat (length bls))%N)
        (ValidatorFieldTooLong "bls_pk" (length bls) (N.to_nat MAX_BLS_PK_BYTES));
  m ← load ValidatorRegistry.decode reserved.validator_registry_address;
  _ ← deny (bool_decide (is_Some (m !! validator_id))) (ValidatorSlotAlreadyOccupied validator_id);
  write_bytes_unchecked reserved.validator_registry_address
    (ValidatorRegistry.encode
       (<[validator_id := mk_ring mldsa bls stake 0 0 ValidatorStatus.Active]> m)).

Definition apply_exit_validator (validator_id : N) : exec unit :=
  height ← gets current_block_height;
  m ← load ValidatorRegistry.decode reserved.validator_registry_address;
  rec ← of_outcome (ok_or (m !! validator_id) (ValidatorNotFound validator_id));
  _ ← deny (bool_decide (status rec ≠ ValidatorStatus.Active))
        (ValidatorNotActive validator_id (status rec));
  write_bytes_unchecked reserved.validator_registry_address
    (ValidatorRegistry.encode
       (<[validator_id := with_exit (with_status rec ValidatorStatus.Exiting) height]> m)).

Definition apply_eject_validator (validator_id : N) : exec unit :=
  m ← load ValidatorRegistry.decode reserved.validator_registry_address;
  rec ← of_outcome (ok_or (m !! validator_id) (ValidatorNotFound validator_id));
  s ← gets id;
  let pool_addr := reserved.validator_stake_pool_address in
  let drained := N.min (deposited_stake rec) (balance s pool_addr) in
  _ ← drain_waterfall pool_addr drained;
  write_bytes_unchecked reserved.validator_registry_address
    (ValidatorRegistry.encode
       (<[validator_id := with_status (with_deposit rec 0) ValidatorStatus.Ejected]> m)).

(** [&bytes[off..off + n]], a panic when out of range. *)
Definition subslice (b : bytes) (off n : nat) : outcome ExecutionError bytes :=
  if bool_decide (off + n ≤ length b) then Ok (take n (drop off b)) else Panic.

Definition apply_commit_l2_state_root (batch_id : N)
    (new_state_root proof_bytes public_inputs vk_hash : bytes) : exec unit :=
  _ ← of_outcome (match l2_verifier.verify_l2_batch proof_bytes public_inputs vk_hash with
                  | Ok _ => Ok tt
                  | Err e => Err (L2VerifierRejected (l2_verifier.to_string e))
                  | Panic => Panic
                  end);
  registry ← load L2State.decode reserved.l2_registry_address;
  anchor ← of_outcome (subslice public_inputs l2_verifier.L1_ANCHOR_HEIGHT_OFFSET 8);
  l2_chain_id_hash ← of_outcome (subslice public_inputs l2_verifier.L2_CHAIN_ID_HASH_OFFSET 32);
  da_commitment ← of_outcome (subslice public_inputs l2_verifier.DA_COMMITMENT_OFFSET 32);
  let expected_vk := L2State.aggregation_vk_hash registry l2_chain_id_hash in
  _ ← deny (bool_decide (expected_vk ≠ vk_hash)) (L2VkPinMismatch expected_vk vk_hash);
  let record := L2State.mk_root new_state_root (be_value anchor) vk_hash da_commitment in
  write_bytes_unchecked reserved.l2_registry_address
    (L2State.encode (L2State.mk (L2State.chain_vks registry)
       (<[(l2_chain_id_hash, batch_id) := record]> (L2State.state_roots registry)))).

Definition apply_set_l2_verifying_key (chain_id_hash new_aggregation_vk new_range_commitment : bytes)
    : exec unit :=
  _ ← deny (bool_decide (new_aggregation_vk = L2State.zeros32 ∧
                         new_range_commitment = L2State.zeros32)) SetL2VkAllZeros;
  registry ← load L2State.decode reserved.l2_registry_address;
  write_bytes_unchecked reserved.l2_registry_address
    (L2State.encode
       (L2State.set_chain_vks registry chain_id_hash new_aggregation_vk new_range_commitment)).

Definition check_asset (asset_id : option bytes) : exec unit :=
  match asset_id with Some id => assert_bridge_asset_active id | None => mret tt end.

Definition apply_l1_lock (user_address : Address) (amount : Balance) (asset_id : option bytes)
    : exec unit :=
  if bool_decide (amount = 0%N) then mret tt
  else
    _ ← check_asset asset_id;
    _ ← debit_unchecked user_address amount;
    credit_unchecked reserved.bridge_escrow_address amount.

Definition apply_l2_burn_proven (batch_id : N) (recipient : Address) (amount : Balance)
    (merkle_path : bytes) (asset_id : option bytes) (l2_chain_id_hash : bytes) : exec unit :=
  if bool_decide (amount = 0%N) then mret tt
  else
    _ ← deny (reserved.is_reserved recipient) (ReservedAddressTransferDenied recipient);
    _ ← check_asset asset_id;
    s ← gets id;
    _ ← deny (bool_decide (l2_state_root_record s (l2_chain_id_hash, batch_id) = None))
          (L2BatchNotCommitted l2_chain_id_hash batch_id);
    let burn := BurnNullifier.burn_id l2_chain_id_hash batch_id recipient amount merkle_path
                  asset_id in
    nf_set ← load BurnNullifier.decode reserved.burn_nullifier_registry_address;
    _ ← deny (bool_decide (burn ∈ nf_set)) (L2BurnAlreadyClaimed burn);
    _ ← write_bytes_unchecked reserved.burn_nullifier_registry_address
          (BurnNullifier.encode ({[burn]} ∪ nf_set));
    _ ← debit_unchecked reserved.bridge_escrow_address amount;
    credit_unchecked recipient amount.

Definition apply_l2_force_include (tx : bytes) (deadline : N) (submitter : Address) (nonce : N)
    : exec unit :=
  let ob_id := ForceInclude.obligation_id tx deadline submitter nonce in
  m ← load ForceInclude.decode_map reserved.force_include_registry_address;
  _ ← deny (bool_decide (is_Some (m !! ob_id))) (ForceIncludeAlreadyRegistered ob_id);
  write_bytes_unchecked reserved.force_include_registry_address
    (ForceInclude.encode_map
       (<[ob_id := ForceInclude.mk (ForceInclude.tx_hash tx) deadline submitter nonce
                     ObligationStatus.Pending]> m)).

Definition with_ob_status (ob : ForceInclude.ForceIncludeObligation) (st : ObligationStatus)
    : ForceInclude.ForceIncludeObligation :=
  ForceInclude.mk (ForceInclude.tx_hash_of ob) (ForceInclude.deadline_l1_height ob)
    (ForceInclude.submitter ob) (ForceInclude.l2_nonce ob) st.

(** Look an obligation up and require it to be pending. *)
Definition pending_obligation (m : gmap bytes ForceInclude.ForceIncludeObligation) (ob_id : bytes)
    : exec ForceInclude.ForceIncludeObligation :=
  ob ← of_outcome (ok_or (m !! ob_id) (ForceIncludeNotFound ob_id));
  _ ← deny (bool_decide (ForceInclude.status ob ≠ ObligationStatus.Pending))
        (ForceIncludeNotPending ob_id (ForceInclude.status ob));
  mret ob.

(** Pay [bounty] from the treasury as far as it reaches. *)
Definition pay_bounty (to : Address) (bounty : Balance) : exec unit :=
  if bool_decide (0 < bounty)%N then
    let treasury_addr := reserved.treasury_address in
    s ← gets id;
    let treasury_balance := balance s treasury_addr in
    let paid := if bool_decide (bounty < treasury_balance)%N then bounty else treasury_balance in
    if bool_decide (0 < paid)%N then
      _ ← debit_unchecked treasury_addr paid;
      credit_unchecked to paid
    else mret tt
  else mret tt.

(** Debit a bond and split it 70/30 between insurance and treasury. *)
Definition slash_bond (bond_addr : Address) (slash_amount : Balance) : exec unit :=
  _ ← debit_unchecked bond_addr slash_amount;
  let insurance_share := (wrap 128 (slash_amount * 70) / 100)%N in
  let treasury_share := (slash_amount - insurance_share)%N in
  _ ← credit_unchecked reserved.insurance_pool_address insurance_share;
  credit_unchecked reserved.treasury_address treasury_share.

Definition apply_slash_missed_force_include (intent_hash : bytes) : exec unit :=
  m ← load ForceInclude.decode_map reserved.force_include_registry_address;
  ob ← pending_obligation m intent_hash;
  let submitter := ForceInclude.submitter ob in
  _ ← write_bytes_unchecked reserved.force_include_registry_address
        (ForceInclude.encode_map (<[intent_hash := with_ob_status ob ObligationStatus.Slashed]> m));
  let bond_addr := reserved.sequencer_bond_address in
  s ← gets id;
  let bond_balance := balance s bond_addr in
  if bool_decide (bond_balance = 0%N) then mret tt
  else
    let slash_amount := liveness_slash_amount bond_balance in
    if bool_decide (slash_amount = 0%N) then mret tt
    else
      _ ← slash_bond bond_addr slash_amount;
      if reserved.is_reserved submitter then mret tt
      else pay_bounty submitter (snitch_bounty_amount slash_amount).

Definition apply_slash_safety (kind : OffenseKind) (intent_hash : bytes) : exec unit :=
  m ← load EquivocationRegistry.decode reserved.equivocation_registry_address;
  _ ← match m !! intent_hash with
      | Some prior => throw (EquivocationAlreadyRecorded intent_hash
                               (EquivocationRegistry.kind prior))
      | None => mret tt
      end;
  _ ← write_bytes_unchecked reserved.equivocation_registry_address
        (EquivocationRegistry.encode (<[intent_hash := EquivocationRegistry.mk kind 0]> m));
  let bond_addr := reserved.safety_bond_address in
  s ← gets id;
  let bond_balance := balance s bond_addr in
  if bool_decide (bond_balance = 0%N) then mret tt
  else slash_bond bond_addr bond_balance.

Definition apply_mark_force_include_honored (ob_id : bytes) : exec unit :=
  m ← load ForceInclude.decode_map reserved.force_include_registry_address;
  ob ← pending_obligation m ob_id;
  write_bytes_unchecked reserved.force_include_registry_address
    (ForceInclude.encode_map (<[ob_id := with_ob_status ob ObligationStatus.Honored]> m)).

Definition apply_eject_sequencer (ob_id : bytes) (ejector : Address) : exec unit :=
  _ ← deny (reserved.is_reserved ejector) (ReservedAddressTransferDenied ejector);
  fi_map ← load ForceInclude.decode_map reserved.force_include_registry_address;
  ob ← of_outcome (ok_or (fi_map !! ob_id) (ForceIncludeNotFound ob_id));
  _ ← deny (bool_decide (ForceInclude.status ob ≠ ObligationStatus.Slashed))
        (ForceIncludeNotSlashed ob_id (ForceInclude.status ob));
  ej_map ← load EjectRegistry.decode reserved.ejection_registry_address;
  _ ← deny (bool_decide (is_Some (ej_map !! ob_id))) (SequencerEjectionAlreadyRecorded ob_id);
  _ ← write_bytes_unchecked reserved.ejection_registry_address
        (EjectRegistry.encode (<[ob_id := EjectRegistry.mk ejector]> ej_map));
  s ← gets id;
  let bond_balance := balance s reserved.sequencer_bond_address in
  let reference_slash := liveness_slash_amount bond_balance in
  pay_bounty ejector (snitch_bounty_amount reference_slash).

(** The two bond deposits differ in the bond account. *)
Definition apply_deposit_bond (bond_addr : Address) (from : Address) (amount : Balance) : exec unit :=
  if bool_decide (amount = 0%N) then mret tt
  else
    _ ← deny (reserved.is_reserved from) (ReservedAddressTransferDenied from);
    _ ← debit_unchecked from amount;
    credit_unchecked bond_addr amount.

Definition apply_deposit_authority_stake (from : Address) (authority_id : N) (amount : Balance)
    : exec unit :=
  if bool_decide (amount = 0%N) then mret tt
  else
    _ ← deny (reserved.is_reserved from) (ReservedAddressTransferDenied from);
    m ← load AuthorityRegistry.decode reserved.authority_registry_address;
    rec ← of_outcome (ok_or (m !! authority_id) (AuthorityNotFound authority_id));
    _ ← deny (bool_decide (status rec ≠ AuthorityStatus.Active))
          (AuthorityNotActive authority_id (status rec));
    stake ← add_stake "authority" authority_id (deposited_stake rec) amount;
    _ ← transfer_internal from reserved.authority_stake_pool_address amount;
    write_bytes_unchecked reserved.authority_registry_address
      (AuthorityRegistry.encode (<[authority_id := with_deposit rec stake]> m)).

Definition apply_deposit_validator_stake (from : Address) (validator_id : N) (amount : Balance)
    : exec unit :=
  if bool_decide (amount = 0%N) then mret tt
  else
    _ ← deny (reserved.is_reserved from) (ReservedAddressTransferDenied from);
    m ← load ValidatorRegistry.decode reserved.validator_registry_address;
    rec ← of_outcome (ok_or (m !! validator_id) (ValidatorNotFound validator_id));
    _ ← deny (bool_decide (status rec ≠ ValidatorStatus.Active))
          (ValidatorNotActive validator_id (status rec));
    stake ← add_stake "validator" validator_id (deposited_stake rec) amount;
    _ ← transfer_internal from reserved.validator_stake_pool_address amount;
    write_bytes_unchecked reserved.validator_registry_address
      (ValidatorRegistry.encode (<[validator_id := with_deposit rec stake]> m)).

Definition authority_status_str (s : AuthorityStatus) : string :=
  match s with
  | AuthorityStatus.Active => "Active"
  | AuthorityStatus.Exiting => "Exiting"
  | AuthorityStatus.Ejected => "Ejected"
  end.
Definition validator_status_str (s : ValidatorStatus) : string :=
  match s with
  | ValidatorStatus.Active => "Active"
  | ValidatorStatus.Exiting => "Exiting"
  | ValidatorStatus.Ejected => "Ejected"
  end.

(** The cooldown and deposit checks of a withdrawal, returning the new counter. *)
Definition check_withdrawal (ring : string) (slot_id height exit_height deposited : N)
    (amount : Balance) : exec N :=
  let required := saturating_add 64 exit_height EXIT_COOLDOWN_BLOCKS in
  _ ← deny (bool_decide (height < required)%N) (ExitCooldownNotElapsed ring slot_id required height);
  _ ← deny (bool_decide (deposited < amount)%N) (WithdrawalExceedsDeposit ring slot_id amount deposited);
  mret (deposited - amount)%N.

Definition apply_withdraw_authority_stake (to : Address) (authority_id : N) (amount : Balance)
    : exec unit :=
  height ← gets current_block_height;
  if bool_decide (amount = 0%N) then mret tt
  else
    _ ← deny (reserved.is_reserved to) (ReservedAddressTransferDenied to);
    m ← load AuthorityRegistry.decode reserved.authority_registry_address;
    rec ← of_outcome (ok_or (m !! authority_id) (AuthorityNotFound authority_id));
    _ ← deny (bool_decide (status rec ≠ AuthorityStatus.Exiting))
          (SlotNotExiting "authority" authority_id (authority_status_str (status rec)));
    stake ← check_withdrawal "authority" authority_id height (exit_block_height rec)
              (deposited_stake rec) amount;
    _ ← transfer_internal reserved.authority_stake_pool_address to amount;
    write_bytes_unchecked reserved.authority_registry_address
      (AuthorityRegistry.encode (<[authority_id := with_deposit rec stake]> m)).

Definition apply_withdraw_validator_stake (to : Address) (validator_id : N) (amount : Balance)
    : exec unit :=
  height ← gets current_block_height;
  if bool_decide (amount = 0%N) then mret tt
  else
    _ ← deny (reserved.is_reserved to) (ReservedAddressTransferDenied to);
    m ← load ValidatorRegistry.decode reserved.validator_registry_address;
    rec ← of_outcome (ok_or (m !! validator_id) (ValidatorNotFound validator_id));
    _ ← deny (bool_decide (status rec ≠ ValidatorStatus.Exiting))
          (SlotNotExiting "validator" validator_id (validator_status_str (status rec)));
    stake ← check_withdrawal "validator" validator_id height (exit_block_height rec)
              (deposited_stake rec) amount;
    _ ← transfer_internal reserved.validator_stake_pool_address to amount;
    write_bytes_unchecked reserved.validator_registry_address
      (ValidatorRegistry.encode (<[validator_id := with_deposit rec stake]> m)).

(** [DisburseTreasury] and [ClaimInsurance] differ in the pool. *)
Definition apply_pool_payout (pool : Address) (recipient : Address) (amount : Balance) : exec unit :=
  if bool_decide (amount = 0%N) then mret tt
  else
    _ ← deny (reserved.is_reserved recipient) (ReservedAddressTransferDenied recipient);
    _ ← debit_unchecked pool amount;
    credit_unchecked recipient amount.

Fixpoint credit_all (l : list (Address * Balance)) : exec unit :=
  match l with
  | [] => mret tt
  | (a, share) :: rest => _ ← credit_unchecked a share; credit_all rest
  end.

Definition apply_distribute_slashed_funds (counterparties : list (Address * Balance))
    (insurance_share treasury_share : Balance) : exec unit :=
  _ ← deny_reserved ReservedAddressInCounterparties counterparties;
  _ ← credit_all counterparties;
  _ ← credit_unchecked reserved.insurance_pool_address insurance_share;
  credit_unchecked reserved.treasury_address treasury_share.

Definition apply_add_bridge_asset (chain : N) (contract : bytes) (dec : byte) (nm sym : bytes)
    : exec unit :=
  let too_long field (b : bytes) max := BridgeAssetFieldTooLong field (length b) (N.to_nat max) in
  _ ← deny (bool_decide (AssetRegistry.MAX_SOURCE_CONTRACT_BYTES < N.of_nat (length contract))%N)
        (too_long "source_contract"%string contract AssetRegistry.MAX_SOURCE_CONTRACT_BYTES);
  _ ← deny (bool_decide (AssetRegistry.MAX_ASSET_NAME_BYTES < N.of_nat (length nm))%N)
        (too_long "name"%string nm AssetRegistry.MAX_ASSET_NAME_BYTES);
  _ ← deny (bool_decide (AssetRegistry.MAX_ASSET_SYMBOL_BYTES < N.of_nat (length sym))%N)
        (too_long "symbol"%string sym AssetRegistry.MAX_ASSET_SYMBOL_BYTES);
  let aid := AssetRegistry.asset_id chain contract in
  m ← load AssetRegistry.decode reserved.asset_registry_address;
  _ ← deny (bool_decide (is_Some (m !! aid))) (BridgeAssetAlreadyRegistered aid);
  write_bytes_unchecked reserved.asset_registry_address
    (AssetRegistry.encode
       (<[aid := AssetRegistry.mk chain contract dec nm sym AssetStatus.Active]> m)).

Definition set_asset_status (asset_id : bytes) (st : AssetStatus) : exec unit :=
  m ← load AssetRegistry.decode reserved.asset_registry_address;
  rec ← of_outcome (ok_or (m !! asset_id) (BridgeAssetNotFound asset_id));
  write_bytes_unchecked reserved.asset_registry_address
    (AssetRegistry.encode
       (<[asset_id := AssetRegistry.mk (AssetRegistry.source_chain rec)
                        (AssetRegistry.source_contract rec) (AssetRegistry.decimals rec)
                        (AssetRegistry.name rec) (AssetRegistry.symbol rec) st]> m)).

Definition apply_intent (intent : Intent) : exec unit :=
  match intent with
  | Transfer from to amount => apply_transfer from to amount
  | GenesisAllocation allocations => apply_genesis_allocation allocations
  | MintInflation epoch a v t => apply_mint_inflation epoch a v t
  | DistributeRewards epoch ring recipients => apply_distribute_rewards epoch ring recipients
  | Delegate from validator_id amount => apply_delegate from validator_id amount
  | AdmitAuthority i stake mldsa bls => apply_admit_authority i stake mldsa bls
  | ExitAuthority i => apply_exit_authority i
  | EjectAuthority i _ => apply_eject_authority i
  | AdmitValidator i stake mldsa bls => apply_admit_validator i stake mldsa bls
  | ExitValidator i => apply_exit_validator i
  | EjectValidator i _ => apply_eject_validator i
  | CommitL2StateRoot b root proof inputs vk => apply_commit_l2_state_root b root proof inputs vk
  | SetL2VerifyingKey chain agg range => apply_set_l2_verifying_key chain agg range
  | L1Lock user _ amount asset_id => apply_l1_lock user amount asset_id
  | L2BurnProven b recipient amount path asset_id chain =>
      apply_l2_burn_proven b recipient amount path asset_id chain
  | L2ForceInclude tx deadline submitter nonce => apply_l2_force_include tx deadline submitter nonce
  | SlashSequencer SlashReason.MissedForceInclude h => apply_slash_missed_force_include h
  | SlashSequencer SlashReason.Equivocation h => apply_slash_safety OffenseKind.Equivocation h
  | SlashSequencer SlashReason.InvalidBatch h => apply_slash_safety OffenseKind.InvalidBatch h
  | SlashSequencer SlashReason.Downtime _ => mret tt
  | MarkForceIncludeHonored ob_id => apply_mark_force_include_honored ob_id
  | EjectSequencer ob_id ejector => apply_eject_sequencer ob_id ejector
  | DepositSequencerBond from amount => apply_deposit_bond reserved.sequencer_bond_address from amount
  | DepositSafetyBond from amount => apply_deposit_bond reserved.safety_bond_address from amount
  | DepositAuthorityStake from i amount => apply_deposit_authority_stake from i amount
  | DepositValidatorStake from i amount => apply_deposit_validator_stake from i amount
  | WithdrawAuthorityStake to i amount => apply_withdraw_authority_stake to i amount
  | WithdrawValidatorStake to i amount => apply_withdraw_validator_stake to i amount
  | DisburseTreasury recipient amount _ => apply_pool_payout reserved.treasury_address recipient amount
  | ClaimInsurance claimant amount _ => apply_pool_payout reserved.insurance_pool_address claimant amount
  | PostL2DA _ _ => mret tt
  | DistributeSlashedFunds _ cs insurance treasury => apply_distribute_slashed_funds cs insurance treasury
  | AddBridgeAsset chain contract dec nm sym => apply_add_bridge_asset chain contract dec nm sym
  | PauseBridgeAsset aid => set_asset_status aid AssetStatus.Paused
  | RemoveBridgeAsset aid => set_asset_status aid AssetStatus.Removed
  end.

Definition pin_l2_verifying_key_for_chain (chain agg range : bytes) : exec unit :=
  apply_intent (SetL2VerifyingKey chain agg range).
Definition pin_l2_verifying_key (agg range : bytes) : exec unit :=
  pin_l2_verifying_key_for_chain L2State.zeros32 agg range.

(** ** The canonical state root *)

Definition balances_preimage (l : list (Address * Balance)) : bytes :=
  tag "SUWAPPU-BALANCES-V1" ++ mjoin ((λ e, e.1 ++ be_bytes 16 e.2) <$> l).
Definition bytes_preimage (l : list (Address * bytes)) : bytes :=
  tag "SUWAPPU-BYTES-STATE-V1"
  ++ mjoin ((λ e, e.1 ++ be_bytes 4 (wrap 32 (N.of_nat (length e.2))) ++ e.2) <$> l).

Definition compute_state_root_v2 (bals : list (Address * Balance)) (bs : list (Address * bytes))
    : bytes :=
  blake3 (tag "SUWAPPU-STATE-ROOT-V2" ++ blake3 (balances_preimage bals)
          ++ blake3 (bytes_preimage bs)).

Definition state_root (s : InMemorySubstrate) : bytes :=
  compute_state_root_v2 (btree_entries (balances s)) (btree_entries (bytes_state s)).
End substrate.
