(* ===== verification/LedgerSpec.v ===== *)
(** * The abstract ledger

    What [apply_intent] promises, stated without byte records, encodings or
    execution order: an intent is accepted or rejected as a whole by a guard on
    the holdings and the decoded registries, and its effect is a double-entry
    posting (credits and debits) plus at most one registry update.
    [Refinement] proves that [Substrate.apply_intent] implements it. *)

From Stdlib Require Import Strings.String.
From S2P Require Import Prelude Crypto ExecTypes Codec Registries Substrate.

(** ** Postings *)

Abbreviation posting := (list (Address * Balance)) (only parsing).

Definition total (l : posting) : N := sum_N l.*2.
Definition amount_at (l : posting) (a : Address) : N := total (filter (λ e, e.1 = a) l).

(** The longest prefix of the credits that no account's 128-bit balance overflows. *)
Fixpoint credited_prefix (bal : Address → Balance) (done todo : posting) : bool * posting :=
  match todo with
  | [] => (true, done)
  | (a, n) :: rest =>
      if decide (bal a + amount_at done a + n < width 128)%N
      then credited_prefix bal (done ++ [(a, n)]) rest else (false, done)
  end.
Definition all_fit (bal : Address → Balance) (l : posting) : bool := (credited_prefix bal [] l).1.

(** ** Decoded registries *)

Record Registries := mk_registries {
  authorities : gmap N AuthorityRegistry.AuthorityRecord;
  validators : gmap N ValidatorRegistry.ValidatorRecord;
  delegations : DelegationRegistry.DelegationMap;
  obligations : gmap bytes ForceInclude.ForceIncludeObligation;
  ejections : gmap bytes EjectRegistry.EjectionRecord;
  burn_nullifiers : gset bytes;
  offenses : gmap bytes EquivocationRegistry.EquivocationRecord;
  assets : AssetRegistry.AssetRegistry;
  l2 : L2State.L2Registry;
  inflation_epoch : N;
  rewards_epochs : N * N;
}.

(** One registry's new contents. *)
Inductive update :=
| Keep
| SetAuthorities (m : gmap N AuthorityRegistry.AuthorityRecord)
| SetValidators (m : gmap N ValidatorRegistry.ValidatorRecord)
| SetDelegations (m : DelegationRegistry.DelegationMap)
| SetObligations (m : gmap bytes ForceInclude.ForceIncludeObligation)
| SetEjections (m : gmap bytes EjectRegistry.EjectionRecord)
| SetNullifiers (x : gset bytes)
| SetOffenses (m : gmap bytes EquivocationRegistry.EquivocationRecord)
| SetAssets (m : AssetRegistry.AssetRegistry)
| SetL2 (r : L2State.L2Registry)
| SetInflation (epoch : N)
| SetRewards (epochs : N * N).

Definition updated (u : update) (r : Registries) : Registries :=
  let '(mk_registries au va de ob ej nu ofs ass l inf rew) := r in
  match u with
  | Keep => r
  | SetAuthorities m => mk_registries m va de ob ej nu ofs ass l inf rew
  | SetValidators m => mk_registries au m de ob ej nu ofs ass l inf rew
  | SetDelegations m => mk_registries au va m ob ej nu ofs ass l inf rew
  | SetObligations m => mk_registries au va de m ej nu ofs ass l inf rew
  | SetEjections m => mk_registries au va de ob m nu ofs ass l inf rew
  | SetNullifiers x => mk_registries au va de ob ej x ofs ass l inf rew
  | SetOffenses m => mk_registries au va de ob ej nu m ass l inf rew
  | SetAssets m => mk_registries au va de ob ej nu ofs m l inf rew
  | SetL2 x => mk_registries au va de ob ej nu ofs ass x inf rew
  | SetInflation e => mk_registries au va de ob ej nu ofs ass l e rew
  | SetRewards p => mk_registries au va de ob ej nu ofs ass l inf p
  end.

(** ** Effects and verdicts *)

Record effect := mk_effect { credits : posting; debits : posting; writes : update }.
Record verdict := mk_verdict { accepted : bool; performed : effect }.

Definition nothing : effect := mk_effect [] [] Keep.
Definition accept (e : effect) : verdict := mk_verdict true e.
Definition reject_as (e : effect) : verdict := mk_verdict false e.
Definition reject : verdict := reject_as nothing.
Definition when (P : Prop) `{Decision P} (v : verdict) : verdict := if decide P then v else reject.
Definition found {A} (o : option A) (k : A → verdict) : verdict :=
  match o with Some a => k a | None => reject end.
Definition unless_zero (n : Balance) (v : verdict) : verdict :=
  if decide (n = 0%N) then accept nothing else v.

Definition only (u : update) : effect := mk_effect [] [] u.
Definition move (from to : Address) (n : Balance) (u : update) : effect :=
  mk_effect [(to, n)] [(from, n)] u.

(** ** The guard and effect of each intent *)

Section spec.
Context `{Blake3}.
Implicit Types (bal : Address → Balance) (r : Registries).

Definition user (a : Address) : Prop := reserved.is_reserved a = false.

(** 70% to the insurance pool, the rest to the treasury. *)
Definition insurance_cut (d : Balance) : Balance := (wrap 128 (d * 70) / 100)%N.
Definition waterfall (d : Balance) : posting :=
  [(reserved.insurance_pool_address, insurance_cut d);
   (reserved.treasury_address, (d - insurance_cut d)%N)].

Definition asset_active r (asset_id : option bytes) : Prop :=
  match asset_id with
  | None => True
  | Some id => AssetRegistry.status <$> assets r !! id = Some AssetStatus.Active
  end.
#[global] Instance asset_active_dec r a : Decision (asset_active r a).
Proof. unfold asset_active. destruct a; apply _. Defined.

Definition spec_rewards bal r epoch ring l : verdict :=
  let '(last, pool, next) :=
    match ring with
    | RewardsRing.Authority => ((rewards_epochs r).1, reserved.authority_rewards_pool_address,
                                 (epoch, (rewards_epochs r).2))
    | RewardsRing.Validator => ((rewards_epochs r).2, reserved.validator_rewards_pool_address,
                                 ((rewards_epochs r).1, epoch))
    end in
  when ((last < epoch)%N ∧ Forall (λ e, user e.1) l ∧ (total l ≤ bal pool)%N)
    (accept (mk_effect l [(pool, total l)] (SetRewards next))).

Definition spec_delegate bal r from v n : verdict :=
  unless_zero n (found (validators r !! v) (λ rec,
    let stake := (default 0%N (delegations r !! (v, from)) + n)%N in
    when (user from ∧ status rec = ValidatorStatus.Active ∧ (stake < width 64)%N ∧ (n ≤ bal from)%N)
      (accept (move from reserved.validator_stake_pool_address n
                 (SetDelegations (<[(v, from) := stake]> (delegations r))))))).

(** The two rings share their slot operations. *)
Section ring.
Context {S : Type} `{EqDecision S} (active exiting ejected : S).
Context (m : gmap N (RingRecord S)) (upd : gmap N (RingRecord S) → update) (pool : Address).

Definition spec_admit id stake (mldsa bls : bytes) : verdict :=
  when ((N.of_nat (length mldsa) ≤ MAX_MLDSA_PK_BYTES)%N ∧
        (N.of_nat (length bls) ≤ MAX_BLS_PK_BYTES)%N ∧ m !! id = None)
    (accept (only (upd (<[id := mk_ring mldsa bls stake 0 0 active]> m)))).

Definition spec_exit (height id : N) : verdict :=
  found (m !! id) (λ rec, when (status rec = active)
    (accept (only (upd (<[id := with_exit (with_status rec exiting) height]> m))))).

Definition spec_eject bal id : verdict :=
  found (m !! id) (λ rec,
    let d := N.min (deposited_stake rec) (bal pool) in
    accept (mk_effect (waterfall d) [(pool, d)]
              (upd (<[id := with_status (with_deposit rec 0) ejected]> m)))).

Definition spec_deposit bal from id n : verdict :=
  unless_zero n (found (m !! id) (λ rec,
    let stake := (deposited_stake rec + n)%N in
    when (user from ∧ status rec = active ∧ (stake < width 64)%N ∧ (n ≤ bal from)%N)
      (accept (move from pool n (upd (<[id := with_deposit rec stake]> m)))))).

Definition spec_withdraw bal (height : N) to id n : verdict :=
  unless_zero n (found (m !! id) (λ rec,
    when (user to ∧ status rec = exiting ∧
          (saturating_add 64 (exit_block_height rec) EXIT_COOLDOWN_BLOCKS ≤ height)%N ∧
          (n ≤ deposited_stake rec)%N ∧ (n ≤ bal pool)%N)
      (accept (move pool to n (upd (<[id := with_deposit rec (deposited_stake rec - n)%N]> m)))))).
End ring.

Definition spec_commit r batch root (proof inputs : bytes) vk : verdict :=
  let at_ off n := take n (drop off inputs) in
  let chain := at_ l2_verifier.L2_CHAIN_ID_HASH_OFFSET 32 in
  when (length proof = l2_verifier.SP1_GROTH16_BN254_PROOF_BYTES ∧
        length inputs = l2_verifier.L2_PUBLIC_INPUTS_BYTES ∧ vk ≠ l2_verifier.zeros 32 ∧
        L2State.aggregation_vk_hash (l2 r) chain = vk)
    (accept (only (SetL2 (L2State.mk (L2State.chain_vks (l2 r))
       (<[(chain, batch) := L2State.mk_root root (be_value (at_ l2_verifier.L1_ANCHOR_HEIGHT_OFFSET 8))
                              vk (at_ l2_verifier.DA_COMMITMENT_OFFSET 32)]>
          (L2State.state_roots (l2 r))))))).

(** A rejected payout for lack of escrow has still consumed the claim. *)
Definition spec_burn bal r batch to n path asset chain : verdict :=
  let burn := BurnNullifier.burn_id chain batch to n path asset in
  let claimed := SetNullifiers ({[burn]} ∪ burn_nullifiers r) in
  unless_zero n
    (when (user to ∧ asset_active r asset ∧
           is_Some (L2State.state_roots (l2 r) !! (chain, batch)) ∧ burn ∉ burn_nullifiers r)
       (if decide (n ≤ bal reserved.bridge_escrow_address)%N
        then accept (move reserved.bridge_escrow_address to n claimed)
        else reject_as (only claimed))).

Definition spec_force_include r tx deadline submitter nonce : verdict :=
  let id := ForceInclude.obligation_id tx deadline submitter nonce in
  when (obligations r !! id = None)
    (accept (only (SetObligations (<[id := ForceInclude.mk (ForceInclude.tx_hash tx) deadline
                     submitter nonce ObligationStatus.Pending]> (obligations r))))).

Definition close_obligation r id st (k : ForceInclude.ForceIncludeObligation → update → verdict)
    : verdict :=
  found (obligations r !! id) (λ ob, when (ForceInclude.status ob = ObligationStatus.Pending)
    (k ob (SetObligations (<[id := with_ob_status ob st]> (obligations r))))).

(** The bounty, as far as the treasury reaches. *)
Definition bounty_paid (treasury slashed : Balance) : Balance :=
  N.min (snitch_bounty_amount slashed) treasury.

Definition spec_slash_missed bal r id : verdict :=
  close_obligation r id ObligationStatus.Slashed (λ ob u,
    let cut := liveness_slash_amount (bal reserved.sequencer_bond_address) in
    let treasury := (bal reserved.treasury_address + (cut - insurance_cut cut))%N in
    let paid := if reserved.is_reserved (ForceInclude.submitter ob) then 0%N
                else bounty_paid treasury cut in
    accept (mk_effect (waterfall cut ++ [(ForceInclude.submitter ob, paid)])
              [(reserved.sequencer_bond_address, cut); (reserved.treasury_address, paid)] u)).

Definition spec_slash_safety bal r kind id : verdict :=
  when (offenses r !! id = None)
    (let bond := bal reserved.safety_bond_address in
     accept (mk_effect (waterfall bond) [(reserved.safety_bond_address, bond)]
               (SetOffenses (<[id := EquivocationRegistry.mk kind 0]> (offenses r))))).

Definition spec_eject_sequencer bal r id ejector : verdict :=
  let paid := bounty_paid (bal reserved.treasury_address)
                (liveness_slash_amount (bal reserved.sequencer_bond_address)) in
  when (user ejector ∧
        ForceInclude.status <$> obligations r !! id = Some ObligationStatus.Slashed ∧
        ejections r !! id = None)
    (accept (move reserved.treasury_address ejector paid
               (SetEjections (<[id := EjectRegistry.mk ejector]> (ejections r))))).

(** A payment guarded by the balance and by one party being a user. *)
Definition spec_payment bal (party from to : Address) n : verdict :=
  unless_zero n (when (user party ∧ (n ≤ bal from)%N) (accept (move from to n Keep))).

Definition spec_slashed_funds bal cs insurance treasury : verdict :=
  when (Forall (λ e, user e.1) cs)
    (let '(all, done) := credited_prefix bal []
       (cs ++ [(reserved.insurance_pool_address, insurance); (reserved.treasury_address, treasury)]) in
     mk_verdict all (mk_effect done [] Keep)).

Definition spec_add_asset r chain (contract : bytes) dec (nm sym : bytes) : verdict :=
  let id := AssetRegistry.asset_id chain contract in
  when ((N.of_nat (length contract) ≤ AssetRegistry.MAX_SOURCE_CONTRACT_BYTES)%N ∧
        (N.of_nat (length nm) ≤ AssetRegistry.MAX_ASSET_NAME_BYTES)%N ∧
        (N.of_nat (length sym) ≤ AssetRegistry.MAX_ASSET_SYMBOL_BYTES)%N ∧ assets r !! id = None)
    (accept (only (SetAssets (<[id := AssetRegistry.mk chain contract dec nm sym AssetStatus.Active]>
                                (assets r))))).

Definition spec_asset_status r id st : verdict :=
  found (assets r !! id) (λ rec,
    accept (only (SetAssets (<[id := AssetRegistry.mk (AssetRegistry.source_chain rec)
      (AssetRegistry.source_contract rec) (AssetRegistry.decimals rec) (AssetRegistry.name rec)
      (AssetRegistry.symbol rec) st]> (assets r))))).

Definition spec (i : Intent) bal r (height : N) : verdict :=
  match i with
  | Transfer from to n =>
      when (user from ∧ user to ∧ (n ≤ bal from)%N) (accept (move from to n Keep))
  | GenesisAllocation l =>
      when (height = 0%N ∧ all_fit bal l = true) (accept (mk_effect l [] Keep))
  | MintInflation epoch a v t =>
      let l := [(reserved.authority_rewards_pool_address, a);
                (reserved.validator_rewards_pool_address, v); (reserved.treasury_address, t)] in
      when ((inflation_epoch r < epoch)%N ∧ all_fit bal l = true)
        (accept (mk_effect l [] (SetInflation epoch)))
  | DistributeRewards epoch ring l => spec_rewards bal r epoch ring l
  | Delegate from v n => spec_delegate bal r from v n
  | AdmitAuthority id stake mldsa bls =>
      spec_admit AuthorityStatus.Active (authorities r) SetAuthorities id stake mldsa bls
  | ExitAuthority id =>
      spec_exit AuthorityStatus.Active AuthorityStatus.Exiting (authorities r) SetAuthorities height id
  | EjectAuthority id _ =>
      spec_eject AuthorityStatus.Ejected (authorities r) SetAuthorities
        reserved.authority_stake_pool_address bal id
  | AdmitValidator id stake mldsa bls =>
      spec_admit ValidatorStatus.Active (validators r) SetValidators id stake mldsa bls
  | ExitValidator id =>
      spec_exit ValidatorStatus.Active ValidatorStatus.Exiting (validators r) SetValidators height id
  | EjectValidator id _ =>
      spec_eject ValidatorStatus.Ejected (validators r) SetValidators
        reserved.validator_stake_pool_address bal id
  | CommitL2StateRoot batch root proof inputs vk => spec_commit r batch root proof inputs vk
  | SetL2VerifyingKey chain agg range =>
      when (¬ (agg = L2State.zeros32 ∧ range = L2State.zeros32))
        (accept (only (SetL2 (L2State.set_chain_vks (l2 r) chain agg range))))
  | L1Lock from _ n asset =>
      unless_zero n (when (asset_active r asset ∧ (n ≤ bal from)%N)
        (accept (move from reserved.bridge_escrow_address n Keep)))
  | L2BurnProven batch to n path asset chain => spec_burn bal r batch to n path asset chain
  | L2ForceInclude tx deadline submitter nonce => spec_force_include r tx deadline submitter nonce
  | SlashSequencer SlashReason.MissedForceInclude id => spec_slash_missed bal r id
  | SlashSequencer SlashReason.Equivocation id => spec_slash_safety bal r OffenseKind.Equivocation id
  | SlashSequencer SlashReason.InvalidBatch id => spec_slash_safety bal r OffenseKind.InvalidBatch id
  | SlashSequencer SlashReason.Downtime _ | PostL2DA _ _ => accept nothing
  | MarkForceIncludeHonored id =>
      close_obligation r id ObligationStatus.Honored (λ _ u, accept (only u))
  | EjectSequencer id ejector => spec_eject_sequencer bal r id ejector
  | DepositSequencerBond from n => spec_payment bal from from reserved.sequencer_bond_address n
  | DepositSafetyBond from n => spec_payment bal from from reserved.safety_bond_address n
  | DepositAuthorityStake from id n =>
      spec_deposit AuthorityStatus.Active (authorities r) SetAuthorities
        reserved.authority_stake_pool_address bal from id n
  | DepositValidatorStake from id n =>
      spec_deposit ValidatorStatus.Active (validators r) SetValidators
        reserved.validator_stake_pool_address bal from id n
  | WithdrawAuthorityStake to id n =>
      spec_withdraw AuthorityStatus.Exiting (authorities r) SetAuthorities
        reserved.authority_stake_pool_address bal height to id n
  | WithdrawValidatorStake to id n =>
      spec_withdraw ValidatorStatus.Exiting (validators r) SetValidators
        reserved.validator_stake_pool_address bal height to id n
  | DisburseTreasury to n _ => spec_payment bal to reserved.treasury_address to n
  | ClaimInsurance to n _ => spec_payment bal to reserved.insurance_pool_address to n
  | DistributeSlashedFunds _ cs insurance treasury => spec_slashed_funds bal cs insurance treasury
  | AddBridgeAsset chain contract dec nm sym => spec_add_asset r chain contract dec nm sym
  | PauseBridgeAsset id => spec_asset_status r id AssetStatus.Paused
  | RemoveBridgeAsset id => spec_asset_status r id AssetStatus.Removed
  end.
End spec.

(** Walk through the guards of the specification, one goal per branch. *)
Ltac spec_branches i :=
  destruct i as [| | | | | | | | | | | | | | | |[]| | | | | | | | | | | | | | |]; cbn [spec];
  unfold spec_rewards, spec_delegate, spec_admit, spec_exit, spec_eject, spec_deposit,
    spec_withdraw, spec_commit, spec_burn, spec_force_include, spec_slash_missed, close_obligation,
    spec_slash_safety, spec_eject_sequencer, spec_payment, spec_slashed_funds, spec_add_asset,
    spec_asset_status, when, found, unless_zero;
  repeat match goal with
  | |- context [match ?g with RewardsRing.Authority => _ | RewardsRing.Validator => _ end] => destruct g
  | |- context [let '(_, _) := credited_prefix ?b ?acc ?l in _] =>
      destruct (credited_prefix b acc l) as [[] ?] eqn:?
  | |- context [match ?x !! ?k with Some _ => _ | None => _ end] => destruct (x !! k) eqn:?
  | |- context [if @decide ?P ?d then _ else _] => destruct (@decide P d)
  end;
  cbn [performed accepted accept reject reject_as nothing only move credits debits writes].
