(* ===== verification/Moves.v ===== *)
(** * Weakest preconditions of the substrate's operations

    A weakest-precondition calculus for the monad [exec], and the contracts of
    the credit, debit and transfer operations of [substrate.rs] stated as
    double-entry postings ([moved]). *)

From S2P Require Import Prelude Crypto ExecTypes Codec Registries Substrate LedgerSpec.

(** ** Totals of postings *)

Lemma total_app l k : total (l ++ k) = (total l + total k)%N.
Proof. unfold total. by rewrite fmap_app, sum_N_app. Qed.

Lemma total_nil : total [] = 0%N.
Proof. done. Qed.

Lemma total_cons a n l : total ((a, n) :: l) = (n + total l)%N.
Proof. done. Qed.

Lemma amount_at_nil a : amount_at [] a = 0%N.
Proof. done. Qed.

Lemma amount_at_app l k a : amount_at (l ++ k) a = (amount_at l a + amount_at k a)%N.
Proof. unfold amount_at. by rewrite filter_app, total_app. Qed.

Lemma amount_at_cons b n l a :
  amount_at ((b, n) :: l) a = ((if decide (b = a) then n else 0) + amount_at l a)%N.
Proof. unfold amount_at. rewrite filter_cons. simpl. by case_decide. Qed.

Lemma amount_at_le_total l a : (amount_at l a ≤ total l)%N.
Proof.
  induction l as [|[b n] l IH]; [done|]. rewrite amount_at_cons, total_cons. case_decide; lia.
Qed.

Lemma amount_at_absent l a : Forall (λ e, e.1 ≠ a) l → amount_at l a = 0%N.
Proof.
  induction 1 as [|[b n] l Hb _ IH]; [done|]. rewrite amount_at_cons, IH. simpl in Hb.
  by rewrite decide_False.
Qed.

#[export] Hint Rewrite total_app total_nil total_cons amount_at_nil amount_at_app amount_at_cons : suwappu.

(** ** Balances *)

Definition supply (s : InMemorySubstrate) : N := map_sum (balances s).

(** The stored form: no zero balance, every balance a [u128]. *)
Definition canonical_balances (s : InMemorySubstrate) : Prop :=
  map_Forall (λ _ v, (0 < v < width 128)%N) (balances s).

Lemma balance_le_supply s a : (balance s a ≤ supply s)%N.
Proof. apply map_sum_lookup. Qed.

Lemma two_balances_le_supply s a b : a ≠ b → (balance s a + balance s b ≤ supply s)%N.
Proof.
  intros Hne. unfold supply, balance. pose proof (map_sum_delete (balances s) a) as E.
  pose proof (map_sum_lookup (delete a (balances s)) b) as Hb. rewrite lookup_delete_ne in Hb by done.
  lia.
Qed.

Lemma balance_lt s a : canonical_balances s → (balance s a < width 128)%N.
Proof.
  intros Hc. unfold balance. destruct (balances s !! a) as [v|] eqn:E; simpl.
  - apply (Hc a v E).
  - apply width_pos.
Qed.

(** [s'] is [s] after posting the credits and the debits. *)
Record moved (s s' : InMemorySubstrate) (cr db : posting) : Prop := {
  moved_balance : ∀ a, (balance s' a + amount_at db a = balance s a + amount_at cr a)%N;
  moved_supply : (supply s' + total db = supply s + total cr)%N;
  moved_records : bytes_state s' = bytes_state s;
  moved_height : current_block_height s' = current_block_height s;
  moved_canonical : canonical_balances s → canonical_balances s';
}.

Lemma moved_refl s : moved s s [] [].
Proof. split; try done; intros; simpl; unfold amount_at, total; simpl; lia. Qed.

Lemma moved_trans s1 s2 s3 cr1 db1 cr2 db2 :
  moved s1 s2 cr1 db1 → moved s2 s3 cr2 db2 → moved s1 s3 (cr1 ++ cr2) (db1 ++ db2).
Proof.
  intros [B1 S1 R1 H1 C1] [B2 S2 R2 H2 C2]. split; try congruence; eauto.
  - intros a. specialize (B1 a). specialize (B2 a). rewrite !amount_at_app. lia.
  - rewrite !total_app. lia.
Qed.

(** Postings matter only through their amounts. *)
Lemma moved_post s s' cr db cr' db' :
  moved s s' cr db →
  (∀ a, (amount_at cr a + amount_at db' a = amount_at cr' a + amount_at db a)%N) →
  (total cr + total db' = total cr' + total db)%N → moved s s' cr' db'.
Proof.
  intros [B S R H C] HA HT. split; try done; [|lia].
  intros a. specialize (B a). specialize (HA a). lia.
Qed.

Definition with_balances (m : gmap Address Balance) (s : InMemorySubstrate) : InMemorySubstrate :=
  mk m (bytes_state s) (current_block_height s).

Section put.
Implicit Types m : gmap Address Balance.

Lemma lookup_put_balance m a v b :
  default 0%N (put_balance m a v !! b) = if decide (a = b) then v else default 0%N (m !! b).
Proof.
  unfold put_balance. case_bool_decide as Hv; case_decide; subst; simplify_map_eq; done.
Qed.

Lemma map_sum_put m a v : (map_sum (put_balance m a v) + default 0 (m !! a) = v + map_sum m)%N.
Proof.
  unfold put_balance. case_bool_decide; subst; [|apply map_sum_insert].
  pose proof (map_sum_delete m a). lia.
Qed.

Lemma canonical_put m a v :
  map_Forall (λ _ v, (0 < v < width 128)%N) m → (v < width 128)%N →
  map_Forall (λ _ v, (0 < v < width 128)%N) (put_balance m a v).
Proof.
  intros Hm Hv. unfold put_balance. case_bool_decide; [by apply map_Forall_delete|].
  apply map_Forall_insert_2; [lia|done].
Qed.

Lemma put_balance_pos m a v : v ≠ 0%N → put_balance m a v = <[a := v]> m.
Proof. intros. unfold put_balance. by rewrite bool_decide_false. Qed.
End put.

(** Writing one balance posts the difference. *)
Lemma moved_put s a v :
  (canonical_balances s → v < width 128)%N →
  moved s (with_balances (put_balance (balances s) a v) s) [(a, v)] [(a, balance s a)].
Proof.
  intros Hv. split; try done.
  - intros b. unfold balance at 1. simpl. rewrite lookup_put_balance, !amount_at_cons, !amount_at_nil.
    case_decide; subst; fold (balance s b); lia.
  - unfold supply. simpl. rewrite !total_cons. pose proof (map_sum_put (balances s) a v).
    unfold balance, total, sum_N. simpl. lia.
  - intros Hc. by apply canonical_put; [|apply Hv].
Qed.

(** Solve the amount side conditions of [moved_post]. *)
Ltac amounts :=
  intros; autorewrite with suwappu;
  repeat case_decide; subst; simplify_eq; lia.

Ltac solve_post := eapply moved_post; [eassumption| |]; amounts.

(** ** Weakest preconditions *)

Definition wp {A} (m : exec A) (s : InMemorySubstrate)
    (Q : outcome ExecutionError A → InMemorySubstrate → Prop) : Prop :=
  Q (m s).1 (m s).2.

(** The continuation of a bind. *)
Definition wp_next {A B} (f : A → exec B)
    (Q : outcome ExecutionError B → InMemorySubstrate → Prop)
    (r : outcome ExecutionError A) (s : InMemorySubstrate) : Prop :=
  match r with
  | Ok a => wp (f a) s Q
  | Err e => Q (Err e) s
  | Panic => Q Panic s
  end.

Section wp.
Context {A : Type}.
Implicit Types (s : InMemorySubstrate) (Q : outcome ExecutionError A → InMemorySubstrate → Prop).

Lemma wp_elim (m : exec A) s Q r s' : wp m s Q → m s = (r, s') → Q r s'.
Proof. unfold wp. intros H E. by rewrite E in H. Qed.

Lemma wp_bind {B} (m : exec A) (f : A → exec B) s (Q : _ → _ → Prop) :
  wp m s (wp_next f Q) → wp (m ≫= f) s Q.
Proof.
  unfold wp at 1 2, wp_next, wp. unfold mbind, exec_bind. by destruct (m s) as [[] ?]; simpl.
Qed.

Lemma wp_mono (m : exec A) s (Q Q' : _ → _ → Prop) :
  wp m s Q → (∀ r s', Q r s' → Q' r s') → wp m s Q'.
Proof. unfold wp. auto. Qed.

Lemma wp_ret (a : A) s Q : Q (Ok a) s → wp (mret a) s Q.
Proof. done. Qed.
Lemma wp_throw e s Q : Q (Err e) s → wp (throw e) s Q.
Proof. done. Qed.
Lemma wp_gets (f : InMemorySubstrate → A) s Q : Q (Ok (f s)) s → wp (gets f) s Q.
Proof. done. Qed.
Lemma wp_of_outcome o s Q : Q o s → wp (of_outcome o) s Q.
Proof. done. Qed.

Lemma wp_if P `{Decision P} (m1 m2 : exec A) s Q :
  (P → wp m1 s Q) → (¬ P → wp m2 s Q) → wp (if bool_decide P then m1 else m2) s Q.
Proof. intros. case_bool_decide; auto. Qed.
End wp.

Lemma wp_deny P `{Decision P} e s Q :
  (P → Q (Err e) s) → (¬ P → Q (Ok tt) s) → wp (deny (bool_decide P) e) s Q.
Proof. intros. unfold deny. case_bool_decide; auto using wp_throw, wp_ret. Qed.

Lemma wp_deny_present {A} (o : option A) (d : Decision (is_Some o)) e s Q :
  (∀ x, o = Some x → Q (Err e) s) → (o = None → Q (Ok tt) s) →
  wp (deny (@bool_decide (is_Some o) d) e) s Q.
Proof.
  intros H1 H2. apply wp_deny; [intros [x Hx]; eauto|intros Hn%eq_None_not_Some; auto].
Qed.

Lemma wp_deny_bool (b : bool) e s Q :
  (b = true → Q (Err e) s) → (b = false → Q (Ok tt) s) → wp (deny b e) s Q.
Proof. intros. unfold deny. destruct b; auto using wp_throw, wp_ret. Qed.

Lemma wp_ok_or {A} (o : option A) e s Q :
  (∀ a, o = Some a → Q (Ok a) s) → (o = None → Q (Err e) s) → wp (of_outcome (ok_or o e)) s Q.
Proof. intros. apply wp_of_outcome. destruct o; simpl; auto. Qed.

Lemma wp_checked w a b e s Q :
  ((a + b < width w)%N → Q (Ok (a + b)%N) s) → ((width w ≤ a + b)%N → Q (Err e) s) →
  wp (of_outcome (ok_or (checked_add w a b) e)) s Q.
Proof.
  intros. apply wp_ok_or.
  - intros c [-> ?]%checked_add_Some. auto.
  - intros ?%checked_add_None. auto.
Qed.

Lemma wp_set_balances m s Q : Q (Ok tt) (with_balances m s) → wp (set_balances m) s Q.
Proof. done. Qed.

(** Reduce the continuation after a step. *)
Ltac wp_reduce :=
  cbn [wp_next]; cbv zeta beta;
  repeat match goal with
  | |- context [@id InMemorySubstrate ?s] => change (@id InMemorySubstrate s) with s
  end.

(** ** The credit and debit operations *)

Lemma wp_credit a n s Q :
  (∀ s', moved s s' [(a, n)] [] → Q (Ok tt) s') →
  (n ≠ 0%N → (width 128 ≤ balance s a + n)%N → Q (Err (DistributionOverflow a)) s) →
  wp (credit_unchecked a n) s Q.
Proof.
  intros Hok Herr. unfold credit_unchecked. apply wp_if; intros Hn.
  { subst. apply wp_ret, Hok. eapply moved_post; [apply moved_refl|amounts..]. }
  apply wp_bind, wp_gets, wp_bind, wp_checked; wp_reduce; [|auto]. intros Hlt.
  apply wp_set_balances, Hok. rewrite <-put_balance_pos by lia.
  eapply moved_post; [by apply moved_put|amounts..].
Qed.

Lemma wp_debit a n s Q :
  (∀ s', (n ≤ balance s a)%N → moved s s' [] [(a, n)] → Q (Ok tt) s') →
  ((balance s a < n)%N → Q (Err (InsufficientBalance a (balance s a) n)) s) →
  wp (debit_unchecked a n) s Q.
Proof.
  intros Hok Herr. unfold debit_unchecked. apply wp_if; intros Hn.
  { subst. apply wp_ret, Hok; [lia|]. eapply moved_post; [apply moved_refl|amounts..]. }
  apply wp_bind, wp_gets, wp_bind, wp_deny; wp_reduce; [auto|]. intros Hlt.
  apply wp_set_balances, Hok; [simpl in *; lia|].
  eapply moved_post; [apply moved_put|amounts..].
  intros Hc. pose proof (balance_lt s a Hc). unfold id. lia.
Qed.

(** The shared tail of [Transfer] and [transfer_internal]. *)
Lemma moved_transfer s from to n :
  from ≠ to → n ≠ 0%N → (n ≤ balance s from)%N → (balance s to + n < width 128)%N →
  moved s (with_balances (<[to := (balance s to + n)%N]>
             (put_balance (balances s) from (balance s from - n))) s) [(to, n)] [(from, n)].
Proof.
  intros Hne Hn Hle Hlt. rewrite <-put_balance_pos by lia.
  set (s1 := with_balances (put_balance (balances s) from (balance s from - n)) s).
  assert (moved s s1 [(from, (balance s from - n)%N)] [(from, balance s from)]) as M1.
  { apply moved_put. intros Hc. pose proof (balance_lt s from Hc). lia. }
  assert (balance s1 to = balance s to) as Eto.
  { unfold balance, s1. simpl. by rewrite lookup_put_balance, decide_False. }
  assert (moved s1 (with_balances (put_balance (balances s1) to (balance s to + n)%N) s1)
            [(to, (balance s to + n)%N)] [(to, balance s1 to)]) as M2 by (by apply moved_put).
  rewrite Eto in M2. pose proof (moved_trans _ _ _ _ _ _ _ M1 M2) as M.
  eapply moved_post; [exact M|amounts..].
Qed.

Lemma wp_transfer from to n s Q :
  (∀ s', (n ≤ balance s from)%N → moved s s' [(to, n)] [(from, n)] → Q (Ok tt) s') →
  (∀ e, (balance s from < n)%N ∨ (from ≠ to ∧ (width 128 ≤ balance s to + n)%N) → Q (Err e) s) →
  wp (transfer_internal from to n) s Q.
Proof.
  intros Hok Herr. unfold transfer_internal. apply wp_if; intros Hn.
  { subst. apply wp_ret, Hok; [lia|]. eapply moved_post; [apply moved_refl|amounts..]. }
  apply wp_bind, wp_gets, wp_bind, wp_deny; wp_reduce; [auto|]. intros Hlt. apply wp_if; intros Hne.
  { subst. apply wp_ret, Hok; [lia|]. eapply moved_post; [apply moved_refl|amounts..]. }
  apply wp_bind, wp_checked; wp_reduce; [|auto]. intros Hfit. apply wp_set_balances, Hok; [lia|].
  apply moved_transfer; auto. lia.
Qed.

(** With the supply within 128 bits only the sender's balance can be at fault. *)
Lemma wp_transfer_limited from to n s Q :
  (supply s < width 128)%N →
  (∀ s', (n ≤ balance s from)%N → moved s s' [(to, n)] [(from, n)] → Q (Ok tt) s') →
  (∀ e, (balance s from < n)%N → Q (Err e) s) →
  wp (transfer_internal from to n) s Q.
Proof.
  intros Hs Hok Herr. apply wp_transfer; [done|]. intros e [Hlt|[Hne Hov]]; [auto|].
  pose proof (two_balances_le_supply s from to Hne). apply Herr. lia.
Qed.

(** Debit then credit: the payment the bridge, bond and payout arms make. *)
Lemma wp_pay from to n s Q :
  (supply s < width 128)%N →
  (∀ s', (n ≤ balance s from)%N → moved s s' [(to, n)] [(from, n)] → Q (Ok tt) s') →
  (∀ e, (balance s from < n)%N → Q (Err e) s) →
  wp (debit_unchecked from n ≫= λ _, credit_unchecked to n) s Q.
Proof.
  intros Hs Hok Herr. apply wp_bind, wp_debit; wp_reduce; [|auto]. intros s1 Hle M1.
  pose proof (moved_supply _ _ _ _ M1) as Es. autorewrite with suwappu in Es.
  apply wp_credit; [intros s2 M2|intros Hn Hov].
  - apply Hok; [done|]. eapply moved_post; [by eapply moved_trans|amounts..].
  - pose proof (balance_le_supply s1 to). lia.
Qed.

(** Credits that keep the supply within 128 bits fit every account. *)
Lemma credited_prefix_supply s acc l :
  (supply s + total acc + total l < width 128)%N →
  credited_prefix (balance s) acc l = (true, acc ++ l).
Proof.
  revert acc. induction l as [|[a n] l IH]; intros acc; simpl.
  { intros _. by rewrite app_nil_r. }
  rewrite total_cons. intros Hlt. pose proof (balance_le_supply s a).
  pose proof (amount_at_le_total acc a). rewrite decide_True by lia.
  replace (acc ++ (a, n) :: l) with ((acc ++ [(a, n)]) ++ l) by (by rewrite <-(assoc_L (++))).
  apply IH. autorewrite with suwappu. lia.
Qed.

Lemma all_fit_supply s l :
  (supply s + total l < width 128)%N → all_fit (balance s) l = true.
Proof. intros. unfold all_fit. rewrite credited_prefix_supply; [done|]. rewrite total_nil. lia. Qed.

(** ** Staged credits *)

Lemma stage_ext base base' l st : (∀ a, base a = base' a) → stage base l st = stage base' l st.
Proof.
  intros E. revert st. induction l as [|[a n] l IH]; intros st; simpl; [done|].
  case_bool_decide; [done|]. destruct (st !! a); [|rewrite E];
    match goal with |- context [checked_add ?w ?x ?y] => destruct (checked_add w x y) end; auto.
Qed.

(** What staging on top of the map [m] has achieved after the credits [acc]. *)
Record staged_ok (m st : gmap Address Balance) (acc : posting) : Prop := {
  staged_lookup : ∀ a, default 0%N ((st ∪ m) !! a) = (default 0 (m !! a) + amount_at acc a)%N;
  staged_sum : map_sum (st ∪ m) = (map_sum m + total acc)%N;
  staged_values : map_Forall (λ _ v, (0 < v < width 128)%N) st;
}.

Lemma staged_empty m : staged_ok m ∅ [].
Proof.
  split; [intros a|..]; rewrite ?(left_id_L ∅ (∪)), ?amount_at_nil; [lia| |apply map_Forall_empty].
  unfold total. simpl. lia.
Qed.

Lemma staged_skip m st acc a : staged_ok m st acc → staged_ok m st (acc ++ [(a, 0%N)]).
Proof.
  intros [L S V]. split; [intros b; rewrite L|rewrite S|done]; amounts.
Qed.

Lemma staged_credit m st acc a n :
  staged_ok m st acc → n ≠ 0%N →
  let b := match st !! a with Some v => v | None => default 0%N (m !! a) end in
  (b + n < width 128)%N → staged_ok m (<[a := (b + n)%N]> st) (acc ++ [(a, n)]).
Proof.
  intros [L S V] Hn b Hlt.
  assert (b = default 0%N ((st ∪ m) !! a)) as Eb.
  { unfold b. rewrite lookup_union. by destruct (st !! a), (m !! a). }
  split; [intros c| |].
  - rewrite <-insert_union_l, amount_at_app, amount_at_cons, amount_at_nil. case_decide as Hc.
    + subst c. rewrite lookup_insert_eq. simpl. rewrite Eb, L. lia.
    + rewrite lookup_insert_ne, L by done. lia.
  - rewrite <-insert_union_l, total_app, total_cons. pose proof (map_sum_insert (st ∪ m) a (b + n)%N).
    unfold total at 2, sum_N. simpl. lia.
  - apply map_Forall_insert_2; [lia|done].
Qed.

Lemma stage_ok m l st acc :
  staged_ok m st acc →
  match stage (λ a, default 0%N (m !! a)) l st with
  | Ok st' => staged_ok m st' (acc ++ l)
  | Err _ => True
  | Panic => False
  end.
Proof.
  revert st acc. induction l as [|[a n] l IH]; intros st acc Hst; simpl.
  { by rewrite app_nil_r. }
  rewrite cons_middle, (assoc_L (++)). case_bool_decide as Hn.
  { subst n. apply IH, staged_skip, Hst. }
  destruct (checked_add _ _ _) as [v|] eqn:E; [|done].
  apply checked_add_Some in E as [-> Hlt]. by apply IH, staged_credit.
Qed.

(** Staging succeeds exactly when every running balance fits. *)
Lemma stage_verdict m l st acc :
  staged_ok m st acc → (∀ a, default 0 (m !! a) + amount_at acc a < width 128)%N →
  is_Ok (stage (λ a, default 0%N (m !! a)) l st)
  = (credited_prefix (λ a, default 0%N (m !! a)) acc l).1.
Proof.
  revert st acc. induction l as [|[a n] l IH]; intros st acc Hst Hb; simpl; [done|].
  case_bool_decide as Hn.
  { subst n. rewrite decide_True by (rewrite N.add_0_r; apply Hb). apply IH; [by apply staged_skip|].
    intros b. specialize (Hb b). rewrite amount_at_app, amount_at_cons, amount_at_nil. case_decide; lia. }
  assert (match st !! a with Some v => v | None => default 0%N (m !! a) end
          = (default 0 (m !! a) + amount_at acc a)%N) as Eb.
  { rewrite <-(staged_lookup _ _ _ Hst a), lookup_union. by destruct (st !! a), (m !! a). }
  case_decide as Hlt.
  - assert (checked_add 128 match st !! a with Some v => v | None => default 0%N (m !! a) end n
            = Some (match st !! a with Some v => v | None => default 0 (m !! a) end + n)%N) as ->.
    { apply checked_add_Some. rewrite Eb. done. }
    apply IH.
    + apply staged_credit; [done..|]. by rewrite Eb.
    + intros b. specialize (Hb b). rewrite amount_at_app, amount_at_cons, amount_at_nil.
      case_decide; subst; lia.
  - assert (checked_add 128 match st !! a with Some v => v | None => default 0%N (m !! a) end n = None)
      as -> by (apply checked_add_None; rewrite Eb; lia). done.
Qed.

Lemma canonical_staged m st acc :
  staged_ok m st acc → map_Forall (λ _ v, (0 < v < width 128)%N) m →
  map_Forall (λ _ v, (0 < v < width 128)%N) (st ∪ m).
Proof. intros [_ _ V] Hm. by apply map_Forall_union_2. Qed.

Lemma moved_staged s st l :
  staged_ok (balances s) st l → moved s (with_balances (st ∪ balances s) s) l [].
Proof.
  intros Hst. split; try done.
  - intros a. unfold balance. simpl. rewrite (staged_lookup _ _ _ Hst), amount_at_nil. lia.
  - unfold supply. simpl. rewrite (staged_sum _ _ _ Hst). rewrite total_nil. lia.
  - by apply (canonical_staged _ _ l).
Qed.

Lemma wp_credit_many l s Q :
  (∀ s', (canonical_balances s → all_fit (balance s) l = true) → moved s s' l [] → Q (Ok tt) s') →
  (∀ e, (canonical_balances s → all_fit (balance s) l = false) → Q (Err e) s) →
  wp (credit_many_atomic l) s Q.
Proof.
  intros Hok Herr. unfold credit_many_atomic.
  apply wp_bind, wp_gets, wp_bind, wp_of_outcome. wp_reduce.
  pose proof (stage_ok (balances s) l ∅ [] (staged_empty _)) as Hs.
  assert (canonical_balances s → is_Ok (stage (balance s) l ∅) = all_fit (balance s) l) as Hv.
  { intros Hc. apply stage_verdict; [apply staged_empty|]. intros a.
    pose proof (balance_lt s a Hc). unfold balance in *. rewrite amount_at_nil. lia. }
  change (λ a, default 0%N (balances s !! a)) with (balance s) in Hs.
  destruct (stage (balance s) l ∅) as [st|e|]; [|by apply Herr; intros; rewrite <-Hv|done].
  apply wp_set_balances, Hok; [by intros; rewrite <-Hv|]. by apply moved_staged.
Qed.

(** ** Draining a pool *)

Lemma checked_total_spec from l t :
  match checked_total from l t with
  | Ok v => v = (t + total l)%N
  | Err _ => (width 128 ≤ t + total l)%N
  | Panic => False
  end.
Proof.
  revert t. induction l as [|[a n] l IH]; intros t; simpl; [rewrite total_nil; lia|].
  rewrite total_cons. destruct (checked_add 128 t n) as [v|] eqn:E.
  - apply checked_add_Some in E as [-> _]. specialize (IH (t + n)%N).
    destruct (checked_total _ _ _); subst; try done; lia.
  - apply checked_add_None in E. lia.
Qed.

(** The staged result of a drain is a debit followed by credits. *)
Lemma wp_drain from l s Q :
  (∀ s', (total l ≤ balance s from)%N → moved s s' l [(from, total l)] → Q (Ok tt) s') →
  (∀ e, (canonical_balances s → supply s < width 128 → balance s from < total l)%N → Q (Err e) s) →
  wp (drain_and_credit_atomic from l) s Q.
Proof.
  intros Hok Herr. unfold drain_and_credit_atomic. apply wp_bind, wp_of_outcome.
  pose proof (checked_total_spec from l 0) as Ht. rewrite N.add_0_l in Ht.
  destruct (checked_total from l 0) as [t|e|]; wp_reduce; [subst t| |done].
  2: { apply Herr. intros Hc _. pose proof (balance_lt s from Hc). lia. }
  apply wp_if; intros Hz.
  { apply wp_ret, Hok; [lia|]. eapply moved_post; [apply moved_refl|..].
    - intros a. pose proof (amount_at_le_total l a). rewrite Hz. amounts.
    - rewrite Hz. amounts. }
  apply wp_bind, wp_gets, wp_bind, wp_deny; wp_reduce; [intros; by apply Herr|]. intros Hle.
  set (m := put_balance (balances s) from (balance s from - total l)).
  set (s1 := with_balances m s).
  assert (moved s s1 [] [(from, total l)]) as M1.
  { eapply moved_post; [apply moved_put|amounts..].
    intros Hc. pose proof (balance_lt s from Hc). lia. }
  rewrite (stage_ext _ (balance s1)).
  2: { intros a. unfold balance at 3, s1, m. simpl. rewrite lookup_put_balance.
       case_bool_decide; case_decide; subst; done. }
  apply wp_bind, wp_of_outcome. wp_reduce.
  pose proof (stage_ok m l ∅ [] (staged_empty _)) as Hs.
  assert (canonical_balances s → is_Ok (stage (balance s1) l ∅) = all_fit (balance s1) l) as Hv.
  { intros Hc. apply stage_verdict; [apply staged_empty|]. intros a.
    pose proof (balance_lt s1 a (moved_canonical _ _ _ _ M1 Hc)). unfold balance in *.
    rewrite amount_at_nil. simpl in *. lia. }
  change (λ a, default 0%N (m !! a)) with (balance s1) in Hs.
  destruct (stage (balance s1) l ∅) as [st|e|]; [| |done].
  - apply wp_set_balances, Hok; [lia|].
    replace (st ∪ _) with (st ∪ m).
    + eapply moved_post; [eapply moved_trans; [exact M1|by apply (moved_staged s1 st l)]|amounts..].
    + destruct (st !! from) as [v|] eqn:Ev; [|done]. apply map_eq. intros a.
      rewrite !lookup_union. unfold m, put_balance.
      destruct (decide (a = from)) as [->|]; [rewrite Ev; by case_bool_decide; simplify_map_eq;
        destruct (balances s !! from)|]. case_bool_decide; by simplify_map_eq.
  - apply Herr. intros Hc Hs1. exfalso. specialize (Hv Hc). pose proof (moved_supply _ _ _ _ M1).
    rewrite total_nil, total_cons, total_nil in *. rewrite all_fit_supply in Hv by lia. done.
Qed.

(** ** Sequences of credits and the reserved-recipient check *)

Lemma wp_credit_all_from s0 acc l s :
  canonical_balances s0 → moved s0 s acc [] →
  wp (credit_all l) s (λ r s', r ≠ Panic ∧
    is_Ok r = (credited_prefix (balance s0) acc l).1 ∧
    moved s0 s' (credited_prefix (balance s0) acc l).2 []).
Proof.
  intros Hc. revert acc s. induction l as [|[a n] l IH]; intros acc s M; simpl; [by apply wp_ret|].
  pose proof (moved_balance _ _ _ _ M a) as Ea. rewrite amount_at_nil, N.add_0_r in Ea.
  apply wp_bind, wp_credit; wp_reduce.
  - intros s' M'. rewrite decide_True.
    + apply IH. eapply moved_trans in M'; [|exact M]. exact M'.
    + pose proof (balance_lt s' a) as Hlt. pose proof (moved_balance _ _ _ _ M' a) as Ea'.
      rewrite amount_at_cons, !amount_at_nil, decide_True in Ea' by done.
      rewrite <-Ea. enough (balance s' a < width 128)%N by lia.
      apply Hlt, (moved_canonical _ _ _ _ M'), (moved_canonical _ _ _ _ M), Hc.
  - intros Hn Hov. rewrite decide_False by lia. done.
Qed.

Lemma wp_credit_all l s Q :
  canonical_balances s →
  (∀ r s', r ≠ Panic → is_Ok r = (credited_prefix (balance s) [] l).1 →
           moved s s' (credited_prefix (balance s) [] l).2 [] → Q r s') →
  wp (credit_all l) s Q.
Proof.
  intros Hc HQ. eapply wp_mono; [by apply (wp_credit_all_from s []), moved_refl|].
  simpl. intros r s' (? & ? & ?). auto.
Qed.

Section with_hash.
Context `{Blake3}.

Lemma insurance_cut_le d : (insurance_cut d ≤ d)%N.
Proof.
  unfold insurance_cut. assert (wrap 128 (d * 70) ≤ d * 70)%N by (apply N.Div0.mod_le).
  destruct (div_mod_N (wrap 128 (d * 70)) 100) as (q & r & -> & _ & E & Hr); lia.
Qed.

Lemma liveness_slash_le d : (liveness_slash_amount d ≤ d)%N.
Proof.
  unfold liveness_slash_amount, LIVENESS_SLASH_BPS.
  assert (wrap 128 (d * 500) ≤ d * 500)%N by (apply N.Div0.mod_le).
  destruct (div_mod_N (wrap 128 (d * 500)) 10000) as (q & r & -> & _ & E & Hr); lia.
Qed.

Lemma wp_deny_reserved err l s Q :
  (Forall (λ e, user e.1) l → Q (Ok tt) s) →
  (∀ e, ¬ Forall (λ e, user e.1) l → Q (Err e) s) →
  wp (deny_reserved err l) s Q.
Proof.
  intros Hok Herr. revert Hok Herr. induction l as [|[a n] l IH]; intros Hok Herr; simpl.
  { by apply wp_ret, Hok. }
  apply wp_bind, wp_deny_bool; wp_reduce; intros Ha.
  - apply Herr. rewrite Forall_cons. unfold user. simpl. rewrite Ha. by intros [].
  - apply IH; [intros; apply Hok; by constructor|].
    intros e Hf. apply Herr. rewrite Forall_cons. by intros [].
Qed.

(** Two final credits extend the sequence. *)
Lemma credit_all_snoc2 l a n b k s :
  (credit_all l ≫= λ _, credit_unchecked a n ≫= λ _, credit_unchecked b k) s
  = credit_all (l ++ [(a, n); (b, k)]) s.
Proof.
  revert s. induction l as [|[c m] l IH]; intros s; simpl; unfold mbind, exec_bind in *; simpl.
  - destruct (credit_unchecked a n s) as [[] s1]; [|done..].
    by destruct (credit_unchecked b k s1) as [[[]| |] s2].
  - destruct (credit_unchecked c m s) as [[] s1]; [|done..]. apply IH.
Qed.
End with_hash.
