(* ===== verification/Refinement.v ===== *)
(** * [apply_intent] implements the abstract ledger

    [sound] is the invariant of the stored state: canonical balances and
    records that decode to well-formed registries.  [apply_refines] proves that
    on sound states [Substrate.apply_intent] accepts and performs exactly what
    [LedgerSpec.spec] says, and that soundness is preserved. *)

From S2P Require Import Prelude Crypto ExecTypes Codec Registries Substrate LedgerSpec Moves.

Lemma reserved_ne `{Blake3, !ReservedDistinct} (i j : nat) (a b : Address) :
  reserved.all !! i = Some a → reserved.all !! j = Some b → i ≠ j → a ≠ b.
Proof. intros Ha Hb Hij ->. by apply Hij, (NoDup_lookup _ _ _ _ reserved_distinct Ha Hb). Qed.

Lemma reserved_not_user `{Blake3} (i : nat) (a : Address) : reserved.all !! i = Some a → ¬ user a.
Proof.
  intros Ha%list_elem_of_lookup_2 Hu. apply reserved.is_reserved_spec in Ha. unfold user in Hu.
  congruence.
Qed.

(** The position of an account in [reserved.all]. *)
Ltac reserved_index a :=
  lazymatch a with
  | reserved.l2_registry_address => constr:(0)
  | reserved.insurance_pool_address => constr:(1)
  | reserved.treasury_address => constr:(2)
  | reserved.bridge_escrow_address => constr:(3)
  | reserved.force_include_registry_address => constr:(4)
  | reserved.sequencer_bond_address => constr:(5)
  | reserved.safety_bond_address => constr:(6)
  | reserved.asset_registry_address => constr:(7)
  | reserved.ejection_registry_address => constr:(8)
  | reserved.burn_nullifier_registry_address => constr:(9)
  | reserved.equivocation_registry_address => constr:(10)
  | reserved.authority_registry_address => constr:(11)
  | reserved.validator_registry_address => constr:(12)
  | reserved.authority_stake_pool_address => constr:(13)
  | reserved.validator_stake_pool_address => constr:(14)
  | reserved.authority_rewards_pool_address => constr:(15)
  | reserved.validator_rewards_pool_address => constr:(16)
  | reserved.inflation_registry_address => constr:(17)
  | reserved.rewards_distribution_registry_address => constr:(18)
  | reserved.validator_delegation_registry_address => constr:(19)
  end.
(** Two named accounts differ. *)
Ltac distinct :=
  lazymatch goal with
  | |- ?a ≠ ?b => let i := reserved_index a in let j := reserved_index b in by apply (reserved_ne i j)
  end.

(** A named account is not a user's. *)
Ltac not_user :=
  lazymatch goal with
  | |- ¬ user ?a => let i := reserved_index a in by apply (reserved_not_user i)
  end.

Section refinement.
Context `{Blake3}.
Implicit Types (s : InMemorySubstrate) (i : Intent).

(** ** The decoded view *)

Definition view s : Registries :=
  mk_registries (authority_map s) (validator_map s) (delegation_map s) (force_include_map s)
    (ejection_map s) (nullifiers s) (equivocation_map s) (asset_registry s) (l2_registry s)
    (last_minted_inflation_epoch s)
    (last_distributed_rewards_epoch s RewardsRing.Authority,
     last_distributed_rewards_epoch s RewardsRing.Validator).

(** The account and the bytes an update is stored as. *)
Definition stored_as (u : update) : option (Address * bytes) :=
  match u with
  | Keep => None
  | SetAuthorities m => Some (reserved.authority_registry_address, AuthorityRegistry.encode m)
  | SetValidators m => Some (reserved.validator_registry_address, ValidatorRegistry.encode m)
  | SetDelegations m =>
      Some (reserved.validator_delegation_registry_address, DelegationRegistry.encode m)
  | SetObligations m => Some (reserved.force_include_registry_address, ForceInclude.encode_map m)
  | SetEjections m => Some (reserved.ejection_registry_address, EjectRegistry.encode m)
  | SetNullifiers x => Some (reserved.burn_nullifier_registry_address, BurnNullifier.encode x)
  | SetOffenses m => Some (reserved.equivocation_registry_address, EquivocationRegistry.encode m)
  | SetAssets m => Some (reserved.asset_registry_address, AssetRegistry.encode m)
  | SetL2 r => Some (reserved.l2_registry_address, L2State.encode r)
  | SetInflation e => Some (reserved.inflation_registry_address, be_bytes 8 e)
  | SetRewards p =>
      Some (reserved.rewards_distribution_registry_address, be_bytes 8 p.1 ++ be_bytes 8 p.2)
  end.

Definition store (u : update) s : InMemorySubstrate :=
  match stored_as u with
  | None => s
  | Some (a, b) => mk (balances s) (<[a := b]> (bytes_state s)) (current_block_height s)
  end.

(** [s'] is [s] after exactly the effect [e]. *)
Definition realises s (e : effect) s' : Prop :=
  ∃ s1, moved s s1 (credits e) (debits e) ∧ s' = store (writes e) s1.

(** [m] run from [s] delivers the verdict [v] and performs its effect. *)
Definition implements (m : exec unit) s (v : verdict) : Prop :=
  wp m s (λ r s', r ≠ Panic ∧ is_Ok r = accepted v ∧ realises s (performed v) s').

(** ** Well-formed states, intents and updates *)

Definition readable {A} (C : StateCodec A) (addr : Address) s : Prop :=
  codec_decode (A := A) (default [] (read_bytes s addr)) = Ok (peek (A := A) s addr) ∧
  codec_wf (peek (A := A) s addr).

(** A fixed-size counter record, possibly absent. *)
Definition counter_record (n : nat) (addr : Address) s : Prop :=
  default [] (read_bytes s addr) = [] ∨ length (default [] (read_bytes s addr)) = n.

Record sound s : Prop := {
  sound_balances : canonical_balances s;
  sound_nonempty : map_Forall (λ _ b, b ≠ []) (bytes_state s);
  sound_height : (current_block_height s < width 64)%N;
  sound_authorities : readable AuthorityRegistry.codec reserved.authority_registry_address s;
  sound_validators : readable ValidatorRegistry.codec reserved.validator_registry_address s;
  sound_delegations :
    readable DelegationRegistry.codec reserved.validator_delegation_registry_address s;
  sound_obligations : readable ForceInclude.codec reserved.force_include_registry_address s;
  sound_ejections : readable EjectRegistry.codec reserved.ejection_registry_address s;
  sound_nullifiers : readable BurnNullifier.codec reserved.burn_nullifier_registry_address s;
  sound_offenses : readable EquivocationRegistry.codec reserved.equivocation_registry_address s;
  sound_assets : readable AssetRegistry.codec reserved.asset_registry_address s;
  sound_l2 : readable L2State.codec reserved.l2_registry_address s;
  sound_inflation : counter_record 8 reserved.inflation_registry_address s;
  sound_rewards : counter_record 16 reserved.rewards_distribution_registry_address s;
}.

(** The values of an update fit the field types of its record. *)
Definition update_ok (u : update) : Prop :=
  match u with
  | Keep => True
  | SetAuthorities m => ring_ok m
  | SetValidators m => ring_ok m
  | SetDelegations m => table_ok DelegationRegistry.entry_ok m
  | SetObligations m => table_ok ForceInclude.entry_ok m
  | SetEjections m => table_ok EjectRegistry.entry_ok m
  | SetNullifiers x => BurnNullifier.set_ok x
  | SetOffenses m => table_ok EquivocationRegistry.entry_ok m
  | SetAssets m => AssetRegistry.registry_ok m
  | SetL2 r => L2State.registry_ok r
  | SetInflation e => (e < width 64)%N
  | SetRewards p => (p.1 < width 64)%N ∧ (p.2 < width 64)%N
  end.

(** The field types of an intent. *)
Definition typed (i : Intent) : Prop :=
  match i with
  | Delegate from v _ => length from = 20 ∧ (v < width 32)%N
  | MintInflation epoch _ _ _ | DistributeRewards epoch _ _ => (epoch < width 64)%N
  | AdmitAuthority id stake _ _ | AdmitValidator id stake _ _ =>
      (id < width 32)%N ∧ (stake < width 64)%N
  | CommitL2StateRoot batch root _ _ vk =>
      (batch < width 64)%N ∧ length root = 32 ∧ length vk = 32
  | SetL2VerifyingKey chain agg range => length chain = 32 ∧ length agg = 32 ∧ length range = 32
  | L2ForceInclude _ deadline submitter nonce =>
      (deadline < width 64)%N ∧ length submitter = 20 ∧ (nonce < width 64)%N
  | SlashSequencer _ h => length h = 32
  | EjectSequencer _ ejector => length ejector = 20
  | AddBridgeAsset chain _ _ _ _ => (chain < width 64)%N
  | _ => True
  end.

(** Every registry has a free 32-bit entry count. *)
Definition room s : Prop :=
  Forall (λ n, (N.of_nat n + 1 < width 32)%N)
    [size (authority_map s); size (validator_map s); size (delegation_map s);
     size (force_include_map s); size (ejection_map s); size (nullifiers s);
     size (equivocation_map s); size (asset_registry s);
     size (L2State.chain_vks (l2_registry s)); size (L2State.state_roots (l2_registry s))].

(** The machine-width limits have not been reached. *)
Definition within_limits s : Prop := (supply s < width 128)%N ∧ room s.
#[global] Instance within_limits_dec s : Decision (within_limits s).
Proof. unfold within_limits, room. apply _. Defined.

(** ** Storing an update *)

Lemma stored_nonempty u a b : stored_as u = Some (a, b) → b ≠ [].
Proof.
  intros E. destruct u; cbn [stored_as] in E; simplify_eq;
    first [by apply be_bytes_app_nonempty
          |exact (codec_encode_nonempty (StateCodec := AuthorityRegistry.codec) _)
          |exact (codec_encode_nonempty (StateCodec := ValidatorRegistry.codec) _)
          |exact (codec_encode_nonempty (StateCodec := DelegationRegistry.codec) _)
          |exact (codec_encode_nonempty (StateCodec := ForceInclude.codec) _)
          |exact (codec_encode_nonempty (StateCodec := EjectRegistry.codec) _)
          |exact (codec_encode_nonempty (StateCodec := BurnNullifier.codec) _)
          |exact (codec_encode_nonempty (StateCodec := EquivocationRegistry.codec) _)
          |exact (codec_encode_nonempty (StateCodec := AssetRegistry.codec) _)
          |exact (codec_encode_nonempty (StateCodec := L2State.codec) _)
          |intros E'%(f_equal length); rewrite length_be_bytes in E'; done].
Qed.

Lemma wp_write u a b s Q :
  stored_as u = Some (a, b) → Q (Ok tt) (store u s) → wp (write_bytes_unchecked a b) s Q.
Proof.
  intros E HQ. unfold wp, write_bytes_unchecked. simpl. unfold store in HQ. rewrite E in HQ.
  by rewrite bool_decide_false by (by eapply stored_nonempty).
Qed.

Lemma wp_load {A} (C : StateCodec A) addr s Q :
  readable C addr s → Q (Ok (peek (C := C) s addr)) s →
  wp (load (codec_decode (StateCodec := C)) addr) s Q.
Proof. intros [E _] HQ. unfold wp, load. simpl. by rewrite E. Qed.

(** ** Assembling an effect *)

Lemma realises_nothing s : realises s nothing s.
Proof. exists s. split; [apply moved_refl|done]. Qed.

Lemma realises_move s s1 cr db u : moved s s1 cr db → realises s (mk_effect cr db u) (store u s1).
Proof. intros. by exists s1. Qed.

Lemma realises_only s u : realises s (only u) (store u s).
Proof. apply realises_move, moved_refl. Qed.

Lemma realises_keep s s1 cr db : moved s s1 cr db → realises s (mk_effect cr db Keep) s1.
Proof. intros. by exists s1. Qed.

(** A payment of nothing, or to oneself, leaves the state as it is. *)
Lemma realises_idle s from to n : n = 0%N ∨ from = to → realises s (move from to n Keep) s.
Proof.
  intros Hn. apply realises_keep. eapply moved_post; [apply moved_refl|..];
    destruct Hn; subst; amounts.
Qed.

(** Writing the record first and moving the funds afterwards. *)
Lemma realises_write_first s s2 cr db u :
  moved (store u s) s2 cr db → realises s (mk_effect cr db u) s2.
Proof.
  intros [B S R Hh C]. unfold store in *. destruct (stored_as u) as [[a b]|] eqn:E.
  - exists (with_balances (balances s2) s). split; [by split|].
    simpl. unfold store. rewrite E. destruct s2; simpl in *. by subst.
  - exists s2. split; [by split|]. simpl. unfold store. by rewrite E.
Qed.

Lemma balance_store u s a : balance (store u s) a = balance s a.
Proof. unfold store. by destruct (stored_as u) as [[]|]. Qed.

Lemma supply_store u s : supply (store u s) = supply s.
Proof. unfold store. by destruct (stored_as u) as [[]|]. Qed.

Lemma canonical_store u s : canonical_balances (store u s) ↔ canonical_balances s.
Proof. unfold store. by destruct (stored_as u) as [[]|]. Qed.

(** ** Symbolic execution *)

#[local] Ltac solve_readable :=
  lazymatch goal with
  | Hs : sound ?s |- readable _ _ ?s => destruct Hs; assumption
  end.
#[local] Ltac load_record C acc :=
  apply (wp_load C); [solve_readable|];
  match goal with |- context [peek (C := C) ?s ?a] => change (peek (C := C) s a) with (acc s) end.

#[local] Ltac wp_step :=
  lazymatch goal with
  | |- wp (mbind (λ _, credit_unchecked _ _) (debit_unchecked _ _)) _ _ =>
      apply wp_pay; [assumption|intros ? ? ?|intros ? ?]
  | |- wp (mbind _ _) _ _ => apply wp_bind
  | |- wp_next _ _ _ _ => wp_reduce
  | |- wp (gets _) _ _ => apply wp_gets
  | |- wp (mret _) _ _ => apply wp_ret
  | |- wp (throw _) _ _ => apply wp_throw
  | |- wp (deny (bool_decide (_ ≠ _)) _) _ _ =>
      apply wp_deny; [intros ?|let E := fresh in intros E; apply dec_stable in E]
  | |- wp (deny (bool_decide (is_Some _)) _) _ _ => apply wp_deny_present; [intros ? ?|intros ?]
  | |- wp (deny (bool_decide _) _) _ _ => apply wp_deny; intros ?
  | |- wp (deny _ _) _ _ => apply wp_deny_bool; intros ?
  | |- wp (of_outcome (ok_or (checked_add _ _ _) _)) _ _ => apply wp_checked; intros ?
  | |- wp (of_outcome (ok_or _ _)) _ _ => apply wp_ok_or; [intros ? ?|intros ?]
  | |- wp (if bool_decide _ then _ else _) _ _ => apply wp_if; intros ?
  | |- wp (load AuthorityRegistry.decode _) _ _ =>
      load_record constr:(AuthorityRegistry.codec) constr:(authority_map)
  | |- wp (load ValidatorRegistry.decode _) _ _ =>
      load_record constr:(ValidatorRegistry.codec) constr:(validator_map)
  | |- wp (load DelegationRegistry.decode _) _ _ =>
      load_record constr:(DelegationRegistry.codec) constr:(delegation_map)
  | |- wp (load ForceInclude.decode_map _) _ _ =>
      load_record constr:(ForceInclude.codec) constr:(force_include_map)
  | |- wp (load EjectRegistry.decode _) _ _ =>
      load_record constr:(EjectRegistry.codec) constr:(ejection_map)
  | |- wp (load BurnNullifier.decode _) _ _ =>
      load_record constr:(BurnNullifier.codec) constr:(nullifiers)
  | |- wp (load EquivocationRegistry.decode _) _ _ =>
      load_record constr:(EquivocationRegistry.codec) constr:(equivocation_map)
  | |- wp (load AssetRegistry.decode _) _ _ =>
      load_record constr:(AssetRegistry.codec) constr:(asset_registry)
  | |- wp (load L2State.decode _) _ _ => load_record constr:(L2State.codec) constr:(l2_registry)
  | |- wp (write_bytes_unchecked _ (AuthorityRegistry.encode ?m)) _ _ =>
      apply (wp_write (SetAuthorities m)); [reflexivity|]
  | |- wp (write_bytes_unchecked _ (ValidatorRegistry.encode ?m)) _ _ =>
      apply (wp_write (SetValidators m)); [reflexivity|]
  | |- wp (write_bytes_unchecked _ (DelegationRegistry.encode ?m)) _ _ =>
      apply (wp_write (SetDelegations m)); [reflexivity|]
  | |- wp (write_bytes_unchecked _ (ForceInclude.encode_map ?m)) _ _ =>
      apply (wp_write (SetObligations m)); [reflexivity|]
  | |- wp (write_bytes_unchecked _ (EjectRegistry.encode ?m)) _ _ =>
      apply (wp_write (SetEjections m)); [reflexivity|]
  | |- wp (write_bytes_unchecked _ (BurnNullifier.encode ?m)) _ _ =>
      apply (wp_write (SetNullifiers m)); [reflexivity|]
  | |- wp (write_bytes_unchecked _ (EquivocationRegistry.encode ?m)) _ _ =>
      apply (wp_write (SetOffenses m)); [reflexivity|]
  | |- wp (write_bytes_unchecked _ (AssetRegistry.encode ?m)) _ _ =>
      apply (wp_write (SetAssets m)); [reflexivity|]
  | |- wp (write_bytes_unchecked _ (L2State.encode ?m)) _ _ =>
      apply (wp_write (SetL2 m)); [reflexivity|]
  | |- wp (credit_unchecked _ _) _ _ => apply wp_credit; [intros ? ?|intros ? ?]
  | |- wp (debit_unchecked _ _) _ _ => apply wp_debit; [intros ? ? ?|intros ?]
  | |- wp (transfer_internal _ _ _) _ _ =>
      apply wp_transfer_limited; [assumption|intros ? ? ?|intros ? ?]
  | |- wp (set_balances _) _ _ => apply wp_set_balances
  | |- wp (let _ := _ in _) _ _ => cbv zeta
  end.

#[local] Ltac wp_run := repeat wp_step.

(** Evaluate the verdict of the specification on the path taken. *)
#[local] Ltac decide_verdict :=
  unfold spec_rewards, spec_delegate, spec_admit, spec_exit, spec_eject, spec_deposit,
    spec_withdraw, spec_commit, spec_burn, spec_force_include, spec_slash_missed, close_obligation,
    spec_slash_safety, spec_eject_sequencer, spec_payment, spec_slashed_funds, spec_add_asset,
    spec_asset_status, when, found, unless_zero, user in *;
  cbn [view authorities validators delegations obligations ejections burn_nullifiers offenses assets
       l2 inflation_epoch rewards_epochs] in *;
  rewrite ?balance_store in *;
  repeat match goal with
  | E : _ ≠ None |- _ => apply not_eq_None_Some in E
  | E : ?m !! ?k = Some _ |- context [?m !! ?k] => rewrite E
  | E : ?m !! ?k = None |- context [?m !! ?k] => rewrite E
  | |- context [match ?m !! ?k with Some _ => _ | None => _ end] => destruct (m !! k) eqn:?
  end.
#[local] Ltac split_guard :=
  match goal with |- context [if @decide ?P ?d then _ else _] => destruct (@decide P d) end.

#[local] Ltac refuted :=
  exfalso; destruct_and?;
  repeat match goal with E : _ <$> Some _ = Some _ |- _ => cbn in E; injection E as E end;
  first [done | congruence | lia
        |match goal with
         | H : ¬ _ |- _ => apply H; split_and?; first [done | lia | congruence | by cbn; f_equal]
         end].

(** Close a path: the verdict agrees and the effect is realised. *)
#[local] Ltac close_path :=
  lazymatch goal with |- _ ∧ _ => idtac end;
  decide_verdict; repeat (split_guard; try refuted); try (split; [done|]);
  split; first [done | refuted | idtac]; cbn [performed accept reject reject_as];
  first [apply realises_nothing
        |by apply realises_only
        |by apply realises_move
        |by apply realises_keep
        |by apply realises_write_first
        |by apply realises_idle; auto
        |idtac].

Lemma transfer_implements s from to n :
  within_limits s →
  implements (apply_transfer from to n) s
    (spec (Transfer from to n) (balance s) (view s) (current_block_height s)).
Proof.
  intros [Hsup _]. unfold implements, apply_transfer. cbn [spec]. wp_run.
  all: try match goal with
           | Hne : ?a ≠ ?b |- _ => pose proof (two_balances_le_supply s a b Hne)
           end; close_path.
  apply realises_keep, moved_transfer; auto; lia.
Qed.

(** ** Issuance *)

Lemma genesis_implements s l :
  sound s →
  implements (apply_genesis_allocation l) s
    (spec (GenesisAllocation l) (balance s) (view s) (current_block_height s)).
Proof.
  intros Hs. unfold implements, apply_genesis_allocation. cbn [spec]. wp_run; [close_path|].
  apply wp_credit_many; [intros s' Hf M|intros e Hf]; specialize (Hf (sound_balances _ Hs)); close_path.
Qed.

(** A sound counter record parses as its read accessor says. *)
Lemma inflation_record s :
  sound s →
  (if bool_decide (default [] (read_bytes s reserved.inflation_registry_address) = [])
   then Ok 0%N
   else if bool_decide (length (default [] (read_bytes s reserved.inflation_registry_address)) = 8)
   then Ok (be_value (default [] (read_bytes s reserved.inflation_registry_address)))
   else Err (corrupt reserved.inflation_registry_address "inflation registry size mismatch"))
  = Ok (last_minted_inflation_epoch s).
Proof.
  intros Hs. unfold last_minted_inflation_epoch. destruct (sound_inflation _ Hs) as [E|E].
  - by rewrite E.
  - rewrite E, bool_decide_false; [done|]. intros E'. by rewrite E' in E.
Qed.

Lemma rewards_record s :
  sound s →
  (if bool_decide (default [] (read_bytes s reserved.rewards_distribution_registry_address) = [])
   then Ok (0%N, 0%N)
   else if bool_decide
          (length (default [] (read_bytes s reserved.rewards_distribution_registry_address)) = 16)
   then Ok (be_value (take 8 (default [] (read_bytes s reserved.rewards_distribution_registry_address))),
            be_value (drop 8 (default [] (read_bytes s reserved.rewards_distribution_registry_address))))
   else Err (corrupt reserved.rewards_distribution_registry_address
               "rewards distribution registry size mismatch"))
  = Ok (last_distributed_rewards_epoch s RewardsRing.Authority,
        last_distributed_rewards_epoch s RewardsRing.Validator).
Proof.
  intros Hs. unfold last_distributed_rewards_epoch. destruct (sound_rewards _ Hs) as [E|E].
  - by rewrite E.
  - rewrite E, bool_decide_false; [done|]. intros E'. by rewrite E' in E.
Qed.

Lemma inflation_implements s epoch a v t :
  sound s →
  implements (apply_mint_inflation epoch a v t) s
    (spec (MintInflation epoch a v t) (balance s) (view s) (current_block_height s)).
Proof.
  intros Hs. unfold implements, apply_mint_inflation. cbn [spec]. wp_run.
  apply wp_of_outcome. rewrite inflation_record by done. wp_run; [close_path|].
  apply wp_credit_many; [intros s' Hf M|intros e Hf]; specialize (Hf (sound_balances _ Hs)); wp_run.
  - apply (wp_write (SetInflation epoch)); [done|]. close_path.
  - close_path.
Qed.

Lemma rewards_implements s epoch ring l :
  sound s → within_limits s →
  implements (apply_distribute_rewards epoch ring l) s
    (spec (DistributeRewards epoch ring l) (balance s) (view s) (current_block_height s)).
Proof.
  intros Hs [Hsup _]. unfold implements, apply_distribute_rewards. cbn [spec]. wp_run.
  apply wp_of_outcome. rewrite rewards_record by done. wp_run.
  { destruct ring; close_path. }
  apply wp_deny_reserved; [intros Hu|intros e Hu]; wp_run; [|destruct ring; close_path].
  apply wp_drain; [intros s' Hle M|intros e Hlt; specialize (Hlt (sound_balances _ Hs) Hsup)]; wp_run.
  - apply (wp_write (SetRewards match ring with
      | RewardsRing.Authority => (epoch, last_distributed_rewards_epoch s RewardsRing.Validator)
      | RewardsRing.Validator => (last_distributed_rewards_epoch s RewardsRing.Authority, epoch)
      end)); [by destruct ring|]. destruct ring; close_path.
  - destruct ring; close_path.
Qed.

(** ** The rings *)

Lemma delegate_implements s from v n :
  sound s → within_limits s →
  implements (apply_delegate from v n) s
    (spec (Delegate from v n) (balance s) (view s) (current_block_height s)).
Proof.
  intros Hs [Hsup _]. unfold implements, apply_delegate. cbn [spec]. wp_run; close_path.
Qed.

Lemma admit_authority_implements s id stake mldsa bls :
  sound s →
  implements (apply_admit_authority id stake mldsa bls) s
    (spec (AdmitAuthority id stake mldsa bls) (balance s) (view s) (current_block_height s)).
Proof.
  intros Hs. unfold implements, apply_admit_authority. cbn [spec]. wp_run; close_path.
Qed.

Lemma exit_authority_implements s id :
  sound s →
  implements (apply_exit_authority id) s
    (spec (ExitAuthority id) (balance s) (view s) (current_block_height s)).
Proof. intros Hs. unfold implements, apply_exit_authority. cbn [spec]. wp_run; close_path. Qed.

Lemma deposit_authority_implements s from id n :
  sound s → within_limits s →
  implements (apply_deposit_authority_stake from id n) s
    (spec (DepositAuthorityStake from id n) (balance s) (view s) (current_block_height s)).
Proof.
  intros Hs [Hsup _]. unfold implements, apply_deposit_authority_stake, add_stake. cbn [spec].
  wp_run; close_path.
Qed.

Lemma withdraw_authority_implements s to id n :
  sound s → within_limits s →
  implements (apply_withdraw_authority_stake to id n) s
    (spec (WithdrawAuthorityStake to id n) (balance s) (view s) (current_block_height s)).
Proof.
  intros Hs [Hsup _]. unfold implements, apply_withdraw_authority_stake, check_withdrawal. cbn [spec].
  wp_run; close_path.
Qed.

Lemma total_waterfall d : total (waterfall d) = d.
Proof. unfold waterfall. autorewrite with suwappu. pose proof (insurance_cut_le d). lia. Qed.

Lemma wp_waterfall pool d s Q :
  (∀ s', (d ≤ balance s pool)%N → moved s s' (waterfall d) [(pool, d)] → Q (Ok tt) s') →
  (∀ e, (canonical_balances s → supply s < width 128 → balance s pool < d)%N → Q (Err e) s) →
  wp (drain_waterfall pool d) s Q.
Proof.
  intros Hok Herr. unfold drain_waterfall. apply wp_if; intros Hd.
  - apply (wp_drain pool (waterfall d)); rewrite total_waterfall; auto.
  - apply wp_ret, Hok; [lia|]. assert (d = 0%N) as -> by lia.
    unfold waterfall. change (insurance_cut 0) with 0%N.
    eapply moved_post; [apply moved_refl|amounts..].
Qed.

Lemma eject_authority_implements s id ref :
  sound s → within_limits s →
  implements (apply_eject_authority id) s
    (spec (EjectAuthority id ref) (balance s) (view s) (current_block_height s)).
Proof.
  intros Hs [Hsup _]. unfold implements, apply_eject_authority. cbn [spec]. wp_run; [|close_path].
  apply wp_waterfall; [intros ???|intros e Hlt].
  - wp_run; close_path.
  - specialize (Hlt (sound_balances _ Hs) Hsup). lia.
Qed.

Lemma admit_validator_implements s id stake mldsa bls :
  sound s →
  implements (apply_admit_validator id stake mldsa bls) s
    (spec (AdmitValidator id stake mldsa bls) (balance s) (view s) (current_block_height s)).
Proof. intros Hs. unfold implements, apply_admit_validator. cbn [spec]. wp_run; close_path. Qed.

Lemma exit_validator_implements s id :
  sound s →
  implements (apply_exit_validator id) s
    (spec (ExitValidator id) (balance s) (view s) (current_block_height s)).
Proof. intros Hs. unfold implements, apply_exit_validator. cbn [spec]. wp_run; close_path. Qed.

Lemma deposit_validator_implements s from id n :
  sound s → within_limits s →
  implements (apply_deposit_validator_stake from id n) s
    (spec (DepositValidatorStake from id n) (balance s) (view s) (current_block_height s)).
Proof.
  intros Hs [Hsup _]. unfold implements, apply_deposit_validator_stake, add_stake. cbn [spec].
  wp_run; close_path.
Qed.

Lemma withdraw_validator_implements s to id n :
  sound s → within_limits s →
  implements (apply_withdraw_validator_stake to id n) s
    (spec (WithdrawValidatorStake to id n) (balance s) (view s) (current_block_height s)).
Proof.
  intros Hs [Hsup _]. unfold implements, apply_withdraw_validator_stake, check_withdrawal. cbn [spec].
  wp_run; close_path.
Qed.

Lemma eject_validator_implements s id ref :
  sound s → within_limits s →
  implements (apply_eject_validator id) s
    (spec (EjectValidator id ref) (balance s) (view s) (current_block_height s)).
Proof.
  intros Hs [Hsup _]. unfold implements, apply_eject_validator. cbn [spec]. wp_run; [|close_path].
  apply wp_waterfall; [intros ???|intros e Hlt].
  - wp_run; close_path.
  - specialize (Hlt (sound_balances _ Hs) Hsup). lia.
Qed.

(** ** The L2 bridge *)

Lemma wp_subslice b off n s Q :
  off + n ≤ length b → Q (Ok (take n (drop off b))) s → wp (of_outcome (subslice b off n)) s Q.
Proof. intros Hl HQ. apply wp_of_outcome. unfold subslice. by rewrite bool_decide_true. Qed.

Lemma wp_verify proof inputs vk s Q :
  (length proof = l2_verifier.SP1_GROTH16_BN254_PROOF_BYTES →
   length inputs = l2_verifier.L2_PUBLIC_INPUTS_BYTES → vk ≠ l2_verifier.zeros 32 → Q (Ok tt) s) →
  (∀ e, ¬ (length proof = l2_verifier.SP1_GROTH16_BN254_PROOF_BYTES ∧
           length inputs = l2_verifier.L2_PUBLIC_INPUTS_BYTES ∧ vk ≠ l2_verifier.zeros 32) →
        Q (Err e) s) →
  wp (of_outcome (match l2_verifier.verify_l2_batch proof inputs vk with
                  | Ok _ => Ok tt
                  | Err e => Err (L2VerifierRejected (l2_verifier.to_string e))
                  | Panic => Panic
                  end)) s Q.
Proof.
  intros Hok Herr. apply wp_of_outcome. unfold l2_verifier.verify_l2_batch.
  case_bool_decide as Hp; [apply Herr; tauto|]. case_bool_decide as Hi; [apply Herr; tauto|].
  case_bool_decide as Hv; [apply Herr; tauto|]. apply Hok; [lia|lia|done].
Qed.

Lemma commit_implements s batch root proof inputs vk :
  sound s →
  implements (apply_commit_l2_state_root batch root proof inputs vk) s
    (spec (CommitL2StateRoot batch root proof inputs vk) (balance s) (view s)
       (current_block_height s)).
Proof.
  intros Hs. unfold implements, apply_commit_l2_state_root. cbn [spec]. wp_run.
  apply wp_verify; [intros Hp Hi Hv|intros e Hn]; wp_run; [|close_path].
  unfold l2_verifier.L2_PUBLIC_INPUTS_BYTES in Hi.
  apply wp_subslice; [unfold l2_verifier.L1_ANCHOR_HEIGHT_OFFSET; lia|]. wp_run.
  apply wp_subslice; [unfold l2_verifier.L2_CHAIN_ID_HASH_OFFSET; lia|]. wp_run.
  apply wp_subslice; [unfold l2_verifier.DA_COMMITMENT_OFFSET; lia|]. wp_run; close_path.
Qed.

Lemma set_vk_implements s chain agg range :
  sound s →
  implements (apply_set_l2_verifying_key chain agg range) s
    (spec (SetL2VerifyingKey chain agg range) (balance s) (view s) (current_block_height s)).
Proof. intros Hs. unfold implements, apply_set_l2_verifying_key. cbn [spec]. wp_run; close_path. Qed.

Lemma wp_check_asset asset s Q :
  (asset_active (view s) asset → Q (Ok tt) s) → (∀ e, ¬ asset_active (view s) asset → Q (Err e) s) →
  wp (check_asset asset) s Q.
Proof.
  intros Hok Herr. destruct asset as [id|]; [|by apply wp_ret, Hok].
  unfold check_asset, assert_bridge_asset_active, bridge_asset. apply wp_bind, wp_gets. wp_reduce.
  unfold asset_active in *. cbn [view assets] in *.
  destruct (asset_registry s !! id) as [rec|]; [|apply wp_throw, Herr; done].
  simpl in *. destruct (AssetRegistry.status rec) eqn:E;
    first [by apply wp_ret, Hok | apply wp_throw, Herr; congruence].
Qed.

Lemma lock_implements s from to n asset :
  within_limits s →
  implements (apply_l1_lock from n asset) s
    (spec (L1Lock from to n asset) (balance s) (view s) (current_block_height s)).
Proof.
  intros [Hsup _]. unfold implements, apply_l1_lock. cbn [spec]. wp_run; [close_path|].
  apply wp_check_asset; [intros Ha|intros e Ha]; wp_run; close_path.
Qed.

Lemma burn_implements s batch to n path asset chain :
  sound s → within_limits s →
  implements (apply_l2_burn_proven batch to n path asset chain) s
    (spec (L2BurnProven batch to n path asset chain) (balance s) (view s) (current_block_height s)).
Proof.
  intros Hs [Hsup _]. unfold implements, apply_l2_burn_proven, l2_state_root_record. cbn [spec].
  wp_run; [close_path..|].
  apply wp_check_asset; [intros Ha|intros e Ha]; wp_run; try close_path.
Qed.

Lemma force_include_implements s tx deadline submitter nonce :
  sound s →
  implements (apply_l2_force_include tx deadline submitter nonce) s
    (spec (L2ForceInclude tx deadline submitter nonce) (balance s) (view s) (current_block_height s)).
Proof. intros Hs. unfold implements, apply_l2_force_include. cbn [spec]. wp_run; close_path. Qed.

Lemma honored_implements s id :
  sound s →
  implements (apply_mark_force_include_honored id) s
    (spec (MarkForceIncludeHonored id) (balance s) (view s) (current_block_height s)).
Proof.
  intros Hs. unfold implements, apply_mark_force_include_honored, pending_obligation. cbn [spec].
  wp_run; close_path.
Qed.

(** ** Bonds, pools and assets *)

Lemma bond_implements s bond from n v :
  within_limits s → v = spec_payment (balance s) from from bond n →
  implements (apply_deposit_bond bond from n) s v.
Proof.
  intros [Hsup _] ->. unfold implements, apply_deposit_bond. wp_run; close_path.
Qed.

Lemma payout_implements s pool to n v :
  within_limits s → v = spec_payment (balance s) to pool to n →
  implements (apply_pool_payout pool to n) s v.
Proof.
  intros [Hsup _] ->. unfold implements, apply_pool_payout. wp_run; close_path.
Qed.

Lemma add_asset_implements s chain contract dec nm sym :
  sound s →
  implements (apply_add_bridge_asset chain contract dec nm sym) s
    (spec (AddBridgeAsset chain contract dec nm sym) (balance s) (view s) (current_block_height s)).
Proof. intros Hs. unfold implements, apply_add_bridge_asset. cbn [spec]. wp_run; close_path. Qed.

Lemma asset_status_implements s id st :
  sound s → implements (set_asset_status id st) s (spec_asset_status (view s) id st).
Proof. intros Hs. unfold implements, set_asset_status. wp_run; close_path. Qed.

(** ** Slashing *)

Lemma wp_slash_bond bond n s Q :
  (supply s < width 128)%N → (n ≤ balance s bond)%N →
  (∀ s', moved s s' (waterfall n) [(bond, n)] → Q (Ok tt) s') → wp (slash_bond bond n) s Q.
Proof.
  intros Hsup Hle HQ. unfold slash_bond. cbv zeta. fold (insurance_cut n).
  pose proof (insurance_cut_le n) as Hcut.
  apply wp_bind, wp_debit; wp_reduce; [intros s1 _ M1|lia].
  pose proof (moved_supply _ _ _ _ M1) as E1. autorewrite with suwappu in E1.
  apply wp_bind, wp_credit; wp_reduce; [intros s2 M2|intros _ Hov].
  2: { pose proof (balance_le_supply s1 reserved.insurance_pool_address). lia. }
  pose proof (moved_supply _ _ _ _ M2) as E2. autorewrite with suwappu in E2.
  apply wp_credit; [intros s3 M3|intros _ Hov].
  2: { pose proof (balance_le_supply s2 reserved.treasury_address). lia. }
  apply HQ. unfold waterfall.
  pose proof (moved_trans _ _ _ _ _ _ _ M1 (moved_trans _ _ _ _ _ _ _ M2 M3)) as M.
  eapply moved_post; [exact M|amounts..].
Qed.

Lemma wp_pay_bounty to b s Q :
  (supply s < width 128)%N →
  (∀ s', let paid := N.min b (balance s reserved.treasury_address) in
         moved s s' [(to, paid)] [(reserved.treasury_address, paid)] → Q (Ok tt) s') →
  wp (pay_bounty to b) s Q.
Proof.
  intros Hsup HQ. unfold pay_bounty.
  assert (∀ n, n = 0%N → moved s s [(to, n)] [(reserved.treasury_address, n)]) as Hidle.
  { intros n ->. eapply moved_post; [apply moved_refl|amounts..]. }
  set (t := balance s reserved.treasury_address) in *.
  apply wp_if; intros Hb; [|apply wp_ret, HQ, Hidle; lia].
  apply wp_bind, wp_gets. wp_reduce. fold t.
  replace (if bool_decide (b < t)%N then b else t) with (N.min b t) by (case_bool_decide; lia).
  apply wp_if; intros Hp; [|apply wp_ret, HQ, Hidle; lia].
  apply wp_pay; [done|intros s' _ M; by apply HQ|intros e Hlt]. fold t in Hlt. lia.
Qed.

Lemma safety_implements s kind id :
  sound s → within_limits s →
  implements (apply_slash_safety kind id) s (spec_slash_safety (balance s) (view s) kind id).
Proof.
  intros Hs [Hsup _]. unfold implements, apply_slash_safety. wp_run.
  destruct (equivocation_map s !! id) as [prior|] eqn:E; wp_run; [close_path|..].
  - assert (balance s reserved.safety_bond_address = 0%N) as Ez by (by rewrite balance_store in *).
    close_path. apply realises_write_first. rewrite Ez. unfold waterfall.
    change (insurance_cut 0) with 0%N. eapply moved_post; [apply moved_refl|amounts..].
  - apply wp_slash_bond; [by rewrite supply_store|done|]. intros s' M. close_path.
Qed.

Lemma eject_sequencer_implements s id ejector :
  sound s → within_limits s →
  implements (apply_eject_sequencer id ejector) s
    (spec (EjectSequencer id ejector) (balance s) (view s) (current_block_height s)).
Proof.
  intros Hs [Hsup _]. unfold implements, apply_eject_sequencer. cbn [spec]. wp_run; try close_path.
  apply wp_pay_bounty; [by rewrite supply_store|]. cbv zeta. intros s' M. close_path.
Qed.

Lemma slashed_funds_implements s ev cs insurance treasury :
  sound s →
  implements (apply_distribute_slashed_funds cs insurance treasury) s
    (spec (DistributeSlashedFunds ev cs insurance treasury) (balance s) (view s)
       (current_block_height s)).
Proof.
  intros Hs. unfold implements, apply_distribute_slashed_funds. cbn [spec].
  apply wp_bind, wp_deny_reserved; [intros Hu|intros e Hu]; wp_reduce; [|close_path].
  unfold wp. rewrite credit_all_snoc2. apply wp_credit_all; [apply Hs|]. intros r s' Hr Hok M.
  unfold spec_slashed_funds, when. rewrite decide_True by done.
  destruct (credited_prefix _ _ _) as [ok p]. simpl in *. split_and!; [done..|]. by apply realises_keep.
Qed.

Context `{!ReservedDistinct}.

Lemma treasury_ne_insurance : reserved.insurance_pool_address ≠ reserved.treasury_address.
Proof. distinct. Qed.
Lemma sequencer_bond_ne_treasury : reserved.sequencer_bond_address ≠ reserved.treasury_address.
Proof. distinct. Qed.

(** A slash of nothing pays nothing. *)
Lemma slash_idle s id ob :
  force_include_map s !! id = Some ob → ForceInclude.status ob = ObligationStatus.Pending →
  liveness_slash_amount (balance s reserved.sequencer_bond_address) = 0%N →
  accepted (spec_slash_missed (balance s) (view s) id) = true ∧
  realises s (performed (spec_slash_missed (balance s) (view s) id)) (store (SetObligations
    (<[id := with_ob_status ob ObligationStatus.Slashed]> (force_include_map s))) s).
Proof.
  intros E Hp Hz. decide_verdict. rewrite decide_True by done. split; [done|].
  cbn [performed accept]. rewrite Hz. apply realises_write_first. unfold waterfall, bounty_paid.
  change (insurance_cut 0) with 0%N. change (snitch_bounty_amount 0) with 0%N.
  eapply moved_post; [apply moved_refl|..];
    destruct (reserved.is_reserved (ForceInclude.submitter ob)); amounts.
Qed.

(** The bounty tail, after the bond has been split. *)
Lemma slash_missed_tail s s1 id ob :
  within_limits s →
  force_include_map s !! id = Some ob → ForceInclude.status ob = ObligationStatus.Pending →
  let cut := liveness_slash_amount (balance s reserved.sequencer_bond_address) in
  moved (store (SetObligations
           (<[id := with_ob_status ob ObligationStatus.Slashed]> (force_include_map s))) s) s1
    (waterfall cut) [(reserved.sequencer_bond_address, cut)] →
  wp (if reserved.is_reserved (ForceInclude.submitter ob) then mret tt
      else pay_bounty (ForceInclude.submitter ob) (snitch_bounty_amount cut)) s1
    (λ r s', r ≠ Panic ∧ is_Ok r = accepted (spec_slash_missed (balance s) (view s) id) ∧
             realises s (performed (spec_slash_missed (balance s) (view s) id)) s').
Proof.
  intros [Hsup _] E Hp cut M1. decide_verdict. rewrite decide_True by done.
  cbn [accepted accept performed]. fold cut.
  destruct (reserved.is_reserved (ForceInclude.submitter ob)) eqn:Er.
  { apply wp_ret. split_and!; [done..|]. apply realises_write_first.
    eapply moved_post; [exact M1|amounts..]. }
  pose proof (moved_supply _ _ _ _ M1) as Es.
  rewrite supply_store, total_waterfall, total_cons, total_nil in Es.
  pose proof (moved_balance _ _ _ _ M1 reserved.treasury_address) as Et. unfold waterfall in Et.
  rewrite balance_store, !amount_at_cons, !amount_at_nil in Et.
  rewrite !(decide_False (P := reserved.sequencer_bond_address = _)) in Et
    by apply sequencer_bond_ne_treasury.
  rewrite (decide_False (P := reserved.insurance_pool_address = _)) in Et
    by apply treasury_ne_insurance.
  rewrite decide_True in Et by done.
  assert (balance s1 reserved.treasury_address
          = balance s reserved.treasury_address + (cut - insurance_cut cut))%N as Et' by lia.
  apply wp_pay_bounty; [lia|]. rewrite Et'. cbv zeta. intros s2 M2.
  split_and!; [done..|]. apply realises_write_first.
  eapply moved_post; [exact (moved_trans _ _ _ _ _ _ _ M1 M2)|unfold bounty_paid; amounts..].
Qed.

Lemma slash_missed_implements s id :
  sound s → within_limits s →
  implements (apply_slash_missed_force_include id) s (spec_slash_missed (balance s) (view s) id).
Proof.
  intros Hs Hl. pose proof Hl as [Hsup _].
  unfold implements, apply_slash_missed_force_include, pending_obligation.
  wp_run; rewrite ?balance_store in *; try solve [close_path].
  - destruct (slash_idle s id a) as [Ha Hr]; [done..| |by rewrite Ha].
    match goal with E : balance s _ = 0%N |- _ => by rewrite E end.
  - destruct (slash_idle s id a) as [Ha Hr]; [done..|by rewrite Ha].
  - pose proof (liveness_slash_le (balance s reserved.sequencer_bond_address)).
    set (cut := liveness_slash_amount (balance s reserved.sequencer_bond_address)) in *.
    apply wp_slash_bond; [by rewrite supply_store|by rewrite balance_store|]. intros s1 M1. wp_run.
    by apply slash_missed_tail.
Qed.

(** ** The whole dispatch *)

Lemma apply_implements s i :
  sound s → within_limits s →
  implements (apply_intent i) s (spec i (balance s) (view s) (current_block_height s)).
Proof.
  intros Hs Hl. destruct i as [| | | | | | | | | | | | | | | |[]| | | | | | | | | | | | | | |];
    cbn [apply_intent];
    auto using transfer_implements, genesis_implements, inflation_implements, rewards_implements,
      delegate_implements, admit_authority_implements, exit_authority_implements,
      eject_authority_implements, admit_validator_implements, exit_validator_implements,
      eject_validator_implements, commit_implements, set_vk_implements, lock_implements,
      burn_implements, force_include_implements, slash_missed_implements, safety_implements,
      honored_implements, eject_sequencer_implements, bond_implements, deposit_authority_implements,
      deposit_validator_implements, withdraw_authority_implements, withdraw_validator_implements,
      payout_implements, slashed_funds_implements, add_asset_implements, asset_status_implements.
  all: apply wp_ret; split_and!; [done..|apply realises_nothing].
Qed.

(** ** The decoded view after an update *)

Lemma peek_moved {A} (C : StateCodec A) s s' a :
  bytes_state s' = bytes_state s → peek (C := C) s' a = peek (C := C) s a.
Proof. intros E. unfold peek, read_bytes. by rewrite E. Qed.

Lemma view_moved s s' : bytes_state s' = bytes_state s → view s' = view s.
Proof.
  intros E. unfold view, authority_map, validator_map, delegation_map, force_include_map,
    ejection_map, nullifiers, equivocation_map, asset_registry, l2_registry,
    last_minted_inflation_epoch, last_distributed_rewards_epoch, peek, read_bytes. by rewrite E.
Qed.

Lemma readable_moved {A} (C : StateCodec A) s s' a :
  bytes_state s' = bytes_state s → readable C a s → readable C a s'.
Proof. intros E. unfold readable, peek, read_bytes. by rewrite E. Qed.

Lemma sound_moved s s' cr db : moved s s' cr db → sound s → sound s'.
Proof.
  intros [_ _ R Hh C] []. split; eauto using readable_moved; try by rewrite ?R, ?Hh.
  all: unfold counter_record, read_bytes in *; by rewrite R.
Qed.

(** Reading back an account. *)
Lemma read_store u a b s c :
  stored_as u = Some (a, b) → read_bytes (store u s) c = if decide (a = c) then Some b else read_bytes s c.
Proof.
  intros E. unfold store, read_bytes. rewrite E. simpl. case_decide; subst; by simplify_map_eq.
Qed.

Lemma peek_store {A} (C : StateCodec A) u a b s x :
  stored_as u = Some (a, b) → b = codec_encode (StateCodec := C) x → codec_wf x →
  peek (C := C) (store u s) a = x ∧ readable C a (store u s).
Proof.
  intros E -> Hx. unfold readable, peek. rewrite (read_store u a _ _ _ E), decide_True by done.
  simpl. by rewrite (codec_roundtrip x Hx).
Qed.

Lemma peek_store_ne {A} (C : StateCodec A) u a b s c :
  stored_as u = Some (a, b) → a ≠ c →
  peek (C := C) (store u s) c = peek (C := C) s c ∧
  (readable C c s → readable C c (store u s)).
Proof.
  intros E Hne. unfold readable, peek. by rewrite (read_store u a _ _ _ E), decide_False by done.
Qed.

Lemma counters_store_ne u a b s :
  stored_as u = Some (a, b) →
  (a ≠ reserved.inflation_registry_address →
   last_minted_inflation_epoch (store u s) = last_minted_inflation_epoch s ∧
   (counter_record 8 reserved.inflation_registry_address s →
    counter_record 8 reserved.inflation_registry_address (store u s))) ∧
  (a ≠ reserved.rewards_distribution_registry_address →
   (∀ ring, last_distributed_rewards_epoch (store u s) ring = last_distributed_rewards_epoch s ring) ∧
   (counter_record 16 reserved.rewards_distribution_registry_address s →
    counter_record 16 reserved.rewards_distribution_registry_address (store u s))).
Proof.
  intros E. unfold last_minted_inflation_epoch, last_distributed_rewards_epoch, counter_record.
  rewrite !(read_store u a b s _ E). split; intros; by rewrite decide_False by done.
Qed.

Lemma inflation_store e s :
  (e < width 64)%N →
  last_minted_inflation_epoch (store (SetInflation e) s) = e ∧
  counter_record 8 reserved.inflation_registry_address (store (SetInflation e) s).
Proof.
  intros He. unfold last_minted_inflation_epoch, counter_record.
  rewrite (read_store (SetInflation e) _ _ s _ eq_refl), decide_True by done.
  cbn [default from_option id].
  rewrite length_be_bytes, bool_decide_true by done. split; [|by right].
  apply be_value_be_bytes. by rewrite <-width_64.
Qed.

Lemma rewards_store p s :
  (p.1 < width 64)%N → (p.2 < width 64)%N →
  last_distributed_rewards_epoch (store (SetRewards p) s) RewardsRing.Authority = p.1 ∧
  last_distributed_rewards_epoch (store (SetRewards p) s) RewardsRing.Validator = p.2 ∧
  counter_record 16 reserved.rewards_distribution_registry_address (store (SetRewards p) s).
Proof.
  intros H1 H2. unfold last_distributed_rewards_epoch, counter_record.
  rewrite (read_store (SetRewards p) _ _ s _ eq_refl), decide_True by done. cbn [default from_option id].
  rewrite length_app, !length_be_bytes, bool_decide_true by done.
  rewrite take_app_length', drop_app_length' by (by rewrite length_be_bytes).
  rewrite width_64 in *. split_and!; [by apply be_value_be_bytes..|by right].
Qed.

(** The field of the view kept in account [c] after storing [u]. *)
#[local] Ltac field_tac C c :=
  lazymatch goal with
  | |- context [store ?u ?s] =>
      let st := eval cbn [stored_as] in (stored_as u) in
      lazymatch st with
      | Some (c, ?b) => refine (proj1 (peek_store C u c b s _ eq_refl eq_refl _)); assumption
      | Some (?a, ?b) => refine (proj1 (peek_store_ne C u a b s c eq_refl _)); distinct
      end
  end.
#[local] Ltac view_field :=
  lazymatch goal with
  | |- authority_map _ = _ =>
      field_tac constr:(AuthorityRegistry.codec) constr:(reserved.authority_registry_address)
  | |- validator_map _ = _ =>
      field_tac constr:(ValidatorRegistry.codec) constr:(reserved.validator_registry_address)
  | |- delegation_map _ = _ =>
      field_tac constr:(DelegationRegistry.codec) constr:(reserved.validator_delegation_registry_address)
  | |- force_include_map _ = _ =>
      field_tac constr:(ForceInclude.codec) constr:(reserved.force_include_registry_address)
  | |- ejection_map _ = _ =>
      field_tac constr:(EjectRegistry.codec) constr:(reserved.ejection_registry_address)
  | |- nullifiers _ = _ =>
      field_tac constr:(BurnNullifier.codec) constr:(reserved.burn_nullifier_registry_address)
  | |- equivocation_map _ = _ =>
      field_tac constr:(EquivocationRegistry.codec) constr:(reserved.equivocation_registry_address)
  | |- asset_registry _ = _ =>
      field_tac constr:(AssetRegistry.codec) constr:(reserved.asset_registry_address)
  | |- l2_registry _ = _ =>
      field_tac constr:(L2State.codec) constr:(reserved.l2_registry_address)
  end.

#[local] Ltac counter_field :=
  lazymatch goal with
  | |- context [store (SetInflation ?e) ?s] =>
      first [apply inflation_store; assumption
            |refine (proj1 (proj2 (counters_store_ne (SetInflation e) _ _ s eq_refl) _) _); distinct
            |refine (proj2 (proj2 (counters_store_ne (SetInflation e) _ _ s eq_refl) _) _);
             [distinct|assumption]
            |f_equal; counter_field]
  | |- context [store (SetRewards ?p) ?s] =>
      let R := constr:(rewards_store p s) in
      destruct_and!;
      first [refine (proj1 (proj1 (counters_store_ne (SetRewards p) _ _ s eq_refl) _)); distinct
            |refine (proj2 (proj1 (counters_store_ne (SetRewards p) _ _ s eq_refl) _) _);
             [distinct|assumption]
            |apply R; assumption
            |destruct R as (-> & -> & _); [assumption..|by destruct p]]
  | |- context [store ?u ?s] =>
      let N := constr:(counters_store_ne u _ _ s eq_refl) in
      first [refine (proj1 (proj1 N _)); distinct
            |refine (proj2 (proj1 N _) _); [distinct|assumption]
            |refine (proj2 (proj2 N _) _); [distinct|assumption]
            |f_equal; refine (proj1 (proj2 N _) _); distinct]
  end.

#[local] Ltac readable_field :=
  lazymatch goal with
  | |- readable ?C ?c (store ?u ?s) =>
      let st := eval cbn [stored_as] in (stored_as u) in
      lazymatch st with
      | Some (c, ?b) => refine (proj2 (peek_store C u c b s _ eq_refl eq_refl _)); eassumption
      | Some (?a, ?b) =>
          refine (proj2 (peek_store_ne C u a b s c eq_refl _) _); [distinct|assumption]
      end
  end.

(** An update stored in one account is read back, and no other registry moves. *)
Lemma view_store u s : update_ok u → view (store u s) = updated u (view s).
Proof.
  intros Hu. destruct u; cbn [update_ok] in Hu; [done|..]; unfold view; cbn [updated].
  all: f_equal; first [view_field | counter_field].
Qed.

Lemma nonempty_store u s :
  map_Forall (λ _ b, b ≠ []) (bytes_state s) → map_Forall (λ _ b, b ≠ []) (bytes_state (store u s)).
Proof.
  intros Hn. unfold store. destruct (stored_as u) as [[a b]|] eqn:E; [|done]. simpl.
  apply map_Forall_insert_2; [by eapply stored_nonempty|done].
Qed.

Lemma sound_store u s : update_ok u → sound s → sound (store u s).
Proof.
  intros Hu [Hb Hn Hh]. destruct u; cbn [update_ok] in Hu; [by split|..]; split;
    lazymatch goal with
    | |- readable _ _ _ => readable_field
    | |- counter_record _ _ _ => counter_field
    | |- canonical_balances _ => exact Hb
    | |- map_Forall _ _ => by apply nonempty_store
    | |- _ => exact Hh
    end.
Qed.

(** ** The updates of the specification are storable *)

Lemma size_insert_room {K V} `{Countable K} (m : gmap K V) k v :
  (N.of_nat (size m) + 1 < width 32)%N → (N.of_nat (size (<[k := v]> m)) < width 32)%N.
Proof. intros Hm. rewrite map_size_insert. destruct (m !! k); simpl; lia. Qed.

Lemma ring_ok_insert {S} (m : gmap N (RingRecord S)) id rec :
  ring_ok m → (N.of_nat (size m) + 1 < width 32)%N → ring_record_ok id rec →
  ring_ok (<[id := rec]> m).
Proof. intros [_ Hm] Hr Hrec. split; [by apply size_insert_room|by apply map_Forall_insert_2]. Qed.

Lemma table_ok_insert {K V} `{Countable K} (ok : K → V → Prop) (m : gmap K V) k v :
  table_ok ok m → (N.of_nat (size m) + 1 < width 32)%N → ok k v → table_ok ok (<[k := v]> m).
Proof. intros [_ Hm] Hr Hk. split; [by apply size_insert_room|by apply map_Forall_insert_2]. Qed.

Section ring_updates.
Context {S : Type} `{EqDecision S} (st1 st2 : S) (m : gmap N (RingRecord S)).
Context (upd : gmap N (RingRecord S) → update) (pool : Address) (bal : Address → Balance).
Hypothesis Hupd : ∀ m', ring_ok m' → update_ok (upd m').
Hypothesis Hm : ring_ok m.
Hypothesis Hroom : (N.of_nat (size m) + 1 < width 32)%N.

Lemma ring_insert_ok id rec : ring_record_ok id rec → update_ok (upd (<[id := rec]> m)).
Proof. intros. by apply Hupd, ring_ok_insert. Qed.

#[local] Ltac ring_update :=
  unfold spec_admit, spec_exit, spec_eject, spec_deposit, spec_withdraw, unless_zero, found, when;
  repeat match goal with
  | |- context [match ?x !! ?k with Some _ => _ | None => _ end] =>
      let E := fresh in destruct (x !! k) eqn:E; [apply (proj2 Hm) in E|]
  | |- context [if @decide ?P ?d then _ else _] => destruct (@decide P d)
  end; destruct_and?; simpl; (apply Hupd, Hm || done || apply ring_insert_ok);
  unfold ring_record_ok in *; simpl; destruct_and?; split_and!; try done; lia.

Lemma admit_update_ok id stake mldsa bls :
  (id < width 32)%N → (stake < width 64)%N →
  update_ok (writes (performed (spec_admit st1 m upd id stake mldsa bls))).
Proof. intros. ring_update. Qed.

Lemma exit_update_ok height id :
  (height < width 64)%N → update_ok (writes (performed (spec_exit st1 st2 m upd height id))).
Proof. intros. ring_update. Qed.

Lemma eject_update_ok id : update_ok (writes (performed (spec_eject st1 m upd pool bal id))).
Proof. intros. ring_update. Qed.

Lemma deposit_update_ok from id n :
  update_ok (writes (performed (spec_deposit st1 m upd pool bal from id n))).
Proof. intros. ring_update. Qed.

Lemma withdraw_update_ok height to id n :
  update_ok (writes (performed (spec_withdraw st1 m upd pool bal height to id n))).
Proof. intros. ring_update. Qed.
End ring_updates.

#[local] Ltac eval_guards :=
  repeat match goal with
  | |- context [match ?x !! ?k with Some _ => _ | None => _ end] => destruct (x !! k) eqn:?
  | |- context [if @decide ?P ?d then _ else _] => destruct (@decide P d)
  end; destruct_and?; simpl; try done.

(** The entry an existing key maps to is well formed. *)
#[local] Ltac entry_ok_of Hok :=
  match goal with E : ?m !! ?k = Some ?x |- _ => pose proof (proj2 Hok k x E) as Hentry end.

Lemma l2_update_ok (reg : L2State.L2Registry) batch root (proof inputs : bytes) vk chain agg range :
  L2State.registry_ok reg → (N.of_nat (size (L2State.chain_vks reg)) + 1 < width 32)%N →
  (N.of_nat (size (L2State.state_roots reg)) + 1 < width 32)%N →
  (length inputs = l2_verifier.L2_PUBLIC_INPUTS_BYTES → (batch < width 64)%N → length root = 32 →
   length vk = 32 →
   let at_ off n := take n (drop off inputs) in
   L2State.registry_ok (L2State.mk (L2State.chain_vks reg)
     (<[(at_ l2_verifier.L2_CHAIN_ID_HASH_OFFSET 32, batch) :=
          L2State.mk_root root (be_value (at_ l2_verifier.L1_ANCHOR_HEIGHT_OFFSET 8)) vk
            (at_ l2_verifier.DA_COMMITMENT_OFFSET 32)]> (L2State.state_roots reg)))) ∧
  (length chain = 32 → length agg = 32 → length range = 32 →
   L2State.registry_ok (L2State.set_chain_vks reg chain agg range)).
Proof.
  intros (H1 & H2 & H3 & H4) Hr1 Hr2. split.
  - intros Hi Hb Hroot Hvk at_. unfold l2_verifier.L2_PUBLIC_INPUTS_BYTES in Hi.
    assert (∀ off n, off + n ≤ 240 → length (at_ off n) = n) as Hl.
    { intros off n Ho. unfold at_. rewrite length_take, length_drop. lia. }
    unfold L2State.registry_ok. simpl. split_and!; [done..|by apply size_insert_room|].
    apply map_Forall_insert_2; [|done]. unfold L2State.root_ok. simpl.
    split_and!; [by apply Hl; unfold l2_verifier.L2_CHAIN_ID_HASH_OFFSET; lia|done|done| |done|
                 by apply Hl; unfold l2_verifier.DA_COMMITMENT_OFFSET; lia].
    rewrite width_64. rewrite <-(Hl l2_verifier.L1_ANCHOR_HEIGHT_OFFSET 8) at 2 by
      (unfold l2_verifier.L1_ANCHOR_HEIGHT_OFFSET; lia). apply be_value_lt.
  - intros Hc Ha Hg. unfold L2State.registry_ok, L2State.set_chain_vks. simpl.
    split_and!; [by apply size_insert_room| |done..]. by apply map_Forall_insert_2.
Qed.

(** The well-formedness and the free space of every registry of a sound state. *)
Record registries_ok (r : Registries) : Prop := {
  ok_authorities : ring_ok (authorities r) ∧ (N.of_nat (size (authorities r)) + 1 < width 32)%N;
  ok_validators : ring_ok (validators r) ∧ (N.of_nat (size (validators r)) + 1 < width 32)%N;
  ok_delegations : table_ok DelegationRegistry.entry_ok (delegations r) ∧
    (N.of_nat (size (delegations r)) + 1 < width 32)%N;
  ok_obligations : table_ok ForceInclude.entry_ok (obligations r) ∧
    (N.of_nat (size (obligations r)) + 1 < width 32)%N;
  ok_ejections : table_ok EjectRegistry.entry_ok (ejections r) ∧
    (N.of_nat (size (ejections r)) + 1 < width 32)%N;
  ok_nullifiers : BurnNullifier.set_ok (burn_nullifiers r) ∧
    (N.of_nat (size (burn_nullifiers r)) + 1 < width 32)%N;
  ok_offenses : table_ok EquivocationRegistry.entry_ok (offenses r) ∧
    (N.of_nat (size (offenses r)) + 1 < width 32)%N;
  ok_assets : AssetRegistry.registry_ok (assets r) ∧ (N.of_nat (size (assets r)) + 1 < width 32)%N;
  ok_l2 : L2State.registry_ok (l2 r) ∧ (N.of_nat (size (L2State.chain_vks (l2 r))) + 1 < width 32)%N ∧
    (N.of_nat (size (L2State.state_roots (l2 r))) + 1 < width 32)%N;
  ok_epochs : (inflation_epoch r < width 64)%N ∧ ((rewards_epochs r).1 < width 64)%N ∧
    ((rewards_epochs r).2 < width 64)%N;
}.

Lemma counter_lt n (b : bytes) : length b = n → (be_value b < 256 ^ N.of_nat n)%N.
Proof. intros <-. apply be_value_lt. Qed.

Lemma sound_registries s : sound s → room s → registries_ok (view s).
Proof.
  intros Hs Hroom. unfold room in Hroom. rewrite !Forall_cons in Hroom. destruct_and! Hroom.
  destruct Hs. unfold readable in *. destruct_and!. split; split_and?; try done; simpl; rewrite width_64.
  - unfold last_minted_inflation_epoch. case_bool_decide; [by apply (counter_lt 8)|done].
  - unfold last_distributed_rewards_epoch. case_bool_decide; [|done]. apply (counter_lt 8).
    rewrite length_take. lia.
  - unfold last_distributed_rewards_epoch. case_bool_decide; [|done]. apply (counter_lt 8).
    rewrite length_drop. lia.
Qed.

Section updates.
Context (bal : Address → Balance) (r : Registries) (Hr : registries_ok r).

#[local] Ltac updates_of :=
  unfold spec_rewards, spec_delegate, spec_commit, spec_burn, spec_force_include,
    spec_slash_missed, close_obligation, spec_slash_safety, spec_eject_sequencer, spec_payment,
    spec_add_asset, spec_asset_status, unless_zero, found, when; eval_guards.

Lemma payment_update_ok party from to n :
  update_ok (writes (performed (spec_payment bal party from to n))).
Proof. updates_of. Qed.

Lemma rewards_update_ok epoch ring l :
  (epoch < width 64)%N → update_ok (writes (performed (spec_rewards bal r epoch ring l))).
Proof. destruct (ok_epochs _ Hr) as (_ & ? & ?). intros. destruct ring; updates_of. Qed.

Lemma delegate_update_ok from v n :
  length from = 20 → (v < width 32)%N →
  update_ok (writes (performed (spec_delegate bal r from v n))).
Proof.
  intros. updates_of. apply table_ok_insert; [apply (ok_delegations _ Hr)..|].
  unfold DelegationRegistry.entry_ok. simpl. split_and!; [done..|lia|done].
Qed.

Lemma commit_update_ok batch root proof inputs vk :
  (batch < width 64)%N → length root = 32 → length vk = 32 →
  update_ok (writes (performed (spec_commit r batch root proof inputs vk))).
Proof.
  intros. updates_of. destruct (ok_l2 _ Hr) as (? & ? & ?).
  by apply (l2_update_ok (l2 r) batch root proof inputs vk [] [] []).
Qed.

Lemma burn_update_ok batch to n path asset chain :
  update_ok (writes (performed (spec_burn bal r batch to n path asset chain))).
Proof.
  assert (∀ burn, length burn = 32 → BurnNullifier.set_ok ({[burn]} ∪ burn_nullifiers r)) as Hn.
  { intros burn Hb. destruct (ok_nullifiers _ Hr) as [[_ Hf] Hroom]. split.
    - assert (size ({[burn]} ∪ burn_nullifiers r) ≤ 1 + size (burn_nullifiers r)); [|lia].
      rewrite size_union_alt, size_singleton. apply Nat.add_le_mono_l, subseteq_size. set_solver.
    - intros x [->%elem_of_singleton|Hx]%elem_of_union; auto. }
  updates_of; apply Hn, blake3_length.
Qed.

Lemma force_include_update_ok tx deadline submitter nonce :
  (deadline < width 64)%N → length submitter = 20 → (nonce < width 64)%N →
  update_ok (writes (performed (spec_force_include r tx deadline submitter nonce))).
Proof.
  intros. updates_of. apply table_ok_insert; [apply (ok_obligations _ Hr)..|].
  unfold ForceInclude.entry_ok. simpl. split_and!; try done; apply blake3_length.
Qed.

Lemma closed_update_ok id ob st :
  obligations r !! id = Some ob →
  table_ok ForceInclude.entry_ok (<[id := with_ob_status ob st]> (obligations r)).
Proof.
  intros E. destruct (ok_obligations _ Hr) as [Ho Hroom].
  apply table_ok_insert; [done..|]. exact (proj2 Ho id ob E).
Qed.

Lemma close_update_ok id st cr db :
  update_ok (writes (performed (close_obligation r id st (λ ob u, accept (mk_effect (cr ob) (db ob) u))))).
Proof. updates_of. by apply closed_update_ok. Qed.

Lemma safety_update_ok kind id :
  length id = 32 → update_ok (writes (performed (spec_slash_safety bal r kind id))).
Proof. intros. updates_of. apply table_ok_insert; [apply (ok_offenses _ Hr)..|done]. Qed.

Lemma eject_sequencer_update_ok id ejector :
  length ejector = 20 → update_ok (writes (performed (spec_eject_sequencer bal r id ejector))).
Proof.
  intros. updates_of. apply table_ok_insert; [apply (ok_ejections _ Hr)..|].
  destruct (obligations r !! id) as [ob|] eqn:E; [|done].
  split; [|done]. by apply (proj2 (proj1 (ok_obligations _ Hr)) id ob E).
Qed.

Lemma asset_insert_ok id rec :
  AssetRegistry.entry_ok id rec → AssetRegistry.registry_ok (<[id := rec]> (assets r)).
Proof.
  intros Hrec. destruct (ok_assets _ Hr) as [[_ Ha] Hroom].
  split; [by apply size_insert_room|by apply map_Forall_insert_2].
Qed.

Lemma add_asset_update_ok chain contract dec nm sym :
  (chain < width 64)%N → update_ok (writes (performed (spec_add_asset r chain contract dec nm sym))).
Proof.
  intros. updates_of. apply asset_insert_ok. unfold AssetRegistry.entry_ok. simpl.
  split_and!; try done. apply blake3_length.
Qed.

Lemma asset_status_update_ok id st :
  update_ok (writes (performed (spec_asset_status r id st))).
Proof.
  updates_of. apply asset_insert_ok.
  exact (proj2 (proj1 (ok_assets _ Hr)) id _ ltac:(eassumption)).
Qed.
End updates.

Lemma spec_update_ok bal r height i :
  registries_ok r → (height < width 64)%N → typed i →
  update_ok (writes (performed (spec i bal r height))).
Proof.
  intros Hr Hh Ht. pose proof Hr as [[] [] _ _ _ _ _ _ OL _].
  destruct i as [| | | | | | | | | | | | | | | |[]| | | | | | | | | | | | | | |]; cbn [spec typed] in *;
    destruct_and?;
    try solve [done | unfold when, unless_zero; eval_guards
              |eauto using admit_update_ok, exit_update_ok, eject_update_ok, deposit_update_ok,
                 withdraw_update_ok, payment_update_ok, rewards_update_ok, delegate_update_ok,
                 commit_update_ok, burn_update_ok, force_include_update_ok, safety_update_ok,
                 eject_sequencer_update_ok, add_asset_update_ok, asset_status_update_ok
              |by apply close_update_ok].
  - unfold when. eval_guards. by apply (l2_update_ok (l2 r) 0 [] [] [] []).
  - unfold spec_slashed_funds, when. eval_guards. by destruct (credited_prefix _ _ _).
Qed.

(** ** One step of the abstract ledger *)

(** The outcome [r] and state [s'] are what the verdict [v] prescribes from [s]. *)
Record follows s (v : verdict) (r : outcome ExecutionError unit) s' : Prop := {
  follows_total : r ≠ Panic;
  follows_verdict : is_Ok r = accepted v;
  follows_balance : ∀ a, (balance s' a + amount_at (debits (performed v)) a
                          = balance s a + amount_at (credits (performed v)) a)%N;
  follows_supply : (supply s' + total (debits (performed v))
                    = supply s + total (credits (performed v)))%N;
  follows_view : view s' = updated (writes (performed v)) (view s);
  follows_records : bytes_state s' = match stored_as (writes (performed v)) with
                                     | Some (a, b) => <[a := b]> (bytes_state s)
                                     | None => bytes_state s
                                     end;
  follows_height : current_block_height s' = current_block_height s;
  follows_sound : sound s';
}.

Lemma apply_follows s i :
  sound s → within_limits s → typed i →
  follows s (spec i (balance s) (view s) (current_block_height s))
    (apply_intent i s).1 (apply_intent i s).2.
Proof.
  intros Hs Hl Ht. pose proof (apply_implements s i Hs Hl) as (Hp & Hv & s1 & M & E).
  pose proof (spec_update_ok (balance s) (view s) (current_block_height s) i
    (sound_registries s Hs (proj2 Hl)) (sound_height _ Hs) Ht) as Hu.
  rewrite E. destruct (spec _ _ _ _) as [ok [cr db u]].
  cbn [performed accepted credits debits writes] in *. destruct M as [B S R Hh C]. split; cbn [performed accepted credits debits writes]; try done.
  - intros a. by rewrite balance_store.
  - by rewrite supply_store.
  - by rewrite view_store, (view_moved s s1).
  - unfold store. destruct (stored_as u) as [[a b]|]; simpl; by rewrite R.
  - unfold store. destruct (stored_as u) as [[a b]|]; done.
  - apply sound_store; [done|]. eapply sound_moved; [|done]. by split.
Qed.

(** ** Histories *)

(** The substrate's driver advances the height and applies intents. *)
Inductive event := Apply (i : Intent) | Advance (height : N).

Definition after (e : event) s : InMemorySubstrate :=
  match e with
  | Apply i => (apply_intent i s).2
  | Advance h => set_current_block_height s h
  end.

Definition run s (es : list event) : InMemorySubstrate := foldl (λ s e, after e s) s es.

Definition event_ok (e : event) : Prop :=
  match e with Apply i => typed i | Advance h => (h < width 64)%N end.

(** Every event is well typed and met within the machine limits. *)
Fixpoint legal s (es : list event) : Prop :=
  match es with
  | [] => True
  | e :: es' => event_ok e ∧ within_limits s ∧ legal (after e s) es'
  end.

Lemma readable_new {A} (C : StateCodec A) a : codec_wf (codec_default (A := A)) → readable C a new.
Proof.
  intros Hd. unfold readable, peek, read_bytes, new. simpl. rewrite lookup_empty. simpl.
  by rewrite codec_empty.
Qed.

Lemma sound_new : sound new.
Proof.
  split; try (apply readable_new); try (by left); try done.
  all: try apply map_Forall_empty; split; try done; split_and?; try done; apply map_Forall_empty.
Qed.

Lemma sound_after e s : sound s → within_limits s → event_ok e → sound (after e s).
Proof.
  intros Hs Hl He. destruct e as [i|h]; simpl in *.
  - by apply (follows_sound _ _ _ _ (apply_follows s i Hs Hl He)).
  - destruct Hs. by split.
Qed.

(** An invariant of the steps is an invariant of the histories. *)
Lemma run_invariant (P : InMemorySubstrate → Prop) s es :
  (∀ s e, sound s → within_limits s → event_ok e → P s → P (after e s)) →
  sound s → legal s es → P s → sound (run s es) ∧ P (run s es).
Proof.
  intros Hstep. revert s. induction es as [|e es IH]; intros s Hs; simpl; [done|].
  intros (He & Hl & Hes) HP. apply IH; [by apply sound_after|done|by apply Hstep].
Qed.
End refinement.
