(* ===== verification/Ledger.v ===== *)
(** * What the ledger guarantees

    The properties of [apply_intent] over single steps and over whole
    histories of intents and height changes, derived from the refinement of
    the abstract ledger: conservation of supply, atomicity of rejections, who
    may be debited, burn claims paid once, stake locked until its cooldown,
    solvent stake pools, one-way life cycles. *)

From S2P Require Import Prelude Crypto ExecTypes Codec Registries Substrate.
From S2P Require Import LedgerSpec Moves Refinement.

Section ledger.
Context `{HB : Blake3, HD : !ReservedDistinct}.
Implicit Types (s : InMemorySubstrate) (i : Intent) (bal : Address → Balance) (r : Registries).

(** ** Supply *)

(** What an accepted intent issues. *)
Definition issued (i : Intent) : N :=
  match i with
  | GenesisAllocation l => total l
  | MintInflation _ a v t => (a + v + t)%N
  | DistributeSlashedFunds _ cs insurance treasury => (total cs + insurance + treasury)%N
  | _ => 0%N
  end.
Definition issuer (i : Intent) : bool :=
  match i with
  | GenesisAllocation _ | MintInflation _ _ _ _ | DistributeSlashedFunds _ _ _ _ => true
  | _ => false
  end.

Lemma credited_prefix_all bal acc l p : credited_prefix bal acc l = (true, p) → p = acc ++ l.
Proof.
  revert acc. induction l as [|[a n] l IH]; intros acc; simpl.
  - intros. simplify_eq. by rewrite app_nil_r.
  - case_decide; [|done]. intros ->%IH. by rewrite <-(assoc_L (++)).
Qed.

Lemma spec_balanced i bal r height :
  let v := spec i bal r height in
  (issuer i = false → total (credits (performed v)) = total (debits (performed v))) ∧
  (accepted v = true →
   (total (credits (performed v)) = total (debits (performed v)) + issued i)%N).
Proof.
  cbv zeta. spec_branches i; cbn [issued issuer]; rewrite ?total_app, ?total_waterfall;
    try (split; intros; try done; amounts).
  apply credited_prefix_all in Heqp as ->. split; [done|]. intros _. amounts.
Qed.
(** C1. Conservation of supply.  From a sound state within the machine limits,
    an accepted intent changes the sum of all balances by exactly what it
    issues: the genesis allocations, the inflation shares or the slash
    distribution, and nothing for each of the other twenty-nine intents.  An
    intent that does not issue conserves the sum also when it is rejected, and
    [total_supply] reports that sum. *)
Theorem supply_conservation s i :
  sound s → within_limits s → typed i →
  let '(res, s') := apply_intent i s in
  (res = Ok tt → supply s' = (supply s + issued i)%N) ∧
  (issuer i = false → supply s' = supply s) ∧
  total_supply s = supply s.
Proof.
  intros Hs Hl Ht. pose proof (apply_follows s i Hs Hl Ht) as [_ Hv _ HS _ _ _ _].
  destruct (apply_intent i s) as [res s']. cbn [fst snd] in *.
  destruct (spec_balanced i (balance s) (view s) (current_block_height s)) as [H1 H2].
  split_and!.
  - intros ->. specialize (H2 (eq_sym Hv)). lia.
  - intros Hi. specialize (H1 Hi). lia.
  - unfold total_supply, supply. rewrite wrapping_sum_small, btree_values_sum; [done|].
    rewrite btree_values_sum. apply Hl.
Qed.

(** ** Rejections *)

Lemma spec_rejects_nothing i bal r height :
  let v := spec i bal r height in
  accepted v = false →
  match i with
  | L2BurnProven batch to n path asset chain =>
      performed v = nothing ∨
      ((bal reserved.bridge_escrow_address < n)%N ∧
       performed v = only (SetNullifiers
         ({[BurnNullifier.burn_id chain batch to n path asset]} ∪ burn_nullifiers r)))
  | DistributeSlashedFunds _ _ _ _ => debits (performed v) = [] ∧ writes (performed v) = Keep
  | _ => performed v = nothing
  end.
Proof.
  cbv zeta. spec_branches i; intros; try done; try (by left). right. split; [lia|done].
Qed.

(** States with canonical balances are determined by what they hold. *)
Lemma canonical_ext s s' :
  canonical_balances s → canonical_balances s' → (∀ a, balance s a = balance s' a) →
  balances s = balances s'.
Proof.
  intros Hc Hc' E. apply map_eq. intros a. specialize (E a). unfold balance in E.
  destruct (balances s !! a) as [v|] eqn:E1, (balances s' !! a) as [v'|] eqn:E2; simpl in E; subst;
    try done.
  - apply Hc in E1. lia.
  - apply Hc' in E2. lia.
Qed.

Lemma follows_nothing s v res s' :
  sound s → follows s v res s' → performed v = nothing → s' = s.
Proof.
  intros Hs [_ _ HB' _ _ HR Hh Hs'] E. rewrite E in *. cbn [nothing credits debits writes stored_as] in *.
  assert (balances s' = balances s) as Eb.
  { apply canonical_ext; [apply Hs'|apply Hs|]. intros a. specialize (HB' a).
    rewrite amount_at_nil in HB'. lia. }
  destruct s, s'. simpl in *. congruence.
Qed.

(** C10. Rejections are atomic.  A rejected intent leaves the whole substrate as
    it was, with two exceptions: a burn claim refused for lack of escrow is
    recorded as claimed, and a slash distribution keeps the credits made
    before the overflowing one. *)
Theorem rejection_atomic s i e s' :
  sound s → within_limits s → typed i → apply_intent i s = (Err e, s') →
  match i with
  | L2BurnProven batch to n path asset chain =>
      s' = s ∨
      ((bridge_escrow_balance s < n)%N ∧ (∀ a, balance s' a = balance s a) ∧
       burn_id_claimed s' (BurnNullifier.burn_id chain batch to n path asset) = true)
  | DistributeSlashedFunds _ _ _ _ =>
      bytes_state s' = bytes_state s ∧ ∀ a, (balance s a ≤ balance s' a)%N
  | _ => s' = s
  end.
Proof.
  intros Hs Hl Ht E. pose proof (apply_follows s i Hs Hl Ht) as Hf. rewrite E in Hf. cbn [fst snd] in Hf.
  pose proof (spec_rejects_nothing i (balance s) (view s) (current_block_height s)
    (eq_sym (follows_verdict _ _ _ _ Hf))) as Hn.
  pose proof (follows_nothing _ _ _ _ Hs Hf) as Hsame.
  destruct i; try (by apply Hsame); clear E.
  - destruct Hn as [Hn|[Hlt Hn]]; [left; by apply Hsame|right].
    destruct Hf as [_ _ B _ V _ _ _]. rewrite Hn in B, V.
    cbn [only credits debits writes] in B, V. split_and!; [done|..].
    + intros a. specialize (B a). rewrite amount_at_nil in B. lia.
    + unfold burn_id_claimed. apply bool_decide_eq_true_2.
      apply (f_equal burn_nullifiers) in V. simpl in V. rewrite V. set_solver.
  - destruct Hn as [Hd Hw]. destruct Hf as [_ _ B _ _ R _ _]. rewrite Hw in R. split; [done|].
    intros a. specialize (B a). rewrite Hd, amount_at_nil in B. lia.
Qed.

(** ** Debits *)

(** The account an intent names as the payer. *)
Definition payer (i : Intent) : option Address :=
  match i with
  | Transfer from _ _ | Delegate from _ _ | L1Lock from _ _ _ | DepositSequencerBond from _
  | DepositSafetyBond from _ | DepositAuthorityStake from _ _ | DepositValidatorStake from _ _ =>
      Some from
  | _ => None
  end.

(** The protocol accounts an intent may draw on. *)
Definition drawn_pools (i : Intent) : list Address :=
  match i with
  | DistributeRewards _ RewardsRing.Authority _ => [reserved.authority_rewards_pool_address]
  | DistributeRewards _ RewardsRing.Validator _ => [reserved.validator_rewards_pool_address]
  | EjectAuthority _ _ | WithdrawAuthorityStake _ _ _ => [reserved.authority_stake_pool_address]
  | EjectValidator _ _ | WithdrawValidatorStake _ _ _ => [reserved.validator_stake_pool_address]
  | L2BurnProven _ _ _ _ _ _ => [reserved.bridge_escrow_address]
  | SlashSequencer SlashReason.MissedForceInclude _ =>
      [reserved.sequencer_bond_address; reserved.treasury_address]
  | SlashSequencer SlashReason.Downtime _ => []
  | SlashSequencer _ _ => [reserved.safety_bond_address]
  | EjectSequencer _ _ | DisburseTreasury _ _ _ => [reserved.treasury_address]
  | ClaimInsurance _ _ _ => [reserved.insurance_pool_address]
  | _ => []
  end.

Lemma spec_debits i bal r height :
  Forall (λ e, payer i = Some e.1 ∨ e.1 ∈ drawn_pools i) (debits (performed (spec i bal r height))).
Proof.
  spec_branches i; cbn [payer drawn_pools]; rewrite ?Forall_cons; split_and?; try apply Forall_nil_2;
    cbn [fst]; first [by left|right; left|right; right; left].
Qed.

Lemma drawn_pools_reserved i a : a ∈ drawn_pools i → ¬ user a.
Proof.
  intros Ha. destruct i as [| |?[]| | | | | | | | | | | | | |[]| | | | | | | | | | | | | | |];
    cbn [drawn_pools] in Ha;
    repeat (apply elem_of_cons in Ha as [->|Ha]); first [not_user|by apply elem_of_nil in Ha].
Qed.

(** C12. Debits are authorised.  Applying an intent, accepted or not, lowers a
    balance only if the intent names that account as its payer or the account
    is one of the protocol pools that kind of intent draws on; so a user's
    balance is lowered by no intent that does not name the user as payer. *)
Theorem debits_authorised s i a :
  sound s → within_limits s → typed i →
  (balance (apply_intent i s).2 a < balance s a)%N →
  (payer i = Some a ∨ a ∈ drawn_pools i) ∧ (user a → payer i = Some a).
Proof.
  intros Hs Hl Ht Hlt. pose proof (apply_follows s i Hs Hl Ht) as [_ _ B _ _ _ _ _].
  assert (payer i = Some a ∨ a ∈ drawn_pools i) as Ha.
  { destruct (decide (payer i = Some a ∨ a ∈ drawn_pools i)) as [|Hn]; [done|exfalso].
    specialize (B a). rewrite amount_at_absent in B; [lia|].
    eapply Forall_impl; [apply spec_debits|]. intros [b n] Hb Eb. simpl in *. subst. auto. }
  split; [done|]. intros Hu. destruct Ha as [|Ha]; [done|]. by apply drawn_pools_reserved in Ha.
Qed.

(** ** Registries along histories *)

(** A relation between registries that every step respects holds along a history. *)
Lemma run_registries (R : Registries → Registries → Prop) s es :
  Reflexive R → Transitive R →
  (∀ i bal r height, registries_ok r → R r (updated (writes (performed (spec i bal r height))) r)) →
  sound s → legal s es → sound (run s es) ∧ R (view s) (view (run s es)).
Proof.
  intros Hrefl Htrans Hstep Hs Hes.
  apply (run_invariant (λ s', R (view s) (view s')) s es); [|done|done|reflexivity].
  intros s1 e Hs1 Hl He HR. transitivity (view s1); [done|]. destruct e as [i|h]; simpl.
  - rewrite (follows_view _ _ _ _ (apply_follows s1 i Hs1 Hl He)).
    apply Hstep, sound_registries; [done|apply Hl].
  - rewrite (view_moved s1 (set_current_block_height s1 h)) by done. reflexivity.
Qed.

Lemma run_cons s e es : run s (e :: es) = run (after e s) es.
Proof. done. Qed.

(** A later intent the specification rejects outright. *)
Lemma rejected_unchanged s i :
  sound s → within_limits s → typed i →
  spec i (balance s) (view s) (current_block_height s) = reject →
  (apply_intent i s).1 ≠ Ok tt ∧ (apply_intent i s).2 = s.
Proof.
  intros Hs Hl Ht E. pose proof (apply_follows s i Hs Hl Ht) as Hf. split.
  - intros Eok. pose proof (follows_verdict _ _ _ _ Hf) as Hv. by rewrite Eok, E in Hv.
  - eapply follows_nothing; [done|exact Hf|by rewrite E].
Qed.

Lemma nullifiers_grow s es :
  sound s → legal s es → sound (run s es) ∧ nullifiers s ⊆ nullifiers (run s es).
Proof.
  apply (run_registries (λ r r', burn_nullifiers r ⊆ burn_nullifiers r')).
  - intros r. done.
  - intros r1 r2 r3. by etransitivity.
  - intros i bal r height _. destruct r as [au va de ob ej nu ofs ass l inf rew].
    spec_branches i; cbn [updated burn_nullifiers]; set_solver.
Qed.

Lemma burn_accepted_claims s batch to n path asset chain :
  sound s → within_limits s → n ≠ 0%N →
  (apply_intent (L2BurnProven batch to n path asset chain) s).1 = Ok tt →
  BurnNullifier.burn_id chain batch to n path asset
    ∈ nullifiers (apply_intent (L2BurnProven batch to n path asset chain) s).2.
Proof.
  intros Hs Hl Hn Hok. pose proof (apply_follows s (L2BurnProven batch to n path asset chain) Hs Hl I) as Hf.
  pose proof (follows_view _ _ _ _ Hf) as V. apply (f_equal burn_nullifiers) in V.
  pose proof (follows_verdict _ _ _ _ Hf) as Hv. rewrite Hok in Hv. revert V Hv. cbn [spec].
  unfold spec_burn, unless_zero, when. rewrite decide_False by done.
  repeat case_decide; simpl; intros V Hv; try done. rewrite V. set_solver.
Qed.

(** C11. A burn is paid once.  After a non-zero burn claim has been paid out, no
    history of intents and height changes, of any length, leads to a state
    that accepts a claim with the same burn identifier: the later claim is
    rejected and changes nothing. *)
Theorem burn_paid_once s es batch to n path asset chain batch' to' n' path' asset' chain' :
  let claim := L2BurnProven batch to n path asset chain in
  let again := L2BurnProven batch' to' n' path' asset' chain' in
  let s' := run s (Apply claim :: es) in
  sound s → legal s (Apply claim :: es) → within_limits s' →
  n ≠ 0%N → (apply_intent claim s).1 = Ok tt →
  n' ≠ 0%N → BurnNullifier.burn_id chain' batch' to' n' path' asset'
              = BurnNullifier.burn_id chain batch to n path asset →
  (apply_intent again s').1 ≠ Ok tt ∧ (apply_intent again s').2 = s'.
Proof.
  intros claim again s' Hs (Hc & Hl & Hes) Hl' Hn Hok Hn' Eid.
  destruct (nullifiers_grow (after (Apply claim) s) es) as [Hs' Hsub];
    [by apply sound_after|done|]. rewrite <-run_cons in *. fold s' in Hs', Hsub.
  apply rejected_unchanged; [done..|]. cbn [spec again]. unfold spec_burn, unless_zero, when.
  rewrite decide_False by done. rewrite decide_False; [done|]. intros (_ & _ & _ & Hnew).
  apply Hnew. rewrite Eid. apply Hsub. by apply burn_accepted_claims.
Qed.

(** ** Epoch counters *)

Definition epochs_le r r' : Prop :=
  (inflation_epoch r ≤ inflation_epoch r')%N ∧
  ((rewards_epochs r).1 ≤ (rewards_epochs r').1)%N ∧ ((rewards_epochs r).2 ≤ (rewards_epochs r').2)%N.

Lemma epochs_grow s es :
  sound s → legal s es → sound (run s es) ∧ epochs_le (view s) (view (run s es)).
Proof.
  apply run_registries; unfold epochs_le.
  - intros r. lia.
  - intros r1 r2 r3. lia.
  - intros i bal r height _. destruct r as [au va de ob ej nu ofs ass l inf [ra rv]].
    spec_branches i; cbn [updated inflation_epoch rewards_epochs fst snd] in *; lia.
Qed.

Definition ring_epoch r (ring : RewardsRing) : N :=
  match ring with
  | RewardsRing.Authority => (rewards_epochs r).1
  | RewardsRing.Validator => (rewards_epochs r).2
  end.

Lemma issuance_accepted s i :
  sound s → within_limits s → typed i → (apply_intent i s).1 = Ok tt →
  match i with
  | MintInflation epoch _ _ _ => inflation_epoch (view (apply_intent i s).2) = epoch
  | DistributeRewards epoch ring _ => ring_epoch (view (apply_intent i s).2) ring = epoch
  | _ => True
  end.
Proof.
  intros Hs Hl Ht Hok. pose proof (apply_follows s i Hs Hl Ht) as Hf.
  pose proof (follows_view _ _ _ _ Hf) as V. pose proof (follows_verdict _ _ _ _ Hf) as Hv.
  rewrite Hok in Hv. destruct i; try done; rewrite V; revert Hv; cbn [spec].
  - unfold spec_rewards, when. destruct ring; case_decide; done.
  - unfold when. case_decide; done.
Qed.

(** C15. An epoch is minted once and rewarded once per ring.  After an accepted
    [MintInflation] (or [DistributeRewards] for a ring), every later state of
    every history rejects each epoch up to and including it, for that counter,
    and the rejection changes nothing. *)
Theorem epoch_issued_once s es i j :
  let s' := run s (Apply i :: es) in
  sound s → legal s (Apply i :: es) → within_limits s' → typed j →
  (apply_intent i s).1 = Ok tt →
  match i, j with
  | MintInflation epoch _ _ _, MintInflation epoch' _ _ _ => (epoch' ≤ epoch)%N
  | DistributeRewards epoch ring _, DistributeRewards epoch' ring' _ => ring' = ring ∧ (epoch' ≤ epoch)%N
  | _, _ => False
  end →
  (apply_intent j s').1 ≠ Ok tt ∧ (apply_intent j s').2 = s'.
Proof.
  intros s' Hs (Hi & Hl & Hes) Hl' Hj Hok Hij.
  pose proof (issuance_accepted s i Hs Hl Hi Hok) as Hat.
  destruct (epochs_grow (after (Apply i) s) es) as [Hs' Hle]; [by apply sound_after|done|].
  rewrite <-run_cons in *. fold s' in Hs', Hle. destruct Hle as (L1 & L2 & L3).
  apply rejected_unchanged; [done..|]. cbn [after] in *.
  destruct i; try done; destruct j; try done; cbn [spec].
  - destruct Hij as [-> Hle]. unfold spec_rewards, when. destruct ring; cbn [ring_epoch] in Hat;
      (rewrite decide_False; [done|]; intros []; lia).
  - unfold when. rewrite decide_False; [done|]. intros []. lia.
Qed.

Lemma run_app s es1 es2 : run s (es1 ++ es2) = run (run s es1) es2.
Proof. apply foldl_app. Qed.

Lemma legal_app s es1 es2 : legal s (es1 ++ es2) ↔ legal s es1 ∧ legal (run s es1) es2.
Proof.
  revert s. induction es1 as [|e es1 IH]; intros s; simpl; [tauto|]. rewrite IH. tauto.
Qed.

Lemma run_sound s es : sound s → legal s es → sound (run s es).
Proof. intros Hs Hes. by apply (run_invariant (λ _, True)). Qed.

(** ** Force-include obligations *)

(** The terms of an obligation never change and a closed one stays closed. *)
Definition obligation_kept (ob ob' : ForceInclude.ForceIncludeObligation) : Prop :=
  ob' = with_ob_status ob (ForceInclude.status ob') ∧
  (ForceInclude.status ob ≠ ObligationStatus.Pending → ForceInclude.status ob' = ForceInclude.status ob).

Definition obligations_kept r r' : Prop :=
  (∀ id ob, obligations r !! id = Some ob →
     ∃ ob', obligations r' !! id = Some ob' ∧ obligation_kept ob ob') ∧
  (∀ id rec, ejections r !! id = Some rec → ejections r' !! id = Some rec).

Lemma obligation_kept_refl ob : obligation_kept ob ob.
Proof. split; [by destruct ob|done]. Qed.

#[local] Instance obligations_kept_refl : Reflexive obligations_kept.
Proof. intros r. split; [|done]. intros id ob E. exists ob. auto using obligation_kept_refl. Qed.
#[local] Instance obligations_kept_trans : Transitive obligations_kept.
Proof.
  intros r1 r2 r3 [A1 B1] [A2 B2]. split; [|auto]. intros id ob E.
  destruct (A1 _ _ E) as (ob1 & E1 & T1 & S1). destruct (A2 _ _ E1) as (ob2 & E2 & T2 & S2).
  exists ob2. split; [done|]. split; [by rewrite T2, T1|].
  intros Hp. rewrite S2; [by apply S1|]. by rewrite S1.
Qed.

Lemma obligations_insert (m : gmap bytes ForceInclude.ForceIncludeObligation) k x id ob :
  m !! id = Some ob → (m !! k = None ∨ ∃ ob0, m !! k = Some ob0 ∧ obligation_kept ob0 x) →
  ∃ ob', <[k := x]> m !! id = Some ob' ∧ obligation_kept ob ob'.
Proof.
  intros E Hk. destruct (decide (k = id)) as [->|].
  - destruct Hk as [|(ob0 & E0 & Hk)]; [congruence|]. exists x. rewrite lookup_insert_eq. split; [done|].
    by simplify_eq.
  - exists ob. rewrite lookup_insert_ne by done. auto using obligation_kept_refl.
Qed.

Lemma obligations_step i bal r height :
  obligations_kept r (updated (writes (performed (spec i bal r height))) r).
Proof.
  spec_branches i; destruct r as [au va de obs ej nu ofs ass l2r inf rew];
    cbn [updated obligations ejections] in *; destruct_and?; try reflexivity;
    split; cbn [obligations ejections]; try done; intros id ob E.
  all: try by exists ob; auto using obligation_kept_refl.
  all: try (rewrite lookup_insert_ne; [done|]; congruence).
  all: apply obligations_insert; [done|].
  - by left.
  - right. eexists. split; [done|]. split; simpl; [done|]. congruence.
  - right. eexists. split; [done|]. split; simpl; [done|]. congruence.
Qed.

(** An ejection is recorded only for a slashed obligation. *)
Definition ejected_slashed r : Prop :=
  ∀ id, is_Some (ejections r !! id) →
        ForceInclude.status <$> obligations r !! id = Some ObligationStatus.Slashed.

Lemma ejected_slashed_step i bal r height :
  ejected_slashed r → ejected_slashed (updated (writes (performed (spec i bal r height))) r).
Proof.
  intros Hr id. destruct (obligations_step i bal r height) as [Ho _].
  assert (ForceInclude.status <$> obligations r !! id = Some ObligationStatus.Slashed →
          ForceInclude.status <$>
            obligations (updated (writes (performed (spec i bal r height))) r) !! id
          = Some ObligationStatus.Slashed) as Hkeep.
  { intros (ob & E & Eo)%fmap_Some. destruct (Ho id ob E) as (ob' & -> & _ & Hst). simpl.
    rewrite Hst; [by f_equal|]. by rewrite <-Eo. }
  intros Hej. apply Hkeep. revert Hej.
  specialize (Hr id). spec_branches i; destruct r as [au va de obs ej nu ofs ass l2r inf rew];
    cbn [updated ejections obligations] in *; try done.
  destruct (decide (obligation_id = id)) as [->|]; [tauto|]. by rewrite lookup_insert_ne.
Qed.

(** C17. Force-include obligations have a one-way life.  Along every history from
    the empty substrate an obligation, once registered, keeps its transaction
    hash, deadline, submitter and nonce; it is closed at most once (a status
    other than pending is final); an ejection record is never altered or
    repeated, and exists only for a slashed obligation. *)
Theorem obligation_lifecycle es1 es2 :
  let s1 := run new es1 in
  let s2 := run s1 es2 in
  legal new (es1 ++ es2) →
  (∀ id ob, force_include_obligation s1 id = Some ob →
     ∃ ob', force_include_obligation s2 id = Some ob' ∧
            ob' = with_ob_status ob (ForceInclude.status ob') ∧
            (ForceInclude.status ob ≠ ObligationStatus.Pending →
             ForceInclude.status ob' = ForceInclude.status ob)) ∧
  (∀ id rec, sequencer_ejection s1 id = Some rec →
     sequencer_ejection s2 id = Some rec ∧
     ForceInclude.status <$> force_include_obligation s2 id = Some ObligationStatus.Slashed).
Proof.
  intros s1 s2 [H1 H2]%legal_app. fold s1 in H2.
  assert (sound s1) as Hs1 by (apply run_sound; [apply sound_new|done]).
  destruct (run_registries obligations_kept s1 es2 _ _ (λ i bal r h _, obligations_step i bal r h)
              Hs1 H2) as [Hs2 [Ho He]]. fold s2 in Hs2, Ho, He.
  assert (ejected_slashed (view s2)) as Hej.
  { unfold s2, s1. rewrite <-run_app.
    apply (run_invariant (λ s, ejected_slashed (view s)) new (es1 ++ es2));
      [|apply sound_new|by apply legal_app|].
    - intros s [i|h] Hs Hl Hi HP; simpl.
      + rewrite (follows_view _ _ _ _ (apply_follows s i Hs Hl Hi)). by apply ejected_slashed_step.
      + by rewrite (view_moved s (set_current_block_height s h)).
    - assert (ejections (view new) = ∅) as E0 by reflexivity.
      intros id [x Hx]. by rewrite E0, lookup_empty in Hx. }
  split; [exact Ho|]. intros id rec Hr. split; [by apply He|]. apply Hej. exists rec. by apply He.
Qed.
End ledger.

(** ** Concrete histories *)
Module LedgerExamples.
#[local] Existing Instance Toy.toy_blake3.

Lemma toy_distinct : ReservedDistinct.
Proof. unfold ReservedDistinct. apply (bool_decide_eq_true_1 _). vm_compute. reflexivity. Qed.
#[local] Existing Instance toy_distinct.

(** Decide a closed proposition by evaluation. *)
#[local] Ltac compute_true := apply (bool_decide_eq_true_1 _); vm_compute; reflexivity.
#[local] Ltac legal_history :=
  repeat lazymatch goal with
  | |- legal _ _ => first [exact I | split]
  | |- _ ∧ _ => split
  | |- within_limits _ => compute_true
  | |- event_ok _ => done
  end.

Definition filled (n : nat) (b : byte) : bytes := replicate n b.
Definition alice : Address := filled 20 Byte.x01.
Definition bob : Address := filled 20 Byte.x02.
Definition vk : bytes := filled 32 Byte.x07.
Definition chain : bytes := filled 32 Byte.x00.

(** Fund the escrow and one user, pin a key, commit a batch. *)
Definition genesis : list event := [
  Apply (GenesisAllocation [(reserved.bridge_escrow_address, 100%N); (alice, 50%N)]);
  Apply (SetL2VerifyingKey chain vk vk);
  Apply (CommitL2StateRoot 1 (filled 32 Byte.x09) (filled 260 Byte.x00) (filled 240 Byte.x00) vk)].
Definition s0 : InMemorySubstrate := run new genesis.

Lemma genesis_legal : legal new genesis.
Proof. legal_history. Qed.
Lemma s0_sound : sound s0.
Proof. apply run_sound; [apply sound_new|apply genesis_legal]. Qed.
Lemma s0_limits : within_limits s0.
Proof. compute_true. Qed.

Lemma result_pair {A B} (p : A * B) a : p.1 = a → p = (a, p.2).
Proof. destruct p. by intros <-. Qed.

Lemma supply_conservation_witness :
  let '(res, s') := apply_intent (Transfer alice bob 20) s0 in
  (res = Ok tt → supply s' = (supply s0 + 0)%N) ∧ (false = false → supply s' = supply s0) ∧
  total_supply s0 = supply s0.
Proof. exact (supply_conservation s0 (Transfer alice bob 20) s0_sound s0_limits I). Defined.

Lemma rejection_atomic_witness :
  (apply_intent (Transfer alice bob 51) s0).2 = s0.
Proof.
  apply (rejection_atomic s0 (Transfer alice bob 51) (InsufficientBalance alice 50 51) _
           s0_sound s0_limits I).
  apply result_pair. vm_compute. reflexivity.
Defined.

Lemma debits_authorised_witness :
  (payer (Transfer alice bob 20) = Some alice ∨ alice ∈ drawn_pools (Transfer alice bob 20)) ∧
  (user alice → payer (Transfer alice bob 20) = Some alice).
Proof.
  apply (debits_authorised s0 (Transfer alice bob 20) alice s0_sound s0_limits I).
  vm_compute. reflexivity.
Defined.

Definition claim : Intent := L2BurnProven 1 bob 30 [] None chain.

Lemma burn_paid_once_witness :
  let s' := run s0 [Apply claim; Advance 5] in
  (apply_intent claim s').1 ≠ Ok tt ∧ (apply_intent claim s').2 = s'.
Proof.
  apply (burn_paid_once s0 [Advance 5] 1 bob 30 [] None chain 1 bob 30 [] None chain);
    [apply s0_sound|legal_history|compute_true|done|vm_compute; reflexivity
    |done|reflexivity].
Defined.

Lemma epoch_issued_once_witness :
  let mint := MintInflation 4 10 10 10 in
  let s' := run s0 [Apply mint; Advance 5] in
  (apply_intent (MintInflation 4 1 1 1) s').1 ≠ Ok tt ∧ (apply_intent (MintInflation 4 1 1 1) s').2 = s'.
Proof.
  apply (epoch_issued_once s0 [Advance 5] (MintInflation 4 10 10 10) (MintInflation 4 1 1 1));
    [apply s0_sound|legal_history|compute_true|done|vm_compute; reflexivity|done].
Defined.

Definition promised : list event := [Apply (L2ForceInclude [Byte.x05] 9 alice 0)].
Definition broken : list event :=
  [Apply (SlashSequencer SlashReason.MissedForceInclude (ForceInclude.obligation_id [Byte.x05] 9 alice 0))].

Lemma obligation_lifecycle_witness :
  let s1 := run new promised in
  let s2 := run s1 broken in
  (∀ id ob, force_include_obligation s1 id = Some ob →
     ∃ ob', force_include_obligation s2 id = Some ob' ∧
            ob' = with_ob_status ob (ForceInclude.status ob') ∧
            (ForceInclude.status ob ≠ ObligationStatus.Pending →
             ForceInclude.status ob' = ForceInclude.status ob)) ∧
  (∀ id rec, sequencer_ejection s1 id = Some rec →
     sequencer_ejection s2 id = Some rec ∧
     ForceInclude.status <$> force_include_obligation s2 id = Some ObligationStatus.Slashed).
Proof. apply (obligation_lifecycle promised broken). legal_history. Defined.
End LedgerExamples.
