(* ===== verification/Simulation.v ===== *)
(** * Histories of the substrate simulate the abstract ledger

    The abstract ledger of [LedgerSpec] as a transition system, and the forward
    simulation of every history of [InMemorySubstrate] by it. *)

From S2P Require Import Prelude Crypto ExecTypes Codec Registries Substrate.
From S2P Require Import LedgerSpec Moves Refinement Ledger.

(** What an observer of the ledger sees: holdings, decoded registries, height. *)
Record AbstractLedger := mk_ledger {
  holdings : Address → Balance;
  registries : Registries;
  clock : N;
}.

Definition empty_registries : Registries :=
  mk_registries ∅ ∅ ∅ ∅ ∅ ∅ ∅ ∅ L2State.empty 0 (0, 0)%N.

Section simulation.
Context `{HB : Blake3, HD : !ReservedDistinct}.

(** One event: an intent answers with its verdict and performs the verdict's
    posting and registry update; advancing the height changes nothing else. *)
Inductive lstep : AbstractLedger → event → bool → AbstractLedger → Prop :=
| lstep_apply L i L' v :
    v = spec i (holdings L) (registries L) (clock L) →
    (∀ a, (holdings L' a + amount_at (debits (performed v)) a
           = holdings L a + amount_at (credits (performed v)) a)%N) →
    registries L' = updated (writes (performed v)) (registries L) →
    clock L' = clock L →
    lstep L (Apply i) (accepted v) L'
| lstep_advance L h : lstep L (Advance h) true (mk_ledger (holdings L) (registries L) h).

Inductive lrun : AbstractLedger → list event → list bool → AbstractLedger → Prop :=
| lrun_nil L : lrun L [] [] L
| lrun_cons L e b L1 es bs L2 :
    lstep L e b L1 → lrun L1 es bs L2 → lrun L (e :: es) (b :: bs) L2.

Definition abstraction (s : InMemorySubstrate) : AbstractLedger :=
  mk_ledger (balance s) (view s) (current_block_height s).

(** Whether the substrate accepted each event of a history. *)
Definition answer (s : InMemorySubstrate) (e : event) : bool :=
  match e with Apply i => is_Ok (apply_intent i s).1 | Advance _ => true end.
Fixpoint answers (s : InMemorySubstrate) (es : list event) : list bool :=
  match es with [] => [] | e :: es' => answer s e :: answers (after e s) es' end.

Lemma simulate_step s e :
  sound s → within_limits s → event_ok e →
  lstep (abstraction s) e (answer s e) (abstraction (after e s)).
Proof.
  intros Hs Hl He. destruct e as [i|h]; simpl; [|apply lstep_advance].
  destruct (apply_follows s i Hs Hl He) as [_ Hv Hb _ Hw _ Hh _]. rewrite Hv.
  by eapply lstep_apply.
Qed.

Lemma simulate_run s es :
  sound s → legal s es → lrun (abstraction s) es (answers s es) (abstraction (run s es)).
Proof.
  revert s. induction es as [|e es IH]; intros s Hs; simpl; [constructor|].
  intros (He & Hl & Hes). econstructor; [by apply simulate_step|]. apply IH; [by apply sound_after|done].
Qed.

Lemma view_new : view new = empty_registries.
Proof. reflexivity. Qed.

(** C4. Refinement of the abstract ledger.  Every history of intents and height
    changes that starts from the empty substrate and stays within the machine
    limits is a history of the abstract ledger from the empty one: the
    substrate accepts exactly the intents the abstract guards accept, its
    balances move by exactly the abstract postings, and the registries decoded
    from its byte records are the abstract registries, at every step. *)
Theorem histories_refine es :
  legal new es →
  (∀ a, holdings (abstraction new) a = 0%N) ∧
  registries (abstraction new) = empty_registries ∧ clock (abstraction new) = 0%N ∧
  lrun (abstraction new) es (answers new es) (abstraction (run new es)).
Proof.
  intros Hl. split_and!; [reflexivity|apply view_new|reflexivity|].
  apply simulate_run; [apply sound_new|done].
Qed.
End simulation.

Module SimulationExamples.
Import LedgerExamples.
#[local] Existing Instance Toy.toy_blake3.
#[local] Existing Instance toy_distinct.

Lemma histories_refine_witness :
  lrun (abstraction new) genesis (answers new genesis) (abstraction (run new genesis)).
Proof. apply (histories_refine genesis genesis_legal). Defined.

Example genesis_answers : answers new genesis = [true; true; true].
Proof. vm_compute. reflexivity. Qed.
End SimulationExamples.
