(* ===== verification/Stakes.v ===== *)
(** * Stake: slots, cooldowns and solvency

    The life of an authority or validator slot over histories of the ledger:
    statuses only advance, stake leaves a slot only after an accepted exit has
    cooled down, and the stake pools always cover the stake the registries
    record. *)

From S2P Require Import Prelude Crypto ExecTypes Codec Registries Substrate.
From S2P Require Import LedgerSpec Moves Refinement Ledger.

(** ** Slots *)

Section slots.
Context {S : Type} (rank : S → nat).

(** A slot keeps its keys and registered stake; its status only advances, and
    the exit height of a slot that has left the active state is final. *)
Definition slot_advances (rec rec' : RingRecord S) : Prop :=
  mldsa_public_key rec' = mldsa_public_key rec ∧ bls_public_key rec' = bls_public_key rec ∧
  stake_suwappu rec' = stake_suwappu rec ∧ rank (status rec) ≤ rank (status rec') ∧
  (rank (status rec) ≠ 0 → exit_block_height rec' = exit_block_height rec).

Definition slots_advance (m m' : gmap N (RingRecord S)) : Prop :=
  ∀ id rec, m !! id = Some rec → ∃ rec', m' !! id = Some rec' ∧ slot_advances rec rec'.

#[global] Instance slot_advances_refl : Reflexive slot_advances.
Proof. intros rec. by split_and!. Qed.
#[global] Instance slot_advances_trans : Transitive slot_advances.
Proof.
  intros x y z (A1 & A2 & A3 & A4 & A5) (B1 & B2 & B3 & B4 & B5). split_and!; try congruence; [lia|].
  intros Hx. rewrite B5 by lia. by apply A5.
Qed.
#[global] Instance slots_advance_refl : Reflexive slots_advance.
Proof. intros m id rec E. by exists rec. Qed.
#[global] Instance slots_advance_trans : Transitive slots_advance.
Proof.
  intros m1 m2 m3 H1 H2 id rec E. destruct (H1 _ _ E) as (rec1 & E1 & A1).
  destruct (H2 _ _ E1) as (rec2 & E2 & A2). exists rec2. split; [done|]. by etransitivity.
Qed.

Lemma slots_fresh m id rec : m !! id = None → slots_advance m (<[id := rec]> m).
Proof.
  intros E k rec0 E0. exists rec0. rewrite lookup_insert_ne by congruence. done.
Qed.

Lemma slots_update m id rec rec' :
  m !! id = Some rec → slot_advances rec rec' → slots_advance m (<[id := rec']> m).
Proof.
  intros E A k rec0 E0. destruct (decide (id = k)) as [->|].
  - exists rec'. rewrite lookup_insert_eq. split; [done|]. congruence.
  - exists rec0. by rewrite lookup_insert_ne.
Qed.
End slots.

Definition authority_rank (st : AuthorityStatus) : nat :=
  match st with AuthorityStatus.Active => 0 | AuthorityStatus.Exiting => 1 | AuthorityStatus.Ejected => 2 end.
Definition validator_rank (st : ValidatorStatus) : nat :=
  match st with ValidatorStatus.Active => 0 | ValidatorStatus.Exiting => 1 | ValidatorStatus.Ejected => 2 end.

Section stakes.
Context `{HB : Blake3, HD : !ReservedDistinct}.
Implicit Types (s : InMemorySubstrate) (i : Intent) (bal : Address → Balance) (r : Registries).

Definition rings_advance r r' : Prop :=
  slots_advance authority_rank (authorities r) (authorities r') ∧
  slots_advance validator_rank (validators r) (validators r').

#[local] Instance rings_advance_refl : Reflexive rings_advance.
Proof. intros r. split; reflexivity. Qed.
#[local] Instance rings_advance_trans : Transitive rings_advance.
Proof. intros r1 r2 r3 [] []. split; by etransitivity. Qed.

#[local] Ltac open_registries r :=
  destruct r as [au va de obs ej nu ofs ass l2r inf rew];
  cbn [updated authorities validators delegations] in *.

Lemma rings_step i bal r height :
  rings_advance r (updated (writes (performed (spec i bal r height))) r).
Proof.
  spec_branches i; open_registries r; destruct_and?; try reflexivity; split;
    cbn [authorities validators]; try reflexivity.
  all: first [by apply slots_fresh
             |eapply slots_update; [eassumption|]; unfold slot_advances; simpl;
              repeat match goal with E : status _ = _ |- _ => rewrite E end; simpl; split_and!;
              try done; try lia].
  all: by destruct (status _); simpl; lia.
Qed.

(** Slots have a one-way life.  Along every history an occupied authority or
    validator slot is never freed, keeps its public keys and registered stake,
    moves only from active through exiting to ejected, and the height at which
    it started to exit never changes again. *)
Theorem slot_lifecycle s es :
  sound s → legal s es →
  (∀ id rec, authority_record s id = Some rec →
     ∃ rec', authority_record (run s es) id = Some rec' ∧ slot_advances authority_rank rec rec') ∧
  (∀ id rec, validator_record s id = Some rec →
     ∃ rec', validator_record (run s es) id = Some rec' ∧ slot_advances validator_rank rec rec').
Proof.
  intros Hs Hes.
  by destruct (run_registries rings_advance s es _ _ (λ i bal r h _, rings_step i bal r h) Hs Hes).
Qed.

(** ** Exits and cooldowns *)

(** A slot found exiting was exiting before the step, with the same exit
    height, or the step is its accepted exit at the current height. *)
Definition exit_step {S} (exiting : S) (ring : Registries → gmap N (RingRecord S))
    (exit : N → Intent) : Prop :=
  ∀ i bal r height id rec',
    let v := spec i bal r height in
    ring (updated (writes (performed v)) r) !! id = Some rec' → status rec' = exiting →
    (∃ rec, ring r !! id = Some rec ∧ status rec = exiting ∧
            exit_block_height rec = exit_block_height rec') ∨
    (i = exit id ∧ accepted v = true ∧ exit_block_height rec' = height).

#[local] Ltac exit_branch :=
  intros E Hst;
  first [left; by eauto
        |lazymatch type of E with
         | <[?k := _]> _ !! ?id = _ =>
             destruct (decide (k = id)) as [->|];
             [rewrite lookup_insert_eq in E; injection E as <-; simpl in *
             |rewrite lookup_insert_ne in E by done; left; by eauto]
         end;
         first [done | by right | left; eexists; split_and!; [eassumption|try done; congruence|done]]].

Lemma authority_exit_step : exit_step AuthorityStatus.Exiting authorities ExitAuthority.
Proof.
  intros i bal r height id rec'. cbv zeta. spec_branches i; open_registries r; exit_branch.
Qed.
Lemma validator_exit_step : exit_step ValidatorStatus.Exiting validators ExitValidator.
Proof.
  intros i bal r height id rec'. cbv zeta. spec_branches i; open_registries r; exit_branch.
Qed.

(** The exit event behind an exiting slot. *)
Lemma exit_event {S} (exiting : S) ring exit s es id rec :
  exit_step exiting ring exit → sound s → legal s es →
  (∀ rec0, ring (view s) !! id = Some rec0 → status rec0 ≠ exiting) →
  ring (view (run s es)) !! id = Some rec → status rec = exiting →
  ∃ es1 es2, es = es1 ++ Apply (exit id) :: es2 ∧
    (apply_intent (exit id) (run s es1)).1 = Ok tt ∧
    exit_block_height rec = current_block_height (run s es1).
Proof.
  intros Hstep Hs. revert rec. induction es as [|e es IH] using rev_ind; intros rec Hes Hnew E Hst.
  { by apply Hnew in E. }
  apply legal_app in Hes as [Hes (He & Hl & _)]. rewrite run_app in E. simpl in E.
  pose proof (run_sound s es Hs Hes) as Hs1.
  assert ((∃ rec0, ring (view (run s es)) !! id = Some rec0 ∧ status rec0 = exiting ∧
                   exit_block_height rec0 = exit_block_height rec) ∨
          (e = Apply (exit id) ∧ (apply_intent (exit id) (run s es)).1 = Ok tt ∧
           exit_block_height rec = current_block_height (run s es))) as [(rec0 & E0 & St0 & Eh)|Hex].
  { destruct e as [i|h]; simpl in *.
    - pose proof (apply_follows (run s es) i Hs1 Hl He) as Hf.
      rewrite (follows_view _ _ _ _ Hf) in E. destruct (Hstep _ _ _ _ _ _ E Hst) as [|(-> & Ha & Eh)];
        [by left|].
      right. split_and!; [done| |done]. pose proof (follows_verdict _ _ _ _ Hf) as Hv.
      rewrite Ha in Hv. by destruct (apply_intent _ _).1 as [[]| |].
    - rewrite (view_moved (run s es) (set_current_block_height (run s es) h)) in E by done. eauto. }
  - destruct (IH rec0 Hes Hnew E0 St0) as (es1 & es2 & -> & Hok & Eh').
    exists es1, (es2 ++ [e]). split_and!; [by rewrite <-(assoc_L (++))|done|congruence].
  - destruct Hex as (-> & Hok & Eh). by exists es, [].
Qed.

(** What an accepted withdrawal has checked. *)
Lemma withdraw_accepted {S} `{EqDecision S} (exiting : S) m upd pool bal height to id n :
  n ≠ 0%N → accepted (spec_withdraw exiting m upd pool bal height to id n) = true →
  ∃ rec, m !! id = Some rec ∧ status rec = exiting ∧
    (saturating_add 64 (exit_block_height rec) EXIT_COOLDOWN_BLOCKS ≤ height)%N ∧
    (n ≤ deposited_stake rec)%N.
Proof.
  intros Hn. unfold spec_withdraw, unless_zero, found, when. rewrite decide_False by done.
  destruct (m !! id) as [rec|] eqn:E; [|done]. case_decide; [|done]. intros _. exists rec. tauto.
Qed.

Lemma apply_accepted s i :
  sound s → within_limits s → typed i → (apply_intent i s).1 = Ok tt →
  accepted (spec i (balance s) (view s) (current_block_height s)) = true.
Proof.
  intros Hs Hl Ht Hok. by rewrite <-(follows_verdict _ _ _ _ (apply_follows s i Hs Hl Ht)), Hok.
Qed.

(** Stake stays locked until the cooldown has run.  If a slot is not exiting
    in a state and a non-zero withdrawal from it is accepted after some
    history, then that history contains an accepted exit of this slot, and the
    withdrawal happens at least [EXIT_COOLDOWN_BLOCKS] above the height of that
    exit (saturating at the 64-bit limit).  This holds for both rings. *)
Theorem stake_locked_until_cooldown s es to id n :
  let s' := run s es in
  sound s → legal s es → within_limits s' → n ≠ 0%N →
  ((∀ rec, authority_record s id = Some rec → status rec ≠ AuthorityStatus.Exiting) →
   (apply_intent (WithdrawAuthorityStake to id n) s').1 = Ok tt →
   ∃ es1 es2, es = es1 ++ Apply (ExitAuthority id) :: es2 ∧
     (apply_intent (ExitAuthority id) (run s es1)).1 = Ok tt ∧
     (saturating_add 64 (current_block_height (run s es1)) EXIT_COOLDOWN_BLOCKS
      ≤ current_block_height s')%N) ∧
  ((∀ rec, validator_record s id = Some rec → status rec ≠ ValidatorStatus.Exiting) →
   (apply_intent (WithdrawValidatorStake to id n) s').1 = Ok tt →
   ∃ es1 es2, es = es1 ++ Apply (ExitValidator id) :: es2 ∧
     (apply_intent (ExitValidator id) (run s es1)).1 = Ok tt ∧
     (saturating_add 64 (current_block_height (run s es1)) EXIT_COOLDOWN_BLOCKS
      ≤ current_block_height s')%N).
Proof.
  intros s' Hs Hes Hl Hn. pose proof (run_sound s es Hs Hes) as Hs'. fold s' in Hs'.
  split; intros Hnew Hok.
  - apply apply_accepted, withdraw_accepted in Hok as (rec & E & St & Hh & _); [|done..].
    destruct (exit_event _ _ _ s es id rec authority_exit_step Hs Hes Hnew E St)
      as (es1 & es2 & -> & Hex & Eh). exists es1, es2. by rewrite <-Eh.
  - apply apply_accepted, withdraw_accepted in Hok as (rec & E & St & Hh & _); [|done..].
    destruct (exit_event _ _ _ s es id rec validator_exit_step Hs Hes Hnew E St)
      as (es1 & es2 & -> & Hex & Eh). exists es1, es2. by rewrite <-Eh.
Qed.

(** ** Solvency of the stake pools *)

Definition deposits {S} (m : gmap N (RingRecord S)) : N := map_sum (deposited_stake <$> m).

Lemma deposits_insert {S} (m : gmap N (RingRecord S)) id rec :
  (deposits (<[id := rec]> m) + default 0 (deposited_stake <$> m !! id)
   = deposits m + deposited_stake rec)%N.
Proof.
  unfold deposits. rewrite fmap_insert.
  pose proof (map_sum_insert (deposited_stake <$> m) id (deposited_stake rec)) as E.
  rewrite lookup_fmap in E. lia.
Qed.

Lemma deposits_lookup {S} (m : gmap N (RingRecord S)) id :
  (default 0 (deposited_stake <$> m !! id) ≤ deposits m)%N.
Proof. unfold deposits. rewrite <-lookup_fmap. apply map_sum_lookup. Qed.

(** The pools hold at least what the registries owe. *)
Definition solvent bal r : Prop :=
  (deposits (authorities r) ≤ bal reserved.authority_stake_pool_address)%N ∧
  (deposits (validators r) + map_sum (delegations r) ≤ bal reserved.validator_stake_pool_address)%N.

(** Locking out of a stake pool is the one intent that breaks solvency. *)
Definition pool_lock (i : Intent) : bool :=
  match i with
  | L1Lock from _ _ _ => bool_decide (from = reserved.authority_stake_pool_address ∨
                                      from = reserved.validator_stake_pool_address)
  | _ => false
  end.

Lemma user_ne a (b : Address) : user a → ¬ user b → a ≠ b.
Proof. by intros Ha Hb ->. Qed.

(** Evaluate the share of a posting in a pool. *)
#[local] Ltac settle :=
  rewrite ?amount_at_app, ?amount_at_cons, ?amount_at_nil;
  repeat match goal with
  | |- context [decide (?a = ?a)] => rewrite (decide_True (P := a = a)) by done
  | |- context [decide (?a = ?b)] => rewrite (decide_False (P := a = b)) by distinct
  | Hu : user ?a |- context [decide (?a = ?b)] =>
      rewrite (decide_False (P := a = b)) by (apply user_ne; [done|not_user])
  end.

(** The registry totals after the one slot that changed. *)
#[local] Ltac tally :=
  try match goal with
  | |- context [deposits (<[?id := ?x]> ?m)] =>
      let E := fresh in
      pose proof (deposits_insert m id x) as E;
      match goal with Hl : m !! id = _ |- _ => rewrite Hl in E end; simpl in E
  | |- context [map_sum (<[?k := ?x]> ?m)] => pose proof (map_sum_insert m k x)
  | Hl : bool_decide (_ ∨ _) = false |- _ => apply bool_decide_eq_false in Hl; case_decide; [tauto|]
  end; lia.

Lemma solvent_authorities i bal r height :
  pool_lock i = false →
  let e := performed (spec i bal r height) in
  (deposits (authorities (updated (writes e) r)) + amount_at (debits e) reserved.authority_stake_pool_address
   ≤ deposits (authorities r) + amount_at (credits e) reserved.authority_stake_pool_address)%N.
Proof.
  intros Hlock. cbv zeta. revert Hlock.
  spec_branches i; cbn [pool_lock]; intros Hlock; open_registries r; destruct_and?; settle; tally.
Qed.

Lemma solvent_validators i bal r height :
  pool_lock i = false →
  let e := performed (spec i bal r height) in
  let r' := updated (writes e) r in
  (deposits (validators r') + map_sum (delegations r')
   + amount_at (debits e) reserved.validator_stake_pool_address
   ≤ deposits (validators r) + map_sum (delegations r)
     + amount_at (credits e) reserved.validator_stake_pool_address)%N.
Proof.
  intros Hlock. cbv zeta. revert Hlock.
  spec_branches i; cbn [pool_lock]; intros Hlock; open_registries r; destruct_and?; settle; tally.
Qed.

End stakes.

(** ** Concrete histories *)
Module StakesExamples.
Import LedgerExamples.
#[local] Existing Instance Toy.toy_blake3.
#[local] Existing Instance toy_distinct.
#[local] Ltac compute_true := apply (bool_decide_eq_true_1 _); vm_compute; reflexivity.
#[local] Ltac legal_history :=
  repeat lazymatch goal with
  | |- legal _ _ => first [exact I | split]
  | |- _ ∧ _ => split
  | |- within_limits _ => compute_true
  | |- event_ok _ => done
  end.

(** Admit a slot, deposit, exit, and wait out the cooldown. *)
Definition staking : list event := [
  Apply (GenesisAllocation [(alice, 50%N)]);
  Apply (AdmitAuthority 3 7 [] []);
  Apply (DepositAuthorityStake alice 3 20)].
Definition leaving : list event := [Advance 10; Apply (ExitAuthority 3); Advance 2419210].

Definition staked : InMemorySubstrate := run new staking.
Lemma staked_sound : sound staked.
Proof. apply run_sound; [apply sound_new|legal_history]. Qed.

Lemma slot_lifecycle_witness :
  (∀ id rec, authority_record staked id = Some rec →
     ∃ rec', authority_record (run staked leaving) id = Some rec' ∧
             slot_advances authority_rank rec rec') ∧
  (∀ id rec, validator_record staked id = Some rec →
     ∃ rec', validator_record (run staked leaving) id = Some rec' ∧
             slot_advances validator_rank rec rec').
Proof. apply (slot_lifecycle staked leaving); [apply staked_sound|legal_history]. Defined.

Lemma stake_locked_until_cooldown_witness :
  ∃ es1 es2, leaving = es1 ++ Apply (ExitAuthority 3) :: es2 ∧
    (apply_intent (ExitAuthority 3) (run staked es1)).1 = Ok tt ∧
    (saturating_add 64 (current_block_height (run staked es1)) EXIT_COOLDOWN_BLOCKS
     ≤ current_block_height (run staked leaving))%N.
Proof.
  refine (proj1 (stake_locked_until_cooldown staked leaving bob 3 20 staked_sound _ _ _) _ _).
  - legal_history.
  - compute_true.
  - discriminate.
  - intros rec E. vm_compute in E. injection E as <-. discriminate.
  - vm_compute. reflexivity.
Defined.

End StakesExamples.
