(* ===== verification/Block.v ===== *)
(** * Blocks and state roots

    [block.rs], the block executor over any substrate, and what the canonical
    state root of [substrate.rs] commits to. *)

From S2P Require Import Prelude Crypto Cert Rings ExecTypes Codec Registries Substrate.
From S2P Require Import LedgerSpec Moves Refinement Ledger.

(** ** The executor *)

(** The operations of the [Substrate] trait the executor calls. *)
Class SubstrateOps (State : Type) := {
  op_apply_intent : Intent → State → outcome ExecutionError unit * State;
  op_set_current_block_height : State → N → State;
  op_state_root : State → bytes;
}.

#[global] Instance in_memory_ops `{Blake3} : SubstrateOps InMemorySubstrate := {|
  op_apply_intent := apply_intent;
  op_set_current_block_height := set_current_block_height;
  op_state_root := state_root;
|}.

Record Block := mk_block { block_round : N; intents : list Intent }.

Record ExecutionReport := mk_report {
  report_round : N;
  applied : nat;
  first_error : option (nat * ExecutionError);
  skipped : nat;
  post_root : bytes;
}.

Section executor.
Context {State : Type} `{SubstrateOps State}.

(** The loop over the intents; [None] is a panic inside an intent. *)
Fixpoint execute_loop (idx : nat) (l : list Intent) (ok : nat)
    (err : option (nat * ExecutionError)) (skip : nat) (s : State)
    : option (nat * option (nat * ExecutionError) * nat * State) :=
  match l with
  | [] => Some (ok, err, skip, s)
  | i :: rest =>
      if bool_decide (is_Some err) then execute_loop (1 + idx) rest ok err (1 + skip) s
      else match op_apply_intent i s with
           | (Ok _, s') => execute_loop (1 + idx) rest (1 + ok) err skip s'
           | (Err e, s') => execute_loop (1 + idx) rest ok (Some (idx, e)) skip s'
           | (Panic, _) => None
           end
  end.

Definition execute_block (s : State) (b : Block) : option (ExecutionReport * State) :=
  '(ok, err, skip, s') ← execute_loop 0 (intents b) 0 None 0
                           (op_set_current_block_height s (block_round b));
  Some (mk_report (block_round b) ok err skip (op_state_root s'), s').

Lemma execute_loop_failed idx l ok p skip s :
  execute_loop idx l ok (Some p) skip s = Some (ok, Some p, skip + length l, s).
Proof.
  revert idx skip. induction l as [|i l IH]; intros idx skip; simpl; [by rewrite Nat.add_0_r|].
  rewrite IH. by rewrite Nat.add_succ_r.
Qed.
End executor.

Section blocks.
Context `{HB : Blake3, HD : !ReservedDistinct}.
Implicit Types s : InMemorySubstrate.

Definition was_error (err : option (nat * ExecutionError)) : nat := if err then 1 else 0.

Lemma execute_loop_spec l idx ok s :
  sound s → legal s (Apply <$> l) →
  ∃ n err s',
    execute_loop idx l ok None 0 s = Some (ok + n, err, length l - n - was_error err, s') ∧
    n + was_error err ≤ length l ∧
    s' = run s (Apply <$> take (n + was_error err) l) ∧
    (∀ k i, k < n → l !! k = Some i → (apply_intent i (run s (Apply <$> take k l))).1 = Ok tt) ∧
    match err with
    | None => n = length l
    | Some (at_, e) => at_ = idx + n ∧ ∃ i, l !! n = Some i ∧
        (apply_intent i (run s (Apply <$> take n l))).1 = Err e
    end.
Proof.
  revert idx ok s. induction l as [|i l IH]; intros idx ok s Hs Hl.
  { exists 0, None, s. simpl. rewrite Nat.add_0_r. split_and!; try done. }
  destruct Hl as (Hi & Hlim & Hl). simpl in Hi, Hl.
  pose proof (sound_after (Apply i) s Hs Hlim Hi) as Hs'. simpl in Hs'.
  pose proof (follows_total _ _ _ _ (apply_follows s i Hs Hlim Hi)) as Hp.
  simpl. destruct (apply_intent i s) as [[[]|e|] s1] eqn:E; simpl in *; [| |done].
  - destruct (IH (S idx) (S ok) s1 Hs' Hl)
      as (n & err & s' & -> & Hle & -> & Hok & Herr). eexists (S n), err, _. split_and!.
    + rewrite Nat.add_succ_r. reflexivity.
    + lia.
    + simpl. by rewrite E.
    + intros [|k] j Hk Hj; simpl in *; simplify_eq; [by rewrite E|]. rewrite E. apply Hok; [lia|done].
    + destruct err as [[at_ e]|]; [|lia]. destruct Herr as (-> & j & Hj & Hej).
      split; [lia|]. exists j. simpl. by rewrite E.
  - rewrite execute_loop_failed. exists 0, (Some (idx, e)), s1. simpl. split_and!.
    + by rewrite Nat.add_0_r, Nat.sub_0_r.
    + lia.
    + by rewrite E.
    + intros; lia.
    + lia.
    + exists i. by rewrite E.
Qed.

(** C18. Block execution.  On a sound substrate a block always yields a report:
    the intents are applied in order at the block's round, up to and including
    the first rejected one, and none after it; [applied] counts the accepted
    ones, [first_error] is the index and the error of the rejected one,
    [skipped] the rest, together accounting for every intent; [post_root] is
    the state root of the resulting state. *)
Theorem execute_block_spec s b :
  sound s → legal s (Advance (block_round b) :: (Apply <$> intents b)) →
  ∃ rep s', execute_block s b = Some (rep, s') ∧
    report_round rep = block_round b ∧ post_root rep = state_root s' ∧
    applied rep + was_error (first_error rep) + skipped rep = length (intents b) ∧
    s' = run s (Advance (block_round b)
                :: (Apply <$> take (applied rep + was_error (first_error rep)) (intents b))) ∧
    (∀ k i, k < applied rep → intents b !! k = Some i →
       (apply_intent i (run s (Advance (block_round b) :: (Apply <$> take k (intents b))))).1 = Ok tt) ∧
    match first_error rep with
    | None => applied rep = length (intents b)
    | Some (idx, e) => idx = applied rep ∧ ∃ i, intents b !! idx = Some i ∧
        (apply_intent i (run s (Advance (block_round b) :: (Apply <$> take idx (intents b))))).1 = Err e
    end.
Proof.
  intros Hs (Hr & Hl & Hes). simpl in Hr, Hes.
  pose proof (sound_after (Advance (block_round b)) s Hs Hl Hr) as Hs'.
  destruct (execute_loop_spec (intents b) 0 0 _ Hs' Hes) as (n & err & s' & E & Hle & Es & Hok & Herr).
  eexists _, s'. split.
  { unfold execute_block. cbn [op_set_current_block_height in_memory_ops]. simpl after in E.
    rewrite E. reflexivity. }
  simpl. split_and!; [done..|lia|done|done|].
  destruct err as [[at_ e]|]; [|done]. destruct Herr as (-> & i & Hi & He). simpl in *. eauto.
Qed.
End blocks.

(** ** What a state root commits to *)

Section roots.
Context `{Blake3}.
Implicit Types s : InMemorySubstrate.

(** The field types of the stored state: 20-byte accounts, [u128] balances and
    records shorter than the 32-bit length prefix can express. *)
Record typed_state s : Prop := {
  typed_balances : map_Forall (λ a v, length a = 20 ∧ (v < width 128)%N) (balances s);
  typed_records : map_Forall (λ a b, length a = 20 ∧ (N.of_nat (length b) < width 32)%N)
                    (bytes_state s);
}.

Definition balance_entry (e : Address * Balance) : bytes := e.1 ++ be_bytes 16 e.2.
Definition record_entry (e : Address * bytes) : bytes :=
  e.1 ++ be_bytes 4 (wrap 32 (N.of_nat (length e.2))) ++ e.2.

Lemma address_nonempty (a b : bytes) : length a = 20 → a ++ b ≠ [].
Proof. intros Ha [-> _]%app_nil. done. Qed.

Lemma balance_entries_inj l1 l2 :
  Forall (λ e, length e.1 = 20 ∧ (e.2 < width 128)%N) l1 →
  Forall (λ e, length e.1 = 20 ∧ (e.2 < width 128)%N) l2 →
  mjoin (balance_entry <$> l1) = mjoin (balance_entry <$> l2) → l1 = l2.
Proof.
  apply join_entries_inj; unfold balance_entry.
  - intros [a v] [Ha _]. by apply address_nonempty.
  - intros [a v] [b w] r1 r2 [Ha Hv] [Hb Hw] E. cbn [fst snd] in *. rewrite <-!(assoc_L (++)) in E.
    apply app_inj_1 in E as [-> E]; [|congruence].
    apply app_inj_1 in E as [Ev E]; [|by rewrite !length_be_bytes].
    rewrite width_128 in *. by apply be_bytes_inj in Ev as ->.
Qed.

Lemma record_entries_inj l1 l2 :
  Forall (λ e, length e.1 = 20 ∧ (N.of_nat (length e.2) < width 32)%N) l1 →
  Forall (λ e, length e.1 = 20 ∧ (N.of_nat (length e.2) < width 32)%N) l2 →
  mjoin (record_entry <$> l1) = mjoin (record_entry <$> l2) → l1 = l2.
Proof.
  apply join_entries_inj; unfold record_entry.
  - intros [a v] [Ha _]. by apply address_nonempty.
  - intros [a v] [b w] r1 r2 [Ha Hv] [Hb Hw] E. cbn [fst snd] in *. rewrite <-!(assoc_L (++)) in E.
    apply app_inj_1 in E as [-> E]; [|congruence].
    apply app_inj_1 in E as [Ev E]; [|by rewrite !length_be_bytes].
    rewrite !wrap_small in Ev by done. rewrite width_32 in *. apply be_bytes_inj in Ev; [|done..].
    by apply app_inj_1 in E as [-> E]; [|lia].
Qed.

Lemma btree_entries_Forall {V} (P : bytes → V → Prop) (m : gmap bytes V) :
  map_Forall P m → Forall (λ e, P e.1 e.2) (btree_entries m).
Proof.
  intros Hm. apply Forall_forall. intros [k v] Hin. apply elem_of_btree_entries in Hin. by apply Hm.
Qed.

Lemma btree_entries_inj {V} (m1 m2 : gmap bytes V) : btree_entries m1 = btree_entries m2 → m1 = m2.
Proof.
  intros E. rewrite <-(list_to_map_btree_entries m1), <-(list_to_map_btree_entries m2). by rewrite E.
Qed.

End roots.

(** ** Concrete blocks *)
Module BlockExamples.
Import LedgerExamples.
#[local] Existing Instance Toy.toy_blake3.
#[local] Existing Instance toy_distinct.
#[local] Ltac compute_true := apply (bool_decide_eq_true_1 _); vm_compute; reflexivity.
#[local] Ltac legal_history :=
  repeat lazymatch goal with
  | |- legal _ _ => first [exact I | split]
  | |- _ ∧ _ => split
  | |- within_limits _ => compute_true
  | |- event_ok _ => done
  end.

(** A transfer, an overdraft and a transfer that is skipped. *)
Definition block7 : Block :=
  mk_block 7 [Transfer alice bob 20; Transfer bob alice 21; Transfer alice bob 1].

Lemma execute_block_spec_witness :
  ∃ rep s', execute_block s0 block7 = Some (rep, s') ∧
    report_round rep = 7%N ∧ post_root rep = state_root s' ∧
    applied rep + was_error (first_error rep) + skipped rep = 3.
Proof.
  assert (legal s0 (Advance (block_round block7) :: (Apply <$> intents block7))) as Hl by legal_history.
  destruct (execute_block_spec s0 block7 s0_sound Hl) as (rep & s' & E & Hr & Hp & Hn & _).
  exists rep, s'. split; [exact E|]. split; [exact Hr|]. split; [exact Hp|]. exact Hn.
Defined.

Example block7_report :
  (λ r, (applied r.1, first_error r.1, skipped r.1)) <$> execute_block s0 block7 =
  Some (1, Some (1, InsufficientBalance bob 20 21), 1).
Proof. vm_compute. reflexivity. Qed.

End BlockExamples.
