(* ===== verification/Checkpoint.v ===== *)
(** * Checkpoints

    [crates/suwappu-execution/src/checkpoint.rs]: the checkpoint hash, signing,
    ratification by a quorum of the authority ring, and the checkpointer that
    chains one checkpoint per cadence boundary. *)

From S2P Require Import Prelude Crypto Cert Rings.

Record Checkpoint := mk_checkpoint {
  height : N;
  ck_round : Round;
  ck_state_root : bytes;
  prev_checkpoint : bytes;
}.

#[global] Instance Checkpoint_eq_dec : EqDecision Checkpoint.
Proof. solve_decision. Defined.

Record CheckpointSignature := mk_signature { authority : AuthorityId; ck_signature : bytes }.

Record CoSignedCheckpoint := mk_cosigned {
  checkpoint : Checkpoint;
  signatures : list CheckpointSignature;
}.

Inductive CheckpointError :=
| BelowQuorum (have need : N)
| UnknownSigner (a : AuthorityId)
| InvalidSignature (a : AuthorityId)
| MalformedKey (a : AuthorityId).

Definition checkpoint_preimage (c : Checkpoint) : bytes :=
  tag "SUWAPPU-CHECKPOINT-V1" ++ be_bytes 8 (height c) ++ be_bytes 8 (ck_round c) ++
  ck_state_root c ++ prev_checkpoint c.

Section checkpoint.
Context `{Blake3, MlDsa65}.

Definition checkpoint_hash (c : Checkpoint) : bytes := blake3 (checkpoint_preimage c).

Definition sign_checkpoint (a : AuthorityId) (sk : mldsa.SecretKey) (c : Checkpoint)
    : outcome mldsa.CryptoError CheckpointSignature :=
  let! sig := mldsa.sign (checkpoint_hash c) sk in
  Ok (mk_signature a (mldsa.sig_bytes sig)).

(** The body of the verification loop for one signature. *)
Definition check_signature (registry : AuthorityRing.AuthorityRegistry) (digest : bytes)
    (sig : CheckpointSignature) : outcome CheckpointError unit :=
  match AuthorityRing.get registry (authority sig) with
  | None => Err (UnknownSigner (authority sig))
  | Some member =>
      match mldsa.PublicKey_from_bytes (AuthorityRing.public_key_bytes member) with
      | Ok pk =>
          match mldsa.Signature_from_bytes (ck_signature sig) with
          | Ok sig_typed =>
              match mldsa.verify digest sig_typed pk with
              | Ok _ => Ok tt
              | _ => Err (InvalidSignature (authority sig))
              end
          | _ => Err (InvalidSignature (authority sig))
          end
      | _ => Err (MalformedKey (authority sig))
      end
  end.

Fixpoint verify_loop (registry : AuthorityRing.AuthorityRegistry) (digest : bytes)
    (sigs : list CheckpointSignature) (verified : gmap AuthorityId CheckpointSignature)
    : outcome CheckpointError (gmap AuthorityId CheckpointSignature) :=
  match sigs with
  | [] => Ok verified
  | sig :: rest =>
      let! _ := check_signature registry digest sig in
      verify_loop registry digest rest (<[authority sig := sig]> verified)
  end.

Definition ratify_checkpoint (c : Checkpoint) (sigs : list CheckpointSignature)
    (registry : AuthorityRing.AuthorityRegistry) : outcome CheckpointError CoSignedCheckpoint :=
  let digest := checkpoint_hash c in
  let need := AuthorityRing.quorum_threshold registry in
  let! verified := verify_loop registry digest sigs ∅ in
  let have := wrap 32 (N.of_nat (size verified)) in
  if bool_decide (have < need)%N then Err (BelowQuorum have need)
  else Ok (mk_cosigned c (btree_values verified)).
End checkpoint.

(** ** The checkpointer *)
Module Checkpointer.
Record Checkpointer := mk { cadence : N; next_height : N; last_hash : bytes }.

(** [None] is the assertion failure on a zero cadence. *)
Definition new (cadence : N) : option Checkpointer :=
  if bool_decide (1 ≤ cadence)%N then Some (mk cadence 0 (replicate 32 Byte.x00)) else None.

Definition maybe_emit `{Blake3} (c : Checkpointer) (round : Round) (state_root : bytes)
    : option Checkpoint * Checkpointer :=
  if bool_decide (round mod cadence c = 0)%N then
    let ck := mk_checkpoint (next_height c) round state_root (last_hash c) in
    (Some ck, mk (cadence c) (wrap 64 (next_height c + 1)) (checkpoint_hash ck))
  else (None, c).
End Checkpointer.

(** ** Ratification *)

Section ratification.
Context `{Blake3, MlDsa65}.
Implicit Types (r : AuthorityRing.AuthorityRegistry) (sigs : list CheckpointSignature).

Definition signers sigs : gset AuthorityId := list_to_set (authority <$> sigs).
Definition valid_signature r digest sig : Prop := check_signature r digest sig = Ok tt.

(** The map the loop builds: the last signature of each signer wins. *)
Definition last_per_signer sigs : gmap AuthorityId CheckpointSignature :=
  foldl (λ m sig, <[authority sig := sig]> m) ∅ sigs.

Lemma verify_loop_app r d sigs1 sigs2 m :
  verify_loop r d (sigs1 ++ sigs2) m =
  let! m' := verify_loop r d sigs1 m in verify_loop r d sigs2 m'.
Proof.
  revert m. induction sigs1 as [|x l IH]; intros m; simpl; [done|].
  destruct (check_signature r d x); simpl; [apply IH|done..].
Qed.

Lemma verify_loop_Ok r d sigs m :
  Forall (valid_signature r d) sigs →
  verify_loop r d sigs m = Ok (foldl (λ m sig, <[authority sig := sig]> m) m sigs).
Proof. intros Hs. revert m. induction Hs as [|x l Hx _ IH]; intros m; simpl; [done|]. by rewrite Hx, IH. Qed.

Lemma verify_loop_first_error r d sigs :
  Forall (valid_signature r d) sigs ∨
  ∃ pre sig post e, sigs = pre ++ sig :: post ∧ Forall (valid_signature r d) pre ∧
    check_signature r d sig = Err e.
Proof.
  induction sigs as [|x l IH]; [by left; constructor|].
  destruct (check_signature r d x) as [[]|e|] eqn:E.
  - destruct IH as [IH|(pre & s & post & e & -> & Hp & He)]; [left; by constructor|].
    right. exists (x :: pre), s, post, e. split_and!; [done|by constructor|done].
  - right. exists [], x, l, e. done.
  - unfold check_signature in E. repeat case_match; done.
Qed.

Lemma dom_last_per_signer sigs : dom (last_per_signer sigs) = signers sigs.
Proof.
  unfold last_per_signer, signers. induction sigs as [|x l IH] using rev_ind; [set_solver|].
  rewrite foldl_app, fmap_app, list_to_set_app_L. simpl. rewrite dom_insert_L, IH. set_solver.
Qed.

Lemma last_per_signer_elem sigs a sig : last_per_signer sigs !! a = Some sig → sig ∈ sigs ∧ authority sig = a.
Proof.
  unfold last_per_signer. induction sigs as [|x l IH] using rev_ind; [done|].
  rewrite foldl_app. simpl. rewrite lookup_insert_Some.
  intros [[<- <-]|[_ (? & ?)%IH]]; set_solver.
Qed.

(** A valid signature comes from a seated member. *)
Lemma valid_signature_member r d sig : valid_signature r d sig → authority sig ∈ dom (AuthorityRing.members r).
Proof.
  unfold valid_signature, check_signature, AuthorityRing.get. intros Hv. apply elem_of_dom.
  case_match; [done|]. done.
Qed.

Lemma signers_members r d sigs :
  Forall (valid_signature r d) sigs → signers sigs ⊆ dom (AuthorityRing.members r).
Proof.
  intros Hs a. unfold signers. rewrite elem_of_list_to_set, list_elem_of_fmap.
  intros (sig & -> & Hin). eapply valid_signature_member. by eapply Forall_forall in Hin.
Qed.

Lemma ring_size_small r : AuthorityRing.wf r → (N.of_nat (size (AuthorityRing.members r)) < width 32)%N.
Proof. intros [_ _ Hc]. unfold AuthorityRing.AUTHORITY_RING_MAX in Hc. unfold width. lia. Qed.

Lemma signers_small r d sigs :
  AuthorityRing.wf r → Forall (valid_signature r d) sigs → (N.of_nat (size (signers sigs)) < width 32)%N.
Proof.
  intros Hr Hs%signers_members%subseteq_size. rewrite size_dom in Hs. apply ring_size_small in Hr. lia.
Qed.

Lemma ratify_checkpoint_Ok c r sigs cs :
  AuthorityRing.wf r → ratify_checkpoint c sigs r = Ok cs ↔
  Forall (valid_signature r (checkpoint_hash c)) sigs ∧
  (AuthorityRing.quorum_threshold r ≤ N.of_nat (size (signers sigs)))%N ∧
  cs = mk_cosigned c (btree_values (last_per_signer sigs)).
Proof.
  intros Hr. unfold ratify_checkpoint.
  destruct (verify_loop_first_error r (checkpoint_hash c) sigs)
    as [Hs|(pre & sig & post & e & -> & Hp & He)].
  - rewrite verify_loop_Ok by done. simpl. fold (last_per_signer sigs).
    rewrite <-size_dom, dom_last_per_signer, wrap_small by (by eapply signers_small).
    case_bool_decide; split; [done|intros (? & ? & ?); lia|naive_solver lia|naive_solver].
  - rewrite verify_loop_app, verify_loop_Ok by done. simpl. rewrite He. simpl. split; [done|].
    intros (Hs & _). apply Forall_app in Hs as [_ [Hs _]%Forall_cons]. unfold valid_signature in Hs.
    congruence.
Qed.

Lemma keys_of_values sigs :
  authority <$> btree_values (last_per_signer sigs) = btree_keys (last_per_signer sigs).
Proof.
  unfold btree_values, btree_keys. rewrite <-list_fmap_compose. apply Forall_fmap_ext_1, Forall_forall.
  intros [a sig] Hin. apply elem_of_btree_entries, last_per_signer_elem in Hin as [_ ?]. done.
Qed.

Lemma cosigned_in sigs sig : sig ∈ btree_values (last_per_signer sigs) → sig ∈ sigs.
Proof.
  unfold btree_values. rewrite list_elem_of_fmap. intros ([a x] & -> & Hin).
  apply elem_of_btree_entries, last_per_signer_elem in Hin as [? _]. done.
Qed.

Lemma signers_cosigned sigs : signers (btree_values (last_per_signer sigs)) = signers sigs.
Proof.
  unfold signers at 1. rewrite keys_of_values. apply set_eq. intros a.
  by rewrite elem_of_list_to_set, elem_of_btree_keys, <-elem_of_dom, dom_last_per_signer.
Qed.

(** The signature bytes verify over the digest under the member's key. *)
Definition member_signed r digest (a : AuthorityId) : Prop :=
  ∃ m sig, AuthorityRing.members r !! a = Some m ∧
    mldsa65_verify sig digest (AuthorityRing.public_key_bytes m) = true.

Lemma valid_signature_signed r d sig : valid_signature r d sig → member_signed r d (authority sig).
Proof.
  unfold valid_signature, check_signature, AuthorityRing.get, mldsa.PublicKey_from_bytes,
    mldsa.Signature_from_bytes, mldsa.verify.
  destruct (AuthorityRing.members r !! _) as [m|] eqn:Em; [|done].
  intros Hv. exists m, (ck_signature sig). split; [done|].
  repeat (case_match; simplify_eq/=; try done).
Qed.

Lemma signers_signed r d sigs a :
  Forall (valid_signature r d) sigs → a ∈ signers sigs → member_signed r d a.
Proof.
  intros Hs. unfold signers. rewrite elem_of_list_to_set, list_elem_of_fmap.
  intros (sig & -> & Hin). eapply valid_signature_signed. by eapply Forall_forall in Hin.
Qed.

(** Ratification.  A ratified checkpoint is the one submitted, with one
    signature per distinct signer in signer order, each taken from the
    submission and verifying under the seated member's key, and the signers
    reach the ring's quorum.  A submission whose signatures all verify is
    refused only below the quorum, with the exact count; otherwise the error is
    that of the first signature that does not verify.  Nothing panics. *)
Theorem ratify_checkpoint_spec c sigs r :
  AuthorityRing.wf r →
  let d := checkpoint_hash c in
  let have := N.of_nat (size (signers sigs)) in
  let need := AuthorityRing.quorum_threshold r in
  match ratify_checkpoint c sigs r with
  | Ok cs =>
      checkpoint cs = c ∧ (need ≤ have)%N ∧ Forall (valid_signature r d) sigs ∧
      signers (signatures cs) = signers sigs ∧ NoDup (authority <$> signatures cs) ∧
      StronglySorted key_le (authority <$> signatures cs) ∧
      ∀ sig, sig ∈ signatures cs → sig ∈ sigs ∧ member_signed r d (authority sig)
  | Err e =>
      (Forall (valid_signature r d) sigs ∧ (have < need)%N ∧ e = BelowQuorum have need) ∨
      ∃ pre sig post, sigs = pre ++ sig :: post ∧ Forall (valid_signature r d) pre ∧
        check_signature r d sig = Err e
  | Panic => False
  end.
Proof.
  intros Hr d have need. destruct (ratify_checkpoint c sigs r) as [cs|e|] eqn:E.
  - apply ratify_checkpoint_Ok in E as (Hs & Hq & ->); [|done]. cbn [checkpoint signatures].
    rewrite keys_of_values.
    split_and!; [done..| |apply NoDup_btree_keys|apply btree_keys_sorted|].
    + apply signers_cosigned.
    + intros sig Hin%cosigned_in. split; [done|]. eapply valid_signature_signed.
      by eapply Forall_forall in Hin.
  - unfold ratify_checkpoint in E.
    destruct (verify_loop_first_error r d sigs) as [Hs|(pre & sig & post & e' & -> & Hp & He)].
    + left. fold d in E. rewrite verify_loop_Ok in E by done. simpl in E.
      fold (last_per_signer sigs) in E.
      rewrite <-size_dom, dom_last_per_signer, wrap_small in E by (by eapply signers_small).
      case_bool_decide; by simplify_eq.
    + right. fold d in E. rewrite verify_loop_app, verify_loop_Ok in E by done. simpl in E.
      rewrite He in E. simplify_eq/=. eauto 10.
  - unfold ratify_checkpoint in E.
    destruct (verify_loop_first_error r d sigs) as [Hs|(pre & sig & post & e' & -> & Hp & He)].
    + fold d in E. rewrite verify_loop_Ok in E by done. simpl in E. by case_bool_decide.
    + fold d in E. rewrite verify_loop_app, verify_loop_Ok in E by done. simpl in E. by rewrite He in E.
Qed.

End ratification.

(** ** The chain *)

Section chain.
Context `{Blake3}.
Implicit Types (c : Checkpointer.Checkpointer) (cks : list Checkpoint).

(** Feeding the checkpointer a sequence of committed rounds and their roots. *)
Fixpoint emit_all c (rounds : list (Round * bytes)) : list Checkpoint * Checkpointer.Checkpointer :=
  match rounds with
  | [] => ([], c)
  | (r, root) :: rest =>
      let '(ck, c') := Checkpointer.maybe_emit c r root in
      let '(cks, c'') := emit_all c' rest in (option_list ck ++ cks, c'')
  end.

Definition zero_hash : bytes := replicate 32 Byte.x00.

(** [linked prev h cks]: consecutive heights from [h], each checkpoint naming
    the hash of its predecessor, the first naming [prev]. *)
Fixpoint linked (prev : bytes) (h : N) cks : Prop :=
  match cks with
  | [] => True
  | ck :: rest => prev_checkpoint ck = prev ∧ height ck = h ∧ linked (checkpoint_hash ck) (h + 1) rest
  end.

Definition tip (prev : bytes) cks : bytes := foldl (λ _ ck, checkpoint_hash ck) prev cks.

Lemma emit_all_linked c rounds :
  (Checkpointer.next_height c + N.of_nat (length rounds) < width 64)%N →
  let '(cks, c') := emit_all c rounds in
  linked (Checkpointer.last_hash c) (Checkpointer.next_height c) cks ∧
  (λ ck, (ck_round ck, ck_state_root ck)) <$> cks =
    filter (λ rr, (rr.1 mod Checkpointer.cadence c = 0)%N) rounds ∧
  Checkpointer.next_height c' = (Checkpointer.next_height c + N.of_nat (length cks))%N ∧
  Checkpointer.cadence c' = Checkpointer.cadence c ∧
  Checkpointer.last_hash c' = tip (Checkpointer.last_hash c) cks.
Proof.
  revert c. induction rounds as [|[r root] l IH]; intros c Hb.
  { simpl. split_and!; try done. by rewrite N.add_0_r. }
  cbn [length] in Hb. simpl. unfold Checkpointer.maybe_emit. case_bool_decide as Hm.
  - match goal with |- context [emit_all ?c' l] => specialize (IH c') end.
    simpl in IH. rewrite wrap_small in * by lia. specialize (IH ltac:(lia)).
    destruct (emit_all _ l) as [cks c'']. simpl. destruct IH as (Hl & Hf & Hh & Hc & Ht).
    split_and!; [done..| | |done|done].
    + rewrite filter_cons_True by done. by rewrite <-Hf.
    + rewrite Hh. lia.
  - specialize (IH c ltac:(lia)). destruct (emit_all c l) as [cks c''].
    destruct IH as (Hl & Hf & Hh & Hc & Ht). simpl. split_and!; try done.
    by rewrite filter_cons_False by done.
Qed.

(** The checkpoint chain.  A checkpointer fed any sequence of rounds emits
    a checkpoint for exactly the rounds divisible by the cadence, in order and
    with their roots; heights count up from zero without gaps, the first
    checkpoint names the zero hash and every other one the hash of its
    predecessor; the final state holds the count and the hash of the last one.
    A zero cadence is refused at construction. *)
Theorem checkpoint_chain cadence rounds :
  (N.of_nat (length rounds) < width 64)%N →
  match Checkpointer.new cadence with
  | None => cadence = 0%N
  | Some c =>
      let '(cks, c') := emit_all c rounds in
      linked zero_hash 0 cks ∧
      (λ ck, (ck_round ck, ck_state_root ck)) <$> cks = filter (λ rr, (rr.1 mod cadence = 0)%N) rounds ∧
      Checkpointer.next_height c' = N.of_nat (length cks) ∧
      Checkpointer.last_hash c' = tip zero_hash cks
  end.
Proof.
  intros Hb. unfold Checkpointer.new. case_bool_decide; [|lia].
  pose proof (emit_all_linked (Checkpointer.mk cadence 0 zero_hash) rounds Hb) as Hl.
  change (replicate 32 Byte.x00) with zero_hash. destruct (emit_all _ rounds) as [cks c'].
  simpl in Hl. naive_solver.
Qed.

(** The field types of a checkpoint. *)
Definition typed_checkpoint (ck : Checkpoint) : Prop :=
  (height ck < width 64)%N ∧ (ck_round ck < width 64)%N ∧
  length (ck_state_root ck) = 32 ∧ length (prev_checkpoint ck) = 32.

Lemma checkpoint_preimage_inj a b :
  typed_checkpoint a → typed_checkpoint b → checkpoint_preimage a = checkpoint_preimage b → a = b.
Proof.
  intros (Ha1 & Ha2 & Ha3 & Ha4) (Hb1 & Hb2 & Hb3 & Hb4) E. rewrite width_64 in *.
  unfold checkpoint_preimage in E. apply app_inv_head in E.
  apply app_inj_1 in E as [Eh E]; [|by rewrite !length_be_bytes].
  apply app_inj_1 in E as [Er E]; [|by rewrite !length_be_bytes].
  apply app_inj_1 in E as [Es Ep]; [|congruence].
  apply be_bytes_inj in Eh; [|done..]. apply be_bytes_inj in Er; [|done..].
  destruct a, b; simpl in *; congruence.
Qed.

Definition collision : Prop := ∃ x y, x ≠ y ∧ blake3 x = blake3 y.

Lemma checkpoint_hash_inj a b :
  typed_checkpoint a → typed_checkpoint b → checkpoint_hash a = checkpoint_hash b → a = b ∨ collision.
Proof.
  intros Ha Hb E. destruct (decide (checkpoint_preimage a = checkpoint_preimage b)) as [Ep|Hn].
  - left. by apply checkpoint_preimage_inj.
  - right. eexists _, _. by split.
Qed.

Lemma linked_app prev h cks1 cks2 :
  linked prev h (cks1 ++ cks2) ↔
  linked prev h cks1 ∧ linked (tip prev cks1) (h + N.of_nat (length cks1)) cks2.
Proof.
  revert prev h. induction cks1 as [|ck l IH]; intros prev h; simpl.
  { rewrite N.add_0_r. naive_solver. }
  change (tip prev (ck :: l)) with (tip (checkpoint_hash ck) l).
  rewrite IH. replace (h + N.of_nat (S (length l)))%N with (h + 1 + N.of_nat (length l))%N by lia.
  tauto.
Qed.

(** Two chains of checkpoints with the same tip are the same chain. *)
Lemma chain_unique cks1 cks2 :
  Forall typed_checkpoint cks1 → Forall typed_checkpoint cks2 →
  linked zero_hash 0 cks1 → linked zero_hash 0 cks2 →
  length cks1 = length cks2 → tip zero_hash cks1 = tip zero_hash cks2 → cks1 = cks2 ∨ collision.
Proof.
  revert cks2. induction cks1 as [|a l1 IH] using rev_ind; intros cks2 T1 T2 L1 L2 El Et.
  { left. by destruct cks2. }
  destruct cks2 as [|b l2 _] using rev_ind; [rewrite length_app in El; simpl in El; lia|].
  rewrite !length_app in El. simpl in El. unfold tip in Et. rewrite !foldl_app in Et. simpl in Et.
  apply Forall_app in T1 as [T1 [Ta _]%Forall_cons], T2 as [T2 [Tb _]%Forall_cons].
  apply linked_app in L1 as [L1 (Pa & _)], L2 as [L2 (Pb & _)].
  destruct (checkpoint_hash_inj a b Ta Tb Et) as [<-|]; [|by right].
  destruct (IH l2) as [->|]; try done; [lia|congruence|by left|by right].
Qed.

Lemma linked_last_height prev h cks ck :
  linked prev h (cks ++ [ck]) → height ck = (h + N.of_nat (length cks))%N.
Proof. by intros [_ (_ & -> & _)]%linked_app. Qed.

(** A checkpoint hash commits to the whole history.  Two non-empty chains
    of checkpoints grown from the zero hash that end in the same hash are the
    same chain, with the same rounds and roots at every height, unless BLAKE3
    collides on two different inputs. *)
Theorem checkpoint_history_binding cks1 cks2 :
  Forall typed_checkpoint cks1 → Forall typed_checkpoint cks2 →
  linked zero_hash 0 cks1 → linked zero_hash 0 cks2 →
  cks1 ≠ [] → cks2 ≠ [] → tip zero_hash cks1 = tip zero_hash cks2 →
  cks1 = cks2 ∨ ∃ x y, x ≠ y ∧ blake3 x = blake3 y.
Proof.
  intros T1 T2 L1 L2 N1 N2 Et.
  destruct cks1 as [|a l1 _] using rev_ind; [done|]. destruct cks2 as [|b l2 _] using rev_ind; [done|].
  assert (checkpoint_hash a = checkpoint_hash b) as Eh
    by (unfold tip in Et; by rewrite !foldl_app in Et).
  pose proof (linked_last_height _ _ _ _ L1) as H1. pose proof (linked_last_height _ _ _ _ L2) as H2.
  pose proof (Forall_inv (proj2 (proj1 (Forall_app _ _ _) T1))) as Ta.
  pose proof (Forall_inv (proj2 (proj1 (Forall_app _ _ _) T2))) as Tb.
  destruct (checkpoint_hash_inj a b Ta Tb Eh) as [<-|]; [|by right].
  apply chain_unique; try done. rewrite !length_app. simpl. lia.
Qed.
End chain.

(** ** Concrete checkpoints *)
Module CheckpointExamples.
#[local] Existing Instance Toy.toy_blake3.
#[local] Existing Instance Toy.toy_mldsa.

Definition member (i : AuthorityId) (k : byte) : AuthorityRing.AuthorityMember :=
  AuthorityRing.mk_member i 100000 [k].
(** A ring of three. *)
Definition ring : AuthorityRing.AuthorityRegistry :=
  foldl (λ r m, (AuthorityRing.admit_member r m).2) AuthorityRing.new
    [member 0 Byte.x00; member 1 Byte.x01; member 2 Byte.x02].

Lemma ring_wf : AuthorityRing.wf ring.
Proof. do 3 apply AuthorityRing.authority_wf_admit. apply AuthorityRing.authority_wf_new. Qed.

Definition ck (b : byte) : Checkpoint := mk_checkpoint 0 0 (replicate 32 b) zero_hash.
Definition cosign (b : byte) : list CheckpointSignature :=
  (λ p, mk_signature p.1 (p.2 :: checkpoint_hash (ck b))) <$>
    [(2%N, Byte.x02); (0%N, Byte.x00); (1%N, Byte.x01)].

Lemma ratify_checkpoint_spec_witness :
  ∃ cs, ratify_checkpoint (ck Byte.x01) (cosign Byte.x01) ring = Ok cs ∧ checkpoint cs = ck Byte.x01 ∧
        signers (signatures cs) = signers (cosign Byte.x01).
Proof.
  pose proof (ratify_checkpoint_spec (ck Byte.x01) (cosign Byte.x01) ring ring_wf) as Hs.
  destruct (ratify_checkpoint (ck Byte.x01) (cosign Byte.x01) ring) as [cs|e|] eqn:E.
  - exists cs. destruct Hs as (Hc & _ & _ & Hg & _). split; [reflexivity|]. split; [exact Hc|exact Hg].
  - exfalso. vm_compute in E. discriminate E.
  - destruct Hs.
Defined.


Definition rounds : list (Round * bytes) :=
  (λ r, (r, replicate 32 (byte_of_N r))) <$> [0; 1; 2; 3; 4; 5]%N.

Lemma checkpoint_chain_witness :
  let '(cks, c') := emit_all (Checkpointer.mk 2 0 zero_hash) rounds in
  linked zero_hash 0 cks ∧ Checkpointer.next_height c' = N.of_nat (length cks).
Proof.
  pose proof (checkpoint_chain 2 rounds) as Hc.
  change (Checkpointer.new 2) with (Some (Checkpointer.mk 2 0 zero_hash)) in Hc. cbv beta iota in Hc.
  destruct (emit_all (Checkpointer.mk 2 0 zero_hash) rounds) as [cks c'].
  destruct Hc as (Hl & _ & Hh & _); [vm_compute; reflexivity|]. split; [exact Hl|exact Hh].
Defined.

Definition chain3 : list Checkpoint := (emit_all (Checkpointer.mk 2 0 zero_hash) rounds).1.

Lemma checkpoint_history_binding_witness : chain3 = chain3 ∨ ∃ x y, x ≠ y ∧ blake3 x = blake3 y.
Proof.
  assert (Forall typed_checkpoint chain3) as T.
  { repeat (constructor; [split_and!; vm_compute; reflexivity|]). constructor. }
  assert (linked zero_hash 0 chain3) as L by (repeat split; vm_compute; reflexivity).
  apply (checkpoint_history_binding chain3 chain3 T T L L);
    [vm_compute; discriminate|vm_compute; discriminate|reflexivity].
Defined.
End CheckpointExamples.
