(* ===== verification/Issuer.v ===== *)
(** * The registered-issuer precompile

    [crates/suwappu-precompiles/src/issuer.rs]: issuers with a delegation cap,
    the supply books per (asset, issuer), minting, and the two-phase burn. *)

From S2P Require Import Prelude.

Abbreviation IssuerId := N (only parsing).
Abbreviation AssetId := bytes (only parsing).
Abbreviation BurnId := N (only parsing).

Definition DEFAULT_BURN_SLA_ROUNDS : N := 1000.

Record Issuer := mk_issuer {
  issuer_id : IssuerId;
  principal_did : bytes;
  delegation_cap : N;
  reserve_schema_version : N;
  policy_vocabulary_version : N;
}.

Record PendingBurn := mk_pending {
  burn_id : BurnId;
  burn_asset : AssetId;
  burn_issuer : IssuerId;
  burn_amount : N;
  initiated_at : N;
  sla_deadline : N;
}.

Record PaymentReceiptAttestation := mk_receipt { digest : bytes }.

Record AssetSupply := mk_supply {
  total_minted : N;
  total_burned : N;
  reserved_for_burn : N;
}.

(** [AssetSupply::default]. *)
Definition no_supply : AssetSupply := mk_supply 0 0 0.

(** Subtraction on [N] is the saturating subtraction. *)
Definition circulating (a : AssetSupply) : N := (total_minted a - total_burned a - reserved_for_burn a)%N.
Definition outstanding (a : AssetSupply) : N := (total_minted a - total_burned a)%N.

Record IssuerRegistry := mk_registry {
  issuers : gmap IssuerId Issuer;
  supplies : gmap (AssetId * IssuerId) AssetSupply;
  pending : gmap BurnId PendingBurn;
  next_burn_id : BurnId;
  sla_window_rounds : N;
}.

Inductive IssuerError :=
| IssuerAlreadyRegistered (i : IssuerId)
| IssuerNotRegistered (i : IssuerId)
| DelegationCapExceeded (issuer : IssuerId) (outstanding_after cap : N)
| InsufficientCirculating
| UnknownBurn (b : BurnId)
| SlaNotExpired (b : BurnId) (now deadline : N)
| SupplyOverflow.

Definition with_sla (sla : N) : IssuerRegistry := mk_registry ∅ ∅ ∅ 0 sla.
Definition new_registry : IssuerRegistry := with_sla DEFAULT_BURN_SLA_ROUNDS.

Definition register (r : IssuerRegistry) (iss : Issuer) : outcome IssuerError unit * IssuerRegistry :=
  if bool_decide (is_Some (issuers r !! issuer_id iss))
  then (Err (IssuerAlreadyRegistered (issuer_id iss)), r)
  else (Ok tt, mk_registry (<[issuer_id iss := iss]> (issuers r)) (supplies r) (pending r)
                 (next_burn_id r) (sla_window_rounds r)).

Definition issuer (r : IssuerRegistry) (id : IssuerId) : option Issuer := issuers r !! id.
Definition supply (r : IssuerRegistry) (asset : AssetId) (i : IssuerId) : AssetSupply :=
  default no_supply (supplies r !! (asset, i)).
Definition set_supply (r : IssuerRegistry) (k : AssetId * IssuerId) (v : AssetSupply) : IssuerRegistry :=
  mk_registry (issuers r) (<[k := v]> (supplies r)) (pending r) (next_burn_id r) (sla_window_rounds r).
Definition set_pending (r : IssuerRegistry) (m : gmap BurnId PendingBurn) : IssuerRegistry :=
  mk_registry (issuers r) (supplies r) m (next_burn_id r) (sla_window_rounds r).
Definition pending_burn_count (r : IssuerRegistry) : nat := size (pending r).

(** The loop over the supply records of the issuer. *)
Fixpoint sum_outstanding (i : IssuerId) (l : list ((AssetId * IssuerId) * AssetSupply)) (acc : N) : option N :=
  match l with
  | [] => Some acc
  | (k, sup) :: rest =>
      if bool_decide (k.2 = i)
      then acc' ← checked_add 128 acc (outstanding sup); sum_outstanding i rest acc'
      else sum_outstanding i rest acc
  end.

Definition mint (r : IssuerRegistry) (i : IssuerId) (asset : AssetId) (amount : N)
    : outcome IssuerError unit * IssuerRegistry :=
  match issuers r !! i with
  | None => (Err (IssuerNotRegistered i), r)
  | Some iss =>
      match total ← sum_outstanding i (btree_entries (supplies r)) 0; checked_add 128 total amount with
      | None => (Err SupplyOverflow, r)
      | Some after =>
          if bool_decide (delegation_cap iss < after)%N
          then (Err (DelegationCapExceeded i after (delegation_cap iss)), r)
          else
            let entry := supply r asset i in
            match checked_add 128 (total_minted entry) amount with
            | None => (Err SupplyOverflow, set_supply r (asset, i) entry)
            | Some m => (Ok tt, set_supply r (asset, i)
                                  (mk_supply m (total_burned entry) (reserved_for_burn entry)))
            end
      end
  end.

Definition initiate_burn (r : IssuerRegistry) (i : IssuerId) (asset : AssetId) (amount now : N)
    : outcome IssuerError BurnId * IssuerRegistry :=
  if bool_decide (is_Some (issuers r !! i)) then
    let entry := supply r asset i in
    let r1 := set_supply r (asset, i) entry in
    if bool_decide (circulating entry < amount)%N then (Err InsufficientCirculating, r1)
    else match checked_add 128 (reserved_for_burn entry) amount with
         | None => (Err SupplyOverflow, r1)
         | Some res =>
             let r2 := set_supply r (asset, i) (mk_supply (total_minted entry) (total_burned entry) res) in
             let b := next_burn_id r in
             (Ok b, mk_registry (issuers r2) (supplies r2)
                      (<[b := mk_pending b asset i amount now (wrap 64 (now + sla_window_rounds r))]> (pending r))
                      (wrap 64 (b + 1)) (sla_window_rounds r))
         end
  else (Err (IssuerNotRegistered i), r).

(** [Panic] is the [expect] on the supply record of a pending burn. *)
Definition finalize_burn (r : IssuerRegistry) (b : BurnId) (att : PaymentReceiptAttestation)
    : outcome IssuerError unit * IssuerRegistry :=
  match pending r !! b with
  | None => (Err (UnknownBurn b), r)
  | Some p =>
      let r1 := set_pending r (delete b (pending r)) in
      let k := (burn_asset p, burn_issuer p) in
      match supplies r !! k with
      | None => (Panic, r1)
      | Some entry =>
          match checked_sub (reserved_for_burn entry) (burn_amount p) with
          | None => (Err SupplyOverflow, r1)
          | Some res =>
              match checked_add 128 (total_burned entry) (burn_amount p) with
              | None => (Err SupplyOverflow,
                         set_supply r1 k (mk_supply (total_minted entry) (total_burned entry) res))
              | Some burned => (Ok tt, set_supply r1 k (mk_supply (total_minted entry) burned res))
              end
          end
      end
  end.

Definition reverse_burn (r : IssuerRegistry) (b : BurnId) (now : N)
    : outcome IssuerError unit * IssuerRegistry :=
  match pending r !! b with
  | None => (Err (UnknownBurn b), r)
  | Some p =>
      if bool_decide (now ≤ sla_deadline p)%N then (Err (SlaNotExpired b now (sla_deadline p)), r)
      else
        let k := (burn_asset p, burn_issuer p) in
        match supplies r !! k with
        | None => (Panic, r)
        | Some entry =>
            match checked_sub (reserved_for_burn entry) (burn_amount p) with
            | None => (Err SupplyOverflow, r)
            | Some res =>
                (Ok tt, set_pending (set_supply r k (mk_supply (total_minted entry) (total_burned entry) res))
                          (delete b (pending r)))
            end
        end
  end.

(** ** The books *)

(** The issuer's outstanding supply over all its assets. *)
Definition outstanding_weight (i : IssuerId) (k : AssetId * IssuerId) (sup : AssetSupply) : N :=
  if bool_decide (k.2 = i) then outstanding sup else 0%N.
Definition issuer_outstanding (r : IssuerRegistry) (i : IssuerId) : N :=
  map_weight (outstanding_weight i) (supplies r).

(** The amount pending burns hold of one asset of one issuer. *)
Definition pending_weight (k : AssetId * IssuerId) (_ : BurnId) (p : PendingBurn) : N :=
  if bool_decide ((burn_asset p, burn_issuer p) = k) then burn_amount p else 0%N.
Definition pending_total (r : IssuerRegistry) (k : AssetId * IssuerId) : N :=
  map_weight (pending_weight k) (pending r).

Record books (r : IssuerRegistry) : Prop := {
  books_reserved : ∀ k, reserved_for_burn (default no_supply (supplies r !! k)) = pending_total r k;
  books_backed : ∀ k sup, supplies r !! k = Some sup →
    (total_burned sup + reserved_for_burn sup ≤ total_minted sup < width 128)%N;
  books_cap : ∀ i iss, issuers r !! i = Some iss → (issuer_outstanding r i ≤ delegation_cap iss < width 128)%N;
  books_registered : ∀ a i, is_Some (supplies r !! (a, i)) → is_Some (issuers r !! i);
  books_pending : ∀ b p, pending r !! b = Some p →
    burn_id p = b ∧ (b < next_burn_id r)%N ∧ is_Some (supplies r !! (burn_asset p, burn_issuer p));
}.

Lemma sum_outstanding_spec i l acc :
  (acc < width 128)%N →
  sum_outstanding i l acc =
  let t := (acc + sum_N (uncurry (outstanding_weight i) <$> l))%N in
  if bool_decide (t < width 128)%N then Some t else None.
Proof.
  revert acc. induction l as [|[k sup] l IH]; intros acc Ha; cbn [sum_outstanding fmap list_fmap].
  { simpl. rewrite N.add_0_r. by rewrite bool_decide_true. }
  rewrite sum_N_cons. cbn [uncurry]. case_bool_decide as Hk.
  - assert (outstanding_weight i k sup = outstanding sup) as -> by (unfold outstanding_weight; by rewrite bool_decide_true).
    unfold checked_add. case_bool_decide as Hs; cbn [mbind option_bind].
    + rewrite IH by done. cbv zeta. by rewrite N.add_assoc.
    + cbv zeta. rewrite bool_decide_false; [done|lia].
  - assert (outstanding_weight i k sup = 0%N) as -> by (unfold outstanding_weight; by rewrite bool_decide_false).
    by rewrite IH.
Qed.

Lemma outstanding_weight_at r i k :
  weight_at (outstanding_weight i) (supplies r) k =
  if bool_decide (k.2 = i) then outstanding (default no_supply (supplies r !! k)) else 0%N.
Proof. unfold weight_at, outstanding_weight. by destruct (supplies r !! k); simpl; case_bool_decide. Qed.

Lemma books_outstanding_small r i :
  books r → is_Some (issuers r !! i) → (issuer_outstanding r i < width 128)%N.
Proof. intros Hb [iss Hi]. pose proof (books_cap r Hb i iss Hi). lia. Qed.

Lemma books_sum_outstanding r i :
  books r → is_Some (issuers r !! i) →
  sum_outstanding i (btree_entries (supplies r)) 0 = Some (issuer_outstanding r i).
Proof.
  intros Hb Hi. rewrite sum_outstanding_spec by (by apply width_pos).
  rewrite btree_weight, N.add_0_l. fold (issuer_outstanding r i). cbv zeta.
  rewrite bool_decide_true; [done|by apply books_outstanding_small].
Qed.

Lemma books_entry r k : books r →
  let sup := default no_supply (supplies r !! k) in
  (total_burned sup + reserved_for_burn sup ≤ total_minted sup < width 128)%N.
Proof.
  intros Hb. simpl. destruct (supplies r !! k) as [sup|] eqn:E; simpl.
  - by eapply books_backed.
  - split; [lia|apply width_pos].
Qed.

(** One supply record and the pending burns change together. *)
Lemma books_update r k v pend nid sla :
  books r → is_Some (issuers r !! k.2) →
  (total_burned v + reserved_for_burn v ≤ total_minted v < width 128)%N →
  (∀ k', map_weight (pending_weight k') pend =
         if decide (k' = k) then reserved_for_burn v else pending_total r k') →
  (∀ iss, issuers r !! k.2 = Some iss →
     (issuer_outstanding r k.2 + outstanding v
      ≤ delegation_cap iss + outstanding (default no_supply (supplies r !! k)))%N) →
  (∀ b p, pend !! b = Some p → burn_id p = b ∧ (b < nid)%N ∧
     (pending r !! b = Some p ∨ (burn_asset p, burn_issuer p) = k)) →
  books (mk_registry (issuers r) (<[k := v]> (supplies r)) pend nid sla).
Proof.
  intros Hb Hi Hv Hp Hc Hn. split; cbn [issuers supplies pending next_burn_id].
  - intros k'. unfold pending_total. cbn [pending]. rewrite Hp. case_decide as Hk.
    + subst. by rewrite lookup_insert_eq.
    + rewrite lookup_insert_ne by done. by apply books_reserved.
  - intros k' sup [[<- <-]|[_ ?]]%lookup_insert_Some; [done|]. by eapply books_backed.
  - intros i iss Hiss. pose proof (map_weight_insert (outstanding_weight i) (supplies r) k v) as Hw.
    rewrite outstanding_weight_at in Hw. unfold outstanding_weight at 2 in Hw.
    fold (issuer_outstanding r i) in Hw. pose proof (books_cap r Hb i iss Hiss).
    unfold issuer_outstanding. cbn [supplies]. case_bool_decide as Hk; [|lia].
    subst i. specialize (Hc iss Hiss). lia.
  - intros a i. destruct (decide ((a, i) = k)) as [<-|Hk]; [done|].
    rewrite lookup_insert_ne by done. by apply books_registered.
  - intros b p Hb'. destruct (Hn b p Hb') as (? & ? & Hor). split_and!; [done..|].
    destruct (decide ((burn_asset p, burn_issuer p) = k)) as [->|Hk]; [by rewrite lookup_insert_eq|].
    rewrite lookup_insert_ne by done. destruct Hor as [Hor|]; [|done].
    by apply (books_pending r Hb b p).
Qed.

Lemma pending_total_same r k v : books r → reserved_for_burn v = reserved_for_burn (default no_supply (supplies r !! k)) →
  ∀ k', map_weight (pending_weight k') (pending r) =
        if decide (k' = k) then reserved_for_burn v else pending_total r k'.
Proof. intros Hb Hv k'. case_decide as Hk; [|done]. subst. rewrite Hv, (books_reserved r Hb k). done. Qed.

(** Rewriting a record with the value it has, or with the default. *)
Lemma books_touch r k :
  books r → is_Some (issuers r !! k.2) → books (set_supply r k (default no_supply (supplies r !! k))).
Proof.
  intros Hb Hi. apply books_update; [done..|by apply books_entry|by apply pending_total_same| |].
  - intros iss Hiss. pose proof (books_cap r Hb _ _ Hiss). lia.
  - intros b p Hp. pose proof (books_pending r Hb b p Hp). naive_solver.
Qed.

(** ** Each operation on balanced books *)

Lemma mint_spec r i a n :
  books r →
  mint r i a n =
  match issuers r !! i with
  | None => (Err (IssuerNotRegistered i), r)
  | Some iss =>
      let after := (issuer_outstanding r i + n)%N in
      let sup := supply r a i in
      if decide (width 128 ≤ after)%N then (Err SupplyOverflow, r)
      else if decide (delegation_cap iss < after)%N
      then (Err (DelegationCapExceeded i after (delegation_cap iss)), r)
      else if decide (width 128 ≤ total_minted sup + n)%N
      then (Err SupplyOverflow, set_supply r (a, i) sup)
      else (Ok tt, set_supply r (a, i)
                     (mk_supply (total_minted sup + n) (total_burned sup) (reserved_for_burn sup)))
  end.
Proof.
  intros Hb. unfold mint. destruct (issuers r !! i) as [iss|] eqn:Ei; [|done].
  rewrite books_sum_outstanding by eauto. cbn [mbind option_bind]. unfold checked_add. cbv zeta.
  repeat case_bool_decide; repeat case_decide; try done; lia.
Qed.

Lemma books_mint r i a n : books r → books (mint r i a n).2.
Proof.
  intros Hb. rewrite mint_spec by done. destruct (issuers r !! i) as [iss|] eqn:Ei; [|done]. cbv zeta.
  case_decide; [done|]. case_decide; [done|]. case_decide; cbn [snd]; [by apply books_touch|].
  pose proof (books_entry r (a, i) Hb) as He. cbv zeta in He. fold (supply r a i) in He.
  apply books_update; simpl; [done|done|lia|by apply pending_total_same| |].
  - intros iss' Hiss. rewrite Ei in Hiss. injection Hiss as <-.
    unfold outstanding. fold (supply r a i). simpl. lia.
  - intros b p Hp. pose proof (books_pending r Hb b p Hp). naive_solver.
Qed.

Lemma next_burn_fresh r : books r → pending r !! next_burn_id r = None.
Proof.
  intros Hb. destruct (pending r !! next_burn_id r) as [p|] eqn:E; [|done].
  pose proof (books_pending r Hb _ _ E). lia.
Qed.

Lemma initiate_burn_spec r i a n now :
  books r →
  initiate_burn r i a n now =
  match issuers r !! i with
  | None => (Err (IssuerNotRegistered i), r)
  | Some _ =>
      let sup := supply r a i in
      let b := next_burn_id r in
      if decide (circulating sup < n)%N then (Err InsufficientCirculating, set_supply r (a, i) sup)
      else (Ok b, mk_registry (issuers r)
                    (<[(a, i) := mk_supply (total_minted sup) (total_burned sup) (reserved_for_burn sup + n)]>
                       (supplies r))
                    (<[b := mk_pending b a i n now (wrap 64 (now + sla_window_rounds r))]> (pending r))
                    (wrap 64 (b + 1)) (sla_window_rounds r))
  end.
Proof.
  intros Hb. unfold initiate_burn. destruct (issuers r !! i) as [iss|] eqn:Ei; simpl; [|done].
  pose proof (books_entry r (a, i) Hb) as He. cbv zeta in He. fold (supply r a i) in He.
  unfold checked_add, circulating. cbv zeta.
  repeat case_bool_decide; repeat case_decide; try done; lia.
Qed.

Lemma books_initiate_burn r i a n now :
  (next_burn_id r + 1 < width 64)%N → books r → books (initiate_burn r i a n now).2.
Proof.
  intros Hw Hb. rewrite initiate_burn_spec by done. destruct (issuers r !! i) as [iss|] eqn:Ei; [|done].
  cbv zeta. case_decide as Hc; cbn [snd]; [by apply books_touch|].
  pose proof (books_entry r (a, i) Hb) as He. cbv zeta in He. fold (supply r a i) in He.
  unfold circulating in Hc. apply books_update; simpl; [done|done|lia| | |].
  - intros k'. rewrite map_weight_insert_fresh by (by apply next_burn_fresh).
    unfold pending_weight at 1. simpl. fold (pending_total r k'). case_bool_decide; case_decide; try congruence.
    + subst. rewrite <-(books_reserved r Hb (a, i)). unfold supply. lia.
    + lia.
  - intros iss' Hiss. pose proof (books_cap r Hb _ _ Hiss).
    unfold outstanding. fold (supply r a i). simpl. lia.
  - intros b p. rewrite (wrap_small 64 (next_burn_id r + 1)) by done.
    intros [[<- <-]|[_ Hp]]%lookup_insert_Some; simpl.
    + split_and!; [done|lia|by right].
    + pose proof (books_pending r Hb b p Hp). split_and!; [naive_solver|lia|by left].
Qed.

(** A pending burn is backed by its supply record. *)
Lemma books_burn r b p :
  books r → pending r !! b = Some p →
  ∃ sup, supplies r !! (burn_asset p, burn_issuer p) = Some sup ∧
    is_Some (issuers r !! burn_issuer p) ∧
    (burn_amount p ≤ reserved_for_burn sup)%N ∧
    ∀ k', map_weight (pending_weight k') (delete b (pending r)) =
      if decide (k' = (burn_asset p, burn_issuer p)) then (reserved_for_burn sup - burn_amount p)%N
      else pending_total r k'.
Proof.
  intros Hb Hp. destruct (books_pending r Hb b p Hp) as (_ & _ & [sup Hs]). exists sup.
  assert (∀ k', (map_weight (pending_weight k') (delete b (pending r)) + pending_weight k' b p
                 = pending_total r k')%N) as Hd.
  { intros k'. pose proof (map_weight_delete (pending_weight k') (pending r) b) as Hd.
    unfold weight_at in Hd. by rewrite Hp in Hd. }
  pose proof (books_reserved r Hb (burn_asset p, burn_issuer p)) as Hr. rewrite Hs in Hr. simpl in Hr.
  split_and!; [done|eapply books_registered; eauto| |].
  - specialize (Hd (burn_asset p, burn_issuer p)). unfold pending_weight at 2 in Hd.
    rewrite bool_decide_true in Hd by done. lia.
  - intros k'. specialize (Hd k'). unfold pending_weight at 2 in Hd.
    case_bool_decide; case_decide; try congruence; [subst k'|]; lia.
Qed.

Lemma finalize_burn_spec r b att :
  books r →
  finalize_burn r b att =
  match pending r !! b with
  | None => (Err (UnknownBurn b), r)
  | Some p =>
      let sup := supply r (burn_asset p) (burn_issuer p) in
      (Ok tt, set_supply (set_pending r (delete b (pending r))) (burn_asset p, burn_issuer p)
                (mk_supply (total_minted sup) (total_burned sup + burn_amount p)
                   (reserved_for_burn sup - burn_amount p)))
  end.
Proof.
  intros Hb. unfold finalize_burn. destruct (pending r !! b) as [p|] eqn:Ep; [|done].
  destruct (books_burn r b p Hb Ep) as (sup & Hs & _ & Hle & _). unfold supply. rewrite Hs. simpl.
  pose proof (books_backed r Hb _ _ Hs). unfold checked_sub, checked_add.
  rewrite !bool_decide_true by lia. done.
Qed.

Lemma reverse_burn_spec r b now :
  books r →
  reverse_burn r b now =
  match pending r !! b with
  | None => (Err (UnknownBurn b), r)
  | Some p =>
      let sup := supply r (burn_asset p) (burn_issuer p) in
      if decide (now ≤ sla_deadline p)%N then (Err (SlaNotExpired b now (sla_deadline p)), r)
      else (Ok tt, set_supply (set_pending r (delete b (pending r))) (burn_asset p, burn_issuer p)
                     (mk_supply (total_minted sup) (total_burned sup) (reserved_for_burn sup - burn_amount p)))
  end.
Proof.
  intros Hb. unfold reverse_burn. destruct (pending r !! b) as [p|] eqn:Ep; [|done].
  destruct (books_burn r b p Hb Ep) as (sup & Hs & _ & Hle & _). unfold supply. rewrite Hs. simpl.
  unfold checked_sub. rewrite (bool_decide_true (_ ≤ reserved_for_burn sup)%N) by done.
  by case_bool_decide; case_decide.
Qed.

Lemma books_settle r b p burned :
  books r → pending r !! b = Some p → (burned = 0 ∨ burned = burn_amount p)%N →
  let sup := supply r (burn_asset p) (burn_issuer p) in
  books (set_supply (set_pending r (delete b (pending r))) (burn_asset p, burn_issuer p)
           (mk_supply (total_minted sup) (total_burned sup + burned) (reserved_for_burn sup - burn_amount p))).
Proof.
  intros Hb Hp Hor. destruct (books_burn r b p Hb Hp) as (sup & Hs & Hi & Hle & Hw).
  unfold supply. rewrite Hs. simpl. pose proof (books_backed r Hb _ _ Hs).
  apply (books_update r); simpl; [done|done|lia|done| |].
  - intros iss Hiss. pose proof (books_cap r Hb _ _ Hiss). rewrite Hs. unfold outstanding. simpl. lia.
  - intros b' p' [_ Hp']%lookup_delete_Some. pose proof (books_pending r Hb b' p' Hp').
    split_and!; [naive_solver..|by left].
Qed.

Lemma books_finalize_burn r b att : books r → books (finalize_burn r b att).2.
Proof.
  intros Hb. rewrite finalize_burn_spec by done. destruct (pending r !! b) as [p|] eqn:Ep; [|done].
  apply books_settle; [done..|by right].
Qed.

Lemma books_reverse_burn r b now : books r → books (reverse_burn r b now).2.
Proof.
  intros Hb. rewrite reverse_burn_spec by done. destruct (pending r !! b) as [p|] eqn:Ep; [|done].
  cbv zeta. case_decide; [done|]. pose proof (books_settle r b p 0 Hb Ep) as Hs. cbv zeta in Hs.
  rewrite N.add_0_r in Hs. apply Hs. by left.
Qed.

Lemma books_register r iss : (delegation_cap iss < width 128)%N → books r → books (register r iss).2.
Proof.
  intros Hc Hb. unfold register. case_bool_decide as Hk; [done|]. apply eq_None_not_Some in Hk.
  split; simpl; try apply Hb.
  - intros i iss' [[<- <-]|[_ Hi]]%lookup_insert_Some; [|by apply (books_cap r Hb)].
    assert (issuer_outstanding r (issuer_id iss) = 0%N) as E; [|unfold issuer_outstanding in *; simpl; lia].
    unfold issuer_outstanding, map_weight. apply N.le_0_r.
    assert (∀ l, (∀ k sup, (k, sup) ∈ l → k.2 ≠ issuer_id iss) →
      (sum_N (uncurry (outstanding_weight (issuer_id iss)) <$> l) ≤ 0)%N) as Hl.
    { induction l as [|[k sup] l IH]; intros Hl; [done|]. cbn [fmap list_fmap]. rewrite sum_N_cons. simpl.
      unfold outstanding_weight at 1. rewrite bool_decide_false by (by eapply Hl; left).
      apply IH. intros k' sup' Hin. eapply Hl. by right. }
    apply Hl. intros [a i] sup Hin%elem_of_map_to_list E. simpl in E. subst i.
    destruct (books_registered r Hb a (issuer_id iss)) as [? ?]; [eauto|congruence].
  - intros a i Hs%(books_registered r Hb). rewrite lookup_insert. by case_decide.
Qed.

(** ** Histories *)

Inductive op :=
| Register (iss : Issuer)
| Mint (i : IssuerId) (a : AssetId) (n : N)
| InitiateBurn (i : IssuerId) (a : AssetId) (n now : N)
| FinalizeBurn (b : BurnId) (att : PaymentReceiptAttestation)
| ReverseBurn (b : BurnId) (now : N).

Definition typed_op (o : op) : Prop :=
  match o with Register iss => (delegation_cap iss < width 128)%N | _ => True end.

Definition step (r : IssuerRegistry) (o : op) : outcome IssuerError (option BurnId) * IssuerRegistry :=
  let quiet p := (let! _ := p.1 in Ok None, p.2) in
  match o with
  | Register iss => quiet (register r iss)
  | Mint i a n => quiet (mint r i a n)
  | InitiateBurn i a n now => let '(res, r') := initiate_burn r i a n now in (let! b := res in Ok (Some b), r')
  | FinalizeBurn b att => quiet (finalize_burn r b att)
  | ReverseBurn b now => quiet (reverse_burn r b now)
  end.

Definition run (r : IssuerRegistry) (ops : list op) : IssuerRegistry := foldl (λ r o, (step r o).2) r ops.

(** What an accepted operation adds to the minted and burned totals of [k]. *)
Definition mints (r : IssuerRegistry) (o : op) (k : AssetId * IssuerId) : N :=
  match o with
  | Mint i a n => if bool_decide ((a, i) = k) then n else 0%N
  | _ => 0%N
  end.
Definition burns (r : IssuerRegistry) (o : op) (k : AssetId * IssuerId) : N :=
  match o with
  | FinalizeBurn b _ => weight_at (pending_weight k) (pending r) b
  | _ => 0%N
  end.
Fixpoint ledger (f : IssuerRegistry → op → AssetId * IssuerId → N) (r : IssuerRegistry) (ops : list op)
    (k : AssetId * IssuerId) : N :=
  match ops with
  | [] => 0%N
  | o :: rest => ((if is_Ok (step r o).1 then f r o k else 0) + ledger f (step r o).2 rest k)%N
  end.

Lemma step_books r o :
  books r → typed_op o → (next_burn_id r + 1 < width 64)%N → books (step r o).2.
Proof.
  intros Hb Ht Hw. destruct o; simpl.
  - by apply books_register.
  - by apply books_mint.
  - pose proof (books_initiate_burn r i a n now Hw Hb). by destruct (initiate_burn r i a n now).
  - by apply books_finalize_burn.
  - by apply books_reverse_burn.
Qed.

Lemma step_next_burn_id r o :
  books r → (next_burn_id r + 1 < width 64)%N →
  (next_burn_id r ≤ next_burn_id (step r o).2 ≤ next_burn_id r + 1)%N.
Proof.
  intros Hb Hw. destruct o; simpl.
  - unfold register. case_bool_decide; simpl; lia.
  - rewrite mint_spec by done. case_match; cbv zeta; [repeat case_decide|]; simpl; lia.
  - rewrite initiate_burn_spec by done. destruct (issuers r !! i); cbv zeta; [case_decide|]; simpl;
      rewrite ?(wrap_small 64 (next_burn_id r + 1)) by done; lia.
  - rewrite finalize_burn_spec by done. case_match; simpl; lia.
  - rewrite reverse_burn_spec by done. case_match; cbv zeta; [case_decide|]; simpl; lia.
Qed.

(** The supply of [k] after an operation. *)
Lemma step_supply r o k :
  books r →
  let old := default no_supply (supplies r !! k) in
  let new := default no_supply (supplies (step r o).2 !! k) in
  let ok := is_Ok (step r o).1 in
  total_minted new = (total_minted old + if ok then mints r o k else 0)%N ∧
  total_burned new = (total_burned old + if ok then burns r o k else 0)%N.
Proof.
  intros Hb. cbv zeta. unfold burns, mints. destruct o; cbn [step].
  - unfold register. case_bool_decide; simpl; lia.
  - rewrite mint_spec by done. case_match; simpl; [|lia].
    case_decide; simpl; [lia|]. case_decide; simpl; [lia|].
    case_decide; simpl; rewrite lookup_insert; case_decide; try case_bool_decide; subst; try congruence;
      simpl; unfold supply; lia.
  - rewrite initiate_burn_spec by done. destruct (issuers r !! i); simpl; [|lia].
    case_decide; simpl; rewrite lookup_insert; case_decide; subst; simpl; unfold supply; lia.
  - rewrite finalize_burn_spec by done. unfold weight_at. destruct (pending r !! b) as [p|] eqn:Ep; simpl; [|lia].
    unfold pending_weight. rewrite lookup_insert. case_decide; case_bool_decide; subst; try congruence; simpl; unfold supply; lia.
  - rewrite reverse_burn_spec by done. case_match; simpl; [|lia].
    case_decide; simpl; [lia|]. rewrite lookup_insert; case_decide; subst; simpl; unfold supply; lia.
Qed.

Lemma run_books r ops :
  books r → Forall typed_op ops → (next_burn_id r + N.of_nat (length ops) < width 64)%N →
  books (run r ops) ∧ (next_burn_id (run r ops) ≤ next_burn_id r + N.of_nat (length ops))%N ∧
  ∀ k, let old := default no_supply (supplies r !! k) in
       let new := default no_supply (supplies (run r ops) !! k) in
       total_minted new = (total_minted old + ledger mints r ops k)%N ∧
       total_burned new = (total_burned old + ledger burns r ops k)%N.
Proof.
  revert r. induction ops as [|o ops IH]; intros r Hb Ht Hw.
  { simpl. split_and!; [done|lia|]. intros k. by rewrite !N.add_0_r. }
  apply Forall_cons in Ht as [Ho Ht]. cbn [length] in Hw.
  pose proof (step_next_burn_id r o Hb ltac:(lia)).
  destruct (IH (step r o).2) as (Hb' & Hn & Hs); [apply step_books; [done..|lia]|done|lia|].
  cbn [run foldl ledger]. unfold run in *. split_and!; [done|cbn [length]; lia|].
  intros k. cbv zeta in *. destruct (step_supply r o k Hb) as [E1 E2]. cbv zeta in *.
  destruct (Hs k) as [-> ->]. rewrite E1, E2. split; lia.
Qed.

Lemma books_with_sla sla : books (with_sla sla).
Proof.
  split; simpl; intros *; by rewrite ?lookup_empty; try intros [? ?].
Qed.

(** The operation settles the burn [b]. *)
Definition settles (b : BurnId) (o : op) : bool :=
  match o with
  | FinalizeBurn b' _ | ReverseBurn b' _ => bool_decide (b' = b)
  | _ => false
  end.
(** Some accepted operation of the history settled [b]. *)
Fixpoint settled (b : BurnId) (r : IssuerRegistry) (ops : list op) : bool :=
  match ops with
  | [] => false
  | o :: rest => (is_Ok (step r o).1 && settles b o) || settled b (step r o).2 rest
  end.

Lemma step_pending r o b :
  books r → (b < next_burn_id r)%N →
  pending (step r o).2 !! b = if is_Ok (step r o).1 && settles b o then None else pending r !! b.
Proof.
  intros Hb Hlt. destruct o; cbn [step settles]; rewrite ?andb_false_r.
  - unfold register. by case_bool_decide.
  - rewrite mint_spec by done. destruct (issuers r !! i); cbv zeta; repeat case_decide; done.
  - rewrite initiate_burn_spec by done. destruct (issuers r !! i); cbv zeta; [case_decide|]; try done.
    simpl. rewrite lookup_insert_ne by lia. done.
  - rewrite finalize_burn_spec by done. destruct (pending r !! b0) as [p|] eqn:Ep; [|done].
    cbn. rewrite lookup_delete. case_bool_decide; case_decide; done.
  - rewrite reverse_burn_spec by done. destruct (pending r !! b0) as [p|] eqn:Ep; [|done].
    cbv zeta. case_decide; [done|]. cbn. rewrite lookup_delete. case_bool_decide; case_decide; done.
Qed.

Lemma run_pending r ops b :
  books r → Forall typed_op ops → (next_burn_id r + N.of_nat (length ops) < width 64)%N →
  (b < next_burn_id r)%N →
  pending (run r ops) !! b =
  if settled b r ops then None else pending r !! b.
Proof.
  revert r. induction ops as [|o ops IH]; intros r Hb Ht Hw Hlt; [done|].
  apply Forall_cons in Ht as [Ho Ht]. cbn [length] in Hw.
  pose proof (step_next_burn_id r o Hb ltac:(lia)). cbn [settled run foldl]. fold (run (step r o).2 ops).
  rewrite IH by (try apply step_books; try done; lia). rewrite step_pending by done.
  by destruct (is_Ok _ && _), (settled _ _ _).
Qed.

(** ** Properties *)

(** C37. The issuer's books.  Over every history of operations from an empty
    registry: for each asset of each issuer the minted total is the sum of the
    accepted mints, the burned total the sum of the burns finalized, and the
    reserved amount the sum of the burns pending; burned plus reserved never
    exceeds minted; no issuer's outstanding supply over all its assets exceeds
    its delegation cap; and the next operation neither panics nor, unless it is
    a mint, reports an overflow. *)
Theorem issuer_books_balanced sla ops :
  Forall typed_op ops → (N.of_nat (length ops) + 1 < width 64)%N →
  let r := run (with_sla sla) ops in
  (∀ a i, let sup := supply r a i in
     total_minted sup = ledger mints (with_sla sla) ops (a, i) ∧
     total_burned sup = ledger burns (with_sla sla) ops (a, i) ∧
     reserved_for_burn sup = pending_total r (a, i) ∧
     (total_burned sup + reserved_for_burn sup ≤ total_minted sup < width 128)%N) ∧
  (∀ i iss, issuers r !! i = Some iss → (issuer_outstanding r i ≤ delegation_cap iss)%N) ∧
  ∀ o, (step r o).1 ≠ Panic ∧ ((step r o).1 = Err SupplyOverflow → ∃ i a n, o = Mint i a n).
Proof.
  intros Ht Hw r. destruct (run_books (with_sla sla) ops (books_with_sla sla) Ht ltac:(simpl; lia))
    as (Hb & Hn & Hs). split_and!.
  - intros a i. pose proof (books_entry r (a, i) Hb) as He. pose proof (books_reserved r Hb (a, i)) as Hr.
    destruct (Hs (a, i)) as [E1 E2]. cbn [with_sla supplies] in E1, E2. rewrite lookup_empty in E1, E2.
    rewrite N.add_0_l in E1, E2. unfold supply. fold r in E1, E2. cbv zeta in *. auto.
  - intros i iss Hi. by apply (books_cap _ Hb).
  - fold r in Hb. intros [iss|i a n|i a n now|b att|b now]; simpl.
    + unfold register. by case_bool_decide.
    + rewrite mint_spec by done. case_match; cbv zeta; repeat case_decide; simpl; naive_solver.
    + rewrite initiate_burn_spec by done. destruct (issuers r !! i); cbv zeta; [case_decide|]; done.
    + rewrite finalize_burn_spec by done. by destruct (pending r !! b).
    + rewrite reverse_burn_spec by done. destruct (pending r !! b); cbv zeta; [case_decide|]; done.
Qed.

(** The two-phase burn.  A burn accepted at round [now0] gets a fresh
    identifier.  At any later point of the history, once some operation has
    finalized or reversed it, both settlements are refused as unknown: it is
    redeemed at most once.  Until then it can be finalized, which retires
    exactly the reserved amount, and it can be reversed, returning the amount
    to circulation, exactly when the round is past the deadline. *)
Theorem burn_lifecycle sla ops1 i a n now0 ops2 :
  Forall typed_op (ops1 ++ InitiateBurn i a n now0 :: ops2) →
  (N.of_nat (length (ops1 ++ InitiateBurn i a n now0 :: ops2)) < width 64)%N →
  let r1 := run (with_sla sla) ops1 in
  let b := next_burn_id r1 in
  (initiate_burn r1 i a n now0).1 = Ok b →
  let r1' := (initiate_burn r1 i a n now0).2 in
  let r2 := run r1' ops2 in
  let deadline := wrap 64 (now0 + sla_window_rounds r1) in
  let old := supply r2 a i in
  if settled b r1' ops2 then
    (∀ att, finalize_burn r2 b att = (Err (UnknownBurn b), r2)) ∧
    (∀ now, reverse_burn r2 b now = (Err (UnknownBurn b), r2))
  else
    (n ≤ reserved_for_burn old)%N ∧
    (∀ att, let '(res, r3) := finalize_burn r2 b att in
       res = Ok tt ∧ supply r3 a i =
         mk_supply (total_minted old) (total_burned old + n) (reserved_for_burn old - n)) ∧
    (∀ now, let '(res, r3) := reverse_burn r2 b now in
       if decide (now ≤ deadline)%N then res = Err (SlaNotExpired b now deadline) ∧ r3 = r2
       else res = Ok tt ∧ supply r3 a i =
         mk_supply (total_minted old) (total_burned old) (reserved_for_burn old - n)).
Proof.
  intros Ht Hw r1 b E r1' r2 deadline old. apply Forall_app in Ht as [Ht1 [Ho Ht2]%Forall_cons].
  rewrite length_app in Hw. cbn [length] in Hw.
  destruct (run_books (with_sla sla) ops1 (books_with_sla sla) Ht1) as (Hb1 & Hn & _); [simpl; lia|].
  fold r1 in Hb1, Hn. cbn [with_sla next_burn_id] in Hn.
  assert (next_burn_id r1 + 1 < width 64)%N as Hw1 by lia.
  pose proof (books_initiate_burn r1 i a n now0 Hw1 Hb1) as Hb1'. fold r1' in Hb1'.
  assert (next_burn_id r1' = (b + 1)%N ∧ pending r1' !! b = Some (mk_pending b a i n now0 deadline))
    as [Hn' Hp].
  { unfold r1'. rewrite initiate_burn_spec in * by done. destruct (issuers r1 !! i); [|done].
    cbv zeta in *. case_decide; [done|]. simpl. rewrite wrap_small by done.
    by rewrite lookup_insert_eq. }
  destruct (run_books r1' ops2 Hb1' Ht2) as (Hb2 & _); [lia|].
  pose proof (run_pending r1' ops2 b Hb1' Ht2 ltac:(lia) ltac:(lia)) as Hp2. fold r2 in Hb2, Hp2.
  destruct (settled b r1' ops2).
  { split; intros x; [rewrite finalize_burn_spec by done|rewrite reverse_burn_spec by done]; by rewrite Hp2. }
  rewrite Hp in Hp2. destruct (books_burn r2 b _ Hb2 Hp2) as (sup & Hs & _ & Hle & _). split_and!.
  - unfold old, supply. simpl in Hs. by rewrite Hs.
  - intros att. rewrite finalize_burn_spec by done. rewrite Hp2. split; [done|].
    unfold supply at 1. simpl. by rewrite lookup_insert_eq.
  - intros now. rewrite reverse_burn_spec by done. rewrite Hp2. cbv zeta. cbn [sla_deadline].
    case_decide; [done|]. split; [done|]. unfold supply at 1. simpl. by rewrite lookup_insert_eq.
Qed.

(** ** A concrete issuer *)
Module IssuerExamples.
Definition acme : Issuer := mk_issuer 1 [] 1000 0 0.
Definition usd : bytes := [Byte.x55].
Definition day1 : list op := [Register acme; Mint 1 usd 600; InitiateBurn 1 usd 200 5].
Definition day2 : list op := [Mint 1 usd 500; Mint 1 usd 400].

Lemma issuer_books_balanced_witness :
  let r := run (with_sla 10) day1 in
  total_minted (supply r usd 1) = 600%N ∧ reserved_for_burn (supply r usd 1) = 200%N ∧
  (issuer_outstanding r 1 ≤ 1000)%N.
Proof.
  destruct (issuer_books_balanced 10 day1) as (Hs & Hc & _).
  - repeat constructor.
  - vm_compute. reflexivity.
  - cbv zeta. destruct (Hs usd 1%N) as (-> & _ & -> & _).
    split; [vm_compute; reflexivity|]. split; [vm_compute; reflexivity|].
    exact (Hc 1%N acme eq_refl).
Defined.

Lemma burn_lifecycle_witness :
  let r1 := run (with_sla 10) [Register acme; Mint 1 usd 600] in
  let r2 := run (initiate_burn r1 1 usd 200 5).2 day2 in
  (finalize_burn r2 0 (mk_receipt [])).1 = Ok tt ∧ (reverse_burn r2 0 15).1 = Err (SlaNotExpired 0 15 15).
Proof.
  intros r1 r2.
  assert (settled (next_burn_id r1) (initiate_burn r1 1 usd 200 5).2 day2 = false) as E
    by (vm_compute; reflexivity).
  pose proof (burn_lifecycle 10 [Register acme; Mint 1 usd 600] 1 usd 200 5 day2
    ltac:(repeat constructor) ltac:(vm_compute; reflexivity) ltac:(vm_compute; reflexivity)) as H.
  cbv zeta in H. fold r1 in H. rewrite E in H. fold r2 in H. destruct H as (_ & Hf & _).
  specialize (Hf (mk_receipt [])). change (next_burn_id r1) with 0%N in Hf.
  destruct (finalize_burn r2 0 (mk_receipt [])) as [res r3]. split; [apply Hf|vm_compute; reflexivity].
Defined.
End IssuerExamples.
