(* ===== verification/Reserve.v ===== *)
(** * The reserve-coverage circuit breaker

    [crates/suwappu-precompiles/src/reserve.rs]: coverage rules, attestations,
    the breaker, and the coverage-gated mint over the issuer registry.  The
    zero-knowledge verifier behind the [zk-proofs] feature is a parameter. *)

From Stdlib Require Import Strings.String.
From S2P Require Import Prelude Issuer.

Inductive CoverageRule :=
| OneToOnePar
| NavStrike (basis_points : N)
| Jurisdiction (ratio_bps : N).

Inductive DisclosureTier :=
| F1Aggregate | F2BroadCategory | F3DetailedCategory | F4Cusip | F5CusipThreshold.

#[global] Instance DisclosureTier_eq_dec : EqDecision DisclosureTier.
Proof. solve_decision. Defined.

Record ReserveAttestation := mk_attestation {
  att_issuer : IssuerId;
  att_asset : AssetId;
  total_reserves : N;
  outstanding_at_attestation : N;
  attested_at : N;
  schema_version : N;
  tier : DisclosureTier;
  commitment : bytes;
  proof : bytes;
}.

Inductive CoverageError :=
| NoRule
| PredicateFailed (reserves outstanding : N) (rule : CoverageRule)
| NoFreshAttestation
| CoverageOverflow
| UnsupportedTierForProof (t : DisclosureTier)
| ProofVerificationFailed (e : string).

Definition ratio_covered (reserves outstanding bps : N) : outcome CoverageError bool :=
  let! lhs := ok_or (checked_mul 128 reserves 10000) CoverageOverflow in
  let! rhs := ok_or (checked_mul 128 outstanding bps) CoverageOverflow in
  Ok (bool_decide (rhs ≤ lhs)%N).

Definition predicate_satisfied (rule : CoverageRule) (reserves outstanding : N)
    : outcome CoverageError unit :=
  let! covered :=
    match rule with
    | OneToOnePar => Ok (bool_decide (outstanding ≤ reserves)%N)
    | NavStrike basis_points => ratio_covered reserves outstanding basis_points
    | Jurisdiction ratio_bps => ratio_covered reserves outstanding ratio_bps
    end in
  if covered then Ok tt else Err (PredicateFailed reserves outstanding rule).

Definition DEFAULT_ATTESTATION_TTL_ROUNDS : N := 10000.

Record ReserveCoverageChecker := mk_checker {
  rules : gmap (IssuerId * AssetId) CoverageRule;
  latest : gmap (IssuerId * AssetId) ReserveAttestation;
  ttl_rounds : N;
}.

Definition with_ttl (ttl : N) : ReserveCoverageChecker := mk_checker ∅ ∅ ttl.
Definition new_checker : ReserveCoverageChecker := with_ttl DEFAULT_ATTESTATION_TTL_ROUNDS.

Definition set_rule (c : ReserveCoverageChecker) (i : IssuerId) (a : AssetId) (rule : CoverageRule)
    : ReserveCoverageChecker :=
  mk_checker (<[(i, a) := rule]> (rules c)) (latest c) (ttl_rounds c).

Definition submit_attestation (c : ReserveCoverageChecker) (att : ReserveAttestation)
    : outcome CoverageError unit * ReserveCoverageChecker :=
  let k := (att_issuer att, att_asset att) in
  match rules c !! k with
  | None => (Err NoRule, c)
  | Some rule =>
      match predicate_satisfied rule (total_reserves att) (outstanding_at_attestation att) with
      | Ok _ => (Ok tt, mk_checker (rules c) (<[k := att]> (latest c)) (ttl_rounds c))
      | Err e => (Err e, c)
      | Panic => (Panic, c)
      end
  end.

(** The proof system behind the feature gate: its proofs, keys and verifier,
    which checks a proof against the total and the commitment. *)
Class ReserveCoverageHost := {
  SP1Proof : Type;
  SP1VerifyingKey : Type;
  verify_blocking : SP1Proof → SP1VerifyingKey → N → bytes → outcome string unit;
}.

Definition submit_attestation_with_proof `{ReserveCoverageHost} (c : ReserveCoverageChecker)
    (att : ReserveAttestation) (pf : SP1Proof) (vk : SP1VerifyingKey)
    : outcome CoverageError unit * ReserveCoverageChecker :=
  if bool_decide (tier att = F1Aggregate) then
    match verify_blocking pf vk (total_reserves att) (commitment att) with
    | Ok _ => submit_attestation c att
    | Err e => (Err (ProofVerificationFailed e), c)
    | Panic => (Panic, c)
    end
  else (Err (UnsupportedTierForProof (tier att)), c).

Definition can_mint (c : ReserveCoverageChecker) (i : IssuerId) (a : AssetId) (outstanding now : N)
    : outcome CoverageError unit :=
  let! rule := ok_or (rules c !! (i, a)) NoRule in
  let! att := ok_or (latest c !! (i, a)) NoFreshAttestation in
  if bool_decide (ttl_rounds c < now - attested_at att)%N then Err NoFreshAttestation
  else predicate_satisfied rule (total_reserves att) outstanding.

Inductive GatedMintError := Coverage (e : CoverageError) | IssuerRefused (e : IssuerError).

Definition mint_with_coverage (r : IssuerRegistry) (c : ReserveCoverageChecker) (i : IssuerId)
    (a : AssetId) (amount now : N) : outcome GatedMintError unit * IssuerRegistry :=
  match checked_add 128 (outstanding (supply r a i)) amount with
  | None => (Err (Coverage CoverageOverflow), r)
  | Some projected =>
      match can_mint c i a projected now with
      | Ok _ =>
          match mint r i a amount with
          | (Ok _, r') => (Ok tt, r')
          | (Err e, r') => (Err (IssuerRefused e), r')
          | (Panic, r') => (Panic, r')
          end
      | Err e => (Err (Coverage e), r)
      | Panic => (Panic, r)
      end
  end.

(** ** The relation the predicate decides *)

Definition covers (rule : CoverageRule) (reserves outstanding : N) : Prop :=
  match rule with
  | OneToOnePar => (outstanding ≤ reserves)%N
  | NavStrike bps | Jurisdiction bps => (outstanding * bps ≤ reserves * 10000)%N
  end.
#[global] Instance covers_dec rule x y : Decision (covers rule x y).
Proof. destruct rule; simpl; apply _. Defined.

(** The products of the ratio rules fit the machine width. *)
Definition ratio_fits (rule : CoverageRule) (reserves outstanding : N) : Prop :=
  match rule with
  | OneToOnePar => True
  | NavStrike bps | Jurisdiction bps =>
      (reserves * 10000 < width 128)%N ∧ (outstanding * bps < width 128)%N
  end.
#[global] Instance ratio_fits_dec rule x y : Decision (ratio_fits rule x y).
Proof. destruct rule; simpl; apply _. Defined.

Lemma ratio_covered_spec x y bps :
  ratio_covered x y bps =
  if decide ((x * 10000 < width 128)%N ∧ (y * bps < width 128)%N)
  then Ok (bool_decide (y * bps ≤ x * 10000)%N) else Err CoverageOverflow.
Proof.
  unfold ratio_covered, checked_mul.
  cbv zeta. destruct (decide _) as [[H1 H2]|Hn].
  - by rewrite !(bool_decide_true (_ < _)%N).
  - case_bool_decide; simpl; [|done]. by rewrite bool_decide_false by tauto.
Qed.

Lemma predicate_satisfied_spec rule x y :
  predicate_satisfied rule x y =
  if decide (ratio_fits rule x y) then
    if decide (covers rule x y) then Ok tt else Err (PredicateFailed x y rule)
  else Err CoverageOverflow.
Proof.
  unfold predicate_satisfied. destruct rule; rewrite ?ratio_covered_spec; cbn [ratio_fits covers];
    repeat case_decide; simpl; try case_bool_decide; done.
Qed.

(** The breaker is closed: a rule, a fresh attestation and coverage. *)
Definition breaker_closed (c : ReserveCoverageChecker) (i : IssuerId) (a : AssetId)
    (outstanding now : N) : Prop :=
  ∃ rule att, rules c !! (i, a) = Some rule ∧ latest c !! (i, a) = Some att ∧
    (now - attested_at att ≤ ttl_rounds c)%N ∧
    ratio_fits rule (total_reserves att) outstanding ∧ covers rule (total_reserves att) outstanding.

Lemma can_mint_Ok c i a out now : can_mint c i a out now = Ok tt ↔ breaker_closed c i a out now.
Proof.
  unfold can_mint, breaker_closed. split.
  - destruct (rules c !! (i, a)) as [rule|], (latest c !! (i, a)) as [att|]; simpl; try done.
    case_bool_decide; [done|]. rewrite predicate_satisfied_spec. repeat case_decide; try done.
    intros _. exists rule, att. split_and!; [done..|lia|done|done].
  - intros (rule & att & -> & -> & Ht & Hf & Hc). simpl. rewrite bool_decide_false by lia.
    rewrite predicate_satisfied_spec. by rewrite !decide_True by done.
Qed.

Lemma can_mint_no_panic c i a out now : can_mint c i a out now ≠ Panic.
Proof.
  unfold can_mint. destruct (rules c !! _), (latest c !! _); simpl; try done.
  case_bool_decide; [done|]. rewrite predicate_satisfied_spec. by repeat case_decide.
Qed.

(** Two registries no caller can tell apart. *)
Record same_books (r r' : IssuerRegistry) : Prop := {
  same_supply : ∀ a i, supply r' a i = supply r a i;
  same_issuers : issuers r' = issuers r;
  same_pending : pending r' = pending r;
  same_next : next_burn_id r' = next_burn_id r;
}.

Lemma same_books_refl r : same_books r r.
Proof. done. Qed.

Lemma same_books_touch r a i : same_books r (set_supply r (a, i) (supply r a i)).
Proof.
  split; try done. intros a' i'. unfold supply, set_supply. simpl. rewrite lookup_insert.
  case_decide as E; [|done]. by simplify_eq.
Qed.

(** [r'] is [r] with [n] more minted for [(a, i)]. *)
Definition minted_into r (i : IssuerId) (a : AssetId) (n : N) (r' : IssuerRegistry) : Prop :=
  let sup := supply r a i in
  r' = set_supply r (a, i)
         (mk_supply (total_minted sup + n) (total_burned sup) (reserved_for_burn sup)).

Lemma mint_with_coverage_cases r c i a n now :
  books r →
  match mint_with_coverage r c i a n now with
  | (Ok _, r') =>
      breaker_closed c i a (outstanding (supply r a i) + n) now ∧ minted_into r i a n r' ∧
      (∃ iss, issuers r !! i = Some iss ∧ (issuer_outstanding r i + n ≤ delegation_cap iss)%N)
  | (Err _, r') => same_books r r'
  | (Panic, _) => False
  end.
Proof.
  intros Hb. unfold mint_with_coverage, checked_add. cbv zeta. case_bool_decide; [|done].
  pose proof (can_mint_no_panic c i a (outstanding (supply r a i) + n) now).
  destruct (can_mint c i a _ now) as [[]|e|] eqn:Ec; [|done..]. apply can_mint_Ok in Ec.
  rewrite mint_spec by done. destruct (issuers r !! i) as [iss|] eqn:Ei; [|done]. cbv zeta.
  do 2 (case_decide; [done|]). case_decide; [apply same_books_touch|].
  split_and!; [done..|]. exists iss. split; [done|lia].
Qed.

Lemma outstanding_le_issuer r a i : (outstanding (supply r a i) ≤ issuer_outstanding r i)%N.
Proof.
  unfold supply. destruct (supplies r !! (a, i)) as [sup|] eqn:E; simpl; [|unfold outstanding; simpl; lia].
  pose proof (map_weight_lookup (outstanding_weight i) _ _ _ E) as Hw.
  unfold outstanding_weight at 1 in Hw. by rewrite bool_decide_true in Hw.
Qed.

Lemma issuer_outstanding_mint r i a n r' :
  books r → minted_into r i a n r' → issuer_outstanding r' i = (issuer_outstanding r i + n)%N.
Proof.
  intros Hb ->. pose proof (books_entry r (a, i) Hb) as He. cbv zeta in He. fold (supply r a i) in He.
  unfold issuer_outstanding. simpl.
  match goal with |- map_weight _ (<[_ := ?v]> _) = _ =>
    pose proof (map_weight_insert (outstanding_weight i) (supplies r) (a, i) v) as Hw end.
  rewrite outstanding_weight_at in Hw. unfold outstanding_weight at 2 in Hw.
  rewrite !bool_decide_true in Hw by done. fold (supply r a i) in Hw. unfold outstanding in Hw. simpl in Hw.
  lia.
Qed.

Lemma mint_with_coverage_books r c i a n now : books r → books (mint_with_coverage r c i a n now).2.
Proof.
  intros Hb. pose proof (books_mint r i a n Hb) as Hm. unfold mint_with_coverage.
  destruct (checked_add _ _ _); [|done]. destruct (can_mint _ _ _ _ _); [|done..].
  by destruct (mint r i a n) as [[]].
Qed.

Lemma supply_set r a i v a' i' :
  supply (set_supply r (a, i) v) a' i' = if decide ((a', i') = (a, i)) then v else supply r a' i'.
Proof.
  unfold supply, set_supply. simpl. destruct (decide _) as [[= -> ->]|Hn].
  - by rewrite lookup_insert_eq.
  - by rewrite lookup_insert_ne.
Qed.

(** ** Properties *)

(** C38. The coverage-gated mint.  An accepted mint leaves the asset covered: the
    registered rule holds between the reserves of the latest attestation, which
    is within its lifetime, and the outstanding supply after the mint; the
    issuer's outstanding total stays within its delegation cap; exactly the
    amount is added to the one asset's minted total and nothing else changes.  A
    refused mint changes nothing a caller can observe, and nothing panics. *)
Theorem coverage_gated_mint r c i a n now :
  books r →
  match mint_with_coverage r c i a n now with
  | (Ok _, r') => books r' ∧
      (∃ rule att, rules c !! (i, a) = Some rule ∧ latest c !! (i, a) = Some att ∧
         (now - attested_at att ≤ ttl_rounds c)%N ∧
         covers rule (total_reserves att) (outstanding (supply r' a i))) ∧
      (∃ iss, issuers r !! i = Some iss ∧ (issuer_outstanding r' i ≤ delegation_cap iss)%N) ∧
      total_minted (supply r' a i) = (total_minted (supply r a i) + n)%N ∧
      total_burned (supply r' a i) = total_burned (supply r a i) ∧
      (∀ a' i', (a', i') ≠ (a, i) → supply r' a' i' = supply r a' i') ∧ pending r' = pending r
  | (Err _, r') => books r' ∧ same_books r r'
  | (Panic, _) => False
  end.
Proof.
  intros Hb. pose proof (mint_with_coverage_cases r c i a n now Hb) as Hc.
  pose proof (mint_with_coverage_books r c i a n now Hb) as Hb'.
  destruct (mint_with_coverage r c i a n now) as [[[]|e|] r']; [|done..].
  destruct Hc as ((rule & att & Hr & Ha & Ht & _ & Hc) & Hm & iss & Hi & Hcap).
  pose proof (issuer_outstanding_mint _ _ _ _ _ Hb Hm) as Hio.
  pose proof (books_entry r (a, i) Hb) as He. cbv zeta in He. fold (supply r a i) in He.
  unfold minted_into in Hm. cbv zeta in Hm. rewrite Hm. split_and!; [by rewrite <-Hm| | |..].
  - exists rule, att. rewrite supply_set, decide_True by done. split_and!; [done..|].
    unfold outstanding in *. simpl.
    by replace (_ + n - _)%N with (total_minted (supply r a i) - total_burned (supply r a i) + n)%N by lia.
  - exists iss. split; [done|]. rewrite <-Hm. lia.
  - by rewrite supply_set, decide_True.
  - by rewrite supply_set, decide_True.
  - intros a' i' Hne. by rewrite supply_set, decide_False.
  - done.
Qed.

Lemma covers_mono rule x y y' :
  (y' ≤ y)%N → covers rule x y → covers rule x y'.
Proof. destruct rule; simpl; nia. Qed.
Lemma ratio_fits_mono rule x y y' :
  (y' ≤ y)%N → ratio_fits rule x y → ratio_fits rule x y'.
Proof. destruct rule; simpl; [done|nia..]. Qed.

(** The breaker recovers.  Whatever state the breaker is in, once an
    attestation arrives that is still fresh and whose reserves cover the
    projected supply under the registered rule, it is accepted and the mint that
    was refused goes through, provided the issuer has the delegation for it. *)
Theorem breaker_recovers r c i a n now rule att iss :
  books r → issuers r !! i = Some iss →
  (issuer_outstanding r i + n ≤ delegation_cap iss)%N →
  (total_minted (supply r a i) + n < width 128)%N →
  rules c !! (i, a) = Some rule → att_issuer att = i → att_asset att = a →
  (now - attested_at att ≤ ttl_rounds c)%N →
  (outstanding_at_attestation att ≤ outstanding (supply r a i) + n)%N →
  covers rule (total_reserves att) (outstanding (supply r a i) + n) →
  ratio_fits rule (total_reserves att) (outstanding (supply r a i) + n) →
  ∃ c', submit_attestation c att = (Ok tt, c') ∧ (mint_with_coverage r c' i a n now).1 = Ok tt.
Proof.
  intros Hb Hi Hcap Hm Hr <- <- Ht Ho Hc Hf. eexists. split.
  - unfold submit_attestation. rewrite Hr, predicate_satisfied_spec.
    rewrite !decide_True; [done|by eapply covers_mono|by eapply ratio_fits_mono].
  - pose proof (books_cap r Hb _ _ Hi). pose proof (outstanding_le_issuer r (att_asset att) (att_issuer att)).
    unfold mint_with_coverage, checked_add. cbv zeta. rewrite bool_decide_true by lia.
    rewrite (proj2 (can_mint_Ok _ _ _ _ _)).
    + rewrite mint_spec, Hi by done. cbv zeta. by rewrite !decide_False by lia.
    + exists rule, att. simpl. rewrite lookup_insert_eq. done.
Qed.

Module ReserveExamples.
Import IssuerExamples.
Definition acme_books : IssuerRegistry := run (with_sla 10) [Register acme; Mint 1 usd 100].
Lemma acme_books_balanced : books acme_books.
Proof. apply run_books; [apply books_with_sla|repeat constructor|vm_compute; reflexivity]. Qed.

Definition att (reserves now : N) : ReserveAttestation :=
  mk_attestation 1 usd reserves 100 now 0 F1Aggregate [] [].
Definition breaker : ReserveCoverageChecker :=
  (submit_attestation (set_rule (with_ttl 20) 1 usd OneToOnePar) (att 150 7)).2.

Lemma coverage_gated_mint_witness :
  ∃ r', mint_with_coverage acme_books breaker 1 usd 50 9 = (Ok tt, r') ∧
        (outstanding (supply r' usd 1) ≤ 150)%N.
Proof.
  pose proof (coverage_gated_mint acme_books breaker 1 usd 50 9 acme_books_balanced) as H.
  destruct (mint_with_coverage acme_books breaker 1 usd 50 9) as [[[]|e|] r'] eqn:E.
  - exists r'. split; [reflexivity|]. destruct H as (_ & (rule & at_ & Hr & Ha & _ & Hc) & _).
    vm_compute in Hr. injection Hr as <-. vm_compute in Ha. injection Ha as <-. exact Hc.
  - vm_compute in E. discriminate E.
  - destruct H.
Defined.

Lemma breaker_recovers_witness :
  (mint_with_coverage acme_books breaker 1 usd 60 9).1 = Err (Coverage (PredicateFailed 150 160 OneToOnePar)) ∧
  ∃ c', submit_attestation breaker (att 160 9) = (Ok tt, c') ∧
        (mint_with_coverage acme_books c' 1 usd 60 9).1 = Ok tt.
Proof.
  split; [vm_compute; reflexivity|].
  apply (breaker_recovers acme_books breaker 1 usd 60 9 OneToOnePar (att 160 9) acme acme_books_balanced);
    try (vm_compute; reflexivity); try (vm_compute; discriminate).
Defined.
End ReserveExamples.
