(* ===== verification/Rewards.v ===== *)
(** * Compute-reward settlement

    [crates/suwappu-precompiles/src/rewards.rs]: pricing of compute receipts,
    the pro-rata budget clamp, and the settlement of an epoch through the
    coverage-gated mint. *)

From S2P Require Import Prelude Issuer Reserve.

Abbreviation RewardRecipient := bytes (only parsing).

Definition GIB : N := 2 ^ 30.
Definition UPTIME_FULL_RATE_BPS : N := 9900.
Definition UPTIME_HALF_RATE_BPS : N := 9500.

Record ComputeReceipt := mk_receipt {
  recipient : RewardRecipient;
  receipt_epoch : N;
  certificates_signed : N;
  uptime_ok_samples : N;
  uptime_total_samples : N;
  attestations_signed : N;
  da_bytes_served : N;
}.

Record RewardParams := mk_params {
  per_certificate : N;
  per_attestation : N;
  per_gib_served : N;
  epoch_budget : N;
}.

Record EpochSettlement := mk_settlement {
  settled_epoch : N;
  payouts : list (RewardRecipient * N);
  settled_total : N;
}.

Inductive RewardError :=
| EpochNotMonotonic (epoch : N) (last : option N)
| ReceiptEpochMismatch (receipt_epoch epoch : N)
| DuplicateRecipient
| MalformedUptime
| RewardCoverage (e : CoverageError)
| RewardIssuer (e : IssuerError)
| RewardOverflow.

(** [From<GatedMintError>]. *)
Definition reward_error (e : GatedMintError) : RewardError :=
  match e with Coverage e => RewardCoverage e | IssuerRefused e => RewardIssuer e end.

Definition uptime_multiplier_bps (ok total : N) : N :=
  if bool_decide (total = 0%N) || bool_decide (total < ok)%N then 0%N
  else
    let scaled := wrap 128 (ok * 10000) in
    if bool_decide (wrap 128 (total * UPTIME_FULL_RATE_BPS) ≤ scaled)%N then 10000%N
    else if bool_decide (wrap 128 (total * UPTIME_HALF_RATE_BPS) ≤ scaled)%N then 5000%N
    else 0%N.

Definition price_receipt (c : ComputeReceipt) (p : RewardParams) : outcome RewardError N :=
  if bool_decide (uptime_total_samples c < uptime_ok_samples c)%N then Err MalformedUptime
  else
    let! certs := ok_or (checked_mul 128 (certificates_signed c) (per_certificate p)) RewardOverflow in
    let! attests := ok_or (checked_mul 128 (attestations_signed c) (per_attestation p)) RewardOverflow in
    let! served := ok_or (checked_mul 128 (da_bytes_served c) (per_gib_served p)) RewardOverflow in
    let served := (served / GIB)%N in
    let! raw := ok_or (s ← checked_add 128 certs attests; checked_add 128 s served) RewardOverflow in
    let m := uptime_multiplier_bps (uptime_ok_samples c) (uptime_total_samples c) in
    ok_or ((λ x, x / 10000)%N <$> checked_mul 128 raw m) RewardOverflow.

Record RewardSettlement := mk_engine {
  params : RewardParams;
  reward_issuer : IssuerId;
  reward_asset : AssetId;
  last_settled_epoch : option N;
}.

Definition new_engine (p : RewardParams) (i : IssuerId) (a : AssetId) : RewardSettlement :=
  mk_engine p i a None.

(** The validation loop. *)
Fixpoint validate_receipts (epoch : N) (l : list ComputeReceipt) (seen : gset RewardRecipient)
    : outcome RewardError unit :=
  match l with
  | [] => Ok tt
  | c :: rest =>
      if bool_decide (receipt_epoch c ≠ epoch) then Err (ReceiptEpochMismatch (receipt_epoch c) epoch)
      else if bool_decide (recipient c ∈ seen) then Err DuplicateRecipient
      else validate_receipts epoch rest ({[recipient c]} ∪ seen)
  end.

(** The pricing loop: the priced receipts and their total. *)
Fixpoint price_all (p : RewardParams) (l : list ComputeReceipt) (raw : list (RewardRecipient * N)) (total : N)
    : outcome RewardError (list (RewardRecipient * N) * N) :=
  match l with
  | [] => Ok (raw, total)
  | c :: rest =>
      let! amount := price_receipt c p in
      let! total' := ok_or (checked_add 128 total amount) RewardOverflow in
      price_all p rest (raw ++ [(recipient c, amount)]) total'
  end.

(** The clamping loop. *)
Fixpoint clamp_all (budget raw_total : N) (l : list (RewardRecipient * N))
    (out : list (RewardRecipient * N)) (total : N) : outcome RewardError (list (RewardRecipient * N) * N) :=
  match l with
  | [] => Ok (out, total)
  | (who, amount) :: rest =>
      let! clamped :=
        if bool_decide (budget < raw_total)%N
        then let! x := ok_or (checked_mul 128 amount budget) RewardOverflow in Ok (x / raw_total)%N
        else Ok amount in
      if bool_decide (0 < clamped)%N
      then clamp_all budget raw_total rest (out ++ [(who, clamped)]) (wrap 128 (total + clamped))
      else clamp_all budget raw_total rest out total
  end.

(** What is computed before any state is touched. *)
Definition plan_epoch (e : RewardSettlement) (epoch : N) (receipts : list ComputeReceipt)
    : outcome RewardError (list (RewardRecipient * N) * N) :=
  let! _ := match last_settled_epoch e with
            | Some last => if bool_decide (epoch ≤ last)%N then Err (EpochNotMonotonic epoch (Some last))
                           else Ok tt
            | None => Ok tt
            end in
  let! _ := validate_receipts epoch receipts ∅ in
  let! priced := price_all (params e) receipts [] 0 in
  clamp_all (epoch_budget (params e)) priced.2 priced.1 [] 0.

Definition settle_epoch (e : RewardSettlement) (epoch : N) (receipts : list ComputeReceipt)
    (r : IssuerRegistry) (c : ReserveCoverageChecker) (now : N)
    : outcome RewardError EpochSettlement * RewardSettlement * IssuerRegistry :=
  match plan_epoch e epoch receipts with
  | Err x => (Err x, e, r)
  | Panic => (Panic, e, r)
  | Ok (pays, total) =>
      let done_ r' := (Ok (mk_settlement epoch pays total),
                       mk_engine (params e) (reward_issuer e) (reward_asset e) (Some epoch), r') in
      if bool_decide (0 < total)%N then
        match mint_with_coverage r c (reward_issuer e) (reward_asset e) total now with
        | (Ok _, r') => done_ r'
        | (Err x, r') => (Err (reward_error x), e, r')
        | (Panic, r') => (Panic, e, r')
        end
      else done_ r
  end.

(** ** What the loops compute *)

Lemma validate_receipts_Ok epoch l seen :
  validate_receipts epoch l seen = Ok tt ↔
  Forall (λ c, receipt_epoch c = epoch) l ∧ NoDup (recipient <$> l) ∧ Forall (λ c, recipient c ∉ seen) l.
Proof.
  revert seen. induction l as [|c l IH]; intros seen; simpl.
  { split; [|done]. intros _. split_and!; constructor. }
  rewrite !Forall_cons, NoDup_cons. case_bool_decide as He; [naive_solver|].
  case_bool_decide as Hs; [naive_solver|]. rewrite IH.
  rewrite !Forall_forall. setoid_rewrite not_elem_of_union. setoid_rewrite not_elem_of_singleton.
  rewrite list_elem_of_fmap. split.
  - intros (? & ? & Hl). split_and!; try done; [|set_solver]. intros (x & Hx & Hin). by destruct (Hl x Hin).
  - intros ((? & ?) & (Hn & ?) & (? & Hl)). split_and!; try done. intros x Hin. split; [|by apply Hl].
    intros E. apply Hn. by exists x.
Qed.

Lemma price_all_Ok p l raw t raw' t' :
  (t < width 128)%N →
  price_all p l raw t = Ok (raw', t') ↔
  ∃ prices, Forall2 (λ c x, price_receipt c p = Ok x) l prices ∧
    raw' = raw ++ zip (recipient <$> l) prices ∧ t' = (t + sum_N prices)%N ∧ (t' < width 128)%N.
Proof.
  revert raw t. induction l as [|c l IH]; intros raw t Ht; simpl.
  { split.
    - intros [= <- <-]. exists []. rewrite app_nil_r, N.add_0_r. done.
    - intros (prices & ->%Forall2_nil_inv_l & -> & -> & _). by rewrite app_nil_r, N.add_0_r. }
  split.
  - destruct (price_receipt c p) as [x|e|] eqn:Ex; [|done..]. simpl. unfold checked_add. cbv zeta.
    case_bool_decide as Hx; [|done]. simpl. intros (prices & HF & -> & -> & Hlt)%IH; [|done].
    exists (x :: prices). rewrite sum_N_cons, <-app_assoc. split_and!; [by constructor|done|lia|lia].
  - intros (prices & HF & -> & -> & Hlt). apply Forall2_cons_inv_l in HF as (x & ps & Ex & HF & ->).
    rewrite sum_N_cons in *. rewrite Ex. simpl. unfold checked_add. cbv zeta.
    rewrite bool_decide_true by lia. simpl. apply IH; [lia|]. exists ps.
    rewrite <-app_assoc. split_and!; [done..|lia|lia].
Qed.

(** The payout for a price [a] when all prices sum to [total]. *)
Definition share (budget total a : N) : N :=
  if decide (budget < total)%N then (a * budget / total)%N else a.
Definition shares (budget total : N) (l : list (RewardRecipient * N)) : list (RewardRecipient * N) :=
  filter (λ e, (0 < e.2)%N) ((λ e, (e.1, share budget total e.2)) <$> l).

Lemma shares_cons budget total who a l :
  shares budget total ((who, a) :: l) =
  (if decide (0 < share budget total a)%N then [(who, share budget total a)] else []) ++ shares budget total l.
Proof. unfold shares. rewrite fmap_cons. cbn [fst snd]. rewrite filter_cons. cbn [snd]. by case_decide. Qed.

Lemma shares_scaled budget total l :
  (budget < total)%N → (sum_N (shares budget total l).*2 * total ≤ budget * sum_N l.*2)%N.
Proof.
  intros Hlt. induction l as [|[who a] l IH]; [simpl; lia|].
  rewrite shares_cons, fmap_app, sum_N_app, fmap_cons, sum_N_cons. cbn [snd].
  assert (share budget total a * total ≤ budget * a)%N as Hs.
  { unfold share. rewrite decide_True by done. pose proof (N.Div0.mul_div_le (a * budget) total). lia. }
  case_decide; [rewrite fmap_cons, sum_N_cons|]; simpl; nia.
Qed.

Lemma shares_unclamped budget total l :
  ¬ (budget < total)%N → sum_N (shares budget total l).*2 = sum_N l.*2.
Proof.
  intros Hlt. induction l as [|[who a] l IH]; [done|].
  rewrite shares_cons, fmap_app, sum_N_app, fmap_cons, sum_N_cons, IH.
  assert (share budget total a = a) as -> by (unfold share; by rewrite decide_False). cbn [snd]. case_decide; [rewrite fmap_cons, sum_N_cons|]; simpl; lia.
Qed.

Lemma shares_total budget l :
  (sum_N (shares budget (sum_N l.*2) l).*2 ≤ budget)%N ∧
  (sum_N (shares budget (sum_N l.*2) l).*2 ≤ sum_N l.*2)%N.
Proof.
  destruct (decide (budget < sum_N l.*2)%N) as [Hlt|Hge].
  - pose proof (shares_scaled budget _ l Hlt). split; nia.
  - rewrite shares_unclamped by done. lia.
Qed.

Lemma clamp_all_spec budget T l out t pays total :
  (t + sum_N (shares budget T l).*2 < width 128)%N →
  clamp_all budget T l out t = Ok (pays, total) →
  pays = out ++ shares budget T l ∧ total = (t + sum_N (shares budget T l).*2)%N.
Proof.
  revert out t. induction l as [|[who a] l IH]; intros out t Hb; simpl.
  { intros [= <- <-]. unfold shares. simpl. by rewrite app_nil_r, N.add_0_r. }
  rewrite shares_cons, fmap_app, sum_N_app in Hb |- *.
  assert (∀ x, (if bool_decide (budget < T)%N
      then let! x := ok_or (checked_mul 128 a budget) RewardOverflow in Ok (x / T)%N else Ok a) = Ok x →
      x = share budget T a) as Hx.
  { intros x. unfold share. destruct (decide (budget < T)%N).
    - rewrite bool_decide_true by done. unfold checked_mul. cbv zeta.
      case_bool_decide; simpl; [by intros [= <-]|done].
    - rewrite bool_decide_false by done. by intros [= ->]. }
  match goal with |- obind ?c _ = _ → _ => destruct c as [x|e|]; [|done..] end.
  rewrite (Hx x eq_refl). simpl.
  case_bool_decide as Hp; [rewrite decide_True in Hb |- * by done|rewrite decide_False in Hb |- * by done];
    rewrite ?fmap_cons, ?sum_N_cons in Hb |- *; simpl in *.
  - rewrite wrap_small by lia. intros E. apply IH in E as [-> ->]; [|lia]. rewrite <-app_assoc.
    split; [done|lia].
  - intros E. by apply IH in E as [-> ->]; [|lia].
Qed.

Lemma plan_no_panic e epoch l : plan_epoch e epoch l ≠ Panic.
Proof.
  assert (∀ p c, price_receipt c p ≠ Panic) as Hprice.
  { intros p c. unfold price_receipt, ok_or. repeat (case_match; simpl; try done). }
  assert (∀ l seen, validate_receipts epoch l seen ≠ Panic) as Hval.
  { clear l. induction l as [|c l IH]; intros seen; simpl; [done|]. by repeat case_bool_decide. }
  assert (∀ p l raw t, price_all p l raw t ≠ Panic) as Hall.
  { clear l. intros p l. induction l as [|c l IH]; intros raw t; simpl; [done|].
    specialize (Hprice p c). destruct (price_receipt c p); simpl; [|done..].
    destruct (checked_add _ _ _); simpl; [apply IH|done]. }
  assert (∀ B T l out t, clamp_all B T l out t ≠ Panic) as Hclamp.
  { clear l. intros B T l. induction l as [|[w a] l IH]; intros out t; simpl; [done|].
    case_bool_decide; [destruct (checked_mul _ _ _)|]; simpl; try done; by case_bool_decide. }
  unfold plan_epoch. destruct (last_settled_epoch e) as [last|]; [case_bool_decide; [done|]|]; simpl.
  all: specialize (Hval l ∅); destruct (validate_receipts epoch l ∅); simpl; [|done..].
  all: specialize (Hall (params e) l [] 0%N); destruct (price_all (params e) l [] 0) as [[]| |]; simpl; [|done..].
  all: apply Hclamp.
Qed.

(** What a planned settlement is. *)
Lemma plan_epoch_Ok e epoch l pays total :
  (epoch_budget (params e) < width 128)%N →
  plan_epoch e epoch l = Ok (pays, total) →
  (∀ last, last_settled_epoch e = Some last → (last < epoch)%N) ∧
  Forall (λ c, receipt_epoch c = epoch) l ∧ NoDup (recipient <$> l) ∧
  ∃ prices, Forall2 (λ c x, price_receipt c (params e) = Ok x) l prices ∧
    pays = shares (epoch_budget (params e)) (sum_N prices) (zip (recipient <$> l) prices) ∧
    total = sum_N pays.*2 ∧ (total ≤ epoch_budget (params e))%N.
Proof.
  intros Hbud E. unfold plan_epoch in E.
  assert (∀ last, last_settled_epoch e = Some last → (last < epoch)%N) as Hlast.
  { intros last Hl. rewrite Hl in E. case_bool_decide; [done|lia]. }
  assert ((let! _ := validate_receipts epoch l ∅ in
          let! priced := price_all (params e) l [] 0 in
          clamp_all (epoch_budget (params e)) priced.2 priced.1 [] 0) = Ok (pays, total)) as E'.
  { destruct (last_settled_epoch e); [case_bool_decide; [done|]|]; exact E. }
  clear E. destruct (validate_receipts epoch l ∅) as [[]|x|] eqn:Ev; [|done..]. simpl in E'.
  apply validate_receipts_Ok in Ev as (He & Hnd & _).
  destruct (price_all (params e) l [] 0) as [[raw T]|x|] eqn:Ep; [|done..]. simpl in E'.
  apply price_all_Ok in Ep as (prices & HF & -> & -> & Hlt); [|apply width_pos].
  rewrite N.add_0_l in *. rewrite app_nil_l in *.
  assert (sum_N prices = sum_N (zip (recipient <$> l) prices).*2) as Es.
  { rewrite snd_zip; [done|]. rewrite length_fmap. apply Forall2_length in HF. lia. }
  pose proof (shares_total (epoch_budget (params e)) (zip (recipient <$> l) prices)) as [Hb1 Hb2].
  rewrite <-Es in Hb1, Hb2. apply clamp_all_spec in E' as [-> ->]; [|lia].
  split_and!; [done..|]. exists prices. split_and!; [done..|lia].
Qed.

(** ** Properties *)

(** [r'] is [r] after minting [n], if positive, of the reward asset. *)
Definition reward_minted (e : RewardSettlement) (c : ReserveCoverageChecker) (now n : N)
    (r r' : IssuerRegistry) : Prop :=
  (∀ a i, total_minted (supply r' a i) =
     (total_minted (supply r a i) + if decide ((a, i) = (reward_asset e, reward_issuer e)) then n else 0)%N ∧
     total_burned (supply r' a i) = total_burned (supply r a i) ∧
     reserved_for_burn (supply r' a i) = reserved_for_burn (supply r a i)) ∧
  pending r' = pending r ∧
  (n = 0%N ∨
   breaker_closed c (reward_issuer e) (reward_asset e)
     (outstanding (supply r (reward_asset e) (reward_issuer e)) + n) now).

Lemma reward_minted_zero e c now r : reward_minted e c now 0 r r.
Proof. split_and!; [|done|by left]. intros a i. split_and!; try done. case_decide; lia. Qed.

Lemma reward_minted_mint e c now n r r' :
  minted_into r (reward_issuer e) (reward_asset e) n r' →
  breaker_closed c (reward_issuer e) (reward_asset e)
     (outstanding (supply r (reward_asset e) (reward_issuer e)) + n) now →
  reward_minted e c now n r r'.
Proof.
  intros -> Hc. split_and!; [|done|by right]. intros a i. rewrite !supply_set.
  destruct (decide _) as [[= -> ->]|]; simpl; split_and!; done || lia.
Qed.

Lemma settle_epoch_cases e epoch l r c now :
  (epoch_budget (params e) < width 128)%N → books r →
  match settle_epoch e epoch l r c now with
  | (Ok st, e', r') =>
      plan_epoch e epoch l = Ok (payouts st, settled_total st) ∧ settled_epoch st = epoch ∧
      e' = mk_engine (params e) (reward_issuer e) (reward_asset e) (Some epoch) ∧
      books r' ∧ reward_minted e c now (settled_total st) r r'
  | (Err _, e', r') => e' = e ∧ books r' ∧ same_books r r'
  | (Panic, _, _) => False
  end.
Proof.
  intros Hbud Hb. unfold settle_epoch. pose proof (plan_no_panic e epoch l) as Hp.
  destruct (plan_epoch e epoch l) as [[pays total]|x|] eqn:Ep; [|done..]. cbv zeta.
  case_bool_decide as Ht.
  - pose proof (mint_with_coverage_cases r c (reward_issuer e) (reward_asset e) total now Hb) as Hc.
    pose proof (mint_with_coverage_books r c (reward_issuer e) (reward_asset e) total now Hb) as Hb'.
    destruct (mint_with_coverage _ _ _ _ _ _) as [[[]|x|] r']; [|done..].
    destruct Hc as (Hc & Hm & _). split_and!; [done..|]. by apply reward_minted_mint.
  - assert (total = 0%N) as -> by lia. split_and!; [done..|]. apply reward_minted_zero.
Qed.

(** C39. Settling an epoch.  A settlement is accepted only for an epoch past the
    last settled one, with every receipt for that epoch and no recipient twice.
    Each positive payout is the price of the recipient's receipt, scaled down
    pro rata (rounding down) when the prices exceed the budget; the total is the
    sum of the payouts, within the budget, and exactly that much of the reward
    asset is minted, with the reserve coverage holding after the mint; nothing
    else changes but the watermark.  A refused settlement mints nothing and
    leaves the epoch open; nothing panics. *)
Theorem settle_epoch_spec e epoch l r c now :
  (epoch_budget (params e) < width 128)%N → books r →
  match settle_epoch e epoch l r c now with
  | (Ok st, e', r') =>
      (∀ last, last_settled_epoch e = Some last → (last < epoch)%N) ∧
      Forall (λ c, receipt_epoch c = epoch) l ∧ NoDup (recipient <$> l) ∧
      (∃ prices, Forall2 (λ c x, price_receipt c (params e) = Ok x) l prices ∧
         payouts st = shares (epoch_budget (params e)) (sum_N prices) (zip (recipient <$> l) prices)) ∧
      settled_total st = sum_N (payouts st).*2 ∧ (settled_total st ≤ epoch_budget (params e))%N ∧
      last_settled_epoch e' = Some epoch ∧ books r' ∧ reward_minted e c now (settled_total st) r r'
  | (Err _, e', r') => e' = e ∧ books r' ∧ same_books r r'
  | (Panic, _, _) => False
  end.
Proof.
  intros Hbud Hb. pose proof (settle_epoch_cases e epoch l r c now Hbud Hb) as Hc.
  destruct (settle_epoch e epoch l r c now) as [[[st|x|] e'] r']; [|done..].
  destruct Hc as (Hp & _ & -> & Hb' & Hm). simpl.
  apply plan_epoch_Ok in Hp as (H1 & H2 & H3 & prices & HF & Hpay & Ht & Hle); [|done].
  split_and!; try done. by exists prices.
Qed.

(** ** Histories of settlements *)

(** A call with its receipts, the breaker of the moment and the round. *)
Record call := mk_call {
  call_epoch : N;
  call_receipts : list ComputeReceipt;
  call_checker : ReserveCoverageChecker;
  call_round : N;
}.

(** The accepted settlements of a history, and where it ends. *)
Fixpoint settle_all (e : RewardSettlement) (r : IssuerRegistry) (calls : list call)
    : list EpochSettlement * RewardSettlement * IssuerRegistry :=
  match calls with
  | [] => ([], e, r)
  | k :: rest =>
      let '(res, e', r') := settle_epoch e (call_epoch k) (call_receipts k) r (call_checker k) (call_round k) in
      let '(sts, e'', r'') := settle_all e' r' rest in
      (match res with Ok st => st :: sts | _ => sts end, e'', r'')
  end.

Definition later (o : option N) (n : N) : Prop := match o with Some m => (m < n)%N | None => True end.
Fixpoint increasing (o : option N) (l : list N) : Prop :=
  match l with [] => True | n :: rest => later o n ∧ increasing (Some n) rest end.

(** Reward issuance is bounded.  Over any sequence of settlement calls, the
    epochs settled strictly increase, so none is paid twice; what the reward
    asset's minted total grows by is exactly the sum of the settled totals, at
    most the budget per epoch settled. *)
Theorem reward_issuance_bounded e r calls :
  (epoch_budget (params e) < width 128)%N → books r →
  let '(sts, e', r') := settle_all e r calls in
  let minted x := total_minted (supply x (reward_asset e) (reward_issuer e)) in
  increasing (last_settled_epoch e) (settled_epoch <$> sts) ∧
  minted r' = (minted r + sum_N (settled_total <$> sts))%N ∧
  (minted r' ≤ minted r + N.of_nat (length sts) * epoch_budget (params e))%N ∧
  Forall (λ st, settled_total st = sum_N (payouts st).*2) sts.
Proof.
  revert e r. induction calls as [|k calls IH]; intros e r Hbud Hb; cbn [settle_all].
  { simpl. split_and!; [done|lia|lia|done]. }
  pose proof (settle_epoch_cases e (call_epoch k) (call_receipts k) r (call_checker k) (call_round k) Hbud Hb) as Hc.
  destruct (settle_epoch e _ _ r _ _) as [[[st|x|] e'] r']; [..|done].
  - destruct Hc as (Hp & Ee & -> & Hb' & Hm & _).
    apply plan_epoch_Ok in Hp as (Hlast & _ & _ & prices & _ & _ & Ht & Hle); [|done].
    specialize (IH (mk_engine (params e) (reward_issuer e) (reward_asset e) (Some (call_epoch k))) r' Hbud Hb').
    destruct (settle_all _ r' calls) as [[sts e''] r''].
    cbn [params reward_asset reward_issuer last_settled_epoch] in IH. destruct IH as (Hi & Hs & Hx & HF).
    destruct (Hm (reward_asset e) (reward_issuer e)) as (Hmint & _ & _). rewrite decide_True in Hmint by done.
    cbv zeta in *. split_and!.
    + cbn [fmap list_fmap increasing]. rewrite Ee. split; [|exact Hi]. destruct (last_settled_epoch e); [by apply Hlast|done].
    + rewrite fmap_cons, sum_N_cons. lia.
    + cbn [length]. nia.
    + by constructor.
  - destruct Hc as (-> & Hb' & Hs). specialize (IH e r' Hbud Hb').
    destruct (settle_all e r' calls) as [[sts e''] r'']. cbv beta zeta in *. by rewrite (same_supply _ _ Hs) in IH.
Qed.

Module RewardsExamples.
Import IssuerExamples ReserveExamples.
Definition engine : RewardSettlement := new_engine (mk_params 10 5 1 40) 1 usd.
Definition work (who : byte) (certs ok : N) : ComputeReceipt := mk_receipt [who] 3 certs ok 100 0 0.
Definition epoch3 : list ComputeReceipt :=
  [work Byte.x01 4 100; work Byte.x02 4 96; work Byte.x03 9 90; work Byte.x04 2 99].

(** Prices 40, 20, 0 and 20 against a budget of 40. *)
Example epoch3_payouts :
  payouts <$> (match (settle_epoch engine 3 epoch3 acme_books breaker 9).1.1 with Ok st => Some st | _ => None end) =
  Some [([Byte.x01], 20%N); ([Byte.x02], 10%N); ([Byte.x04], 10%N)].
Proof. vm_compute. reflexivity. Qed.

Lemma settle_epoch_spec_witness :
  ∃ st e' r', settle_epoch engine 3 epoch3 acme_books breaker 9 = (Ok st, e', r') ∧
    (settled_total st ≤ 40)%N ∧ last_settled_epoch e' = Some 3%N.
Proof.
  assert (epoch_budget (params engine) < width 128)%N as Hb by (vm_compute; reflexivity).
  pose proof (settle_epoch_spec engine 3 epoch3 acme_books breaker 9 Hb acme_books_balanced) as H.
  destruct (settle_epoch engine 3 epoch3 acme_books breaker 9) as [[[st|x|] e'] r'] eqn:E.
  - exists st, e', r'. destruct H as (_ & _ & _ & _ & _ & Hle & Hl & _).
    split; [reflexivity|]. split; [exact Hle|exact Hl].
  - vm_compute in E. discriminate E.
  - destruct H.
Defined.

Definition calls : list call := [mk_call 3 epoch3 breaker 9; mk_call 3 epoch3 breaker 9].

Lemma reward_issuance_bounded_witness :
  let '(sts, e', r') := settle_all engine acme_books calls in
  (total_minted (supply r' usd 1) ≤ 100 + N.of_nat (length sts) * 40)%N.
Proof.
  assert (epoch_budget (params engine) < width 128)%N as Hb by (vm_compute; reflexivity).
  pose proof (reward_issuance_bounded engine acme_books calls Hb acme_books_balanced) as H.
  destruct (settle_all engine acme_books calls) as [[sts e'] r']. destruct H as (_ & _ & Hle & _). exact Hle.
Defined.

Example one_settled : length (settle_all engine acme_books calls).1.1 = 1.
Proof. vm_compute. reflexivity. Qed.
End RewardsExamples.
