(* ===== verification/Did.v ===== *)
(** * Decentralized identifiers

    [crates/suwappu-precompiles/src/did.rs] (documents, their canonical hash and
    structural validation) and [did_resolver.rs] (the in-memory resolver). *)

From S2P Require Import Prelude Crypto.

Abbreviation Did := bytes (only parsing).
Abbreviation VerificationMethodId := N (only parsing).

Definition NULL : Did := replicate 32 Byte.x00.

Inductive VerificationRelationship :=
| Authentication | AssertionMethod | KeyAgreement | CapabilityInvocation | CapabilityDelegation.

#[global] Instance VerificationRelationship_eq_dec : EqDecision VerificationRelationship.
Proof. solve_decision. Defined.

(** The byte that stands for a relationship; it follows the declaration order. *)
Definition relationship_code (rel : VerificationRelationship) : N :=
  match rel with
  | Authentication => 1
  | AssertionMethod => 2
  | KeyAgreement => 3
  | CapabilityInvocation => 4
  | CapabilityDelegation => 5
  end.

Definition relationship_of_code (n : N) : VerificationRelationship :=
  match n with
  | 1 => Authentication
  | 2 => AssertionMethod
  | 3 => KeyAgreement
  | 4 => CapabilityInvocation
  | _ => CapabilityDelegation
  end%N.

Lemma relationship_of_code_code rel : relationship_of_code (relationship_code rel) = rel.
Proof. by destruct rel. Qed.

#[global] Instance VerificationRelationship_countable : Countable VerificationRelationship :=
  inj_countable' relationship_code relationship_of_code relationship_of_code_code.

#[global] Program Instance relationship_key_order : KeyOrder VerificationRelationship :=
  {| key_le a b := (relationship_code a ≤ relationship_code b)%N |}.
Next Obligation. intros a b. apply _. Defined.
Next Obligation. intros a. apply N.le_refl. Qed.
Next Obligation. intros a b c. apply N.le_trans. Qed.
Next Obligation.
  intros a b H1 H2. rewrite <-(relationship_of_code_code a), <-(relationship_of_code_code b).
  f_equal. by apply N.le_antisymm.
Qed.
Next Obligation. intros a b. destruct (N.le_ge_cases (relationship_code a) (relationship_code b)); auto. Qed.

Inductive KeyAlgorithm := MlDsa65Key.

Record VerificationMethod := mk_method {
  method_id : VerificationMethodId;
  controller : Did;
  algorithm : KeyAlgorithm;
  public_key_bytes : bytes;
}.

(** Strings are their UTF-8 bytes. *)
Record Service := mk_service {
  service_id : N;
  service_type : bytes;
  endpoint : bytes;
}.

Record DidDocument := mk_document {
  id : Did;
  verification_methods : list VerificationMethod;
  relationships : gmap VerificationRelationship (gset VerificationMethodId);
  services : list Service;
}.

Inductive DidError :=
| NullDid
| DuplicateMethodId (m : VerificationMethodId)
| CrossDidController (method : VerificationMethodId) (controller : Did)
| DanglingRelationship (relationship : VerificationRelationship) (method : VerificationMethodId)
| DuplicateServiceId (s : N)
| AlreadyRegistered
| NotRegistered
| UnauthorizedUpdate
| UnknownMethod (m : VerificationMethodId).

Definition empty_document (i : Did) : DidDocument := mk_document i [] ∅ [].

(** [len() as u32] in big-endian bytes. *)
Definition count_bytes (n : nat) : bytes := be_bytes 4 (wrap 32 (N.of_nat n)).
Definition sized_bytes (b : bytes) : bytes := count_bytes (length b) ++ b.

Definition method_bytes (vm : VerificationMethod) : bytes :=
  be_bytes 4 (method_id vm) ++ controller vm ++
  [match algorithm vm with MlDsa65Key => Byte.x01 end] ++ sized_bytes (public_key_bytes vm).

Definition relationship_bytes (e : VerificationRelationship * gset VerificationMethodId) : bytes :=
  [byte_of_N (relationship_code e.1)] ++
  count_bytes (size e.2) ++ mjoin (be_bytes 4 <$> bset_elems e.2).

Definition service_bytes (s : Service) : bytes :=
  be_bytes 4 (service_id s) ++ sized_bytes (service_type s) ++ sized_bytes (endpoint s).

Definition canonical_preimage (d : DidDocument) : bytes :=
  tag "SUWAPPU-DID-DOC-V1" ++ id d ++
  count_bytes (length (verification_methods d)) ++ mjoin (method_bytes <$> verification_methods d) ++
  count_bytes (size (relationships d)) ++ mjoin (relationship_bytes <$> btree_entries (relationships d)) ++
  count_bytes (length (services d)) ++ mjoin (service_bytes <$> services d).

Definition canonical_hash `{Blake3} (d : DidDocument) : bytes := blake3 (canonical_preimage d).

(** The loops of [validate]; the first returns the method ids seen. *)
Fixpoint validate_methods (i : Did) (l : list VerificationMethod) (seen : gset N)
    : outcome DidError (gset N) :=
  match l with
  | [] => Ok seen
  | vm :: rest =>
      if bool_decide (method_id vm ∈ seen) then Err (DuplicateMethodId (method_id vm))
      else if bool_decide (controller vm ≠ i) then Err (CrossDidController (method_id vm) (controller vm))
      else validate_methods i rest ({[method_id vm]} ∪ seen)
  end.

Fixpoint validate_ids (rel : VerificationRelationship) (ids : list N) (seen : gset N)
    : outcome DidError unit :=
  match ids with
  | [] => Ok tt
  | m :: rest => if bool_decide (m ∈ seen) then validate_ids rel rest seen
                 else Err (DanglingRelationship rel m)
  end.

Fixpoint validate_relationships (l : list (VerificationRelationship * gset N)) (seen : gset N)
    : outcome DidError unit :=
  match l with
  | [] => Ok tt
  | (rel, ids) :: rest =>
      let! _ := validate_ids rel (bset_elems ids) seen in validate_relationships rest seen
  end.

Fixpoint validate_services (l : list Service) (seen : gset N) : outcome DidError unit :=
  match l with
  | [] => Ok tt
  | s :: rest =>
      if bool_decide (service_id s ∈ seen) then Err (DuplicateServiceId (service_id s))
      else validate_services rest ({[service_id s]} ∪ seen)
  end.

Definition validate (d : DidDocument) : outcome DidError unit :=
  if bool_decide (id d = NULL) then Err NullDid
  else
    let! seen := validate_methods (id d) (verification_methods d) ∅ in
    let! _ := validate_relationships (btree_entries (relationships d)) seen in
    validate_services (services d) ∅.

Definition public_key (d : DidDocument) (m : VerificationMethodId) : option bytes :=
  public_key_bytes ∘ snd <$> list_find (λ vm, method_id vm = m) (verification_methods d).

Definition has_relationship (d : DidDocument) (m : VerificationMethodId) (rel : VerificationRelationship) : bool :=
  match relationships d !! rel with Some ids => bool_decide (m ∈ ids) | None => false end.

(** ** The resolver *)

Record InMemoryDidResolver := mk_resolver { docs : gmap Did DidDocument }.

Definition new_resolver : InMemoryDidResolver := mk_resolver ∅.
Definition resolve (r : InMemoryDidResolver) (did : Did) : option DidDocument := docs r !! did.

Definition create (r : InMemoryDidResolver) (d : DidDocument) : outcome DidError unit * InMemoryDidResolver :=
  match validate d with
  | Ok _ =>
      if bool_decide (is_Some (docs r !! id d)) then (Err AlreadyRegistered, r)
      else (Ok tt, mk_resolver (<[id d := d]> (docs r)))
  | Err e => (Err e, r)
  | Panic => (Panic, r)
  end.

Section resolver.
Context `{Blake3, MlDsa65}.

(** The authorisation steps of [update] against the stored document. *)
Definition authorize (r : InMemoryDidResolver) (d : DidDocument) (signature : bytes) (m : VerificationMethodId)
    : outcome DidError unit :=
  let! _ := validate d in
  let! prior := ok_or (docs r !! id d) NotRegistered in
  let! pk_bytes := ok_or (public_key prior m) (UnknownMethod m) in
  if has_relationship prior m CapabilityInvocation then
    match mldsa.PublicKey_from_bytes pk_bytes, mldsa.Signature_from_bytes signature with
    | Ok pk, Ok sig =>
        match mldsa.verify (canonical_hash d) sig pk with
        | Ok _ => Ok tt
        | _ => Err UnauthorizedUpdate
        end
    | _, _ => Err UnauthorizedUpdate
    end
  else Err UnauthorizedUpdate.

Definition update (r : InMemoryDidResolver) (d : DidDocument) (signature : bytes) (m : VerificationMethodId)
    : outcome DidError unit * InMemoryDidResolver :=
  match authorize r d signature m with
  | Ok _ => (Ok tt, mk_resolver (<[id d := d]> (docs r)))
  | Err e => (Err e, r)
  | Panic => (Panic, r)
  end.
End resolver.

(** ** Structural validity *)

Record well_formed (d : DidDocument) : Prop := {
  wf_not_null : id d ≠ NULL;
  wf_methods : NoDup (method_id <$> verification_methods d);
  wf_controllers : Forall (λ vm, controller vm = id d) (verification_methods d);
  wf_relationships : map_Forall (λ _ ids, ∀ m, m ∈ ids → m ∈ method_id <$> verification_methods d)
                       (relationships d);
  wf_services : NoDup (service_id <$> services d);
}.

Lemma validate_methods_Ok i l seen seen' :
  validate_methods i l seen = Ok seen' ↔
  NoDup (method_id <$> l) ∧ Forall (λ vm, method_id vm ∉ seen ∧ controller vm = i) l ∧
  seen' = list_to_set (method_id <$> l) ∪ seen.
Proof.
  revert seen. induction l as [|vm l IH]; intros seen; cbn [validate_methods fmap list_fmap].
  { cbn [list_to_set]. rewrite (union_empty_l_L seen). split.
    - intros E. injection E as ->. split_and!; constructor.
    - by intros (_ & _ & ->). }
  rewrite Forall_cons, NoDup_cons. case_bool_decide; [naive_solver|]. case_bool_decide; [naive_solver|].
  rewrite IH, !Forall_forall, list_elem_of_fmap. cbn [list_to_set]. split.
  - intros (? & Hl & ->). split_and!; try done; [|set_solver..].
    intros (x & E & Hin). destruct (Hl x Hin). set_solver.
  - intros ((Hn & ?) & (_ & Hl) & ->). split_and!; [done| |set_solver].
    intros x Hin. destruct (Hl x Hin). split; [|done]. rewrite not_elem_of_union, not_elem_of_singleton.
    split; [|done]. intros E. apply Hn. by exists x.
Qed.

Lemma validate_ids_Ok rel ids seen : validate_ids rel ids seen = Ok tt ↔ ∀ m, m ∈ ids → m ∈ seen.
Proof. induction ids as [|m l IH]; simpl; [set_solver|]. case_bool_decide; set_solver. Qed.

Lemma validate_relationships_Ok l seen :
  validate_relationships l seen = Ok tt ↔ ∀ rel ids, (rel, ids) ∈ l → ∀ m, m ∈ ids → m ∈ seen.
Proof.
  induction l as [|[rel ids] l IH]; cbn [validate_relationships]; [set_solver|].
  destruct (validate_ids rel (bset_elems ids) seen) as [[]|e|] eqn:E; simpl.
  - rewrite IH, validate_ids_Ok in *. setoid_rewrite elem_of_bset_elems in E.
    split; [|set_solver]. intros Hl rel' ids' [[= -> ->]|Hin]%elem_of_cons; [done|by eapply Hl].
  - split; [done|]. intros Hl. enough (validate_ids rel (bset_elems ids) seen = Ok tt) by congruence.
    apply validate_ids_Ok. intros m. rewrite elem_of_bset_elems. eapply Hl. by left.
  - split; [done|]. intros Hl. enough (validate_ids rel (bset_elems ids) seen = Ok tt) by congruence.
    apply validate_ids_Ok. intros m. rewrite elem_of_bset_elems. eapply Hl. by left.
Qed.

Lemma validate_services_Ok l seen :
  validate_services l seen = Ok tt ↔ NoDup (service_id <$> l) ∧ Forall (λ s, service_id s ∉ seen) l.
Proof.
  revert seen. induction l as [|s l IH]; intros seen; cbn [validate_services fmap list_fmap].
  { split; [|done]. intros _. split; constructor. }
  rewrite Forall_cons, NoDup_cons. case_bool_decide; [naive_solver|].
  rewrite IH, !Forall_forall, list_elem_of_fmap. split.
  - intros (? & Hl). split_and!; try done; [|set_solver].
    intros (x & E & Hin). specialize (Hl x Hin). set_solver.
  - intros ((Hn & ?) & (_ & Hl)). split; [done|]. intros x Hin. rewrite not_elem_of_union, not_elem_of_singleton.
    split; [|by apply Hl]. intros E. apply Hn. by exists x.
Qed.

Lemma validate_Ok d : validate d = Ok tt ↔ well_formed d.
Proof.
  unfold validate. case_bool_decide as Hid; [split; [done|by intros []]|].
  pose proof (validate_methods_Ok (id d) (verification_methods d) ∅) as Hm.
  pose proof (validate_relationships_Ok (btree_entries (relationships d))
    (list_to_set (method_id <$> verification_methods d) ∪ ∅)) as Hr.
  setoid_rewrite elem_of_btree_entries in Hr.
  pose proof (validate_services_Ok (services d) ∅) as Hs. split.
  - destruct (validate_methods _ _ _) as [seen|e|]; [|done..]. simpl.
    destruct (proj1 (Hm seen) eq_refl) as (H1 & H2 & ->).
    destruct (validate_relationships _ _) as [[]|e|]; [|done..]. simpl. intros [H3 _]%Hs.
    split; try done.
    + eapply Forall_impl; [exact H2|]. by intros ? [_ ?].
    + intros rel ids Hl m Hin. pose proof (proj1 Hr eq_refl rel ids Hl m Hin). set_solver.
  - intros [_ H1 H2 H3 H4]. rewrite (proj2 (Hm (list_to_set (method_id <$> verification_methods d) ∪ ∅))).
    + simpl. rewrite (proj2 Hr); [|intros rel ids Hl m Hin; pose proof (H3 rel ids Hl m Hin) as Hin'; cbv beta in Hin'; set_solver].
      simpl. apply Hs. split; [done|]. apply Forall_forall. set_solver.
    + split_and!; [done| |reflexivity]. eapply Forall_impl; [done|]. set_solver.
Qed.

Lemma validate_no_panic d : validate d ≠ Panic.
Proof.
  assert (∀ i l seen, validate_methods i l seen ≠ Panic) as Hm.
  { intros i l. induction l as [|x l IH]; intros seen; simpl; [done|]. repeat case_bool_decide; auto. }
  assert (∀ rel l seen, validate_ids rel l seen ≠ Panic) as Hi.
  { intros rel l seen. induction l as [|x l IH]; simpl; [done|]. case_bool_decide; auto. }
  assert (∀ l seen, validate_relationships l seen ≠ Panic) as Hr.
  { intros l seen. induction l as [|[rel ids] l IH]; simpl; [done|].
    specialize (Hi rel (bset_elems ids) seen). destruct (validate_ids _ _ _); simpl; auto. }
  assert (∀ l seen, validate_services l seen ≠ Panic) as Hs.
  { intros l. induction l as [|x l IH]; intros seen; simpl; [done|]. case_bool_decide; auto. }
  unfold validate. case_bool_decide; [done|].
  specialize (Hm (id d) (verification_methods d) ∅). destruct (validate_methods _ _ _) as [seen| |]; simpl; [|done..].
  specialize (Hr (btree_entries (relationships d)) seen). destruct (validate_relationships _ _); simpl; auto.
Qed.

(** ** The canonical encoding *)

Lemma delimited_count : delimited (λ n, (N.of_nat n < width 32)%N) count_bytes.
Proof.
  intros x y r1 r2 Hx Hy E. unfold count_bytes in E. rewrite !wrap_small in E by done. rewrite width_32 in *.
  apply delimited_be in E as [E ->]; [|done..]. split; [lia|done].
Qed.

Lemma delimited_sized : delimited (λ b, (N.of_nat (length b) < width 32)%N) sized_bytes.
Proof.
  intros x y r1 r2 Hx Hy E. unfold sized_bytes in E. rewrite <-!(assoc_L (++)) in E.
  apply delimited_count in E as [El E]; [|done..]. by apply app_inj_1 in E.
Qed.

Lemma delimited_list {A} (P : A → Prop) (f : A → bytes) l1 l2 r1 r2 :
  delimited P f → Forall P l1 → Forall P l2 →
  (N.of_nat (length l1) < width 32)%N → (N.of_nat (length l2) < width 32)%N →
  count_bytes (length l1) ++ mjoin (f <$> l1) ++ r1 = count_bytes (length l2) ++ mjoin (f <$> l2) ++ r2 →
  l1 = l2 ∧ r1 = r2.
Proof.
  intros Hf H1 H2 L1 L2 E. apply delimited_count in E as [El E]; [|done..]. by eapply delimited_items.
Qed.

(** The field types: 32-byte identifiers, [u32] ids, lengths below [2^32]. *)
Definition typed_method (vm : VerificationMethod) : Prop :=
  (method_id vm < width 32)%N ∧ length (controller vm) = 32 ∧
  (N.of_nat (length (public_key_bytes vm)) < width 32)%N.
Definition typed_ids (ids : gset N) : Prop :=
  (N.of_nat (size ids) < width 32)%N ∧ ∀ m, m ∈ ids → (m < width 32)%N.
Definition typed_service (s : Service) : Prop :=
  (service_id s < width 32)%N ∧ (N.of_nat (length (service_type s)) < width 32)%N ∧
  (N.of_nat (length (endpoint s)) < width 32)%N.
Record typed_document (d : DidDocument) : Prop := {
  typed_id : length (id d) = 32;
  typed_methods : Forall typed_method (verification_methods d);
  typed_method_count : (N.of_nat (length (verification_methods d)) < width 32)%N;
  typed_relationships : map_Forall (λ _, typed_ids) (relationships d);
  typed_services : Forall typed_service (services d);
  typed_service_count : (N.of_nat (length (services d)) < width 32)%N;
}.

Lemma delimited_method : delimited typed_method method_bytes.
Proof.
  intros [m1 c1 [] k1] [m2 c2 [] k2] r1 r2 (Hm1 & Hc1 & Hk1) (Hm2 & Hc2 & Hk2) E.
  unfold method_bytes in E. cbn [method_id controller algorithm public_key_bytes] in *.
  rewrite <-!(assoc_L (++)) in E. rewrite width_32 in Hm1, Hm2.
  apply delimited_be in E as [-> E]; [|done..]. apply app_inj_1 in E as [-> E]; [|congruence].
  apply app_inj_1 in E as [_ E]; [|done]. apply delimited_sized in E as [-> ->]; done.
Qed.

Lemma delimited_service : delimited typed_service service_bytes.
Proof.
  intros [m1 c1 k1] [m2 c2 k2] r1 r2 (Hm1 & Hc1 & Hk1) (Hm2 & Hc2 & Hk2) E.
  unfold service_bytes in E. cbn [service_id service_type endpoint] in *.
  rewrite <-!(assoc_L (++)) in E. rewrite width_32 in Hm1, Hm2.
  apply delimited_be in E as [-> E]; [|done..]. apply delimited_sized in E as [-> E]; [|done..].
  apply delimited_sized in E as [-> ->]; done.
Qed.

Lemma length_bset_elems (s : gset N) : length (bset_elems s) = size s.
Proof. by rewrite bset_elems_perm. Qed.

Lemma delimited_relationship : delimited (λ e, typed_ids e.2) relationship_bytes.
Proof.
  intros [a x] [b y] r1 r2 [Hx Hxe] [Hy Hye] E. unfold relationship_bytes in E. cbn [fst snd] in *.
  rewrite <-!(assoc_L (++)) in E. apply app_inj_1 in E as [Ea E]; [|done]. injection Ea as Ea.
  assert (a = b) as -> by (destruct a, b; done).
  rewrite <-!length_bset_elems in *.
  apply (delimited_list (λ m, (m < 256 ^ N.of_nat 4)%N)) in E as [Ex ->]; [|apply delimited_be|..|done|done].
  - split; [|done]. f_equal. apply set_eq. intros m. by rewrite <-!elem_of_bset_elems, Ex.
  - apply Forall_forall. intros m. rewrite elem_of_bset_elems. rewrite <-width_32. apply Hxe.
  - apply Forall_forall. intros m. rewrite elem_of_bset_elems. rewrite <-width_32. apply Hye.
Qed.

Lemma size_relationships (m : gmap VerificationRelationship (gset N)) : (N.of_nat (size m) < width 32)%N.
Proof.
  assert (dom m ⊆ list_to_set [Authentication; AssertionMethod; KeyAgreement; CapabilityInvocation; CapabilityDelegation]) as Hd.
  { intros []; set_solver. }
  apply subseteq_size in Hd. rewrite size_dom in Hd. rewrite size_list_to_set in Hd by (apply (bool_decide_eq_true_1 _); done).
  simpl in Hd. unfold width. lia.
Qed.

Lemma canonical_preimage_inj d1 d2 :
  typed_document d1 → typed_document d2 → canonical_preimage d1 = canonical_preimage d2 → d1 = d2.
Proof.
  intros [I1 M1 C1 R1 S1 N1] [I2 M2 C2 R2 S2 N2] E. unfold canonical_preimage in E.
  apply app_inv_head in E. apply app_inj_1 in E as [Ei E]; [|congruence].
  apply (delimited_list _ _ _ _ _ _ delimited_method) in E as [Em E]; [|done..].
  rewrite <-!length_btree_entries in E.
  apply (delimited_list _ _ _ _ _ _ delimited_relationship) in E as [Er E].
  - rewrite <-(app_nil_r (mjoin _)) in E. rewrite <-(app_nil_r (mjoin (service_bytes <$> services d2))) in E.
    apply (delimited_list _ _ _ _ _ _ delimited_service) in E as [Es _]; [|done..].
    destruct d1 as [i1 m1 r1 s1], d2 as [i2 m2 r2 s2]; simpl in *. subst. f_equal.
    rewrite <-(list_to_map_btree_entries r1), <-(list_to_map_btree_entries r2). by rewrite Er.
  - apply Forall_forall. intros [rel ids] Hin%elem_of_btree_entries. by eapply R1.
  - apply Forall_forall. intros [rel ids] Hin%elem_of_btree_entries. by eapply R2.
  - rewrite length_btree_entries. apply size_relationships.
  - rewrite length_btree_entries. apply size_relationships.
Qed.

(** ** Histories of the resolver *)

Section histories.
Context `{Blake3, MlDsa65}.
Implicit Types r : InMemoryDidResolver.

Inductive op :=
| Create (d : DidDocument)
| Update (d : DidDocument) (signature : bytes) (m : VerificationMethodId).

Definition step r (o : op) : InMemoryDidResolver :=
  match o with
  | Create d => (create r d).2
  | Update d sig m => (update r d sig m).2
  end.
Definition run r (ops : list op) : InMemoryDidResolver := foldl step r ops.

(** Every stored document is well formed and filed under its own identifier. *)
Definition consistent r : Prop := map_Forall (λ did d, id d = did ∧ well_formed d) (docs r).

(** [sig] verifies over the new document under method [m] of the document on
    file, and that method may invoke capabilities. *)
Definition authorised r (d : DidDocument) (sig : bytes) (m : VerificationMethodId) : Prop :=
  ∃ prior vm ids, resolve r (id d) = Some prior ∧
    vm ∈ verification_methods prior ∧ method_id vm = m ∧
    relationships prior !! CapabilityInvocation = Some ids ∧ m ∈ ids ∧
    mldsa65_pk_parses (public_key_bytes vm) = true ∧ mldsa65_sig_parses sig = true ∧
    mldsa65_verify sig (canonical_hash d) (public_key_bytes vm) = true.

Lemma public_key_Some d m k :
  NoDup (method_id <$> verification_methods d) →
  public_key d m = Some k ↔
  ∃ vm, vm ∈ verification_methods d ∧ method_id vm = m ∧ public_key_bytes vm = k.
Proof.
  intros Hnd. unfold public_key. split.
  - intros ([i vm] & E & ->)%fmap_Some. apply list_find_Some in E as (Hl & Hm & _). exists vm.
    split_and!; [by eapply list_elem_of_lookup_2|done|done].
  - intros (vm & Hin & Hm & <-). destruct (list_find _ _) as [[i vm']|] eqn:E.
    + simpl. do 2 f_equal. apply list_find_Some in E as (Hl & Hm' & _).
      apply list_elem_of_lookup_1 in Hin as [j Hj].
      assert (i = j) as ->; [|congruence].
      eapply NoDup_lookup; [exact Hnd| |]; rewrite list_lookup_fmap.
      * rewrite Hl. simpl. by rewrite Hm'.
      * rewrite Hj. simpl. by rewrite Hm.
    + apply list_find_None in E. eapply Forall_forall in E; [|exact Hin]. done.
Qed.

Lemma authorize_Ok r d sig m :
  consistent r → authorize r d sig m = Ok tt ↔ well_formed d ∧ authorised r d sig m.
Proof.
  intros Hc. unfold authorize, authorised, resolve. rewrite <-validate_Ok.
  destruct (validate d) as [[]|e|]; [|naive_solver..]. simpl.
  destruct (docs r !! id d) as [prior|] eqn:Ep; simpl; [|naive_solver].
  assert (NoDup (method_id <$> verification_methods prior)) as Hnd
    by (destruct (Hc _ _ Ep) as [_ []]; done).
  unfold has_relationship, mldsa.PublicKey_from_bytes, mldsa.Signature_from_bytes, mldsa.verify. split.
  - destruct (public_key prior m) as [k|] eqn:Ek; simpl; [|done].
    apply public_key_Some in Ek as (vm & Hin & Hm & <-); [|done].
    destruct (relationships prior !! CapabilityInvocation) as [ids|] eqn:Er; [|done].
    case_bool_decide; [|done]. intros E. split; [done|]. exists prior, vm, ids.
    destruct (mldsa65_pk_parses (public_key_bytes vm)) eqn:E1; [|done].
    destruct (mldsa65_sig_parses sig) eqn:E2; [|done]. simpl in E. rewrite E1, E2 in E.
    by destruct (mldsa65_verify _ _ _).
  - intros (_ & prior' & vm & ids & [= <-] & Hin & Hm & Hr & Hi & H1 & H2 & H3).
    rewrite (proj2 (public_key_Some prior m (public_key_bytes vm) Hnd)) by eauto. simpl.
    rewrite Hr, bool_decide_true by done. rewrite H1, H2. simpl. by rewrite H1, H2, H3.
Qed.

Lemma authorize_no_panic r d sig m : authorize r d sig m ≠ Panic.
Proof.
  unfold authorize. pose proof (validate_no_panic d). destruct (validate d); simpl; [|done..].
  destruct (docs r !! id d) as [p|]; simpl; [|done]. destruct (public_key p m); simpl; [|done].
  by repeat case_match.
Qed.

Lemma resolver_insert r d : consistent r → well_formed d → consistent (mk_resolver (<[id d := d]> (docs r))).
Proof. intros Hc Hd. apply map_Forall_insert_2; [done|exact Hc]. Qed.

Lemma consistent_step r o : consistent r → consistent (step r o).
Proof.
  intros Hc. destruct o as [d|d sig m]; simpl.
  - unfold create. destruct (validate d) as [[]|e|] eqn:E; [|done..]. apply validate_Ok in E.
    case_bool_decide; [done|]. by apply resolver_insert.
  - unfold update. destruct (authorize r d sig m) as [[]|e|] eqn:E; [|done..].
    apply authorize_Ok in E as [Hd _]; [|done]. by apply resolver_insert.
Qed.

Lemma consistent_run r ops : consistent r → consistent (run r ops).
Proof. revert r. induction ops as [|o ops IH]; intros r Hr; [done|]. apply IH. by apply consistent_step. Qed.

(** Control over identifiers.  In every resolver reached through its
    operations, each document is well formed and filed under its own
    identifier.  An update is accepted exactly when the new document is well
    formed and the signature verifies, over that document's canonical hash,
    under a capability-invocation method of the document on file; a creation
    exactly when the document is well formed and the identifier free.  So the
    document of an identifier changes only by its creation or an authorised
    update, never disappears, and no operation panics. *)
Theorem did_control ops :
  let r := run new_resolver ops in
  (∀ did d, resolve r did = Some d → id d = did ∧ well_formed d) ∧
  (∀ d sig m, (update r d sig m).1 = Ok tt ↔ well_formed d ∧ authorised r d sig m) ∧
  (∀ d, (create r d).1 = Ok tt ↔ well_formed d ∧ resolve r (id d) = None) ∧
  (∀ o did, resolve (step r o) did ≠ resolve r did →
     ∃ d, resolve (step r o) did = Some d ∧ id d = did ∧
       ((o = Create d ∧ resolve r did = None) ∨ ∃ sig m, o = Update d sig m ∧ authorised r d sig m)) ∧
  (∀ d sig m, (create r d).1 ≠ Panic ∧ (update r d sig m).1 ≠ Panic).
Proof.
  intros r. assert (consistent r) as Hc by (apply consistent_run; apply map_Forall_empty).
  assert (∀ d sig m, (update r d sig m).1 = Ok tt ↔ well_formed d ∧ authorised r d sig m) as Hu.
  { intros d sig m. rewrite <-authorize_Ok by done. unfold update. by destruct (authorize r d sig m) as [[]| |]. }
  split_and!; [exact Hc|exact Hu|..].
  - intros d. rewrite <-validate_Ok. unfold create, resolve. destruct (validate d) as [[]| |]; [|naive_solver..].
    destruct (docs r !! id d); simpl; naive_solver.
  - intros [d|d sig m] did; simpl.
    + unfold create, resolve. destruct (validate d); try done. case_bool_decide as Hs; [done|]. simpl.
      rewrite lookup_insert. case_decide; [|done]. subst. intros _. exists d. apply eq_None_not_Some in Hs. auto.
    + specialize (Hu d sig m). unfold update, resolve in *. destruct (authorize r d sig m) as [[]| |]; try done.
      simpl in *. rewrite lookup_insert. case_decide; [|done]. subst. intros _. exists d.
      split_and!; [done..|]. right. exists sig, m. split; [done|]. by apply Hu.
  - intros d sig m. pose proof (validate_no_panic d). pose proof (authorize_no_panic r d sig m).
    unfold create, update. split; [|by destruct (authorize r d sig m)].
    destruct (validate d); try done. by case_bool_decide.
Qed.

(** The canonical hash commits to the document.  Two documents with the same
    canonical hash are the same document, in every field, unless BLAKE3 collides
    on two different inputs; so a signature accepted for an update authorises
    that document and no other. *)
Theorem did_hash_binding d1 d2 :
  typed_document d1 → typed_document d2 → canonical_hash d1 = canonical_hash d2 →
  d1 = d2 ∨ ∃ x y, x ≠ y ∧ blake3 x = blake3 y.
Proof.
  intros H1 H2 E. destruct (decide (canonical_preimage d1 = canonical_preimage d2)) as [Ep|Hn].
  - left. by apply canonical_preimage_inj.
  - right. eexists _, _. by split.
Qed.
End histories.

Module DidExamples.
#[local] Existing Instance Toy.toy_blake3.
#[local] Existing Instance Toy.toy_mldsa.

Definition alice : bytes := replicate 32 Byte.x01.
Definition doc (key : byte) : DidDocument :=
  mk_document alice [mk_method 7 alice MlDsa65Key [key]] {[CapabilityInvocation := {[7%N]}]}
    [mk_service 1 [Byte.x41] [Byte.x42]].

(** Rotating the key needs a signature under the old one. *)
Example rotate :
  let r := (create new_resolver (doc Byte.x0a)).2 in
  (update r (doc Byte.x0b) (Byte.x0a :: canonical_hash (doc Byte.x0b)) 7).1 = Ok tt ∧
  (update r (doc Byte.x0b) (Byte.x0b :: canonical_hash (doc Byte.x0b)) 7).1 = Err UnauthorizedUpdate.
Proof. vm_compute. done. Qed.

Lemma doc_typed key : typed_document (doc key).
Proof.
  split.
  - reflexivity.
  - repeat constructor.
  - reflexivity.
  - apply map_Forall_singleton. split; [reflexivity|]. intros m ->%elem_of_singleton. reflexivity.
  - repeat constructor.
  - reflexivity.
Qed.

Lemma did_hash_binding_witness :
  doc Byte.x0a = doc Byte.x0a ∨ ∃ x y, x ≠ y ∧ blake3 x = blake3 y.
Proof.
  apply (did_hash_binding (doc Byte.x0a) (doc Byte.x0a) (doc_typed _) (doc_typed _)). reflexivity.
Defined.
End DidExamples.
