(* ===== verification/MintCommit.v ===== *)
(** * The ML-DSA-65 verification precompile and mint authorizations

    [crates/suwappu-mldsa-precompile/src/lib.rs]: the flat-input verifier, the
    canonical encoding of a mint commit, and the single-signer and quorum gates
    over it. *)

From S2P Require Import Prelude Crypto.

Definition PK_LEN : nat := N.to_nat 1952.
Definition SIG_LEN : nat := N.to_nat 3309.
Definition MIN_INPUT_LEN : nat := PK_LEN + SIG_LEN.

Definition WORD_TRUE : bytes := replicate 31 Byte.x00 ++ [Byte.x01].
Definition WORD_FALSE : bytes := replicate 32 Byte.x00.

Definition COMMIT_DOMAIN : bytes := tag "SUWAPPU-MINT-COMMIT-V1".

Record MintCommit := mk_commit {
  source_chain : N;
  target_chain : N;
  commit_id : bytes;
  amount : N;
  recipient : bytes;
}.

Definition canonical_encoding (c : MintCommit) : bytes :=
  be_bytes 4 (wrap 32 (N.of_nat (length COMMIT_DOMAIN))) ++ COMMIT_DOMAIN ++
  be_bytes 8 (source_chain c) ++ be_bytes 8 (target_chain c) ++ commit_id c ++
  be_bytes 16 (amount c) ++ be_bytes 8 (wrap 64 (N.of_nat (length (recipient c)))) ++ recipient c.

Record QuorumSigner := mk_signer { index : N; pubkey : bytes; signature : bytes }.

Section precompile.
Context `{MlDsa65}.

Definition verify (input : bytes) : bytes :=
  if bool_decide (length input < MIN_INPUT_LEN) then WORD_FALSE
  else
    let pk := take PK_LEN input in
    let sig := take SIG_LEN (drop PK_LEN input) in
    let message := drop MIN_INPUT_LEN input in
    if mldsa65_pk_parses pk then
      if mldsa65_sig_parses sig then
        if mldsa65_verify sig message pk then WORD_TRUE else WORD_FALSE
      else WORD_FALSE
    else WORD_FALSE.

Definition is_valid (input : bytes) : bool := bool_decide (verify input = WORD_TRUE).

Definition verify_mint_authorization (committee_pubkey : bytes) (c : MintCommit) (sig : bytes) : bool :=
  if bool_decide (length committee_pubkey ≠ PK_LEN) || bool_decide (length sig ≠ SIG_LEN) then false
  else bool_decide (verify (committee_pubkey ++ sig ++ canonical_encoding c) = WORD_TRUE).

(** The counting loop; [counted] is in push order. *)
Fixpoint count_signers (msg : bytes) (signers : list QuorumSigner) (counted : list N) : list N :=
  match signers with
  | [] => counted
  | s :: rest =>
      if bool_decide (index s ∈ counted) then count_signers msg rest counted
      else if bool_decide (length (pubkey s) ≠ PK_LEN) || bool_decide (length (signature s) ≠ SIG_LEN)
      then count_signers msg rest counted
      else if bool_decide (verify (pubkey s ++ signature s ++ msg) = WORD_TRUE)
      then count_signers msg rest (counted ++ [index s])
      else count_signers msg rest counted
  end.

Definition verify_mint_quorum (c : MintCommit) (signers : list QuorumSigner) (threshold : nat) : bool :=
  if bool_decide (threshold = 0) then false
  else bool_decide (threshold ≤ length (count_signers (canonical_encoding c) signers [])).

(** ** What the gates accept *)

(** The documented meaning: parts of the right size that parse and verify. *)
Definition accepts (pk sig msg : bytes) : Prop :=
  length pk = PK_LEN ∧ length sig = SIG_LEN ∧
  mldsa65_pk_parses pk = true ∧ mldsa65_sig_parses sig = true ∧ mldsa65_verify sig msg pk = true.
#[global] Instance accepts_dec pk sig msg : Decision (accepts pk sig msg).
Proof. unfold accepts. apply _. Defined.

Lemma word_distinct : WORD_FALSE ≠ WORD_TRUE.
Proof. vm_compute. discriminate. Qed.

Lemma verify_parts pk sig msg :
  length pk = PK_LEN → length sig = SIG_LEN →
  verify (pk ++ sig ++ msg) = WORD_TRUE ↔ accepts pk sig msg.
Proof.
  intros Hp Hs. pose proof word_distinct as Hw. unfold verify.
  rewrite bool_decide_false by (rewrite !length_app; unfold MIN_INPUT_LEN; lia).
  rewrite take_app_length', drop_app_length', take_app_length' by done.
  rewrite (assoc_L (++)), drop_app_length' by (rewrite length_app; unfold MIN_INPUT_LEN; lia).
  cbv zeta. unfold accepts.
  destruct (mldsa65_pk_parses pk), (mldsa65_sig_parses sig), (mldsa65_verify sig msg pk); naive_solver.
Qed.

(** Every accepted input splits into the three parts. *)
Lemma verify_true_parts input :
  verify input = WORD_TRUE ↔
  ∃ pk sig msg, input = pk ++ sig ++ msg ∧ accepts pk sig msg.
Proof.
  split.
  - intros E. assert (MIN_INPUT_LEN ≤ length input) as Hl.
    { unfold verify in E. case_bool_decide; [by apply word_distinct in E|lia]. }
    unfold MIN_INPUT_LEN in Hl.
    exists (take PK_LEN input), (take SIG_LEN (drop PK_LEN input)), (drop SIG_LEN (drop PK_LEN input)).
    rewrite take_drop, take_drop. split; [done|]. apply verify_parts.
    + rewrite length_take. lia.
    + rewrite length_take, length_drop. lia.
    + by rewrite take_drop, take_drop.
  - intros (pk & sig & msg & -> & Ha). apply verify_parts; [apply Ha..|done].
Qed.

Lemma verify_total input : verify input = WORD_TRUE ∨ verify input = WORD_FALSE.
Proof. unfold verify. repeat case_match; auto. Qed.

(** The indices that carry at least one valid signature. *)
Definition valid_indices (msg : bytes) (signers : list QuorumSigner) : gset N :=
  list_to_set (index <$> filter (λ s, accepts (pubkey s) (signature s) msg) signers).

Lemma count_signers_spec msg signers counted :
  NoDup counted →
  NoDup (count_signers msg signers counted) ∧
  (list_to_set (count_signers msg signers counted) : gset N) =
    list_to_set counted ∪ valid_indices msg signers.
Proof.
  revert counted. induction signers as [|s l IH]; intros counted Hnd; cbn [count_signers].
  { split; [done|]. unfold valid_indices. set_solver. }
  assert (valid_indices msg (s :: l) =
    (if decide (accepts (pubkey s) (signature s) msg) then {[index s]} else ∅) ∪ valid_indices msg l) as ->.
  { unfold valid_indices. rewrite filter_cons. case_decide; [done|by rewrite union_empty_l_L]. }
  case_bool_decide as Hc.
  { destruct (IH counted Hnd) as [? ->]. split; [done|]. case_decide; set_solver. }
  case_bool_decide as Hp; [|case_bool_decide as Hs]; cbn [orb].
  - destruct (IH counted Hnd) as [? ->]. split; [done|]. rewrite decide_False; [set_solver|by intros []].
  - destruct (IH counted Hnd) as [? ->]. split; [done|]. rewrite decide_False; [set_solver|by intros (? & ? & _)].
  - rewrite (bool_decide_ext _ _ (verify_parts _ _ msg Hp Hs)).
    case_bool_decide as Ha.
    + rewrite decide_True by done.
      destruct (IH (counted ++ [index s])) as [? ->].
      { apply NoDup_app. split_and!; [done|set_solver|apply NoDup_singleton]. }
      split; [done|]. rewrite list_to_set_app_L. set_solver.
    + rewrite decide_False by done. destruct (IH counted Hnd) as [? ->]. split; [done|set_solver].
Qed.
End precompile.

(** ** Properties *)

(** The field types of a commit. *)
Definition typed_commit (c : MintCommit) : Prop :=
  (source_chain c < width 64)%N ∧ (target_chain c < width 64)%N ∧ length (commit_id c) = 32 ∧
  (amount c < width 128)%N ∧ (N.of_nat (length (recipient c)) < width 64)%N.

(** Two commits with one encoding are one commit. *)
Lemma canonical_encoding_inj c1 c2 :
  typed_commit c1 → typed_commit c2 → canonical_encoding c1 = canonical_encoding c2 → c1 = c2.
Proof.
  intros (S1 & T1 & I1 & A1 & R1) (S2 & T2 & I2 & A2 & R2) E. unfold canonical_encoding in E.
  rewrite width_64 in S1, S2, T1, T2. rewrite width_128 in A1, A2.
  do 2 apply app_inv_head in E.
  apply app_inj_1 in E as [Es E]; [|by rewrite !length_be_bytes].
  apply app_inj_1 in E as [Et E]; [|by rewrite !length_be_bytes].
  apply app_inj_1 in E as [Ei E]; [|congruence].
  apply app_inj_1 in E as [Ea E]; [|by rewrite !length_be_bytes].
  apply app_inj_1 in E as [_ Er]; [|by rewrite !length_be_bytes].
  apply be_bytes_inj in Es, Et, Ea; try done. destruct c1, c2; simpl in *; congruence.
Qed.

Section claims.
Context `{MlDsa65}.

(** C40. The quorum gate.  A quorum is accepted exactly when the threshold is
    positive and at least that many distinct signer indices carry a key and a
    signature of the right sizes that parse and verify over the encoding of the
    commit: repeated indices count once, however many signatures they send.  The
    single-signer gate accepts exactly one such signature.  Signatures accepted
    for one commit are over bytes that no other commit encodes to. *)
Theorem mint_quorum_spec c signers threshold :
  (verify_mint_quorum c signers threshold = true ↔
   0 < threshold ∧ threshold ≤ size (valid_indices (canonical_encoding c) signers)) ∧
  (∀ pk sig, verify_mint_authorization pk c sig = true ↔ accepts pk sig (canonical_encoding c)) ∧
  (∀ c', typed_commit c → typed_commit c' → canonical_encoding c' = canonical_encoding c → c' = c).
Proof.
  split_and!.
  - unfold verify_mint_quorum. destruct (count_signers_spec (canonical_encoding c) signers []) as [Hnd Hs];
      [constructor|].
    cbn [list_to_set] in Hs. rewrite union_empty_l_L in Hs.
    rewrite <-Hs, size_list_to_set by done. case_bool_decide; [naive_solver lia|].
    rewrite bool_decide_eq_true. split; [split; [lia|done]|naive_solver].
  - intros pk sig. unfold verify_mint_authorization. case_bool_decide; cbn [orb].
    { split; [done|by intros []]. }
    case_bool_decide; cbn [orb]. { split; [done|by intros (? & ? & _)]. }
    rewrite bool_decide_eq_true. by apply verify_parts.
  - intros c' Hc Hc' E. by apply canonical_encoding_inj.
Qed.

(** The precompile word.  [verify] returns one of its two words on every
    input, and the true word exactly when the input is a public key, a signature
    and a message, in this order and of the fixed sizes, that parse and
    verify. *)
Theorem verify_word_spec input :
  (verify input = WORD_TRUE ∨ verify input = WORD_FALSE) ∧
  (is_valid input = true ↔ ∃ pk sig msg, input = pk ++ sig ++ msg ∧ accepts pk sig msg).
Proof.
  split; [apply verify_total|]. unfold is_valid. rewrite bool_decide_eq_true. apply verify_true_parts.
Qed.
End claims.

Module MintCommitExamples.
(** Keys and signatures of the real sizes; a signature verifies when it ends
    with the key's first byte and the length of the message. *)
#[local] Instance sized_mldsa : MlDsa65 := {|
  mldsa65_pk_parses b := bool_decide (length b = PK_LEN);
  mldsa65_sk_parses b := true;
  mldsa65_sig_parses b := bool_decide (length b = SIG_LEN);
  mldsa65_detached_sign msg sk := [];
  mldsa65_verify sig msg pk :=
    bool_decide (take 3 sig = take 1 pk ++ [byte_of_N (N.of_nat (length msg)); Byte.x07]);
|}.

Definition key (b : byte) : bytes := replicate PK_LEN b.
Definition sig_of (b : byte) (msg : bytes) : bytes :=
  [b; byte_of_N (N.of_nat (length msg)); Byte.x07] ++ replicate (SIG_LEN - 3) Byte.x00.
Definition commit : MintCommit := mk_commit 1 2 (replicate 32 Byte.x09) 500 (replicate 20 Byte.x03).
Definition msg : bytes := canonical_encoding commit.

(** One key sending two signatures does not make a quorum of two. *)
Example quorum_counts_indices :
  verify_mint_quorum commit [mk_signer 0 (key Byte.x01) (sig_of Byte.x01 msg);
                             mk_signer 0 (key Byte.x01) (sig_of Byte.x01 msg)] 2 = false ∧
  verify_mint_quorum commit [mk_signer 0 (key Byte.x01) (sig_of Byte.x01 msg);
                             mk_signer 1 (key Byte.x02) (sig_of Byte.x01 msg);
                             mk_signer 1 (key Byte.x02) (sig_of Byte.x02 msg)] 2 = true.
Proof. vm_compute. done. Qed.
End MintCommitExamples.
