(* ===== verification/Sequencer.v ===== *)
(** * The L2 sequencer

    [crates/suwappu-l2-sequencer/src/lib.rs]: the bounded FIFO pool of pending
    transactions, the DA blob, the public-input layout shared with
    [suwappu-l2-verifier-precompile], and the batch builder. *)

From S2P Require Import Prelude Crypto ExecTypes.
Import l2_verifier.

Definition MAX_TXS_PER_BATCH : nat := 500.
Definition MAX_TX_BYTES : N := 256 * 1024.
Definition MAX_MEMPOOL_BYTES : N := 256 * 1024 * 1024.

(** The offsets of [public_inputs] not already used on the ledger side. *)
Definition PREV_L2_STATE_ROOT_OFFSET : nat := 0.
Definition NEW_L2_STATE_ROOT_OFFSET : nat := 32.
Definition BATCH_ID_OFFSET : nat := 64.
Definition RANGE_VK_COMMITMENT_OFFSET : nat := 112.
Definition PREV_L1_STATE_ROOT_OFFSET : nat := 144.
Definition CONFIDENTIAL_ROOT_OFFSET : nat := 208.

Inductive SequencerError :=
| TxTooLarge (max got : N)
| EmptyTx
| MempoolFull (max current : N)
| BadPublicInputsWidth (expected got : nat).

Record PendingTx := mk_tx { tx_bytes : bytes; tx_hash : bytes }.

Definition tx_len (t : PendingTx) : N := N.of_nat (length (tx_bytes t)).

Definition PendingTx_new `{Blake3} (b : bytes) : outcome SequencerError PendingTx :=
  if bool_decide (b = []) then Err EmptyTx
  else if bool_decide (MAX_TX_BYTES < N.of_nat (length b))%N
  then Err (TxTooLarge MAX_TX_BYTES (N.of_nat (length b)))
  else Ok (mk_tx b (blake3 b)).

Record TxMempool := mk_pool { queue : list PendingTx; bytes_total : N }.

Definition new_pool : TxMempool := mk_pool [] 0.

Definition submit `{Blake3} (p : TxMempool) (b : bytes) : outcome SequencerError bytes * TxMempool :=
  match PendingTx_new b with
  | Ok tx =>
      if bool_decide (MAX_MEMPOOL_BYTES < saturating_add 64 (bytes_total p) (tx_len tx))%N
      then (Err (MempoolFull MAX_MEMPOOL_BYTES (bytes_total p)), p)
      else if bool_decide (Exists (λ t, tx_hash t = tx_hash tx) (queue p))
      then (Ok (tx_hash tx), p)
      else (Ok (tx_hash tx), mk_pool (queue p ++ [tx]) (wrap 64 (bytes_total p + tx_len tx)))
  | Err e => (Err e, p)
  | Panic => (Panic, p)
  end.

(** [n] turns of popping the front of the queue. *)
Fixpoint drain_loop (n : nat) (p : TxMempool) (out : list PendingTx) : list PendingTx * TxMempool :=
  match n with
  | O => (out, p)
  | S n' =>
      match queue p with
      | tx :: rest => drain_loop n' (mk_pool rest (bytes_total p - tx_len tx)) (out ++ [tx])
      | [] => drain_loop n' p out
      end
  end.

Definition drain (p : TxMempool) (max : nat) : list PendingTx * TxMempool :=
  drain_loop (max `min` length (queue p) `min` MAX_TXS_PER_BATCH) p [].

(** ** Batches *)

Record BatchHeader := mk_header {
  prev_l2_state_root : bytes;
  new_l2_state_root : bytes;
  header_batch_id : N;
  da_commitment : bytes;
  l1_anchor_height : N;
  range_vk_commitment : bytes;
  prev_l1_state_root : bytes;
  l2_chain_id_hash : bytes;
  confidential_root : bytes;
}.

(** [buf[off .. off + src.len()].copy_from_slice(src)]. *)
Definition copy_at (off : nat) (src buf : bytes) : bytes :=
  take off buf ++ src ++ drop (off + length src) buf.

Definition to_public_inputs (h : BatchHeader) : bytes :=
  let buf := replicate L2_PUBLIC_INPUTS_BYTES Byte.x00 in
  let buf := copy_at PREV_L2_STATE_ROOT_OFFSET (prev_l2_state_root h) buf in
  let buf := copy_at NEW_L2_STATE_ROOT_OFFSET (new_l2_state_root h) buf in
  let buf := copy_at BATCH_ID_OFFSET (be_bytes 8 (header_batch_id h)) buf in
  let buf := copy_at DA_COMMITMENT_OFFSET (da_commitment h) buf in
  let buf := copy_at L1_ANCHOR_HEIGHT_OFFSET (be_bytes 8 (l1_anchor_height h)) buf in
  let buf := copy_at RANGE_VK_COMMITMENT_OFFSET (range_vk_commitment h) buf in
  let buf := copy_at PREV_L1_STATE_ROOT_OFFSET (prev_l1_state_root h) buf in
  let buf := copy_at L2_CHAIN_ID_HASH_OFFSET (l2_chain_id_hash h) buf in
  copy_at CONFIDENTIAL_ROOT_OFFSET (confidential_root h) buf.

Record Batch := mk_batch { header : BatchHeader; txs : list PendingTx; da_blob : bytes }.

Definition public_inputs (b : Batch) : bytes := to_public_inputs (header b).
Definition validate_public_inputs_width (b : Batch) : outcome SequencerError unit :=
  let pi := public_inputs b in
  if bool_decide (length pi ≠ L2_PUBLIC_INPUTS_BYTES)
  then Err (BadPublicInputsWidth L2_PUBLIC_INPUTS_BYTES (length pi)) else Ok tt.

Record BuildContext := mk_context {
  ctx_prev_l2_state_root : bytes;
  ctx_batch_id : N;
  ctx_l1_anchor_height : N;
  ctx_range_vk_commitment : bytes;
  ctx_prev_l1_state_root : bytes;
  ctx_l2_chain_id_hash : bytes;
  ctx_confidential_root : bytes;
  ctx_new_l2_state_root : bytes;
}.

Definition encode_tx (t : PendingTx) : bytes := be_bytes 4 (wrap 32 (tx_len t)) ++ tx_bytes t.
Definition encode_da_blob (batch_id : N) (l : list PendingTx) : bytes :=
  be_bytes 8 batch_id ++ mjoin (encode_tx <$> l).

Definition build `{Blake3} (l : list PendingTx) (c : BuildContext) : Batch :=
  let blob := encode_da_blob (ctx_batch_id c) l in
  mk_batch
    (mk_header (ctx_prev_l2_state_root c) (ctx_new_l2_state_root c) (ctx_batch_id c) (blake3 blob)
       (ctx_l1_anchor_height c) (ctx_range_vk_commitment c) (ctx_prev_l1_state_root c)
       (ctx_l2_chain_id_hash c) (ctx_confidential_root c))
    l blob.

(** ** The layout *)

Lemma copy_at_length off src buf : off + length src ≤ length buf → length (copy_at off src buf) = length buf.
Proof. intros Hl. unfold copy_at. rewrite !length_app, length_take, length_drop. lia. Qed.

(** Filling a buffer of zeros from the left. *)
Lemma copy_at_next pre src n :
  length src ≤ n →
  copy_at (length pre) src (pre ++ replicate n Byte.x00) = (pre ++ src) ++ replicate (n - length src) Byte.x00.
Proof.
  intros Hn. unfold copy_at. rewrite take_app_length, drop_app_add', drop_replicate by done.
  by rewrite (assoc_L (++)).
Qed.

(** Field types: 32-byte digests and [u64] numbers. *)
Record typed_header (h : BatchHeader) : Prop := {
  typed_prev : length (prev_l2_state_root h) = 32;
  typed_new : length (new_l2_state_root h) = 32;
  typed_batch : (header_batch_id h < width 64)%N;
  typed_da : length (da_commitment h) = 32;
  typed_anchor : (l1_anchor_height h < width 64)%N;
  typed_vk : length (range_vk_commitment h) = 32;
  typed_l1 : length (prev_l1_state_root h) = 32;
  typed_chain : length (l2_chain_id_hash h) = 32;
  typed_conf : length (confidential_root h) = 32;
}.

Definition fields (h : BatchHeader) : list bytes :=
  [prev_l2_state_root h; new_l2_state_root h; be_bytes 8 (header_batch_id h); da_commitment h;
   be_bytes 8 (l1_anchor_height h); range_vk_commitment h; prev_l1_state_root h; l2_chain_id_hash h;
   confidential_root h].

(** The offsets lay the fields out back to back. *)
Lemma to_public_inputs_fields h : typed_header h → to_public_inputs h = mjoin (fields h).
Proof.
  intros [T1 T2 T3 T4 T5 T6 T7 T8 T9]. unfold to_public_inputs.
  set (z := replicate L2_PUBLIC_INPUTS_BYTES Byte.x00). change z with ([] ++ replicate 240 Byte.x00).
  set (b := be_bytes 8 (header_batch_id h)). set (a := be_bytes 8 (l1_anchor_height h)).
  assert (length b = 8) as Tb by apply length_be_bytes. assert (length a = 8) as Ta by apply length_be_bytes.
  cbv zeta.
  change PREV_L2_STATE_ROOT_OFFSET with (length (@nil byte)). rewrite copy_at_next by lia.
  rewrite T1. rewrite app_nil_l.
  replace NEW_L2_STATE_ROOT_OFFSET with (length (prev_l2_state_root h)) by done.
  rewrite copy_at_next by lia. rewrite T2.
  do 7 (match goal with |- context [copy_at ?o ?src (?pre ++ replicate _ _)] =>
    replace o with (length pre) by (rewrite ?length_app; lia || (rewrite ?T1, ?T2, ?T4, ?T6, ?T7, ?T8, ?T9, ?Tb, ?Ta; reflexivity)) end;
    rewrite copy_at_next by lia).
  rewrite ?T1, ?T2, ?T4, ?T6, ?T7, ?T8, ?T9, ?Tb, ?Ta. cbn [Nat.sub replicate].
  unfold fields. cbn [mjoin list_join]. fold b a. rewrite <-!(assoc_L (++)). done.
Qed.

Lemma length_to_public_inputs h : typed_header h → length (to_public_inputs h) = L2_PUBLIC_INPUTS_BYTES.
Proof.
  intros Hh. rewrite to_public_inputs_fields by done. destruct Hh as [T1 T2 T3 T4 T5 T6 T7 T8 T9].
  unfold fields. cbn [mjoin list_join]. rewrite !length_app, !length_be_bytes. simpl.
  rewrite T1, T2, T4, T6, T7, T8, T9. reflexivity.
Qed.

Lemma to_public_inputs_inj h1 h2 :
  typed_header h1 → typed_header h2 → to_public_inputs h1 = to_public_inputs h2 → h1 = h2.
Proof.
  intros H1 H2. rewrite !to_public_inputs_fields by done. unfold fields. cbn [mjoin list_join].
  destruct H1, H2. intros E.
  do 9 (apply app_inj_1 in E as [? E]; [|by rewrite ?length_be_bytes; congruence]).
  rewrite width_64 in *.
  repeat match goal with H : be_bytes _ _ = be_bytes _ _ |- _ => apply be_bytes_inj in H; [|done..] end.
  destruct h1, h2; simpl in *; congruence.
Qed.

(** ** The DA blob *)

Definition small_tx (t : PendingTx) : Prop := (tx_len t < width 32)%N.

Lemma delimited_tx : delimited (λ b : bytes, (N.of_nat (length b) < width 32)%N)
  (λ b, be_bytes 4 (wrap 32 (N.of_nat (length b))) ++ b).
Proof.
  intros x y r1 r2 Hx Hy E. rewrite <-!(assoc_L (++)) in E. rewrite !wrap_small in E by done.
  rewrite width_32 in *. apply delimited_be in E as [El E]; [|done..].
  apply app_inj_1 in E; [done|lia].
Qed.

Lemma encode_da_blob_inj b1 b2 l1 l2 :
  (b1 < width 64)%N → (b2 < width 64)%N → Forall small_tx l1 → Forall small_tx l2 →
  encode_da_blob b1 l1 = encode_da_blob b2 l2 → b1 = b2 ∧ tx_bytes <$> l1 = tx_bytes <$> l2.
Proof.
  intros H1 H2 L1 L2 E. unfold encode_da_blob in E. rewrite width_64 in *.
  apply delimited_be in E as [-> E]; [|done..]. split; [done|].
  assert (∀ l, mjoin (encode_tx <$> l) =
    mjoin ((λ b, be_bytes 4 (wrap 32 (N.of_nat (length b))) ++ b) <$> (tx_bytes <$> l))) as Em.
  { intros l. by rewrite <-list_fmap_compose. }
  rewrite !Em in E. apply (join_entries_inj (λ b : bytes, (N.of_nat (length b) < width 32)%N)) in E;
    [done| |apply delimited_tx|..].
  - intros x _. by apply be_bytes_app_nonempty.
  - by apply Forall_fmap.
  - by apply Forall_fmap.
Qed.

(** ** The pool *)

Section pool.
Context `{Blake3}.
Implicit Types p : TxMempool.

Definition queued_bytes (l : list PendingTx) : N := sum_N (tx_len <$> l).

Record pool_ok p : Prop := {
  pool_bytes : bytes_total p = queued_bytes (queue p);
  pool_bounded : (bytes_total p ≤ MAX_MEMPOOL_BYTES)%N;
  pool_txs : Forall (λ t, tx_hash t = blake3 (tx_bytes t) ∧ tx_bytes t ≠ [] ∧ (tx_len t ≤ MAX_TX_BYTES)%N) (queue p);
  pool_distinct : NoDup (tx_hash <$> queue p);
}.

Inductive op := Submit (b : bytes) | Drain (max : nat).

(** What a submission adds to the queue. *)
Definition arrival p (b : bytes) : list PendingTx :=
  if bool_decide (b ≠ [] ∧ (N.of_nat (length b) ≤ MAX_TX_BYTES)%N ∧
                  (bytes_total p + N.of_nat (length b) ≤ MAX_MEMPOOL_BYTES)%N ∧
                  blake3 b ∉ tx_hash <$> queue p)
  then [mk_tx b (blake3 b)] else [].

Definition step p (o : op) : list PendingTx * TxMempool :=
  match o with Submit b => ([], (submit p b).2) | Drain max => drain p max end.
Fixpoint run p (ops : list op) : list PendingTx * TxMempool :=
  match ops with
  | [] => ([], p)
  | o :: rest => let '(out, p') := step p o in let '(out', p'') := run p' rest in (out ++ out', p'')
  end.
Fixpoint arrivals p (ops : list op) : list PendingTx :=
  match ops with
  | [] => []
  | o :: rest => (match o with Submit b => arrival p b | Drain _ => [] end) ++ arrivals (step p o).2 rest
  end.

Lemma saturating_small w a b : (a + b < width w)%N → saturating_add w a b = (a + b)%N.
Proof. unfold saturating_add. lia. Qed.

Lemma submit_queue p b :
  pool_ok p →
  queue (submit p b).2 = queue p ++ arrival p b ∧
  bytes_total (submit p b).2 = (bytes_total p + queued_bytes (arrival p b))%N.
Proof.
  intros [Hb Hm Ht Hd]. unfold submit, PendingTx_new, arrival.
  assert (∀ x y, y = [] → x = bytes_total p → queue p = queue p ++ y ∧ x = (x + queued_bytes y)%N) as Hsame.
  { intros x y -> ->. unfold queued_bytes. simpl. by rewrite app_nil_r, N.add_0_r. }
  destruct (decide (b = [])) as [->|Hne].
  { rewrite bool_decide_true by done. cbn [snd]. rewrite bool_decide_false by naive_solver. by apply Hsame. }
  rewrite bool_decide_false by done. case_bool_decide as Hl; cbn [snd].
  { rewrite bool_decide_false by (intros (_ & ? & _); lia). by apply Hsame. }
  unfold tx_len. cbn [tx_bytes tx_hash]. assert (MAX_MEMPOOL_BYTES + MAX_TX_BYTES < width 64)%N as Hw by done.
  rewrite saturating_small by lia. case_bool_decide as Hf; cbn [snd].
  { rewrite bool_decide_false by (intros (_ & _ & ? & _); lia). by apply Hsame. }
  case_bool_decide as He; cbn [snd queue bytes_total].
  - rewrite bool_decide_false; [by apply Hsame|]. intros (_ & _ & _ & Hn). apply Hn.
    apply list_elem_of_fmap. apply Exists_exists in He as (t & Hin & Et). by exists t.
  - rewrite bool_decide_true.
    + unfold queued_bytes, tx_len. simpl. rewrite wrap_small by lia. split; [done|lia].
    + split_and!; [done|lia|lia|]. intros (t & Et & Hin)%list_elem_of_fmap. apply He, Exists_exists. by exists t.
Qed.

Lemma pool_ok_submit p b : pool_ok p → pool_ok (submit p b).2.
Proof.
  intros Hp. destruct (submit_queue p b Hp) as [Hq Hb]. destruct Hp as [B M T D].
  unfold queued_bytes, arrival in *. case_bool_decide as Ha; simpl in *.
  - destruct Ha as (Hne & Hl & Hm & Hn). unfold tx_len in Hb. simpl in Hb. split; rewrite ?Hq, ?Hb.
    + unfold queued_bytes. rewrite fmap_app, sum_N_app. simpl. unfold tx_len at 2. simpl. rewrite B. done.
    + lia.
    + apply Forall_app. split; [done|]. by repeat constructor.
    + rewrite fmap_app. apply NoDup_app. split_and!; [done|set_solver|apply NoDup_singleton].
  - rewrite app_nil_r, N.add_0_r in *. split; rewrite ?Hq, ?Hb; done.
Qed.

Lemma pool_drain_loop_spec n p out :
  pool_ok p → n ≤ length (queue p) →
  ∃ p', drain_loop n p out = (out ++ take n (queue p), p') ∧ queue p' = drop n (queue p) ∧ pool_ok p'.
Proof.
  revert p out. induction n as [|n IH]; intros p out Hp Hn; cbn [drain_loop].
  { exists p. by rewrite app_nil_r. }
  destruct (queue p) as [|t l] eqn:Eq; [simpl in Hn; lia|].
  destruct (IH (mk_pool l (bytes_total p - tx_len t)) (out ++ [t])) as (p' & -> & Hq & Hok).
  - destruct Hp as [B M T D]. rewrite Eq in *. unfold queued_bytes in B. rewrite fmap_cons, sum_N_cons in B.
    split; simpl; [unfold queued_bytes; lia|lia|by inv T|by inv D].
  - simpl in *. lia.
  - exists p'. simpl in *. rewrite <-app_assoc. done.
Qed.

Lemma step_spec p o :
  pool_ok p →
  pool_ok (step p o).2 ∧
  (step p o).1 ++ queue (step p o).2 =
    queue p ++ match o with Submit b => arrival p b | Drain _ => [] end.
Proof.
  intros Hp. destruct o as [b|m]; cbn [step fst snd].
  - split; [by apply pool_ok_submit|]. by apply submit_queue.
  - unfold drain. destruct (pool_drain_loop_spec (m `min` length (queue p) `min` MAX_TXS_PER_BATCH) p [] Hp)
      as (p' & -> & Hq & Hok); [lia|]. cbn [fst snd]. split; [done|]. by rewrite Hq, app_nil_l, app_nil_r, take_drop.
Qed.

(** The sequencer's pool is a bounded FIFO.  Over every sequence of
    submissions and drains: the byte count is the size of the queue and within
    the cap; queued transactions are non-empty, within the size limit, carry the
    hash of their bytes and have distinct hashes; and what has been drained
    followed by what is queued is exactly what arrived, in arrival order: nothing
    is lost, duplicated or reordered.  A drain never exceeds the batch limit. *)
Theorem sequencer_pool_fifo ops :
  let '(out, p) := run new_pool ops in
  bytes_total p = queued_bytes (queue p) ∧ (bytes_total p ≤ MAX_MEMPOOL_BYTES)%N ∧
  Forall (λ t, tx_hash t = blake3 (tx_bytes t) ∧ tx_bytes t ≠ [] ∧ (tx_len t ≤ MAX_TX_BYTES)%N) (queue p) ∧
  NoDup (tx_hash <$> queue p) ∧
  out ++ queue p = arrivals new_pool ops ∧
  ∀ max, length (drain p max).1 ≤ max `min` MAX_TXS_PER_BATCH.
Proof.
  assert (∀ p, pool_ok p → let '(out, p') := run p ops in pool_ok p' ∧ out ++ queue p' = queue p ++ arrivals p ops) as Hgen.
  { induction ops as [|o ops IH]; intros p Hp; cbn [run arrivals]; [by rewrite app_nil_r|].
    destruct (step_spec p o Hp) as [Hok Hq]. destruct (step p o) as [out p1]. cbn [fst snd] in *.
    specialize (IH p1 Hok). destruct (run p1 ops) as [out' p2]. destruct IH as [Hok2 Hq2]. split; [done|].
    rewrite <-(assoc_L (++)), Hq2, !(assoc_L (++)), Hq. done. }
  assert (pool_ok new_pool) as H0 by (split; simpl; [done|done|constructor|constructor]).
  specialize (Hgen new_pool H0). destruct (run new_pool ops) as [out p]. destruct Hgen as [Hp Hq].
  pose proof Hp as [B M T D]. split_and!; try done.
  intros m. unfold drain. destruct (pool_drain_loop_spec (m `min` length (queue p) `min` MAX_TXS_PER_BATCH) p [] Hp)
    as (p' & -> & _); [lia|]. cbn [fst]. rewrite app_nil_l, length_take. lia.
Qed.

(** Typed inputs of the builder. *)
Definition typed_context (c : BuildContext) : Prop :=
  (ctx_batch_id c < width 64)%N ∧ (ctx_l1_anchor_height c < width 64)%N ∧
  Forall (λ b : bytes, length b = 32)
    [ctx_prev_l2_state_root c; ctx_new_l2_state_root c; ctx_range_vk_commitment c; ctx_prev_l1_state_root c;
     ctx_l2_chain_id_hash c; ctx_confidential_root c].

Lemma build_typed l c : typed_context c → typed_header (header (build l c)).
Proof.
  intros (Hb & Ha & HF). repeat (apply Forall_cons in HF as [? HF]).
  split; simpl; try done. apply blake3_length.
Qed.

(** A batch's public inputs bind the batch.  The 240 bytes a built batch
    submits pass the verifier's width gate, and two batches with the same public
    inputs were built from the same context and the same transactions in the
    same order, unless BLAKE3 collides on two different blobs. *)
Theorem batch_binding l1 c1 l2 c2 proof vk :
  typed_context c1 → typed_context c2 → Forall small_tx l1 → Forall small_tx l2 →
  length proof = SP1_GROTH16_BN254_PROOF_BYTES → vk ≠ zeros 32 →
  verify_l2_batch proof (public_inputs (build l1 c1)) vk = Ok tt ∧
  validate_public_inputs_width (build l1 c1) = Ok tt ∧
  (public_inputs (build l1 c1) = public_inputs (build l2 c2) →
   (c1 = c2 ∧ tx_bytes <$> l1 = tx_bytes <$> l2) ∨ ∃ x y, x ≠ y ∧ blake3 x = blake3 y).
Proof.
  intros H1 H2 L1 L2 Hp Hv. pose proof (build_typed l1 c1 H1) as T1. pose proof (build_typed l2 c2 H2) as T2.
  pose proof (length_to_public_inputs _ T1) as Hl.
  split_and!.
  - unfold verify_l2_batch, public_inputs. rewrite !bool_decide_false by (try done; by intros ?). done.
  - unfold validate_public_inputs_width, public_inputs. cbv zeta. by rewrite bool_decide_false by (by intros ?).
  - intros E. unfold public_inputs in E. apply to_public_inputs_inj in E; [|done..].
    injection E as ? ? ? ? ? ? ? ? ?.
    destruct (decide (encode_da_blob (ctx_batch_id c1) l1 = encode_da_blob (ctx_batch_id c2) l2)) as [Eb|Hn].
    + left. destruct H1 as [B1 _], H2 as [B2 _]. apply encode_da_blob_inj in Eb as [_ El]; [|done..].
      split; [|done]. destruct c1, c2; simpl in *; congruence.
    + right. by eexists _, _.
Qed.
End pool.

Module SequencerExamples.
#[local] Existing Instance Toy.toy_blake3.
Definition ctx (n : N) : BuildContext :=
  let z := replicate 32 Byte.x00 in mk_context z n 7 z z z z z.
Definition tx (b : byte) : PendingTx := mk_tx [b] (blake3 [b]).

Lemma batch_binding_witness :
  verify_l2_batch (replicate 260 Byte.x01) (public_inputs (build [tx Byte.x01; tx Byte.x02] (ctx 3)))
    (replicate 32 Byte.x01) = Ok tt.
Proof.
  apply (batch_binding [tx Byte.x01; tx Byte.x02] (ctx 3) [] (ctx 4)).
  - split; [reflexivity|]. split; [reflexivity|]. repeat constructor.
  - split; [reflexivity|]. split; [reflexivity|]. repeat constructor.
  - repeat constructor.
  - constructor.
  - reflexivity.
  - discriminate.
Defined.

Example fifo_run :
  (tx_bytes <$> (run new_pool [Submit [Byte.x01]; Submit [Byte.x02]; Submit [Byte.x01]; Drain 1; Submit [Byte.x01]; Drain 9]).1)
  = [[Byte.x01]; [Byte.x02]; [Byte.x01]].
Proof. vm_compute. reflexivity. Qed.
End SequencerExamples.
