(* ===== verification/Sha3.v ===== *)
(** * Domain-separated hashing

    [crates/suwappu-crypto/src/hash.rs]: SHA3-256 is a parameter; the
    length-prefixed domain separation over it is the repository's. *)

From S2P Require Import Prelude Crypto.

Definition SHA3_256_BYTES : nat := 32.

(** The [sha3] crate: the digest of the concatenation of the updates. *)
Class Sha3 := {
  sha3 : bytes → bytes;
  sha3_length : ∀ b, length (sha3 b) = SHA3_256_BYTES;
}.

Definition SUWAPPU_L2_NOTE_COMMIT_V1 : bytes := tag "suwappu-l2-note-commit-v1".
Definition SUWAPPU_L2_NULLIFIER_V1 : bytes := tag "suwappu-l2-nullifier-v1".
Definition SUWAPPU_L2_NF_KEY_V1 : bytes := tag "suwappu-l2-nf-key-v1".
Definition SUWAPPU_L2_VIEWING_KEY_V1 : bytes := tag "suwappu-l2-viewing-key-v1".
Definition SUWAPPU_L2_ADDRESS_V1 : bytes := tag "suwappu-l2-address-v1".

Definition domain_preimage (t data : bytes) : bytes :=
  be_bytes 4 (wrap 32 (N.of_nat (length t))) ++ t ++ data.

Section hashing.
Context `{Sha3}.

Definition sha3_256 (data : bytes) : bytes := sha3 data.
Definition sha3_256_domain (t data : bytes) : bytes := sha3 (domain_preimage t data).

(** A collision of the hash function. *)
Definition sha3_collision : Prop := ∃ x y, x ≠ y ∧ sha3 x = sha3 y.

Lemma domain_preimage_inj t1 t2 d1 d2 :
  (N.of_nat (length t1) < width 32)%N → (N.of_nat (length t2) < width 32)%N →
  domain_preimage t1 d1 = domain_preimage t2 d2 → t1 = t2 ∧ d1 = d2.
Proof.
  intros H1 H2 E. unfold domain_preimage in E. rewrite !wrap_small in E by done. rewrite width_32 in *.
  apply delimited_be in E as [El E]; [|done..]. apply app_inj_1 in E; [done|lia].
Qed.

(** Equal domain hashes come from the same domain and the same data. *)
Lemma sha3_256_domain_inj t1 t2 d1 d2 :
  (N.of_nat (length t1) < width 32)%N → (N.of_nat (length t2) < width 32)%N →
  sha3_256_domain t1 d1 = sha3_256_domain t2 d2 → (t1 = t2 ∧ d1 = d2) ∨ sha3_collision.
Proof.
  intros H1 H2 E. destruct (decide (domain_preimage t1 d1 = domain_preimage t2 d2)) as [Ep|Hn].
  - left. by apply domain_preimage_inj.
  - right. by eexists _, _.
Qed.
End hashing.
