(* ===== verification/Confidential.v ===== *)
(** * Confidential notes

    [crates/suwappu-l2-confidential/src/lib.rs]: note commitments, nullifier
    keys, nullifiers and addresses over domain-separated SHA3-256. *)

From S2P Require Import Prelude Crypto Sha3 MintCommit.

Definition ML_DSA_65_PUBLIC_KEY_BYTES : nat := N.to_nat 1312.
Definition L2_ADDRESS_BYTES : nat := 20.
Definition NF_KEY_SEED_BYTES : nat := 32.

(** [to_le_bytes]. *)
Definition le_bytes (k : nat) (n : N) : bytes := reverse (be_bytes k n).

Record Note := mk_note { v : N; r : bytes; pk_owner : bytes; position : N }.

Inductive ConfidentialError := BadPublicKeyLength (expected got : nat).

Section notes.
Context `{Sha3}.

Definition note_bytes (n : Note) : bytes := le_bytes 8 (v n) ++ r n ++ pk_owner n.

Definition commit_note (n : Note) : outcome ConfidentialError bytes :=
  if bool_decide (length (pk_owner n) ≠ ML_DSA_65_PUBLIC_KEY_BYTES)
  then Err (BadPublicKeyLength ML_DSA_65_PUBLIC_KEY_BYTES (length (pk_owner n)))
  else Ok (sha3_256_domain SUWAPPU_L2_NOTE_COMMIT_V1 (note_bytes n)).

Definition derive_nullifier_key (sk_seed : bytes) : bytes := sha3_256_domain SUWAPPU_L2_NF_KEY_V1 sk_seed.

Definition compute_nullifier (nk cm : bytes) (pos : N) : bytes :=
  sha3_256_domain SUWAPPU_L2_NULLIFIER_V1 (nk ++ cm ++ le_bytes 8 pos).

Definition derive_l2_address (pk : bytes) : outcome ConfidentialError bytes :=
  if bool_decide (length pk ≠ ML_DSA_65_PUBLIC_KEY_BYTES)
  then Err (BadPublicKeyLength ML_DSA_65_PUBLIC_KEY_BYTES (length pk))
  else Ok (take L2_ADDRESS_BYTES (sha3_256_domain SUWAPPU_L2_ADDRESS_V1 pk)).

Lemma length_le_bytes k n : length (le_bytes k n) = k.
Proof. unfold le_bytes. by rewrite length_reverse, length_be_bytes. Qed.

Lemma le_bytes_inj k n m :
  (n < 256 ^ N.of_nat k)%N → (m < 256 ^ N.of_nat k)%N → le_bytes k n = le_bytes k m → n = m.
Proof. intros Hn Hm E. apply (inj reverse) in E. by apply be_bytes_inj in E. Qed.

Lemma length_domain t d : length (sha3_256_domain t d) = 32.
Proof. apply sha3_length. Qed.

Lemma domains_differ : NoDup [SUWAPPU_L2_NOTE_COMMIT_V1; SUWAPPU_L2_NULLIFIER_V1; SUWAPPU_L2_NF_KEY_V1;
  SUWAPPU_L2_VIEWING_KEY_V1; SUWAPPU_L2_ADDRESS_V1].
Proof. apply (bool_decide_eq_true_1 _). vm_compute. reflexivity. Qed.

Definition typed_note (n : Note) : Prop :=
  (v n < width 64)%N ∧ length (r n) = 32 ∧ (position n < width 64)%N.

(** Notes cannot be opened two ways or spent under two nullifiers' names.
    Two notes with the same commitment have the same value, randomness and
    owner; two spends with the same nullifier have the same nullifier key,
    commitment and position, so a nullifier identifies one note at one position
    of one account; a commitment is never a nullifier.  Each holds unless SHA3-256
    collides on two different inputs. *)
Theorem note_binding n1 n2 nk1 nk2 cm1 cm2 :
  typed_note n1 → typed_note n2 →
  commit_note n1 = Ok cm1 → commit_note n2 = Ok cm2 →
  length nk1 = 32 → length nk2 = 32 →
  (cm1 = cm2 → (v n1 = v n2 ∧ r n1 = r n2 ∧ pk_owner n1 = pk_owner n2) ∨ sha3_collision) ∧
  (compute_nullifier nk1 cm1 (position n1) = compute_nullifier nk2 cm2 (position n2) →
   (nk1 = nk2 ∧ cm1 = cm2 ∧ position n1 = position n2) ∨ sha3_collision) ∧
  (compute_nullifier nk1 cm1 (position n1) = cm2 → sha3_collision).
Proof.
  intros (V1 & R1 & P1) (V2 & R2 & P2) C1 C2 K1 K2. rewrite width_64 in *.
  unfold commit_note in C1, C2. case_bool_decide as L1; [done|]. case_bool_decide as L2; [done|].
  injection C1 as <-. injection C2 as <-. split_and!.
  - intros E. apply sha3_256_domain_inj in E as [[_ E]|]; [|by right|done..]. left.
    unfold note_bytes in E. apply app_inj_1 in E as [Ev E]; [|by rewrite !length_le_bytes].
    apply le_bytes_inj in Ev; [|done..]. apply app_inj_1 in E as [? ?]; [done|congruence].
  - intros E. unfold compute_nullifier in E.
    apply sha3_256_domain_inj in E as [[_ E]|]; [|by right|done..]. left.
    apply app_inj_1 in E as [-> E]; [|congruence].
    apply app_inj_1 in E as [-> E]; [|by rewrite !length_domain].
    by apply le_bytes_inj in E as ->.
  - intros E. unfold compute_nullifier in E.
    apply sha3_256_domain_inj in E as [[Et _]|]; [|done..]. vm_compute in Et. discriminate Et.
Qed.

(** Keys of the real size are refused.  A public key of the size the
    ML-DSA-65 precompile verifies under (1952 bytes) is refused by the note
    commitment and by the address derivation, which accept only 1312-byte keys;
    so no key can own a note and sign for it through the precompile. *)
Theorem real_keys_refused pk sig msg `{MlDsa65} :
  accepts pk sig msg →
  (∀ n, pk_owner n = pk → commit_note n = Err (BadPublicKeyLength ML_DSA_65_PUBLIC_KEY_BYTES PK_LEN)) ∧
  derive_l2_address pk = Err (BadPublicKeyLength ML_DSA_65_PUBLIC_KEY_BYTES PK_LEN).
Proof.
  intros (Hl & _). assert (PK_LEN ≠ ML_DSA_65_PUBLIC_KEY_BYTES) as Hne by (unfold PK_LEN, ML_DSA_65_PUBLIC_KEY_BYTES; lia).
  split.
  - intros n <-. unfold commit_note. rewrite Hl. by rewrite bool_decide_true.
  - unfold derive_l2_address. rewrite Hl. by rewrite bool_decide_true.
Qed.
End notes.

Module ConfidentialExamples.
#[local] Instance toy_sha3 : Sha3 := {| sha3 := Toy.hash; sha3_length := blake3_length (Blake3 := Toy.toy_blake3) |}.

Definition note (value : N) : Note :=
  mk_note value (replicate 32 Byte.x01) (replicate ML_DSA_65_PUBLIC_KEY_BYTES Byte.x02) 5.
Definition cm (value : N) : bytes := sha3_256_domain SUWAPPU_L2_NOTE_COMMIT_V1 (note_bytes (note value)).
Definition nk : bytes := derive_nullifier_key (replicate 32 Byte.x03).

Lemma note_binding_witness :
  (cm 7 = cm 8 → (7 = 8 ∧ r (note 7) = r (note 8) ∧ pk_owner (note 7) = pk_owner (note 8))%N ∨ sha3_collision) ∧
  (compute_nullifier nk (cm 7) 5 = cm 8 → sha3_collision).
Proof.
  destruct (note_binding (note 7) (note 8) nk nk (cm 7) (cm 8)) as (H1 & _ & H3);
    [repeat split|repeat split|vm_compute; reflexivity|vm_compute; reflexivity
    |vm_compute; reflexivity|vm_compute; reflexivity|].
  split; [exact H1|exact H3].
Defined.

Lemma real_keys_refused_witness :
  derive_l2_address (MintCommitExamples.key Byte.x01) =
    Err (BadPublicKeyLength ML_DSA_65_PUBLIC_KEY_BYTES PK_LEN).
Proof.
  apply (@real_keys_refused _ (MintCommitExamples.key Byte.x01)
    (MintCommitExamples.sig_of Byte.x01 MintCommitExamples.msg) MintCommitExamples.msg
    MintCommitExamples.sized_mldsa).
  apply (bool_decide_eq_true_1 _). vm_compute. reflexivity.
Defined.
End ConfidentialExamples.
