(* ===== verification/Ltp.v ===== *)
(** * The lattice transfer protocol

    [crates/suwappu-ltp/src/]: corridor attestations by seven of nine witnesses
    ([attestation.rs]) and cross-chain identity rotation ([did_stark.rs]).  BLS
    signatures are a parameter, through the wrapper [suwappu-crypto/src/bls.rs]. *)

From S2P Require Import Prelude Crypto Cert Sha3 Did.

Definition LTP_ATTESTATION_QUORUM_THRESHOLD : nat := 7.
Definition LTP_ATTESTATION_QUORUM_SIZE : nat := 9.

(** [blst::min_pk]: the encodings that parse, verification, and aggregation of
    signatures and of public keys (a key or signature is its encoding). *)
Class Blst := {
  blst_pk_parses : bytes → bool;
  blst_sig_parses : bytes → bool;
  blst_verify : bytes → bytes → bytes → bool;
  blst_aggregate : list bytes → option bytes;
  blst_aggregate_pks : list bytes → option bytes;
}.

(** Documented behaviour: aggregates serialize to encodings that parse, and the
    aggregate of public keys, a group sum, does not depend on their order. *)
Class BlstLaws `{Blst} : Prop := {
  blst_aggregate_parses : ∀ l s, blst_aggregate l = Some s → blst_sig_parses s = true;
  blst_aggregate_pks_perm : ∀ l l', l ≡ₚ l' → blst_aggregate_pks l = blst_aggregate_pks l';
}.

Module bls.
Inductive CryptoError := InvalidSignature | BlsAggregation.
Section bls.
Context `{Blst}.
Definition verify (message sig pk : bytes) : outcome CryptoError unit :=
  if blst_verify message sig pk then Ok tt else Err InvalidSignature.
Definition aggregate (sigs : list bytes) : outcome CryptoError bytes :=
  if bool_decide (sigs = []) then Err BlsAggregation else ok_or (blst_aggregate sigs) BlsAggregation.
Definition aggregate_pubkeys (pks : list bytes) : outcome CryptoError bytes :=
  if bool_decide (pks = []) then Err BlsAggregation else ok_or (blst_aggregate_pks pks) BlsAggregation.
Definition verify_aggregate (message agg_sig agg_pk : bytes) : outcome CryptoError unit :=
  verify message agg_sig agg_pk.
End bls.
End bls.

(** ** Corridor attestations *)

Record SuperNode := mk_node { witness_id : AuthorityId; node_corridor : N; bls_public_key : bytes }.
Record Corridor := mk_corridor { corridor_id : N; members : list SuperNode }.

Record AttestationPayload := mk_payload {
  source_chain : N;
  target_chain : N;
  source_height : N;
  state_root : bytes;
  timestamp_round : N;
}.

Record WitnessSignature := mk_wsig { witness : AuthorityId; wsignature : bytes }.

Record CorridorAttestation := mk_corridor_attestation {
  payload : AttestationPayload;
  aggregate_signature : bytes;
  signers : gset AuthorityId;
}.

Inductive LtpError :=
| BadCorridorSize (expected got : nat)
| BelowQuorum (have need : nat)
| UnknownWitness (a : AuthorityId)
| InvalidSignature (a : AuthorityId)
| AggregateVerificationFailed
| MalformedSignature (a : AuthorityId)
| MalformedKey (a : AuthorityId).

Definition payload_blob (p : AttestationPayload) : bytes :=
  be_bytes 8 (source_chain p) ++ be_bytes 8 (target_chain p) ++ be_bytes 8 (source_height p) ++
  state_root p ++ be_bytes 8 (timestamp_round p).

Section attestation.
Context `{Sha3, Blst}.

Definition member_pubkey (c : Corridor) (a : AuthorityId) : option bytes :=
  '(_, m) ← list_find (λ m, witness_id m = a) (members c);
  if blst_pk_parses (bls_public_key m) then Some (bls_public_key m) else None.

Definition canonical_digest (p : AttestationPayload) : bytes :=
  sha3_256_domain (tag "SUWAPPU-LTP-ATTEST-V1") (payload_blob p).

(** The signature loop: signers seen, parsed signatures and keys. *)
Fixpoint attest_loop (c : Corridor) (digest : bytes) (l : list WitnessSignature)
    (seen : gset AuthorityId) (sigs pks : list bytes)
    : outcome LtpError (gset AuthorityId * list bytes * list bytes) :=
  match l with
  | [] => Ok (seen, sigs, pks)
  | s :: rest =>
      if bool_decide (witness s ∈ seen) then attest_loop c digest rest seen sigs pks
      else
        let! pk := ok_or (member_pubkey c (witness s)) (UnknownWitness (witness s)) in
        if blst_sig_parses (wsignature s) then
          match bls.verify digest (wsignature s) pk with
          | Ok _ => attest_loop c digest rest ({[witness s]} ∪ seen) (sigs ++ [wsignature s]) (pks ++ [pk])
          | _ => Err (InvalidSignature (witness s))
          end
        else Err (MalformedSignature (witness s))
  end.

Definition attest (c : Corridor) (p : AttestationPayload) (l : list WitnessSignature)
    : outcome LtpError CorridorAttestation :=
  if bool_decide (length (members c) ≠ LTP_ATTESTATION_QUORUM_SIZE)
  then Err (BadCorridorSize LTP_ATTESTATION_QUORUM_SIZE (length (members c)))
  else
    let digest := canonical_digest p in
    let! parsed := attest_loop c digest l ∅ [] [] in
    let '(seen, sigs, pks) := parsed in
    if bool_decide (size seen < LTP_ATTESTATION_QUORUM_THRESHOLD)
    then Err (BelowQuorum (size seen) LTP_ATTESTATION_QUORUM_THRESHOLD)
    else
      match bls.aggregate sigs, bls.aggregate_pubkeys pks with
      | Ok agg_sig, Ok agg_pk =>
          match bls.verify_aggregate digest agg_sig agg_pk with
          | Ok _ => Ok (mk_corridor_attestation p agg_sig seen)
          | _ => Err AggregateVerificationFailed
          end
      | _, _ => Err AggregateVerificationFailed
      end.

Fixpoint collect_keys (c : Corridor) (l : list AuthorityId) (pks : list bytes) : outcome LtpError (list bytes) :=
  match l with
  | [] => Ok pks
  | a :: rest =>
      let! pk := ok_or (member_pubkey c a) (UnknownWitness a) in collect_keys c rest (pks ++ [pk])
  end.

Definition verify_attestation (c : Corridor) (att : CorridorAttestation) : outcome LtpError unit :=
  if bool_decide (length (members c) ≠ LTP_ATTESTATION_QUORUM_SIZE)
  then Err (BadCorridorSize LTP_ATTESTATION_QUORUM_SIZE (length (members c)))
  else if bool_decide (size (signers att) < LTP_ATTESTATION_QUORUM_THRESHOLD)
  then Err (BelowQuorum (size (signers att)) LTP_ATTESTATION_QUORUM_THRESHOLD)
  else
    let! pks := collect_keys c (bset_elems (signers att)) [] in
    match bls.aggregate_pubkeys pks with
    | Ok agg_pk =>
        if blst_sig_parses (aggregate_signature att) then
          match bls.verify_aggregate (canonical_digest (payload att)) (aggregate_signature att) agg_pk with
          | Ok _ => Ok tt
          | _ => Err AggregateVerificationFailed
          end
        else Err AggregateVerificationFailed
    | _ => Err AggregateVerificationFailed
    end.
End attestation.

(** ** Identity rotation *)

Record DidRotationStatement := mk_statement {
  did : Did;
  old_doc_hash : bytes;
  new_doc_hash : bytes;
  rot_source_chain : N;
  rot_target_chain : N;
  rot_source_height : N;
}.

Record DidStarkProof := mk_stark {
  statement : DidRotationStatement;
  signing_method_id : VerificationMethodId;
  rot_signature : bytes;
  fri_proof : bytes;
}.

Inductive DidStarkError :=
| OldDocHashMismatch
| UnknownRotationMethod (m : VerificationMethodId)
| UnauthorizedMethod (m : VerificationMethodId)
| InvalidRotationSignature
| MalformedRotationKey (m : VerificationMethodId)
| MalformedRotationSignature.

Definition statement_blob (s : DidRotationStatement) : bytes :=
  did s ++ old_doc_hash s ++ new_doc_hash s ++ be_bytes 8 (rot_source_chain s) ++
  be_bytes 8 (rot_target_chain s) ++ be_bytes 8 (rot_source_height s).

Section rotation.
Context `{Blake3, Sha3, MlDsa65}.

Definition statement_digest (s : DidRotationStatement) : bytes :=
  sha3_256_domain (tag "SUWAPPU-DID-STARK-V1") (statement_blob s).

Definition prove_rotation (s : DidRotationStatement) (old_doc : DidDocument) (m : VerificationMethodId)
    (sk : mldsa.SecretKey) : outcome DidStarkError DidStarkProof :=
  if bool_decide (old_doc_hash s ≠ canonical_hash old_doc) then Err OldDocHashMismatch
  else if bool_decide (public_key old_doc m = None) then Err (UnknownRotationMethod m)
  else if negb (has_relationship old_doc m CapabilityInvocation) then Err (UnauthorizedMethod m)
  else match mldsa.sign (statement_digest s) sk with
       | Ok sig => Ok (mk_stark s m (mldsa.sig_bytes sig) [])
       | _ => Err InvalidRotationSignature
       end.

Definition verify_rotation_proof (p : DidStarkProof) (old_doc : DidDocument)
    : outcome DidStarkError DidRotationStatement :=
  let m := signing_method_id p in
  if bool_decide (old_doc_hash (statement p) ≠ canonical_hash old_doc) then Err OldDocHashMismatch
  else
    let! pk_bytes := ok_or (public_key old_doc m) (UnknownRotationMethod m) in
    if negb (has_relationship old_doc m CapabilityInvocation) then Err (UnauthorizedMethod m)
    else match mldsa.PublicKey_from_bytes pk_bytes with
         | Ok pk =>
             match mldsa.Signature_from_bytes (rot_signature p) with
             | Ok sig =>
                 match mldsa.verify (statement_digest (statement p)) sig pk with
                 | Ok _ => Ok (statement p)
                 | _ => Err InvalidRotationSignature
                 end
             | _ => Err MalformedRotationSignature
             end
         | _ => Err (MalformedRotationKey m)
         end.
End rotation.

(** ** Attestations that are accepted *)

Section attestation_lemmas.
Context `{Sha3, Blst}.

(** [a] sits in the corridor with a key under which some signature over the
    digest verifies. *)
Definition witnessed (c : Corridor) (digest : bytes) (a : AuthorityId) : Prop :=
  ∃ pk sig, member_pubkey c a = Some pk ∧ blst_sig_parses sig = true ∧ blst_verify digest sig pk = true.

Lemma member_pubkey_member c a pk :
  member_pubkey c a = Some pk → ∃ m, m ∈ members c ∧ witness_id m = a ∧ bls_public_key m = pk.
Proof.
  unfold member_pubkey. destruct (list_find _ _) as [[i m]|] eqn:E; simpl; [|done].
  apply list_find_Some in E as (Hl & Hm & _). case_match; [|done]. intros [= <-].
  exists m. split_and!; [by eapply list_elem_of_lookup_2|done|done].
Qed.

Lemma attest_loop_spec c d l seen sigs pks seen' sigs' pks' :
  attest_loop c d l seen sigs pks = Ok (seen', sigs', pks') →
  pks ≡ₚ (elements seen ≫= λ a, option_list (member_pubkey c a)) → (∀ a, a ∈ seen → witnessed c d a) →
  seen ⊆ seen' ∧ pks' ≡ₚ (elements seen' ≫= λ a, option_list (member_pubkey c a)) ∧
  (∀ a, a ∈ seen' → witnessed c d a) ∧ (∀ a, a ∈ seen' → a ∈ seen ∨ a ∈ witness <$> l).
Proof.
  revert seen sigs pks. induction l as [|s l IH]; intros seen sigs pks; cbn [attest_loop].
  { intros [= <- <- <-] HP Hw. auto. }
  case_bool_decide as Hs.
  { intros E HP Hw. destruct (IH _ _ _ E HP Hw) as (? & ? & ? & Hin). split_and!; try done.
    intros a [?|?]%Hin; [by left|right; by right]. }
  destruct (member_pubkey c (witness s)) as [pk|] eqn:Ek; simpl; [|done].
  destruct (blst_sig_parses (wsignature s)) eqn:Ep; [|done]. unfold bls.verify.
  destruct (blst_verify d (wsignature s) pk) eqn:Ev; [|done]. intros E HP Hw.
  destruct (IH _ _ _ E) as (Hsub & HP' & Hw' & Hin).
  - rewrite elements_union_singleton by done. csimpl. rewrite Ek. simpl. rewrite HP.
    symmetry. apply Permutation_cons_append.
  - intros a [->%elem_of_singleton|Ha]%elem_of_union; [|by apply Hw]. by exists pk, (wsignature s).
  - split_and!; [set_solver|done|done|]. intros a [[->%elem_of_singleton|?]%elem_of_union|?]%Hin.
    + right. by left.
    + by left.
    + right. by right.
Qed.

Lemma collect_keys_spec c l pks :
  (∀ a, a ∈ l → is_Some (member_pubkey c a)) →
  collect_keys c l pks = Ok (pks ++ (l ≫= λ a, option_list (member_pubkey c a))).
Proof.
  revert pks. induction l as [|a l IH]; intros pks Hl; csimpl; [by rewrite app_nil_r|].
  destruct (Hl a) as [pk Hpk]; [by left|]. rewrite Hpk. simpl. rewrite IH by (intros; apply Hl; by right).
  by rewrite <-app_assoc.
Qed.

Lemma attest_Ok c p l att :
  attest c p l = Ok att →
  ∃ sigs pks agg_pk,
    length (members c) = LTP_ATTESTATION_QUORUM_SIZE ∧ payload att = p ∧
    LTP_ATTESTATION_QUORUM_THRESHOLD ≤ size (signers att) ∧
    (∀ a, a ∈ signers att → witnessed c (canonical_digest p) a ∧ a ∈ witness <$> l) ∧
    pks ≡ₚ (elements (signers att) ≫= λ a, option_list (member_pubkey c a)) ∧
    blst_aggregate sigs = Some (aggregate_signature att) ∧ pks ≠ [] ∧
    blst_aggregate_pks pks = Some agg_pk ∧
    blst_verify (canonical_digest p) (aggregate_signature att) agg_pk = true.
Proof.
  unfold attest. case_bool_decide as Hm; [done|]. cbv zeta.
  destruct (attest_loop c (canonical_digest p) l ∅ [] []) as [[[seen sigs] pks]|e|] eqn:E; simpl; [|done..].
  apply attest_loop_spec in E as (_ & HP & Hw & Hin); [|by rewrite elements_empty|set_solver].
  case_bool_decide as Hq; [done|]. unfold bls.aggregate, bls.aggregate_pubkeys, bls.verify_aggregate, bls.verify.
  case_bool_decide; [done|]. destruct (blst_aggregate sigs) as [s|] eqn:Es; simpl; [|done].
  case_bool_decide as Hne; [done|]. destruct (blst_aggregate_pks pks) as [k|] eqn:Ek; simpl; [|done].
  destruct (blst_verify (canonical_digest p) s k) eqn:Ev; [|done]. intros [= <-].
  exists sigs, pks, k. simpl. split_and!; try done; [lia|].
  intros a Ha. split; [by apply Hw|]. destruct (Hin a Ha); [set_solver|done].
Qed.

(** The witnesses of a corridor. *)
Definition seats (c : Corridor) : gset AuthorityId := list_to_set (witness_id <$> members c).

Lemma size_seats c : size (seats c) ≤ length (members c).
Proof.
  unfold seats. rewrite <-(length_fmap witness_id (members c)).
  induction (witness_id <$> members c) as [|a l IH]; cbn [list_to_set length]; [by rewrite size_empty|].
  rewrite size_union_alt, size_singleton.
  pose proof (subseteq_size (list_to_set l ∖ {[a]}) (list_to_set l : gset N) ltac:(set_solver)). lia.
Qed.
End attestation_lemmas.

(** ** Properties *)

Section properties.
Context `{HS : Sha3, HB : Blst, HL : !BlstLaws}.

(** Corridor attestations.  An accepted attestation names at least seven
    distinct witnesses of the nine-seat corridor, each with a signature over the
    payload's digest that verified under its own key, and the verifier accepts
    it.  Two accepted attestations of one corridor, whatever their payloads,
    share at least five witnesses who signed both. *)
Theorem attest_spec c p1 p2 l1 l2 att1 att2 :
  attest c p1 l1 = Ok att1 → attest c p2 l2 = Ok att2 →
  payload att1 = p1 ∧ LTP_ATTESTATION_QUORUM_THRESHOLD ≤ size (signers att1) ∧
  (∀ a, a ∈ signers att1 → a ∈ seats c ∧ witnessed c (canonical_digest p1) a) ∧
  verify_attestation c att1 = Ok tt ∧
  5 ≤ size (signers att1 ∩ signers att2) ∧
  ∀ a, a ∈ signers att1 ∩ signers att2 →
    witnessed c (canonical_digest p1) a ∧ witnessed c (canonical_digest p2) a.
Proof.
  intros E1 E2. destruct (attest_Ok _ _ _ _ E1) as (sigs & pks & k & Hm & Hp & Hq & Hw & HP & Hs & Hne & Hk & Hv).
  destruct (attest_Ok _ _ _ _ E2) as (_ & _ & _ & _ & _ & Hq2 & Hw2 & _).
  assert (∀ d a, witnessed c d a → a ∈ seats c) as Hseat.
  { intros d a (pk & sig & (m & Hin & <- & _)%member_pubkey_member & _). unfold seats.
    rewrite elem_of_list_to_set. by apply list_elem_of_fmap_2. }
  split_and!; [done..| | | |].
  - intros a Ha. destruct (Hw a Ha) as [Hwa _]. split; [by eapply Hseat|done].
  - unfold verify_attestation. rewrite !bool_decide_false by (try lia; by intros ?).
    rewrite collect_keys_spec.
    + cbn [obind app]. unfold bls.aggregate_pubkeys.
      assert (bset_elems (signers att1) ≫= (λ a, option_list (member_pubkey c a)) ≡ₚ pks) as HP'.
      { rewrite HP. by rewrite bset_elems_perm. }
      rewrite bool_decide_false by (intros E; rewrite E in HP'; by apply Permutation_nil_l in HP').
      rewrite (blst_aggregate_pks_perm _ _ HP'), Hk. simpl.
      rewrite (blst_aggregate_parses _ _ Hs), Hp. unfold bls.verify_aggregate, bls.verify. by rewrite Hv.
    + intros a. rewrite elem_of_bset_elems. intros Ha. destruct (Hw a Ha) as [(pk & ? & ? & _) _]. eauto.
  - pose proof (quorum_intersection (signers att1) (signers att2) (seats c)
      ltac:(intros a Ha; by destruct (Hw a Ha) as [?%Hseat _])
      ltac:(intros a Ha; by destruct (Hw2 a Ha) as [?%Hseat _])) as Hi.
    pose proof (size_seats c) as Hz.
    unfold LTP_ATTESTATION_QUORUM_THRESHOLD, LTP_ATTESTATION_QUORUM_SIZE in *. lia.
  - intros a [Ha1 Ha2]%elem_of_intersection. split; [by apply Hw|by apply Hw2].
Qed.
End properties.

Section rotation_properties.
Context `{Blake3, Sha3, MlDsa65}.

(** A document's method may speak for it. *)
Definition may_invoke (d : DidDocument) (m : VerificationMethodId) (pk : bytes) : Prop :=
  public_key d m = Some pk ∧ has_relationship d m CapabilityInvocation = true.

(** Rotation proofs.  A proof made with the key of a capability-invocation
    method of the old document verifies; and a proof verifies exactly when its
    statement names the hash of the old document and its signature verifies over
    the statement under such a method. *)
Theorem rotation_roundtrip s d m pk sk :
  mldsa65_keypair_ok pk sk → may_invoke d m pk → old_doc_hash s = canonical_hash d →
  (∃ p, prove_rotation s d m (mldsa.mk_sk sk) = Ok p ∧ verify_rotation_proof p d = Ok s) ∧
  ∀ p s', verify_rotation_proof p d = Ok s' ↔
    s' = statement p ∧ old_doc_hash s' = canonical_hash d ∧
    ∃ k, may_invoke d (signing_method_id p) k ∧ mldsa65_pk_parses k = true ∧
      mldsa65_sig_parses (rot_signature p) = true ∧
      mldsa65_verify (rot_signature p) (statement_digest s') k = true.
Proof.
  intros Hk [Hpk Hr] Eh. split.
  - destruct (mldsa.sign_verify (statement_digest s) pk sk Hk) as (sig & Es & Ep & _ & Epk & Ev).
    exists (mk_stark s m (mldsa.sig_bytes sig) []). split.
    + unfold prove_rotation. rewrite bool_decide_false by (by intros ?).
      rewrite bool_decide_false by (by rewrite Hpk). by rewrite Hr, Es.
    + unfold verify_rotation_proof. cbn [statement signing_method_id rot_signature]. cbv zeta.
      rewrite bool_decide_false by (by intros ?). rewrite Hpk. simpl. by rewrite Hr, Epk, Ep, Ev.
  - intros p s'. unfold verify_rotation_proof, may_invoke, mldsa.PublicKey_from_bytes,
      mldsa.Signature_from_bytes, mldsa.verify. cbv zeta. split.
    + case_bool_decide as Ho; [done|].
      destruct (public_key d (signing_method_id p)) as [k|]; simpl; [|done].
      destruct (has_relationship d (signing_method_id p) CapabilityInvocation); simpl; [|done].
      destruct (mldsa65_pk_parses k) eqn:E1; [|done]. destruct (mldsa65_sig_parses (rot_signature p)) eqn:E2; [|done].
      simpl. rewrite E1, E2. destruct (mldsa65_verify _ _ _) eqn:E3; [|done]. intros [= <-].
      split_and!; [done..|]. by exists k.
    + intros (-> & Ho & k & (Ek & Er) & E1 & E2 & E3). rewrite bool_decide_false by (intros Hn; by apply Hn).
      rewrite Ek. simpl. rewrite Er. simpl. rewrite E1, E2. simpl. by rewrite E1, E2, E3.
Qed.
End rotation_properties.

Module LtpExamples.
#[local] Existing Instance Toy.toy_blake3.
#[local] Existing Instance Toy.toy_mldsa.
#[local] Instance toy_sha3 : Sha3 := {| sha3 := Toy.hash; sha3_length := blake3_length (Blake3 := Toy.toy_blake3) |}.

(** A signature is the key followed by the message; the aggregate of keys is
    their byte sum. *)
#[local] Instance toy_blst : Blst := {|
  blst_pk_parses b := bool_decide (length b = 1);
  blst_sig_parses b := negb (bool_decide (b = []));
  blst_verify msg sig pk := bool_decide (sig = pk ++ msg) || bool_decide (sig = [Byte.xff]);
  blst_aggregate l := Some [Byte.xff];
  blst_aggregate_pks l := Some [byte_of_N (sum_N (be_value <$> l))];
|}.
#[local] Instance toy_blst_laws : BlstLaws.
Proof.
  split; [intros l s [= <-]; reflexivity|]. intros l l' HP. simpl. by rewrite HP.
Qed.

Definition corridor : Corridor :=
  mk_corridor 1 ((λ i, mk_node i 1 [byte_of_N i]) <$> [1; 2; 3; 4; 5; 6; 7; 8; 9]%N).
Definition pl (h : N) : AttestationPayload := mk_payload 1 2 h (replicate 32 Byte.x05) 6.
Definition wsigs (h : N) (who : list N) : list WitnessSignature :=
  (λ i, mk_wsig i (byte_of_N i :: canonical_digest (pl h))) <$> who.
Definition seven : list N := [9; 2; 2; 4; 5; 6; 7; 8]%N.
Definition others : list N := [1; 2; 3; 4; 5; 6; 7; 8]%N.

Lemma attest_spec_witness :
  verify_attestation corridor (mk_corridor_attestation (pl 10) [Byte.xff] (list_to_set seven)) = Ok tt ∧
  5 ≤ size ((list_to_set seven : gset N) ∩ list_to_set others).
Proof.
  destruct (attest_spec corridor (pl 10) (pl 11) (wsigs 10 seven) (wsigs 11 others)
    (mk_corridor_attestation (pl 10) [Byte.xff] (list_to_set seven))
    (mk_corridor_attestation (pl 11) [Byte.xff] (list_to_set others)))
    as (_ & _ & _ & Hv & Hi & _); [vm_compute; reflexivity|vm_compute; reflexivity|].
  split; [exact Hv|exact Hi].
Defined.

Definition old_doc : DidDocument := DidExamples.doc Byte.x0a.
Definition rotation (who : bytes) : DidRotationStatement :=
  mk_statement who (canonical_hash old_doc) (canonical_hash (DidExamples.doc Byte.x0b)) 1 2 3.

Lemma rotation_roundtrip_witness :
  ∃ p, prove_rotation (rotation DidExamples.alice) old_doc 7 (mldsa.mk_sk [Byte.x0a]) = Ok p ∧
       verify_rotation_proof p old_doc = Ok (rotation DidExamples.alice).
Proof.
  apply (rotation_roundtrip (rotation DidExamples.alice) old_doc 7 [Byte.x0a] [Byte.x0a]).
  - split; [reflexivity|]. split; [reflexivity|]. intros msg. split; [reflexivity|]. split; [discriminate|].
    simpl. by apply bool_decide_eq_true_2.
  - split; reflexivity.
  - reflexivity.
Defined.

(** A rotation proof does not tie its statement to the document's own
    identifier: the keys of one identifier's document prove a rotation stated of
    any other identifier. *)
Theorem rotation_of_a_foreign_did :
  let mallory := replicate 32 Byte.x66 in
  id old_doc ≠ mallory ∧
  ∃ p, prove_rotation (rotation mallory) old_doc 7 (mldsa.mk_sk [Byte.x0a]) = Ok p ∧
       verify_rotation_proof p old_doc = Ok (rotation mallory) ∧ did (rotation mallory) = mallory.
Proof.
  split; [vm_compute; discriminate|].
  eexists. split; [vm_compute; reflexivity|]. split; vm_compute; reflexivity.
Qed.
End LtpExamples.
