(* ===== verification/Da.v ===== *)
(** * Data-availability commitments

    [crates/suwappu-ltp/src/da.rs]: content identifiers, the service-level
    predicate, and the in-memory network of commitment nodes. *)

From S2P Require Import Prelude Crypto Sha3.

Abbreviation Cid := bytes (only parsing).

Record DaSla := mk_sla { retention_rounds : N; max_retrieval_latency_rounds : N }.
Definition DEFAULT_SLA : DaSla := mk_sla 100000 16.

Record Commitment := mk_commitment { cid : Cid; size_bytes : N; stored_at : N; sla : DaSla }.

Definition retention_until (c : Commitment) : N := saturating_add 64 (stored_at c) (retention_rounds (sla c)).
Definition retention_expired (c : Commitment) (now : N) : bool := bool_decide (retention_until c < now)%N.

Record CommitmentNetwork := mk_network {
  commitments : gmap Cid Commitment;
  payloads : gmap Cid bytes;
}.

Inductive DaError :=
| CommitmentNotFound
| PayloadMismatch
| RetentionExpired (expired_at : N)
| LatencyExceeded (requested_at responded_at max_latency : N).

Definition new_network : CommitmentNetwork := mk_network ∅ ∅.

Section da.
Context `{Sha3}.
Implicit Types n : CommitmentNetwork.

Definition Cid_of (payload : bytes) : Cid := sha3_256_domain (tag "SUWAPPU-LTP-CID-V1") payload.

Definition verify_sla (c : Commitment) (requested_at responded_at : N) (payload : bytes)
    : outcome DaError unit :=
  if bool_decide (retention_until c < responded_at)%N then Err (RetentionExpired (retention_until c))
  else if bool_decide (max_retrieval_latency_rounds (sla c) < responded_at - requested_at)%N
  then Err (LatencyExceeded requested_at responded_at (max_retrieval_latency_rounds (sla c)))
  else if bool_decide (Cid_of payload ≠ cid c) then Err PayloadMismatch
  else Ok tt.

Definition store n (payload : bytes) (terms : DaSla) (now : N) : Cid * CommitmentNetwork :=
  let k := Cid_of payload in
  let size := wrap 64 (N.of_nat (length payload)) in
  (k, mk_network (<[k := mk_commitment k size now terms]> (commitments n)) (<[k := payload]> (payloads n))).

Definition retrieve n (k : Cid) : outcome DaError (Commitment * bytes) :=
  let! c := ok_or (commitments n !! k) CommitmentNotFound in
  let! p := ok_or (payloads n !! k) CommitmentNotFound in
  Ok (c, p).

Fixpoint prune_loop n (l : list Cid) : CommitmentNetwork :=
  match l with
  | [] => n
  | k :: rest => prune_loop (mk_network (delete k (commitments n)) (delete k (payloads n))) rest
  end.

Definition prune_expired n (now : N) : nat * CommitmentNetwork :=
  let expired := fst <$> filter (λ e, retention_expired e.2 now = true) (btree_entries (commitments n)) in
  (length expired, prune_loop n expired).

(** ** Invariant *)

(** Commitments and payloads go together, under the payload's identifier. *)
Definition anchored n : Prop :=
  dom (commitments n) = dom (payloads n) ∧
  map_Forall (λ k c, cid c = k) (commitments n) ∧ map_Forall (λ k p, Cid_of p = k) (payloads n).

Inductive op := Store (payload : bytes) (terms : DaSla) (now : N) | Prune (now : N).
Definition step n (o : op) : CommitmentNetwork :=
  match o with Store p t now => (store n p t now).2 | Prune now => (prune_expired n now).2 end.
Definition run n (ops : list op) : CommitmentNetwork := foldl step n ops.

Lemma anchored_delete n k : anchored n → anchored (mk_network (delete k (commitments n)) (delete k (payloads n))).
Proof.
  intros (Hd & Hc & Hp). split_and!; simpl.
  - by rewrite !dom_delete_L, Hd.
  - by apply map_Forall_delete.
  - by apply map_Forall_delete.
Qed.

Lemma anchored_prune_loop n l : anchored n → anchored (prune_loop n l).
Proof. revert n. induction l as [|k l IH]; intros n Hn; simpl; [done|]. by apply IH, anchored_delete. Qed.

Lemma anchored_store n p t now : anchored n → anchored (store n p t now).2.
Proof.
  intros (Hd & Hc & Hp). split_and!; simpl.
  - by rewrite !dom_insert_L, Hd.
  - by apply map_Forall_insert_2.
  - by apply map_Forall_insert_2.
Qed.

Lemma anchored_step n o : anchored n → anchored (step n o).
Proof. intros Hn. destruct o; simpl; [by apply anchored_store|by apply anchored_prune_loop]. Qed.

Lemma anchored_run n ops : anchored n → anchored (run n ops).
Proof. revert n. induction ops as [|o ops IH]; intros n Hn; [done|]. apply IH. by apply anchored_step. Qed.

Lemma anchored_new : anchored new_network.
Proof. split_and!; [done|apply map_Forall_empty..]. Qed.

Lemma prune_loop_lookup n l k :
  commitments (prune_loop n l) !! k = (if decide (k ∈ l) then None else commitments n !! k) ∧
  payloads (prune_loop n l) !! k = (if decide (k ∈ l) then None else payloads n !! k).
Proof.
  revert n. induction l as [|x l IH]; intros n; cbn [prune_loop].
  { by rewrite !decide_False by apply not_elem_of_nil. }
  destruct (IH (mk_network (delete x (commitments n)) (delete x (payloads n)))) as [-> ->]. simpl.
  destruct (decide (k ∈ l)); [by rewrite !decide_True by (by right)|].
  destruct (decide (k = x)) as [->|Hne].
  - rewrite !lookup_delete_eq. by rewrite !decide_True by (by left).
  - rewrite !lookup_delete_ne by done. by rewrite !decide_False by (rewrite elem_of_cons; tauto).
Qed.

(** Pruning at [now] keeps exactly what has not expired. *)
Lemma prune_expired_lookup n now k :
  commitments (prune_expired n now).2 !! k =
    (c ← commitments n !! k; if retention_expired c now then None else Some c) ∧
  (∀ c, commitments n !! k = Some c → retention_expired c now = false →
     payloads (prune_expired n now).2 !! k = payloads n !! k).
Proof.
  unfold prune_expired. simpl.
  set (l := fst <$> filter (λ e, retention_expired e.2 now = true) (btree_entries (commitments n))).
  assert (k ∈ l ↔ ∃ c, commitments n !! k = Some c ∧ retention_expired c now = true) as Hl.
  { unfold l. rewrite list_elem_of_fmap. setoid_rewrite list_elem_of_filter. split.
    - intros ([k' c] & -> & He & Hin%elem_of_btree_entries). eauto.
    - intros (c & Hc & He). exists (k, c). by rewrite elem_of_btree_entries. }
  destruct (prune_loop_lookup n l k) as [-> ->]. split.
  - destruct (commitments n !! k) as [c|] eqn:E; simpl; [|by case_decide].
    destruct (retention_expired c now) eqn:Ee.
    + rewrite decide_True; [done|]. apply Hl. eauto.
    + rewrite decide_False; [done|]. rewrite Hl. intros (c' & ? & ?). congruence.
  - intros c Hc He. rewrite decide_False; [done|]. rewrite Hl. intros (c' & ? & ?). congruence.
Qed.

(** Later operations before [until] that do not store the same payload again. *)
Definition before (until : N) (k : Cid) (o : op) : Prop :=
  match o with Store p _ _ => Cid_of p ≠ k | Prune now => (now ≤ until)%N end.

Lemma kept_step n o k c p :
  commitments n !! k = Some c → payloads n !! k = Some p → before (retention_until c) k o →
  commitments (step n o) !! k = Some c ∧ payloads (step n o) !! k = Some p.
Proof.
  intros Hc Hp Hb. destruct o as [p' t now|now]; cbn [step before] in *.
  - simpl. by rewrite !lookup_insert_ne.
  - destruct (prune_expired_lookup n now k) as [E1 E2].
    assert (retention_expired c now = false) as He by (unfold retention_expired; rewrite bool_decide_false; [done|lia]).
    rewrite E1, (E2 c Hc He), Hc. simpl. by rewrite He.
Qed.

Lemma kept_run n ops k c p :
  commitments n !! k = Some c → payloads n !! k = Some p → Forall (before (retention_until c) k) ops →
  commitments (run n ops) !! k = Some c ∧ payloads (run n ops) !! k = Some p.
Proof.
  intros Hc Hp Hf. revert n Hc Hp. induction Hf as [|o ops Ho _ IH]; intros n Hc Hp; [done|].
  destruct (kept_step n o k c p Hc Hp Ho). by apply IH.
Qed.

(** The retention promise.  A stored payload stays retrievable under its
    content identifier through any later operations, as long as no pruning runs
    past its retention round and the same payload is not stored again under new
    terms; the retrieval returns the payload itself, and a response inside the
    retention and latency windows meets the service-level predicate.  In every
    reachable network a retrieval returns bytes whose identifier is the one asked
    for, and the predicate accepts no other bytes for that commitment, unless
    SHA3-256 collides on two different inputs. *)
Theorem da_retention ops1 ops2 p terms now requested responded :
  let n1 := run new_network ops1 in
  let k := Cid_of p in
  let c := mk_commitment k (wrap 64 (N.of_nat (length p))) now terms in
  let n2 := run (store n1 p terms now).2 ops2 in
  Forall (before (retention_until c) k) ops2 →
  (responded ≤ retention_until c)%N → (responded - requested ≤ max_retrieval_latency_rounds terms)%N →
  retrieve n2 k = Ok (c, p) ∧ verify_sla c requested responded p = Ok tt ∧
  (∀ p', verify_sla c requested responded p' = Ok tt → p' = p ∨ sha3_collision) ∧
  (∀ k' c' p', retrieve n2 k' = Ok (c', p') → cid c' = k' ∧ Cid_of p' = k').
Proof.
  intros n1 k c n2 Hb Hr Hl. destruct (kept_run (store n1 p terms now).2 ops2 k c p) as [Hc Hp];
    [simpl; by rewrite lookup_insert_eq..|done|]. fold n2 in Hc, Hp. split_and!.
  - unfold retrieve. by rewrite Hc, Hp.
  - unfold verify_sla. by rewrite !bool_decide_false by (simpl; lia || by intros ?).
  - intros p' E. unfold verify_sla in E. repeat (case_bool_decide; [done|]).
    simpl in *. match goal with Hx : Cid_of p' = _ |- _ => apply sha3_256_domain_inj in Hx as [[_ ->]|]; auto end; done.
  - intros k' c' p' E. unfold retrieve in E.
    assert (anchored n2) as (_ & Ha & Hb') by (apply anchored_run, anchored_store, anchored_run, anchored_new).
    destruct (commitments n2 !! k') as [x|] eqn:E1; simpl in E; [|done].
    destruct (payloads n2 !! k') as [y|] eqn:E2; simpl in E; [|done]. injection E as <- <-.
    split; [by eapply Ha|by eapply Hb'].
Qed.
End da.

Module DaExamples.
#[local] Instance toy_sha3 : Sha3 := {| sha3 := Toy.hash; sha3_length := blake3_length (Blake3 := Toy.toy_blake3) |}.
Definition later : list op := [Store [Byte.x02] DEFAULT_SLA 8; Prune 90].

Lemma da_retention_witness :
  retrieve (run (store (run new_network []) [Byte.x01] (mk_sla 100 5) 7).2 later) (Cid_of [Byte.x01]) =
    Ok (mk_commitment (Cid_of [Byte.x01]) 1 7 (mk_sla 100 5), [Byte.x01]).
Proof.
  apply (da_retention [] later [Byte.x01] (mk_sla 100 5) 7 20 22).
  - constructor; [vm_compute; discriminate|]. constructor; [vm_compute; discriminate|]. constructor.
  - vm_compute. discriminate.
  - vm_compute. discriminate.
Defined.
End DaExamples.
