(* ===== verification/RecordSet.v ===== *)
(** * Functional record update

    The node's state is a struct of some thirty fields that every handler
    updates one or two at a time.  [r <| p := v |>] replaces the field read by
    the projection [p]; each record declares its eta expansion once, and the
    setter of a field is derived from it. *)

From S2P Require Import Prelude.

(** A record with its eta expansion [λ r, mk (p1 r) (p2 r) ..]. *)
Class Eta (R : Type) := eta : R → R.
Class Setter {R T : Type} (p : R → T) := set_field : (T → T) → R → R.
#[global] Arguments set_field {R T} p {_} f r.

(** Rewrite the one occurrence of [p r] in the expansion to [f (p r)]. *)
Ltac derive_setter :=
  lazymatch goal with
  | |- @Setter ?R ?T ?p =>
      let f := fresh "f" in let r := fresh "r" in
      intros f r;
      let e := eval cbv [eta] in (eta r) in
      let e := lazymatch e with
               | ?i r => let b := eval cbv delta [i] in i in eval cbv beta in (b r)
               | _ => e
               end in
      lazymatch e with
      | context C [p r] => let t := context C [f (p r)] in exact t
      end
  end.

Notation "r <| p := v |>" := (set_field p (λ _, v) r)
  (at level 12, left associativity, p at level 9, v at level 200, format "r  <| p  :=  v |>").
Notation "r <| p ::= f |>" := (set_field p f r)
  (at level 12, left associativity, p at level 9, f at level 200, format "r  <| p  ::=  f |>").

Module RecordSetExample.
Record pair := mk { left_ : N; right_ : bool }.
#[global] Instance pair_eta : Eta pair := λ r, mk (left_ r) (right_ r).
#[global] Instance set_left : Setter left_ := ltac:(derive_setter).
#[global] Instance set_right : Setter right_ := ltac:(derive_setter).

Example set_get (r : pair) :
  left_ (r <| left_ := 3%N |>) = 3%N ∧ right_ (r <| left_ := 3%N |>) = right_ r ∧
  r <| right_ ::= negb |> = mk (left_ r) (negb (right_ r)).
Proof. split_and!; reflexivity. Qed.
End RecordSetExample.
