(* ===== verification/Governance.v ===== *)
(** * Intent authorisation ([crates/suwappu-node/src/client.rs], the verify gate)

    The signing digest of an intent, the resolution of a signer in the seated
    Authority Ring, the single-signature gate of ordinary intents and the
    dual-signature rule of governance intents, shared by both ingress wires and
    by the epoch-boundary application.

    [bincode] is a third-party crate: the encodings the node takes of its
    values are the members of the class [Bincode].  A result of type [option]
    is [None] when the [expect] on an encoding panics. *)

From Stdlib Require Import Strings.String.
From S2P Require Import Prelude Crypto Cert Dag Commit Joint Rings ExecTypes Substrate.
Import AuthorityRing(public_key_bytes).

Record GovAuth := mk_gov_auth {
  sponsor_pubkey_hash : bytes;
  sponsor_signature : bytes;
  co_signer_pubkey_hash : bytes;
  co_signature : bytes;
  candidate_pop_signature : bytes;
}.

(** The values [codec::encode] is applied to. *)
Class Bincode := {
  encode_intent : Intent → outcome string bytes;
  encode_intents : list Intent → outcome string bytes;
  encode_gov_auths : list (N * GovAuth) → outcome string bytes;
  encode_transfer_tail : Address * Balance → outcome string bytes;
}.

Inductive AuthOutcome :=
| Authorized
| UnknownSigner
| BadSignature
| GovernanceRequiresCoSignature.

Definition INTENT_DOMAIN_TAG : bytes := tag "SUWAPPU_INTENT_V1".

(** [x.expect(..)]. *)
Definition expect {E A} (x : outcome E A) : option A :=
  match x with Ok a => Some a | _ => None end.

Definition is_governance_intent (i : Intent) : bool :=
  match i with
  | AdmitAuthority _ _ _ _ | ExitAuthority _ | EjectAuthority _ _ => true
  | _ => false
  end.

Section governance.
Context `{Blake3, MlDsa65, Bincode}.

Definition intent_signing_digest (network_id : bytes) (i : Intent) : option bytes :=
  intent_bytes ← expect (encode_intent i);
  Some (blake3 (INTENT_DOMAIN_TAG ++ network_id ++ intent_bytes)).

Definition signer_pubkey_hash (pubkey_bytes : bytes) : bytes := blake3 pubkey_bytes.

(** The first seated member, in ascending id order, whose key has the hash. *)
Definition find_signer (r : AuthorityRegistry) (h : bytes) : option bytes :=
  public_key_bytes <$>
    head (filter (λ m, blake3 (public_key_bytes m) = h) (AuthorityRing.members_iter r)).

Definition verify_single_signature (r : AuthorityRegistry) (network_id : bytes) (i : Intent)
    (signature_bytes h : bytes) : option AuthOutcome :=
  match find_signer r h with
  | None => Some UnknownSigner
  | Some pubkey_bytes =>
      match mldsa.PublicKey_from_bytes pubkey_bytes with
      | Ok pubkey =>
          match mldsa.Signature_from_bytes signature_bytes with
          | Ok signature =>
              digest ← intent_signing_digest network_id i;
              Some (match mldsa.verify digest signature pubkey with
                    | Ok _ => Authorized
                    | _ => BadSignature
                    end)
          | _ => Some BadSignature
          end
      | _ => Some UnknownSigner
      end
  end.

Definition verify_signed_intent (r : AuthorityRegistry) (network_id : bytes) (i : Intent)
    (signature_bytes h : bytes) : option AuthOutcome :=
  if is_governance_intent i then Some GovernanceRequiresCoSignature
  else verify_single_signature r network_id i signature_bytes h.

(** The candidate's proof of possession, for [AdmitAuthority] only. *)
Definition verify_candidate_pop (network_id : bytes) (i : Intent) (auth : GovAuth)
    : option (outcome string unit) :=
  match i with
  | AdmitAuthority _ _ mldsa_public_key _ =>
      digest ← intent_signing_digest network_id i;
      Some (match mldsa.PublicKey_from_bytes mldsa_public_key with
            | Ok pubkey =>
                match mldsa.Signature_from_bytes (candidate_pop_signature auth) with
                | Ok signature =>
                    match mldsa.verify digest signature pubkey with
                    | Ok _ => Ok tt
                    | _ => Err "governed submit: candidate proof-of-possession signature invalid"%string
                    end
                | _ => Err "governed submit: malformed candidate PoP signature"%string
                end
            | _ => Err "governed submit: malformed candidate public key"%string
            end)
  | _ => Some (Ok tt)
  end.

Definition verify_governed_intent (r : AuthorityRegistry) (network_id : bytes) (i : Intent)
    (auth : GovAuth) : option (outcome string unit) :=
  if negb (is_governance_intent i)
  then Some (Err "governed submit: not a governance intent"%string)
  else
    sponsor ← verify_single_signature r network_id i (sponsor_signature auth) (sponsor_pubkey_hash auth);
    match sponsor with
    | UnknownSigner => Some (Err "governed submit: sponsor not a seated authority"%string)
    | BadSignature => Some (Err "governed submit: bad sponsor signature"%string)
    | GovernanceRequiresCoSignature => None
    | Authorized =>
        if bool_decide (co_signer_pubkey_hash auth = sponsor_pubkey_hash auth)
        then Some (Err "governed submit: co-signer must be a second, distinct seated authority"%string)
        else
          co ← verify_single_signature r network_id i (co_signature auth) (co_signer_pubkey_hash auth);
          match co with
          | UnknownSigner => Some (Err "governed submit: co-signer not a seated authority"%string)
          | BadSignature => Some (Err "governed submit: bad co-signature"%string)
          | GovernanceRequiresCoSignature => None
          | Authorized => verify_candidate_pop network_id i auth
          end
    end.

(** ** What an accepted envelope establishes *)

(** [sig] is a valid signature of the intent under the key bytes [pk]. *)
Definition signs (network_id : bytes) (i : Intent) (pk sig : bytes) : Prop :=
  ∃ digest, intent_signing_digest network_id i = Some digest ∧
    mldsa.PublicKey_from_bytes pk = Ok (mldsa.mk_pk pk) ∧
    mldsa.Signature_from_bytes sig = Ok (mldsa.mk_sig sig) ∧
    mldsa.verify digest (mldsa.mk_sig sig) (mldsa.mk_pk pk) = Ok tt.

(** [pk] is the registered key of the seated authority [a]. *)
Definition seated_key (r : AuthorityRegistry) (a : AuthorityId) (pk : bytes) : Prop :=
  ∃ m, AuthorityRing.members r !! a = Some m ∧ public_key_bytes m = pk.

Definition encodable (i : Intent) : Prop := ∃ b, encode_intent i = Ok b.

Lemma find_signer_Some r h pk :
  find_signer r h = Some pk → blake3 pk = h ∧ ∃ a, seated_key r a pk.
Proof.
  unfold find_signer. intros E.
  destruct (filter _ _) as [|m l] eqn:Ef; simplify_eq/=.
  assert (m ∈ m :: l) as Hm by constructor. rewrite <-Ef in Hm.
  apply list_elem_of_filter in Hm as [Hh Hm]. split; [done|].
  unfold AuthorityRing.members_iter, btree_values in Hm.
  apply list_elem_of_fmap in Hm as ([a m'] & -> & Hin).
  apply elem_of_btree_entries in Hin. exists a, m'. done.
Qed.

Lemma find_signer_None r h a m :
  find_signer r h = None → AuthorityRing.members r !! a = Some m → blake3 (public_key_bytes m) ≠ h.
Proof.
  unfold find_signer. intros E Hm Hh. destruct (filter _ _) as [|x l] eqn:Ef; [|done].
  assert (m ∈ filter (λ m, blake3 (public_key_bytes m) = h) (AuthorityRing.members_iter r)) as Hin.
  { apply list_elem_of_filter. split; [done|]. unfold AuthorityRing.members_iter, btree_values.
    apply list_elem_of_fmap. exists (a, m). split; [done|]. by apply elem_of_btree_entries. }
  rewrite Ef in Hin. by apply elem_of_nil in Hin.
Qed.

Lemma verify_single_Authorized r net i sig h :
  verify_single_signature r net i sig h = Some Authorized ↔
  ∃ pk, find_signer r h = Some pk ∧ signs net i pk sig.
Proof.
  unfold verify_single_signature, signs. destruct (find_signer r h) as [pk|]; [|naive_solver].
  unfold mldsa.PublicKey_from_bytes, mldsa.Signature_from_bytes. split.
  - intros E. exists pk. split; [done|].
    destruct (mldsa65_pk_parses pk) eqn:Epk; [|done].
    destruct (mldsa65_sig_parses sig) eqn:Esig; [|done].
    destruct (intent_signing_digest net i) as [d|]; [|done]. simpl in E. exists d.
    destruct (mldsa.verify d _ _) as [[]|?|]; done.
  - intros (pk' & [= <-] & d & -> & Epk & Esig & Ev). rewrite Epk, Esig. simpl. by rewrite Ev.
Qed.

Lemma verify_single_total r net i sig h :
  encodable i →
  ∃ o, verify_single_signature r net i sig h = Some o ∧ o ≠ GovernanceRequiresCoSignature.
Proof.
  intros [b Eb]. unfold verify_single_signature, intent_signing_digest. rewrite Eb. simpl.
  repeat case_match; eauto.
Qed.

Lemma verify_candidate_pop_Ok net i auth :
  verify_candidate_pop net i auth = Some (Ok tt) ↔
  ∀ a stake pk bls, i = AdmitAuthority a stake pk bls → signs net i pk (candidate_pop_signature auth).
Proof.
  unfold verify_candidate_pop. destruct i; try naive_solver.
  unfold signs, mldsa.PublicKey_from_bytes, mldsa.Signature_from_bytes.
  set (i := AdmitAuthority _ _ _ _). set (sig := candidate_pop_signature auth).
  rename mldsa_public_key into pk. split.
  - intros E a s p b [= _ _ <- _].
    destruct (intent_signing_digest net i) as [d|]; [|done]. simpl in E. exists d.
    destruct (mldsa65_pk_parses pk) eqn:Epk; [|done].
    destruct (mldsa65_sig_parses sig) eqn:Esig; [|done].
    destruct (mldsa.verify d _ _) as [[]|?|]; done.
  - intros Hs. destruct (Hs _ _ _ _ eq_refl) as (d & -> & Epk & Esig & Ev). simpl.
    rewrite Epk, Esig. by rewrite Ev.
Qed.

(** Two distinct seated authorities, and for an admission the candidate, signed
    the intent. *)
Definition approved (r : AuthorityRegistry) (net : bytes) (i : Intent) (auth : GovAuth) : Prop :=
  is_governance_intent i = true ∧
  (∃ a1 a2 pk1 pk2, a1 ≠ a2 ∧ pk1 ≠ pk2 ∧ seated_key r a1 pk1 ∧ seated_key r a2 pk2 ∧
     signs net i pk1 (sponsor_signature auth) ∧ signs net i pk2 (co_signature auth)) ∧
  (∀ a stake pk bls, i = AdmitAuthority a stake pk bls → signs net i pk (candidate_pop_signature auth)).

Lemma verify_governed_approved r net i auth :
  verify_governed_intent r net i auth = Some (Ok tt) → approved r net i auth.
Proof.
  unfold verify_governed_intent. destruct (is_governance_intent i) eqn:Eg; [|done]. simpl.
  destruct (verify_single_signature r net i (sponsor_signature auth) _) as [[]|] eqn:E1; try done. simpl.
  case_bool_decide as Hne; [done|].
  destruct (verify_single_signature r net i (co_signature auth) _) as [[]|] eqn:E2; try done. simpl.
  intros Hpop. split; [done|]. split; [|by apply verify_candidate_pop_Ok].
  apply verify_single_Authorized in E1 as (pk1 & F1 & S1), E2 as (pk2 & F2 & S2).
  apply find_signer_Some in F1 as (Eh1 & a1 & K1), F2 as (Eh2 & a2 & K2).
  assert (pk1 ≠ pk2) as Hpk by congruence.
  exists a1, a2, pk1, pk2. split_and!; try done.
  intros ->. destruct K1 as (m1 & ? & ?), K2 as (m2 & ? & ?). congruence.
Qed.

(** The dual-signature rule.  On an encodable intent the gate always
    decides; it accepts exactly when the intent is a governance intent, the two
    envelope hashes differ, each resolves to a seated key under which the
    corresponding signature of the intent verifies, and the admitted key signed
    too.  An accepted envelope carries the signatures of two different seated
    authorities with different keys; a single signature never authorises a
    governance intent. *)
Theorem governed_intent_spec r net i auth :
  encodable i →
  ∃ res, verify_governed_intent r net i auth = Some res ∧ res ≠ Panic ∧
    (res = Ok tt ↔
       is_governance_intent i = true ∧ sponsor_pubkey_hash auth ≠ co_signer_pubkey_hash auth ∧
       (∃ pk, find_signer r (sponsor_pubkey_hash auth) = Some pk ∧ signs net i pk (sponsor_signature auth)) ∧
       (∃ pk, find_signer r (co_signer_pubkey_hash auth) = Some pk ∧ signs net i pk (co_signature auth)) ∧
       (∀ a stake pk bls, i = AdmitAuthority a stake pk bls → signs net i pk (candidate_pop_signature auth))) ∧
    (res = Ok tt → approved r net i auth) ∧
    (is_governance_intent i = true →
       ∀ sig h, verify_signed_intent r net i sig h = Some GovernanceRequiresCoSignature).
Proof.
  intros Henc.
  assert (∃ res, verify_governed_intent r net i auth = Some res ∧ res ≠ Panic) as (res & E & Hp).
  { unfold verify_governed_intent. destruct (is_governance_intent i); simpl; [|eauto].
    destruct (verify_single_total r net i (sponsor_signature auth) (sponsor_pubkey_hash auth) Henc)
      as ([] & -> & ?); simpl; try done; eauto.
    case_bool_decide; [eauto|].
    destruct (verify_single_total r net i (co_signature auth) (co_signer_pubkey_hash auth) Henc)
      as ([] & -> & ?); simpl; try done; eauto.
    unfold verify_candidate_pop. destruct i; eauto. unfold intent_signing_digest.
    destruct Henc as [b ->]. simpl. repeat case_match; eauto. }
  exists res. split_and!; [done..| | |].
  - rewrite <-!verify_single_Authorized, <-verify_candidate_pop_Ok. split.
    + intros ->. revert E. unfold verify_governed_intent. destruct (is_governance_intent i); [|done]. simpl.
      destruct (verify_single_signature _ _ _ (sponsor_signature auth) _) as [[]|]; try done. simpl.
      case_bool_decide; [done|].
      destruct (verify_single_signature _ _ _ (co_signature auth) _) as [[]|]; done.
    + intros (Hg & Hne & E1 & E2 & E3). revert E. unfold verify_governed_intent.
      rewrite Hg, E1. simpl. rewrite bool_decide_false by done. rewrite E2. simpl. rewrite E3. congruence.
  - intros ->. by apply verify_governed_approved.
  - intros Hg sig h. unfold verify_signed_intent. by rewrite Hg.
Qed.
End governance.

#[global] Arguments encodable {_} i.
