(* ===== verification/NodeState.v ===== *)
(** * The node's state ([crates/suwappu-node]: [config.rs], [wire.rs] messages,
    the [State] of [daemon.rs])

    The genesis manifest, the messages that cross the wire, the daemon's state
    with its hot fields and the cold [StateInner], its construction from the
    manifest, and the small helpers the tasks share.

    A [HashMap] or [HashSet] is a [gmap] or a [gset]; where the code iterates
    one, the model iterates in the order of [map_to_list] and the theorems hold
    whatever the order is.  The signing material and caches of the bridge
    attestation endpoint are not part of the state. *)

From Stdlib Require Import Strings.Ascii Strings.String.
From stdpp Require Import strings.
From S2P Require Import Prelude Crypto Cert Dag Commit Joint Equivocation Rings FastPath Mempool ExecTypes.
From S2P Require Import Substrate Block Ltp RecordSet Governance.

(** The [hex] crate. *)
Class Hex := hex_decode : string → option bytes.

(** ** [config.rs] *)

Record GenesisPrebalance := mk_prebalance { address : string; balance_suwappu : N }.
Record SuperNodeConfig := mk_super_node { sn_authority : AuthorityId; sn_bls_public_key_hex : string }.
Record CorridorConfig := mk_corridor_config {
  cc_id : N;
  cc_source_chain : N;
  cc_target_chain : N;
  cc_members : list SuperNodeConfig;
}.
Record GenesisValidator := mk_genesis_validator {
  gv_authority_id : AuthorityId;
  gv_label : string;
  gv_mldsa_public_key_hex : string;
  gv_bls_public_key_hex : string;
  gv_validator_stake : N;
  gv_authority_stake : N;
}.
Record GenesisManifest := mk_manifest {
  network_id : bytes;
  manifest_validators : list GenesisValidator;
  manifest_corridors : list CorridorConfig;
  manifest_rounds_per_epoch : N;
  prebalances : list GenesisPrebalance;
}.

Inductive ConfigError :=
| MissingAuthority (id : AuthorityId)
| BadPrebalanceAddress (a : string)
| LabelMismatch (id : AuthorityId) (self_id manifest : string).

Definition validate_against (m : GenesisManifest) (cfg_authority_id : AuthorityId)
    (cfg_self_id : string) : outcome ConfigError GenesisValidator :=
  let! entry := ok_or (head (filter (λ v, gv_authority_id v = cfg_authority_id)
                        (manifest_validators m))) (MissingAuthority cfg_authority_id) in
  if bool_decide (gv_label entry ≠ cfg_self_id)
  then Err (LabelMismatch cfg_authority_id cfg_self_id (gv_label entry))
  else Ok entry.

(** [strip_prefix("0x")] removes one prefix. *)
Definition strip_0x (s : string) : string :=
  match s with
  | String "0"%char (String "x"%char rest) => rest
  | _ => s
  end.

Definition address_bytes `{Hex} (p : GenesisPrebalance) : outcome ConfigError Address :=
  match hex_decode (strip_0x (address p)) with
  | Some b => if bool_decide (length b = 20) then Ok b else Err (BadPrebalanceAddress (address p))
  | None => Err (BadPrebalanceAddress (address p))
  end.

(** ** Wire messages *)

Abbreviation PeerId := string (only parsing).

Record BlockPayload := mk_payload_block {
  bp_payload_digest : bytes;
  bp_author : AuthorityId;
  bp_round : Round;
  bp_cert_hash : CertHash;
  bp_intents : list Intent;
  bp_governance_auth : list (N * GovAuth);
}.

Inductive WireMessage :=
| WCert (c : Certificate)
| WBlock (b : BlockPayload)
| WVote (v : Vote)
| WGetCert (h : CertHash)
| WFastPath (c : FastPathCert)
| WLtp (a : CorridorAttestation)
| WPing (t : N)
| WPong (t : N)
| WGetTip
| WTip (r : Round)
| WGetCertsByRound (r : Round)
| WGetBlock (h : CertHash).

(** ** The daemon's state *)

Record EpochState := mk_epoch {
  current : N;
  rounds_per_epoch : N;
  last_boundary_round : Round;
}.

Definition epoch_for (e : EpochState) (round : Round) : N :=
  if bool_decide (rounds_per_epoch e = 0%N) then current e else (round / rounds_per_epoch e)%N.

Definition boundary_crossed_by (e : EpochState) (round : Round) : bool :=
  bool_decide (current e < epoch_for e round)%N.

Abbreviation FastPathKey := (OwnedObjectId * N)%type (only parsing).
Abbreviation CorridorId := N (only parsing).
Abbreviation ChainId := N (only parsing).

Record StateInner := mk_inner {
  substrate : InMemorySubstrate;
  last_authored_round : option Round;
  max_observed_round : Round;
  sync_tip : Round;
  n_authorities : N;
  orphans : gmap CertHash (list Certificate);
  inflight_fetches : gset CertHash;
  needed_blocks : gset CertHash;
  inflight_fetch_history : gmap CertHash (N * N);
  fastpath_pending : gmap FastPathKey FastPathCert;
  fastpath_committed : gset FastPathKey;
  fastpath_first_payload : gmap FastPathKey bytes;
  main_lane_index : list MainLaneTx;
  ltp_latest : gmap CorridorId AttestationPayload;
  ltp_received_count : N;
  corridors : gmap (ChainId * ChainId) Corridor;
  epoch : EpochState;
  pending_stake : gmap AuthorityId Stake;
  pending_governance : list (Intent * option GovAuth);
  seen_at : gmap (AuthorityId * Round) CertHash;
  detected_equivocations : list EquivocationProof;
  blocks_by_round : gmap Round CertHash;
  tx_to_block : gmap bytes (Round * CertHash * nat);
  latest_bridge_header : option (Round * bytes);
}.

#[global] Instance inner_eta : Eta StateInner := λ i,
  mk_inner (substrate i) (last_authored_round i) (max_observed_round i) (sync_tip i)
    (n_authorities i) (orphans i) (inflight_fetches i) (needed_blocks i)
    (inflight_fetch_history i) (fastpath_pending i) (fastpath_committed i)
    (fastpath_first_payload i) (main_lane_index i) (ltp_latest i) (ltp_received_count i)
    (corridors i) (epoch i) (pending_stake i) (pending_governance i) (seen_at i)
    (detected_equivocations i) (blocks_by_round i) (tx_to_block i) (latest_bridge_header i).
#[global] Instance set_substrate : Setter substrate := ltac:(derive_setter).
#[global] Instance set_last_authored_round : Setter last_authored_round := ltac:(derive_setter).
#[global] Instance set_max_observed_round : Setter max_observed_round := ltac:(derive_setter).
#[global] Instance set_sync_tip : Setter sync_tip := ltac:(derive_setter).
#[global] Instance set_n_authorities : Setter n_authorities := ltac:(derive_setter).
#[global] Instance set_orphans : Setter orphans := ltac:(derive_setter).
#[global] Instance set_inflight_fetches : Setter inflight_fetches := ltac:(derive_setter).
#[global] Instance set_needed_blocks : Setter needed_blocks := ltac:(derive_setter).
#[global] Instance set_inflight_fetch_history : Setter inflight_fetch_history := ltac:(derive_setter).
#[global] Instance set_fastpath_pending : Setter fastpath_pending := ltac:(derive_setter).
#[global] Instance set_fastpath_committed : Setter fastpath_committed := ltac:(derive_setter).
#[global] Instance set_fastpath_first_payload : Setter fastpath_first_payload := ltac:(derive_setter).
#[global] Instance set_main_lane_index : Setter main_lane_index := ltac:(derive_setter).
#[global] Instance set_ltp_latest : Setter ltp_latest := ltac:(derive_setter).
#[global] Instance set_ltp_received_count : Setter ltp_received_count := ltac:(derive_setter).
#[global] Instance set_epoch : Setter epoch := ltac:(derive_setter).
#[global] Instance set_pending_stake : Setter pending_stake := ltac:(derive_setter).
#[global] Instance set_pending_governance : Setter pending_governance := ltac:(derive_setter).
#[global] Instance set_seen_at : Setter seen_at := ltac:(derive_setter).
#[global] Instance set_detected_equivocations : Setter detected_equivocations := ltac:(derive_setter).
#[global] Instance set_blocks_by_round : Setter blocks_by_round := ltac:(derive_setter).
#[global] Instance set_tx_to_block : Setter tx_to_block := ltac:(derive_setter).
#[global] Instance set_latest_bridge_header : Setter latest_bridge_header := ltac:(derive_setter).

Abbreviation NodeMempool := (@Mempool LeakyBucket.LeakyBucket Intent) (only parsing).

Record State := mk_state {
  dag : DagStore;
  votes : gmap CertHash (list Vote);
  blocks : gmap CertHash BlockPayload;
  committed : gset CertHash;
  stake_table : StakeTable;
  authority_registry : AuthorityRegistry;
  validator_registry : ValidatorRegistry;
  inner : StateInner;
  mempool : NodeMempool;
  self_secret_key : mldsa.SecretKey;
  manifest_network_id : bytes;
  governance_envelopes : gmap bytes GovAuth;
}.

#[global] Instance state_eta : Eta State := λ s,
  mk_state (dag s) (votes s) (blocks s) (committed s) (stake_table s) (authority_registry s)
    (validator_registry s) (inner s) (mempool s) (self_secret_key s) (manifest_network_id s)
    (governance_envelopes s).
#[global] Instance set_dag : Setter dag := ltac:(derive_setter).
#[global] Instance set_votes : Setter votes := ltac:(derive_setter).
#[global] Instance set_blocks : Setter blocks := ltac:(derive_setter).
#[global] Instance set_committed : Setter committed := ltac:(derive_setter).
#[global] Instance set_stake_table : Setter stake_table := ltac:(derive_setter).
#[global] Instance set_authority_registry : Setter authority_registry := ltac:(derive_setter).
#[global] Instance set_validator_registry : Setter validator_registry := ltac:(derive_setter).
#[global] Instance set_inner : Setter inner := ltac:(derive_setter).
#[global] Instance set_mempool : Setter mempool := ltac:(derive_setter).
#[global] Instance set_governance_envelopes : Setter governance_envelopes := ltac:(derive_setter).

(** Update a field of the cold state in place. *)
Definition with_inner (f : StateInner → StateInner) (s : State) : State := s <| inner ::= f |>.

(** [MempoolConfig::default()]. *)
Definition default_mempool_config : MempoolConfig := mk_config (N.to_nat 10000) 60000 100 50.

Section construction.
Context `{Blake3, Hex}.

(** The keys of one corridor; [None] when a key is not hex. *)
Definition load_members (c : CorridorConfig) : option (list SuperNode) :=
  mapM (λ m, pk ← hex_decode (sn_bls_public_key_hex m);
             Some (mk_node (sn_authority m) (cc_id c) pk)) (cc_members c).

(** A corridor with a malformed key is dropped; a later corridor of the same
    chain pair replaces an earlier one. *)
Definition load_corridors (m : GenesisManifest) : gmap (ChainId * ChainId) Corridor :=
  foldl (λ out c,
    match load_members c with
    | Some ms => <[(cc_source_chain c, cc_target_chain c) := mk_corridor (cc_id c) ms]> out
    | None => out
    end) ∅ (manifest_corridors m).

(** One validator of the manifest: its stake is tabled whether or not the two
    rings accept it. *)
Definition seat_validator (acc : StakeTable * AuthorityRegistry * ValidatorRegistry)
    (v : GenesisValidator) : StakeTable * AuthorityRegistry * ValidatorRegistry :=
  let '(st, ar, vr) := acc in
  (StakeTable.insert st (gv_authority_id v) (gv_validator_stake v),
   (AuthorityRing.admit_member ar (AuthorityRing.mk_member (gv_authority_id v)
      (gv_authority_stake v) (default [] (hex_decode (gv_mldsa_public_key_hex v))))).2,
   (ValidatorRing.admit_member vr (ValidatorRing.mk_member (gv_authority_id v)
      (gv_validator_stake v))).2).

Definition genesis_allocations (m : GenesisManifest) : list (Address * Balance) :=
  omap (λ p, a ← expect (address_bytes p); Some (a, balance_suwappu p)) (prebalances m).

(** [None] is a panic inside the allocation. *)
Definition genesis_substrate (m : GenesisManifest) : option InMemorySubstrate :=
  match genesis_allocations m with
  | [] => Some Substrate.new
  | allocations =>
      match apply_intent (GenesisAllocation allocations) Substrate.new with
      | (Panic, _) => None
      | (_, s) => Some s
      end
  end.

Definition new_inner (m : GenesisManifest) (sub : InMemorySubstrate) : StateInner :=
  mk_inner sub None 0 0 (wrap 32 (N.of_nat (length (manifest_validators m)))) ∅ ∅ ∅ ∅ ∅ ∅ ∅ []
    ∅ 0 (load_corridors m) (mk_epoch 0 (manifest_rounds_per_epoch m) 0) ∅ [] ∅ [] ∅ ∅ None.

Definition new_state (m : GenesisManifest) (sk : mldsa.SecretKey) : option State :=
  sub ← genesis_substrate m;
  let '(st, ar, vr) := foldl seat_validator (StakeTable.new, AuthorityRing.new, ValidatorRing.new)
                         (manifest_validators m) in
  Some (mk_state DagStore.new ∅ ∅ ∅ st ar vr (new_inner m sub)
          (Mempool.new default_mempool_config) sk (network_id m) ∅).
End construction.

(** ** Helpers *)

Definition MAX_GOVERNANCE_ENVELOPES : nat := N.to_nat 4096.

Definition remember_governance_envelope (s : State) (h : bytes) (auth : GovAuth) : State :=
  if bool_decide (MAX_GOVERNANCE_ENVELOPES ≤ size (governance_envelopes s) ∧
                  governance_envelopes s !! h = None)
  then s
  else s <| governance_envelopes ::= <[h := auth]> |>.

Definition take_governance_envelope (s : State) (h : bytes) : option GovAuth * State :=
  (governance_envelopes s !! h, s <| governance_envelopes ::= delete h |>).

Definition fastpath_key (t : FastPathTx) : FastPathKey := (object t, nonce t).

Definition orphan_pull_backoff_ms (attempt : N) : N :=
  N.min (N.shiftl 500 (N.min (attempt - 1) 6)) 5000.

Section helpers.
Context `{Blake3, Bincode}.

(** [None] is the panic of [cert_at] on an unresolved hash. *)
Definition distinct_authors_at (d : DagStore) (round : Round) (n : N) : option N :=
  found ← mapM (cert_at d round) (range 0 n);
  Some (N.of_nat (length (omap id found))).

Definition parents_for_round (d : DagStore) (round : Round) (n : N) : option (list CertHash) :=
  if bool_decide (round = 0%N) then Some []
  else found ← mapM (cert_at d (round - 1)) (range 0 n); Some (omap id found).

(** [unwrap_or_default]: an encoding error hashes as the empty string. *)
Definition compute_payload_digest (is_ : list Intent) (auth : list (N * GovAuth)) : bytes :=
  blake3 (unwrap_or (encode_intents is_) [] ++ unwrap_or (encode_gov_auths auth) []).

Definition block_payload_is_consistent (b : BlockPayload) : bool :=
  bool_decide (compute_payload_digest (bp_intents b) (bp_governance_auth b) = bp_payload_digest b).

(** [n - 1] wraps on an empty committee. *)
Definition f_plus_one (n : N) : N := (wrap 32 (n + (width 32 - 1)) / 3 + 1)%N.

Definition corridor_id_fallback (p : AttestationPayload) : CorridorId :=
  let s := N.lxor (source_chain p) (target_chain p) in
  N.lxor (wrap 32 (N.shiftr s 32)) (wrap 32 s).

(** The object a main-lane transfer touches, for the fast-path window. *)
Definition intent_to_main_lane_tx (i : Intent) (round : Round) (lineage : CertHash)
    : option MainLaneTx :=
  match i with
  | Transfer from to_ amount =>
      payload_bytes ← expect (encode_transfer_tail (to_, amount));
      Some (mk_ml round (from ++ replicate (32 - length from) Byte.x00) (blake3 payload_bytes) lineage)
  | _ => None
  end.
End helpers.
