(* ===== verification/Wire.v ===== *)
(** * The peer wire ([crates/suwappu-node/src]: [codec.rs], [wire.rs])

    The version byte, the length-prefixed frames, the reader of an inbound
    connection with its hello, size caps and routing, the count of dynamic
    peers and the dialer's backoff.

    A TCP connection is the finite sequence of bytes the reader gets before the
    end of the stream.  [bincode] is a third-party crate: the class [WireFormat]
    holds the encodings of a message and of a peer label; decoding allows
    trailing bytes. *)

From Stdlib Require Import Strings.String.
From stdpp Require Import strings.
From S2P Require Import Prelude Crypto Cert Dag Commit Joint Equivocation Rings FastPath Mempool ExecTypes.
From S2P Require Import Substrate Block Ltp RecordSet Governance NodeState.

(** ** [codec.rs] *)

Class WireFormat := {
  encode_msg : WireMessage → outcome string bytes;
  decode_msg : bytes → outcome string WireMessage;
  encode_peer : PeerId → outcome string bytes;
  decode_peer : bytes → outcome string PeerId;
}.

Definition FRAME_VERSION_V1 : byte := Byte.x01.

Inductive FrameDecodeError :=
| FrameEmpty
| UnknownVersion (b : byte)
| FrameDecode (e : string).

Definition encode_frame {A} (encode : A → outcome string bytes) (value : A) : outcome string bytes :=
  let! body := encode value in Ok (FRAME_VERSION_V1 :: body).

Definition decode_frame {A} (decode : bytes → outcome string A) (b : bytes) : outcome FrameDecodeError A :=
  match b with
  | [] => Err FrameEmpty
  | version :: body =>
      if bool_decide (version ≠ FRAME_VERSION_V1) then Err (UnknownVersion version)
      else match decode body with
           | Ok v => Ok v
           | Err e => Err (FrameDecode e)
           | Panic => Panic
           end
  end.

(** ** Frames ([wire.rs]) *)

Definition MAX_FRAME_BYTES : N := 1024 * 1024.
Definition MAX_COMPACT_MESSAGE_BYTES : N := 64 * 1024.
Definition RECONNECT_MIN_MS : N := 50.
Definition RECONNECT_MAX_MS : N := 5000.
Definition MAX_DYNAMIC_PEERS : N := 64.

(** The end of the stream inside a frame body is an I/O error. *)
Inductive WireError :=
| WireEof
| WireDecode (e : FrameDecodeError)
| FrameTooLarge (len : N)
| Closed.

(** One frame from the front of the stream, and the rest of it. *)
Definition read_frame (stream : bytes) : outcome WireError (bytes * bytes) :=
  if bool_decide (length stream < 4) then Err Closed
  else
    let len := be_value (take 4 stream) in
    let rest := drop 4 stream in
    if bool_decide (MAX_FRAME_BYTES < len)%N then Err (FrameTooLarge len)
    else if bool_decide (N.of_nat (length rest) < len)%N then Err WireEof
    else Ok (take (N.to_nat len) rest, drop (N.to_nat len) rest).

(** The bytes written for a payload. *)
Definition write_frame (payload : bytes) : outcome WireError bytes :=
  let n := N.of_nat (length payload) in
  if bool_decide (MAX_FRAME_BYTES < n)%N then Err (FrameTooLarge n)
  else Ok (be_bytes 4 (wrap 32 n) ++ payload).

Definition enforce_compact_variant_cap (m : WireMessage) (frame_bytes : N) : bool :=
  match m with
  | WBlock _ => true
  | _ => bool_decide (frame_bytes <= MAX_COMPACT_MESSAGE_BYTES)%N
  end.

(** An event for the inbox; [reply] when the peer is dynamic. *)
Record WireEvent := mk_event { ev_from : PeerId; ev_msg : WireMessage; ev_reply : bool }.

(** What one frame delivers. *)
Definition deliver `{WireFormat} (from : PeerId) (reply : bool) (b : bytes)
    : outcome FrameDecodeError (option WireEvent) :=
  let! m := decode_frame decode_msg b in
  Ok (if enforce_compact_variant_cap m (N.of_nat (length b)) then Some (mk_event from m reply) else None).

(** The loop of the reader: the events in order and why it stopped.  Each frame
    takes at least its four length bytes, so [length stream] iterations are
    enough; [None] stands for running out of them or a panic in the decoder. *)
Fixpoint read_events `{WireFormat} (fuel : nat) (from : PeerId) (reply : bool) (stream : bytes)
    : option (list WireEvent * WireError) :=
  match fuel with
  | O => None
  | S fuel =>
      match read_frame stream with
      | Err e => Some ([], e)
      | Panic => None
      | Ok (b, rest) =>
          match deliver from reply b with
          | Err e => Some ([], WireDecode e)
          | Panic => None
          | Ok ev =>
              match read_events fuel from reply rest with
              | Some (evs, e) => Some (option_list ev ++ evs, e)
              | None => None
              end
          end
      end
  end.

(** How a connection is served. *)
Inductive Served :=
| NoHello (e : WireError)
| Configured (evs : list WireEvent) (e : WireError)
| Dynamic (evs : list WireEvent) (e : WireError)
| CapacityReached.

Definition read_loop `{WireFormat} (configured : gset PeerId) (dyn_count : N) (stream : bytes) : option Served :=
  match read_frame stream with
  | Err e => Some (NoHello e)
  | Panic => None
  | Ok (hello, rest) =>
      match decode_frame decode_peer hello with
      | Err e => Some (NoHello (WireDecode e))
      | Panic => None
      | Ok from =>
          if bool_decide (from ∈ configured) then
            '(evs, e) ← read_events (S (length rest)) from false rest; Some (Configured evs e)
          else if bool_decide (MAX_DYNAMIC_PEERS ≤ dyn_count)%N then Some CapacityReached
          else '(evs, e) ← read_events (S (length rest)) from true rest; Some (Dynamic evs e)
      end
  end.

(** The delay before dial attempt [k + 1], after [k] failures in a row. *)
Fixpoint dial_backoff_ms (k : nat) : N :=
  match k with
  | O => RECONNECT_MIN_MS
  | S k => N.min (dial_backoff_ms k * 2) RECONNECT_MAX_MS
  end.

(** ** Lemmas *)

Definition frame (payload : bytes) : bytes := be_bytes 4 (N.of_nat (length payload)) ++ payload.
Definition fits (payload : bytes) : Prop := (N.of_nat (length payload) ≤ MAX_FRAME_BYTES)%N.

Lemma fits_width payload : fits payload → (N.of_nat (length payload) < width 32)%N.
Proof. unfold fits. intros H. eapply N.le_lt_trans; [exact H|]. by apply N.ltb_lt. Qed.

Lemma write_frame_Ok payload : fits payload → write_frame payload = Ok (frame payload).
Proof.
  intros H. unfold write_frame, frame. rewrite bool_decide_false by (unfold fits in H; lia).
  by rewrite wrap_small by (by apply fits_width).
Qed.

Lemma width_32_bytes : width 32 = (256 ^ N.of_nat 4)%N.
Proof. reflexivity. Qed.

(** Reading what was written. *)
Lemma read_frame_app payload rest : fits payload → read_frame (frame payload ++ rest) = Ok (payload, rest).
Proof.
  intros H. unfold read_frame, frame. rewrite <-app_assoc.
  pose proof (length_be_bytes 4 (N.of_nat (length payload))) as L4.
  rewrite bool_decide_false by (rewrite !length_app, L4; lia).
  rewrite take_app_length', drop_app_length' by done.
  rewrite be_value_be_bytes by (rewrite <-width_32_bytes; by apply fits_width).
  unfold fits in H. rewrite bool_decide_false by lia. rewrite bool_decide_false by (rewrite length_app; lia).
  rewrite Nnat.Nat2N.id. by rewrite take_app_length, drop_app_length.
Qed.

(** The only way to read a frame. *)
Lemma read_frame_inv stream payload rest :
  read_frame stream = Ok (payload, rest) → stream = frame payload ++ rest ∧ fits payload.
Proof.
  unfold read_frame. case_bool_decide as H4; [done|]. case_bool_decide as Hm; [done|].
  case_bool_decide as Hl; [done|]. intros [= <- <-].
  set (len := be_value (take 4 stream)) in *.
  assert (N.of_nat (length (take (N.to_nat len) (drop 4 stream))) = len) as El by (rewrite length_take; lia).
  split; [|unfold fits; lia]. unfold frame. rewrite El, <-app_assoc, take_drop.
  rewrite <-(take_drop 4 stream) at 1. f_equal. subst len.
  rewrite <-(be_bytes_be_value (take 4 stream)) at 1. by rewrite length_take_le by lia.
Qed.

Lemma length_frame b : length (frame b) = 4 + length b.
Proof. unfold frame. by rewrite length_app, length_be_bytes. Qed.

Lemma frames_longer (ps : list bytes) : length ps ≤ length (mjoin (frame <$> ps)).
Proof.
  induction ps as [|b ps IH]; [done|].
  change (mjoin (frame <$> b :: ps)) with (frame b ++ mjoin (frame <$> ps)).
  rewrite length_app, length_frame. change (length (b :: ps)) with (S (length ps)). lia.
Qed.

Lemma read_frame_shorter stream payload rest :
  read_frame stream = Ok (payload, rest) → length rest < length stream.
Proof.
  intros [-> _]%read_frame_inv. rewrite length_app, length_frame. lia.
Qed.

Lemma encode_frame_decode {A} (enc : A → outcome string bytes) dec v b :
  encode_frame enc v = Ok b → (∀ body, enc v = Ok body → dec body = Ok v) → decode_frame dec b = Ok v.
Proof.
  unfold encode_frame. destruct (enc v) as [body|?|]; [|done..]. simpl. intros [= <-] Hd. simpl.
  by rewrite (Hd body).
Qed.

Section reader.
Context `{HF : WireFormat}.

(** How a run of the reader splits its stream: complete frames, each delivering
    at most one event, then the reason to stop. *)
Inductive reads (from : PeerId) (reply : bool) : bytes → list bytes → list WireEvent → WireError → Prop :=
| reads_stop stream e : read_frame stream = Err e → reads from reply stream [] [] e
| reads_bad payload rest e :
    fits payload → deliver from reply payload = Err e →
    reads from reply (frame payload ++ rest) [payload] [] (WireDecode e)
| reads_frame payload rest ev ps evs e :
    fits payload → deliver from reply payload = Ok ev → reads from reply rest ps evs e →
    reads from reply (frame payload ++ rest) (payload :: ps) (option_list ev ++ evs) e.

(** The decoder returns. *)
Definition no_panic : Prop := ∀ b, decode_msg b ≠ Panic.

Lemma deliver_no_panic from reply b : no_panic → deliver from reply b ≠ Panic.
Proof.
  intros Hp. unfold deliver, decode_frame. destruct b as [|v body]; [done|].
  case_bool_decide; [done|]. specialize (Hp body). by destruct (decode_msg body).
Qed.

Lemma read_events_reads fuel from reply stream :
  no_panic → length stream < fuel →
  ∃ ps evs e, read_events fuel from reply stream = Some (evs, e) ∧ reads from reply stream ps evs e.
Proof.
  intros Hp. revert stream. induction fuel as [|fuel IH]; intros stream Hl; [lia|]. simpl.
  destruct (read_frame stream) as [[b rest]|e|] eqn:Er.
  - pose proof (read_frame_shorter _ _ _ Er). apply read_frame_inv in Er as [-> Hf].
    pose proof (deliver_no_panic from reply b Hp).
    destruct (deliver from reply b) as [ev|e|] eqn:Ed; [|..|done].
    + destruct (IH rest) as (ps & evs & e & -> & Hr); [lia|].
      exists (b :: ps), (option_list ev ++ evs), e. split; [done|]. by constructor.
    + exists [b], [], (WireDecode e). split; [done|]. by constructor.
  - exists [], [], e. split; [done|]. by constructor.
  - exfalso. revert Er. unfold read_frame. by repeat case_bool_decide.
Qed.

(** An event of a frame, under the caps. *)
Definition within_caps (from : PeerId) (reply : bool) (b : bytes) (ev : WireEvent) : Prop :=
  fits b ∧ ev_from ev = from ∧ ev_reply ev = reply ∧ decode_frame decode_msg b = Ok (ev_msg ev) ∧
  ((∃ bl, ev_msg ev = WBlock bl) ∨ (N.of_nat (length b) ≤ MAX_COMPACT_MESSAGE_BYTES)%N).

Lemma deliver_within from reply b ev :
  fits b → deliver from reply b = Ok (Some ev) → within_caps from reply b ev.
Proof.
  intros Hf. unfold deliver, within_caps. destruct (decode_frame decode_msg b) as [m|?|]; [|done..]. simpl.
  destruct (enforce_compact_variant_cap m _) eqn:Ec; [|done]. intros [= <-]. simpl. split_and!; try done.
  destruct m; simpl in Ec; try (right; by apply bool_decide_eq_true in Ec). left. eauto.
Qed.

Lemma reads_within from reply stream ps evs e :
  reads from reply stream ps evs e →
  (∀ ev, ev ∈ evs → ∃ b, b ∈ ps ∧ within_caps from reply b ev) ∧ length evs ≤ length ps ∧
  ∃ rest, stream = mjoin (frame <$> ps) ++ rest.
Proof.
  induction 1 as [stream e _|b rest e Hf _|b rest ev ps evs e Hf Hd _ (IH1 & IH2 & IH3)].
  - split_and!; [set_solver|simpl; lia|by exists stream].
  - split_and!; [set_solver|simpl; lia|exists rest; simpl; by rewrite app_nil_r].
  - split_and!.
    + intros ev' [Hev|Hev]%elem_of_app.
      * destruct ev as [x|]; simpl in Hev; [|by apply elem_of_nil in Hev].
        apply list_elem_of_singleton in Hev as ->. exists b. split; [left|]. by apply deliver_within.
      * destruct (IH1 ev' Hev) as (b' & ? & ?). exists b'. split; [by right|done].
    + rewrite length_app. destruct ev; simpl; lia.
    + destruct IH3 as [tl ->]. exists tl. simpl. by rewrite <-app_assoc.
Qed.

(** What the reader of a connection promises, by the way it was served. *)
Definition serves (configured : gset PeerId) (dyn_count : N) (stream : bytes) (r : Served) : Prop :=
  match r with
  | NoHello e =>
      read_frame stream = Err e ∨
      ∃ hello rest e', read_frame stream = Ok (hello, rest) ∧ decode_frame decode_peer hello = Err e' ∧
        e = WireDecode e'
  | CapacityReached =>
      ∃ hello rest from, stream = frame hello ++ rest ∧ decode_frame decode_peer hello = Ok from ∧
        from ∉ configured ∧ (MAX_DYNAMIC_PEERS ≤ dyn_count)%N
  | Configured evs e | Dynamic evs e =>
      ∃ hello rest from ps, stream = frame hello ++ rest ∧ decode_frame decode_peer hello = Ok from ∧
        let reply := match r with Dynamic _ _ => true | _ => false end in
        (if reply then from ∉ configured ∧ (dyn_count < MAX_DYNAMIC_PEERS)%N else from ∈ configured) ∧
        reads from reply rest ps evs e ∧
        (∀ ev, ev ∈ evs → ∃ b, b ∈ ps ∧ within_caps from reply b ev) ∧ length evs ≤ length ps
  end.

(** C32. The connection reader.  On any bytes a peer may send, when the decoder
    returns, the reader returns.  It consumes a hello and then whole frames of
    at most 1 MiB, in order, stopping at the first incomplete, oversized or
    undecodable one; each frame delivers at most one event, labelled with the
    peer of the hello, and a message other than a block only when its frame is
    at most 64 KiB; a peer outside the configured set is served, with a reply
    channel, only while fewer than 64 dynamic peers are counted. *)
Theorem reader_spec configured dyn_count stream :
  no_panic → (∀ b, decode_peer b ≠ Panic) →
  ∃ r, read_loop configured dyn_count stream = Some r ∧ serves configured dyn_count stream r.
Proof.
  intros Hp Hpp. unfold read_loop.
  destruct (read_frame stream) as [[hello rest]|e|] eqn:Er.
  2: { exists (NoHello e). split; [done|]. by left. }
  2: { exfalso. revert Er. unfold read_frame. by repeat case_bool_decide. }
  destruct (decode_frame decode_peer hello) as [from|e|] eqn:Ed.
  2: { exists (NoHello (WireDecode e)). split; [done|]. right. by exists hello, rest, e. }
  2: { exfalso. revert Ed. unfold decode_frame. destruct hello as [|v body]; [done|].
       case_bool_decide; [done|]. specialize (Hpp body). by destruct (decode_peer body). }
  apply read_frame_inv in Er as [-> _].
  assert (∀ reply, ∃ ps evs e, read_events (S (length rest)) from reply rest = Some (evs, e) ∧
    reads from reply rest ps evs e ∧ (∀ ev, ev ∈ evs → ∃ b, b ∈ ps ∧ within_caps from reply b ev) ∧
    length evs ≤ length ps) as Hev.
  { intros reply. destruct (read_events_reads (S (length rest)) from reply rest Hp) as (ps & evs & e & E & Hr); [lia|].
    destruct (reads_within _ _ _ _ _ _ Hr) as (? & ? & _). by exists ps, evs, e. }
  case_bool_decide as Hc.
  - destruct (Hev false) as (ps & evs & e & -> & ?). exists (Configured evs e). split; [done|].
    by exists hello, rest, from, ps.
  - case_bool_decide as Hn; [exists CapacityReached; split; [done|]; by exists hello, rest, from|].
    destruct (Hev true) as (ps & evs & e & -> & ?). exists (Dynamic evs e). split; [done|].
    exists hello, rest, from, ps. simpl. split_and!; try naive_solver lia.
Qed.

(** *** Round trip *)

(** A message that survives its encoding and fits a frame. *)
Record transmissible (m : WireMessage) (b : bytes) : Prop := {
  tr_encode : encode_frame encode_msg m = Ok b;
  tr_decode : ∀ body, encode_msg m = Ok body → decode_msg body = Ok m;
  tr_fits : fits b;
}.

Definition delivered (from : PeerId) (reply : bool) (mb : WireMessage * bytes) : option WireEvent :=
  if enforce_compact_variant_cap mb.1 (N.of_nat (length mb.2)) then Some (mk_event from mb.1 reply) else None.

Lemma reads_written fuel from reply l :
  Forall (λ mb, transmissible mb.1 mb.2) l → length l < fuel →
  read_events fuel from reply (mjoin (frame <$> l.*2)) = Some (omap (delivered from reply) l, Closed).
Proof.
  revert fuel. induction l as [|[m b] l IH]; intros fuel Hl Hf; (destruct fuel as [|fuel]; [simpl in Hf; lia|]).
  { done. }
  apply Forall_cons in Hl as [[He Hd Hb] Hl]. cbn [fmap list_fmap mjoin list_join snd].
  cbn [read_events]. cbn [fst snd] in He, Hd, Hb. rewrite read_frame_app by done.
  unfold deliver. rewrite (encode_frame_decode _ _ _ _ He Hd). simpl.
  rewrite IH by (done || (simpl in Hf; lia)). f_equal. f_equal. unfold delivered at 2. simpl.
  by destruct (enforce_compact_variant_cap m _).
Qed.

End reader.

(** ** Reconnecting *)

Lemma dial_backoff_closed k : dial_backoff_ms k = N.min (50 * 2 ^ N.of_nat k) 5000.
Proof.
  induction k as [|k IH]; [done|]. cbn [dial_backoff_ms]. rewrite IH.
  replace (N.of_nat (S k)) with (N.succ (N.of_nat k)) by lia. rewrite N.pow_succ_r'.
  unfold RECONNECT_MAX_MS. lia.
Qed.

(** ** The count of dynamic peers *)

(** The shared counter, the connections that passed the check but are not yet
    counted, and the ones being served.  The check and the increment are two
    operations. *)
Record DynPeers := mk_dyn { dyn_counter : N; checked : nat; serving_dyn : nat }.

Inductive dyn_step : DynPeers → DynPeers → Prop :=
| dyn_load c p s : (c < MAX_DYNAMIC_PEERS)%N → dyn_step (mk_dyn c p s) (mk_dyn c (S p) s)
| dyn_add c p s : dyn_step (mk_dyn c (S p) s) (mk_dyn (c + 1) p (S s))
| dyn_sub c p s : dyn_step (mk_dyn c p (S s)) (mk_dyn (c - 1) p s).

Lemma dyn_counts d :
  rtc dyn_step (mk_dyn 0 0 0) d → dyn_counter d = N.of_nat (serving_dyn d).
Proof.
  intros Hr. remember (mk_dyn 0 0 0) as d0 eqn:E0.
  assert (dyn_counter d0 = N.of_nat (serving_dyn d0)) as H0 by (by subst). clear E0.
  induction Hr as [|d0 d1 d2 Hs _ IH]; [done|]. apply IH. destruct Hs; simpl in *; lia.
Qed.

(** The bound the constant documents is not kept: connections that check before
    any of them is counted all pass. *)
Theorem dynamic_cap_exceeded n : ∃ d, rtc dyn_step (mk_dyn 0 0 0) d ∧ serving_dyn d = n.
Proof.
  assert (∀ k, rtc dyn_step (mk_dyn 0 0 0) (mk_dyn 0 k 0)) as H1.
  { induction k as [|k IH]; [constructor|]. eapply rtc_r; [exact IH|]. by constructor. }
  assert (∀ k p c s, rtc dyn_step (mk_dyn c (k + p) s) (mk_dyn (c + N.of_nat k) p (k + s))) as H2.
  { induction k as [|k IH]; intros p c s.
    - replace (c + N.of_nat 0)%N with c by lia. constructor.
    - eapply rtc_l; [apply dyn_add|]. replace (c + N.of_nat (S k))%N with (c + 1 + N.of_nat k)%N by lia.
      replace (S k + s) with (k + S s) by lia. apply IH. }
  exists (mk_dyn (N.of_nat n) 0 n). split; [|done].
  etrans; [apply (H1 n)|]. pose proof (H2 n 0 0%N 0) as H. by rewrite !Nat.add_0_r in H.
Qed.

(** ** Concrete wires *)
Module WireExamples.
(** Pings and labels of one byte. *)
#[local] Instance toy_format : WireFormat := {|
  encode_msg m := match m with WPing t => Ok (be_bytes 8 t) | WBlock _ => Ok [] | _ => Err "unsupported"%string end;
  decode_msg b := if bool_decide (length b = 8) then Ok (WPing (be_value b)) else Err "length"%string;
  encode_peer p := Ok (be_bytes 1 (N.of_nat (String.length p)));
  decode_peer b := if bool_decide (b = [Byte.x01]) then Ok "a"%string else Err "label"%string;
|}.

Lemma reader_spec_witness :
  ∃ r, read_loop ∅ 0 [Byte.x00; Byte.x00; Byte.x00; Byte.x02; Byte.x01; Byte.x01; Byte.xff] = Some r ∧
    serves ∅ 0 [Byte.x00; Byte.x00; Byte.x00; Byte.x02; Byte.x01; Byte.x01; Byte.xff] r ∧ r = Dynamic [] Closed.
Proof.
  destruct (reader_spec ∅ 0 [Byte.x00; Byte.x00; Byte.x00; Byte.x02; Byte.x01; Byte.x01; Byte.xff])
    as (r & E & Hs).
  - intros b. simpl. by case_bool_decide.
  - intros b. simpl. by case_bool_decide.
  - exists r. split; [exact E|]. split; [exact Hs|]. vm_compute in E. by injection E as <-.
Defined.

Definition ping (t : N) : WireMessage * bytes := (WPing t, Byte.x01 :: be_bytes 8 t).

End WireExamples.
