(* ===== verification/Ingest.v ===== *)
(** * Certificate ingestion ([ingest_cert] of [crates/suwappu-node/src/daemon.rs])

    The signature gate, insertion into the DAG with the bookkeeping that goes
    with it (block eviction, stake promotion, incremental equivocation
    detection), the bounded orphan buffer, and the cascade through the orphans
    an insertion unblocks.

    The [while let Some(c) = work.pop()] loop carries fuel; [ingest_fuel] is
    quadratic in the number of certificates in play and always enough
    ([ingest_terminates]). *)

From Stdlib Require Import Strings.String.
From S2P Require Import Prelude Crypto Cert Dag Commit Joint Equivocation Rings FastPath Mempool ExecTypes.
From S2P Require Import Substrate Block Ltp RecordSet Governance NodeState.
Import DagStore(certs).

Definition MAX_ORPHAN_CERTS : N := 4096.

(** What a task hands to the transport. *)
Inductive Output :=
| Reply (to_ : PeerId) (m : WireMessage)
| Broadcast (m : WireMessage)
| FetchCert (h : CertHash) (prefer : option PeerId).

Record IngestedCert := mk_ingested { ic_hash : CertHash; ic_round : Round }.

(** [inner.orphans.values().map(|v| v.len()).sum()]. *)
Definition orphan_count (i : StateInner) : N :=
  map_weight (λ _ v, N.of_nat (length v)) (orphans i).

Section ingest.
Context `{Blake3, MlDsa65}.

(** The incremental equivocation check of a certificate just stored. *)
Definition record_seen (author : AuthorityId) (round : Round) (h : CertHash) (i : StateInner)
    : StateInner :=
  match seen_at i !! (author, round) with
  | None => i <| seen_at ::= <[(author, round) := h]> |>
  | Some prev =>
      if bool_decide (prev ≠ h)
      then i <| detected_equivocations ::= (λ l, l ++ [mk_proof author round prev h]) |>
      else i
  end.

(** Drop a stored block that does not carry the payload the certificate signs. *)
Definition evict_mismatched (h : CertHash) (digest : bytes) (bs : gmap CertHash BlockPayload)
    : gmap CertHash BlockPayload :=
  match bs !! h with
  | Some b => if bool_decide (bp_payload_digest b ≠ digest) then delete h bs else bs
  | None => bs
  end.

(** The update of the cold state on insertion, without the orphan removal. *)
Definition note_inserted (c : Certificate) (h : CertHash) (i : StateInner) : StateInner :=
  let round := Certificate.round c in
  let author := Certificate.author c in
  let i1 := if bool_decide (max_observed_round i < round)%N
            then i <| max_observed_round := round |> else i in
  let i2 := i1 <| inflight_fetches ::= (λ X, X ∖ {[h]}) |> <| inflight_fetch_history ::= delete h |> in
  let promoted := pending_stake i2 !! author in
  let i3 := i2 <| pending_stake ::= delete author |> in
  let i4 := if promoted then i3 <| n_authorities ::= (λ n, saturating_add 32 n 1) |> else i3 in
  record_seen author round h i4.

(** The [Ok] arm: the new state and the orphans to retry. *)
Definition on_inserted (c : Certificate) (h : CertHash) (d' : DagStore) (s : State)
    : State * list Certificate :=
  let promoted := pending_stake (inner s) !! Certificate.author c in
  let s1 := s <| dag := d' |> <| blocks ::= evict_mismatched h (Certificate.payload_digest c) |> in
  let i1 := note_inserted c h (inner s1) in
  let unblocked := default [] (orphans i1 !! h) in
  let s2 := s1 <| inner := i1 <| orphans ::= delete h |> |> in
  let s3 := match promoted with
            | Some stake => s2 <| stake_table ::= (λ t, StakeTable.insert t (Certificate.author c) stake) |>
            | None => s2
            end in
  (s3, unblocked).

(** The [UnknownParent] arm. *)
Definition on_orphan (c : Certificate) (missing : CertHash) (from : PeerId) (now_ms : N) (s : State)
    : State * list Output :=
  let i := inner s in
  if bool_decide (MAX_ORPHAN_CERTS ≤ orphan_count i)%N then (s, [])
  else
    let i1 := i <| orphans ::= (λ m, <[missing := default [] (m !! missing) ++ [c]]> m) |> in
    if bool_decide (missing ∈ inflight_fetches i1) then (s <| inner := i1 |>, [])
    else (s <| inner := i1 <| inflight_fetches ::= (λ X, {[missing]} ∪ X) |>
                           <| inflight_fetch_history ::= <[missing := (now_ms, 1%N)]> |> |>,
          [FetchCert missing (Some from)]).

(** The author's registered key, if it parses. *)
Definition author_pubkey (r : AuthorityRegistry) (a : AuthorityId) : option mldsa.PublicKey :=
  m ← AuthorityRing.get r a;
  expect (mldsa.PublicKey_from_bytes (AuthorityRing.public_key_bytes m)).

(** One iteration of the loop: what was inserted, what to retry, what to send. *)
Definition ingest_one (s : State) (from : PeerId) (now_ms : N) (c : Certificate)
    : State * list IngestedCert * list Certificate * list Output :=
  let h := Certificate.hash c in
  match author_pubkey (authority_registry s) (Certificate.author c) with
  | None => (s, [], [], [])
  | Some pk =>
      if Certificate.verify_signature c pk then
        match DagStore.insert (dag s) c with
        | (Ok _, d') =>
            let '(s', unblocked) := on_inserted c h d' s in
            (s', [mk_ingested h (Certificate.round c)], unblocked, [])
        | (Err (DagStore.UnknownParent missing), _) =>
            let '(s', outs) := on_orphan c missing from now_ms s in
            (s', [], [], outs)
        | _ => (s, [], [], [])
        end
      else (s, [], [], [])
  end.

(** The head of [work] is the top of the stack. *)
Fixpoint ingest_loop (fuel : nat) (s : State) (from : PeerId) (now_ms : N) (work : list Certificate)
    (inserted : list IngestedCert) (outs : list Output)
    : option (State * list IngestedCert * list Output) :=
  match work with
  | [] => Some (s, inserted, outs)
  | c :: work' =>
      match fuel with
      | O => None
      | S fuel' =>
          let '(s', ins, unblocked, os) := ingest_one s from now_ms c in
          ingest_loop fuel' s' from now_ms (rev unblocked ++ work') (inserted ++ ins) (outs ++ os)
      end
  end.

Definition ingest_fuel (s : State) : nat :=
  let t := 1 + N.to_nat (orphan_count (inner s)) in t * (1 + t) + 2.

Definition ingest_cert (s : State) (c : Certificate) (from : PeerId) (now_ms : N)
    : option (State * list IngestedCert * list Output) :=
  ingest_loop (ingest_fuel s) s from now_ms [c] [] [].

(** ** Lemmas *)

Lemma orphan_count_push i missing c (i1 := i <| orphans ::= (λ m, <[missing := default [] (m !! missing) ++ [c]]> m) |>) :
  orphan_count i1 = (orphan_count i + 1)%N.
Proof.
  unfold orphan_count. subst i1. simpl.
  pose proof (map_weight_insert (λ _ v, N.of_nat (length v)) (orphans i) missing
    (default [] (orphans i !! missing) ++ [c])) as Hw.
  unfold weight_at in Hw. destruct (orphans i !! missing) as [l|]; simpl in *;
    rewrite ?length_app in Hw; simpl in Hw; lia.
Qed.

Lemma orphan_count_pop i h :
  (orphan_count (i <| orphans ::= delete h |>) + N.of_nat (length (default [] (orphans i !! h))))%N
  = orphan_count i.
Proof.
  unfold orphan_count. simpl.
  rewrite <-(map_weight_delete (λ _ v, N.of_nat (length v)) (orphans i) h). f_equal.
  unfold weight_at. by destruct (orphans i !! h).
Qed.

Lemma note_inserted_orphans c h i : orphans (note_inserted c h i) = orphans i.
Proof.
  unfold note_inserted, record_seen. repeat case_match; simpl; try done; by repeat case_bool_decide.
Qed.

(** What ingestion leaves alone. *)
Record same_governance (s s' : State) : Prop := {
  sg_registry : authority_registry s' = authority_registry s;
  sg_validators : validator_registry s' = validator_registry s;
  sg_votes : votes s' = votes s;
  sg_committed : committed s' = committed s;
  sg_mempool : mempool s' = mempool s;
  sg_envelopes : governance_envelopes s' = governance_envelopes s;
  sg_network : manifest_network_id s' = manifest_network_id s;
  sg_key : self_secret_key s' = self_secret_key s;
}.

#[global] Instance same_governance_preorder : PreOrder same_governance.
Proof.
  split; [by constructor|].
  intros s1 s2 s3 [? ? ? ? ? ? ? ?] [? ? ? ? ? ? ? ?]. constructor; congruence.
Qed.

Lemma on_inserted_fields c h d' s s' un :
  on_inserted c h d' s = (s', un) →
  same_governance s s' ∧ dag s' = d' ∧
  blocks s' = evict_mismatched h (Certificate.payload_digest c) (blocks s) ∧
  inner s' = note_inserted c h (inner s) <| orphans ::= delete h |> ∧
  un = default [] (orphans (inner s) !! h).
Proof.
  unfold on_inserted. intros [= <- <-].
  rewrite note_inserted_orphans. destruct (pending_stake (inner s) !! _); split_and!; done.
Qed.

Lemma on_orphan_fields c missing from now s s' outs :
  (orphan_count (inner s) < MAX_ORPHAN_CERTS)%N →
  on_orphan c missing from now s = (s', outs) →
  same_governance s s' ∧ dag s' = dag s ∧ blocks s' = blocks s ∧
  orphans (inner s') = <[missing := default [] (orphans (inner s) !! missing) ++ [c]]> (orphans (inner s)) ∧
  inflight_fetches (inner s') = {[missing]} ∪ inflight_fetches (inner s) ∧
  seen_at (inner s') = seen_at (inner s) ∧
  detected_equivocations (inner s') = detected_equivocations (inner s).
Proof.
  intros Hlt. unfold on_orphan. rewrite bool_decide_false by lia.
  case_bool_decide as Hm; intros [= <- <-]; split_and!; simpl in *; try done; set_solver.
Qed.

(** The three outcomes of one iteration. *)
Definition authentic (s : State) (c : Certificate) : Prop :=
  ∃ pk, author_pubkey (authority_registry s) (Certificate.author c) = Some pk ∧
        Certificate.verify_signature c pk = true.

Inductive ingested (s : State) (from : PeerId) (now_ms : N) (c : Certificate)
    : State * list IngestedCert * list Certificate * list Output → Prop :=
| ingest_dropped :
    (¬ authentic s c ∨ Certificate.hash c ∈ dom (certs (dag s)) ∨
     (Certificate.round c = 0%N ∧ Certificate.parents c ≠ []) ∨
     (∃ p pc, p ∈ Certificate.parents c ∧ certs (dag s) !! p = Some pc ∧
              (Certificate.round c ≤ Certificate.round pc)%N) ∨
     ((MAX_ORPHAN_CERTS ≤ orphan_count (inner s))%N ∧
      ∃ p, p ∈ Certificate.parents c ∧ certs (dag s) !! p = None)) →
    ingested s from now_ms c (s, [], [], [])
| ingest_inserted s' un :
    authentic s c → DagStore.admissible (dag s) c →
    on_inserted c (Certificate.hash c) (DagStore.insert_result (dag s) c) s = (s', un) →
    ingested s from now_ms c (s', [mk_ingested (Certificate.hash c) (Certificate.round c)], un, [])
| ingest_parked missing s' outs :
    authentic s c → missing ∈ Certificate.parents c → certs (dag s) !! missing = None →
    (orphan_count (inner s) < MAX_ORPHAN_CERTS)%N →
    on_orphan c missing from now_ms s = (s', outs) →
    ingested s from now_ms c (s', [], [], outs).

Lemma ingest_one_cases s from now c : ingested s from now c (ingest_one s from now c).
Proof.
  unfold ingest_one. destruct (author_pubkey _ _) as [pk|] eqn:Epk.
  2: { constructor. left. intros (pk & ? & _). congruence. }
  destruct (Certificate.verify_signature c pk) eqn:Ev.
  2: { constructor. left. intros (pk' & ? & ?). congruence. }
  assert (authentic s c) as Ha by (by exists pk).
  destruct (DagStore.insert (dag s) c) as [r d'] eqn:E.
  destruct r as [h|e|].
  - apply DagStore.insert_inv in E as [([= ->] & -> & Hadm)|(? & ? & _)]; [|done].
    destruct (on_inserted _ _ _ _) as [s' un] eqn:Eo. by apply ingest_inserted.
  - pose proof (DagStore.insert_Err _ _ _ _ E) as He. destruct e; simpl in He.
    + destruct He as (Hin & Hn).
      destruct (on_orphan _ _ _ _ _) as [s' outs] eqn:Eo.
      destruct (decide (MAX_ORPHAN_CERTS ≤ orphan_count (inner s))%N) as [Hle|Hlt].
      * unfold on_orphan in Eo. rewrite bool_decide_true in Eo by done. simplify_eq.
        constructor. do 4 right. eauto.
      * eapply ingest_parked; try done. lia.
    + constructor. do 3 right. left. destruct He as (-> & Hle & p & pc & ? & ? & <-). eauto.
    + constructor. right. left. destruct He as (-> & Hs). by apply elem_of_dom.
    + constructor. do 2 right. by left.
  - by apply DagStore.insert_inv in E as [(? & _)|(? & ? & _)].
Qed.

(** ** Termination *)

Definition ingest_measure (i : StateInner) (work : list Certificate) : nat :=
  let t := length work + N.to_nat (orphan_count i) in t * (1 + t) + length work.

Lemma ingest_one_measure s from now c s' ins un outs work :
  ingest_one s from now c = (s', ins, un, outs) →
  ingest_measure (inner s') (rev un ++ work) < ingest_measure (inner s) (c :: work).
Proof.
  intros E. pose proof (ingest_one_cases s from now c) as Hc. rewrite E in Hc.
  unfold ingest_measure. rewrite length_app, length_rev. inversion Hc as [?|s1 un1 ?? Eo|m s1 o1 ???? Eo]; subst.
  - simpl. nia.
  - apply on_inserted_fields in Eo as (_ & _ & _ & Hi & ->). rewrite Hi.
    pose proof (orphan_count_pop (inner s) (Certificate.hash c)) as Hn.
    unfold orphan_count in *. cbn [orphans set_field set_orphans] in *. rewrite note_inserted_orphans.
    simpl. nia.
  - apply on_orphan_fields in Eo as (_ & _ & _ & Ho & _); [|done].
    pose proof (orphan_count_push (inner s) m c) as Hn.
    unfold orphan_count in *. rewrite Ho. cbn [orphans set_field set_orphans] in Hn. rewrite Hn.
    rewrite N2Nat.inj_add. change (N.to_nat 1) with 1. simpl. nia.
Qed.

Lemma ingest_loop_total fuel s from now work ins outs :
  ingest_measure (inner s) work < fuel → is_Some (ingest_loop fuel s from now work ins outs).
Proof.
  revert s work ins outs. induction fuel as [|fuel IH]; intros s work ins outs Hf; [lia|].
  destruct work as [|c work]; simpl; [eauto|].
  destruct (ingest_one s from now c) as [[[s' i'] un] os] eqn:E. apply IH.
  pose proof (ingest_one_measure _ _ _ _ _ _ _ _ work E). lia.
Qed.

Lemma ingest_terminates s c from now : is_Some (ingest_cert s c from now).
Proof.
  unfold ingest_cert. apply ingest_loop_total. unfold ingest_measure, ingest_fuel. simpl. lia.
Qed.

(** Rule induction over the iterations: a property of the state, the stack and
    the result so far that every iteration preserves holds at the end. *)
Lemma ingest_loop_ind (P : State → list Certificate → list IngestedCert → Prop) from now :
  (∀ s c work ins s' ins' un outs, P s (c :: work) ins →
     ingested s from now c (s', ins', un, outs) → P s' (rev un ++ work) (ins ++ ins')) →
  ∀ fuel s work ins outs s' ins' outs',
    P s work ins → ingest_loop fuel s from now work ins outs = Some (s', ins', outs') → P s' [] ins'.
Proof.
  intros Hstep fuel. induction fuel as [|fuel IH]; intros s work ins outs s' ins' outs' HP E;
    (destruct work as [|c work]; simpl in E; [by simplify_eq|]); [done|].
  destruct (ingest_one s from now c) as [[[s1 i1] un] os] eqn:E1.
  eapply IH; [|exact E]. eapply Hstep; [exact HP|]. rewrite <-E1. apply ingest_one_cases.
Qed.

(** ** Invariant *)

Record ingest_ok (s : State) : Prop := {
  ok_dag : DagStore.reachable (dag s);
  ok_orphans : (orphan_count (inner s) ≤ MAX_ORPHAN_CERTS)%N;
  ok_cover : ∀ h c, certs (dag s) !! h = Some c →
    is_Some (seen_at (inner s) !! (Certificate.author c, Certificate.round c));
  ok_seen : ∀ a r h, seen_at (inner s) !! (a, r) = Some h →
    ∃ c, certs (dag s) !! h = Some c ∧ Certificate.author c = a ∧ Certificate.round c = r;
}.

(** Every orphan waits for a parent that is absent and being fetched. *)
Definition parked_ok (s : State) : Prop :=
  ∀ p l, orphans (inner s) !! p = Some l →
    certs (dag s) !! p = None ∧ p ∈ inflight_fetches (inner s) ∧
    Forall (λ c, p ∈ Certificate.parents c) l.

(** A stored block carries the payload its stored certificate signs. *)
Definition blocks_bound (s : State) : Prop :=
  ∀ h c b, certs (dag s) !! h = Some c → blocks s !! h = Some b →
    bp_payload_digest b = Certificate.payload_digest c.

(** Every stored block hashes to the digest it carries. *)
Definition blocks_consistent `{Bincode} (s : State) : Prop :=
  map_Forall (λ _ b, block_payload_is_consistent b = true) (blocks s).

Lemma record_seen_fields a r h i :
  seen_at (record_seen a r h i) =
    (if seen_at i !! (a, r) then seen_at i else <[(a, r) := h]> (seen_at i)) ∧
  detected_equivocations (record_seen a r h i) =
    detected_equivocations i ++
      match seen_at i !! (a, r) with
      | Some prev => if bool_decide (prev ≠ h) then [mk_proof a r prev h] else []
      | None => []
      end ∧
  inflight_fetches (record_seen a r h i) = inflight_fetches i.
Proof.
  unfold record_seen. destruct (seen_at i !! (a, r)) as [prev|]; simpl; [|by rewrite app_nil_r].
  case_bool_decide; simpl; [done|]. by rewrite app_nil_r.
Qed.

Lemma note_inserted_fields c h i :
  seen_at (note_inserted c h i) =
    (if seen_at i !! (Certificate.author c, Certificate.round c) then seen_at i
     else <[(Certificate.author c, Certificate.round c) := h]> (seen_at i)) ∧
  detected_equivocations (note_inserted c h i) =
    detected_equivocations i ++
      match seen_at i !! (Certificate.author c, Certificate.round c) with
      | Some prev => if bool_decide (prev ≠ h)
                     then [mk_proof (Certificate.author c) (Certificate.round c) prev h] else []
      | None => []
      end ∧
  inflight_fetches (note_inserted c h i) = inflight_fetches i ∖ {[h]}.
Proof.
  unfold note_inserted. set (i4 := if _ : option Stake then _ else _).
  destruct (record_seen_fields (Certificate.author c) (Certificate.round c) h i4) as (-> & -> & ->).
  assert (seen_at i4 = seen_at i ∧ detected_equivocations i4 = detected_equivocations i ∧
          inflight_fetches i4 = inflight_fetches i ∖ {[h]}) as (-> & -> & ->); [|done].
  subst i4. case_bool_decide; destruct (pending_stake _ !! _); done.
Qed.

Lemma insert_result_lookup d c h c' :
  certs (DagStore.insert_result d c) !! h = Some c' ↔
  (h = Certificate.hash c ∧ c' = c) ∨ (h ≠ Certificate.hash c ∧ certs d !! h = Some c').
Proof.
  unfold DagStore.insert_result. simpl. destruct (decide (h = Certificate.hash c)) as [->|Hne].
  - rewrite lookup_insert_eq. naive_solver.
  - rewrite lookup_insert_ne by done. naive_solver.
Qed.

Lemma insert_result_None d c h :
  certs (DagStore.insert_result d c) !! h = None ↔ h ≠ Certificate.hash c ∧ certs d !! h = None.
Proof. unfold DagStore.insert_result. simpl. rewrite lookup_insert_None. naive_solver. Qed.

Lemma ingest_ok_inserted s c s' un :
  ingest_ok s → DagStore.admissible (dag s) c →
  on_inserted c (Certificate.hash c) (DagStore.insert_result (dag s) c) s = (s', un) → ingest_ok s'.
Proof.
  intros [Hd Ho Hc Hs] Hadm E.
  apply on_inserted_fields in E as (_ & Ed & _ & Ei & _).
  destruct (note_inserted_fields c (Certificate.hash c) (inner s)) as (Esn & _ & _).
  split; rewrite ?Ed, ?Ei; cbn [orphans seen_at inflight_fetches set_field set_orphans].
  - eapply DagStore.reachable_insert; [exact Hd|]. by apply DagStore.insert_Ok.
  - pose proof (orphan_count_pop (inner s) (Certificate.hash c)) as Hn.
    unfold orphan_count in *. cbn [orphans set_field set_orphans] in *.
    rewrite note_inserted_orphans. lia.
  - rewrite Esn. intros h c' [(-> & ->)|(Hne & Hl)]%insert_result_lookup.
    + destruct (seen_at (inner s) !! (_, _)) eqn:E; [by rewrite E|]. by rewrite lookup_insert_eq.
    + specialize (Hc h c' Hl).
      destruct (seen_at (inner s) !! (Certificate.author c, Certificate.round c)) eqn:E; [done|].
      destruct (decide ((Certificate.author c', Certificate.round c') = (Certificate.author c, Certificate.round c)))
        as [->|Hn]; [by rewrite lookup_insert_eq|by rewrite lookup_insert_ne].
  - rewrite Esn. intros a r h Hl. setoid_rewrite insert_result_lookup.
    destruct Hadm as (_ & _ & Hfresh).
    assert ((∃ c', certs (dag s) !! h = Some c' ∧ Certificate.author c' = a ∧ Certificate.round c' = r)
            ∨ (h = Certificate.hash c ∧ Certificate.author c = a ∧ Certificate.round c = r)) as [Hold|Hnew].
    { destruct (seen_at (inner s) !! (_, _)) eqn:E; [by left; apply Hs|].
      apply lookup_insert_Some in Hl as [([= <- <-] & <-)|[_ Hl]]; [by right|by left; apply Hs]. }
    + destruct Hold as (c' & Hl' & ? & ?). exists c'. split_and!; try done. right.
      split; [|done]. intros ->. congruence.
    + exists c. naive_solver.
Qed.

Lemma parked_ok_inserted s c s' un :
  parked_ok s →
  on_inserted c (Certificate.hash c) (DagStore.insert_result (dag s) c) s = (s', un) → parked_ok s'.
Proof.
  intros Hp E p l. apply on_inserted_fields in E as (_ & Ed & _ & Ei & _).
  destruct (note_inserted_fields c (Certificate.hash c) (inner s)) as (_ & _ & Efl).
  rewrite Ed, Ei. cbn [orphans inflight_fetches set_field set_orphans].
  rewrite note_inserted_orphans, Efl. intros [Hne Hl]%lookup_delete_Some.
  destruct (Hp p l Hl) as (Hn & Hin & Hall). rewrite insert_result_None. set_solver.
Qed.

Lemma parked_ok_parked s c missing from now s' outs :
  parked_ok s → missing ∈ Certificate.parents c → certs (dag s) !! missing = None →
  (orphan_count (inner s) < MAX_ORPHAN_CERTS)%N →
  on_orphan c missing from now s = (s', outs) → parked_ok s'.
Proof.
  intros Hp Hm Hn Hlt E p l. apply on_orphan_fields in E as (_ & Ed & _ & Eo & Ef & _); [|done].
  rewrite Ed, Eo, Ef. intros [(<- & <-)|[Hne Hl]]%lookup_insert_Some.
  - split_and!; [done|set_solver|]. apply Forall_app. split; [|by constructor].
    destruct (orphans (inner s) !! missing) as [l|] eqn:El; [|constructor].
    by destruct (Hp missing l El) as (_ & _ & ?).
  - destruct (Hp p l Hl) as (? & ? & ?). set_solver.
Qed.

Lemma ingest_ok_parked s c missing from now s' outs :
  ingest_ok s → missing ∈ Certificate.parents c → certs (dag s) !! missing = None →
  (orphan_count (inner s) < MAX_ORPHAN_CERTS)%N →
  on_orphan c missing from now s = (s', outs) → ingest_ok s'.
Proof.
  intros [Hd Ho Hc Hs] Hm Hn Hlt E.
  apply on_orphan_fields in E as (_ & Ed & _ & Eo & _ & Esn & _); [|done].
  split; rewrite ?Ed, ?Esn; try done.
  pose proof (orphan_count_push (inner s) missing c) as Hp'.
  unfold orphan_count in *. rewrite Eo. cbn [orphans set_field set_orphans] in Hp'. lia.
Qed.

(** The relation one ingestion establishes between the states around it. *)
Record ingests (s : State) (s' : State) (ins : list IngestedCert) : Prop := {
  in_ok : ingest_ok s';
  in_governance : same_governance s s';
  in_grow : certs (dag s) ⊆ certs (dag s');
  in_new : ∀ h, is_Some (certs (dag s') !! h) ↔ is_Some (certs (dag s) !! h) ∨ h ∈ ic_hash <$> ins;
  in_authentic : ∀ h c, certs (dag s') !! h = Some c → certs (dag s) !! h = Some c ∨ authentic s c;
  in_queue : ∃ ps, detected_equivocations (inner s') = detected_equivocations (inner s) ++ ps;
  in_exposed : ∀ h1 h2 c1 c2,
    certs (dag s') !! h1 = Some c1 → certs (dag s') !! h2 = Some c2 → h1 ≠ h2 →
    Certificate.author c1 = Certificate.author c2 → Certificate.round c1 = Certificate.round c2 →
    (certs (dag s) !! h1 = None ∨ certs (dag s) !! h2 = None) →
    ∃ p, p ∈ detected_equivocations (inner s') ∧ Equivocation.author p = Certificate.author c1;
  in_parked : parked_ok s → parked_ok s';
  in_blocks : blocks_bound s → blocks_bound s';
}.

Lemma ingests_refl s : ingest_ok s → ingests s s [].
Proof.
  intros Hok. split; try done.
  - intros h. simpl. set_solver.
  - auto.
  - exists []. by rewrite app_nil_r.
  - intros h1 h2 c1 c2 E1 E2 _ _ _ [?|?]; congruence.
Qed.

Lemma authentic_same s s' c : same_governance s s' → authentic s' c → authentic s c.
Proof. intros [E _ _ _ _ _ _ _]. unfold authentic. by rewrite E. Qed.

Lemma evict_mismatched_Some h d bs h' b :
  evict_mismatched h d bs !! h' = Some b → bs !! h' = Some b ∧ (h' = h → bp_payload_digest b = d).
Proof.
  unfold evict_mismatched. destruct (bs !! h) as [b0|] eqn:E; [case_bool_decide|].
  - intros [Hne ?]%lookup_delete_Some. done.
  - intros Hl. split; [done|]. intros ->. rewrite E in Hl. by injection Hl as ->.
  - intros Hl. split; [done|]. intros ->. congruence.
Qed.

Lemma ingests_inserted s0 s ins c s' un :
  ingests s0 s ins → authentic s c → DagStore.admissible (dag s) c →
  on_inserted c (Certificate.hash c) (DagStore.insert_result (dag s) c) s = (s', un) →
  ingests s0 s' (ins ++ [mk_ingested (Certificate.hash c) (Certificate.round c)]).
Proof.
  intros [Hok Hgov Hgrow Hnew Hauth Hq Hexp Hpk Hbb] Ha Hadm E.
  pose proof (ingest_ok_inserted _ _ _ _ Hok Hadm E) as Hok'.
  pose proof (λ Hp, parked_ok_inserted _ _ _ _ Hp E) as Hpk'.
  pose proof Hadm as (_ & _ & Hfresh).
  apply on_inserted_fields in E as (Hgov' & Ed & Eb & Ei & _).
  destruct (note_inserted_fields c (Certificate.hash c) (inner s)) as (_ & Edt & _).
  assert (detected_equivocations (inner s') = detected_equivocations
    (note_inserted c (Certificate.hash c) (inner s))) as Edt' by (by rewrite Ei).
  rewrite Edt in Edt'. clear Edt.
  assert (certs (dag s) ⊆ certs (dag s')) as Hstep by (rewrite Ed; by apply insert_subseteq).
  split; [done|by etrans|by etrans| | | | |by auto|].
  - intros h. rewrite Ed. unfold DagStore.insert_result. simpl. rewrite fmap_app. simpl.
    rewrite elem_of_app, list_elem_of_singleton, lookup_insert_is_Some', Hnew. naive_solver.
  - rewrite Ed. intros h c' [(-> & ->)|(_ & Hl)]%insert_result_lookup; [|auto].
    right. by eapply authentic_same.
  - destruct Hq as [ps Hq]. rewrite Edt', Hq, <-app_assoc. eauto.
  - (* a new pair involves [c] itself, or was exposed before *)
    assert (∀ h2 c2, certs (dag s) !! h2 = Some c2 → Certificate.author c2 = Certificate.author c →
      Certificate.round c2 = Certificate.round c →
      ∃ p, p ∈ detected_equivocations (inner s') ∧ Equivocation.author p = Certificate.author c) as Hpair.
    { intros h2 c2 H2 Ea Er. destruct (ok_cover s Hok h2 c2 H2) as [prev Hprev].
      rewrite Ea, Er in Hprev. destruct (ok_seen s Hok _ _ _ Hprev) as (c0 & H0' & _ & _).
      rewrite Hprev in Edt'. rewrite bool_decide_true in Edt' by (intros ->; congruence).
      rewrite Edt'. eexists. split; [apply elem_of_app; right; by constructor|done]. }
    rewrite Ed. intros h1 h2 c1 c2 [(-> & ->)|(Hn1 & H1)]%insert_result_lookup
      [(-> & ->)|(Hn2 & H2)]%insert_result_lookup Hne Ea Er Hnone.
    + done.
    + by eapply (Hpair h2 c2).
    + rewrite Ea. by eapply (Hpair h1 c1).
    + destruct (Hexp h1 h2 c1 c2) as (p & Hp & Hap); try done.
      exists p. split; [|done]. rewrite Edt'. apply elem_of_app. by left.
  - intros Hb0 h c' b. rewrite Ed, Eb. intros Hc' [Hb Hm]%evict_mismatched_Some.
    apply insert_result_lookup in Hc' as [(-> & ->)|(_ & Hc')]; [by apply Hm|].
    by eapply (Hbb Hb0).
Qed.

Lemma ingests_step from now s0 s ins c s' ins' un outs :
  ingests s0 s ins → ingested s from now c (s', ins', un, outs) → ingests s0 s' (ins ++ ins').
Proof.
  intros Hin Hc. inversion Hc as [?|? ? Ha Hadm E|m ? ? Ha Hm Hn Hlt E]; subst; rewrite ?app_nil_r.
  - done.
  - by eapply ingests_inserted.
  - destruct Hin as [Hok Hgov Hgrow Hnew Hauth Hq Hexp Hpk Hbb].
    pose proof (ingest_ok_parked _ _ _ _ _ _ _ Hok Hm Hn Hlt E) as Hok'.
    pose proof (λ Hp, parked_ok_parked _ _ _ _ _ _ _ Hp Hm Hn Hlt E) as Hpk'.
    apply on_orphan_fields in E as (Hgov' & Ed & Eb & _ & _ & _ & Edt); [|done].
    split; rewrite ?Ed, ?Edt; try done; [by etrans|by auto|].
    intros Hb0 h c' b. rewrite Ed, Eb. by apply Hbb.
Qed.

Lemma ingest_cert_ingests s c from now s' ins outs :
  ingest_ok s → ingest_cert s c from now = Some (s', ins, outs) → ingests s s' ins.
Proof.
  intros Hok E. eapply (ingest_loop_ind (λ s' _ ins, ingests s s' ins) from now);
    [|by apply ingests_refl|exact E].
  intros. by eapply ingests_step.
Qed.

(** ** Widths *)

(** What the integer and array types of the code guarantee of every stored or
    parked certificate. *)
Definition certs_typed (s : State) : Prop :=
  map_Forall (λ _ c, Certificate.wf c) (certs (dag s)) ∧
  map_Forall (λ _ l, Forall Certificate.wf l) (orphans (inner s)).

Lemma certs_typed_step from now s c s' ins un outs :
  certs_typed s → Certificate.wf c → ingested s from now c (s', ins, un, outs) →
  certs_typed s' ∧ Forall Certificate.wf un.
Proof.
  intros [Hd Ho] Hc Hi. inversion Hi as [?|? ? Ha Hadm E|m ? ? Ha Hm Hn Hlt E]; subst.
  - split; [done|constructor].
  - apply on_inserted_fields in E as (_ & Ed & _ & Ei & ->). split; [split|].
    + rewrite Ed. unfold DagStore.insert_result. simpl. by apply map_Forall_insert_2.
    + rewrite Ei. cbn [orphans set_field set_orphans]. rewrite note_inserted_orphans.
      by apply map_Forall_delete.
    + destruct (orphans (inner s) !! _) as [l|] eqn:El; [by eapply Ho|constructor].
  - apply on_orphan_fields in E as (_ & Ed & _ & Eo & _); [|done]. split; [|constructor].
    split; [by rewrite Ed|]. rewrite Eo. apply map_Forall_insert_2; [|done].
    apply Forall_app. split; [|by constructor].
    destruct (orphans (inner s) !! m) as [l|] eqn:El; [by eapply Ho|constructor].
Qed.

Lemma ingest_typed s c from now s' ins outs :
  certs_typed s → Certificate.wf c → ingest_cert s c from now = Some (s', ins, outs) → certs_typed s'.
Proof.
  intros Ht Hc E.
  eapply (ingest_loop_ind (λ s' work _, certs_typed s' ∧ Forall Certificate.wf work) from now); [| |exact E].
  - intros s1 c1 w i1 s2 i2 un o [Ht1 [Hc1 Hw]%Forall_cons] Hi.
    destruct (certs_typed_step _ _ _ _ _ _ _ _ Ht1 Hc1 Hi) as [? ?]. split; [done|].
    apply Forall_app. split; [by apply Forall_rev|done].
  - split; [done|]. by constructor.
Qed.

(** C13. Ingestion.  The cascade always terminates; it stores only certificates
    signed under the key their author has in the seated Authority Ring, never
    removes one, reports exactly the hashes it stored, keeps the orphan buffer
    within its bound, keeps every orphan waiting for a certificate that is absent
    and being fetched, and every stored block bound to the payload its stored
    certificate signs, and leaves registries, votes, commits, mempool and
    envelopes alone; whenever it leaves two certificates of one author and
    round in the DAG that were not both there before, an equivocation proof
    against the author is queued.  An authentic certificate whose parents are
    stored at lower rounds is stored. *)
Theorem ingest_spec s c from now :
  ingest_ok s →
  ∃ s' ins outs, ingest_cert s c from now = Some (s', ins, outs) ∧ ingests s s' ins ∧
    (authentic s c → DagStore.admissible (dag s) c →
     certs (dag s') !! Certificate.hash c = Some c).
Proof.
  intros Hok. destruct (ingest_terminates s c from now) as [[[s' ins] outs] E].
  exists s', ins, outs. split; [done|]. split; [by eapply ingest_cert_ingests|].
  intros (pk & Epk & Ev) Hadm. unfold ingest_cert in E.
  destruct (ingest_fuel s) as [|fuel]; [done|]. simpl in E. unfold ingest_one in E.
  rewrite Epk, Ev, (DagStore.insert_Ok _ _ Hadm) in E.
  destruct (on_inserted _ _ _ _) as [s1 un] eqn:E1.
  assert (certs (dag s1) !! Certificate.hash c = Some c) as H1.
  { apply on_inserted_fields in E1 as (_ & -> & _). apply insert_result_lookup. by left. }
  pose proof (ingest_ok_inserted _ _ _ _ Hok Hadm E1) as Hok1.
  pose proof (ingest_loop_ind (λ s2 _ _, ingest_ok s2 ∧ certs (dag s2) !! Certificate.hash c = Some c)
    from now) as Hind.
  eapply Hind; [|exact (conj Hok1 H1)|exact E].
  intros s2 c2 w2 i2 s3 i3 un3 o3 [Hok2 H2] Hstep.
  destruct (ingests_step from now s2 s2 [] c2 s3 i3 un3 o3 (ingests_refl s2 Hok2) Hstep).
  split; [done|]. by eapply lookup_weaken.
Qed.
End ingest.
