(* ===== verification/NodeCommit.v ===== *)
(** * The node's commit walk ([try_commit] and [apply_governance_intent] of
    [crates/suwappu-node/src/daemon.rs])

    The walk over the decided leaders, the joint-quorum gate, the block binding,
    execution and indexing of one certificate, the epoch boundary with its
    queued governance, and the ejection of detected equivocators.

    A result of type [option] is [None] when the code panics: an [expect], an
    empty committee in [leader], or a panic of the executor.  [Event] is what
    the walk writes to the event log, in order. *)

From Stdlib Require Import Strings.String.
From S2P Require Import Prelude Crypto Cert Dag Commit Joint Equivocation Rings FastPath Mempool ExecTypes.
From S2P Require Import Substrate Block Ltp RecordSet Governance NodeState Ingest.
Import DagStore(certs).

(** The event kinds of the fast-path and corridor lanes. *)
Inductive FastPathEvent := FpProposed | FpSlashed | FpReceived | FpSigned | FpCommitted.
Inductive LtpEvent := LtpVerified | LtpInvalid | LtpUnverified.

Inductive Event :=
| EvReceived (round : Round) (h : CertHash) (peer : PeerId)
| EvVoted (round : Round) (h : CertHash)
| EvFastPath (k : FastPathEvent) (digest : bytes) (round : Round)
| EvLtp (k : LtpEvent) (height : N) (root : bytes)
| EvCommitted (round : Round) (h : CertHash) (intent_hashes : list bytes)
| EvEpochBoundary (round : Round)
| EvGovernanceRejected (round : Round)
| EvAuthorityAdmitted (round : Round) (id : AuthorityId)
| EvAuthorityExited (round : Round) (id : AuthorityId)
| EvAuthorityEjected (round : option Round) (id : AuthorityId)
| EvSlashingEvidence (id : AuthorityId).

Lemma filter_ext_in {A} (P Q : A → Prop) `{∀ x, Decision (P x), ∀ x, Decision (Q x)} (l : list A) :
  (∀ x, x ∈ l → P x ↔ Q x) → filter P l = filter Q l.
Proof.
  induction l as [|x l IH]; intros Hl; [done|]. rewrite !filter_cons, IH by set_solver.
  pose proof (Hl x ltac:(set_solver)). repeat case_decide; naive_solver.
Qed.

Lemma filter_none {A} (P : A → Prop) `{∀ x, Decision (P x)} (l : list A) :
  (∀ x, x ∈ l → ¬ P x) → filter P l = [].
Proof.
  induction l as [|x l IH]; intros Hl; [done|]. rewrite filter_cons_False by (apply Hl; set_solver).
  apply IH. set_solver.
Qed.

(** Two prefixes of a duplicate-free list are ordered by inclusion. *)
Lemma prefix_by_elements {A} (l1 l2 l : list A) :
  NoDup l → l1 `prefix_of` l → l2 `prefix_of` l → l1 ⊆ l2 → l1 `prefix_of` l2.
Proof.
  intros Hnd H1 H2 Hsub. destruct (prefix_weak_total l1 l2 l H1 H2) as [?|[k ->]]; [done|].
  destruct k as [|x k]; [by rewrite app_nil_r|]. exfalso.
  destruct H1 as [r ->]. rewrite <-app_assoc in Hnd. apply NoDup_app in Hnd as (_ & Hd & _).
  eapply (Hd x); [apply Hsub|]; set_solver.
Qed.

Section commit.
Context `{HB : Blake3, HM : MlDsa65, HN : Bincode}.

(** ** Governance *)

(** Remove an authority from both rings and the stake table, and recount. *)
Definition unseat (s : State) (a : AuthorityId) : State :=
  let ar := (AuthorityRing.remove (authority_registry s) a).2 in
  let s1 := s <| authority_registry := ar |>
              <| validator_registry ::= (λ v, (ValidatorRing.remove v a).2) |>
              <| stake_table ::= (λ t, (StakeTable.remove t a).2) |> in
  with_inner (λ i, i <| pending_stake ::= delete a |>
                     <| n_authorities := wrap 32 (N.of_nat (AuthorityRing.len ar)) |>) s1.

Definition apply_admit (s : State) (a stake : N) (pk : bytes) (cert_round : Round)
    : State * list Event :=
  match AuthorityRing.admit_member (authority_registry s) (AuthorityRing.mk_member a stake pk) with
  | (Ok _, ar) =>
      (with_inner (λ i, i <| pending_stake ::= <[a := stake]> |>)
         (s <| authority_registry := ar |>
            <| validator_registry ::= (λ v, (ValidatorRing.admit_member v
                 (ValidatorRing.mk_member a stake)).2) |>),
       [EvAuthorityAdmitted cert_round a])
  | _ => (s, [])
  end.

(** The effect of an authorised governance intent. *)
Definition enact (s : State) (i : Intent) (cert_round : Round) : State * list Event :=
  match i with
  | AdmitAuthority a stake pk _ => apply_admit s a stake pk cert_round
  | ExitAuthority a =>
      if bool_decide (is_Some (AuthorityRing.members (authority_registry s) !! a))
      then (unseat s a, [EvAuthorityExited cert_round a]) else (s, [])
  | EjectAuthority a _ =>
      if bool_decide (is_Some (AuthorityRing.members (authority_registry s) !! a))
      then (unseat s a, [EvAuthorityEjected (Some cert_round) a]) else (s, [])
  | _ => (s, [])
  end.

Definition apply_governance_intent (s : State) (i : Intent) (auth : option GovAuth)
    (cert_round : Round) : option (State * list Event) :=
  match auth with
  | None => Some (s, [EvGovernanceRejected cert_round])
  | Some a =>
      res ← verify_governed_intent (authority_registry s) (manifest_network_id s) i a;
      match res with
      | Ok _ => Some (enact s i cert_round)
      | Err _ => Some (s, [EvGovernanceRejected cert_round])
      | Panic => None
      end
  end.

Fixpoint apply_queued (s : State) (q : list (Intent * option GovAuth)) (cert_round : Round)
    : option (State * list Event) :=
  match q with
  | [] => Some (s, [])
  | (i, env) :: rest =>
      '(s1, e1) ← apply_governance_intent s i env cert_round;
      '(s2, e2) ← apply_queued s1 rest cert_round;
      Some (s2, e1 ++ e2)
  end.

(** ** One certificate *)

(** The governance intents of a block with their envelopes, found by index. *)
Definition block_governance (is_ : list Intent) (auths : list (N * GovAuth))
    : list (Intent * option GovAuth) :=
  omap (λ p : nat * Intent,
    if is_governance_intent p.2
    then Some (p.2, snd <$> head (filter (λ q : N * GovAuth, q.1 = N.of_nat p.1) auths))
    else None) (imap (λ k i, (k, i)) is_).

Definition hash_intents (is_ : list Intent) : option (list bytes) :=
  mapM (λ i, b ← expect (encode_intent i); Some (blake3 b)) is_.

(** [for (idx, tx_hash) in hashes.enumerate() { map.insert(..) }]. *)
Definition index_txs (hashes : list bytes) (round : Round) (h : CertHash)
    (m : gmap bytes (Round * CertHash * nat)) : gmap bytes (Round * CertHash * nat) :=
  foldl (λ m (p : nat * bytes), <[p.2 := (round, h, p.1)]> m) m (imap (λ k x, (k, x)) hashes).

(** Execution and indexing under the inner lock. *)
Definition execute_cert (i : StateInner) (h : CertHash) (round : Round) (is_ : list Intent)
    (hashes : list bytes) : option StateInner :=
  '(report, sub) ← execute_block (substrate i) (mk_block round is_);
  Some (i <| substrate := sub |>
          <| latest_bridge_header := Some (report_round report, post_root report) |>
          <| main_lane_index ::= (λ l, l ++ omap (λ x, intent_to_main_lane_tx x round h) is_) |>
          <| blocks_by_round ::= <[round := h]> |>
          <| tx_to_block ::= index_txs hashes round h |>).

(** The epoch boundary: advance the epoch and drain the queue. *)
Definition cross_boundary (s : State) (round : Round) : option (State * list Event) :=
  let e := epoch (inner s) in
  if boundary_crossed_by e round then
    let queued := pending_governance (inner s) in
    let s1 := with_inner (λ i,
                i <| epoch := mk_epoch (epoch_for e round) (rounds_per_epoch e) round |>
                  <| pending_governance := [] |>) s in
    '(s2, evs) ← apply_queued s1 queued round;
    Some (s2, evs ++ [EvEpochBoundary round])
  else Some (s, []).

(** What follows the claim of a certificate whose block is in hand. *)
Definition commit_claimed (s : State) (h : CertHash) (round : Round) (is_ : list Intent)
    (auths : list (N * GovAuth)) : option (State * list Event) :=
  let s1 := with_inner (λ i, i <| needed_blocks ::= (λ X, X ∖ {[h]}) |>) s in
  hashes ← hash_intents is_;
  i2 ← execute_cert (inner s1) h round is_ hashes;
  let s2 := s1 <| inner := i2 <| pending_governance ::= (λ q, q ++ block_governance is_ auths) |> |>
               <| votes ::= delete h |> in
  '(s3, evs) ← cross_boundary s2 round;
  Some (s3, EvCommitted round h hashes :: evs).

(** The block that carries exactly what the certificate signs. *)
Definition authentic_block (s : State) (h : CertHash) (digest : bytes) : option BlockPayload :=
  b ← blocks s !! h;
  if bool_decide (bp_payload_digest b = digest) then Some b else None.

(** ** The walk *)

(** [true] is the [break 'commit] of a deferral. *)
Fixpoint commit_history (s : State) (hist : list CertHash) : option (State * list Event * bool) :=
  match hist with
  | [] => Some (s, [], false)
  | h :: rest =>
      if bool_decide (h ∈ committed s) then commit_history s rest
      else
        match certs (dag s) !! h with
        | None => commit_history s rest
        | Some c =>
            match authentic_block s h (Certificate.payload_digest c) with
            | None => Some (with_inner (λ i, i <| needed_blocks ::= (λ X, {[h]} ∪ X) |>) s, [], true)
            | Some b =>
                '(s1, e1) ← commit_claimed (s <| committed ::= (λ X, {[h]} ∪ X) |>) h
                             (Certificate.round c) (bp_intents b) (bp_governance_auth b);
                '(s2, e2, stop) ← commit_history s1 rest;
                Some (s2, e1 ++ e2, stop)
            end
        end
  end.

Fixpoint commit_rounds (s : State) (votes_flat : list Vote) (n : N) (rs : list Round)
    : option (State * list Event) :=
  match rs with
  | [] => Some (s, [])
  | r :: rest =>
      st ← decide_slot (dag s) r n;
      match st with
      | Skip | Undecided => commit_rounds s votes_flat n rest
      | Direct leader_hash =>
          if bool_decide (leader_hash ∈ committed s) then commit_rounds s votes_flat n rest
          else if negb (validator_quorum_met (stake_table s) leader_hash votes_flat)
          then Some (s, [])
          else
            hist ← causal_history (dag s) leader_hash;
            '(s1, e1, stop) ← commit_history s hist;
            if stop : bool then Some (s1, e1)
            else '(s2, e2) ← commit_rounds s1 votes_flat n rest; Some (s2, e1 ++ e2)
      end
  end.

(** The drain of the equivocation queue. *)
Fixpoint eject_equivocators (s : State) (proofs : list EquivocationProof) : State * list Event :=
  match proofs with
  | [] => (s, [])
  | p :: rest =>
      let a := Equivocation.author p in
      if bool_decide (is_Some (AuthorityRing.members (authority_registry s) !! a))
      then
        let '(s', evs) := eject_equivocators (unseat s a) rest in
        (s', EvSlashingEvidence a :: EvAuthorityEjected None a :: evs)
      else eject_equivocators s rest
  end.

Definition votes_flat (s : State) : list Vote := mjoin (map_to_list (votes s)).*2.

Definition try_commit (s : State) : option (State * list Event) :=
  '(s1, e1) ← commit_rounds s (votes_flat s) (n_authorities (inner s)) (DagStore.rounds (dag s));
  let proofs := detected_equivocations (inner s1) in
  let '(s2, e2) := eject_equivocators
                     (with_inner (λ i, i <| detected_equivocations := [] |>) s1) proofs in
  Some (s2, e1 ++ e2).

(** ** Frames *)

Definition committed_log (evs : list Event) : list CertHash :=
  omap (λ e, match e with EvCommitted _ h _ => Some h | _ => None end) evs.

Lemma committed_log_app e1 e2 : committed_log (e1 ++ e2) = committed_log e1 ++ committed_log e2.
Proof. apply omap_app. Qed.

(** What governance and ejection leave alone. *)
Record same_ledger (s s' : State) : Prop := {
  sl_dag : dag s' = dag s;
  sl_blocks : blocks s' = blocks s;
  sl_committed : committed s' = committed s;
  sl_votes : votes s' = votes s;
  sl_mempool : mempool s' = mempool s;
  sl_envelopes : governance_envelopes s' = governance_envelopes s;
  sl_network : manifest_network_id s' = manifest_network_id s;
  sl_key : self_secret_key s' = self_secret_key s;
  sl_inner : ∃ ps n, inner s' = inner s <| pending_stake := ps |> <| n_authorities := n |>;
  sl_width : (n_authorities (inner s) < width 32 → n_authorities (inner s') < width 32)%N;
}.

#[global] Instance same_ledger_preorder : PreOrder same_ledger.
Proof.
  split.
  - intros s. split; try done. exists (pending_stake (inner s)), (n_authorities (inner s)).
    by destruct (inner s).
  - intros s1 s2 s3 [? ? ? ? ? ? ? ? (p & n & E1) ?] [? ? ? ? ? ? ? ? (p' & n' & E2) ?].
    split; try congruence; [|by auto]. exists p', n'. by rewrite E2, E1.
Qed.

Lemma unseat_ledger s a : same_ledger s (unseat s a).
Proof. split; try done; [by eexists _, _|]. intros _. apply wrap_lt. Qed.

Lemma enact_ledger s i r s' evs :
  enact s i r = (s', evs) → same_ledger s s' ∧ committed_log evs = [].
Proof.
  unfold enact, apply_admit. intros E.
  repeat case_match; simplify_eq; split; try done; try apply unseat_ledger; try reflexivity.
  split; try done. exists (<[authority_id := stake_suwappu]> (pending_stake (inner s))), (n_authorities (inner s)).
  reflexivity.
Qed.

Lemma apply_governance_ledger s i auth r s' evs :
  apply_governance_intent s i auth r = Some (s', evs) → same_ledger s s' ∧ committed_log evs = [].
Proof.
  unfold apply_governance_intent. destruct auth as [a|]; [|by intros [= <- <-]].
  destruct (verify_governed_intent _ _ _ _) as [[[]|e|]|]; simpl; intros [= E]; try done.
  - by apply enact_ledger in E.
  - by simplify_eq.
Qed.

Lemma apply_queued_ledger s q r s' evs :
  apply_queued s q r = Some (s', evs) → same_ledger s s' ∧ committed_log evs = [].
Proof.
  revert s evs. induction q as [|[i env] q IH]; intros s evs; simpl; [by intros [= <- <-]|].
  destruct (apply_governance_intent s i env r) as [[s1 e1]|] eqn:E1; [|done]. simpl.
  destruct (apply_queued s1 q r) as [[s2 e2]|] eqn:E2; [|done]. simpl. intros [= <- <-].
  apply apply_governance_ledger in E1 as [S1 L1]. apply IH in E2 as [S2 L2].
  split; [by etrans|]. by rewrite committed_log_app, L1, L2.
Qed.

Lemma eject_ledger s ps s' evs :
  eject_equivocators s ps = (s', evs) → same_ledger s s' ∧ committed_log evs = [].
Proof.
  revert s evs. induction ps as [|p ps IH]; intros s evs; simpl; [by intros [= <- <-]|].
  case_bool_decide; [|by apply IH].
  destruct (eject_equivocators _ ps) as [s1 e1] eqn:E1. intros [= <- <-].
  apply IH in E1 as [S1 L1]. split; [|done]. etrans; [|exact S1]. apply unseat_ledger.
Qed.

(** The store and the block table a commit never touches. *)
Record same_store (s s' : State) : Prop := {
  ss_dag : dag s' = dag s;
  ss_blocks : blocks s' = blocks s;
  ss_seen : seen_at (inner s') = seen_at (inner s);
  ss_queue : detected_equivocations (inner s') = detected_equivocations (inner s);
  ss_orphans : orphans (inner s') = orphans (inner s);
  ss_inflight : inflight_fetches (inner s') = inflight_fetches (inner s);
  ss_network : manifest_network_id s' = manifest_network_id s;
}.

#[global] Instance same_store_preorder : PreOrder same_store.
Proof. split; [done|]. intros ??? [] []. split; congruence. Qed.

Lemma same_ledger_store s s' : same_ledger s s' → same_store s s'.
Proof. intros [? ? ? ? ? ? ? ? (? & ? & E) ?]. split; try done; by rewrite E. Qed.

Lemma cross_boundary_frame s r s' evs :
  cross_boundary s r = Some (s', evs) →
  same_store s s' ∧ committed s' = committed s ∧ votes s' = votes s ∧
  substrate (inner s') = substrate (inner s) ∧ needed_blocks (inner s') = needed_blocks (inner s) ∧
  committed_log evs = [].
Proof.
  unfold cross_boundary. case_match; [|by intros [= <- <-]].
  destruct (apply_queued _ _ _) as [[s2 e2]|] eqn:E; [|done]. simpl. intros [= <- <-].
  apply apply_queued_ledger in E as [Hl Hlog]. rewrite committed_log_app, Hlog.
  destruct Hl as [? ? ? ? ? ? ? ? (? & ? & Ei) ?]. split; [split; simpl in *; try done; by rewrite Ei|].
  split_and!; simpl in *; try done; by rewrite Ei.
Qed.

Lemma execute_cert_fields i h r is_ hs i' :
  execute_cert i h r is_ hs = Some i' →
  (∃ rep, execute_block (substrate i) (mk_block r is_) = Some (rep, substrate i')) ∧
  seen_at i' = seen_at i ∧ detected_equivocations i' = detected_equivocations i ∧
  orphans i' = orphans i ∧ inflight_fetches i' = inflight_fetches i ∧
  needed_blocks i' = needed_blocks i.
Proof.
  unfold execute_cert. destruct (execute_block _ _) as [[rep sub]|]; [|done]. simpl.
  intros [= <-]. split_and!; try done. by exists rep.
Qed.

Lemma commit_claimed_frame s h r is_ auths s' evs :
  commit_claimed s h r is_ auths = Some (s', evs) →
  same_store s s' ∧ committed s' = committed s ∧ committed_log evs = [h] ∧
  needed_blocks (inner s') = needed_blocks (inner s) ∖ {[h]} ∧
  (∃ rep, execute_block (substrate (inner s)) (mk_block r is_) = Some (rep, substrate (inner s'))).
Proof.
  unfold commit_claimed. destruct (hash_intents is_) as [hs|]; [|done]. simpl.
  destruct (execute_cert _ _ _ _ _) as [i2|] eqn:Ex; [|done]. simpl.
  destruct (cross_boundary _ r) as [[s3 e3]|] eqn:Ec; [|done]. simpl. intros [= <- <-].
  apply execute_cert_fields in Ex as (Hrep & ? & ? & ? & ? & ?).
  apply cross_boundary_frame in Ec as ([? ? ? ? ? ? ?] & Hcom & _ & Hsub & Hneed & Hlog). simpl in *.
  split; [split; simpl; congruence|]. split_and!; [done|by rewrite Hlog|congruence|].
  rewrite Hsub. done.
Qed.

(** ** What a log executes *)

(** Executing the blocks of a log of certificates, each block carrying the
    payload its certificate signs. *)
Inductive executes (D : gmap CertHash Certificate) (B : gmap CertHash BlockPayload)
    : InMemorySubstrate → list CertHash → InMemorySubstrate → Prop :=
| executes_nil sub : executes D B sub [] sub
| executes_cons sub h c b rep sub1 hs sub2 :
    D !! h = Some c → B !! h = Some b → bp_payload_digest b = Certificate.payload_digest c →
    execute_block sub (mk_block (Certificate.round c) (bp_intents b)) = Some (rep, sub1) →
    executes D B sub1 hs sub2 → executes D B sub (h :: hs) sub2.

Lemma executes_app D B s1 l1 s2 l2 s3 :
  executes D B s1 l1 s2 → executes D B s2 l2 s3 → executes D B s1 (l1 ++ l2) s3.
Proof. induction 1; simpl; [done|]. intros. econstructor; eauto. Qed.

Lemma authentic_block_Some s h d b :
  authentic_block s h d = Some b ↔ blocks s !! h = Some b ∧ bp_payload_digest b = d.
Proof.
  unfold authentic_block. destruct (blocks s !! h) as [b'|]; simpl; [|naive_solver].
  case_bool_decide; naive_solver.
Qed.

(** ** The history walk *)

Record walked (s : State) (hist : list CertHash) (s' : State) (evs : list Event) (stop : bool) : Prop := {
  wk_store : same_store s s';
  wk_committed : committed s' = list_to_set (committed_log evs) ∪ committed s;
  wk_executes : executes (certs (dag s)) (blocks s) (substrate (inner s)) (committed_log evs)
                  (substrate (inner s'));
  wk_rest : ∃ rest, filter (λ h, h ∉ committed s) hist = committed_log evs ++ rest ∧
    if stop then ∃ h, head rest = Some h ∧ h ∈ needed_blocks (inner s') ∧
                      ∀ c, certs (dag s) !! h = Some c →
                           authentic_block s h (Certificate.payload_digest c) = None
    else rest = [];
}.

Lemma commit_history_walked s hist s' evs stop :
  NoDup hist → (∀ h, h ∈ hist → is_Some (certs (dag s) !! h)) →
  commit_history s hist = Some (s', evs, stop) → walked s hist s' evs stop.
Proof.
  revert s evs. induction hist as [|h hist IH]; intros s evs Hnd Hin E; simpl in E.
  { simplify_eq. split; [done|set_solver|constructor|]. by exists []. }
  apply NoDup_cons in Hnd as [Hh Hnd]. case_bool_decide as Hc.
  { destruct (IH s evs Hnd) as [? ? ? ?]; [set_solver|done|]. split; try done.
    rewrite filter_cons_False by naive_solver. done. }
  destruct (Hin h) as [c Hc']; [set_solver|]. rewrite Hc' in E.
  destruct (authentic_block s h _) as [b|] eqn:Eb.
  2: { simplify_eq. split; [done|set_solver|constructor|].
       rewrite filter_cons_True by done. eexists. split; [done|]. simpl. exists h.
       split_and!; [done|set_solver|naive_solver]. }
  destruct (commit_claimed _ _ _ _ _) as [[s1 e1]|] eqn:E1; [|done]. simpl in E.
  destruct (commit_history s1 hist) as [[[s2 e2] stop2]|] eqn:E2; [|done]. simplify_eq/=.
  apply commit_claimed_frame in E1 as (Hs1 & Hc1 & Hl1 & _ & rep & Hx). simpl in Hc1, Hx.
  destruct Hs1 as [Hd1 Hb1 ? ? ? ? ?]. simpl in *.
  destruct (IH s1 e2 Hnd) as [[? ? ? ? ? ? ?] W2 W3 W4]; [rewrite Hd1; set_solver|done|].
  apply authentic_block_Some in Eb as [Eb Ed].
  split.
  - split; congruence.
  - rewrite W2, committed_log_app, Hl1, Hc1. set_solver.
  - rewrite committed_log_app, Hl1. simpl. econstructor; try done. by rewrite Hd1, Hb1 in W3.
  - rewrite filter_cons_True by done. destruct W4 as (rest & Er & Hr). exists rest.
    rewrite committed_log_app, Hl1. simpl. split.
    + f_equal. rewrite <-Er, Hc1. apply filter_ext_in. intros x Hx'. set_solver.
    + destruct stop; [|done]. destruct Hr as (x & ? & ? & Hn). exists x. split_and!; [done..|].
      rewrite <-Hd1. intros c0 Hc0. specialize (Hn c0 Hc0). unfold authentic_block in *.
      by rewrite Hb1 in Hn.
Qed.

(** ** The round walk against [finalize] *)

Lemma extend_finalized_filter fin hs :
  NoDup hs →
  extend_finalized fin (list_to_set fin) hs =
  (fin ++ filter (λ h, h ∉ fin) hs, list_to_set (fin ++ filter (λ h, h ∉ fin) hs)).
Proof.
  revert fin. induction hs as [|h hs IH]; intros fin Hnd; simpl; [by rewrite app_nil_r|].
  apply NoDup_cons in Hnd as [Hh Hnd]. rewrite filter_cons.
  case_decide as Hin; rewrite elem_of_list_to_set in Hin.
  - rewrite decide_False by naive_solver. by apply IH.
  - rewrite decide_True by done.
    replace ({[h]} ∪ list_to_set fin) with (list_to_set (C := gset CertHash) (fin ++ [h]))
      by (rewrite list_to_set_app_L; set_solver).
    rewrite IH by done. rewrite <-!app_assoc. simpl.
    rewrite (filter_ext_in (λ x, x ∉ fin ++ [h]) (λ x, x ∉ fin) hs) by set_solver. done.
Qed.

Lemma parents_first_closed d l a b :
  DagStore.wf d → parents_first d l → (∀ x, x ∈ l → is_Some (certs d !! x)) →
  a ∈ l → reaches d a b → b ∈ l.
Proof.
  intros Hw Hpf Hst Ha Hr. revert b Hr. apply (rtc_ind_r (λ b, b ∈ l) a); [done|].
  intros x y _ (c & Hc & Hy) Hx. apply list_elem_of_split in Hx as (pre & post & ->).
  pose proof (Hpf pre x post c y eq_refl Hc Hy). set_solver.
Qed.

Lemma parents_first_prefix d l l' : parents_first d l' → l `prefix_of` l' → parents_first d l.
Proof.
  intros Hpf [k ->] pre h post c p -> Hc Hp. eapply (Hpf pre h (post ++ k)); [|done..].
  by rewrite <-app_assoc.
Qed.

(** One leader of the walk: where the committed prefix [L] stands relative to
    the finalized sequence before ([F0]) and after ([F0 ++ news]) the leader. *)
Lemma leader_position d F0 F L lh hist :
  DagStore.wf d → NoDup F → parents_first d F → (∀ x, x ∈ F → is_Some (certs d !! x)) →
  causal_history d lh = Some hist → lh ∈ hist →
  F0 `prefix_of` L → L `prefix_of` F → F0 ++ filter (λ h, h ∉ F0) hist `prefix_of` F →
  if decide (lh ∈ L) then F0 ++ filter (λ h, h ∉ F0) hist `prefix_of` L
  else F0 ++ filter (λ h, h ∉ F0) hist = L ++ filter (λ h, h ∉ L) hist.
Proof.
  intros Hw Hnd Hpf Hst Eh Hlh H0 HL H1. set (F1 := F0 ++ filter (λ h, h ∉ F0) hist) in *.
  assert (∀ x, x ∈ F1 ↔ x ∈ F0 ∨ x ∈ hist) as HF1.
  { intros x. unfold F1. rewrite elem_of_app, list_elem_of_filter.
    destruct (decide (x ∈ F0)); naive_solver. }
  case_decide as Hin.
  - apply (prefix_by_elements F1 L F Hnd H1 HL). intros x [Hx|Hx]%HF1.
    + by eapply elem_of_prefix.
    + eapply (parents_first_closed d L lh); [done|by eapply parents_first_prefix| |done|].
      { intros y Hy. apply Hst. by eapply elem_of_prefix. }
      by apply (elem_of_causal_history _ _ _ x Eh).
  - assert (L `prefix_of` F1) as [M Em].
    { destruct (prefix_weak_total L F1 F HL H1) as [?|Hp]; [done|]. destruct Hin.
      eapply elem_of_prefix; [|exact Hp]. apply HF1. by right. }
    destruct H0 as [K ->]. unfold F1 in Em. rewrite <-app_assoc in Em. apply app_inv_head in Em.
    assert (filter (λ h, h ∉ F0 ++ K) hist = M) as ->; [|unfold F1; by rewrite Em, <-app_assoc].
    trans (filter (λ h, h ∉ K) (filter (λ h, h ∉ F0) hist)).
    { rewrite list_filter_filter. apply list_filter_iff. set_solver. }
    rewrite Em, filter_app. destruct H1 as [r Er]. unfold F1 in Er. rewrite Em in Er.
    rewrite Er in Hnd. rewrite <-!app_assoc in Hnd. apply NoDup_app in Hnd as (_ & _ & Hnd).
    apply NoDup_app in Hnd as (_ & Hd & _).
    rewrite (filter_none _ K) by (intros x Hx ?; done).
    rewrite filter_all; [done|]. apply Forall_forall. intros x Hx Hk. apply (Hd x Hk). set_solver.
Qed.

(** Why a walk ended where it did. *)
Definition walk_end (s s' : State) (vf : list Vote) (n : N) (F L : list CertHash) : Prop :=
  L = F ∨
  (∃ h rest, F = L ++ h :: rest ∧ h ∈ needed_blocks (inner s') ∧
     ∀ c, certs (dag s) !! h = Some c → authentic_block s h (Certificate.payload_digest c) = None) ∨
  (∃ r lh, decide_slot (dag s) r n = Some (Direct lh) ∧ lh ∉ L ∧
     validator_quorum_met (stake_table s') lh vf = false).

Record walks (s : State) (vf : list Vote) (n : N) (F L : list CertHash) (s' : State)
    (evs : list Event) : Prop := {
  ws_store : same_store s s';
  ws_committed : committed s' = list_to_set (L ++ committed_log evs);
  ws_prefix : L ++ committed_log evs `prefix_of` F;
  ws_executes : executes (certs (dag s)) (blocks s) (substrate (inner s)) (committed_log evs)
                  (substrate (inner s'));
  ws_end : walk_end s s' vf n F (L ++ committed_log evs);
}.

Lemma finalize_rounds_prefix d n rs F0 acc :
  DagStore.wf d → (0 < n)%N →
  finalize_rounds d n rs (F0, list_to_set F0) = Some acc → F0 `prefix_of` acc.1.
Proof.
  intros Hw Hn. revert F0. induction rs as [|r rs IH]; intros F0 E; simpl in E; [by simplify_eq|].
  destruct (decide_slot d r n) as [[lh| |]|]; [| | |done]; simpl in E; try by apply IH.
  destruct (causal_history_total d lh) as [hist Eh]. rewrite Eh in E. simpl in E.
  rewrite extend_finalized_filter in E by (by eapply NoDup_causal_history).
  apply IH in E. by eapply prefix_app_l.
Qed.

Lemma commit_rounds_walks s vf n rs F0 F I L s' evs :
  DagStore.wf (dag s) → (0 < n)%N →
  finalize_rounds (dag s) n rs (F0, list_to_set F0) = Some (F, I) →
  NoDup F → parents_first (dag s) F → (∀ x, x ∈ F → is_Some (certs (dag s) !! x)) →
  F0 `prefix_of` L → L `prefix_of` F → committed s = list_to_set L →
  commit_rounds s vf n rs = Some (s', evs) → walks s vf n F L s' evs.
Proof.
  intros Hw Hn. revert s F0 L evs Hw.
  induction rs as [|r rs IH]; intros s F0 L evs Hw EF Hnd Hpf Hst H0 HL Hc E; simpl in E, EF.
  { simplify_eq. simpl in *. split; rewrite ?app_nil_r; try done; [constructor|].
    left. apply (anti_symm prefix); [done|]. done. }
  destruct (decide_slot (dag s) r n) as [[lh| |]|] eqn:Ed; [| | |done]; simpl in E, EF.
  2,3: by eapply IH.
  destruct (causal_history_total (dag s) lh) as [hist Eh]. rewrite Eh in E, EF. simpl in E, EF.
  pose proof (NoDup_causal_history _ _ _ Eh) as Hnh.
  rewrite extend_finalized_filter in EF by done.
  pose proof (finalize_rounds_prefix _ _ _ _ _ Hw Hn EF) as H1. simpl in H1.
  assert (is_Some (certs (dag s) !! lh)) as Hlh.
  { pose proof (decide_slot_cases (dag s) r n Hw Hn) as Hdc. rewrite Ed in Hdc.
    destruct Hdc as [Hlc _]. destruct (leader_cert_stored _ _ _ _ Hlc) as (c & ? & _). eauto. }
  assert (lh ∈ hist) as Hinh.
  { apply (elem_of_causal_history _ _ _ lh Eh). split; [done|apply rtc_refl]. }
  pose proof (leader_position (dag s) F0 F L lh hist Hw Hnd Hpf Hst Eh Hinh H0 HL H1) as Hpos.
  case_bool_decide as Hin; rewrite Hc, elem_of_list_to_set in Hin.
  { rewrite decide_True in Hpos by done. by eapply IH. }
  rewrite decide_False in Hpos by done.
  destruct (validator_quorum_met _ _ _) eqn:Eq; simpl in E.
  2: { simplify_eq. split; rewrite ?app_nil_r; try done; [constructor|]. right. right. eauto. }
  destruct (commit_history s hist) as [[[s1 e1] stop]|] eqn:E1; [|done]. simpl in E.
  apply commit_history_walked in E1 as [S1 C1 X1 (rest & Er & Hr)];
    [|done|intros x Hx; by apply (elem_of_causal_history _ _ _ x Eh) in Hx as [? _]].
  assert (filter (λ h, h ∉ committed s) hist = filter (λ h, h ∉ L) hist) as Ef.
  { apply filter_ext_in. intros x _. rewrite Hc. set_solver. }
  rewrite Ef in Er. rewrite Hpos, Er in H1, EF. rewrite app_assoc in H1.
  assert (committed s1 = list_to_set (L ++ committed_log e1)) as C1'.
  { rewrite C1, Hc, list_to_set_app_L. set_solver. }
  destruct stop.
  { simplify_eq. split; [done|done|by eapply prefix_app_l|done|]. right. left.
    destruct Hr as (h & Hh & ? & ?). destruct rest as [|h' rest]; simplify_eq/=.
    destruct H1 as [k ->]. exists h, (rest ++ k). split_and!; try done. by rewrite <-app_assoc. }
  subst rest. rewrite app_nil_r in H1, EF.
  destruct (commit_rounds s1 vf n rs) as [[s2 e2]|] eqn:E2; [|done]. simplify_eq/=.
  pose proof S1 as [Hd1 Hb1 _ _ _ _ _].
  destruct (IH s1 (L ++ committed_log e1) (L ++ committed_log e1) e2) as [S2 C2 P2 X2 W2];
    rewrite ?Hd1; try done.
  rewrite <-app_assoc in C2, P2, W2. split; rewrite ?committed_log_app; try done.
  - by etrans.
  - eapply executes_app; [done|]. by rewrite Hd1, Hb1 in X2.
  - destruct W2 as [?|[(h & k & ? & ? & Hna)|(r' & lh' & ? & ? & ?)]]; [by left|..].
    + right. left. exists h, k. split_and!; try done. rewrite <-Hd1.
      intros c0 Hc0. specialize (Hna c0 Hc0). unfold authentic_block in *. by rewrite Hb1 in Hna.
    + right. right. exists r', lh'. rewrite <-Hd1. done.
Qed.

(** ** The rounds the walk visits *)

Definition is_direct (d : DagStore) (n : N) (r : Round) : bool :=
  match decide_slot d r n with Some (Direct _) => true | _ => false end.

Lemma finalize_rounds_direct d n rs acc :
  DagStore.wf d → (0 < n)%N →
  finalize_rounds d n rs acc = finalize_rounds d n (filter (λ r, is_direct d n r = true) rs) acc.
Proof.
  intros Hw Hn. revert acc. induction rs as [|r rs IH]; intros acc; [done|].
  rewrite filter_cons. pose proof (decide_slot_cases d r n Hw Hn) as Hc.
  case_decide as Hd; unfold is_direct in Hd; simpl;
    destruct (decide_slot d r n) as [[lh| |]|] eqn:Ed; try done; simpl; rewrite ?Ed; simpl; try apply IH.
  destruct (causal_history d lh); [apply IH|done].
Qed.

Lemma reaches_round d a b ca cb :
  DagStore.wf d → reaches d a b → certs d !! a = Some ca → certs d !! b = Some cb →
  (Certificate.round cb ≤ Certificate.round ca)%N.
Proof.
  intros Hw Hr Ha. revert b Hr cb. apply (rtc_ind_r (λ b, ∀ cb, certs d !! b = Some cb → _) a).
  - intros cb Hb. by simplify_eq.
  - intros x y _ (c & Hc & Hy) IH cb Hb. destruct (DagStore.wf_parents d Hw x c y Hc Hy) as (pc & ? & ?).
    simplify_eq. specialize (IH c Hc). lia.
Qed.

Lemma quorum_supported_below d r n h c :
  DagStore.wf d → (0 < n)%N → certs d !! h = Some c → quorum_supported d r n h →
  ∃ h' c', certs d !! h' = Some c' ∧ (Certificate.round c < Certificate.round c')%N.
Proof.
  intros Hw Hn Hc (S & ES & Hq). destruct (supporters_spec d h (wrap 64 (r + 1)) Hw) as (S' & ES' & HS).
  simplify_eq. pose proof (quorum_threshold_bound n Hn).
  destruct (decide (S = ∅)) as [->|Hne].
  { rewrite size_empty in Hq. change (wrap 32 (N.of_nat 0)) with 0%N in Hq. lia. }
  apply set_choose_L in Hne as [a Ha]. apply HS in Ha as (h' & c' & Hc' & _ & Hp & _).
  destruct (DagStore.wf_parents d Hw h' c' h Hc' Hp) as (pc & ? & ?). simplify_eq. eauto.
Qed.

Lemma direct_round d n r m :
  DagStore.wf d → (0 < n)%N → DagStore.max_round d = Some m → is_direct d n r = true →
  r ∈ DagStore.rounds d ∧ (r < m)%N.
Proof.
  intros Hw Hn Hm Hd. unfold is_direct in Hd. pose proof (decide_slot_cases d r n Hw Hn) as Hc.
  destruct (decide_slot d r n) as [[lh| |]|]; try done. destruct Hc as [Hl Hc].
  destruct (leader_cert_stored _ _ _ _ Hl) as (c & Hlh & Hr).
  pose proof (DagStore.max_round_spec d Hw) as Hmax. rewrite Hm in Hmax. destruct Hmax as [_ Hmax].
  split.
  - apply elem_of_btree_keys. assert (lh ∈ DagStore.round_hashes d r) as Hin.
    { apply (DagStore.wf_round d Hw). eauto. }
    unfold DagStore.round_hashes in Hin. destruct (DagStore.by_round d !! r); [eauto|].
    by apply elem_of_nil in Hin.
  - subst r. destruct Hc as [Hq|(ah & (ar & _ & Hal & Haq) & Hreach)].
    + destruct (quorum_supported_below _ _ _ _ _ Hw Hn Hlh Hq) as (h' & c' & Hc' & ?).
      specialize (Hmax h' c' Hc'). lia.
    + destruct (leader_cert_stored _ _ _ _ Hal) as (ac & Hac & _).
      pose proof (reaches_round _ _ _ _ _ Hw Hreach Hac Hlh).
      destruct (quorum_supported_below _ _ _ _ _ Hw Hn Hac Haq) as (h' & c' & Hc' & ?).
      specialize (Hmax h' c' Hc'). lia.
Qed.

Lemma range_sorted lo hi : StronglySorted N.le (range lo hi).
Proof.
  unfold range. generalize (N.to_nat (hi - lo)). intros k. generalize 0. induction k as [|k IH]; intros j;
    simpl; constructor; [apply IH|].
  apply Forall_fmap, Forall_forall. intros x Hx%elem_of_seq. simpl. lia.
Qed.

Lemma NoDup_range lo hi : NoDup (range lo hi).
Proof. unfold range. apply NoDup_fmap_2_strong; [intros; lia|apply NoDup_seq]. Qed.

(** [finalize] and the walk visit the same deciding rounds. *)
Lemma finalize_over_rounds d n :
  DagStore.wf d → (0 < n)%N →
  finalize d n = (acc ← finalize_rounds d n (DagStore.rounds d) ([], ∅); Some acc.1).
Proof.
  intros Hw Hn. unfold finalize. pose proof (DagStore.max_round_spec d Hw) as Hmax.
  destruct (DagStore.max_round d) as [m|] eqn:Em.
  - rewrite (finalize_rounds_direct d n (range 0 m)), (finalize_rounds_direct d n (DagStore.rounds d)) by done.
    f_equal. f_equal. apply (sorted_by_key_unique (λ r : N, r)); [done|..].
    + apply StronglySorted_filter. apply range_sorted.
    + apply StronglySorted_filter. apply btree_keys_sorted.
    + apply NoDup_Permutation; [apply NoDup_filter, NoDup_range|apply NoDup_filter, NoDup_btree_keys|].
      intros r. rewrite !list_elem_of_filter, elem_of_range. split; intros [Hd ?]; (split; [done|]).
      * by destruct (direct_round d n r m Hw Hn Em Hd).
      * destruct (direct_round d n r m Hw Hn Em Hd). lia.
  - unfold DagStore.rounds, DagStore.max_round in *. apply btree_keys_last_None in Em. rewrite Em. done.
Qed.

(** C7. The commit walk implements [finalize].  When the certificates a node
    has committed form a prefix [L] of the canonical sequence [F] its DAG
    finalizes, a walk that returns leaves them a prefix of [F]: it appends
    certificates in the order of [F], each executed on the substrate in that
    order with the block its certificate signs, and it stops short of [F] only
    at a certificate whose authentic block is missing, which it records for
    fetching, or behind a decided leader without validator quorum. *)
Theorem commit_walk_refines_finalize s L s1 e1 :
  DagStore.reachable (dag s) → (0 < n_authorities (inner s))%N →
  committed s = list_to_set L →
  commit_rounds s (votes_flat s) (n_authorities (inner s)) (DagStore.rounds (dag s)) = Some (s1, e1) →
  ∃ F, finalize (dag s) (n_authorities (inner s)) = Some F ∧
    (L `prefix_of` F → walks s (votes_flat s) (n_authorities (inner s)) F L s1 e1).
Proof.
  intros Hd Hn HC E. pose proof (DagStore.reachable_wf _ Hd) as Hw.
  destruct (finalize_cases (dag s) (n_authorities (inner s)) Hw Hn) as (F & EF & Hnd & Hpf & Hx).
  exists F. split; [done|]. intros HL. rewrite finalize_over_rounds in EF by done.
  destruct (finalize_rounds _ _ _ _) as [[F' I]|] eqn:EF'; [|done]. simplify_eq/=.
  eapply (commit_rounds_walks s _ _ _ [] F I L); try done.
  - intros x (? & ? & ? & ? & ? & ? & ? & ?)%Hx. done.
  - apply prefix_nil.
Qed.
End commit.
