(* ===== verification/NodeSafety.v ===== *)
(** * What a commit walk guarantees

    Properties of [try_commit] over any state: the Authority Ring changes only
    through approved governance or the ejection of a detected equivocator, the
    epoch counter never goes back, and two nodes that commit the same log hold
    the same substrate. *)

From Stdlib Require Import Strings.String.
From S2P Require Import Prelude Crypto Cert Dag Commit Joint Equivocation Rings FastPath Mempool ExecTypes.
From S2P Require Import Substrate Block Ltp RecordSet Governance NodeState Ingest NodeCommit.
Import DagStore(certs).

#[global] Instance RewardsRing_eq_dec : EqDecision RewardsRing.
Proof. solve_decision. Defined.
#[global] Instance SlashReason_eq_dec : EqDecision SlashReason.
Proof. solve_decision. Defined.
#[global] Instance Intent_eq_dec : EqDecision Intent.
Proof. solve_decision. Defined.

Section safety.
Context `{HB : Blake3, HM : MlDsa65, HN : Bincode}.

Definition need_block (h : CertHash) (s : State) : State :=
  with_inner (λ i, i <| needed_blocks ::= (λ X, {[h]} ∪ X) |>) s.
Definition claim (h : CertHash) (s : State) : State := s <| committed ::= (λ X, {[h]} ∪ X) |>.

(** Rule induction over the steps of the walk. *)
Section walk_induction.
Context (R : State → State → Prop) `{!PreOrder R}.
Context (R_need : ∀ h s, R s (need_block h s)).
Context (R_block : ∀ s h c b s' evs, certs (dag s) !! h = Some c →
  authentic_block s h (Certificate.payload_digest c) = Some b →
  commit_claimed (claim h s) h (Certificate.round c) (bp_intents b) (bp_governance_auth b) = Some (s', evs) →
  R s s').

Lemma commit_history_ind s hist s' evs stop :
  commit_history s hist = Some (s', evs, stop) → R s s'.
Proof using PreOrder0 R_block R_need.
  revert s evs. induction hist as [|h hist IH]; intros s evs E; simpl in E; [by simplify_eq|].
  case_bool_decide; [by eapply IH|]. destruct (certs (dag s) !! h) as [c|] eqn:Ec; [|by eapply IH].
  destruct (authentic_block _ _ _) as [b|] eqn:Eb; [|simplify_eq; apply R_need].
  destruct (commit_claimed _ _ _ _ _) as [[s1 e1]|] eqn:E1; [|done]. simpl in E.
  destruct (commit_history s1 hist) as [[[s2 e2] st]|] eqn:E2; [|done]. simplify_eq/=.
  etrans; [by eapply R_block|]. by eapply IH.
Qed.

Lemma commit_rounds_block_ind s vf n rs s' evs :
  commit_rounds s vf n rs = Some (s', evs) → R s s'.
Proof using PreOrder0 R_block R_need.
  revert s evs. induction rs as [|r rs IH]; intros s evs E; simpl in E; [by simplify_eq|].
  destruct (decide_slot _ _ _) as [[lh| |]|]; [| | |done]; simpl in E; try by eapply IH.
  case_bool_decide; [by eapply IH|]. destruct (validator_quorum_met _ _ _); simpl in E; [|by simplify_eq].
  destruct (causal_history _ _) as [hist|]; [|done]. simpl in E.
  destruct (commit_history s hist) as [[[s1 e1] [|]]|] eqn:E1; [| |done]; simpl in E.
  { simplify_eq. by eapply commit_history_ind. }
  destruct (commit_rounds s1 vf n rs) as [[s2 e2]|] eqn:E2; [|done]. simplify_eq/=.
  etrans; [by eapply commit_history_ind|]. by eapply IH.
Qed.
End walk_induction.

(** The same where the block's contents do not matter. *)
Lemma commit_rounds_ind (R : State → State → Prop) `{!PreOrder R} :
  (∀ h s, R s (need_block h s)) →
  (∀ s h c is_ auths s' evs, certs (dag s) !! h = Some c →
     commit_claimed (claim h s) h (Certificate.round c) is_ auths = Some (s', evs) → R s s') →
  ∀ s vf n rs s' evs, commit_rounds s vf n rs = Some (s', evs) → R s s'.
Proof. intros Hn Hc s vf n rs s' evs. apply (commit_rounds_block_ind R); [done|]. intros. by eapply Hc. Qed.

Lemma commit_rounds_store s vf n rs s' evs :
  commit_rounds s vf n rs = Some (s', evs) → same_store s s'.
Proof.
  apply (commit_rounds_ind same_store).
  - intros h s0. by split.
  - intros s0 h c is_ auths s1 e1 _ E. apply commit_claimed_frame in E as ([? ? ? ? ? ? ?] & _).
    by split.
Qed.

(** ** The Authority Ring *)

Definition without (r : AuthorityRegistry) (a : AuthorityId) : AuthorityRegistry :=
  AuthorityRing.mk (delete a (AuthorityRing.members r)).

(** The changes a walk may make to the ring, given the network id and the
    equivocation proofs queued before it. *)
Inductive ring_change (net : bytes) (proofs : list EquivocationProof)
    : AuthorityRegistry → AuthorityRegistry → Prop :=
| change_admit r a stake pk bls auth r' :
    approved r net (AdmitAuthority a stake pk bls) auth →
    AuthorityRing.admit_member r (AuthorityRing.mk_member a stake pk) = (Ok tt, r') →
    ring_change net proofs r r'
| change_exit r a auth :
    approved r net (ExitAuthority a) auth → ring_change net proofs r (without r a)
| change_eject r a ref auth :
    approved r net (EjectAuthority a ref) auth → ring_change net proofs r (without r a)
| change_equivocator r p :
    p ∈ proofs → ring_change net proofs r (without r (Equivocation.author p)).

Lemma apply_governance_change proofs s i auth r s' evs :
  apply_governance_intent s i auth r = Some (s', evs) →
  rtc (ring_change (manifest_network_id s) proofs) (authority_registry s) (authority_registry s').
Proof.
  unfold apply_governance_intent. destruct auth as [a|]; [|intros [= <- <-]; apply rtc_refl].
  destruct (verify_governed_intent _ _ _ _) as [[[]|e|]|] eqn:Ev; simpl; intros [= E]; try done.
  2: { simplify_eq. apply rtc_refl. }
  apply verify_governed_approved in Ev. unfold enact, apply_admit in E.
  destruct i; try (simplify_eq; apply rtc_refl).
  - destruct (AuthorityRing.admit_member _ _) as [[[]|e|] ar] eqn:Ea; simplify_eq; try apply rtc_refl.
    apply rtc_once. by eapply change_admit.
  - case_bool_decide; simplify_eq; [|apply rtc_refl]. apply rtc_once. by eapply change_exit.
  - case_bool_decide; simplify_eq; [|apply rtc_refl]. apply rtc_once. by eapply change_eject.
Qed.

Lemma apply_queued_change proofs s q r s' evs :
  apply_queued s q r = Some (s', evs) →
  rtc (ring_change (manifest_network_id s) proofs) (authority_registry s) (authority_registry s').
Proof.
  revert s evs. induction q as [|[i env] q IH]; intros s evs; simpl; [intros [= <- <-]; apply rtc_refl|].
  destruct (apply_governance_intent s i env r) as [[s1 e1]|] eqn:E1; [|done]. simpl.
  destruct (apply_queued s1 q r) as [[s2 e2]|] eqn:E2; [|done]. simpl. intros [= <- <-].
  pose proof (apply_governance_ledger _ _ _ _ _ _ E1) as [[? ? ? ? ? ? Hnet ? ? ?] _].
  etrans; [by eapply apply_governance_change|]. rewrite <-Hnet. by eapply IH.
Qed.

Lemma commit_claimed_change proofs s h r is_ auths s' evs :
  commit_claimed s h r is_ auths = Some (s', evs) →
  rtc (ring_change (manifest_network_id s) proofs) (authority_registry s) (authority_registry s').
Proof.
  unfold commit_claimed. destruct (hash_intents is_) as [hs|]; [|done]. simpl.
  destruct (execute_cert _ _ _ _ _) as [i2|]; [|done]. simpl. unfold cross_boundary.
  case_match; simpl; [|intros [= <- <-]; apply rtc_refl].
  destruct (apply_queued _ _ _) as [[s3 e3]|] eqn:Eq; [|done]. simpl. intros [= <- <-].
  by apply (apply_queued_change proofs) in Eq.
Qed.

Lemma eject_spec s ps s' evs :
  eject_equivocators s ps = (s', evs) →
  AuthorityRing.members (authority_registry s') ⊆ AuthorityRing.members (authority_registry s) ∧
  (∀ p, p ∈ ps → AuthorityRing.members (authority_registry s') !! Equivocation.author p = None) ∧
  ∀ net proofs, ps ⊆ proofs →
    rtc (ring_change net proofs) (authority_registry s) (authority_registry s').
Proof.
  revert s evs. induction ps as [|p ps IH]; intros s evs; simpl.
  { intros [= <- <-]. split_and!; [done|set_solver|]. intros; apply rtc_refl. }
  case_bool_decide as Hin.
  - destruct (eject_equivocators _ ps) as [s1 e1] eqn:E1. intros [= <- <-].
    destruct (IH _ _ E1) as (Hsub & Hps & Hch). simpl in Hsub. split_and!.
    + etrans; [exact Hsub|]. apply delete_subseteq.
    + intros q [->|Hq]%elem_of_cons; [|by apply Hps].
      eapply lookup_weaken_None; [|exact Hsub]. apply lookup_delete_eq.
    + intros net proofs Hpr. eapply rtc_l; [|apply (Hch net proofs); set_solver].
      apply (change_equivocator net proofs). set_solver.
  - intros E. destruct (IH _ _ E) as (Hsub & Hps & Hch). split_and!; [done| |].
    + intros q [->|Hq]%elem_of_cons; [|by apply Hps].
      eapply lookup_weaken_None; [|exact Hsub]. by apply eq_None_not_Some.
    + intros net proofs Hpr. apply Hch. set_solver.
Qed.

Definition ring_evolves (proofs : list EquivocationProof) (s s' : State) : Prop :=
  manifest_network_id s' = manifest_network_id s ∧
  rtc (ring_change (manifest_network_id s) proofs) (authority_registry s) (authority_registry s').

#[global] Instance ring_evolves_preorder proofs : PreOrder (ring_evolves proofs).
Proof.
  split; [intros s0; split; [done|apply rtc_refl]|].
  intros s1 s2 s3 [N1 R1] [N2 R2]. split; [congruence|]. etrans; [exact R1|]. by rewrite <-N1.
Qed.

Lemma commit_rounds_change proofs s vf n rs s' evs :
  commit_rounds s vf n rs = Some (s', evs) → ring_evolves proofs s s'.
Proof.
  apply (commit_rounds_ind (ring_evolves proofs)).
  - intros h s0. split; [done|apply rtc_refl].
  - intros s0 h c is_ auths s1 e1 _ E. split.
    + by apply commit_claimed_frame in E as ([? ? ? ? ? ? ?] & _).
    + by apply (commit_claimed_change proofs) in E.
Qed.

(** The outcome of a walk followed by its drain. *)
Lemma try_commit_inv s s' evs :
  try_commit s = Some (s', evs) →
  ∃ s1 e1 e2, commit_rounds s (votes_flat s) (n_authorities (inner s)) (DagStore.rounds (dag s)) = Some (s1, e1) ∧
    eject_equivocators (with_inner (λ i, i <| detected_equivocations := [] |>) s1)
      (detected_equivocations (inner s)) = (s', e2) ∧
    evs = e1 ++ e2 ∧ committed_log evs = committed_log e1.
Proof.
  unfold try_commit. destruct (commit_rounds _ _ _ _) as [[s1 e1]|] eqn:E1; [|done]. simpl.
  pose proof (commit_rounds_store _ _ _ _ _ _ E1) as [_ _ _ Hq _ _ _]. rewrite Hq.
  destruct (eject_equivocators _ _) as [s2 e2] eqn:E2. intros [= <- <-].
  apply eject_ledger in E2 as E2'. destruct E2' as [_ Hlog].
  exists s1, e1, e2. split_and!; try done. by rewrite committed_log_app, Hlog, app_nil_r.
Qed.

Lemma commit_ejects s s' evs :
  try_commit s = Some (s', evs) →
  ∀ p, p ∈ detected_equivocations (inner s) →
    AuthorityRing.members (authority_registry s') !! Equivocation.author p = None.
Proof.
  intros (s1 & e1 & e2 & _ & E2 & _ & _)%try_commit_inv. by destruct (eject_spec _ _ _ _ E2) as (_ & ? & _).
Qed.

(** C9. Who may change the Authority Ring.  Every change a commit walk makes to
    the ring is an admission, exit or ejection that two different authorities
    seated at that moment signed (and, for an admission, the candidate), or the
    removal of an author against whom an equivocation proof was queued; and
    after the walk every such author is out of the ring and the queue is
    empty. *)
Theorem ring_changes_authorised s s' evs :
  try_commit s = Some (s', evs) →
  rtc (ring_change (manifest_network_id s) (detected_equivocations (inner s)))
      (authority_registry s) (authority_registry s') ∧
  detected_equivocations (inner s') = [] ∧
  ∀ p, p ∈ detected_equivocations (inner s) →
    AuthorityRing.members (authority_registry s') !! Equivocation.author p = None.
Proof.
  intros (s1 & e1 & e2 & E1 & E2 & _ & _)%try_commit_inv.
  destruct (commit_rounds_change (detected_equivocations (inner s)) _ _ _ _ _ _ E1) as [_ Hch].
  destruct (eject_spec _ _ _ _ E2) as (_ & Hout & Hej).
  apply eject_ledger in E2 as [[? ? ? ? ? ? ? ? (? & ? & Ei) ?] _].
  split_and!; [|by rewrite Ei|done]. etrans; [exact Hch|]. by apply Hej.
Qed.

(** ** The epoch *)

(** The epoch never goes back, and the ring is fixed within an epoch. *)
Definition epoch_advances (s s' : State) : Prop :=
  (current (epoch (inner s)) ≤ current (epoch (inner s')))%N ∧
  (current (epoch (inner s')) = current (epoch (inner s)) →
     authority_registry s' = authority_registry s ∧ validator_registry s' = validator_registry s ∧
     stake_table s' = stake_table s).

#[global] Instance epoch_advances_preorder : PreOrder epoch_advances.
Proof.
  split; [by split; [lia|]|]. intros s1 s2 s3 [L1 K1] [L2 K2]. split; [lia|]. intros E.
  destruct K1 as (? & ? & ?); [lia|]. destruct K2 as (? & ? & ?); [lia|]. split_and!; congruence.
Qed.

Lemma commit_claimed_epoch s h r is_ auths s' evs :
  commit_claimed s h r is_ auths = Some (s', evs) → epoch_advances s s'.
Proof.
  unfold commit_claimed. destruct (hash_intents is_) as [hs|]; [|done]. simpl.
  destruct (execute_cert _ _ _ _ _) as [i2|] eqn:Ex; [|done]. simpl.
  assert (epoch i2 = epoch (inner s)) as Ee.
  { unfold execute_cert in Ex. by destruct (execute_block _ _) as [[? ?]|]; simplify_eq/=. }
  unfold cross_boundary, boundary_crossed_by. simpl. rewrite Ee.
  case_bool_decide as Hb; [|intros [= <- <-]; split; simpl; rewrite Ee; [lia|done]].
  destruct (apply_queued _ _ _) as [[s3 e3]|] eqn:Eq; [|done]. simpl. intros [= <- <-].
  apply apply_queued_ledger in Eq as [[? ? ? ? ? ? ? ? (? & ? & Ei) ?] _].
  split; rewrite Ei; simpl; [lia|]. intros E. lia.
Qed.

Lemma commit_rounds_epoch s vf n rs s' evs :
  commit_rounds s vf n rs = Some (s', evs) → epoch_advances s s'.
Proof.
  apply (commit_rounds_ind epoch_advances); [done|].
  intros s0 h c is_ auths s1 e1 _ E%commit_claimed_epoch. done.
Qed.

(** ** Widths *)

Definition widths_kept (s s' : State) : Prop :=
  last_authored_round (inner s') = last_authored_round (inner s) ∧
  (n_authorities (inner s) < width 32 → n_authorities (inner s') < width 32)%N.

#[global] Instance widths_kept_preorder : PreOrder widths_kept.
Proof. split; [done|]. intros ??? [? ?] [? ?]. split; [congruence|auto]. Qed.

Lemma same_ledger_widths s s' : same_ledger s s' → widths_kept s s'.
Proof. intros [? ? ? ? ? ? ? ? (? & ? & E) ?]. split; [by rewrite E|done]. Qed.

Lemma commit_claimed_widths s h r is_ auths s' evs :
  commit_claimed s h r is_ auths = Some (s', evs) → widths_kept s s'.
Proof.
  unfold commit_claimed. destruct (hash_intents is_) as [hs|]; [|done]. simpl.
  destruct (execute_cert _ _ _ _ _) as [i2|] eqn:Ex; [|done]. simpl.
  assert (last_authored_round i2 = last_authored_round (inner s) ∧
          n_authorities i2 = n_authorities (inner s)) as [El En].
  { unfold execute_cert in Ex. by destruct (execute_block _ _) as [[? ?]|]; simplify_eq/=. }
  unfold cross_boundary. case_match; simpl.
  2: { intros [= <- <-]. split; simpl; congruence. }
  destruct (apply_queued _ _ _) as [[s3 e3]|] eqn:Eq; [|done]. simpl. intros [= <- <-].
  apply apply_queued_ledger in Eq as [Hl _]. apply same_ledger_widths in Hl as [Hl Hn]. simpl in *.
  split; [congruence|]. rewrite <-En. done.
Qed.

Lemma try_commit_widths s s' evs : try_commit s = Some (s', evs) → widths_kept s s'.
Proof.
  intros (s1 & e1 & e2 & E1 & E2 & _)%try_commit_inv.
  assert (widths_kept s s1) as W.
  { revert E1. apply (commit_rounds_ind widths_kept); [done|].
    intros s0 h c is_ auths s2 e _ E%commit_claimed_widths. done. }
  apply eject_ledger in E2 as [Hl _]. apply same_ledger_widths in Hl. etrans; [exact W|]. done.
Qed.

(** ** Replication *)

(** A log executed from a substrate: each entry is the hash of a certificate,
    and the block executed for it is one whose intents and envelopes hash to
    the digest the certificate carries. *)
Inductive lawful : InMemorySubstrate → list CertHash → InMemorySubstrate → Prop :=
| lawful_nil sub : lawful sub [] sub
| lawful_cons sub c is_ auths rep sub1 hs sub2 :
    Certificate.wf c → compute_payload_digest is_ auths = Certificate.payload_digest c →
    execute_block sub (mk_block (Certificate.round c) is_) = Some (rep, sub1) →
    lawful sub1 hs sub2 → lawful sub (Certificate.hash c :: hs) sub2.

Lemma lawful_cons_inv sub h hs sub2 :
  lawful sub (h :: hs) sub2 →
  ∃ c is_ auths rep sub1, h = Certificate.hash c ∧ Certificate.wf c ∧
    compute_payload_digest is_ auths = Certificate.payload_digest c ∧
    execute_block sub (mk_block (Certificate.round c) is_) = Some (rep, sub1) ∧ lawful sub1 hs sub2.
Proof. inversion 1; subst. eauto 20. Qed.

Lemma lawful_app s1 l1 s2 l2 s3 : lawful s1 l1 s2 → lawful s2 l2 s3 → lawful s1 (l1 ++ l2) s3.
Proof. induction 1; simpl; [done|]. intros. econstructor; eauto. Qed.

Lemma executes_lawful d B sub l sub' :
  DagStore.wf d → map_Forall (λ _ c, Certificate.wf c) (certs d) →
  map_Forall (λ _ b, block_payload_is_consistent b = true) B →
  executes (certs d) B sub l sub' → lawful sub l sub'.
Proof.
  intros Hw Ht Hb. induction 1 as [|sub h c b rep sub1 hs sub2 Hc Hbl Hd Hx Hr IH]; [constructor|].
  pose proof (DagStore.wf_hash d Hw h c Hc) as <-. eapply lawful_cons; [|..|exact Hx|done].
  - by eapply Ht.
  - specialize (Hb _ _ Hbl). unfold block_payload_is_consistent in Hb.
    apply bool_decide_eq_true in Hb. by rewrite Hb.
Qed.

(** Two inputs that a hash or the payload encoding fails to tell apart. *)
Definition collision : Prop := ∃ x y : bytes, x ≠ y ∧ blake3 x = blake3 y.
Definition ambiguous_payload : Prop :=
  ∃ (i1 i2 : list Intent) (a1 a2 : list (N * GovAuth)), i1 ≠ i2 ∧
    unwrap_or (encode_intents i1) [] ++ unwrap_or (encode_gov_auths a1) [] =
    unwrap_or (encode_intents i2) [] ++ unwrap_or (encode_gov_auths a2) [].

Lemma blake3_eq_or x y : blake3 x = blake3 y → x = y ∨ collision.
Proof. intros E. destruct (decide (x = y)); [by left|]. right. by exists x, y. Qed.

Lemma lawful_deterministic sub l sub1 sub2 :
  lawful sub l sub1 → lawful sub l sub2 → sub1 = sub2 ∨ collision ∨ ambiguous_payload.
Proof.
  intros H1. revert sub2. induction H1 as [sub|sub c is_ auths rep s1 hs s2 Hc Hd Hx Hr IH]; intros sub2 H2.
  { inversion H2; subst. by left. }
  apply lawful_cons_inv in H2 as (c' & is' & auths' & rep' & s1' & Eh & Hc' & Hd' & Hx' & Hr').
  destruct (blake3_eq_or _ _ Eh) as [Ep|?]; [|auto].
  apply Certificate.preimage_inj in Ep; [|done..]. unfold Certificate.body in Ep. simplify_eq.
  assert (compute_payload_digest is_ auths = compute_payload_digest is' auths') as Epd by congruence.
  destruct (blake3_eq_or _ _ Epd) as [El|?]; [|auto].
  destruct (decide (is_ = is')) as [->|Hne].
  - assert (s1' = s1) as -> by congruence. by apply IH.
  - right. right. by exists is_, is', auths, auths'.
Qed.
End safety.
