(* ===== verification/Inbox.v ===== *)
(** * The inbox ([run_inbox], [handle_fastpath_cert], [propose_fastpath_tx] and
    [handle_ltp_attestation] of [crates/suwappu-node/src/daemon.rs])

    The reaction of the node to one wire message, for configured and for
    dynamic peers: one step of the node's state machine.  Each handler runs as
    one step; the interleavings of concurrent commit walks are the subject of
    [CommitTasks]. *)

From Stdlib Require Import Strings.String.
From S2P Require Import Prelude Crypto Cert Dag Commit Joint Equivocation Rings FastPath Mempool ExecTypes.
From S2P Require Import Substrate Block Sha3 Ltp RecordSet Governance NodeState Ingest NodeCommit.
Import DagStore(certs).

Section inbox.
Context `{HB : Blake3, HM : MlDsa65, HN : Bincode, HS : Sha3, HL : Blst}.

(** ** The fast-path lane *)

(** The main-lane transactions in the window after the lineage round. *)
Definition window_snapshot (c : FastPathCert) (l : list MainLaneTx) : list MainLaneTx :=
  filter (λ ml, (lineage_round (tx c) < ml_round ml ∧
                 ml_round ml ≤ wrap 64 (lineage_round (tx c) + FAST_PATH_CONFIRMATION_K))%N) l.

(** The accumulation of signers once the certificate passed every check. *)
Definition accumulate (i : StateInner) (self_id : AuthorityId) (c : FastPathCert)
    : StateInner * list Output * list Event :=
  let key := fastpath_key (tx c) in
  let entry := default (mk_cert (tx c) ∅) (fastpath_pending i !! key) in
  let ev k := EvFastPath k (payload_digest (tx c)) (lineage_round (tx c)) in
  let received := if bool_decide (size (FastPath.signers entry) = 0) then [ev FpReceived] else [] in
  let unioned := mk_cert (tx entry) (FastPath.signers entry ∪ FastPath.signers c) in
  let '(entry', outs, signed) :=
    if bool_decide (self_id ∈ FastPath.signers entry) then (unioned, [], [])
    else
      let signers' := {[self_id]} ∪ FastPath.signers unioned in
      (mk_cert (tx entry) signers', [Broadcast (WFastPath (mk_cert (tx c) signers'))], [ev FpSigned]) in
  if bool_decide (fast_path_quorum_size (n_authorities i) ≤ wrap 32 (N.of_nat (size (FastPath.signers entry'))))%N
  then (i <| fastpath_pending ::= delete key |> <| fastpath_committed ::= (λ X, {[key]} ∪ X) |>,
        outs, received ++ signed ++ [ev FpCommitted])
  else (i <| fastpath_pending ::= <[key := entry']> |>, outs, received ++ signed).

Definition handle_fastpath_inner (i : StateInner) (self_id : AuthorityId) (c : FastPathCert)
    : StateInner * list Output * list Event :=
  let key := fastpath_key (tx c) in
  let slashed := [EvFastPath FpSlashed (payload_digest (tx c)) (lineage_round (tx c))] in
  if existsb (λ s_id, bool_decide (n_authorities i ≤ s_id)%N) (bset_elems (FastPath.signers c)) then (i, [], [])
  else
    let conflict := match fastpath_first_payload i !! key with
                    | Some first_payload => bool_decide (first_payload ≠ payload_digest (tx c))
                    | None => false
                    end in
    if conflict then (i, [], slashed)
    else
      let i1 := match fastpath_first_payload i !! key with
                | Some _ => i
                | None => i <| fastpath_first_payload ::= <[key := payload_digest (tx c)]> |>
                end in
      if negb (is_main_lane_consistent c (window_snapshot c (main_lane_index i1))) then (i1, [], slashed)
      else if bool_decide (key ∈ fastpath_committed i1) then (i1, [], [])
      else accumulate i1 self_id c.

Definition handle_fastpath_cert (s : State) (self_id : AuthorityId) (c : FastPathCert)
    : State * list Output * list Event :=
  let '(i, outs, evs) := handle_fastpath_inner (inner s) self_id c in
  (s <| inner := i |>, outs, evs).

Definition propose_fastpath_tx (s : State) (self_id : AuthorityId) (t : FastPathTx)
    : State * list Output * list Event :=
  let key := fastpath_key t in
  let i := inner s in
  if bool_decide (key ∈ fastpath_committed i) then (s, [], [])
  else
    let ev k := EvFastPath k (payload_digest t) (lineage_round t) in
    let i1 := i <| fastpath_first_payload ::= (λ m, match m !! key with
                                                   | Some _ => m
                                                   | None => <[key := payload_digest t]> m
                                                   end) |> in
    let sgs : gset AuthorityId := {[self_id]} in
    let i2 := i1 <| fastpath_pending ::= <[key := mk_cert t sgs]> |> in
    let outs := [Broadcast (WFastPath (mk_cert t sgs))] in
    if bool_decide (fast_path_quorum_size (n_authorities i2) ≤ wrap 32 (N.of_nat (size sgs)))%N
    then (s <| inner := i2 <| fastpath_pending ::= delete key |>
                           <| fastpath_committed ::= (λ X, {[key]} ∪ X) |> |>,
          outs, [ev FpProposed; ev FpCommitted])
    else (s <| inner := i2 |>, outs, [ev FpProposed]).

(** ** The corridor lane *)

Definition handle_ltp_attestation (s : State) (att : CorridorAttestation) : State * list Event :=
  let p := payload att in
  let i := inner s <| ltp_received_count ::= (λ n, wrap 64 (n + 1)) |> in
  let ev k := EvLtp k (source_height p) (Ltp.state_root p) in
  match corridors i !! (source_chain p, target_chain p) with
  | Some corridor =>
      match verify_attestation corridor att with
      | Ok _ => (s <| inner := i <| ltp_latest ::= <[Ltp.corridor_id corridor := p]> |> |>, [ev LtpVerified])
      | _ => (s <| inner := i |>, [ev LtpInvalid])
      end
  | None => (s <| inner := i <| ltp_latest ::= <[corridor_id_fallback p := p]> |> |>, [ev LtpUnverified])
  end.

(** ** Messages *)

(** The votes this node casts for the certificates it just stored. *)
Fixpoint cast_votes (s : State) (self_id : AuthorityId) (ins : list IngestedCert)
    : State * list Output * list Event :=
  match ins with
  | [] => (s, [], [])
  | ic :: rest =>
      let vote := mk_vote self_id (ic_hash ic) in
      let s1 := s <| votes ::= (λ m, <[ic_hash ic := default [] (m !! ic_hash ic) ++ [vote]]> m) |> in
      let '(s2, outs, evs) := cast_votes s1 self_id rest in
      (s2, Broadcast (WVote vote) :: outs, EvVoted (ic_round ic) (ic_hash ic) :: evs)
  end.

Definition handle_cert (s : State) (self_id : AuthorityId) (from : PeerId) (now_ms : N) (c : Certificate)
    : option (State * list Output * list Event) :=
  '(s1, ins, o1) ← ingest_cert s c from now_ms;
  let '(s2, o2, e2) := if AuthorityRing.contains (authority_registry s1) self_id
                       then cast_votes s1 self_id ins else (s1, [], []) in
  '(s3, e3) ← try_commit s2;
  Some (s3, o1 ++ o2, EvReceived (Certificate.round c) (Certificate.hash c) from :: e2 ++ e3).

Definition handle_block (s : State) (is_dynamic : bool) (b : BlockPayload) : State :=
  if is_dynamic then s
  else if negb (block_payload_is_consistent b) then s
  else
    match certs (dag s) !! bp_cert_hash b with
    | Some c =>
        if bool_decide (Certificate.payload_digest c = bp_payload_digest b)
        then s <| blocks ::= <[bp_cert_hash b := b]> |> else s
    | None =>
        match blocks s !! bp_cert_hash b with
        | Some _ => s
        | None => s <| blocks ::= <[bp_cert_hash b := b]> |>
        end
    end.

Definition handle_vote (s : State) (is_dynamic : bool) (v : Vote) : option (State * list Event) :=
  if is_dynamic then Some (s, [])
  else try_commit (s <| votes ::= (λ m, <[candidate v := default [] (m !! candidate v) ++ [v]]> m) |>).

(** The certificates of a round, each followed by its block when held. *)
Definition serve_round (s : State) (from : PeerId) (r : Round) : list Output :=
  let cs := omap (DagStore.get (dag s)) (DagStore.round_hashes (dag s) r) in
  flat_map (λ c, Reply from (WCert c) ::
    match blocks s !! Certificate.hash c with
    | Some b => [Reply from (WBlock b)]
    | None => []
    end) cs.

Definition handle_message (s : State) (self_id : AuthorityId) (from : PeerId) (is_dynamic : bool)
    (now_ms : N) (msg : WireMessage) : option (State * list Output * list Event) :=
  match msg with
  | WCert c => handle_cert s self_id from now_ms c
  | WBlock b => Some (handle_block s is_dynamic b, [], [])
  | WVote v => '(s', evs) ← handle_vote s is_dynamic v; Some (s', [], evs)
  | WGetCert h =>
      Some (s, match DagStore.get (dag s) h with Some c => [Reply from (WCert c)] | None => [] end, [])
  | WFastPath c => Some (if is_dynamic then (s, [], []) else handle_fastpath_cert s self_id c)
  | WLtp a =>
      Some (if is_dynamic then (s, [], [])
            else let '(s', evs) := handle_ltp_attestation s a in (s', [], evs))
  | WPing t => Some (s, [Reply from (WPong t)], [])
  | WPong _ => Some (s, [], [])
  | WGetTip => Some (s, [Reply from (WTip (default 0%N (DagStore.max_round (dag s))))], [])
  | WTip r =>
      Some (if is_dynamic then s
            else if bool_decide (sync_tip (inner s) < r)%N
                 then with_inner (λ i, i <| sync_tip := r |>) s else s, [], [])
  | WGetCertsByRound r => Some (s, serve_round s from r, [])
  | WGetBlock h =>
      Some (s, match blocks s !! h with Some b => [Reply from (WBlock b)] | None => [] end, [])
  end.

(** ** The fast-path lane keeps its word *)

Record fp_ok (i : StateInner) : Prop := {
  fp_pending : ∀ key c, fastpath_pending i !! key = Some c →
    fastpath_key (tx c) = key ∧ fastpath_first_payload i !! key = Some (payload_digest (tx c)) ∧
    key ∉ fastpath_committed i;
  fp_committed : ∀ key, key ∈ fastpath_committed i → is_Some (fastpath_first_payload i !! key);
}.

(** The signer set after a certificate was counted. *)
Definition counted_signers (i : StateInner) (self_id : AuthorityId) (c : FastPathCert) : gset AuthorityId :=
  {[self_id]} ∪ FastPath.signers (default (mk_cert (tx c) ∅) (fastpath_pending i !! fastpath_key (tx c)))
             ∪ FastPath.signers c.

(** What the handler may do with a certificate whose payload is the first one
    recorded for its key. *)
Record fp_handled (i : StateInner) (self_id : AuthorityId) (c : FastPathCert) (i' : StateInner)
    (outs : list Output) (evs : list Event) : Prop := {
  fh_ok : fp_ok i';
  fh_first : fastpath_first_payload i ⊆ fastpath_first_payload i';
  fh_committed : fastpath_committed i ⊆ fastpath_committed i';
  fh_signs : ∀ o, o ∈ outs → ∃ c', o = Broadcast (WFastPath c') ∧ tx c' = tx c ∧
    self_id ∈ FastPath.signers c' ∧
    fastpath_first_payload i' !! fastpath_key (tx c') = Some (payload_digest (tx c'));
  fh_commits : ∀ key, key ∈ fastpath_committed i' → key ∈ fastpath_committed i ∨
    (key = fastpath_key (tx c) ∧
     fastpath_first_payload i' !! key = Some (payload_digest (tx c)) ∧
     (∀ s_id, s_id ∈ FastPath.signers c → (s_id < n_authorities i)%N) ∧
     (fast_path_quorum_size (n_authorities i) ≤ wrap 32 (N.of_nat (size (counted_signers i self_id c))))%N);
}.

Lemma accumulate_handled i self c i' outs evs :
  fp_ok i → fastpath_first_payload i !! fastpath_key (tx c) = Some (payload_digest (tx c)) →
  fastpath_key (tx c) ∉ fastpath_committed i →
  (∀ s_id, s_id ∈ FastPath.signers c → (s_id < n_authorities i)%N) →
  accumulate i self c = (i', outs, evs) → fp_handled i self c i' outs evs.
Proof.
  intros [Hp Hc] Hf Hk Hs. unfold accumulate.
  set (entry := default (mk_cert (tx c) ∅) (fastpath_pending i !! fastpath_key (tx c))).
  assert (fastpath_key (tx entry) = fastpath_key (tx c) ∧ payload_digest (tx entry) = payload_digest (tx c)) as [Ek Ep].
  { subst entry. destruct (fastpath_pending i !! _) as [e|] eqn:El; [|done]. simpl.
    destruct (Hp _ _ El) as (? & ? & _). split; congruence. }
  destruct (if bool_decide (self ∈ FastPath.signers entry) then _ else _) as [[entry' os] sg] eqn:Ee.
  assert (tx entry' = tx entry ∧ FastPath.signers entry' = counted_signers i self c ∧
    (∀ o, o ∈ os → ∃ c', o = Broadcast (WFastPath c') ∧ tx c' = tx c ∧ self ∈ FastPath.signers c')) as (Et & Esg & Hos).
  { unfold counted_signers. fold entry. case_bool_decide; simplify_eq/=.
    - split_and!; [done|set_solver|set_solver].
    - split_and!; [done|set_solver|]. intros o ->%list_elem_of_singleton. eexists. split_and!; [done..|].
      simpl. set_solver. }
  rewrite Esg. destruct (bool_decide (fast_path_quorum_size _ ≤ _)%N) eqn:Hq;
    intros [= <- <- <-]; simpl.
  - apply bool_decide_eq_true in Hq. split; simpl; try done.
    + split; simpl; [|set_solver]. intros key c' [Hne Hl]%lookup_delete_Some.
      destruct (Hp _ _ Hl) as (? & ? & ?). set_solver.
    + set_solver.
    + intros o Ho. destruct (Hos o Ho) as (c' & -> & Etx & ?). exists c'. rewrite Etx. done.
    + intros key [->%elem_of_singleton|?]%elem_of_union; [|by left]. right. done.
  - split; simpl; try done.
    + split; simpl; [|done]. intros key c' [(<- & <-)|(Hne & Hl)]%lookup_insert_Some; [|by apply Hp].
      rewrite Et, Ek, Ep. done.
    + intros o Ho. destruct (Hos o Ho) as (c' & -> & Etx & ?). exists c'. rewrite Etx. done.
    + by left.
Qed.


(** ** Dynamic peers *)

Lemma ingest_unauthentic s c from now :
  ¬ authentic s c → ingest_cert s c from now = Some (s, [], []).
Proof.
  intros Hn. unfold ingest_cert. destruct (ingest_fuel s) as [|fuel] eqn:Ef.
  { unfold ingest_fuel in Ef. lia. }
  simpl. unfold ingest_one. destruct (author_pubkey _ _) as [pk|] eqn:Epk; simpl; [|by destruct fuel].
  destruct (Certificate.verify_signature c pk) eqn:Ev; [|by destruct fuel].
  destruct Hn. by exists pk.
Qed.

(** Dynamic peers are confined.  A message from an unauthenticated peer other
    than a certificate changes nothing and is answered only to that peer; a
    certificate that no seated authority signed amounts to a bare commit
    attempt. *)
Theorem dynamic_peers_confined s self from now msg s' outs evs :
  handle_message s self from true now msg = Some (s', outs, evs) →
  match msg with
  | WCert c => ¬ authentic s c → ∃ e, try_commit s = Some (s', e) ∧ outs = []
  | _ => s' = s ∧ evs = [] ∧ ∀ o, o ∈ outs → ∃ m, o = Reply from m
  end.
Proof.
  destruct msg; simpl; try (intros [= <- <- <-]; split_and!; [done..|]; set_solver).
  - intros E Hn. unfold handle_cert in E. rewrite ingest_unauthentic in E by done. simpl in E.
    destruct (AuthorityRing.contains _ self); simpl in E;
      (destruct (try_commit s) as [[s3 e3]|]; [|done]); simplify_eq/=; eauto.
  - intros [= <- <- <-]. split_and!; [done..|]. intros o. case_match; [|set_solver].
    intros ->%list_elem_of_singleton. eauto.
  - intros [= <- <- <-]. split_and!; [done..|]. unfold serve_round. intros o Ho.
    apply list_elem_of_In, in_flat_map in Ho as (c & _ & Hin). apply list_elem_of_In in Hin.
    apply elem_of_cons in Hin as [->|Hin]; [eauto|]. case_match; [|set_solver].
    apply list_elem_of_singleton in Hin as ->. eauto.
  - intros [= <- <- <-]. split_and!; [done..|]. intros o. case_match; [|set_solver].
    intros ->%list_elem_of_singleton. eauto.
Qed.
End inbox.
