(* ===== verification/Driver.v ===== *)
(** * The node's timers ([run_round_driver], [run_backfill], [run_sync_sweeper]
    and the fan-out helpers of [crates/suwappu-node/src/daemon.rs])

    One iteration of each background loop: authoring a certificate and its
    block, requesting missing rounds, and re-requesting orphans and blocks with
    exponential backoff.  Elapsed and current times are arguments. *)

From Stdlib Require Import Strings.String.
From S2P Require Import Prelude Crypto Cert Dag Commit Joint Equivocation Rings FastPath Mempool ExecTypes.
From S2P Require Import Substrate Block Ltp RecordSet Governance NodeState Ingest NodeCommit.
Import DagStore(certs).

Definition LEADER_TIMEOUT_ROUNDS : N := 4.
Definition MAX_INTENTS_PER_BLOCK : nat := N.to_nat 4096.

(** ** The round driver *)

Section driver.
Context `{HB : Blake3, HM : MlDsa65, HN : Bincode}.

(** Phase 1: the round to author and its parents, or [Some None] to wait. *)
Definition round_gate (s : State) (round_ms elapsed_ms : N) : option (option (Round * list CertHash)) :=
  let n := n_authorities (inner s) in
  let target_round := match last_authored_round (inner s) with
                      | Some r => wrap 64 (r + 1)
                      | None => 0%N
                      end in
  let prev_round := (target_round - 1)%N in
  go ← match last_authored_round (inner s) with
       | None => Some true
       | Some _ =>
           parents_count ← distinct_authors_at (dag s) prev_round n;
           let strict_ok := bool_decide (quorum_threshold n ≤ parents_count)%N in
           let timeout_force := bool_decide (f_plus_one n ≤ parents_count ∧
                                             wrap 64 (round_ms * LEADER_TIMEOUT_ROUNDS) ≤ elapsed_ms)%N in
           Some (strict_ok || timeout_force)
       end;
  if go : bool then parents ← parents_for_round (dag s) target_round n; Some (Some (target_round, parents))
  else Some None.

(** Phase 2: the envelopes of the block's governance intents, consumed from the
    store in block order. *)
Fixpoint take_envelopes (s : State) (l : list (nat * Intent * bytes))
    : list (N * GovAuth) * State :=
  match l with
  | [] => ([], s)
  | (idx, i, h) :: rest =>
      if is_governance_intent i then
        match take_governance_envelope s h with
        | (Some a, s1) => let '(auths, s2) := take_envelopes s1 rest in
                          ((wrap 32 (N.of_nat idx), a) :: auths, s2)
        | (None, s1) => take_envelopes s1 rest
        end
      else take_envelopes s rest
  end.

(** The certificate and block of a round, from the drained intents. *)
Definition build_proposal (s : State) (self_id : AuthorityId) (round : Round) (parents : list CertHash)
    : option (Certificate * BlockPayload * list bytes * State) :=
  let '(is_, pool) := drain_for_block (mempool s) MAX_INTENTS_PER_BLOCK in
  let s1 := s <| mempool := pool |> in
  hashes ← hash_intents is_;
  let '(auths, s2) := take_envelopes s1 (zip (imap (λ k i, (k, i)) is_) hashes) in
  let payload_digest := compute_payload_digest is_ auths in
  cert ← Certificate.sign (Certificate.mk self_id round parents payload_digest []) (self_secret_key s2);
  let b := mk_payload_block payload_digest self_id round (Certificate.hash cert) is_ auths in
  Some (cert, b, hashes, s2).

(** Phase 3: the markers and indices, then the certificate and the block. *)
Definition record_proposal (s : State) (self_id : AuthorityId) (cert : Certificate) (b : BlockPayload)
    (hashes : list bytes) : State :=
  let r := Certificate.round cert in
  let h := Certificate.hash cert in
  let note (i : StateInner) :=
    let i1 := i <| last_authored_round := Some r |> in
    let i2 := if bool_decide (max_observed_round i1 < r)%N then i1 <| max_observed_round := r |> else i1 in
    let i3 := i2 <| blocks_by_round ::= <[r := h]> |> <| tx_to_block ::= index_txs hashes r h |> in
    record_seen self_id r h i3 in
  with_inner note s <| dag := (DagStore.insert (dag s) cert).2 |> <| blocks ::= <[h := b]> |>.

Definition driver_tick (s : State) (self_id : AuthorityId) (round_ms elapsed_ms : N)
    : option (State * list Output) :=
  if negb (AuthorityRing.contains (authority_registry s) self_id) then Some (s, [])
  else
    match round_gate s round_ms elapsed_ms with
    | None => None
    | Some None => Some (s, [])
    | Some (Some (target_round, parents)) =>
        match build_proposal s self_id target_round parents with
        | None => None
        | Some (cert, b, hashes, s1) =>
            Some (record_proposal s1 self_id cert b hashes, [Broadcast (WBlock b); Broadcast (WCert cert)])
        end
    end.
End driver.

(** ** Fan-out *)

(** The outbound channels in iteration order; [true] when [try_send] accepts. *)
Abbreviation Channels := (list (PeerId * bool)) (only parsing).

(** Send to the listed peers until two sends are accepted; [sent] so far. *)
Fixpoint send_until_two (l : Channels) (sent : nat) : list PeerId :=
  match l with
  | [] => []
  | (p, accepts) :: rest =>
      if accepts : bool
      then p :: (if bool_decide (2 ≤ S sent) then [] else send_until_two rest (S sent))
      else send_until_two rest sent
  end.

(** The peers a [GetCert] reaches: the preferred one first. *)
Definition fetch_cert_from_peers (prefer : option PeerId) (outbound : Channels) : list PeerId :=
  match prefer with
  | Some p =>
      let first := match head (filter (λ q : PeerId * bool, q.1 = p) outbound) with
                   | Some (_, true) => [p]
                   | _ => []
                   end in
      first ++ send_until_two (filter (λ q : PeerId * bool, q.1 ≠ p) outbound) (length first)
  | None => send_until_two outbound 0
  end.

Definition fetch_block_from_peers (outbound : Channels) : list PeerId := send_until_two outbound 0.

(** ** Backfill *)

Definition BACKFILL_BATCH_ROUNDS : N := 8.
Definition BACKFILL_LAG_THRESHOLD : N := 2.

(** The rounds one backfill iteration requests. *)
Definition backfill_rounds (s : State) : list Round :=
  let local := default 0%N (DagStore.max_round (dag s)) in
  let target := sync_tip (inner s) in
  if bool_decide (target ≤ saturating_add 64 local BACKFILL_LAG_THRESHOLD)%N then []
  else
    let from_round := saturating_add 64 local 1 in
    let to_round := N.min (saturating_add 64 from_round (BACKFILL_BATCH_ROUNDS - 1)) target in
    range_incl from_round to_round.

(** The peers one round is requested from: two of them, from a rotating start. *)
Definition backfill_peers (outbound : Channels) (r : Round) : list PeerId :=
  let start := N.to_nat (r mod N.of_nat (length outbound)) in
  send_until_two (drop start outbound ++ take start outbound) 0.

Definition backfill_tick (s : State) (outbound : Channels) : list (PeerId * WireMessage) :=
  if bool_decide (outbound = []) then []
  else flat_map (λ r, (λ p, (p, WGetCertsByRound r)) <$> backfill_peers outbound r) (backfill_rounds s).

(** ** The sync sweeper *)

(** One entry: due when its backoff has elapsed, and then its counter moves. *)
Definition sweep_entry (now_ms : N) (acc : gmap CertHash (N * N) * list CertHash) (h : CertHash)
    : gmap CertHash (N * N) * list CertHash :=
  let '(hist, due) := acc in
  let '(last_ms, attempts) := default (0, 0)%N (hist !! h) in
  if bool_decide (orphan_pull_backoff_ms (N.max attempts 1) ≤ now_ms - last_ms)%N
  then (<[h := (now_ms, saturating_add 32 attempts 1)]> hist, due ++ [h])
  else (<[h := (last_ms, attempts)]> hist, due).

Definition sweep_tick (s : State) (now_ms : N) : State * list CertHash * list CertHash :=
  let i := inner s in
  let '(hist, due) := foldl (sweep_entry now_ms) (inflight_fetch_history i, [])
                        (elements (inflight_fetches i)) in
  let needed := filter (λ h, h ∉ committed s) (needed_blocks i) in
  (with_inner (λ i, i <| inflight_fetch_history := hist |> <| needed_blocks := needed |>) s,
   due, elements needed).

(** ** What the driver authors *)

Section authoring.
Context `{HB : Blake3, HM : MlDsa65, HN : Bincode}.

Lemma found_certs d r n found :
  DagStore.wf d → mapM (cert_at d r) (range 0 n) = Some found →
  (∀ h, h ∈ omap id found → ∃ c, certs d !! h = Some c ∧ Certificate.round c = r) ∧
  length (omap id found) ≤ N.to_nat n.
Proof.
  intros Hw E. apply mapM_Some in E. split.
  - intros h Hh. apply list_elem_of_omap in Hh as (o & Ho & Eo). unfold id in Eo. subst o.
    apply list_elem_of_lookup in Ho as (k & Hk).
    destruct (Forall2_lookup_r _ _ _ _ _ E Hk) as (a & _ & Ha).
    apply cert_at_Some in Ha; [|done]. destruct Ha as [(c & ? & ? & _) _]. eauto.
  - apply Forall2_length in E. unfold range in E. rewrite length_fmap, length_seq in E.
    assert (∀ l : list (option CertHash), length (omap id l) ≤ length l) as Hle.
    { unfold id. induction l as [|[x|] l IH]; csimpl; lia. }
    specialize (Hle found). lia.
Qed.

Lemma parents_for_round_spec d r n ps :
  DagStore.wf d → parents_for_round d r n = Some ps →
  (r = 0%N → ps = []) ∧
  (∀ p, p ∈ ps → ∃ c, certs d !! p = Some c ∧ (Certificate.round c < r)%N) ∧
  length ps ≤ N.to_nat n ∧ Forall (λ p, length p = 32) ps.
Proof.
  intros Hw. unfold parents_for_round. case_bool_decide as Hr.
  { intros [= <-]. split_and!; [done|set_solver|simpl; lia|constructor]. }
  destruct (mapM _ _) as [found|] eqn:E; [|done]. simpl. intros [= <-].
  destruct (found_certs _ _ _ _ Hw E) as [Hf Hl]. split_and!; [done| |done|].
  - intros p Hp. destruct (Hf p Hp) as (c & ? & ?). exists c. split; [done|lia].
  - apply Forall_forall. intros p Hp. destruct (Hf p Hp) as (c & Hc & _).
    rewrite <-(DagStore.wf_hash d Hw p c Hc). apply blake3_length.
Qed.

Lemma round_gate_spec s rms el r ps :
  DagStore.wf (dag s) → round_gate s rms el = Some (Some (r, ps)) →
  r = match last_authored_round (inner s) with Some r0 => wrap 64 (r0 + 1) | None => 0%N end ∧
  parents_for_round (dag s) r (n_authorities (inner s)) = Some ps.
Proof.
  intros Hw. unfold round_gate.
  destruct (last_authored_round (inner s)) as [r0|]; simpl.
  - destruct (distinct_authors_at _ _ _) as [k|]; [|done]. simpl. destruct (_ || _); [|done].
    destruct (parents_for_round _ _ _) eqn:Ep; [|done]. simpl. intros [= <- <-]. done.
  - by intros [= <- <-].
Qed.

(** Everything the driver consumes besides the mempool and the envelopes. *)
Lemma take_envelopes_frame s l auths s' :
  take_envelopes s l = (auths, s') → ∃ g, s' = s <| governance_envelopes := g |>.
Proof.
  revert s auths s'. induction l as [|[[idx i] h] l IH]; intros s auths s'; simpl.
  { intros [= <- <-]. exists (governance_envelopes s). by destruct s. }
  destruct (is_governance_intent i); [|apply IH].
  destruct (governance_envelopes s !! h) as [a|].
  - destruct (take_envelopes _ l) as [as2 s2] eqn:E. intros [= <- <-].
    apply IH in E as [g ->]. by exists g.
  - intros E. apply IH in E as [g ->]. by exists g.
Qed.

Lemma build_proposal_spec s self r ps cert b hs s1 :
  build_proposal s self r ps = Some (cert, b, hs, s1) →
  (∃ m g, s1 = s <| mempool := m |> <| governance_envelopes := g |>) ∧
  Certificate.author cert = self ∧ Certificate.round cert = r ∧ Certificate.parents cert = ps ∧
  length (Certificate.payload_digest cert) = 32 ∧
  bp_cert_hash b = Certificate.hash cert ∧ bp_payload_digest b = Certificate.payload_digest cert ∧
  block_payload_is_consistent b = true.
Proof.
  unfold build_proposal. destruct (drain_for_block _ _) as [is_ pool].
  destruct (hash_intents is_) as [hashes|]; [|done]. simpl.
  destruct (take_envelopes _ _) as [auths s2] eqn:Et.
  apply take_envelopes_frame in Et as [g ->].
  unfold Certificate.sign. destruct (mldsa.sign _ _) as [sig|?|]; [|done..]. simpl.
  intros [= <- <- <- <-]. split; [by exists pool, g|]. simpl. split_and!; try done.
  - apply blake3_length.
  - unfold block_payload_is_consistent. simpl. by apply bool_decide_eq_true.
Qed.

(** The driver's own certificate is always accepted, unless it is already
    stored. *)
Lemma own_cert_admitted s rms el self r ps cert b hs s1 :
  DagStore.wf (dag s) → round_gate s rms el = Some (Some (r, ps)) →
  build_proposal s self r ps = Some (cert, b, hs, s1) →
  is_Some (certs (dag s) !! Certificate.hash cert) ∨ DagStore.admissible (dag s) cert.
Proof.
  intros Hw Hg Hb. apply round_gate_spec in Hg as [_ Hp]; [|done].
  apply parents_for_round_spec in Hp as (H0 & Hps & _); [|done].
  apply build_proposal_spec in Hb as (_ & _ & Er & Ep & _).
  destruct (certs (dag s) !! Certificate.hash cert) eqn:E; [left; eauto|right].
  unfold DagStore.admissible. rewrite Er, Ep. done.
Qed.

(** The two outcomes of a tick. *)
Lemma driver_tick_inv s self rms el s' outs :
  driver_tick s self rms el = Some (s', outs) →
  (s' = s ∧ outs = []) ∨
  ∃ r ps c b hs s1, round_gate s rms el = Some (Some (r, ps)) ∧
    build_proposal s self r ps = Some (c, b, hs, s1) ∧ s' = record_proposal s1 self c b hs ∧
    outs = [Broadcast (WBlock b); Broadcast (WCert c)].
Proof.
  unfold driver_tick. destruct (AuthorityRing.contains _ self); cbn [negb].
  2: { intros [= <- <-]. by left. }
  destruct (round_gate s rms el) as [[[r ps]|]|]; [| |done].
  2: { intros [= <- <-]. by left. }
  destruct (build_proposal s self r ps) as [[[[c b] hs] s1]|] eqn:Eb; [|done].
  intros [= <- <-]. right. by exists r, ps, c, b, hs, s1.
Qed.
End authoring.

(** ** How much the sync tasks send *)

(** The peers whose channel takes a message, in order. *)
Definition accepting (l : Channels) : list PeerId := fst <$> filter (λ q : PeerId * bool, q.2 = true) l.

Lemma send_until_two_take l k : k < 2 → send_until_two l k = take (2 - k) (accepting l).
Proof.
  unfold accepting. revert k. induction l as [|[p []] l IH]; intros k Hk; cbn [send_until_two].
  - rewrite filter_nil, fmap_nil. by rewrite take_nil.
  - rewrite filter_cons_True, fmap_cons by done. cbn [fst]. case_bool_decide.
    + replace (2 - k) with 1 by lia. done.
    + rewrite IH by lia. replace (2 - k) with (S (2 - S k)) by lia. done.
  - rewrite filter_cons_False by done. by apply IH.
Qed.

Lemma elem_of_accepting (l : Channels) p : p ∈ accepting l ↔ (p, true) ∈ l.
Proof.
  unfold accepting. rewrite list_elem_of_fmap. split.
  - intros ([q b] & -> & [Hb Hq]%list_elem_of_filter). simpl in *. by subst.
  - intros Hp. exists (p, true). split; [done|]. by apply list_elem_of_filter.
Qed.

Lemma NoDup_accepting (l : Channels) : NoDup l.*1 → NoDup (accepting l).
Proof. intros. eapply sublist_NoDup; [done|apply fmap_sublist, sublist_filter]. Qed.

(** The preferred peer first, then the others. *)
Definition preference (prefer : option PeerId) (l : Channels) : list PeerId :=
  match prefer with
  | Some p => (if bool_decide (p ∈ accepting l) then [p] else []) ++
              accepting (filter (λ q : PeerId * bool, q.1 ≠ p) l)
  | None => accepting l
  end.

Lemma preference_perm prefer (l : Channels) : NoDup l.*1 → preference prefer l ≡ₚ accepting l.
Proof.
  intros Hnd. destruct prefer as [p|]; [simpl|done].
  assert (∀ q, q ∈ accepting (filter (λ q : PeerId * bool, q.1 ≠ p) l) ↔ q ≠ p ∧ q ∈ accepting l) as Hin.
  { intros q. by rewrite !elem_of_accepting, list_elem_of_filter. }
  apply NoDup_Permutation; [|by apply NoDup_accepting|].
  - apply NoDup_app. split_and!.
    + case_bool_decide; [apply NoDup_singleton|constructor].
    + intros q Hq Hq'. apply Hin in Hq' as [? _]. case_bool_decide; set_solver.
    + apply NoDup_accepting. eapply sublist_NoDup; [done|apply fmap_sublist, sublist_filter].
  - intros q. rewrite elem_of_app, Hin. destruct (decide (q = p)) as [->|].
    + case_bool_decide; set_solver.
    + case_bool_decide; set_solver.
Qed.

Lemma fetch_cert_take prefer (l : Channels) :
  NoDup l.*1 → fetch_cert_from_peers prefer l = take 2 (preference prefer l).
Proof.
  intros Hnd. destruct prefer as [p|]; simpl; [|by rewrite send_until_two_take by lia].
  assert (match head (filter (λ q : PeerId * bool, q.1 = p) l) with Some (_, true) => [p] | _ => [] end =
          if bool_decide (p ∈ accepting l) then [p] else []) as ->.
  { assert (∀ b, (p, b) ∈ l → head (filter (λ q : PeerId * bool, q.1 = p) l) = Some (p, b)) as Hh.
    { induction l as [|[q b] l IH]; intros b' Hb; [set_solver|].
      apply NoDup_cons in Hnd as [Hq Hnd]. rewrite filter_cons. case_decide as Hqp; simpl in *.
      - subst q. apply elem_of_cons in Hb as [[= ->]|Hb]; [done|]. destruct Hq.
        apply list_elem_of_fmap. by exists (p, b').
      - apply elem_of_cons in Hb as [[= -> ->]|Hb]; [done|]. by apply IH. }
    case_bool_decide as Ha; [by rewrite (Hh true) by (by apply elem_of_accepting)|].
    destruct (head _) as [[q []]|] eqn:Eh; try done. destruct Ha. apply elem_of_accepting.
    destruct (filter _ l) as [|x fl] eqn:Ef; [done|]. injection Eh as ->.
    assert ((q, true) ∈ filter (λ q : PeerId * bool, q.1 = p) l) as Hf by (rewrite Ef; constructor).
    apply list_elem_of_filter in Hf as [Hq ?]. simpl in Hq. by subst. }
  case_bool_decide; simpl; by rewrite send_until_two_take by lia.
Qed.

(** *** Pacing *)

Lemma backoff_bounds a : (500 ≤ orphan_pull_backoff_ms a ≤ 5000)%N.
Proof.
  unfold orphan_pull_backoff_ms. rewrite N.shiftl_mul_pow2.
  assert (1 ≤ 2 ^ N.min (a - 1) 6)%N by (apply N.lt_pred_le, N.neq_0_lt_0, N.pow_nonzero; lia). lia.
Qed.

Lemma backoff_mono a b : (a ≤ b → orphan_pull_backoff_ms a ≤ orphan_pull_backoff_ms b)%N.
Proof.
  intros Hab. unfold orphan_pull_backoff_ms. rewrite !N.shiftl_mul_pow2.
  assert (2 ^ N.min (a - 1) 6 ≤ 2 ^ N.min (b - 1) 6)%N by (apply N.pow_le_mono_r; lia). lia.
Qed.

(** Whether an entry of the fetch history is due. *)
Definition due_at (hist : gmap CertHash (N * N)) (now_ms : N) (h : CertHash) : bool :=
  let '(last_ms, attempts) := default (0, 0)%N (hist !! h) in
  bool_decide (orphan_pull_backoff_ms (N.max attempts 1) ≤ now_ms - last_ms)%N.

Lemma sweep_entry_cases now hist due h :
  ∃ e, sweep_entry now (hist, due) h = (<[h := e]> hist, due ++ (if due_at hist now h then [h] else [])) ∧
       (due_at hist now h = true → e.1 = now).
Proof.
  unfold sweep_entry, due_at. destruct (default (0, 0)%N (hist !! h)) as [la n].
  case_bool_decide; eexists; (split; [rewrite ?app_nil_r; reflexivity|done]).
Qed.

Lemma sweep_entries now l hist due hist' due' :
  NoDup l → foldl (sweep_entry now) (hist, due) l = (hist', due') →
  due' = due ++ filter (λ h, due_at hist now h = true) l ∧
  (∀ h, h ∉ l → hist' !! h = hist !! h) ∧
  (∀ h, h ∈ l → due_at hist now h = true → ∃ n, hist' !! h = Some (now, n)).
Proof.
  revert hist due. induction l as [|x l IH]; intros hist due Hnd E; cbn [foldl] in E.
  { simplify_eq. rewrite filter_nil, app_nil_r. split_and!; [done..|set_solver]. }
  apply NoDup_cons in Hnd as [Hx Hnd].
  destruct (sweep_entry_cases now hist due x) as ([la n] & Ee & Hla). rewrite Ee in E.
  destruct (IH _ _ Hnd E) as (-> & Hsame & Hdue).
  assert (∀ h, h ≠ x → due_at (<[x := (la, n)]> hist) now h = due_at hist now h) as Hne.
  { intros h Hh. unfold due_at. by rewrite lookup_insert_ne. }
  split_and!.
  - rewrite filter_cons, <-app_assoc. f_equal.
    assert (filter (λ h, due_at (<[x := (la, n)]> hist) now h = true) l =
            filter (λ h, due_at hist now h = true) l) as ->.
    { apply filter_ext_in. intros h Hh. rewrite Hne; [done|]. by intros ->. }
    destruct (due_at hist now x); by case_decide.
  - intros h [Hhx Hhl]%not_elem_of_cons. rewrite Hsame by done. by rewrite lookup_insert_ne.
  - intros h [->|Hh]%elem_of_cons Hd.
    + rewrite Hsame, lookup_insert_eq by done. apply Hla in Hd. simpl in Hd. subst. eauto.
    + apply Hdue; [done|]. rewrite Hne; [done|]. by intros ->.
Qed.

Lemma backfill_rounds_spec s (local := default 0%N (DagStore.max_round (dag s))) :
  length (backfill_rounds s) ≤ 8 ∧
  (∀ r, r ∈ backfill_rounds s → (local < r ≤ sync_tip (inner s))%N ∨ (width 64 - 1 ≤ local)%N) ∧
  (backfill_rounds s ≠ [] → (local + 2 < sync_tip (inner s))%N ∨ (width 64 - 1 ≤ local + 2)%N).
Proof.
  subst local. unfold backfill_rounds. set (local := default 0%N _).
  case_bool_decide as Hl; [split_and!; [simpl; lia|set_solver|done]|].
  unfold saturating_add, BACKFILL_BATCH_ROUNDS, BACKFILL_LAG_THRESHOLD in *.
  pose proof (width_pos 64). split_and!.
  - unfold range_incl, range. rewrite length_fmap, length_seq. lia.
  - intros r Hr%elem_of_range_incl. lia.
  - intros _. lia.
Qed.

