(* ===== verification/Client.v ===== *)
(** * The client listener ([handle_conn] and [run] of
    [crates/suwappu-node/src/client.rs])

    The reaction to one client message (single, batched and governed
    submissions, and the liveness probe) and the connection accounting of the
    listener.  [now] gives the clock at each mempool submission of a batch. *)

From Stdlib Require Import Strings.String.
From stdpp Require Import strings.
From S2P Require Import Prelude Crypto Cert Dag Commit Joint Equivocation Rings FastPath Mempool ExecTypes.
From S2P Require Import Substrate Block Ltp RecordSet Governance NodeState Ingest NodeCommit.

Inductive ClientMessage :=
| Submit (i : Intent) (signature signer_pubkey_hash : bytes)
| SubmitBatch (is_ : list Intent) (signatures : list bytes) (signer_pubkey_hash : bytes)
| Ping (t : N)
| SubmitGoverned (i : Intent) (auth : GovAuth).

(** Why a submission was refused. *)
Inductive Refusal :=
| AuthRefused (o : AuthOutcome)
| BatchLengthMismatch (n_intents n_signatures : nat)
| GovernedRefused (reason : string)
| MempoolRefused (e : MempoolError).

Inductive ClientResponse :=
| Ack (intent_hash : bytes)
| AckBatch (intent_hashes : list bytes)
| RespErr (r : Refusal)
| Pong (t : N).

Definition DEFAULT_INTENT_PRIORITY : N := 0.

Section client.
Context `{HB : Blake3, HM : MlDsa65, HN : Bincode}.

Definition intent_hash (i : Intent) : option bytes := b ← expect (encode_intent i); Some (blake3 b).

(** One call of [state.mempool.submit]. *)
Definition enqueue (s : State) (i : Intent) (peer : string) (now_ms : N)
    : option (outcome MempoolError unit * State) :=
  match submit encode_intent (mempool s) i DEFAULT_INTENT_PRIORITY (Some peer) now_ms with
  | (Ok _, m) => Some (Ok tt, s <| mempool := m |>)
  | (Err e, m) => Some (Err e, s <| mempool := m |>)
  | (Panic, _) => None
  end.

(** The verification pass over a batch: the first refusal. *)
Fixpoint verify_batch (s : State) (l : list (Intent * bytes)) (h : bytes) : option (option AuthOutcome) :=
  match l with
  | [] => Some None
  | (i, sig) :: rest =>
      o ← verify_signed_intent (authority_registry s) (manifest_network_id s) i sig h;
      match o with
      | Authorized => verify_batch s rest h
      | _ => Some (Some o)
      end
  end.

(** The submission pass: stops at the first mempool error, keeping what it
    already queued. *)
Fixpoint enqueue_batch (s : State) (is_ : list Intent) (peer : string) (now : nat → N) (hashes : list bytes)
    : option (State * ClientResponse * bool) :=
  match is_ with
  | [] => Some (s, AckBatch hashes, true)
  | i :: rest =>
      h ← intent_hash i;
      '(res, s1) ← enqueue s i peer (now 0);
      match res with
      | Ok _ => enqueue_batch s1 rest peer (λ k, now (S k)) (hashes ++ [h])
      | Err e => Some (s1, RespErr (MempoolRefused e), false)
      | Panic => None
      end
  end.

(** Submit one verified intent and answer. *)
Definition enqueue_one (s : State) (i : Intent) (peer : string) (now_ms : N) (h : bytes)
    : option (State * ClientResponse * bool) :=
  '(res, s1) ← enqueue s i peer now_ms;
  match res with
  | Ok _ => Some (s1, Ack h, true)
  | Err e => Some (s1, RespErr (MempoolRefused e), false)
  | Panic => None
  end.

(** The new state, the response, and whether the connection stays open. *)
Definition handle_client_message (s : State) (peer : string) (now : nat → N) (m : ClientMessage)
    : option (State * ClientResponse * bool) :=
  let r := authority_registry s in
  let net := manifest_network_id s in
  match m with
  | Submit i signature h =>
      o ← verify_signed_intent r net i signature h;
      match o with
      | Authorized => ih ← intent_hash i; enqueue_one s i peer (now 0) ih
      | _ => Some (s, RespErr (AuthRefused o), false)
      end
  | SubmitBatch is_ signatures h =>
      if bool_decide (length signatures ≠ length is_)
      then Some (s, RespErr (BatchLengthMismatch (length is_) (length signatures)), false)
      else
        bad ← verify_batch s (zip is_ signatures) h;
        match bad with
        | Some o => Some (s, RespErr (AuthRefused o), false)
        | None => enqueue_batch s is_ peer now []
        end
  | SubmitGoverned i auth =>
      res ← verify_governed_intent r net i auth;
      match res with
      | Err reason => Some (s, RespErr (GovernedRefused reason), false)
      | Panic => None
      | Ok _ =>
          ih ← intent_hash i;
          enqueue_one (remember_governance_envelope s ih auth) i peer (now 0) ih
      end
  | Ping t => Some (s, Pong t, true)
  end.

(** ** What a client message may change *)

(** Only the mempool and the envelope store change. *)
Definition client_frame (s s' : State) : Prop :=
  ∃ m g, s' = s <| mempool := m |> <| governance_envelopes := g |>.

#[global] Instance client_frame_preorder : PreOrder client_frame.
Proof.
  split.
  - intros s. exists (mempool s), (governance_envelopes s). by destruct s.
  - intros s1 s2 s3 (m & g & ->) (m' & g' & ->). by exists m', g'.
Qed.

Lemma enqueue_frame s i peer now res s' : enqueue s i peer now = Some (res, s') → client_frame s s'.
Proof.
  unfold enqueue. destruct (submit _ _ _ _ _ _) as [[] m]; intros [= <- <-];
    by exists m, (governance_envelopes s).
Qed.

Lemma enqueue_one_frame s i peer now h s' resp keep :
  enqueue_one s i peer now h = Some (s', resp, keep) → client_frame s s'.
Proof.
  unfold enqueue_one. destruct (enqueue s i peer now) as [[res s1]|] eqn:E; [|done]. simpl.
  apply enqueue_frame in E. destruct res; intros [= <- <- <-]; done.
Qed.

Lemma enqueue_batch_frame s is_ peer now hs s' resp keep :
  enqueue_batch s is_ peer now hs = Some (s', resp, keep) → client_frame s s'.
Proof.
  revert s now hs. induction is_ as [|i is_ IH]; intros s now hs; simpl; [by intros [= <- <- <-]|].
  destruct (intent_hash i) as [h|]; [|done]. simpl.
  destruct (enqueue s i peer (now 0)) as [[res s1]|] eqn:E; [|done]. simpl. apply enqueue_frame in E.
  destruct res; [|by intros [= <- <- <-]|done]. intros E2. apply IH in E2. by etrans.
Qed.

Lemma remember_frame s h auth : client_frame s (remember_governance_envelope s h auth).
Proof.
  unfold remember_governance_envelope. case_bool_decide; [done|].
  exists (mempool s), (<[h := auth]> (governance_envelopes s)). reflexivity.
Qed.

Lemma handle_client_frame s peer now m s' resp keep :
  handle_client_message s peer now m = Some (s', resp, keep) → client_frame s s'.
Proof.
  destruct m as [i sig h|is_ sigs h|t|i auth]; simpl.
  - destruct (verify_signed_intent _ _ _ _ _) as [[]|]; simpl; try (by intros [= <- <- <-]); try done.
    destruct (intent_hash i); [|done]. apply enqueue_one_frame.
  - case_bool_decide; [by intros [= <- <- <-]|].
    destruct (verify_batch _ _ _) as [[o|]|]; simpl; [by intros [= <- <- <-]| |done].
    apply enqueue_batch_frame.
  - by intros [= <- <- <-].
  - destruct (verify_governed_intent _ _ _ _) as [[[]|?|]|]; simpl; try (by intros [= <- <- <-]); try done.
    destruct (intent_hash i) as [ih|]; [|done]. simpl. intros E%enqueue_one_frame.
    etrans; [apply remember_frame|exact E].
Qed.

(** ** What reaches the mempool *)

(** An intent the ring stands behind: one seated signature for an ordinary
    intent, an approved envelope for a governance intent. *)
Definition authorised (s : State) (i : Intent) : Prop :=
  (is_governance_intent i = false ∧ ∃ a pk sig, seated_key (authority_registry s) a pk ∧
     signs (manifest_network_id s) i pk sig) ∨
  ∃ auth, approved (authority_registry s) (manifest_network_id s) i auth.

(** The intents a message carries. *)
Definition carried (m : ClientMessage) : list Intent :=
  match m with
  | Submit i _ _ | SubmitGoverned i _ => [i]
  | SubmitBatch is_ _ _ => is_
  | Ping _ => []
  end.

(** The queue of [s'] is that of [s] with some of the intents [is_] added. *)
Definition admits (is_ : list Intent) (s s' : State) : Prop :=
  ∀ k e, queue (mempool s') !! k = Some e → queue (mempool s) !! k = Some e ∨ intent e ∈ is_.

Lemma admits_trans is1 is2 s1 s2 s3 :
  admits is1 s1 s2 → admits is2 s2 s3 → admits (is1 ++ is2) s1 s3.
Proof.
  intros H1 H2 k e Hk. rewrite elem_of_app. destruct (H2 k e Hk) as [Hk2|?]; [|by auto].
  destruct (H1 k e Hk2); auto.
Qed.

Lemma pool_submit_queue (m : NodeMempool) i p peer now res m' k e :
  submit encode_intent m i p peer now = (res, m') → queue m' !! k = Some e →
  queue m !! k = Some e ∨ (intent e = i ∧ res = Ok (key_hash k)).
Proof.
  unfold submit. destruct (encode_intent i) as [b|?|]; [|intros [= <- <-]; by left..].
  destruct (rate_limit m peer now) as [rl m1] eqn:E1.
  apply rate_limit_frame in E1 as (Hq & _ & _ & _). rewrite <-Hq.
  destruct rl; [|intros [= <- <-]; by left..]. case_bool_decide; [intros [= <- <-]; by left|].
  destruct (make_room m1 p) as [room m2] eqn:E2.
  assert (queue m2 ⊆ queue m1) as Hsub.
  { destruct (make_room_cases m1 p) as [[_ E]|[(_ & _ & [[_ E]|[_ E]])|(_ & k0 & _ & _ & [[_ E]|[_ E]])]];
      rewrite E in E2; simplify_eq; simpl; try done. apply delete_subseteq. }
  destruct room; intros [= <- <-]; try (intros Hk; left; by eapply lookup_weaken).
  simpl. intros [[<- <-]|[_ Hk]]%lookup_insert_Some; [by right|]. left. by eapply lookup_weaken.
Qed.

(** The outcome of submitting verified intents. *)
Record queued (is_ : list Intent) (s s' : State) (resp : ClientResponse) (keep : bool) : Prop := {
  qd_admits : admits is_ s s';
  qd_envelopes : governance_envelopes s' = governance_envelopes s;
  qd_answer : (keep = true ∧ ∀ r, resp ≠ RespErr r) ∨ (keep = false ∧ ∃ e, resp = RespErr (MempoolRefused e));
}.

Lemma enqueue_admits s i peer now res s' :
  enqueue s i peer now = Some (res, s') → admits [i] s s' ∧ governance_envelopes s' = governance_envelopes s.
Proof.
  unfold enqueue. destruct (submit _ _ _ _ _ _) as [r m] eqn:E. intros E'.
  assert (s' = s <| mempool := m |>) as -> by (by destruct r; simplify_eq). split; [|done].
  intros k e Hk. destruct (pool_submit_queue _ _ _ _ _ _ _ _ _ E Hk) as [?|[-> _]]; set_solver.
Qed.

Lemma enqueue_one_queued s i peer now h s' resp keep :
  enqueue_one s i peer now h = Some (s', resp, keep) → queued [i] s s' resp keep.
Proof.
  unfold enqueue_one. destruct (enqueue s i peer now) as [[res s1]|] eqn:E; [|done]. simpl.
  apply enqueue_admits in E as [Ha He]. destruct res; intros [= <- <- <-]; split; naive_solver.
Qed.

Lemma enqueue_batch_queued s is_ peer now hs s' resp keep :
  enqueue_batch s is_ peer now hs = Some (s', resp, keep) → queued is_ s s' resp keep.
Proof.
  revert s now hs. induction is_ as [|i is_ IH]; intros s now hs; simpl.
  { intros [= <- <- <-]. split; [by left|done|by left]. }
  destruct (intent_hash i) as [h|]; [|done]. simpl.
  destruct (enqueue s i peer (now 0)) as [[res s1]|] eqn:E; [|done]. simpl.
  apply enqueue_admits in E as [Ha He]. destruct res; [| |done].
  - intros [H1 H2 H3]%IH. split; [exact (admits_trans [i] is_ _ _ _ Ha H1)|congruence|done].
  - intros [= <- <- <-]. split; [|done|by eauto]. intros k e' Hk. destruct (Ha k e' Hk); set_solver.
Qed.

(** A signature the single-signature gate accepts. *)
Lemma verify_signed_authorised s i sig h :
  verify_signed_intent (authority_registry s) (manifest_network_id s) i sig h = Some Authorized →
  authorised s i.
Proof.
  unfold verify_signed_intent. destruct (is_governance_intent i) eqn:Eg; [done|].
  intros (pk & Hf & Hs)%verify_single_Authorized.
  apply find_signer_Some in Hf as [_ [a Hk]]. left. eauto 10.
Qed.

Lemma verify_batch_authorised s l h :
  verify_batch s l h = Some None → Forall (λ p, authorised s p.1) l.
Proof.
  induction l as [|[i sig] l IH]; simpl; [done|].
  destruct (verify_signed_intent _ _ _ _ _) as [[]|] eqn:E; simpl; try done.
  intros Hb. constructor; [by eapply verify_signed_authorised|by apply IH].
Qed.

Lemma verify_batch_refusal s l h o : verify_batch s l h = Some (Some o) → o ≠ Authorized.
Proof.
  induction l as [|[i sig] l IH]; simpl; [done|].
  destruct (verify_signed_intent _ _ _ _ _) as [[]|]; simpl; try done; by intros [= <-].
Qed.

(** The envelope store after a verified governed submission. *)
Lemma remember_spec s h auth (s' := remember_governance_envelope s h auth) :
  mempool s' = mempool s ∧
  (∀ h' a, governance_envelopes s' !! h' = Some a →
     governance_envelopes s !! h' = Some a ∨ (h' = h ∧ a = auth)) ∧
  size (governance_envelopes s') ≤ Nat.max MAX_GOVERNANCE_ENVELOPES (size (governance_envelopes s)).
Proof.
  subst s'. unfold remember_governance_envelope. case_bool_decide as Hc; [split_and!; [done|by left|lia]|].
  simpl. split_and!; [done| |].
  - intros h' a [[<- <-]|[_ ?]]%lookup_insert_Some; auto.
  - rewrite map_size_insert. destruct (governance_envelopes s !! h) as [a|] eqn:E; simpl; [lia|].
    assert (¬ MAX_GOVERNANCE_ENVELOPES ≤ size (governance_envelopes s)) by (intros ?; by apply Hc).
    unfold MAX_GOVERNANCE_ENVELOPES in *. lia.
Qed.

End client.

(** ** The listener *)

Module Listener.
Record ClientListenLimits := mk_limits { max_connections : N; per_ip_limit : N; idle_timeout_ms : N }.

(** The permits in use and the open connections per address. *)
Record Listener := mk { permits : N; per_ip : gmap string N }.

Definition new : Listener := mk 0 ∅.

(** [true] when the connection is served. *)
Definition accept (l : ClientListenLimits) (s : Listener) (ip : string) : bool * Listener :=
  if bool_decide (max_connections l ≤ permits s)%N then (false, s)
  else
    let count := default 0%N (per_ip s !! ip) in
    if bool_decide (per_ip_limit l ≤ count)%N
    then (false, mk (permits s) (<[ip := count]> (per_ip s)))
    else (true, mk (permits s + 1) (<[ip := (count + 1)%N]> (per_ip s))).

(** The end of a served connection. *)
Definition close (s : Listener) (ip : string) : Listener :=
  mk (permits s - 1)
     (match per_ip s !! ip with
      | Some c => if bool_decide (c ≤ 1)%N then delete ip (per_ip s) else <[ip := (c - 1)%N]> (per_ip s)
      | None => per_ip s
      end).

(** *** Accounting *)

(** The served connections, by address, that a sequence of arrivals and closes
    leaves open. *)
Inductive serving (l : ClientListenLimits) : list string → Listener → Prop :=
| serving_new : serving l [] new
| serving_accept cs s ip ok s' :
    serving l cs s → accept l s ip = (ok, s') → serving l (if ok : bool then ip :: cs else cs) s'
| serving_close cs1 ip cs2 s :
    serving l (cs1 ++ ip :: cs2) s → serving l (cs1 ++ cs2) (close s ip).

Definition conns (ip : string) (cs : list string) : nat := length (filter (λ x, x = ip) cs).

Record accounted (l : ClientListenLimits) (cs : list string) (s : Listener) : Prop := {
  ac_permits : permits s = N.of_nat (length cs);
  ac_per_ip : ∀ ip, default 0%N (per_ip s !! ip) = N.of_nat (conns ip cs);
  ac_global : (permits s ≤ max_connections l)%N;
  ac_limit : ∀ ip, (N.of_nat (conns ip cs) ≤ per_ip_limit l)%N;
}.

Lemma conns_cons ip x cs : conns ip (x :: cs) = (if decide (x = ip) then 1 else 0) + conns ip cs.
Proof. unfold conns. rewrite filter_cons. by case_decide. Qed.
Lemma conns_middle ip x cs1 cs2 :
  conns ip (cs1 ++ x :: cs2) = (if decide (x = ip) then 1 else 0) + conns ip (cs1 ++ cs2).
Proof. unfold conns. rewrite !filter_app, filter_cons, !length_app. case_decide; simpl; lia. Qed.

Lemma accept_accounted l cs s ip ok s' :
  accounted l cs s → accept l s ip = (ok, s') → accounted l (if ok : bool then ip :: cs else cs) s'.
Proof.
  intros [Hp Hi Hg Hl]. unfold accept. case_bool_decide as Hm; [by intros [= <- <-]|].
  specialize (Hi ip) as Hip. case_bool_decide as Hc; intros [= <- <-].
  - split; simpl; try done. intros ip'. destruct (decide (ip = ip')) as [->|].
    + by rewrite lookup_insert_eq.
    + by rewrite lookup_insert_ne.
  - split; simpl; [lia| |lia|].
    + intros ip'. rewrite conns_cons. case_decide as Hd; [subst; rewrite lookup_insert_eq; simpl; lia|].
      by rewrite lookup_insert_ne.
    + intros ip'. rewrite conns_cons. specialize (Hl ip'). case_decide; subst; lia.
Qed.

Lemma close_accounted l cs1 ip cs2 s :
  accounted l (cs1 ++ ip :: cs2) s → accounted l (cs1 ++ cs2) (close s ip).
Proof.
  intros [Hp Hi Hg Hl]. rewrite length_app in Hp. simpl in Hp. split; simpl.
  - rewrite length_app. lia.
  - intros ip'. specialize (Hi ip') as Hi'. rewrite conns_middle in Hi'.
    destruct (decide (ip = ip')) as [<-|Hne].
    + destruct (per_ip s !! ip) as [c|] eqn:E; simpl in Hi'; [|lia].
      case_bool_decide; [rewrite lookup_delete_eq|rewrite lookup_insert_eq]; simpl; lia.
    + simpl in Hi'. rewrite <-Hi'. destruct (per_ip s !! ip) as [c|]; [|done].
      case_bool_decide; [by rewrite lookup_delete_ne|by rewrite lookup_insert_ne].
  - lia.
  - intros ip'. specialize (Hl ip'). rewrite conns_middle in Hl. lia.
Qed.

(** Connection limits.  After any sequence of arrivals and closes, the
    listener's counters equal the number of connections being served, in total
    and per address; neither cap is ever exceeded; and an arrival is served
    exactly when both caps leave room for it. *)
Theorem listener_bounds l cs s ip :
  serving l cs s →
  accounted l cs s ∧
  ((accept l s ip).1 = true ↔
     (N.of_nat (length cs) < max_connections l)%N ∧ (N.of_nat (conns ip cs) < per_ip_limit l)%N).
Proof.
  intros Hs. assert (accounted l cs s) as Ha.
  { induction Hs as [|cs s ip' ok s' _ IH E|cs1 ip' cs2 s _ IH].
    - split; simpl; try done; [apply N.le_0_l|]. intros ip'. apply N.le_0_l.
    - by eapply accept_accounted.
    - by apply close_accounted. }
  split; [done|]. destruct Ha as [Hp Hi _ _]. unfold accept. rewrite <-Hi, <-Hp.
  repeat case_bool_decide; simpl; split; intros; (done || lia).
Qed.
End Listener.
