(* ===== verification/Node.v ===== *)
(** * The node as a state machine

    Runs of the node: wire messages, client messages, driver ticks and sweeps in
    any order.  The invariant that every reachable state satisfies, the log of
    committed certificates with what it executed, the certificates the node
    itself authored, and the agreement of nodes that commit the same log. *)

From Stdlib Require Import Strings.String.
From S2P Require Import Prelude Crypto Cert Dag Commit Joint Equivocation Rings FastPath Mempool ExecTypes.
From S2P Require Import Substrate Block Sha3 Ltp RecordSet Governance NodeState Ingest NodeCommit.
From S2P Require Import NodeSafety Inbox Driver Client.
Import DagStore(certs).

Section node.
Context `{HB : Blake3, HM : MlDsa65, HN : Bincode, HS : Sha3, HL : Blst}.

(** ** Logs of commit walks *)

Record logs (s : State) (evs : list Event) (s' : State) : Prop := {
  lg_store : same_store s s';
  lg_executes : executes (certs (dag s)) (blocks s) (substrate (inner s)) (committed_log evs)
                  (substrate (inner s'));
  lg_committed : committed s' = list_to_set (committed_log evs) ∪ committed s;
  lg_fresh : ∀ h, h ∈ committed_log evs → h ∉ committed s;
  lg_nodup : NoDup (committed_log evs);
}.

Lemma commit_rounds_logs s vf n rs s' evs :
  DagStore.wf (dag s) → commit_rounds s vf n rs = Some (s', evs) → logs s evs s'.
Proof.
  revert s evs. induction rs as [|r rs IH]; intros s evs Hw E; simpl in E.
  { simplify_eq. split; [done|constructor|set_solver|set_solver|constructor]. }
  destruct (decide_slot _ _ _) as [[lh| |]|]; [| | |done]; simpl in E; try by apply IH.
  case_bool_decide; [by apply IH|].
  destruct (validator_quorum_met _ _ _); simpl in E.
  2: { simplify_eq. split; [done|constructor|set_solver|set_solver|constructor]. }
  destruct (causal_history (dag s) lh) as [hist|] eqn:Eh; [|done]. simpl in E.
  destruct (commit_history s hist) as [[[s1 e1] stop]|] eqn:E1; [|done]. simpl in E.
  pose proof (NoDup_causal_history _ _ _ Eh) as Hnd.
  apply commit_history_walked in E1 as [S1 C1 X1 (rest & Er & _)]; [|done|].
  2: { intros x Hx. by apply (elem_of_causal_history _ _ _ x Eh) in Hx as [? _]. }
  assert (logs s e1 s1) as L1.
  { split; try done.
    - intros h Hh. assert (h ∈ filter (λ h, h ∉ committed s) hist) as Hf by (rewrite Er; set_solver).
      by apply list_elem_of_filter in Hf as [? _].
    - apply (NoDup_filter (λ h, h ∉ committed s)) in Hnd. rewrite Er in Hnd.
      by apply NoDup_app in Hnd as (? & _). }
  destruct stop; [by simplify_eq|].
  destruct (commit_rounds s1 vf n rs) as [[s2 e2]|] eqn:E2; [|done]. simplify_eq/=.
  pose proof S1 as [Hd1 Hb1 _ _ _ _ _].
  destruct (IH s1 e2) as [S2 X2 C2 F2 N2]; [by rewrite Hd1|done|].
  destruct L1 as [_ _ _ F1 N1]. split; rewrite ?committed_log_app.
  - by etrans.
  - eapply executes_app; [done|]. by rewrite Hd1, Hb1 in X2.
  - rewrite C2, C1, list_to_set_app_L. set_solver.
  - intros h [Hh|Hh]%elem_of_app; [by apply F1|]. specialize (F2 h Hh). rewrite C1 in F2. set_solver.
  - apply NoDup_app. split_and!; try done. intros h Hh Hh'. specialize (F2 h Hh'). rewrite C1 in F2. set_solver.
Qed.


Lemma try_commit_logs s s' evs :
  DagStore.wf (dag s) → try_commit s = Some (s', evs) →
  dag s' = dag s ∧ blocks s' = blocks s ∧ orphans (inner s') = orphans (inner s) ∧
  inflight_fetches (inner s') = inflight_fetches (inner s) ∧ seen_at (inner s') = seen_at (inner s) ∧
  executes (certs (dag s)) (blocks s) (substrate (inner s)) (committed_log evs) (substrate (inner s')) ∧
  committed s' = list_to_set (committed_log evs) ∪ committed s ∧
  (∀ h, h ∈ committed_log evs → h ∉ committed s) ∧ NoDup (committed_log evs).
Proof.
  intros Hw (s1 & e1 & e2 & E1 & E2 & -> & Elog)%try_commit_inv.
  destruct (commit_rounds_logs _ _ _ _ _ _ Hw E1) as [[? ? ? ? ? ? ?] X C F N]. rewrite Elog.
  apply eject_ledger in E2 as [[? ? ? ? ? ? ? ? (? & ? & Ei) ?] _]. simpl in *. rewrite Ei. simpl.
  split_and!; try congruence; done.
Qed.

(** ** Steps and runs *)

(** What the types of a decoded message enforce of the fields the node keeps. *)
Definition msg_typed (m : WireMessage) : Prop :=
  match m with
  | WCert c => Certificate.wf c
  | WTip r => (r < width 64)%N
  | _ => True
  end.

(** One step: what it writes to the event log and the certificate it authors. *)
Inductive step (self_id : AuthorityId) : State → list Event → list Certificate → State → Prop :=
| step_message s from is_dynamic now_ms msg s' outs evs :
    msg_typed msg → handle_message s self_id from is_dynamic now_ms msg = Some (s', outs, evs) →
    step self_id s evs [] s'
| step_client s peer now msg s' resp keep :
    handle_client_message s peer now msg = Some (s', resp, keep) → step self_id s [] [] s'
| step_tick s round_ms elapsed_ms s' outs :
    driver_tick s self_id round_ms elapsed_ms = Some (s', outs) →
    step self_id s [] (omap (λ o, match o with Broadcast (WCert c) => Some c | _ => None end) outs) s'
| step_sweep s now_ms s' due needed :
    sweep_tick s now_ms = (s', due, needed) → step self_id s [] [] s'
| step_propose s t s' outs evs :
    propose_fastpath_tx s self_id t = (s', outs, evs) → step self_id s evs [] s'.

Inductive run (self_id : AuthorityId) (s0 : State) : list Event → list Certificate → State → Prop :=
| run_nil : run self_id s0 [] [] s0
| run_step evs cs s evs' cs' s' :
    run self_id s0 evs cs s → step self_id s evs' cs' s' →
    run self_id s0 (evs ++ evs') (cs ++ cs') s'.

Record node_ok (s : State) : Prop := {
  no_store : ingest_ok s;
  no_typed : certs_typed s;
  no_blocks : blocks_consistent s;
  no_width : (n_authorities (inner s) < width 32)%N;
  no_round : ∀ r, last_authored_round (inner s) = Some r → (r < width 64)%N;
}.

(** The parts of the state the invariant reads. *)
Record same_core (s s' : State) : Prop := {
  sc_dag : dag s' = dag s;
  sc_blocks : blocks s' = blocks s;
  sc_committed : committed s' = committed s;
  sc_substrate : substrate (inner s') = substrate (inner s);
  sc_orphans : orphans (inner s') = orphans (inner s);
  sc_inflight : inflight_fetches (inner s') = inflight_fetches (inner s);
  sc_seen : seen_at (inner s') = seen_at (inner s);
  sc_n : n_authorities (inner s') = n_authorities (inner s);
  sc_last : last_authored_round (inner s') = last_authored_round (inner s);
}.

Lemma node_ok_core s s' : same_core s s' → node_ok s → node_ok s'.
Proof.
  intros [Ed Eb Ec Es Eo Ei En Ew El] [[? Ho ? ?] [? ?] ? ? ?].
  split; rewrite ?Eb, ?Ew, ?El; try done.
  - split; unfold orphan_count in *; by rewrite ?Ed, ?Eo, ?En.
  - split; by rewrite ?Ed, ?Eo.
  - unfold blocks_consistent. by rewrite Eb.
Qed.

Lemma cast_votes_core s self ins s' outs evs :
  cast_votes s self ins = (s', outs, evs) → same_core s s' ∧ committed_log evs = [] ∧
    authority_registry s' = authority_registry s ∧ detected_equivocations (inner s') = detected_equivocations (inner s).
Proof.
  revert s outs evs. induction ins as [|ic ins IH]; intros s outs evs; simpl; [by intros [= <- <- <-]|].
  destruct (cast_votes _ _ ins) as [[s2 o2] e2] eqn:E. intros [= <- <- <-].
  apply IH in E as ([? ? ? ? ? ? ? ? ?] & ? & ? & ?). simpl in *. done.
Qed.

Lemma fastpath_core s self c s' outs evs :
  handle_fastpath_cert s self c = (s', outs, evs) → same_core s s' ∧ committed_log evs = [].
Proof.
  unfold handle_fastpath_cert, handle_fastpath_inner, accumulate. intros E.
  repeat (case_match; simplify_eq/=); try done; repeat case_bool_decide; try done.
Qed.

(** What one step does to the ledger. *)
Record step_ok (s : State) (evs : list Event) (s' : State) : Prop := {
  so_ok : node_ok s';
  so_lawful : lawful (substrate (inner s)) (committed_log evs) (substrate (inner s'));
  so_committed : committed s' = list_to_set (committed_log evs) ∪ committed s;
  so_fresh : ∀ h, h ∈ committed_log evs → h ∉ committed s;
  so_nodup : NoDup (committed_log evs);
  so_grow : certs (dag s) ⊆ certs (dag s');
}.

Lemma step_ok_core s evs s' : same_core s s' → committed_log evs = [] → node_ok s → step_ok s evs s'.
Proof.
  intros Hc Hl Hok. pose proof (node_ok_core _ _ Hc Hok). destruct Hc as [Hd _ Hcm Hs _ _ _ _ _].
  split; rewrite ?Hl, ?Hcm, ?Hs, ?Hd; try done; [constructor|set_solver|set_solver|constructor].
Qed.

Lemma node_ok_commit s s' evs : node_ok s → try_commit s = Some (s', evs) → step_ok s evs s'.
Proof.
  intros [[Hd Ho Hc Hs] [Ht1 Ht2] Hb Hn Hr] E.
  pose proof (DagStore.reachable_wf _ Hd) as Hw.
  destruct (try_commit_logs _ _ _ Hw E) as (Ed & Eb & Eo & Ei & En & X & C & F & N).
  destruct (try_commit_widths _ _ _ E) as [El Ew].
  split; try done.
  - split; [split|split|..]; rewrite ?Ed, ?Eb, ?Eo, ?En, ?El; unfold orphan_count in *;
      rewrite ?Eo; try done; [|by auto].
    unfold blocks_consistent. by rewrite Eb.
  - by eapply executes_lawful.
  - by rewrite Ed.
Qed.

Lemma ingest_blocks s c from now s' ins outs :
  ingest_cert s c from now = Some (s', ins, outs) →
  blocks s' ⊆ blocks s ∧ substrate (inner s') = substrate (inner s) ∧
  last_authored_round (inner s') = last_authored_round (inner s) ∧
  (n_authorities (inner s) < width 32 → n_authorities (inner s') < width 32)%N.
Proof.
  intros E. eapply (ingest_loop_ind (λ s' _ _, blocks s' ⊆ blocks s ∧
    substrate (inner s') = substrate (inner s) ∧
    last_authored_round (inner s') = last_authored_round (inner s) ∧
    (n_authorities (inner s) < width 32 → n_authorities (inner s') < width 32)%N) from now); [|done|exact E].
  intros s1 c1 w i1 s2 i2 un o (Hb & Hs & Hl & Hn) Hi.
  inversion Hi as [?|? ? Ha Hadm E1|m ? ? Ha Hm Hnn Hlt E1]; subst; [done| |].
  - apply on_inserted_fields in E1 as (_ & _ & Eb & Ei & _). rewrite Eb, Ei. split.
    { etrans; [|exact Hb]. apply map_subseteq_spec. intros h b [? _]%evict_mismatched_Some. done. }
    unfold note_inserted, record_seen. cbn [set_field].
    repeat case_match; simpl; repeat case_bool_decide; simpl; (split_and!; [done|done|]);
      try done; intros Hw; specialize (Hn Hw); unfold saturating_add; pose proof (width_pos 32); lia.
  - unfold on_orphan in E1. repeat case_bool_decide; by simplify_eq/=.
Qed.

Lemma handle_cert_ok s self from now c s' outs evs :
  node_ok s → Certificate.wf c → handle_cert s self from now c = Some (s', outs, evs) → step_ok s evs s'.
Proof.
  intros Hok Hc. unfold handle_cert.
  destruct (ingest_cert s c from now) as [[[s1 ins] o1]|] eqn:E1; [|done]. simpl.
  destruct Hok as [Hst Hty Hb Hn Hr].
  pose proof (ingest_cert_ingests _ _ _ _ _ _ _ Hst E1) as Hin.
  pose proof (ingest_typed _ _ _ _ _ _ _ Hty Hc E1) as Hty1.
  destruct (ingest_blocks _ _ _ _ _ _ _ E1) as (Hb1 & Hs1 & Hl1 & Hn1).
  pose proof (in_ok _ _ _ Hin) as Hst1. pose proof (in_grow _ _ _ Hin) as Hg1.
  pose proof (sg_committed _ _ (in_governance _ _ _ Hin)) as Hcm1.
  assert (node_ok s1) as Hok1.
  { split; try done; [|by auto|by rewrite Hl1]. intros h b Hl. by eapply Hb, lookup_weaken. }
  destruct (if AuthorityRing.contains _ self then _ else _) as [[s2 o2] e2] eqn:E2.
  assert (same_core s1 s2 ∧ committed_log e2 = []) as [Hcore Hlog].
  { case_match; [|by simplify_eq]. by apply cast_votes_core in E2 as (? & ? & _). }
  destruct (try_commit s2) as [[s3 e3]|] eqn:E3; [|done]. simpl. intros [= <- <- <-].
  pose proof (node_ok_core _ _ Hcore Hok1) as Hok2.
  destruct (node_ok_commit _ _ _ Hok2 E3) as [Hok3 L3 C3 F3 N3 G3].
  destruct Hcore as [Hd _ Hcm Hsub _ _ _ _ _].
  assert (committed_log (EvReceived (Certificate.round c) (Certificate.hash c) from :: e2 ++ e3) =
          committed_log e3) as Elog.
  { change (committed_log (e2 ++ e3) = committed_log e3). by rewrite committed_log_app, Hlog. }
  split; rewrite ?Elog; try done.
  - rewrite Hsub, Hs1 in L3. done.
  - by rewrite C3, Hcm, Hcm1.
  - intros h Hh. specialize (F3 h Hh). by rewrite Hcm, Hcm1 in F3.
  - etrans; [exact Hg1|]. by rewrite <-Hd.
Qed.

Lemma handle_block_ok s dyn b : node_ok s → step_ok s [] (handle_block s dyn b).
Proof.
  intros Hok. unfold handle_block. destruct dyn; [by apply step_ok_core|].
  destruct (block_payload_is_consistent b) eqn:Eb; [|by apply step_ok_core]. simpl.
  assert (step_ok s [] (s <| blocks ::= <[bp_cert_hash b := b]> |>)) as Hins.
  { destruct Hok as [Hst Hty Hb Hn Hr]. split; try done; [|constructor|set_solver|set_solver|constructor].
    split; try done; [by destruct Hst|]. by apply map_Forall_insert_2. }
  repeat case_match; try done; by apply step_ok_core.
Qed.

Lemma handle_message_ok s self from dyn now msg s' outs evs :
  node_ok s → msg_typed msg → handle_message s self from dyn now msg = Some (s', outs, evs) →
  step_ok s evs s'.
Proof.
  intros Hok Ht. destruct msg; simpl.
  - by apply handle_cert_ok.
  - intros [= <- <- <-]. by apply handle_block_ok.
  - unfold handle_vote. destruct dyn; [intros [= <- <- <-]; by apply step_ok_core|].
    destruct (try_commit _) as [[s1 e1]|] eqn:E; [|done]. simpl. intros [= <- <- <-].
    apply node_ok_commit in E as [? ? ? ? ? ?]; [by split|]. by apply (node_ok_core s).
  - intros [= <- <- <-]. by apply step_ok_core.
  - destruct dyn; [intros [= <- <- <-]; by apply step_ok_core|].
    intros [= E]. apply fastpath_core in E as [? ?]. by apply step_ok_core.
  - destruct dyn; [intros [= <- <- <-]; by apply step_ok_core|].
    unfold handle_ltp_attestation. repeat case_match; simplify_eq/=; intros [= <- <- <-]; by apply step_ok_core.
  - intros [= <- <- <-]. by apply step_ok_core.
  - intros [= <- <- <-]. by apply step_ok_core.
  - intros [= <- <- <-]. by apply step_ok_core.
  - intros [= <- <- <-]. destruct dyn; [by apply step_ok_core|]. case_bool_decide; by apply step_ok_core.
  - intros [= <- <- <-]. by apply step_ok_core.
  - intros [= <- <- <-]. by apply step_ok_core.
Qed.

(** *** The other steps *)

Definition next_round (o : option Round) : Round :=
  match o with Some r => wrap 64 (r + 1) | None => 0%N end.

(** What a step authors. *)
Definition authored_by (self : AuthorityId) (s : State) (cs : list Certificate) (s' : State) : Prop :=
  (cs = [] ∧ last_authored_round (inner s') = last_authored_round (inner s)) ∨
  (∃ c, cs = [c] ∧ Certificate.author c = self ∧
     Certificate.round c = next_round (last_authored_round (inner s)) ∧
     last_authored_round (inner s') = Some (Certificate.round c) ∧
     is_Some (certs (dag s') !! Certificate.hash c)).

Lemma record_proposal_fields s self c b hs (s' := record_proposal s self c b hs) :
  orphans (inner s') = orphans (inner s) ∧ last_authored_round (inner s') = Some (Certificate.round c) ∧
  n_authorities (inner s') = n_authorities (inner s) ∧ substrate (inner s') = substrate (inner s) ∧
  committed s' = committed s ∧ blocks s' = <[Certificate.hash c := b]> (blocks s) ∧
  dag s' = (DagStore.insert (dag s) c).2 ∧
  seen_at (inner s') = (if seen_at (inner s) !! (self, Certificate.round c) then seen_at (inner s)
    else <[(self, Certificate.round c) := Certificate.hash c]> (seen_at (inner s))).
Proof.
  subst s'. unfold record_proposal, record_seen. simpl. repeat case_bool_decide; simpl;
    (destruct (seen_at (inner s) !! _) as [prev|]; simpl; [case_bool_decide|]; simpl; by split_and!).
Qed.

Lemma store_own s self c b hs :
  ingest_ok s → is_Some (certs (dag s) !! Certificate.hash c) ∨ DagStore.admissible (dag s) c →
  Certificate.author c = self →
  (is_Some (certs (dag s) !! Certificate.hash c) → ∃ c', certs (dag s) !! Certificate.hash c = Some c' ∧
     Certificate.author c' = self ∧ Certificate.round c' = Certificate.round c) →
  ingest_ok (record_proposal s self c b hs) ∧
  certs (dag s) ⊆ certs (dag (record_proposal s self c b hs)).
Proof.
  intros [Hd Ho Hc Hs] Hadm Ha Hdup.
  destruct (record_proposal_fields s self c b hs) as (Eo & _ & _ & _ & _ & _ & Edag & Es).
  set (s' := record_proposal s self c b hs) in *. clearbody s'.
  destruct (DagStore.insert (dag s) c) as [res d'] eqn:Ed. simpl in Edag.
  assert (∀ h c', certs d' !! h = Some c' → certs (dag s) !! h = Some c' ∨ (h = Certificate.hash c ∧ c' = c)) as Hnew.
  { intros h c' Hl. apply DagStore.insert_inv in Ed as [(_ & -> & _)|(? & _ & -> & _)]; [|by left].
    apply insert_result_lookup in Hl. naive_solver. }
  assert (certs (dag s) ⊆ certs d') as Hgrow.
  { apply DagStore.insert_inv in Ed as [(_ & -> & (_ & _ & ?))|(? & _ & -> & _)]; [|done].
    by apply insert_subseteq. }
  assert (∃ c', certs d' !! Certificate.hash c = Some c' ∧ Certificate.author c' = self ∧
            Certificate.round c' = Certificate.round c) as Hself.
  { destruct Hadm as [Hsome|Hadm].
    - destruct (Hdup Hsome) as (c' & Hl & ? & ?). exists c'. split; [by eapply lookup_weaken|done].
    - rewrite (DagStore.insert_Ok _ _ Hadm) in Ed. injection Ed as _ <-. exists c.
      rewrite insert_result_lookup. naive_solver. }
  split; [|by rewrite Edag]. split; rewrite ?Edag, ?Es.
  - eapply DagStore.reachable_insert; [exact Hd|exact Ed].
  - unfold orphan_count in *. by rewrite Eo.
  - intros h c' [Hl|[-> ->]]%Hnew.
    + specialize (Hc h c' Hl). destruct (seen_at (inner s) !! (self, Certificate.round c)) eqn:E; [done|].
      destruct (decide ((Certificate.author c', Certificate.round c') = (self, Certificate.round c))) as [->|?];
        [by rewrite lookup_insert_eq|by rewrite lookup_insert_ne].
    + rewrite Ha. destruct (seen_at (inner s) !! (self, Certificate.round c)) eqn:E; [by rewrite E|]. by rewrite lookup_insert_eq.
  - intros a r h Hl.
    assert ((∃ c', certs (dag s) !! h = Some c' ∧ Certificate.author c' = a ∧ Certificate.round c' = r) ∨
            (h = Certificate.hash c ∧ a = self ∧ r = Certificate.round c)) as [(c' & ? & ?)|(-> & -> & ->)].
    { destruct (seen_at (inner s) !! (self, Certificate.round c)) eqn:E; [by left; apply Hs|].
      apply lookup_insert_Some in Hl as [([= <- <-] & <-)|[_ Hl]]; [by right|by left; apply Hs]. }
    + exists c'. split; [by eapply lookup_weaken|done].
    + done.
Qed.

(** Every certificate after a proposal was there before or is the proposal. *)
Lemma record_proposal_certs s self c b hs h c' :
  certs (dag (record_proposal s self c b hs)) !! h = Some c' → certs (dag s) !! h = Some c' ∨ c' = c.
Proof.
  destruct (record_proposal_fields s self c b hs) as (_ & _ & _ & _ & _ & _ & -> & _).
  destruct (DagStore.insert (dag s) c) as [res d'] eqn:Ed. simpl. intros Hl.
  apply DagStore.insert_inv in Ed as [(_ & -> & _)|(? & _ & -> & _)]; [|by left].
  apply insert_result_lookup in Hl. naive_solver.
Qed.

(** A proposal on a sound state. *)
Lemma record_proposal_ok s self c b hs :
  node_ok s → is_Some (certs (dag s) !! Certificate.hash c) ∨ DagStore.admissible (dag s) c →
  Certificate.author c = self → Certificate.wf c → block_payload_is_consistent b = true →
  (is_Some (certs (dag s) !! Certificate.hash c) → ∃ c', certs (dag s) !! Certificate.hash c = Some c' ∧
     Certificate.author c' = self ∧ Certificate.round c' = Certificate.round c) →
  step_ok s [] (record_proposal s self c b hs) ∧
  is_Some (certs (dag (record_proposal s self c b hs)) !! Certificate.hash c).
Proof.
  intros [Hst [Ht1 Ht2] Hbc Hn Hr] Hadm Ha Hwc Hb Hdup.
  destruct (store_own s self c b hs Hst Hadm Ha Hdup) as [Hst' Hgrow].
  pose proof (record_proposal_certs s self c b hs) as Hcerts.
  destruct (record_proposal_fields s self c b hs) as (Eo & El & En & Esub & Ecm & Ebl & Edag & _).
  set (s' := record_proposal s self c b hs) in *. clearbody s'.
  split.
  - split; rewrite ?Esub, ?Ecm; try done; [|constructor|set_solver|set_solver|constructor].
    split; rewrite ?En, ?El; try done.
    + split; rewrite ?Eo; [|done]. intros h c' [Hl| ->]%Hcerts; [by eapply Ht1|done].
    + unfold blocks_consistent. rewrite Ebl. by apply map_Forall_insert_2.
    + intros r' [= <-]. by destruct Hwc as (_ & ? & _).
  - destruct Hadm as [[c' Hl]|Hadm]; [exists c'; by eapply lookup_weaken|].
    rewrite Edag, (DagStore.insert_Ok _ _ Hadm). exists c. apply lookup_insert_eq.
Qed.

(** Equal hashes of certificates of the right widths are equal bodies, short of
    a collision. *)
Lemma hash_same_body c c' :
  Certificate.wf c → Certificate.wf c' → Certificate.hash c = Certificate.hash c' →
  Certificate.body c = Certificate.body c' ∨ collision.
Proof.
  intros Hc Hc' E. destruct (blake3_eq_or _ _ E) as [Ep|?]; [|by right].
  left. by apply Certificate.preimage_inj.
Qed.

(** The certificate a tick authors has the widths of the wire format. *)
Lemma own_cert_wf s self rms el r ps c b hs s1 :
  node_ok s → (self < width 32)%N → round_gate s rms el = Some (Some (r, ps)) →
  build_proposal s self r ps = Some (c, b, hs, s1) → Certificate.wf c.
Proof.
  intros [Hst _ _ Hn _] Hself Eg Eb. pose proof (DagStore.reachable_wf _ (ok_dag _ Hst)) as Hw.
  pose proof (round_gate_spec _ _ _ _ _ Hw Eg) as [Er Eps].
  destruct (parents_for_round_spec _ _ _ _ Hw Eps) as (_ & _ & Hlen & Hps).
  destruct (build_proposal_spec _ _ _ _ _ _ _ _ Eb) as (_ & Ea & Ero & Epa & Edl & _).
  unfold Certificate.wf. rewrite Ea, Ero, Epa, Edl. split_and!; try done; [|lia].
  rewrite Er. destruct (last_authored_round (inner s)); [apply wrap_lt|apply width_pos].
Qed.

Lemma driver_tick_ok s self rms el s' outs :
  node_ok s → (self < width 32)%N → driver_tick s self rms el = Some (s', outs) →
  (step_ok s [] s' ∧ authored_by self s
     (omap (λ o, match o with Broadcast (WCert c) => Some c | _ => None end) outs) s') ∨ collision.
Proof.
  intros Hok Hself [[-> ->]|(r & ps & c & b & hs & s1 & Eg & Eb & -> & ->)]%driver_tick_inv.
  { left. split; [by apply step_ok_core|]. by left. }
  pose proof Hok as [Hst [Ht1 Ht2] Hbc Hn Hr].
  pose proof (DagStore.reachable_wf _ (ok_dag _ Hst)) as Hw.
  pose proof (own_cert_admitted _ _ _ _ _ _ _ _ _ _ Hw Eg Eb) as Hadm.
  pose proof (round_gate_spec _ _ _ _ _ Hw Eg) as [Er Eps].
  pose proof (own_cert_wf _ _ _ _ _ _ _ _ _ _ Hok Hself Eg Eb) as Hwc.
  destruct (build_proposal_spec _ _ _ _ _ _ _ _ Eb) as ((m & g & ->) & Ea & Ero & _ & _ & _ & _ & Ecb).
  assert (collision ∨ (is_Some (certs (dag s) !! Certificate.hash c) →
    ∃ c', certs (dag s) !! Certificate.hash c = Some c' ∧ Certificate.author c' = self ∧
          Certificate.round c' = Certificate.round c)) as [?|Hdup]; [|by right|].
  { destruct (certs (dag s) !! Certificate.hash c) as [c'|] eqn:El; [|right; by intros [? ?]].
    pose proof (DagStore.wf_hash _ Hw _ _ El) as Eh.
    destruct (hash_same_body c' c) as [Ebd|?]; [by eapply Ht1|done|done| |by left].
    right. intros _. exists c'. unfold Certificate.body in Ebd. split; [done|]. split; congruence. }
  left. set (s0 := s <| mempool := m |> <| governance_envelopes := g |>).
  assert (same_core s s0) as Hcore by done.
  assert (last_authored_round (inner s0) = last_authored_round (inner s)) as El0 by done.
  pose proof (node_ok_core _ _ Hcore Hok) as Hok0. pose proof (sc_dag _ _ Hcore) as Ed0.
  pose proof (sc_substrate _ _ Hcore) as Es0. pose proof (sc_committed _ _ Hcore) as Ec0. clearbody s0.
  destruct (record_proposal_ok s0 self c b hs Hok0) as [[O1 O2 O3 O4 O5 O6] Hin]; rewrite ?Ed0; try done.
  destruct (record_proposal_fields s0 self c b hs) as (_ & El & _).
  set (s' := record_proposal s0 self c b hs) in *. clearbody s'. split.
  - split; rewrite <-?Es0, <-?Ec0, <-?Ed0; done.
  - right. exists c. split_and!; try done. by rewrite Ero.
Qed.

Lemma propose_core s self t s' outs evs :
  propose_fastpath_tx s self t = (s', outs, evs) → same_core s s' ∧ committed_log evs = [].
Proof. unfold propose_fastpath_tx. repeat case_bool_decide; intros [= <- <- <-]; done. Qed.

Lemma handle_message_last s self from dyn now msg s' outs evs :
  handle_message s self from dyn now msg = Some (s', outs, evs) →
  last_authored_round (inner s') = last_authored_round (inner s).
Proof.
  destruct msg; simpl; try by intros [= <- <- <-].
  - unfold handle_cert. destruct (ingest_cert s c from now) as [[[s1 ins] o1]|] eqn:E1; [|done]. simpl.
    destruct (ingest_blocks _ _ _ _ _ _ _ E1) as (_ & _ & Hl & _).
    destruct (if AuthorityRing.contains _ self then _ else _) as [[s2 o2] e2] eqn:E2.
    assert (last_authored_round (inner s2) = last_authored_round (inner s1)) as Hl2.
    { case_match; [|by simplify_eq]. by apply cast_votes_core in E2 as ([? ? ? ? ? ? ? ? ?] & _). }
    destruct (try_commit s2) as [[s3 e3]|] eqn:E3; [|done]. simpl. intros [= <- <- <-].
    apply try_commit_widths in E3 as [Hl3 _]. congruence.
  - intros [= <- <- <-]. unfold handle_block. by repeat case_match.
  - unfold handle_vote. destruct dyn; [by intros [= <- <- <-]|].
    destruct (try_commit _) as [[s1 e1]|] eqn:E; [|done]. simpl. intros [= <- <- <-].
    by apply try_commit_widths in E as [? _].
  - destruct dyn; [by intros [= <- <- <-]|]. intros [= E].
    by apply fastpath_core in E as [[? ? ? ? ? ? ? ? ?] _].
  - destruct dyn; [by intros [= <- <- <-]|]. unfold handle_ltp_attestation.
    repeat case_match; simplify_eq/=; by intros [= <- <- <-].
  - intros [= <- <- <-]. destruct dyn; [done|]. by case_bool_decide.
Qed.

Lemma node_step_spec self s evs cs s' :
  node_ok s → (self < width 32)%N → step self s evs cs s' →
  (step_ok s evs s' ∧ authored_by self s cs s') ∨ collision.
Proof.
  intros Hok Hself Hst.
  destruct Hst as [s from dyn now msg s' outs evs Ht E|s peer now msg s' resp keep E|s rms el s' outs E
    |s now s' due need E|s t s' outs evs E].
  - left. split; [by eapply handle_message_ok|]. left. split; [done|]. by eapply handle_message_last.
  - apply handle_client_frame in E as (m & g & ->). left. split; [by apply step_ok_core|]. by left.
  - by eapply driver_tick_ok.
  - left. unfold sweep_tick in E. destruct (foldl _ _ _) as [hist d]. simplify_eq.
    split; [by apply step_ok_core|]. by left.
  - apply propose_core in E as [Hc Hl]. left. split; [by apply step_ok_core|]. left. split; [done|].
    apply (sc_last _ _ Hc).
Qed.

(** The state of a run and everything it recorded. *)
Record run_ok (self : AuthorityId) (s0 : State) (evs : list Event) (cs : list Certificate) (s : State)
    : Prop := {
  ro_ok : node_ok s;
  ro_lawful : lawful (substrate (inner s0)) (committed_log evs) (substrate (inner s));
  ro_committed : committed s = list_to_set (committed_log evs) ∪ committed s0;
  ro_nodup : NoDup (committed_log evs);
  ro_fresh : ∀ h, h ∈ committed_log evs → h ∉ committed s0;
  ro_authors : Forall (λ c, Certificate.author c = self) cs;
}.

Lemma run_spec self s0 evs cs s :
  node_ok s0 → (self < width 32)%N → run self s0 evs cs s → run_ok self s0 evs cs s ∨ collision.
Proof.
  intros Hok Hself Hrun. induction Hrun as [|evs cs s evs' cs' s' Hrun IH Hstep].
  { left. split; try done; [apply lawful_nil|set_solver|apply NoDup_nil_2|set_solver]. }
  destruct IH as [[H1 H2 H3 H4 H5 H6]|?]; [|by right].
  destruct (node_step_spec _ _ _ _ _ H1 Hself Hstep) as [[[S1 S2 S3 S4 S5 S6] Hau]|?]; [|by right].
  left. split; rewrite ?committed_log_app; try done.
  - by eapply lawful_app.
  - rewrite S3, H3, list_to_set_app_L. set_solver.
  - apply NoDup_app. split_and!; try done. intros h Hh Hh'. specialize (S4 h Hh'). rewrite H3 in S4. set_solver.
  - intros h [Hh|Hh]%elem_of_app; [by apply H5|]. specialize (S4 h Hh). rewrite H3 in S4. set_solver.
  - apply Forall_app. split; [done|]. destruct Hau as [[-> _]|(c & -> & ? & _)]; by constructor.
Qed.

(** ** Genesis *)

Lemma new_state_ok `{HX : Hex} m sk s0 :
  new_state m sk = Some s0 → node_ok s0 ∧ committed s0 = ∅ ∧ last_authored_round (inner s0) = None ∧
    genesis_substrate m = Some (substrate (inner s0)).
Proof.
  unfold new_state. destruct (genesis_substrate m) as [sub|]; [|done]. simpl.
  destruct (foldl _ _ _) as [[st ar] vr]. intros [= <-]. simpl. split_and!; try done.
  split; simpl; [|split; simpl; by apply map_Forall_empty|by apply map_Forall_empty|apply wrap_lt|done].
  split; simpl; [constructor| |..].
  - unfold orphan_count. simpl. rewrite map_weight_empty. done.
  - intros h c. by rewrite lookup_empty.
  - intros a r h. by rewrite lookup_empty.
Qed.

(** *** Authored rounds *)

Definition last_of (k : nat) : option Round :=
  match k with O => None | S j => Some (wrap 64 (N.of_nat j)) end.

Lemma run_rounds self s0 evs cs s :
  node_ok s0 → last_authored_round (inner s0) = None → (self < width 32)%N → run self s0 evs cs s →
  (run_ok self s0 evs cs s ∧ last_authored_round (inner s) = last_of (length cs) ∧
   ∀ k c, cs !! k = Some c → Certificate.round c = wrap 64 (N.of_nat k)) ∨ collision.
Proof.
  intros Hok H0 Hself Hrun. destruct (run_spec _ _ _ _ _ Hok Hself Hrun) as [Hro|?]; [|by right].
  cut ((last_authored_round (inner s) = last_of (length cs) ∧
   ∀ k c, cs !! k = Some c → Certificate.round c = wrap 64 (N.of_nat k)) ∨ collision).
  { intros [[? ?]|?]; [left|right]; done. }
  clear Hro. induction Hrun as [|evs cs s evs' cs' s' Hrun IH Hstep]; [left; by split|].
  destruct (run_spec _ _ _ _ _ Hok Hself Hrun) as [[Hs _ _ _ _ _]|?]; [|by right].
  destruct IH as [[Hl Hc]|?]; [|by right].
  destruct (node_step_spec _ _ _ _ _ Hs Hself Hstep) as [[_ Hau]|?]; [|by right]. left.
  destruct Hau as [[-> Hl']|(c & -> & _ & Hr & Hl' & _)].
  { rewrite app_nil_r, Hl'. done. }
  rewrite length_app. simpl. rewrite Hl' , Hr, Hl.
  assert (next_round (last_of (length cs)) = wrap 64 (N.of_nat (length cs))) as Hn.
  { destruct (length cs) as [|j]; simpl; [by rewrite wrap_small by apply width_pos|].
    unfold wrap. rewrite N.Div0.add_mod_idemp_l. f_equal. lia. }
  rewrite Hn. replace (length cs + 1) with (S (length cs)) by lia. split; [done|].
  intros k c' Hk. apply lookup_app_Some in Hk as [?|[Hge Hk]]; [by apply Hc|].
  apply list_lookup_singleton_Some in Hk as [Hk <-].
  assert (k = length cs) as -> by lia. by rewrite Hr, Hl, Hn.
Qed.



(** ** Equivocators *)

(** C14. An equivocating author is expelled at once.  When handling a certificate
    message leaves two different certificates of one author and round in the
    DAG that were not both there before, the author is out of the Authority
    Ring when the handler returns. *)
Theorem equivocator_expelled s self from now c s' outs evs h1 h2 c1 c2 :
  ingest_ok s → handle_cert s self from now c = Some (s', outs, evs) →
  certs (dag s') !! h1 = Some c1 → certs (dag s') !! h2 = Some c2 → h1 ≠ h2 →
  Certificate.author c1 = Certificate.author c2 → Certificate.round c1 = Certificate.round c2 →
  (certs (dag s) !! h1 = None ∨ certs (dag s) !! h2 = None) →
  AuthorityRing.members (authority_registry s') !! Certificate.author c1 = None.
Proof.
  intros Hok. unfold handle_cert.
  destruct (ingest_cert s c from now) as [[[s1 ins] o1]|] eqn:E1; [|done]. simpl.
  pose proof (ingest_cert_ingests _ _ _ _ _ _ _ Hok E1) as Hin.
  destruct (if AuthorityRing.contains _ self then _ else _) as [[s2 o2] e2] eqn:E2.
  assert (same_core s1 s2 ∧ detected_equivocations (inner s2) = detected_equivocations (inner s1)) as [Hcore Hdet].
  { case_match; [|by simplify_eq]. by apply cast_votes_core in E2 as (? & _ & _ & ?). }
  destruct (try_commit s2) as [[s3 e3]|] eqn:E3; [|done]. simpl. intros [= <- <- <-].
  assert (dag s3 = dag s1) as Ed.
  { destruct (try_commit_inv _ _ _ E3) as (s4 & e4 & e5 & F1 & F2 & _).
    apply commit_rounds_store in F1 as [Hd4 _ _ _ _ _ _].
    apply eject_ledger in F2 as [[Hd5 _ _ _ _ _ _ _ _ _] _]. simpl in Hd5.
    rewrite Hd5, Hd4. apply (sc_dag _ _ Hcore). }
  rewrite Ed. intros L1 L2 Hne Ea Er Hnone.
  destruct (in_exposed _ _ _ Hin h1 h2 c1 c2) as (p & Hp & <-); try done.
  apply (commit_ejects s2 s3 e3 E3 p). by rewrite Hdet.
Qed.
End node.
