(* ===== verification/NodeTypes.v ===== *)
(** * The node's integers

    Every counter, round and id the daemon stores is a machine integer in the
    code and an unbounded number in the model.  Here: whatever typed messages a
    node handles, each of them stays within its width. *)

From Stdlib Require Import Strings.String.
From S2P Require Import Prelude Crypto Cert Dag Commit Joint Equivocation Rings FastPath Mempool ExecTypes.
From S2P Require Import Substrate Block Sha3 Ltp RecordSet Governance NodeState Ingest NodeCommit.
From S2P Require Import NodeSafety Inbox Driver Client Node.
Import DagStore(certs).

Section types.
Context `{HB : Blake3, HM : MlDsa65, HN : Bincode, HS : Sha3, HL : Blst}.

(** The [u64] rounds, epochs and counters of the cold state, and the [u32]
    attempt counters of the fetch history. *)
Record clocks_typed (i : StateInner) : Prop := {
  ct_max : (max_observed_round i < width 64)%N;
  ct_tip : (sync_tip i < width 64)%N;
  ct_epoch : (current (epoch i) < width 64)%N;
  ct_boundary : (last_boundary_round (epoch i) < width 64)%N;
  ct_count : (ltp_received_count i < width 64)%N;
  ct_attempts : ∀ h t k, inflight_fetch_history i !! h = Some (t, k) → (k < width 32)%N;
}.

(** The fields [clocks_typed] reads. *)
Definition clocks (i : StateInner) : N * N * EpochState * N * gmap CertHash (N * N) :=
  (max_observed_round i, sync_tip i, epoch i, ltp_received_count i, inflight_fetch_history i).

Lemma clocks_typed_same i i' : clocks i' = clocks i → clocks_typed i → clocks_typed i'.
Proof. unfold clocks. intros [= E1 E2 E3 E4 E5] [? ? ? ? ? ?]. split; rewrite ?E1, ?E2, ?E3, ?E4, ?E5; done. Qed.

Lemma small_counter : (1 < width 32)%N.
Proof. by apply N.ltb_lt. Qed.

Lemma note_inserted_clocks c h i :
  Certificate.wf c → clocks_typed i → clocks_typed (note_inserted c h i).
Proof.
  intros (_ & Hr & _) [? ? ? ? ? Ha]. unfold note_inserted, record_seen.
  repeat case_match; simpl; repeat case_bool_decide; split; simpl; try done;
    intros h' t k [_ ?]%lookup_delete_Some; by eapply Ha.
Qed.

Lemma ingest_clocks s c from now s' ins outs :
  certs_typed s → Certificate.wf c → clocks_typed (inner s) →
  ingest_cert s c from now = Some (s', ins, outs) → clocks_typed (inner s').
Proof.
  intros Ht Hc Hk E.
  eapply (ingest_loop_ind (λ s' work _, certs_typed s' ∧ Forall Certificate.wf work ∧ clocks_typed (inner s'))
    from now); [| |exact E]; [|by split_and!; [|constructor|]].
  intros s1 c1 w i1 s2 i2 un o (Ht1 & [Hc1 Hw]%Forall_cons & Hk1) Hi.
  destruct (certs_typed_step _ _ _ _ _ _ _ _ Ht1 Hc1 Hi) as [Ht2 Hun].
  split_and!; [done|by apply Forall_app; split; [apply Forall_rev|]|].
  inversion Hi as [?|? ? Ha Hadm E1|m ? ? Ha Hm Hnn Hlt E1]; subst; [done| |].
  - apply on_inserted_fields in E1 as (_ & _ & _ & Ei & _). rewrite Ei.
    eapply clocks_typed_same; [|by apply (note_inserted_clocks c1 (Certificate.hash c1))]. done.
  - unfold on_orphan in E1. repeat case_bool_decide; simplify_eq/=; try done.
    { by destruct Hk1. }
    destruct Hk1 as [? ? ? ? ? Hat]. split; simpl; try done.
    intros h t k [[_ [= _ <-]]|[_ Hl]]%lookup_insert_Some; [apply small_counter|by eapply Hat].
Qed.

(** *** Commits *)

(** A walk touches only the epoch, and sets it from the round of a stored
    certificate. *)
Definition epoch_only (s s' : State) : Prop :=
  same_store s s' ∧ (certs_typed s → clocks_typed (inner s) → clocks_typed (inner s')).

#[local] Instance epoch_only_preorder : PreOrder epoch_only.
Proof.
  split; [by split|]. intros s1 s2 s3 [S1 H1] [S2 H2]. split; [by etrans|]. intros Ht Hk.
  apply H2; [|by apply H1]. destruct S1 as [Hd _ _ _ Ho _ _], Ht as [? ?]. split; by rewrite ?Hd, ?Ho.
Qed.

Lemma epoch_for_typed e r :
  (current e < width 64)%N → (r < width 64)%N → (epoch_for e r < width 64)%N.
Proof.
  intros He Hr. unfold epoch_for. case_bool_decide; [done|].
  eapply N.le_lt_trans; [by apply N.Div0.div_le_upper_bound with (q := r); nia|done].
Qed.

Lemma commit_claimed_clocks s h r is_ auths s' evs :
  (r < width 64)%N → commit_claimed s h r is_ auths = Some (s', evs) →
  clocks_typed (inner s) → clocks_typed (inner s').
Proof.
  intros Hr. unfold commit_claimed. destruct (hash_intents is_) as [hs|]; [|done]. simpl.
  destruct (execute_cert _ _ _ _ _) as [i2|] eqn:Ex; [|done]. simpl.
  assert (clocks i2 = clocks (inner s)) as Ek.
  { unfold execute_cert in Ex. by destruct (execute_block _ _) as [[? ?]|]; simplify_eq/=. }
  intros E Hk. apply (clocks_typed_same _ _ Ek) in Hk. destruct Hk as [K1 K2 K3 K4 K5 K6].
  unfold cross_boundary in E. simpl in E. destruct (boundary_crossed_by _ _); simpl in E.
  2: { simplify_eq. by split. }
  destruct (apply_queued _ _ _) as [[s3 e3]|] eqn:Eq; [|done]. simplify_eq/=.
  apply apply_queued_ledger in Eq as [[? ? ? ? ? ? ? ? (? & ? & Ei) ?] _]. rewrite Ei.
  split; simpl; try done. by apply epoch_for_typed.
Qed.

Lemma try_commit_clocks s s' evs :
  certs_typed s → clocks_typed (inner s) → try_commit s = Some (s', evs) → clocks_typed (inner s').
Proof.
  intros Ht Hk (s1 & e1 & e2 & E1 & E2 & _)%try_commit_inv.
  assert (epoch_only s s1) as [_ H1].
  { revert E1. apply (commit_rounds_ind epoch_only).
    - intros h s0. split; [by split|]. intros _. by apply clocks_typed_same.
    - intros s0 h c is_ auths s2 e Hc E. split.
      + apply commit_claimed_frame in E as ([? ? ? ? ? ? ?] & _). by split.
      + intros [Ht0 _] Hk0. eapply commit_claimed_clocks; [|exact E|done].
        by destruct (Ht0 _ _ Hc) as (_ & ? & _). }
  apply eject_ledger in E2 as [[? ? ? ? ? ? ? ? (? & ? & Ei) ?] _].
  eapply clocks_typed_same; [|by apply H1]. by rewrite Ei.
Qed.

(** *** Steps *)

(** The state is typed, and the invariant of runs holds. *)
Lemma clocks_typed_tip i r :
  (r < width 64)%N → clocks_typed i → clocks_typed (i <| sync_tip := r |>).
Proof. intros ? [? ? ? ? ? ?]. by split. Qed.

Lemma clocks_typed_count i : clocks_typed i → clocks_typed (i <| ltp_received_count ::= (λ n, wrap 64 (n + 1)) |>).
Proof. intros [? ? ? ? ? ?]. split; simpl; try done. apply wrap_lt. Qed.

Lemma cast_votes_clocks s self ins : clocks (inner (cast_votes s self ins).1.1) = clocks (inner s).
Proof.
  revert s. induction ins as [|ic ins IH]; intros s; simpl; [done|].
  match goal with |- context [cast_votes ?t self ins] => specialize (IH t); destruct (cast_votes t self ins) as [[s2 o] e] end.
  done.
Qed.

Lemma handle_cert_clocks s self from now c s' outs evs :
  certs_typed s → Certificate.wf c → clocks_typed (inner s) →
  handle_cert s self from now c = Some (s', outs, evs) → clocks_typed (inner s').
Proof.
  intros Ht Hc Hk. unfold handle_cert.
  destruct (ingest_cert s c from now) as [[[s1 ins] o1]|] eqn:E1; [|done]. simpl.
  pose proof (ingest_typed _ _ _ _ _ _ _ Ht Hc E1) as Ht1.
  pose proof (ingest_clocks _ _ _ _ _ _ _ Ht Hc Hk E1) as Hk1.
  destruct (if AuthorityRing.contains _ self then _ else _) as [[s2 o2] e2] eqn:E2.
  assert (certs_typed s2 ∧ clocks_typed (inner s2)) as [Ht2 Hk2].
  { case_match; [|by simplify_eq]. pose proof (cast_votes_clocks s1 self ins) as Ec. rewrite E2 in Ec.
    apply cast_votes_core in E2 as ([Hd _ _ _ Ho _ _ _ _] & _). split; [|by eapply clocks_typed_same].
    destruct Ht1 as [? ?]. split; by rewrite ?Hd, ?Ho. }
  destruct (try_commit s2) as [[s3 e3]|] eqn:E3; [|done]. simpl. intros [= <- <- <-].
  by eapply try_commit_clocks.
Qed.

Lemma fastpath_clocks s self c : clocks (inner (handle_fastpath_cert s self c).1.1) = clocks (inner s).
Proof.
  unfold handle_fastpath_cert, handle_fastpath_inner, accumulate.
  repeat (case_match; simplify_eq/=); try done; repeat case_bool_decide; simplify_eq/=; done.
Qed.

Lemma message_clocks s self from dyn now msg s' outs evs :
  certs_typed s → clocks_typed (inner s) → msg_typed msg →
  handle_message s self from dyn now msg = Some (s', outs, evs) → clocks_typed (inner s').
Proof.
  intros Ht Hk Hm. destruct msg; simpl in *; try (by intros [= <- <- <-]).
  - by apply handle_cert_clocks.
  - intros [= <- <- <-]. unfold handle_block. by repeat case_match.
  - unfold handle_vote. destruct dyn; [by intros [= <- <- <-]|].
    destruct (try_commit _) as [[s1 e1]|] eqn:E; [|done]. simpl. intros [= <- <- <-].
    eapply try_commit_clocks; [| |exact E]; by destruct Ht.
  - destruct dyn; [by intros [= <- <- <-]|]. intros [= E].
    eapply clocks_typed_same; [|exact Hk]. pose proof (fastpath_clocks s self c) as Ec. by rewrite E in Ec.
  - destruct dyn; [by intros [= <- <- <-]|]. unfold handle_ltp_attestation.
    repeat case_match; simplify_eq/=; intros [= <- <- <-]; simpl;
      (eapply clocks_typed_same; [|by apply clocks_typed_count]); done.
  - intros [= <- <- <-]. destruct dyn; [done|]. case_bool_decide; [by apply clocks_typed_tip|done].
Qed.

Lemma sweep_history_typed now l hist due hist' due' :
  (∀ h t k, hist !! h = Some (t, k) → (k < width 32)%N) →
  foldl (sweep_entry now) (hist, due) l = (hist', due') →
  ∀ h t k, hist' !! h = Some (t, k) → (k < width 32)%N.
Proof.
  revert hist due. induction l as [|x l IH]; intros hist due Hh E; cbn [foldl] in E; [by simplify_eq|].
  destruct (sweep_entry now (hist, due) x) as [hist1 due1] eqn:E1. eapply (IH hist1); [|exact E].
  unfold sweep_entry in E1. destruct (default (0, 0)%N (hist !! x)) as [la n] eqn:Ed.
  assert (n < width 32)%N as Hn.
  { destruct (hist !! x) as [[t k]|] eqn:El; simpl in Ed; simplify_eq; [by eapply Hh|apply width_pos]. }
  case_bool_decide; simplify_eq; intros h t k [[_ [= <- <-]]|[_ ?]]%lookup_insert_Some; try (by eapply Hh); [|done].
  unfold saturating_add. pose proof (width_pos 32). lia.
Qed.

Lemma step_clocks self s evs cs s' :
  node_ok s → clocks_typed (inner s) → step self s evs cs s' → clocks_typed (inner s').
Proof.
  intros [Hst Ht _ Hn Hr] Hk Hs.
  destruct Hs as [s from dyn now msg s' outs evs Hm E|s peer now msg s' resp keep E|s rms el s' outs E
    |s now s' due need E|s t s' outs evs E].
  - by eapply message_clocks.
  - by apply handle_client_frame in E as (m & g & ->).
  - apply driver_tick_inv in E as [[-> _]|(r & ps & c & b & hs & s1 & Eg & Eb & -> & _)]; [done|].
    apply build_proposal_spec in Eb as ((m & g & ->) & _ & Er & _).
    pose proof (DagStore.reachable_wf _ (ok_dag _ Hst)) as Hw.
    apply round_gate_spec in Eg as [Er' _]; [|done].
    assert (Certificate.round c < width 64)%N as Hc.
    { rewrite Er, Er'. destruct (last_authored_round _); [apply wrap_lt|apply width_pos]. }
    destruct Hk as [? ? ? ? ? ?]. unfold record_proposal, record_seen. simpl.
    repeat case_match; repeat case_bool_decide; by split.
  - unfold sweep_tick in E. destruct (foldl _ _ _) as [hist d] eqn:Ef. simplify_eq.
    destruct Hk as [? ? ? ? ? Ha]. split; simpl; try done. by eapply sweep_history_typed.
  - unfold propose_fastpath_tx in E. repeat case_bool_decide; simplify_eq; [done|..];
      by apply (clocks_typed_same (inner s)).
Qed.

End types.
