(* ===== verification/CommitTasks.v ===== *)
(** * Concurrent commit walks

    [try_commit] is called by one inbox task per peer, on shared state, and
    gives up its locks between the windows of the walk.  Here the walk is a
    program that advances one lock window at a time, and the node runs any
    number of such tasks interleaved with each other and with the tasks that
    only grow the store.  A single task running alone is [try_commit]; under
    any interleaving every certificate is claimed by one task and its block
    executed once; but the order of execution is not the order of claims. *)

From Stdlib Require Import Strings.String.
From S2P Require Import Prelude Crypto Cert Dag Commit Joint Equivocation Rings FastPath Mempool ExecTypes.
From S2P Require Import Substrate Block Sha3 Ltp RecordSet Governance NodeState Ingest NodeCommit NodeSafety.
From S2P Require Import Inbox Driver Client Node.
Import DagStore(certs).

Section tasks.
Context `{HB : Blake3, HM : MlDsa65, HN : Bincode}.

(** Where a task stands: the next lock window, with the locals it needs.
    [hist] and [rs] are the rest of the two loops. *)
Inductive Pc :=
| AtRounds (rs : list Round)
| AtLeader (lh : CertHash) (rs : list Round)
| AtQuorum (lh : CertHash) (rs : list Round)
| AtCausal (lh : CertHash) (rs : list Round)
| AtHistory (hist : list CertHash) (rs : list Round)
| AtDag (h : CertHash) (hist : list CertHash) (rs : list Round)
| AtBlock (h : CertHash) (c : Certificate) (hist : list CertHash) (rs : list Round)
| AtDefer (h : CertHash)
| AtClaim (h : CertHash) (c : Certificate) (b : BlockPayload) (hist : list CertHash) (rs : list Round)
| AtUnneed (h : CertHash) (c : Certificate) (b : BlockPayload) (hist : list CertHash) (rs : list Round)
| AtExecute (h : CertHash) (c : Certificate) (b : BlockPayload) (hist : list CertHash) (rs : list Round)
| AtQueue (h : CertHash) (c : Certificate) (b : BlockPayload) (hist : list CertHash) (rs : list Round)
| AtVotes (h : CertHash) (r : Round) (hist : list CertHash) (rs : list Round)
| AtEpoch (r : Round) (hist : list CertHash) (rs : list Round)
| AtTake (r : Round) (hist : list CertHash) (rs : list Round)
| AtApply (q : list (Intent * option GovAuth)) (r : Round) (hist : list CertHash) (rs : list Round)
| AtDrain
| AtEject (ps : list EquivocationProof)
| Finished.

(** A task with the votes and committee size it read at its start. *)
Record Task := mk_task { t_votes : list Vote; t_n : N; pc : Pc }.

Definition start_task (s : State) : Task :=
  mk_task (votes_flat s) (n_authorities (inner s)) (AtRounds (DagStore.rounds (dag s))).

(** One lock window: the new state, the certificate executed in it if any, and
    the next window.  [None] is a panic. *)
Definition window (vf : list Vote) (n : N) (s : State) (p : Pc) : option (State * list CertHash * Pc) :=
  match p with
  | AtRounds [] => Some (s, [], AtDrain)
  | AtRounds (r :: rs) =>
      st ← decide_slot (dag s) r n;
      Some (s, [], match st with Direct lh => AtLeader lh rs | _ => AtRounds rs end)
  | AtLeader lh rs =>
      Some (s, [], if bool_decide (lh ∈ committed s) then AtRounds rs else AtQuorum lh rs)
  | AtQuorum lh rs =>
      Some (s, [], if validator_quorum_met (stake_table s) lh vf then AtCausal lh rs else AtDrain)
  | AtCausal lh rs => hist ← causal_history (dag s) lh; Some (s, [], AtHistory hist rs)
  | AtHistory [] rs => Some (s, [], AtRounds rs)
  | AtHistory (h :: hist) rs =>
      Some (s, [], if bool_decide (h ∈ committed s) then AtHistory hist rs else AtDag h hist rs)
  | AtDag h hist rs =>
      Some (s, [], match certs (dag s) !! h with Some c => AtBlock h c hist rs | None => AtHistory hist rs end)
  | AtBlock h c hist rs =>
      Some (s, [], match authentic_block s h (Certificate.payload_digest c) with
                   | Some b => AtClaim h c b hist rs
                   | None => AtDefer h
                   end)
  | AtDefer h => Some (need_block h s, [], AtDrain)
  | AtClaim h c b hist rs =>
      if bool_decide (h ∈ committed s) then Some (s, [], AtHistory hist rs)
      else Some (claim h s, [], AtUnneed h c b hist rs)
  | AtUnneed h c b hist rs =>
      Some (with_inner (λ i, i <| needed_blocks ::= (λ X, X ∖ {[h]}) |>) s, [], AtExecute h c b hist rs)
  | AtExecute h c b hist rs =>
      hashes ← hash_intents (bp_intents b);
      i ← execute_cert (inner s) h (Certificate.round c) (bp_intents b) hashes;
      Some (s <| inner := i |>, [h], AtQueue h c b hist rs)
  | AtQueue h c b hist rs =>
      Some (with_inner (λ i, i <| pending_governance ::= (λ q, q ++ block_governance (bp_intents b)
              (bp_governance_auth b)) |>) s, [], AtVotes h (Certificate.round c) hist rs)
  | AtVotes h r hist rs => Some (s <| votes ::= delete h |>, [], AtEpoch r hist rs)
  | AtEpoch r hist rs =>
      let e := epoch (inner s) in
      if boundary_crossed_by e r
      then Some (with_inner (λ i, i <| epoch := mk_epoch (epoch_for e r) (rounds_per_epoch e) r |>) s,
                 [], AtTake r hist rs)
      else Some (s, [], AtHistory hist rs)
  | AtTake r hist rs =>
      Some (with_inner (λ i, i <| pending_governance := [] |>) s, [],
            AtApply (pending_governance (inner s)) r hist rs)
  | AtApply [] r hist rs => Some (s, [], AtHistory hist rs)
  | AtApply ((i, env) :: q) r hist rs =>
      '(s', _) ← apply_governance_intent s i env r; Some (s', [], AtApply q r hist rs)
  | AtDrain =>
      Some (with_inner (λ i, i <| detected_equivocations := [] |>) s, [],
            AtEject (detected_equivocations (inner s)))
  | AtEject [] => Some (s, [], Finished)
  | AtEject (p :: ps) =>
      let a := Equivocation.author p in
      Some (if bool_decide (is_Some (AuthorityRing.members (authority_registry s) !! a))
            then unseat s a else s, [], AtEject ps)
  | Finished => None
  end.

(** ** A task alone *)

Inductive alone (vf : list Vote) (n : N) : State → Pc → list CertHash → State → Pc → Prop :=
| alone_refl s p : alone vf n s p [] s p
| alone_step s p s1 l1 p1 l2 s2 p2 :
    window vf n s p = Some (s1, l1, p1) → alone vf n s1 p1 l2 s2 p2 → alone vf n s p (l1 ++ l2) s2 p2.

Lemma alone_trans vf n s p l1 s1 p1 l2 s2 p2 :
  alone vf n s p l1 s1 p1 → alone vf n s1 p1 l2 s2 p2 → alone vf n s p (l1 ++ l2) s2 p2.
Proof. induction 1; [done|]. intros. rewrite <-app_assoc. econstructor; eauto. Qed.

Lemma alone_silent vf n s p s1 p1 l s2 p2 :
  window vf n s p = Some (s1, [], p1) → alone vf n s1 p1 l s2 p2 → alone vf n s p l s2 p2.
Proof. intros E Hr. change l with ([] ++ l). by econstructor. Qed.

(** Run the windows of the goal one by one. *)
Ltac silent := eapply alone_silent; [reflexivity|].

Lemma apply_queued_alone vf n s q r hist rs s' evs :
  apply_queued s q r = Some (s', evs) → alone vf n s (AtApply q r hist rs) [] s' (AtHistory hist rs).
Proof.
  revert s evs. induction q as [|[i env] q IH]; intros s evs; simpl.
  { intros [= <- <-]. silent. constructor. }
  destruct (apply_governance_intent s i env r) as [[s1 e1]|] eqn:E1; [|done]. simpl.
  destruct (apply_queued s1 q r) as [[s2 e2]|] eqn:E2; [|done]. simpl. intros [= <- <-].
  eapply alone_silent; [simpl; by rewrite E1|]. by eapply IH.
Qed.

Lemma cross_boundary_alone vf n s r hist rs s' evs :
  cross_boundary s r = Some (s', evs) → alone vf n s (AtEpoch r hist rs) [] s' (AtHistory hist rs).
Proof.
  unfold cross_boundary. destruct (boundary_crossed_by _ _) eqn:Eb.
  - destruct (apply_queued _ _ _) as [[s2 e2]|] eqn:Eq; [|done]. simpl. intros [= <- <-].
    eapply alone_silent; [simpl; by rewrite Eb|]. silent.
    eapply apply_queued_alone. exact Eq.
  - intros [= <- <-]. eapply alone_silent; [simpl; by rewrite Eb|]. constructor.
Qed.

Lemma commit_claimed_alone vf n s h c b hist rs s' evs :
  h ∉ committed s →
  commit_claimed (claim h s) h (Certificate.round c) (bp_intents b) (bp_governance_auth b) = Some (s', evs) →
  alone vf n s (AtClaim h c b hist rs) [h] s' (AtHistory hist rs).
Proof.
  intros Hh. unfold commit_claimed. destruct (hash_intents (bp_intents b)) as [hs|] eqn:Eh; [|done]. simpl.
  destruct (execute_cert _ _ _ _ _) as [i2|] eqn:Ex; [|done]. simpl.
  destruct (cross_boundary _ _) as [[s3 e3]|] eqn:Ec; [|done]. simpl. intros [= <- <-].
  eapply alone_silent; [simpl; by rewrite bool_decide_false by done|]. silent.
  change [h] with ([h] ++ []). eapply alone_step; [simpl; rewrite Eh; simpl; by rewrite Ex|].
  silent. silent. eapply cross_boundary_alone. exact Ec.
Qed.

Lemma commit_history_alone vf n s hist rs s' evs stop :
  commit_history s hist = Some (s', evs, stop) →
  alone vf n s (AtHistory hist rs) (committed_log evs) s' (if stop then AtDrain else AtRounds rs).
Proof.
  revert s evs. induction hist as [|h hist IH]; intros s evs; simpl.
  { intros [= <- <- <-]. silent. constructor. }
  case_bool_decide as Hc.
  { intros E. eapply alone_silent; [simpl; by rewrite bool_decide_true by done|]. by apply IH. }
  destruct (certs (dag s) !! h) as [c|] eqn:Ed; intros E.
  2: { eapply alone_silent; [simpl; by rewrite bool_decide_false by done|].
       eapply alone_silent; [simpl; by rewrite Ed|]. by apply IH. }
  eapply alone_silent; [simpl; by rewrite bool_decide_false by done|].
  eapply alone_silent; [simpl; by rewrite Ed|].
  destruct (authentic_block s h _) as [b|] eqn:Eb.
  2: { simplify_eq. eapply alone_silent; [simpl; by rewrite Eb|]. silent. constructor. }
  destruct (commit_claimed _ _ _ _ _) as [[s1 e1]|] eqn:E1; [|done]. simpl in E.
  destruct (commit_history s1 hist) as [[[s2 e2] stop2]|] eqn:E2; [|done]. simplify_eq/=.
  eapply alone_silent; [simpl; by rewrite Eb|].
  pose proof (commit_claimed_frame _ _ _ _ _ _ _ E1) as (_ & _ & Hl & _).
  rewrite committed_log_app, Hl. eapply alone_trans; [by eapply commit_claimed_alone|]. by apply IH.
Qed.

Lemma commit_rounds_alone vf n s rs s' evs :
  commit_rounds s vf n rs = Some (s', evs) → alone vf n s (AtRounds rs) (committed_log evs) s' AtDrain.
Proof.
  revert s evs. induction rs as [|r rs IH]; intros s evs; simpl.
  { intros [= <- <-]. silent. constructor. }
  destruct (decide_slot (dag s) r n) as [[lh| |]|] eqn:Ed; [| | |done]; simpl.
  2,3: intros E; eapply alone_silent; [simpl; by rewrite Ed|]; by apply IH.
  intros E. eapply alone_silent; [simpl; by rewrite Ed|]. simpl. case_bool_decide as Hc.
  { eapply alone_silent; [simpl; by rewrite bool_decide_true by done|]. by apply IH. }
  eapply alone_silent; [simpl; by rewrite bool_decide_false by done|].
  destruct (validator_quorum_met _ _ _) eqn:Eq; simpl in E.
  2: { simplify_eq. eapply alone_silent; [simpl; by rewrite Eq|]. constructor. }
  eapply alone_silent; [simpl; by rewrite Eq|].
  destruct (causal_history (dag s) lh) as [hist|] eqn:Eh; [|done]. simpl in E.
  eapply alone_silent; [simpl; by rewrite Eh|].
  destruct (commit_history s hist) as [[[s1 e1] stop]|] eqn:E1; [|done]. simpl in E.
  apply (commit_history_alone vf n s hist rs) in E1. destruct stop; [by simplify_eq|].
  destruct (commit_rounds s1 vf n rs) as [[s2 e2]|] eqn:E2; [|done]. simplify_eq/=.
  rewrite committed_log_app. eapply alone_trans; [exact E1|]. by apply IH.
Qed.

Lemma eject_alone vf n s ps s' evs :
  eject_equivocators s ps = (s', evs) → alone vf n s (AtEject ps) [] s' Finished.
Proof.
  revert s evs. induction ps as [|p ps IH]; intros s evs; simpl.
  { intros [= <- <-]. silent. constructor. }
  case_bool_decide as Hc.
  - destruct (eject_equivocators _ ps) as [s1 e1] eqn:E1. intros [= <- <-].
    eapply alone_silent; [simpl; by rewrite bool_decide_true by done|]. by eapply IH.
  - intros E. eapply alone_silent; [simpl; by rewrite bool_decide_false by done|]. by eapply IH.
Qed.

(** A commit task that runs without interference does what [try_commit]
    does: it finishes in the same state, having executed the same log. *)
Theorem task_alone_is_try_commit s s' evs :
  try_commit s = Some (s', evs) →
  alone (t_votes (start_task s)) (t_n (start_task s)) s (pc (start_task s)) (committed_log evs) s' Finished.
Proof.
  intros (s1 & e1 & e2 & E1 & E2 & _ & ->)%try_commit_inv. simpl.
  rewrite <-(app_nil_r (committed_log e1)). eapply alone_trans; [by apply commit_rounds_alone|].
  pose proof (commit_rounds_store _ _ _ _ _ _ E1) as [_ _ _ Hq _ _ _].
  silent. rewrite Hq. by eapply eject_alone.
Qed.

(** ** Interleaved tasks *)

(** The shared state, the tasks that walk it, and the order in which blocks were
    executed. *)
Record Machine := mk_machine { m_state : State; m_tasks : list Task; m_log : list CertHash }.

(** What every task may rely on in the shared store. *)
Definition shared_ok (s : State) : Prop :=
  DagStore.wf (dag s) ∧ map_Forall (λ _ c, Certificate.wf c) (certs (dag s)) ∧ blocks_consistent s.

(** What the other tasks of the node may do to the shared state between two
    windows of a walk: anything that leaves the claims and the ledger alone and
    only adds certificates. *)
Record grows (s s' : State) : Prop := {
  gr_certs : certs (dag s) ⊆ certs (dag s');
  gr_committed : committed s' = committed s;
  gr_substrate : substrate (inner s') = substrate (inner s);
  gr_ok : shared_ok s';
}.

Inductive mstep : Machine → Machine → Prop :=
| m_window s ts l k t s' l' p' :
    ts !! k = Some t → window (t_votes t) (t_n t) s (pc t) = Some (s', l', p') →
    mstep (mk_machine s ts l) (mk_machine s' (<[k := mk_task (t_votes t) (t_n t) p']> ts) (l ++ l'))
| m_spawn s ts l vf n rs :
    mstep (mk_machine s ts l) (mk_machine s (mk_task vf n (AtRounds rs) :: ts) l)
| m_other s ts l s' : grows s s' → mstep (mk_machine s ts l) (mk_machine s' ts l).

(** The certificate a task has claimed and not yet executed. *)
Definition claimed_by (p : Pc) : list CertHash :=
  match p with AtUnneed h _ _ _ _ | AtExecute h _ _ _ _ => [h] | _ => [] end.
Definition in_flight (ts : list Task) : list CertHash := ts ≫= λ t, claimed_by (pc t).

(** The locals of a task are about the store. *)
Definition pc_ok (s : State) (p : Pc) : Prop :=
  match p with
  | AtBlock h c _ _ => certs (dag s) !! h = Some c
  | AtClaim h c b _ _ | AtUnneed h c b _ _ | AtExecute h c b _ _ =>
      certs (dag s) !! h = Some c ∧
      compute_payload_digest (bp_intents b) (bp_governance_auth b) = Certificate.payload_digest c
  | _ => True
  end.

Lemma pc_ok_mono s s' p : certs (dag s) ⊆ certs (dag s') → pc_ok s p → pc_ok s' p.
Proof.
  intros Hs. destruct p; simpl; try done; [by intros; eapply lookup_weaken|..];
    intros [? ?]; split; try done; by eapply lookup_weaken.
Qed.

(** The three things a window can do to the claims and the ledger. *)
Definition effect (s : State) (p : Pc) (s' : State) (l : list CertHash) (p' : Pc) : Prop :=
  (committed s' = committed s ∧ substrate (inner s') = substrate (inner s) ∧ l = [] ∧
   claimed_by p' = claimed_by p) ∨
  (∃ h, h ∉ committed s ∧ committed s' = {[h]} ∪ committed s ∧
        substrate (inner s') = substrate (inner s) ∧ l = [] ∧ claimed_by p = [] ∧ claimed_by p' = [h]) ∨
  (∃ h, committed s' = committed s ∧ lawful (substrate (inner s)) [h] (substrate (inner s')) ∧
        l = [h] ∧ claimed_by p = [h] ∧ claimed_by p' = []).

Lemma execute_effect s h c b hashes i :
  shared_ok s → certs (dag s) !! h = Some c →
  compute_payload_digest (bp_intents b) (bp_governance_auth b) = Certificate.payload_digest c →
  execute_cert (inner s) h (Certificate.round c) (bp_intents b) hashes = Some i →
  lawful (substrate (inner s)) [h] (substrate i).
Proof.
  intros (Hw & Ht & _) Hl Hd. unfold execute_cert.
  destruct (execute_block _ _) as [[rep sub]|] eqn:Ex; [|done]. simpl. intros [= <-].
  pose proof (DagStore.wf_hash _ Hw _ _ Hl) as <-.
  eapply lawful_cons; [by eapply Ht|exact Hd|exact Ex|constructor].
Qed.

Lemma authentic_digest s h c b :
  shared_ok s → authentic_block s h (Certificate.payload_digest c) = Some b →
  compute_payload_digest (bp_intents b) (bp_governance_auth b) = Certificate.payload_digest c.
Proof.
  intros (_ & _ & Hb). unfold authentic_block.
  destruct (blocks s !! h) as [b'|] eqn:El; [|done]. simpl. case_bool_decide as Hd; [|done].
  intros [= ->]. specialize (Hb _ _ El). unfold block_payload_is_consistent in Hb.
  apply bool_decide_eq_true in Hb. by rewrite Hb.
Qed.

(** A window that only reads, or changes what the effect does not speak of. *)
Ltac quiet := split_and!; try done; by left.

Lemma window_effect vf n s p s' l p' :
  shared_ok s → pc_ok s p → window vf n s p = Some (s', l, p') →
  dag s' = dag s ∧ blocks s' = blocks s ∧ pc_ok s' p' ∧ effect s p s' l p'.
Proof.
  intros Hok Hp. destruct p as [rs|lh rs|lh rs|lh rs|hist rs|h hist rs|h c hist rs|h|h c b hist rs
    |h c b hist rs|h c b hist rs|h c b hist rs|h r hist rs|r hist rs|r hist rs|q r hist rs| |ps|]; simpl.
  - destruct rs as [|r rs]; [intros [= <- <- <-]; quiet|].
    destruct (decide_slot _ _ _) as [[]|]; simpl; try done; intros [= <- <- <-]; quiet.
  - case_bool_decide; intros [= <- <- <-]; quiet.
  - destruct (validator_quorum_met _ _ _); intros [= <- <- <-]; quiet.
  - destruct (causal_history _ _); simpl; [|done]. intros [= <- <- <-]; quiet.
  - destruct hist; [|case_bool_decide]; intros [= <- <- <-]; quiet.
  - destruct (certs (dag s) !! h) as [c|] eqn:El; intros [= <- <- <-]; quiet.
  - destruct (authentic_block _ _ _) as [b|] eqn:Eb; intros [= <- <- <-]; [|quiet].
    split_and!; try done; [|by left]. split; [exact Hp|]. by eapply authentic_digest.
  - intros [= <- <- <-]; quiet.
  - case_bool_decide as Hc; intros [= <- <- <-]; [quiet|]. split_and!; try done. right; left. by exists h.
  - intros [= <- <- <-]; quiet.
  - destruct (hash_intents _) as [hs|]; simpl; [|done].
    destruct (execute_cert _ _ _ _ _) as [i|] eqn:Ex; simpl; [|done]. intros [= <- <- <-].
    destruct Hp as [Hl Hd]. split_and!; try done. right; right. exists h. split_and!; try done.
    by eapply execute_effect.
  - intros [= <- <- <-]; quiet.
  - intros [= <- <- <-]; quiet.
  - destruct (boundary_crossed_by _ _); intros [= <- <- <-]; quiet.
  - intros [= <- <- <-]; quiet.
  - destruct q as [|[i env] q]; [intros [= <- <- <-]; quiet|].
    destruct (apply_governance_intent s i env r) as [[s1 e1]|] eqn:E1; simpl; [|done]. intros [= <- <- <-].
    apply apply_governance_ledger in E1 as [[Hd Hb Hc _ _ _ _ _ (? & ? & Ei) _] _].
    split_and!; try done. left. by rewrite Ei.
  - intros [= <- <- <-]; quiet.
  - destruct ps as [|q ps]; [intros [= <- <- <-]; quiet|]. case_bool_decide; intros [= <- <- <-]; quiet.
  - done.
Qed.

(** [C] is [C0] with each certificate of [l] added once. *)
Definition extends_by (C0 : gset CertHash) (l : list CertHash) (C : gset CertHash) : Prop :=
  NoDup l ∧ C = list_to_set l ∪ C0 ∧ ∀ h, h ∈ l → h ∉ C0.

Lemma extends_by_perm C0 l l' C : l ≡ₚ l' → extends_by C0 l C → extends_by C0 l' C.
Proof.
  intros HP (Hnd & -> & Hf). split_and!; [by rewrite <-HP|f_equal; by apply list_to_set_perm_L|].
  intros h Hh. apply Hf. by rewrite HP.
Qed.

Lemma extends_by_cons C0 l C h : extends_by C0 l C → h ∉ C → extends_by C0 (h :: l) ({[h]} ∪ C).
Proof. intros (Hnd & -> & Hf) Hh. split_and!; [constructor|..]; set_solver. Qed.

(** The invariant of the machine, over the state [s0] it started from. *)
Record minv (s0 : State) (m : Machine) : Prop := {
  mi_shared : shared_ok (m_state m);
  mi_locals : Forall (λ t, pc_ok (m_state m) (pc t)) (m_tasks m);
  mi_lawful : lawful (substrate (inner s0)) (m_log m) (substrate (inner (m_state m)));
  mi_claims : extends_by (committed s0) (m_log m ++ in_flight (m_tasks m)) (committed (m_state m));
}.

(** Replacing the window of one task. *)
Lemma in_flight_insert ts k t t' :
  ts !! k = Some t →
  ∃ rest, in_flight ts ≡ₚ claimed_by (pc t) ++ rest ∧
          in_flight (<[k := t']> ts) ≡ₚ claimed_by (pc t') ++ rest.
Proof.
  intros Hk. exists (in_flight (take k ts ++ drop (S k) ts)). unfold in_flight.
  rewrite insert_take_drop by (by eapply lookup_lt_Some).
  rewrite <-(take_drop_middle ts k t Hk) at 1. rewrite !bind_app. simpl.
  split; solve_Permutation.
Qed.

Lemma minv_step s0 m m' : minv s0 m → mstep m m' → minv s0 m'.
Proof.
  intros [Hok Hlo Hla Hcl] Hst.
  destruct Hst as [s ts l k t s' l' p' Hk E|s ts l vf n rs|s ts l s' [Hg1 Hg2 Hg3 Hg4]]; simpl in *.
  2: { by split; simpl; [|constructor| |]. }
  2: { split; simpl; rewrite ?Hg2, ?Hg3; try done.
       eapply Forall_impl; [exact Hlo|]. intros t. by apply pc_ok_mono. }
  pose proof (Forall_lookup_1 _ _ _ _ Hlo Hk) as Hp.
  destruct (window_effect _ _ _ _ _ _ _ Hok Hp E) as (Hd & Hb & Hp' & Hef).
  assert (shared_ok s') as Hok' by (unfold shared_ok, blocks_consistent; by rewrite Hd, Hb).
  assert (Forall (λ t, pc_ok s' (pc t)) (<[k := mk_task (t_votes t) (t_n t) p']> ts)) as Hlo'.
  { apply Forall_insert; [|done]. eapply Forall_impl; [exact Hlo|]. intros t'. apply pc_ok_mono. by rewrite Hd. }
  destruct (in_flight_insert ts k t (mk_task (t_votes t) (t_n t) p') Hk) as (rest & HP & HP').
  simpl in HP'. apply (extends_by_perm _ _ (l ++ claimed_by (pc t) ++ rest)) in Hcl; [|by rewrite HP].
  destruct Hef as [(E1 & E2 & -> & E3)|[(h & Hh & E1 & E2 & -> & E3 & E4)|(h & E1 & E2 & -> & E3 & E4)]].
  - split; simpl; rewrite ?app_nil_r; try done; [by rewrite E2|]. rewrite E1.
    eapply extends_by_perm; [|exact Hcl]. by rewrite HP', E3.
  - split; simpl; rewrite ?app_nil_r; try done; [by rewrite E2|]. rewrite E1, E3 in *.
    eapply extends_by_perm; [|by apply extends_by_cons]. rewrite HP', E4. solve_Permutation.
  - split; simpl; try done; [by eapply lawful_app|]. rewrite E1.
    eapply extends_by_perm; [|exact Hcl]. rewrite HP', E3, E4. solve_Permutation.
Qed.

(** C8. Claims are exclusive.  However the windows of any number of concurrent
    commit walks interleave with each other and with the tasks that extend the
    store, every certificate is claimed by one walk and executed at most once,
    with a block that hashes to the digest the certificate carries: the
    substrate is the starting one with the blocks of the execution log applied
    in the order of the log, the certificates marked committed are exactly those
    executed or held by one walk that is about to execute them, and none of them
    was committed before. *)
Theorem claims_exclusive s m :
  shared_ok s → rtc mstep (mk_machine s [] []) m → minv s m.
Proof.
  intros Hok Hrun. remember (mk_machine s [] []) as m0 eqn:E0.
  assert (minv s m0) as H0.
  { subst. split; simpl; try done; [apply lawful_nil|]. split_and!; [constructor|set_solver|set_solver]. }
  clear E0. induction Hrun as [m|m m1 m2 H1 _ IH]; [done|]. apply IH. by eapply minv_step.
Qed.
End tasks.

Section others.
Context `{HB : Blake3, HM : MlDsa65, HN : Bincode, HS : Sha3, HL : Blst}.

Lemma node_ok_shared s : node_ok s → shared_ok s.
Proof.
  intros [[? ? ? ?] [? _] ? _ _]. split_and!; try done. by apply DagStore.reachable_wf.
Qed.

(** The steps of the node that commit nothing are what the machine allows the
    other tasks. *)
Lemma quiet_step_grows self s evs cs s' :
  node_ok s → (self < width 32)%N → step self s evs cs s' → committed_log evs = [] →
  grows s s' ∨ collision.
Proof.
  intros Hok Hself Hst Hl.
  destruct (node_step_spec _ _ _ _ _ Hok Hself Hst) as [[[H1 H2 H3 _ _ H6] _]|?]; [left|by right].
  rewrite Hl in H2, H3. split; [done|set_solver|by inversion H2|by apply node_ok_shared].
Qed.
End others.
