(* ===== verification/NodeExamples.v ===== *)
(** * Concrete nodes

    A committee of four with one-byte keys, a node of it run by hand, and the
    theorems about the node at concrete inputs; then the runs that show where
    the node departs from what its comments promise. *)

From Stdlib Require Import Strings.Ascii Strings.String.
From stdpp Require Import strings.
From S2P Require Import Prelude Crypto Cert Dag Commit Joint Equivocation Rings FastPath Mempool ExecTypes.
From S2P Require Import Substrate Block Sha3 Ltp RecordSet Governance NodeState Ingest NodeCommit.
From S2P Require Import NodeSafety Inbox Driver Client Node NodeTypes CommitTasks.
Import DagStore(certs).

Module ToyNode.
#[export] Instance toy_blake3 : Blake3 := Toy.toy_blake3.
#[export] Instance toy_mldsa : MlDsa65 := Toy.toy_mldsa.
#[export] Instance toy_sha3 : Sha3 := {| sha3 := Toy.hash; sha3_length := blake3_length (Blake3 := Toy.toy_blake3) |}.
#[export] Instance toy_blst : Blst := {|
  blst_pk_parses b := bool_decide (length b = 1);
  blst_sig_parses b := negb (bool_decide (b = []));
  blst_verify msg sig pk := bool_decide (sig = pk ++ msg) || bool_decide (sig = [Byte.xff]);
  blst_aggregate l := Some [Byte.xff];
  blst_aggregate_pks l := Some [byte_of_N (sum_N (be_value <$> l))];
|}.

(** Enough of an encoding for the intents of the examples. *)
Definition enc (i : Intent) : bytes :=
  match i with
  | Transfer from to_ amount => Byte.x01 :: from ++ to_ ++ be_bytes 16 amount
  | AdmitAuthority a stake pk _ => Byte.x02 :: be_bytes 4 a ++ be_bytes 16 stake ++ pk
  | ExitAuthority a => Byte.x03 :: be_bytes 4 a
  | EjectAuthority a _ => Byte.x04 :: be_bytes 4 a
  | _ => [Byte.x00]
  end.
Definition enc_auth (p : N * GovAuth) : bytes :=
  be_bytes 4 p.1 ++ sponsor_pubkey_hash p.2 ++ sponsor_signature p.2 ++ co_signer_pubkey_hash p.2 ++
  co_signature p.2 ++ candidate_pop_signature p.2.
#[export] Instance toy_bincode : Bincode := {|
  encode_intent i := Ok (enc i);
  encode_intents l := Ok (be_bytes 8 (N.of_nat (length l)) ++ mjoin (enc <$> l));
  encode_gov_auths l := Ok (be_bytes 8 (N.of_nat (length l)) ++ mjoin (enc_auth <$> l));
  encode_transfer_tail p := Ok (p.1 ++ be_bytes 16 p.2);
|}.

(** Lower-case hexadecimal. *)
Definition nibble (a : ascii) : option N :=
  let n := N_of_ascii a in
  if bool_decide (48 ≤ n ∧ n ≤ 57)%N then Some (n - 48)%N
  else if bool_decide (97 ≤ n ∧ n ≤ 102)%N then Some (n - 87)%N else None.
Fixpoint unhex (s : string) : option bytes :=
  match s with
  | EmptyString => Some []
  | String a (String b rest) =>
      x ← nibble a; y ← nibble b; l ← unhex rest; Some (byte_of_N (16 * x + y)%N :: l)
  | _ => None
  end.
#[export] Instance toy_hex : Hex := unhex.

Definition addr (b : byte) : Address := replicate 20 b.
Definition genesis (who : list (N * string)) (rounds_per_epoch : N) : GenesisManifest :=
  mk_manifest (tag "toy") ((λ p, mk_genesis_validator p.1 "v" p.2 "" 100000 100000) <$> who) [] rounds_per_epoch
    [mk_prebalance "0x0a0a0a0a0a0a0a0a0a0a0a0a0a0a0a0a0a0a0a0a" 10].
Definition solo : list (N * string) := [(0, "01")]%N%string.
Definition four : list (N * string) := [(0, "01"); (1, "02"); (2, "03"); (3, "04")]%N%string.
Definition key (i : N) : bytes := [byte_of_N (i + 1)].
Definition sk (i : N) : mldsa.SecretKey := mldsa.mk_sk (key i).

(** What authority [who] signs for an intent. *)
Definition sig_of (i : Intent) (who : N) : bytes :=
  key who ++ default [] (intent_signing_digest (tag "toy") i).
Definition pay (from to_ : byte) (amount : N) : Intent := Transfer (addr from) (addr to_) amount.
Definition signed (i : Intent) (who : N) : ClientMessage := Submit i (sig_of i who) (signer_pubkey_hash (key who)).
Definition co_signed (i : Intent) (a b : N) : GovAuth :=
  mk_gov_auth (signer_pubkey_hash (key a)) (sig_of i a) (signer_pubkey_hash (key b)) (sig_of i b) [].

(** *** Scripts *)

Inductive action :=
| AMsg (from : string) (is_dynamic : bool) (msg : WireMessage)
| AClient (msg : ClientMessage)
| ATick
| ASweep (now_ms : N).

#[export] Instance wf_dec c : Decision (Certificate.wf c).
Proof. unfold Certificate.wf. apply _. Defined.
#[local] Instance typed_dec m : Decision (msg_typed m).
Proof. destruct m; simpl; apply _. Defined.

Definition act (self : AuthorityId) (s : State) (a : action) : option (State * list Event * list Certificate) :=
  match a with
  | AMsg from dyn msg =>
      if decide (msg_typed msg)
      then match handle_message s self from dyn 0 msg with Some (s', _, evs) => Some (s', evs, []) | None => None end
      else None
  | AClient msg =>
      match handle_client_message s "c" (λ _, 0%N) msg with Some (s', _, _) => Some (s', [], []) | None => None end
  | ATick =>
      match driver_tick s self 100 0 with
      | Some (s', outs) =>
          Some (s', [], omap (λ o, match o with Broadcast (WCert c) => Some c | _ => None end) outs)
      | None => None
      end
  | ASweep now => Some ((sweep_tick s now).1.1, [], [])
  end.

Fixpoint script (self : AuthorityId) (s : State) (l : list action) : option (State * list Event * list Certificate) :=
  match l with
  | [] => Some (s, [], [])
  | a :: l =>
      match act self s a with
      | Some (s1, e1, c1) =>
          match script self s1 l with Some (s2, e2, c2) => Some (s2, e1 ++ e2, c1 ++ c2) | None => None end
      | None => None
      end
  end.

Lemma act_step self s a s' evs cs : act self s a = Some (s', evs, cs) → step self s evs cs s'.
Proof.
  destruct a as [from dyn msg|msg| |now]; simpl.
  - destruct (decide (msg_typed msg)) as [Ht|]; [|done].
    destruct (handle_message _ _ _ _ _ _) as [[[s1 o] e]|] eqn:E; [|done]. intros [= <- <- <-].
    by eapply step_message.
  - destruct (handle_client_message _ _ _ _) as [[[s1 o] e]|] eqn:E; [|done]. intros [= <- <- <-].
    by eapply step_client.
  - destruct (driver_tick _ _ _ _) as [[s1 o]|] eqn:E; [|done]. intros [= <- <- <-]. by eapply step_tick.
  - intros [= <- <- <-]. destruct (sweep_tick s now) as [[s1 d] n] eqn:E. by eapply step_sweep.
Qed.

Lemma script_run self s0 l s e c s' e' c' :
  run self s0 e c s → script self s l = Some (s', e', c') → run self s0 (e ++ e') (c ++ c') s'.
Proof.
  revert s e c e' c'. induction l as [|a l IH]; intros s e c e' c' Hr; simpl.
  { intros [= <- <- <-]. by rewrite !app_nil_r. }
  destruct (act self s a) as [[[s1 e1] c1]|] eqn:E1; [|done].
  destruct (script self s1 l) as [[[s2 e2] c2]|] eqn:E2; [|done]. intros [= <- <- <-].
  rewrite !app_assoc. eapply (IH s1); [|exact E2]. exact (run_step _ _ _ _ _ _ _ _ Hr (act_step _ _ _ _ _ _ E1)).
Qed.

Definition blank : State := default (mk_state DagStore.new ∅ ∅ ∅ StakeTable.new AuthorityRing.new ValidatorRing.new
  (new_inner (genesis [] 1) Substrate.new) (Mempool.new default_mempool_config) (sk 0) [] ∅)
  (new_state (genesis solo 1) (sk 0)).
Definition play (self : AuthorityId) (s : State) (l : list action) : State * list Event * list Certificate :=
  default (s, [], []) (script self s l).

Lemma played self s l :
  (if script self s l then true else false) = true → run self s (play self s l).1.2 (play self s l).2 (play self s l).1.1.
Proof.
  unfold play. destruct (script self s l) as [[[s' e] c]|] eqn:E; [|done]. intros _. simpl.
  exact (script_run self s l s [] [] s' e c (run_nil _ _) E).
Qed.

(** *** A committee of one, and an observer *)

Definition alice : State := default blank (new_state (genesis solo 4) (sk 0)).
Definition bob : State := default blank (new_state (genesis solo 4) (sk 5)).
Definition three_rounds : list action := [ATick; ATick; ATick].
Definition chain : list Certificate := Eval vm_compute in (play 0 alice three_rounds).2.
Definition first_hash : CertHash := Eval vm_compute in default [] (Certificate.hash <$> head chain).
Definition ratify : action := AMsg "p" false (WVote (mk_vote 0 first_hash)).
Definition alice_does : list action := three_rounds ++ [ratify].
Definition bob_does : list action := Eval vm_compute in
  flat_map (λ c, match blocks (play 0 alice three_rounds).1.1 !! Certificate.hash c with
                 | Some b => [AMsg "p" false (WBlock b); AMsg "p" false (WCert c)]
                 | None => []
                 end) chain ++ [ASweep 0; ratify].

(** *** A committee of four *)

Definition dave : State := default blank (new_state (genesis four 1) (sk 0)).
Definition empty_digest : bytes := compute_payload_digest [] [].
Definition cert_of (a : N) (r : Round) (ps : list CertHash) (d : bytes) : Certificate :=
  let c := Certificate.mk a r ps d [] in default c (Certificate.sign c (sk a)).
(** A certificate with its block. *)
Definition link (a : N) (r : Round) (ps : list CertHash) (is_ : list Intent) (auths : list (N * GovAuth))
    : Certificate * BlockPayload :=
  let d := compute_payload_digest is_ auths in
  let c := cert_of a r ps d in (c, mk_payload_block d a r (Certificate.hash c) is_ auths).
Definition hashes_of (l : list (Certificate * BlockPayload)) : list CertHash := (λ x, bp_cert_hash x.2) <$> l.
(** A state of [s] that holds the given certificates with their blocks and has
    the votes of [who] for the certificates [vs]. *)
Definition holding (s : State) (l : list (Certificate * BlockPayload)) (who : list N) (vs : list CertHash) : State :=
  s <| dag := DagExamples.build l.*1 |>
    <| blocks := list_to_map ((λ x, (bp_cert_hash x.2, x.2)) <$> l) |>
    <| votes := list_to_map ((λ h, (h, (λ a, mk_vote a h) <$> who)) <$> vs) |>.

Definition leave : Intent := ExitAuthority 3.
Definition row0 : list (Certificate * BlockPayload) := Eval vm_compute in
  link 0 0 [] [leave] [(0%N, co_signed leave 0 1)] :: ((λ a, link a 0 [] [] []) <$> [1; 2; 3]%N).
Definition row1 : list (Certificate * BlockPayload) := Eval vm_compute in
  (λ a, link a 1 (hashes_of row0) [] []) <$> [0; 1; 2; 3]%N.
Definition row2 : list (Certificate * BlockPayload) := Eval vm_compute in
  (λ a, link a 2 (hashes_of row1) [] []) <$> [0; 1; 2; 3]%N.
(** The leaders of rounds 0 and 1. *)
Definition leaders : list CertHash := omap (λ o, o) [hashes_of row0 !! 0; hashes_of row1 !! 1].
(** Three rounds in, with the votes for the first two leaders. *)
Definition eve : State := holding dave (row0 ++ row1 ++ row2) [1; 2; 3]%N leaders.

(** *** A chain of two transfers, ready to commit *)

Definition link0 : Certificate * BlockPayload := Eval vm_compute in link 0 0 [] [pay Byte.x0a Byte.x0b 10] [].
Definition k0 : CertHash := bp_cert_hash link0.2.
Definition link1 : Certificate * BlockPayload := Eval vm_compute in link 0 1 [k0] [pay Byte.x0b Byte.x0c 10] [].
Definition k1 : CertHash := bp_cert_hash link1.2.
Definition link2 : Certificate * BlockPayload := Eval vm_compute in link 0 2 [k1] [] [].
Definition walker : State := holding alice [link0; link1; link2] [0%N] [k0; k1].
End ToyNode.
Import ToyNode.


(** ** The theorems at concrete inputs *)
Module NodeWitnesses.

(** A partial result is the value it has when it has one. *)
Lemma some_default {A} (o : option A) (d : A) :
  (if o then true else false) = true → o = Some (default d o).
Proof. by destruct o. Qed.

Lemma alice_genesis : new_state (genesis solo 4) (sk 0) = Some alice.
Proof. apply some_default. vm_compute. reflexivity. Qed.
Lemma bob_genesis : new_state (genesis solo 4) (sk 5) = Some bob.
Proof. apply some_default. vm_compute. reflexivity. Qed.
Lemma dave_genesis : new_state (genesis four 1) (sk 0) = Some dave.
Proof. apply some_default. vm_compute. reflexivity. Qed.
Lemma dave_ok : node_ok dave.
Proof. apply (new_state_ok _ _ _ dave_genesis). Qed.
Lemma small_id (n : N) : (n <? width 32)%N = true → (n < width 32)%N.
Proof. apply N.ltb_lt. Qed.

Lemma alice_run : run 0 alice (play 0 alice alice_does).1.2 (play 0 alice alice_does).2 (play 0 alice alice_does).1.1.
Proof. apply played. vm_compute. reflexivity. Qed.
Lemma bob_run : run 5 bob (play 5 bob bob_does).1.2 (play 5 bob bob_does).2 (play 5 bob bob_does).1.1.
Proof. apply played. vm_compute. reflexivity. Qed.
Lemma alice_log : committed_log (play 0 alice alice_does).1.2 = [first_hash].
Proof. vm_compute. reflexivity. Qed.
Lemma bob_log : committed_log (play 5 bob bob_does).1.2 = [first_hash].
Proof. vm_compute. reflexivity. Qed.



Lemma holding_reachable s l who vs :
  is_Ok (DagStore.insert_all DagStore.new l.*1) = true → DagStore.reachable (dag (holding s l who vs)).
Proof. intros Hok. eapply DagExamples.build_reachable, DagExamples.build_ok, Hok. Qed.

Lemma commit_walk_refines_finalize_witness :
  ∃ s1 e1, commit_rounds walker (votes_flat walker) 1 (DagStore.rounds (dag walker)) = Some (s1, e1) ∧
    committed_log e1 = [k0; k1] ∧
    ∃ F, finalize (dag walker) 1 = Some F ∧ walks walker (votes_flat walker) 1 F [] s1 e1.
Proof.
  set (r := commit_rounds walker (votes_flat walker) 1 (DagStore.rounds (dag walker))).
  assert ((committed_log ∘ snd) <$> r = Some [k0; k1]) as El by (vm_compute; reflexivity).
  destruct r as [[s1 e1]|] eqn:E; [|discriminate El]. injection El as El.
  exists s1, e1. split; [reflexivity|]. split; [exact El|].
  destruct (commit_walk_refines_finalize walker [] s1 e1) as (F & EF & Hw).
  - apply holding_reachable. vm_compute. reflexivity.
  - vm_compute. reflexivity.
  - reflexivity.
  - exact E.
  - exists F. split; [exact EF|]. apply Hw. apply prefix_nil.
Defined.

(** The exit that authorities 0 and 1 signed takes effect at the boundary. *)
Lemma ring_changes_authorised_witness :
  ∃ s' evs, try_commit eve = Some (s', evs) ∧ is_Some (AuthorityRing.members (authority_registry eve) !! 3%N) ∧
    AuthorityRing.members (authority_registry s') !! 3%N = None ∧
    rtc (ring_change (tag "toy") []) (authority_registry eve) (authority_registry s').
Proof.
  assert ((λ r : State * list Event, bool_decide (AuthorityRing.members (authority_registry r.1) !! 3%N = None)) <$>
          try_commit eve = Some true) as Eo by (vm_compute; reflexivity).
  destruct (try_commit eve) as [[s' evs]|] eqn:E; [|discriminate Eo]. injection Eo as Eo.
  exists s', evs. split; [reflexivity|]. split; [apply (bool_decide_eq_true_1 _); vm_compute; reflexivity|].
  split; [exact (bool_decide_eq_true_1 _ Eo)|].
  destruct (ring_changes_authorised eve s' evs E) as (Hr & _). exact Hr.
Defined.

Lemma ingest_spec_witness :
  ∃ s' ins outs, ingest_cert dave (cert_of 1 0 [] empty_digest) "p" 0 = Some (s', ins, outs) ∧
    certs (dag s') !! Certificate.hash (cert_of 1 0 [] empty_digest) = Some (cert_of 1 0 [] empty_digest).
Proof.
  destruct (ingest_spec dave (cert_of 1 0 [] empty_digest) "p" 0) as (s' & ins & outs & E & _ & Hin).
  - apply dave_ok.
  - exists s', ins, outs. split; [exact E|]. apply Hin.
    + exists (mldsa.mk_pk (key 1)). vm_compute. split; reflexivity.
    + split; [|split].
      * intros _. vm_compute. reflexivity.
      * assert (Certificate.parents (cert_of 1 0 [] empty_digest) = []) as -> by (vm_compute; reflexivity).
        intros p Hp. exfalso. exact (not_elem_of_nil p Hp).
      * vm_compute. reflexivity.
Defined.

(** Authority 3 signs two different genesis certificates. *)
Definition fork (x : byte) : Certificate := cert_of 3 0 [] (replicate 32 x).
Definition forked (s : State) (x : byte) : option (State * list Output * list Event) :=
  handle_cert s 0 "p" 0 (fork x).

Lemma equivocator_expelled_witness :
  ∃ s1 o1 e1 s2 o2 e2, forked dave Byte.x01 = Some (s1, o1, e1) ∧ forked s1 Byte.x02 = Some (s2, o2, e2) ∧
    AuthorityRing.members (authority_registry s2) !! 3%N = None.
Proof.
  assert (∀ x, Certificate.wf (fork x)) as Hwf.
  { intros x. split_and!; [apply small_id; reflexivity|by apply N.ltb_lt|by apply N.ltb_lt|constructor|reflexivity]. }
  destruct (forked dave Byte.x01) as [[[s1 o1] e1]|] eqn:E1.
  2: { exfalso. assert ((if forked dave Byte.x01 then true else false) = true) as Hc by (vm_compute; reflexivity).
       rewrite E1 in Hc. discriminate Hc. }
  assert (match forked dave Byte.x01 with
          | Some (s1, _, _) =>
              match forked s1 Byte.x02 with
              | Some (s2, _, _) =>
                  bool_decide (certs (dag s2) !! Certificate.hash (fork Byte.x01) = Some (fork Byte.x01)) &&
                  bool_decide (certs (dag s2) !! Certificate.hash (fork Byte.x02) = Some (fork Byte.x02)) &&
                  bool_decide (certs (dag s1) !! Certificate.hash (fork Byte.x02) = None)
              | None => false
              end
          | None => false
          end = true) as Hc by (vm_compute; reflexivity).
  rewrite E1 in Hc. destruct (forked s1 Byte.x02) as [[[s2 o2] e2]|] eqn:E2; [|discriminate Hc].
  apply andb_true_iff in Hc as [[H1 H2]%andb_true_iff H3].
  exists s1, o1, e1, s2, o2, e2. split; [reflexivity|]. split; [exact E2|].
  apply (equivocator_expelled s1 0 "p" 0 (fork Byte.x02) s2 o2 e2 (Certificate.hash (fork Byte.x01))
    (Certificate.hash (fork Byte.x02)) (fork Byte.x01) (fork Byte.x02)).
  - apply (handle_cert_ok dave 0 "p" 0 (fork Byte.x01) s1 o1 e1); [apply dave_ok|apply Hwf|exact E1].
  - exact E2.
  - exact (bool_decide_eq_true_1 _ H1).
  - exact (bool_decide_eq_true_1 _ H2).
  - apply (bool_decide_eq_false_1 _). vm_compute. reflexivity.
  - reflexivity.
  - reflexivity.
  - right. exact (bool_decide_eq_true_1 _ H3).
Defined.


(** A transaction signed by authorities 1 and 2 gathers this node's signature. *)
Definition fp_cert : FastPathCert := 
  mk_cert (mk_tx (replicate 32 Byte.x01) (addr Byte.x0a) 7 [] 0 (replicate 32 Byte.x02)) {[1%N; 2%N]}.


Lemma dynamic_peers_confined_witness :
  ∃ outs, handle_message dave 0 "x" true 0 WGetTip = Some (dave, outs, []) ∧ ∀ o, o ∈ outs → ∃ m, o = Reply "x" m.
Proof.
  exists [Reply "x" (WTip 0)]. split; [reflexivity|].
  apply (dynamic_peers_confined dave 0 "x" 0 WGetTip dave [Reply "x" (WTip 0)] []). reflexivity.
Defined.

Lemma governed_intent_spec_witness :
  verify_governed_intent (authority_registry dave) (tag "toy") leave (co_signed leave 0 1) = Some (Ok tt) ∧
  approved (authority_registry dave) (tag "toy") leave (co_signed leave 0 1).
Proof.
  assert (verify_governed_intent (authority_registry dave) (tag "toy") leave (co_signed leave 0 1) = Some (Ok tt)) as E
    by (vm_compute; reflexivity).
  split; [exact E|].
  destruct (governed_intent_spec (authority_registry dave) (tag "toy") leave (co_signed leave 0 1))
    as (res & E' & _ & _ & Hap & _).
  - exists (enc leave). reflexivity.
  - apply Hap. rewrite E in E'. injection E' as <-. reflexivity.
Defined.


Lemma listener_bounds_witness :
  (Listener.accept (Listener.mk_limits 1 1 0) (Listener.accept (Listener.mk_limits 1 1 0) Listener.new "a").2 "b").1 = true ↔
  (1 < 1)%N ∧ (0 < 1)%N.
Proof.
  destruct (Listener.listener_bounds (Listener.mk_limits 1 1 0) ["a"]
    (Listener.accept (Listener.mk_limits 1 1 0) Listener.new "a").2 "b") as [_ Hi].
  - apply (Listener.serving_accept _ [] Listener.new "a" true).
    + apply Listener.serving_new.
    + reflexivity.
  - exact Hi.
Defined.


Lemma task_alone_is_try_commit_witness :
  ∃ s' evs, try_commit walker = Some (s', evs) ∧ committed_log evs = [k0; k1] ∧
    alone (votes_flat walker) 1 walker (AtRounds (DagStore.rounds (dag walker))) (committed_log evs) s' Finished.
Proof.
  assert ((committed_log ∘ snd) <$> try_commit walker = Some [k0; k1]) as El by (vm_compute; reflexivity).
  destruct (try_commit walker) as [[s' evs]|] eqn:E; [|discriminate El]. injection El as El.
  exists s', evs. split; [reflexivity|]. split; [exact El|].
  exact (task_alone_is_try_commit walker s' evs E).
Defined.
End NodeWitnesses.

(** ** Concurrent walks *)
Module Race.
(** Task [k] runs its next window, or idles when it is done. *)
Definition turn (m : Machine) (k : nat) : Machine :=
  match m_tasks m !! k with
  | Some t =>
      match window (t_votes t) (t_n t) (m_state m) (pc t) with
      | Some (s', l', p') =>
          mk_machine s' (<[k := mk_task (t_votes t) (t_n t) p']> (m_tasks m)) (m_log m ++ l')
      | None => m
      end
  | None => m
  end.
Definition turns : Machine → list nat → Machine := foldl turn.

Lemma turns_run m ks : rtc mstep m (turns m ks).
Proof.
  revert m. induction ks as [|k ks IH]; intros m; simpl; [constructor|].
  destruct m as [s ts l]. unfold turn. simpl.
  destruct (ts !! k) as [t|] eqn:Hk; [|apply IH].
  destruct (window _ _ _ _) as [[[s' l'] p']|] eqn:E; [|apply IH].
  eapply rtc_l; [by eapply m_window|apply IH].
Qed.

(** Two walks start on the same state; the first stops between its claim of the
    first certificate and its execution until the second has finished. *)
Definition two_walks : Machine := mk_machine walker [start_task walker; start_task walker] [].
Definition race : Machine := turns two_walks (replicate 8 0 ++ replicate 40 1 ++ replicate 40 0).
Definition balance_at (s : State) (b : byte) : N := balance (substrate (inner s)) (addr b).

Lemma walker_ok : shared_ok walker.
Proof.
  split_and!.
  - apply DagStore.reachable_wf, NodeWitnesses.holding_reachable. vm_compute. reflexivity.
  - apply (bool_decide_eq_true_1 (map_Forall (λ _ c, Certificate.wf c) (certs (dag walker)))).
    vm_compute. reflexivity.
  - apply (bool_decide_eq_true_1 (map_Forall (λ _ b, block_payload_is_consistent b = true) (blocks walker))).
    vm_compute. reflexivity.
Qed.

Lemma race_run : rtc mstep (mk_machine walker [] []) race.
Proof.
  eapply rtc_l; [apply (m_spawn _ _ _ (votes_flat walker) 1 (DagStore.rounds (dag walker)))|].
  eapply rtc_l; [apply (m_spawn _ _ _ (votes_flat walker) 1 (DagStore.rounds (dag walker)))|].
  apply turns_run.
Qed.

Lemma triple_eq {A B C} (a a' : A) (b b' : B) (c c' : C) :
  (a, b, c) = (a', b', c') → a = a' ∧ b = b' ∧ c = c'.
Proof. by intros [= -> -> ->]. Qed.

(** One evaluation of the race. *)
Lemma race_outcome :
  m_log race = [k1; k0] ∧ pc <$> m_tasks race = [Finished; Finished] ∧
  balance_at (m_state race) Byte.x0c = 0%N.
Proof.
  apply triple_eq. vm_compute. reflexivity.
Qed.

Lemma race_finished : Forall (λ t, pc t = Finished) (m_tasks race).
Proof.
  destruct race_outcome as (_ & Ep & _).
  destruct (m_tasks race) as [|t1 [|t2 [|t3 ts]]]; try discriminate Ep. injection Ep as E1 E2.
  by repeat constructor.
Qed.

Lemma claims_exclusive_witness :
  m_log race = [k1; k0] ∧ extends_by ∅ [k1; k0] (committed (m_state race)).
Proof.
  destruct race_outcome as (El & _).
  assert (in_flight (m_tasks race) = []) as Ef.
  { pose proof race_finished as Hf. induction Hf as [|t ts Ht _ IH]; [done|].
    unfold in_flight in *. cbn. by rewrite Ht. }
  split; [exact El|].
  destruct (claims_exclusive walker race walker_ok race_run) as [_ _ _ Hc].
  rewrite El, Ef in Hc. exact Hc.
Defined.

End Race.

(** ** Committees with gaps *)
Module Gap.

(** Authority 1 of four leaves. *)
Definition left_over : State := (enact dave (ExitAuthority 1) 0).1.

(** After the exit the committee size is 3 and the seated ids are 0, 2 and 3;
    the driver still counts the ids 0, 1 and 2, so it sees at most two authors
    in any round authored by seated authorities, below the quorum of three, and
    never cites the certificates of authority 3. *)
Theorem exit_starves_quorum :
  n_authorities (inner left_over) = 3%N ∧ quorum_threshold 3 = 3%N ∧
  (AuthorityRing.id <$> AuthorityRing.members_iter (authority_registry left_over)) = [0; 2; 3]%N ∧
  ∀ d r k, DagStore.wf d →
    (∀ h c, certs d !! h = Some c → Certificate.round c = r →
       Certificate.author c ∈ AuthorityRing.id <$> AuthorityRing.members_iter (authority_registry left_over)) →
    distinct_authors_at d r 3 = Some k → (k < quorum_threshold 3)%N.
Proof.
  assert ((AuthorityRing.id <$> AuthorityRing.members_iter (authority_registry left_over)) = [0; 2; 3]%N) as Em
    by (vm_compute; reflexivity).
  split; [vm_compute; reflexivity|]. split; [reflexivity|]. split; [exact Em|].
  rewrite Em. intros d r k Hw Ha. unfold distinct_authors_at.
  change (range 0 3) with [0; 1; 2]%N. cbn [mapM].
  destruct (cert_at d r 0) as [o0|]; [|done]. cbn [mbind option_bind].
  destruct (cert_at d r 1) as [[h1|]|] eqn:E1; [..|done]; cbn [mbind option_bind].
  { exfalso. apply cert_at_Some in E1 as [(c & Hc & Hr & Hau) _]; [|done].
    specialize (Ha h1 c Hc Hr). rewrite Hau, !elem_of_cons, elem_of_nil in Ha.
    clear -Ha. destruct Ha as [?|[?|[?|[]]]]; lia. }
  destruct (cert_at d r 2) as [o2|]; [|done]. cbn. intros [= <-].
  change (quorum_threshold 3) with 3%N. destruct o0, o2; cbn; lia.
Qed.

(** Authority 4 is admitted and authority 1 leaves before 4 authored anything. *)
Definition admitted_then_left : State :=
  (enact (enact dave (AdmitAuthority 4 100000 (key 4) []) 0).1 (ExitAuthority 1) 0).1.

(** The exit counts the pending authority, and its first certificate counts it
    again: a committee of four is taken for one of five. *)
Theorem pending_authority_counted_twice :
  n_authorities (inner admitted_then_left) = 4%N ∧ AuthorityRing.len (authority_registry admitted_then_left) = 4 ∧
  (λ r : State * list IngestedCert * list Output,
     (n_authorities (inner r.1.1), AuthorityRing.len (authority_registry r.1.1))) <$>
    ingest_cert admitted_then_left (cert_of 4 0 [] empty_digest) "p" 0 = Some (5%N, 4).
Proof. split; [vm_compute; reflexivity|]. split; vm_compute; reflexivity. Qed.
End Gap.

(** ** Corridor keys *)
Module CorridorKeys.
Definition payload (src dst height : N) : AttestationPayload :=
  mk_payload src dst height (replicate 32 Byte.x05) 6.
(** One registered corridor, with id 3, and its latest verified payload. *)
Definition bridged : State :=
  dave <| inner := mk_inner (substrate (inner dave)) None 0 0 4 ∅ ∅ ∅ ∅ ∅ ∅ ∅ []
            {[3%N := payload 1 2 10]} 1 {[(1, 2)%N := mk_corridor 3 []]} (epoch (inner dave)) ∅ [] ∅ [] ∅ ∅ None |>.

(** An attestation without any signature, for a chain pair that has no
    corridor, replaces the latest payload of the registered corridor. *)
Theorem fallback_overwrites_corridor :
  ltp_latest (inner bridged) !! 3%N = Some (payload 1 2 10) ∧
  ltp_latest (inner (handle_ltp_attestation bridged (mk_corridor_attestation (payload 0 3 7) [] ∅)).1) !! 3%N =
    Some (payload 0 3 7).
Proof. split; vm_compute; reflexivity. Qed.
End CorridorKeys.
