(* ===== verification/NodeIndex.v ===== *)
(** * The transaction index

    The daemon indexes the blocks it proposes and commits by round and by intent
    hash ([tx_to_block], [blocks_by_round] of [daemon.rs]).  Over every run the
    indices point to blocks the node holds, at the position of an intent with
    that hash, and cover everything that was committed. *)

From Stdlib Require Import Strings.String.
From S2P Require Import Prelude Crypto Cert Dag Commit Joint Equivocation Rings FastPath Mempool ExecTypes.
From S2P Require Import Substrate Block Sha3 Ltp RecordSet Governance NodeState Ingest NodeCommit.
From S2P Require Import NodeSafety Inbox Driver Client Node.
Import DagStore(certs).

Section index.
Context `{HB : Blake3, HM : MlDsa65, HN : Bincode, HS : Sha3, HL : Blst}.

(** The block of a stored certificate, with the payload the certificate signs. *)
Definition held (s : State) (ch : CertHash) (c : Certificate) (b : BlockPayload) : Prop :=
  certs (dag s) !! ch = Some c ∧ blocks s !! ch = Some b ∧
  bp_payload_digest b = Certificate.payload_digest c.

Definition indices (i : StateInner) : gmap Round CertHash * gmap bytes (Round * CertHash * nat) :=
  (blocks_by_round i, tx_to_block i).

Record index_ok (s : State) : Prop := {
  ix_tx : ∀ x r ch k, tx_to_block (inner s) !! x = Some (r, ch, k) →
    ∃ c b i, held s ch c b ∧ Certificate.round c = r ∧ bp_intents b !! k = Some i ∧ intent_hash i = Some x;
  ix_round : ∀ r ch, blocks_by_round (inner s) !! r = Some ch →
    ∃ c b, held s ch c b ∧ Certificate.round c = r ∧ is_Some (hash_intents (bp_intents b));
  ix_committed : ∀ ch, ch ∈ committed s →
    ∃ c b, held s ch c b ∧ is_Some (blocks_by_round (inner s) !! Certificate.round c) ∧
      ∀ i, i ∈ bp_intents b → ∃ x, intent_hash i = Some x ∧ is_Some (tx_to_block (inner s) !! x);
}.

(** Held blocks stay held, with the same intents. *)
Definition keeps (s s' : State) : Prop :=
  ∀ ch c b, held s ch c b → ∃ b', held s' ch c b' ∧ bp_intents b' = bp_intents b.

Lemma index_ok_keeps s s' :
  keeps s s' → indices (inner s') = indices (inner s) → committed s' = committed s → index_ok s → index_ok s'.
Proof.
  unfold indices. intros Hk [= E1 E2] Ec [H1 H2 H3]. split; rewrite ?E1, ?E2, ?Ec.
  - intros x r ch k Hx. destruct (H1 x r ch k Hx) as (c & b & i & Hh & Hr & Hi & Hxi).
    destruct (Hk _ _ _ Hh) as (b' & Hh' & Eb). exists c, b', i. by rewrite Eb.
  - intros r ch Hr. destruct (H2 r ch Hr) as (c & b & Hh & ? & ?). destruct (Hk _ _ _ Hh) as (b' & ? & Eb).
    exists c, b'. by rewrite Eb.
  - intros ch Hc. destruct (H3 ch Hc) as (c & b & Hh & ? & Hi). destruct (Hk _ _ _ Hh) as (b' & ? & Eb).
    exists c, b'. by rewrite Eb.
Qed.

Lemma keeps_same s s' : dag s' = dag s → blocks s' = blocks s → keeps s s'.
Proof. intros Ed Eb ch c b Hh. exists b. unfold held. by rewrite Ed, Eb. Qed.

(** ** The index of one block *)

Lemma index_txs_snoc hs x r h m : index_txs (hs ++ [x]) r h m = <[x := (r, h, length hs)]> (index_txs hs r h m).
Proof. unfold index_txs. rewrite imap_app, foldl_app. simpl. by rewrite Nat.add_0_r. Qed.

Lemma index_txs_inv hs r h m x v :
  index_txs hs r h m !! x = Some v → m !! x = Some v ∨ ∃ k, hs !! k = Some x ∧ v = (r, h, k).
Proof.
  induction hs as [|y hs IH] using rev_ind; [by left|]. rewrite index_txs_snoc.
  intros [[<- <-]|[Hne Hl]]%lookup_insert_Some.
  - right. exists (length hs). split; [|done]. apply list_lookup_middle. done.
  - destruct (IH Hl) as [?|(k & Hk & ->)]; [by left|]. right. exists k. split; [|done]. by apply lookup_app_l_Some.
Qed.

Lemma index_txs_covers hs r h m x :
  x ∈ hs ∨ is_Some (m !! x) → is_Some (index_txs hs r h m !! x).
Proof.
  induction hs as [|y hs IH] using rev_ind; [by intros [?%elem_of_nil|?]|].
  rewrite index_txs_snoc, elem_of_app, list_elem_of_singleton.
  intros Hx. rewrite lookup_insert_is_Some'. destruct (decide (y = x)); [by left|]. right. apply IH. naive_solver.
Qed.

Lemma hash_intents_spec is_ hs : hash_intents is_ = Some hs ↔ Forall2 (λ i x, intent_hash i = Some x) is_ hs.
Proof. unfold hash_intents. by rewrite mapM_Some. Qed.

(** Indexing the block of a stored certificate. *)
Lemma index_ok_block s s' h c b hs X :
  index_ok s → keeps s s' → held s' h c b → hash_intents (bp_intents b) = Some hs →
  indices (inner s') = (<[Certificate.round c := h]> (blocks_by_round (inner s)),
                        index_txs hs (Certificate.round c) h (tx_to_block (inner s))) →
  committed s' = X ∪ committed s → (∀ ch, ch ∈ X → ch = h) → index_ok s'.
Proof.
  unfold indices. intros [H1 H2 H3] Hk Hh Ehs [= E1 E2] Ec HX. pose proof Ehs as Ehs'. apply hash_intents_spec in Ehs.
  split; rewrite ?E1, ?E2, ?Ec.
  - intros x r ch k [Hx|(k' & Hk' & [= -> -> ->])]%index_txs_inv.
    + destruct (H1 x r ch k Hx) as (c' & b' & i & Hh' & Hr & Hi & Hxi).
      destruct (Hk _ _ _ Hh') as (b'' & Hh'' & Eb). exists c', b'', i. by rewrite Eb.
    + destruct (Forall2_lookup_r _ _ _ _ _ Ehs Hk') as (i & Hi & Hx). by exists c, b, i.
  - intros r ch [[<- <-]|[_ Hr]]%lookup_insert_Some; [exists c, b; by rewrite Ehs'|].
    destruct (H2 r ch Hr) as (c' & b' & Hh' & ? & ?). destruct (Hk _ _ _ Hh') as (b'' & ? & Eb).
    exists c', b''. by rewrite Eb.
  - intros ch [->%HX|Hc]%elem_of_union.
    + exists c, b. split; [done|]. split; [rewrite lookup_insert_is_Some'; by left|].
      intros i [k Hi]%list_elem_of_lookup_1. destruct (Forall2_lookup_l _ _ _ _ _ Ehs Hi) as (x & Hx & ?).
      exists x. split; [done|]. apply index_txs_covers. left. by eapply list_elem_of_lookup_2.
    + destruct (H3 ch Hc) as (c' & b' & Hh' & ? & Hi). destruct (Hk _ _ _ Hh') as (b'' & ? & Eb).
      exists c', b''. split; [done|]. split; [rewrite lookup_insert_is_Some'; by right|].
      rewrite Eb. intros i Hin. destruct (Hi i Hin) as (x & ? & ?). exists x. split; [done|].
      apply index_txs_covers. by right.
Qed.

(** ** Commits *)

Lemma execute_cert_index i h r is_ hs i' :
  execute_cert i h r is_ hs = Some i' →
  indices i' = (<[r := h]> (blocks_by_round i), index_txs hs r h (tx_to_block i)).
Proof. unfold execute_cert. destruct (execute_block _ _) as [[rep sub]|]; [|done]. by intros [= <-]. Qed.

Lemma cross_boundary_index s r s' evs :
  cross_boundary s r = Some (s', evs) → indices (inner s') = indices (inner s).
Proof.
  unfold cross_boundary. case_match; [|by intros [= <- <-]].
  destruct (apply_queued _ _ _) as [[s2 e2]|] eqn:E; [|done]. simpl. intros [= <- <-].
  apply apply_queued_ledger in E as [[? ? ? ? ? ? ? ? (? & ? & Ei) ?] _]. by rewrite Ei.
Qed.

Lemma commit_claimed_index s h r is_ auths s' evs :
  commit_claimed s h r is_ auths = Some (s', evs) →
  ∃ hs, hash_intents is_ = Some hs ∧
    indices (inner s') = (<[r := h]> (blocks_by_round (inner s)), index_txs hs r h (tx_to_block (inner s))).
Proof.
  unfold commit_claimed. destruct (hash_intents is_) as [hs|]; [|done]. simpl.
  destruct (execute_cert _ _ _ _ _) as [i2|] eqn:Ex; [|done]. simpl.
  destruct (cross_boundary _ r) as [[s3 e3]|] eqn:Ec; [|done]. simpl. intros [= <- <-].
  exists hs. split; [done|]. apply cross_boundary_index in Ec. rewrite Ec. exact (execute_cert_index _ _ _ _ _ _ Ex).
Qed.

Definition index_kept (s s' : State) : Prop := same_store s s' ∧ (index_ok s → index_ok s').
#[local] Instance index_kept_preorder : PreOrder index_kept.
Proof. split; [by split|]. intros s1 s2 s3 [? ?] [? ?]. split; [by etrans|by auto]. Qed.

Lemma try_commit_index s s' evs : try_commit s = Some (s', evs) → index_ok s → index_ok s'.
Proof.
  intros (s1 & e1 & e2 & E1 & E2 & _)%try_commit_inv Hi.
  assert (index_kept s s1) as [_ H1].
  { revert E1. apply (commit_rounds_block_ind index_kept).
    - intros h s0. split; [by split|]. apply index_ok_keeps; [by apply keeps_same|done|done].
    - intros s0 h c b s2 e Hc [Hb Hd]%authentic_block_Some E.
      pose proof (commit_claimed_index _ _ _ _ _ _ _ E) as (hs & Ehs & Ei).
      apply commit_claimed_frame in E as (Hs & Ecm & _). split; [by destruct Hs; split|]. intros Hi0.
      destruct Hs as [Ed Eb _ _ _ _ _]. simpl in Ed, Eb.
      eapply (index_ok_block s0 s2 h c b hs {[h]}); try done.
      + by apply keeps_same.
      + unfold held. by rewrite Ed, Eb.
      + set_solver. }
  apply eject_ledger in E2 as [[Ed Eb Ec ? ? ? ? ? (? & ? & Ei) ?] _].
  apply (index_ok_keeps s1); [by apply keeps_same|by rewrite Ei|done|by apply H1].
Qed.

(** ** Messages *)

(** Blocks with the same digest carry the same intents. *)
Lemma same_digest_intents b b' :
  block_payload_is_consistent b = true → block_payload_is_consistent b' = true →
  bp_payload_digest b = bp_payload_digest b' → bp_intents b = bp_intents b' ∨ collision ∨ ambiguous_payload.
Proof.
  unfold block_payload_is_consistent. intros E1%bool_decide_eq_true E2%bool_decide_eq_true E.
  assert (compute_payload_digest (bp_intents b) (bp_governance_auth b) =
          compute_payload_digest (bp_intents b') (bp_governance_auth b')) as Ed by congruence.
  destruct (blake3_eq_or _ _ Ed) as [El|?]; [|by auto].
  destruct (decide (bp_intents b = bp_intents b')) as [?|Hne]; [by left|].
  right. right. by exists (bp_intents b), (bp_intents b'), (bp_governance_auth b), (bp_governance_auth b').
Qed.

(** Storing a block under a certificate that signs it. *)
Lemma keeps_insert s s' h b :
  blocks_consistent s → block_payload_is_consistent b = true →
  certs (dag s) ⊆ certs (dag s') → blocks s' = <[h := b]> (blocks s) →
  (∀ c, certs (dag s) !! h = Some c → bp_payload_digest b = Certificate.payload_digest c) →
  keeps s s' ∨ collision ∨ ambiguous_payload.
Proof.
  intros Hbc Hb Hg Eb Hd.
  assert (∀ ch c b0, ch ≠ h → held s ch c b0 → held s' ch c b0) as Hother.
  { intros ch c b0 Hne (Hc & Hl & ?). unfold held. rewrite Eb, lookup_insert_ne by done.
    split_and!; [by eapply lookup_weaken|done..]. }
  destruct (certs (dag s) !! h) as [c0|] eqn:Ec, (blocks s !! h) as [b0|] eqn:El.
  2-4: left; intros ch c b1 Hh; exists b1; (split; [|done]); apply Hother; [|done];
    intros ->; destruct Hh as (? & ? & _); congruence.
  specialize (Hd c0 eq_refl). specialize (Hbc _ _ El).
  destruct (decide (bp_payload_digest b0 = Certificate.payload_digest c0)) as [Ed|Hn].
  - destruct (same_digest_intents b b0) as [Ei|?]; [done|done|congruence| |by right].
    left. intros ch c b1 Hh. destruct (decide (ch = h)) as [->|Hne]; [|exists b1; split; [by apply Hother|done]].
    destruct Hh as (Hc & Hl & _). simplify_eq. exists b. split; [|done].
    unfold held. rewrite Eb, lookup_insert_eq. split_and!; [by eapply lookup_weaken|done..].
  - left. intros ch c b1 Hh. exists b1. split; [|done]. apply Hother; [|done]. intros ->.
    destruct Hh as (Hc & Hl & ?). simplify_eq.
Qed.

Lemma handle_block_keeps s dyn b :
  blocks_consistent s → keeps s (handle_block s dyn b) ∨ collision ∨ ambiguous_payload.
Proof.
  intros Hbc. assert (keeps s s) as Hrefl by (by apply keeps_same). unfold handle_block.
  destruct dyn; [by left|]. destruct (block_payload_is_consistent b) eqn:Eb; simpl; [|by left].
  destruct (certs (dag s) !! bp_cert_hash b) as [c|] eqn:Ec.
  - case_bool_decide as Hd; [|by left]. eapply keeps_insert; [done|exact Eb|done|done|].
    intros c' Hc'. by simplify_eq.
  - destruct (blocks s !! bp_cert_hash b) eqn:El; [by left|].
    eapply keeps_insert; [done|exact Eb|done|done|]. intros c' Hc'. by simplify_eq.
Qed.

Lemma note_inserted_index c h i : indices (note_inserted c h i) = indices i.
Proof. unfold note_inserted, record_seen. repeat case_match; simpl; repeat case_bool_decide; done. Qed.

Lemma ingest_index s c from now s' ins outs :
  index_ok s → ingest_cert s c from now = Some (s', ins, outs) → index_ok s'.
Proof.
  intros Hi E. eapply (ingest_loop_ind (λ s' _ _, index_ok s') from now); [|exact Hi|exact E].
  intros s1 c1 w i1 s2 i2 un o Hi1 Hin.
  inversion Hin as [?|? ? Ha Hadm E1|m ? ? Ha Hm Hnn Hlt E1]; subst; [done| |].
  - pose proof Hadm as (_ & _ & Hfresh).
    apply on_inserted_fields in E1 as ([] & Ed & Eb & Ei & _). eapply (index_ok_keeps s1); [|by rewrite Ei; apply note_inserted_index|done|done].
    intros ch cc b (Hc & Hb & Hd). exists b. split; [|done]. unfold held. rewrite Ed, Eb.
    assert (ch ≠ Certificate.hash c1) as Hne by (intros ->; congruence).
    split_and!; [by apply lookup_insert_Some; right| |done].
    unfold evict_mismatched. repeat case_match; [|done..]. by rewrite lookup_delete_ne.
  - unfold on_orphan in E1. repeat case_bool_decide; simplify_eq/=; try done;
      by apply (index_ok_keeps s1); [apply keeps_same|..].
Qed.

Lemma cast_votes_index s self ins : indices (inner (cast_votes s self ins).1.1) = indices (inner s).
Proof.
  revert s. induction ins as [|ic ins IH]; intros s; simpl; [done|].
  match goal with |- context [cast_votes ?t self ins] => specialize (IH t); destruct (cast_votes t self ins) as [[s2 o] e] end.
  done.
Qed.

Lemma fastpath_index s self c : indices (inner (handle_fastpath_cert s self c).1.1) = indices (inner s).
Proof.
  unfold handle_fastpath_cert, handle_fastpath_inner, accumulate.
  repeat (case_match; simplify_eq/=); try done; repeat case_bool_decide; simplify_eq/=; done.
Qed.

Lemma index_ok_core s s' : same_core s s' → indices (inner s') = indices (inner s) → index_ok s → index_ok s'.
Proof. intros [Ed Eb Ec _ _ _ _ _ _] Ei. apply index_ok_keeps; [by apply keeps_same|done|done]. Qed.

Lemma handle_cert_index s self from now c s' outs evs :
  index_ok s → handle_cert s self from now c = Some (s', outs, evs) → index_ok s'.
Proof.
  intros Hi. unfold handle_cert.
  destruct (ingest_cert s c from now) as [[[s1 ins] o1]|] eqn:E1; [|done]. simpl.
  pose proof (ingest_index _ _ _ _ _ _ _ Hi E1) as Hi1.
  destruct (if AuthorityRing.contains _ self then _ else _) as [[s2 o2] e2] eqn:E2.
  assert (index_ok s2) as Hi2.
  { case_match; [|by simplify_eq]. pose proof (cast_votes_index s1 self ins) as Ec. rewrite E2 in Ec.
    apply cast_votes_core in E2 as (Hc & _). by eapply index_ok_core. }
  destruct (try_commit s2) as [[s3 e3]|] eqn:E3; [|done]. simpl. intros [= <- <- <-].
  by eapply try_commit_index.
Qed.

Lemma message_index s self from dyn now msg s' outs evs :
  blocks_consistent s → index_ok s → handle_message s self from dyn now msg = Some (s', outs, evs) →
  index_ok s' ∨ collision ∨ ambiguous_payload.
Proof.
  intros Hb Hi. destruct msg; simpl in *; try (by intros [= <- <- <-]; left).
  - intros E. left. by eapply handle_cert_index.
  - intros [= <- <- <-]. destruct (handle_block_keeps s dyn b Hb) as [Hk|?]; [left|by right].
    eapply index_ok_keeps; [exact Hk| | |done]; unfold handle_block; by repeat case_match.
  - unfold handle_vote. destruct dyn; [by intros [= <- <- <-]; left|].
    destruct (try_commit _) as [[s1 e1]|] eqn:E; [|done]. simpl. intros [= <- <- <-].
    left. eapply try_commit_index; [exact E|]. by apply (index_ok_keeps s); [apply keeps_same|..].
  - destruct dyn; [by intros [= <- <- <-]; left|]. intros [= E]. left.
    pose proof (fastpath_index s self c) as Ec. rewrite E in Ec. apply fastpath_core in E as [Hc _].
    by eapply index_ok_core.
  - destruct dyn; [by intros [= <- <- <-]; left|]. unfold handle_ltp_attestation.
    repeat case_match; simplify_eq/=; intros [= <- <- <-]; left; by apply (index_ok_keeps s); [apply keeps_same|..].
  - intros [= <- <- <-]. left. destruct dyn; [done|]. case_bool_decide; [|done].
    by apply (index_ok_keeps s); [apply keeps_same|..].
Qed.

(** ** Proposals *)

Lemma build_proposal_hashes s self r ps c b hs s1 :
  build_proposal s self r ps = Some (c, b, hs, s1) → hash_intents (bp_intents b) = Some hs.
Proof.
  unfold build_proposal. destruct (drain_for_block _ _) as [is_ pool].
  destruct (hash_intents is_) as [hashes|] eqn:Eh; [|done]. simpl. destruct (take_envelopes _ _) as [auths s2].
  destruct (Certificate.sign _ _) as [cert|]; [|done]. simpl. by intros [= <- <- <- <-].
Qed.

Lemma record_proposal_index s self c b hs :
  indices (inner (record_proposal s self c b hs)) =
  (<[Certificate.round c := Certificate.hash c]> (blocks_by_round (inner s)),
   index_txs hs (Certificate.round c) (Certificate.hash c) (tx_to_block (inner s))).
Proof.
  unfold record_proposal, record_seen. simpl. repeat case_bool_decide; simpl;
    (destruct (seen_at (inner s) !! _) as [prev|]; simpl; [case_bool_decide|]; simpl; done).
Qed.

Lemma driver_tick_index s self rms el s' outs :
  node_ok s → (self < width 32)%N → index_ok s → driver_tick s self rms el = Some (s', outs) →
  index_ok s' ∨ collision ∨ ambiguous_payload.
Proof.
  intros Hok Hself Hi Ht. pose proof (driver_tick_ok _ _ _ _ _ _ Hok Hself Ht) as [[Hso _]|?]; [|by auto].
  apply driver_tick_inv in Ht as [[-> ->]|(r & ps & c & b & hs & s1 & Eg & Eb & -> & ->)]; [by left|].
  pose proof (build_proposal_hashes _ _ _ _ _ _ _ _ Eb) as Ehs.
  pose proof Hok as [Hst [Ht1 _] Hbc Hn Hr].
  pose proof (DagStore.reachable_wf _ (ok_dag _ Hst)) as Hw.
  pose proof (own_cert_wf _ _ _ _ _ _ _ _ _ _ Hok Hself Eg Eb) as Hwc.
  pose proof (own_cert_admitted _ _ _ _ _ _ _ _ _ _ Hw Eg Eb) as Hadm.
  destruct (build_proposal_spec _ _ _ _ _ _ _ _ Eb) as ((m & g & ->) & _ & _ & _ & _ & _ & Edg & Ecb).
  set (s0 := s <| mempool := m |> <| governance_envelopes := g |>) in *.
  destruct (record_proposal_fields s0 self c b hs) as (_ & _ & _ & _ & Ecm & Ebl & Edag & _).
  pose proof (record_proposal_index s0 self c b hs) as Ei.
  set (s' := record_proposal s0 self c b hs) in *. clearbody s'.
  change (dag s0) with (dag s) in *. change (blocks s0) with (blocks s) in *.
  change (inner s0) with (inner s) in *. change (committed s0) with (committed s) in *. clearbody s0.
  assert (collision ∨ ∃ c', certs (dag s') !! Certificate.hash c = Some c' ∧
    Certificate.round c' = Certificate.round c ∧ Certificate.payload_digest c' = Certificate.payload_digest c) as
    [?|(c' & Hc' & Ero & Epd)]; [|by auto|].
  { destruct Hadm as [[c' Hl]|Hadm].
    - destruct (hash_same_body c' c) as [Ebd|?]; [by eapply Ht1|done|by apply (DagStore.wf_hash _ Hw)| |by left].
      right. exists c'. split; [eapply lookup_weaken; [exact Hl|exact (so_grow _ _ _ Hso)]|].
      unfold Certificate.body in Ebd. by simplify_eq.
    - right. exists c. rewrite Edag, (DagStore.insert_Ok _ _ Hadm). split; [apply lookup_insert_eq|done]. }
  assert (keeps s s' ∨ collision ∨ ambiguous_payload) as [Hk|?]; [|left|by right].
  { eapply keeps_insert; [exact Hbc|exact Ecb|exact (so_grow _ _ _ Hso)|exact Ebl|].
    intros c0 Hl. eapply lookup_weaken in Hl; [|exact (so_grow _ _ _ Hso)]. congruence. }
  apply (index_ok_block s s' (Certificate.hash c) c' b hs ∅); try done; [|by rewrite Ero|set_solver].
  split_and!; [done|by rewrite Ebl, lookup_insert_eq|congruence].
Qed.

Lemma step_index self s evs cs s' :
  node_ok s → (self < width 32)%N → index_ok s → step self s evs cs s' →
  index_ok s' ∨ collision ∨ ambiguous_payload.
Proof.
  intros Hok Hself Hi Hs.
  destruct Hs as [s from dyn now msg s' outs evs Hm E|s peer now msg s' resp keep E|s rms el s' outs E
    |s now s' due need E|s t s' outs evs E].
  - eapply message_index; [apply (no_blocks _ Hok)|done|exact E].
  - apply handle_client_frame in E as (m & g & ->). left. by apply (index_ok_keeps s); [apply keeps_same|..].
  - by eapply driver_tick_index.
  - unfold sweep_tick in E. destruct (foldl _ _ _) as [hist d]. simplify_eq.
    left. by apply (index_ok_keeps s); [apply keeps_same|..].
  - left. unfold propose_fastpath_tx in E. repeat case_bool_decide; simplify_eq; [done|..];
      (refine (index_ok_keeps _ _ _ _ _ Hi); [by apply keeps_same|done|done]).
Qed.

(** The indices of every state a node reaches. *)
Lemma run_index `{HX : Hex} m sk self s0 evs cs s :
  new_state m sk = Some s0 → (self < width 32)%N → run self s0 evs cs s →
  index_ok s ∨ collision ∨ ambiguous_payload.
Proof.
  intros Hnew Hself Hrun. pose proof (new_state_ok m sk s0 Hnew) as (Hok & _).
  induction Hrun as [|evs cs s evs' cs' s' Hrun IH Hstep].
  - left. unfold new_state in Hnew. destruct (genesis_substrate m); [|done]. simpl in Hnew.
    destruct (foldl _ _ _) as [[st ar] vr]. simplify_eq/=.
    split; simpl; [intros x r ch k; by rewrite lookup_empty|intros r ch; by rewrite lookup_empty|set_solver].
  - destruct IH as [Hi|?]; [|by right].
    destruct (run_spec _ _ _ _ _ Hok Hself Hrun) as [[Hs _ _ _ _ _]|?]; [|by auto].
    by eapply step_index.
Qed.
End index.
