(* ===== verification/Rpc.v ===== *)
(** * The JSON-RPC surface and the faucet

    The adapter between the daemon's state and the RPC server
    ([suwappu-node/src/rpc_adapter.rs]), the per-address rate limiter in front of
    it ([suwappu-rpc/src/per_ip.rs]) and the devnet faucet that submits through it
    ([suwappu-faucet/src/lib.rs]).  A call is a function of the node's state; the
    JSON around it is in [RpcMethods] and the event stream in [Indexer]. *)

From Stdlib Require Import Strings.Ascii Strings.String.
From stdpp Require Import pretty.
From S2P Require Import Prelude Crypto Cert Dag Commit Joint Equivocation BridgeHeader Rings FastPath Mempool.
From S2P Require Import ExecTypes Substrate Block Sha3 Ltp RecordSet Governance NodeState Ingest NodeCommit.
From S2P Require Import NodeSafety Inbox Driver Client Node NodeIndex.
Import DagStore(certs).

(** ** The per-address limiter: [per_ip.rs] *)

Abbreviation IpAddr := string (only parsing).
Definition BUCKET_IDLE_TTL_MS : N := 300000.

Module PerIp.
Record PerIpRateLimiter := mk {
  capacity : N;
  refill_per_sec : N;
  buckets : gmap IpAddr LeakyBucket.LeakyBucket;
}.

Definition new (cap refill : N) : PerIpRateLimiter := mk cap refill ∅.

Definition try_acquire (l : PerIpRateLimiter) (ip : IpAddr) (now_ms : N)
    : outcome N unit * PerIpRateLimiter :=
  let b := default (LeakyBucket.new (capacity l) (refill_per_sec l) now_ms) (buckets l !! ip) in
  let '(res, b') := LeakyBucket.take_one b now_ms in
  (res, mk (capacity l) (refill_per_sec l) (<[ip := b']> (buckets l))).

Definition sweep_idle (l : PerIpRateLimiter) (now_ms : N) : PerIpRateLimiter :=
  let cutoff := (now_ms - BUCKET_IDLE_TTL_MS)%N in
  mk (capacity l) (refill_per_sec l)
     (filter (λ e, cutoff ≤ LeakyBucket.last_refill_ms e.2)%N (buckets l)).

Definition bucket_count (l : PerIpRateLimiter) : nat := size (buckets l).

(** The middleware: [true] when the request goes on to the router.  A request
    without a socket address is admitted. *)
Definition middleware (l : PerIpRateLimiter) (ip : option IpAddr) (now_ms : N) : bool * PerIpRateLimiter :=
  match ip with
  | None => (true, l)
  | Some ip => let '(res, l') := try_acquire l ip now_ms in (is_Ok res, l')
  end.

(** A decision concerns the bucket of its own address only. *)
Lemma try_acquire_other l ip now ip' :
  ip' ≠ ip → buckets (try_acquire l ip now).2 !! ip' = buckets l !! ip'.
Proof. intros Hne. unfold try_acquire. destruct (LeakyBucket.take_one _ _). simpl. by rewrite lookup_insert_ne. Qed.
End PerIp.
Abbreviation PerIpRateLimiter := PerIp.PerIpRateLimiter.

(** ** The adapter: [rpc_adapter.rs] *)

(** [hex::encode]. *)
Class HexEncode := hex_encode : bytes → string.
(** [codec::decode] of an intent. *)
Class BincodeDecode := decode_intent : bytes → outcome string Intent.

Record EpochView := mk_epoch_view {
  view_current : N;
  view_last_boundary_round : Round;
  view_rounds_per_epoch : N;
  latest_committed_round : Round;
}.
Record AuthorityMemberView := mk_authority_view { av_id : N; av_stake : N; av_public_key_hex : string }.
Record ValidatorMemberView := mk_validator_view { vv_id : N; vv_stake : string }.

Module IntentView.
Inductive IntentView :=
| Transfer (from to amount : string)
| AdmitAuthority (authority_id : N) (stake_suwappu mldsa_public_key_hex bls_public_key_hex : string)
| ExitAuthority (authority_id : N)
| EjectAuthority (authority_id : N) (proof_ref : string)
| Unknown (kind_hint : string).
End IntentView.

Record BlockView := mk_block_view {
  bv_round : Round;
  bv_cert_hash : string;
  bv_intents : list IntentView.IntentView;
  bv_tx_hashes : list string;
}.
Record TransactionView := mk_tx_view {
  tv_tx_hash : string;
  tv_round : Round;
  tv_cert_hash : string;
  tv_index : nat;
  tv_intent : IntentView.IntentView;
}.
Record HeaderAttestationView := mk_att_view {
  hv_block_number : N;
  hv_state_root : string;
  hv_authority_id : N;
  hv_pubkey : string;
  hv_signature : string;
  hv_network_id : string;
  hv_oracle : string;
}.

Module SubmitIntentError.
Inductive SubmitIntentError :=
| BadIntentEncoding (msg : string)
| UnknownSigner
| BadSignature
| EnqueueFull
| GovernanceRequiresCoSignature.
End SubmitIntentError.
Abbreviation SubmitIntentError := SubmitIntentError.SubmitIntentError.

Record BridgeHeaderSigner := mk_signer {
  bs_authority_id : AuthorityId;
  bs_network_id : bytes;
  bs_oracle : bytes;
  bs_pubkey : mldsa.PublicKey;
  bs_secret_key : mldsa.SecretKey;
}.

(** The first word of the derived [Debug] form: the variant's name. *)
Definition kind_hint (i : Intent) : string :=
  match i with
  | Transfer _ _ _ => "Transfer" | GenesisAllocation _ => "GenesisAllocation"
  | DistributeRewards _ _ _ => "DistributeRewards" | Delegate _ _ _ => "Delegate"
  | MintInflation _ _ _ _ => "MintInflation" | AdmitAuthority _ _ _ _ => "AdmitAuthority"
  | ExitAuthority _ => "ExitAuthority" | EjectAuthority _ _ => "EjectAuthority"
  | AdmitValidator _ _ _ _ => "AdmitValidator" | ExitValidator _ => "ExitValidator"
  | EjectValidator _ _ => "EjectValidator" | CommitL2StateRoot _ _ _ _ _ => "CommitL2StateRoot"
  | SetL2VerifyingKey _ _ _ => "SetL2VerifyingKey" | L1Lock _ _ _ _ => "L1Lock"
  | L2BurnProven _ _ _ _ _ _ => "L2BurnProven" | L2ForceInclude _ _ _ _ => "L2ForceInclude"
  | SlashSequencer _ _ => "SlashSequencer" | MarkForceIncludeHonored _ => "MarkForceIncludeHonored"
  | EjectSequencer _ _ => "EjectSequencer" | DepositSequencerBond _ _ => "DepositSequencerBond"
  | DepositSafetyBond _ _ => "DepositSafetyBond" | DepositAuthorityStake _ _ _ => "DepositAuthorityStake"
  | DepositValidatorStake _ _ _ => "DepositValidatorStake"
  | WithdrawAuthorityStake _ _ _ => "WithdrawAuthorityStake"
  | WithdrawValidatorStake _ _ _ => "WithdrawValidatorStake" | DisburseTreasury _ _ _ => "DisburseTreasury"
  | ClaimInsurance _ _ _ => "ClaimInsurance" | PostL2DA _ _ => "PostL2DA"
  | DistributeSlashedFunds _ _ _ _ => "DistributeSlashedFunds" | AddBridgeAsset _ _ _ _ _ => "AddBridgeAsset"
  | PauseBridgeAsset _ => "PauseBridgeAsset" | RemoveBridgeAsset _ => "RemoveBridgeAsset"
  end.

Section adapter.
Context `{HB : Blake3, HM : MlDsa65, HN : Bincode, HE : HexEncode, HD : BincodeDecode}.

Definition hex0x (b : bytes) : string := "0x" +:+ hex_encode b.

Definition intent_to_view (i : Intent) : IntentView.IntentView :=
  match i with
  | Transfer from to amount => IntentView.Transfer (hex0x from) (hex0x to) (pretty amount)
  | AdmitAuthority a stake mldsa bls => IntentView.AdmitAuthority a (pretty stake) (hex_encode mldsa) (hex_encode bls)
  | ExitAuthority a => IntentView.ExitAuthority a
  | EjectAuthority a proof_ref => IntentView.EjectAuthority a (hex0x proof_ref)
  | other => IntentView.Unknown (kind_hint other)
  end.

Definition epoch_snapshot (s : State) : EpochView :=
  let i := inner s in
  mk_epoch_view (current (epoch i)) (last_boundary_round (epoch i)) (rounds_per_epoch (epoch i))
    (default 0%N (last (btree_keys (blocks_by_round i)))).

Definition authority_snapshot (s : State) : list AuthorityMemberView :=
  (λ m, mk_authority_view (AuthorityRing.id m) (AuthorityRing.stake_suwappu m) (hex_encode (AuthorityRing.public_key_bytes m)))
    <$> AuthorityRing.members_iter (authority_registry s).

Definition validator_snapshot (s : State) : list ValidatorMemberView :=
  (λ m, mk_validator_view (ValidatorRing.id m) (pretty (ValidatorRing.stake_suwappu m)))
    <$> ValidatorRing.members_iter (validator_registry s).

Definition stake_for (s : State) (a : AuthorityId) : option N :=
  AuthorityRing.stake_suwappu <$> AuthorityRing.get (authority_registry s) a.

Definition balance_for (s : State) (a : Address) : Balance := balance (substrate (inner s)) a.

(** The outer [None] is the panic of [expect] on an intent that does not encode. *)
Definition block_at_round (s : State) (round : Round) : option (option BlockView) :=
  match blocks_by_round (inner s) !! round with
  | None => Some None
  | Some cert_hash =>
      match blocks s !! cert_hash with
      | None => Some None
      | Some b =>
          hashes ← hash_intents (bp_intents b);
          Some (Some (mk_block_view round (hex0x cert_hash) (intent_to_view <$> bp_intents b) (hex0x <$> hashes)))
      end
  end.

Definition transaction_by_hash (s : State) (tx_hash : bytes) : option TransactionView :=
  '(round, cert_hash, index) ← tx_to_block (inner s) !! tx_hash;
  b ← blocks s !! cert_hash;
  i ← bp_intents b !! index;
  Some (mk_tx_view (hex0x tx_hash) round (hex0x cert_hash) index (intent_to_view i)).

Definition submit_intent (s : State) (intent_bincode signature h : bytes) (now_ms : N)
    : option (outcome SubmitIntentError bytes * State) :=
  match decode_intent intent_bincode with
  | Panic => None
  | Err e => Some (Err (SubmitIntentError.BadIntentEncoding e), s)
  | Ok i =>
      auth ← verify_signed_intent (authority_registry s) (manifest_network_id s) i signature h;
      match auth with
      | UnknownSigner => Some (Err SubmitIntentError.UnknownSigner, s)
      | BadSignature => Some (Err SubmitIntentError.BadSignature, s)
      | GovernanceRequiresCoSignature => Some (Err SubmitIntentError.GovernanceRequiresCoSignature, s)
      | Authorized =>
          match submit encode_intent (mempool s) i 0 None now_ms with
          | (Ok _, m) => Some (Ok (blake3 intent_bincode), s <| mempool := m |>)
          | (Err _, m) => Some (Err SubmitIntentError.EnqueueFull, s <| mempool := m |>)
          | (Panic, _) => None
          end
      end
  end.

(** The attestation endpoint with its cache; the outer [None] is the panic of
    signing with a malformed key. *)
Definition attestation_to_view (a : HeaderAttestation) (signer : BridgeHeaderSigner) : HeaderAttestationView :=
  mk_att_view (HeaderAttestation.block_number a) (hex0x (HeaderAttestation.state_root a))
    (HeaderAttestation.authority_id a) (hex0x (HeaderAttestation.pubkey a))
    (hex0x (HeaderAttestation.signature a)) (hex0x (bs_network_id signer)) (hex0x (bs_oracle signer)).

Definition header_attestation (s : State) (signer : option BridgeHeaderSigner) (cache : option HeaderAttestation)
    : option (option HeaderAttestationView * option HeaderAttestation) :=
  match signer, latest_bridge_header (inner s) with
  | Some sg, Some (block_number, state_root) =>
      match cache with
      | Some att =>
          if bool_decide (HeaderAttestation.block_number att = block_number ∧
                          HeaderAttestation.state_root att = state_root)
          then Some (Some (attestation_to_view att sg), cache)
          else
            att' ← create (bs_network_id sg) (bs_oracle sg) block_number state_root (bs_authority_id sg)
                     (bs_pubkey sg) (bs_secret_key sg);
            Some (Some (attestation_to_view att' sg), Some att')
      | None =>
          att' ← create (bs_network_id sg) (bs_oracle sg) block_number state_root (bs_authority_id sg)
                   (bs_pubkey sg) (bs_secret_key sg);
          Some (Some (attestation_to_view att' sg), Some att')
      end
  | _, _ => Some (None, cache)
  end.

(** *** Reads *)

(** What a transaction view shows: the intent with that hash, at its place in the
    block of a stored certificate that signs the block. *)
Definition shows (s : State) (x : bytes) (v : TransactionView) : Prop :=
  ∃ ch c b i, held s ch c b ∧ bp_intents b !! tv_index v = Some i ∧ intent_hash i = Some x ∧
    v = mk_tx_view (hex0x x) (Certificate.round c) (hex0x ch) (tv_index v) (intent_to_view i).

Lemma transaction_shows s x v : index_ok s → transaction_by_hash s x = Some v → shows s x v.
Proof.
  intros [H1 _ _]. unfold transaction_by_hash. destruct (tx_to_block (inner s) !! x) as [[[r ch] k]|] eqn:E; [|done].
  destruct (H1 x r ch k E) as (c & b & i & Hh & <- & Hi & Hx). destruct (Hh) as (_ & Hb & _).
  simpl. rewrite Hb. simpl. rewrite Hi. simpl. intros [= <-]. by exists ch, c, b, i.
Qed.

Lemma indexed_found s x : index_ok s → is_Some (tx_to_block (inner s) !! x) → is_Some (transaction_by_hash s x).
Proof.
  intros [H1 _ _] [[[r ch] k] E]. destruct (H1 x r ch k E) as (c & b & i & (_ & Hb & _) & _ & Hi & _).
  unfold transaction_by_hash. rewrite E. simpl. rewrite Hb. simpl. rewrite Hi. by eexists.
Qed.

Lemma block_at_round_spec s r :
  index_ok s →
  (block_at_round s r = Some None ∧ blocks_by_round (inner s) !! r = None) ∨
  ∃ ch c b hs, blocks_by_round (inner s) !! r = Some ch ∧ held s ch c b ∧ Certificate.round c = r ∧
    hash_intents (bp_intents b) = Some hs ∧
    block_at_round s r = Some (Some (mk_block_view r (hex0x ch) (intent_to_view <$> bp_intents b) (hex0x <$> hs))).
Proof.
  intros [_ H2 _]. unfold block_at_round. destruct (blocks_by_round (inner s) !! r) as [ch|] eqn:E; [right|by left].
  destruct (H2 r ch E) as (c & b & (Hc & Hb & Hd) & Hr & [hs Hhs]). exists ch, c, b, hs.
  rewrite Hb, Hhs. by split_and!.
Qed.

(** *** Submissions *)

Lemma set_mempool_same (s : State) : s <| mempool := mempool s |> = s.
Proof. by destruct s. Qed.

(** Without a peer label a refused submission leaves the pool as it was, and an
    accepted one queues the intent. *)
Lemma submit_unlabelled (m : NodeMempool) i p now res m' :
  submit encode_intent m i p None now = (res, m') →
  match res with
  | Ok x => ∃ b, encode_intent i = Ok b ∧ x = blake3 b ∧
              ∃ k e, queue m' !! k = Some e ∧ intent e = i
  | Err _ => m' = m
  | Panic => encode_intent i = Panic
  end.
Proof.
  unfold submit. destruct (encode_intent i) as [b|?|]; [|by intros [= <- <-]..]. cbn [rate_limit].
  case_bool_decide; [by intros [= <- <-]|].
  destruct (make_room_cases m p) as [[_ ->]|[(_ & _ & [[_ ->]|[_ ->]])|(_ & k & _ & _ & [[_ ->]|[_ ->]])]];
    intros [= <- <-]; try done; (exists b; split_and!; [done|done|]; eexists _, (mk_entry i now); simpl;
      split; [apply lookup_insert_eq|done]).
Qed.

(** Submission over JSON-RPC.  An accepted submission decodes to an ordinary
    intent a seated authority signed, which is queued, and nothing else is; a
    refused one leaves the node unchanged.  The answered hash is that of the
    submitted bytes: it is the hash the intent is indexed under exactly if the
    bytes are the canonical encoding, unless BLAKE3 collides. *)
Theorem rpc_submit_spec s raw sig h now res s' :
  submit_intent s raw sig h now = Some (res, s') →
  match res with
  | Ok x => ∃ i b, decode_intent raw = Ok i ∧ is_governance_intent i = false ∧ authorised s i ∧
      admits [i] s s' ∧ (∃ k e, queue (mempool s') !! k = Some e ∧ intent e = i) ∧
      encode_intent i = Ok b ∧ x = blake3 raw ∧ (intent_hash i = Some x ↔ raw = b) ∨ collision
  | Err _ => s' = s
  | Panic => False
  end.
Proof.
  unfold submit_intent. destruct (decode_intent raw) as [i|e|] eqn:Ed; [|by intros [= <- <-]|done].
  destruct (verify_signed_intent _ _ _ _ _) as [auth|] eqn:Ev; [|done]. simpl.
  destruct auth; [|by intros [= <- <-]..].
  destruct (submit _ _ _ _ _ _) as [r m] eqn:Es. pose proof (submit_unlabelled _ _ _ _ _ _ Es) as Hu.
  destruct r as [x|e|]; [| |done]; intros [= <- <-]; [|by rewrite Hu, set_mempool_same].
  destruct Hu as (b & Eb & -> & Hq). exists i, b.
  assert (is_governance_intent i = false) as Eg.
  { unfold verify_signed_intent in Ev. by destruct (is_governance_intent i). }
  assert (intent_hash i = Some (blake3 b)) as Eh by (unfold intent_hash; by rewrite Eb).
  destruct (decide (blake3 b = blake3 raw)) as [E|Hne]; [destruct (blake3_eq_or _ _ E) as [<-|?]; [|by right]|];
    left; (split_and!; [done|done|by eapply verify_signed_authorised| |done|done|done|]).
  1,3: intros k e Hk; destruct (pool_submit_queue _ _ _ _ _ _ _ _ _ Es Hk) as [?|[-> _]]; [by left|right; by left].
  - by rewrite Eh.
  - rewrite Eh. split; [by intros [= ?]|]. by intros ->.
Qed.
End adapter.

Section reads.
Context `{HB : Blake3, HM : MlDsa65, HN : Bincode, HS : Sha3, HL : Blst, HE : HexEncode, HX : Hex}.


(** A proposal is indexed when it is authored: the round of a certificate that
    nobody has committed yet is answered with its block, and counts towards the
    latest committed round of the epoch view. *)
Theorem proposals_read_as_committed s self rms el s' b c :
  driver_tick s self rms el = Some (s', [Broadcast (WBlock b); Broadcast (WCert c)]) →
  committed s' = committed s ∧ blocks_by_round (inner s') !! Certificate.round c = Some (Certificate.hash c) ∧
  (Certificate.round c ≤ latest_committed_round (epoch_snapshot s'))%N.
Proof.
  intros [[_ ?]|(r & ps & c' & b' & hs & s1 & _ & Eb & -> & [= <- <-])]%driver_tick_inv; [done|].
  destruct (record_proposal_fields s1 self c b hs) as (_ & _ & _ & _ & Ecm & _).
  pose proof (record_proposal_index s1 self c b hs) as Ei.
  set (s2 := record_proposal s1 self c b hs) in *. clearbody s2. unfold indices in Ei. injection Ei as Er _.
  assert (blocks_by_round (inner s2) !! Certificate.round c = Some (Certificate.hash c)) as Hl
    by (rewrite Er; apply lookup_insert_eq).
  apply build_proposal_spec in Eb as ((m & g & ->) & _).
  split_and!; [done|done|]. unfold epoch_snapshot. cbn [latest_committed_round].
  set (M := blocks_by_round _) in *. clearbody M.
  destruct (last (btree_keys M)) as [k|] eqn:E.
  - simpl. apply btree_keys_last in E as [_ Hmax]. apply Hmax. by eexists.
  - apply btree_keys_last_None in E. by rewrite E, lookup_empty in Hl.
Qed.
End reads.


(** ** The faucet: [suwappu-faucet/src/lib.rs] *)

(** What the faucet uses of the SDK's client, and its errors. *)
Inductive ClientError := Transport (msg : string) | RpcFailure (e : SubmitIntentError) | Deserialize (msg : string).
Record SdkClient := mk_client {
  get_balance : Address → outcome ClientError string;
  submit_intent_raw : bytes → bytes → bytes → outcome ClientError bytes;
}.

Inductive FaucetError :=
| InvalidAddress (a : string)
| FaucetRateLimited (retry_after_ms : N)
| FaucetEmpty
| FaucetSign (msg : string)
| FaucetEncode (msg : string)
| FaucetRpc (e : ClientError).

Record DripAck := mk_ack { ack_tx_hash : bytes; ack_amount : Balance }.

Record Faucet := mk_faucet {
  secret_key : mldsa.SecretKey;
  public_key : mldsa.PublicKey;
  f_signer_pubkey_hash : bytes;
  faucet_address : Address;
  f_network_id : bytes;
  drip_amount : Balance;
  f_buckets : gmap IpAddr LeakyBucket.LeakyBucket;
  f_capacity : N;
  f_refill_per_sec : N;
}.

(** [str::parse::<u128>]: an optional plus sign and at least one digit, checked. *)
Definition digit_value (c : Ascii.ascii) : option N :=
  let n := Ascii.N_of_ascii c in if bool_decide (48 ≤ n ≤ 57)%N then Some (n - 48)%N else None.

Fixpoint parse_digits (acc : N) (s : string) : option N :=
  match s with
  | EmptyString => Some acc
  | String c rest =>
      d ← digit_value c;
      acc' ← checked_mul 128 acc 10;
      acc'' ← checked_add 128 acc' d;
      parse_digits acc'' rest
  end.

Definition parse_u128 (s : string) : option N :=
  match s with
  | EmptyString => None
  | String "+"%char EmptyString => None
  | String "+"%char rest => parse_digits 0 rest
  | _ => parse_digits 0 s
  end.

Section faucet.
Context `{HB : Blake3, HM : MlDsa65, HN : Bincode}.

Definition FAUCET_INTENT_DOMAIN_TAG : bytes := tag "SUWAPPU_INTENT_V1".

Definition faucet_signing_digest (network_id : bytes) (i : Intent) : outcome FaucetError bytes :=
  match encode_intent i with
  | Ok intent_bytes => Ok (blake3 (FAUCET_INTENT_DOMAIN_TAG ++ network_id ++ intent_bytes))
  | Err e => Err (FaucetEncode e)
  | Panic => Panic
  end.

Definition address_from_pubkey (pk : mldsa.PublicKey) : Address := take 20 (blake3 (mldsa.pk_bytes pk)).

Definition faucet_new (sk : mldsa.SecretKey) (pk : mldsa.PublicKey) (addr : Address) (network : bytes)
    (amount : Balance) (cap refill : N) : Faucet :=
  mk_faucet sk pk (blake3 (mldsa.pk_bytes pk)) addr network amount ∅ cap refill.

(** The submission a drip makes: the encoded transfer and its signature. *)
Definition drip_request (f : Faucet) (address : Address) : outcome FaucetError (bytes * bytes) :=
  let i := Transfer (faucet_address f) address (drip_amount f) in
  let! digest := faucet_signing_digest (f_network_id f) i in
  match mldsa.sign digest (secret_key f) with
  | Ok sig =>
      match encode_intent i with
      | Ok b => Ok (b, mldsa.sig_bytes sig)
      | Err e => Err (FaucetEncode e)
      | Panic => Panic
      end
  | Err _ => Err (FaucetSign "sign")
  | Panic => Panic
  end.

Definition take_token (f : Faucet) (ip : IpAddr) (now_ms : N) : outcome N unit * Faucet :=
  let b := default (LeakyBucket.new (f_capacity f) (f_refill_per_sec f) now_ms) (f_buckets f !! ip) in
  let '(res, b') := LeakyBucket.take_one b now_ms in
  (res, mk_faucet (secret_key f) (public_key f) (f_signer_pubkey_hash f) (faucet_address f) (f_network_id f)
          (drip_amount f) (<[ip := b']> (f_buckets f)) (f_capacity f) (f_refill_per_sec f)).

Definition drip (f : Faucet) (cl : SdkClient) (ip : IpAddr) (address : Address) (now_ms : N)
    : outcome FaucetError DripAck * Faucet :=
  let '(res, f') := take_token f ip now_ms in
  match res with
  | Err retry => (Err (FaucetRateLimited retry), f')
  | Panic => (Panic, f')
  | Ok _ =>
      (let! bal := match get_balance cl (faucet_address f) with
                   | Ok s => ok_or (parse_u128 s) (FaucetRpc (Deserialize "balance"))
                   | Err e => Err (FaucetRpc e)
                   | Panic => Panic
                   end in
       if bool_decide (bal < drip_amount f)%N then Err FaucetEmpty
       else
         let! req := drip_request f address in
         match submit_intent_raw cl req.1 req.2 (f_signer_pubkey_hash f) with
         | Ok h => Ok (mk_ack h (drip_amount f))
         | Err e => Err (FaucetRpc e)
         | Panic => Panic
         end, f')
  end.

Definition is_alive (f : Faucet) (cl : SdkClient) : bool :=
  match get_balance cl (faucet_address f) with
  | Ok s => match parse_u128 s with Some b => bool_decide (drip_amount f ≤ b)%N | None => false end
  | _ => false
  end.

(** *** The two sides of the wire *)

(** The faucet signs the digest the node verifies. *)
Lemma faucet_digest_matches network i :
  intent_signing_digest network i = expect (faucet_signing_digest network i).
Proof. unfold intent_signing_digest, faucet_signing_digest. by destruct (encode_intent i). Qed.
End faucet.

Lemma digit_value_pretty d : (d < 10)%N → digit_value (pretty_N_char d) = Some d.
Proof.
  intros Hd. assert (d = 0 ∨ d = 1 ∨ d = 2 ∨ d = 3 ∨ d = 4 ∨ d = 5 ∨ d = 6 ∨ d = 7 ∨ d = 8 ∨ d = 9)%N as H by lia.
  by repeat destruct H as [->|H]; [..|subst].
Qed.

Lemma parse_digits_go x s : (x < width 128)%N → parse_digits 0 (pretty_N_go x s) = parse_digits x s.
Proof.
  revert s. induction (N.lt_wf_0 x) as [x _ IH]; intros s Hx. destruct (decide (x = 0%N)) as [->|Hx0]; [done|].
  destruct (div_mod_N x 10) as (q & r & Eq & Er & Ex & Hr); [lia|].
  rewrite pretty_N_go_step, Eq, Er by lia. rewrite IH by lia. cbn [parse_digits]. rewrite digit_value_pretty by done. simpl.
  unfold checked_mul, checked_add. rewrite bool_decide_true by lia. simpl. rewrite bool_decide_true by lia. simpl.
  f_equal. lia.
Qed.

(** Printing a balance and parsing it back. *)
Lemma parse_pretty n : (n < width 128)%N → parse_u128 (pretty n) = Some n.
Proof.
  intros Hn. unfold pretty, pretty_N. case_decide as H0; [by subst|].
  pose proof (parse_digits_go n "" Hn) as E. cbn [parse_digits] in E. rewrite <-E.
  destruct (pretty_N_go n "") as [|c rest] eqn:Ep; [by simplify_eq/=|].
  unfold parse_u128. destruct (decide (c = "+"%char)) as [->|Hc]; [done|].
  clear -Hc. destruct c as [[] [] [] [] [] [] [] []]; done.
Qed.

Section drips.
Context `{HB : Blake3, HM : MlDsa65, HN : Bincode, HD : BincodeDecode}.

(** The SDK client of a node: what the RPC server answers in state [s]. *)
Definition node_client (s : State) (now_ms : N) : SdkClient := {|
  get_balance a := Ok (pretty (balance_for s a));
  submit_intent_raw raw sig h :=
    match submit_intent s raw sig h now_ms with
    | Some (Ok x, _) => Ok x
    | Some (Err e, _) => Err (RpcFailure e)
    | _ => Panic
    end;
|}.

Lemma take_token_frame f ip now res f' :
  take_token f ip now = (res, f') →
  res ≠ Panic ∧ ∃ b, f' = mk_faucet (secret_key f) (public_key f) (f_signer_pubkey_hash f) (faucet_address f)
    (f_network_id f) (drip_amount f) (<[ip := b]> (f_buckets f)) (f_capacity f) (f_refill_per_sec f).
Proof.
  unfold take_token. pose proof (take_one_no_panic (B := LeakyBucket.LeakyBucket)
    (default (LeakyBucket.new (f_capacity f) (f_refill_per_sec f) now) (f_buckets f !! ip)) now) as Hp. simpl in Hp.
  destruct (LeakyBucket.take_one _ _) as [r b]. intros [= <- <-]. split; [done|by eexists].
Qed.

(** The request of a faucet whose key is seated passes the node's gate. *)
Lemma drip_request_accepted f s pk sk address b :
  mldsa65_keypair_ok pk sk → secret_key f = mldsa.mk_sk sk →
  f_network_id f = manifest_network_id s → find_signer (authority_registry s) (blake3 pk) = Some pk →
  encode_intent (Transfer (faucet_address f) address (drip_amount f)) = Ok b →
  ∃ sig, drip_request f address = Ok (b, sig) ∧
    verify_signed_intent (authority_registry s) (manifest_network_id s)
      (Transfer (faucet_address f) address (drip_amount f)) sig (blake3 pk) = Some Authorized.
Proof.
  intros Hk Esk Enet Hf Eb. unfold drip_request, faucet_signing_digest. rewrite Eb. cbn [obind].
  destruct (mldsa.sign_verify (blake3 (FAUCET_INTENT_DOMAIN_TAG ++ f_network_id f ++ b)) pk sk Hk)
    as (sig & Es & Ep & _ & Epk & Ev).
  rewrite Esk, Es. eexists. split; [done|]. unfold verify_signed_intent. cbn [is_governance_intent]. apply verify_single_Authorized.
  exists pk. split; [done|]. unfold signs, intent_signing_digest. rewrite Eb. eexists.
  split; [done|]. destruct sig as [sigb]. rewrite <-Enet. by split_and!.
Qed.

(** C30. A drip from request to mempool.  For a faucet whose key is seated in the
    node's Authority Ring and whose transfers encode and decode: a drip charges
    the requester's token bucket and no other; with no token it is refused with
    the delay, with too little balance as empty; otherwise the node authorises
    the signed transfer, and the drip succeeds, naming the canonical hash, exactly
    if the mempool takes the intent, after which the transfer is queued and
    nothing else is. *)
Theorem faucet_drip_spec f s pk sk ip address now b res f' :
  mldsa65_keypair_ok pk sk → secret_key f = mldsa.mk_sk sk → f_signer_pubkey_hash f = blake3 pk →
  f_network_id f = manifest_network_id s → find_signer (authority_registry s) (blake3 pk) = Some pk →
  encode_intent (Transfer (faucet_address f) address (drip_amount f)) = Ok b →
  decode_intent b = Ok (Transfer (faucet_address f) address (drip_amount f)) →
  (balance_for s (faucet_address f) < width 128)%N →
  drip f (node_client s now) ip address now = (res, f') →
  let i := Transfer (faucet_address f) address (drip_amount f) in
  let pool := (submit encode_intent (mempool s) i 0 None now).1 in
  (∀ ip', ip' ≠ ip → f_buckets f' !! ip' = f_buckets f !! ip') ∧
  match (take_token f ip now).1 with
  | Err retry => res = Err (FaucetRateLimited retry)
  | Panic => False
  | Ok _ =>
      if decide (balance_for s (faucet_address f) < drip_amount f)%N then res = Err FaucetEmpty
      else (res = Ok (mk_ack (blake3 b) (drip_amount f)) ∧ pool = Ok (blake3 b) ∧
            ∃ sig s', submit_intent s b sig (blake3 pk) now = Some (Ok (blake3 b), s') ∧ admits [i] s s' ∧
              ∃ k e, queue (mempool s') !! k = Some e ∧ intent e = i) ∨
           (res = Err (FaucetRpc (RpcFailure SubmitIntentError.EnqueueFull)) ∧ ∃ e, pool = Err e)
  end.
Proof.
  intros Hk Esk Ehash Enet Hf Eb Ed Hbal E i pool. unfold drip in E.
  destruct (take_token f ip now) as [t f1] eqn:Et. pose proof (take_token_frame _ _ _ _ _ Et) as [Hnp [bk Ef]].
  assert (f' = f1) as -> by (destruct t; by injection E).
  split; [intros ip' Hne; rewrite Ef; simpl; by rewrite lookup_insert_ne|]. simpl.
  destruct t as [[]|retry|]; [|by injection E as <-|done].
  simpl in E. rewrite parse_pretty in E by done. simpl in E.
  case_decide as Hb; [rewrite bool_decide_true in E by done; by injection E as <-|].
  rewrite bool_decide_false in E by done.
  destruct (drip_request_accepted f s pk sk address b Hk Esk Enet Hf Eb) as (sig & Er & Ev).
  fold i in Er, Ev, Ed, Eb. rewrite Er in E. simpl in E. rewrite Ehash in E.
  assert (∀ r m, submit encode_intent (mempool s) i 0 None now = (r, m) →
    submit_intent s b sig (blake3 pk) now =
      match r with
      | Ok _ => Some (Ok (blake3 b), s <| mempool := m |>)
      | Err _ => Some (Err SubmitIntentError.EnqueueFull, s <| mempool := m |>)
      | Panic => None
      end) as Hsub.
  { intros r m Es. unfold submit_intent. rewrite Ed, Ev. simpl. rewrite Es. by destruct r. }
  destruct (submit encode_intent (mempool s) i 0 None now) as [r m] eqn:Es. specialize (Hsub r m eq_refl).
  pose proof (submit_unlabelled _ _ _ _ _ _ Es) as Hu. unfold pool. simpl.
  destruct r as [x|e|]; [|right|congruence]; rewrite Hsub in E; injection E as <-; [left|by eauto].
  destruct Hu as (b' & Eb' & -> & Hq). rewrite Eb in Eb'. injection Eb' as <-.
  split_and!; [done|done|]. exists sig, (s <| mempool := m |>). split_and!; [done| |done].
  intros k e Hkq. destruct (pool_submit_queue _ _ _ _ _ _ _ _ _ Es Hkq) as [?|[-> _]]; [by left|right; by left].
Qed.
End drips.
