(* ===== verification/Indexer.v ===== *)
(** * The event stream and the block indexer

    The structured events a daemon emits ([suwappu-node/src/events.rs]) and their
    projection for subscribers ([rpc_adapter.rs]), and the indexer that follows
    them ([suwappu-indexer]): the store, the live subscriber, the start-up
    backfill over JSON-RPC and the read API.  Sockets, the JSON parser and SQL are
    left out; the parsers are parameters, and the backfill is proved against the
    interface of the store trait, which the in-memory store implements. *)

From Stdlib Require Import Strings.String.
From S2P Require Import Prelude Crypto Cert Dag Commit Joint Equivocation Rings FastPath Mempool.
From S2P Require Import ExecTypes Substrate Block Sha3 Ltp RecordSet Governance NodeState Ingest NodeCommit.
From S2P Require Import NodeSafety Inbox Driver Client Node NodeIndex Rpc.

(** ** Events: [events.rs] *)

Module Events.
Inductive Lane := Main | FastPath | Ltp | Client.

(** [NodeCommit.Event] is what the daemon reports; this is the log line. *)
Record Event := mk {
  t_ms : N;
  region : string;
  lane : Lane;
  event : string;
  round : option N;
  cert_hash : option string;
  tx_hash : option string;
  peer : option string;
  intent_hashes : option (list string);
  received_60s : option N;
  authority_id : option N;
  kind : option string;
}.
#[global] Instance event_eta : Eta Event := λ e,
  mk (t_ms e) (region e) (lane e) (event e) (round e) (cert_hash e) (tx_hash e) (peer e) (intent_hashes e)
     (received_60s e) (authority_id e) (kind e).
#[global] Instance set_round : Setter round := ltac:(derive_setter).
#[global] Instance set_cert_hash : Setter cert_hash := ltac:(derive_setter).
#[global] Instance set_peer : Setter peer := ltac:(derive_setter).
#[global] Instance set_intent_hashes : Setter intent_hashes := ltac:(derive_setter).
#[global] Instance set_authority_id : Setter authority_id := ltac:(derive_setter).

(** [Event::now] at clock [t]. *)
Definition now (t : N) (r : string) (l : Lane) (verb : string) : Event :=
  mk t r l verb None None None None None None None None.
Definition with_round (n : N) (e : Event) : Event := e <| round := Some n |>.
Definition with_peer (p : string) (e : Event) : Event := e <| peer := Some p |>.
Definition with_intent_hashes (l : list string) (e : Event) : Event := e <| intent_hashes := Some l |>.
Definition with_authority_id (a : N) (e : Event) : Event := e <| authority_id := Some a |>.

(** The subscriber's projection. *)
Record EventView := mk_view {
  v_t_ms : N;
  v_region : string;
  v_lane : string;
  v_event : string;
  v_round : option N;
  v_cert_hash : option string;
  v_tx_hash : option string;
  v_peer : option string;
  v_intent_hashes : option (list string);
  v_authority_id : option N;
  v_kind : option string;
  v_received_60s : option N;
}.

Definition lane_name (l : Lane) : string :=
  match l with Main => "main" | FastPath => "fastpath" | Ltp => "ltp" | Client => "client" end.

Definition event_to_view (e : Event) : EventView :=
  mk_view (t_ms e) (region e) (lane_name (lane e)) (event e) (round e) (cert_hash e) (tx_hash e) (peer e)
    (intent_hashes e) (authority_id e) (kind e) (received_60s e).

Section emit.
Context `{HE : HexEncode}.

Definition with_cert_hash (h : bytes) (e : Event) : Event := e <| cert_hash := Some (hex_encode h) |>.

Definition fastpath_verb (k : FastPathEvent) : string :=
  match k with
  | FpProposed => "proposed" | FpSlashed => "slashed" | FpReceived => "received" | FpSigned => "signed"
  | FpCommitted => "committed"
  end.
Definition ltp_verb (k : LtpEvent) : string :=
  match k with LtpVerified => "verified" | LtpInvalid => "invalid" | LtpUnverified => "unverified" end.

(** The log line of each report of the daemon. *)
Definition log_line (label : string) (t : N) (ev : NodeCommit.Event) : Event :=
  let main := now t label Main in
  match ev with
  | EvReceived r h p => with_peer p (with_cert_hash h (with_round r (main "received")))
  | EvVoted r h => with_cert_hash h (with_round r (main "voted"))
  | EvFastPath k d r => with_round r (with_cert_hash d (now t label FastPath (fastpath_verb k)))
  | EvLtp k height root => with_cert_hash root (with_round height (now t label Ltp (ltp_verb k)))
  | EvCommitted r h hs =>
      with_intent_hashes (hex_encode <$> hs) (with_cert_hash h (with_round r (main "committed")))
  | EvEpochBoundary r => with_round r (main "epoch_boundary")
  | EvGovernanceRejected r => with_round r (main "governance_rejected")
  | EvAuthorityAdmitted r a => with_authority_id a (with_round r (main "authority_admitted"))
  | EvAuthorityExited r a => with_authority_id a (with_round r (main "authority_exited"))
  | EvAuthorityEjected r a =>
      with_authority_id a (match r with Some r => with_round r | None => id end (main "authority_ejected"))
  | EvSlashingEvidence a => with_authority_id a (main "slashing_evidence")
  end.
End emit.
End Events.
Import Events(EventView).

(** ** The indexer *)

Module Indexer.

Record IndexedBlock := mk_block {
  ib_round : Round;
  indexed_at_ms : N;
  ib_cert_hash : string;
  ib_tx_hashes : list string;
}.

(** The store trait.  A [None] of [get_blocks] is a panic. *)
Class Store (T : Type) := {
  ingest_committed_block : IndexedBlock → T → T;
  latest_round : T → option Round;
  get_block : T → Round → option IndexedBlock;
  get_blocks : T → Round → Round → option (list IndexedBlock);
}.

(** What the trait's documentation promises: the first block of a round wins, and
    the latest round is the highest one held. *)
Class StoreLaws (T : Type) `{Store T} := {
  get_ingest b s r :
    get_block (ingest_committed_block b s) r =
      match get_block s r with
      | Some x => Some x
      | None => if decide (r = ib_round b) then Some b else None
      end;
  latest_None (s : T) r : latest_round s = None → get_block s r = None;
  latest_Some (s : T) k : latest_round s = Some k → is_Some (get_block s k);
  latest_max (s : T) k r : latest_round s = Some k → is_Some (get_block s r) → (r ≤ k)%N;
}.

(** *** The in-memory store: [store.rs] *)

Record InMemoryStore := mk_store { stored : gmap N IndexedBlock; tx_index : gmap string Round }.
Definition empty_store : InMemoryStore := mk_store ∅ ∅.

Definition mem_ingest (b : IndexedBlock) (s : InMemoryStore) : InMemoryStore :=
  if bool_decide (is_Some (stored s !! ib_round b)) then s
  else mk_store (<[ib_round b := b]> (stored s))
         (foldl (λ m tx, <[tx := ib_round b]> m) (tx_index s) (ib_tx_hashes b)).

Definition mem_latest_round (s : InMemoryStore) : option Round := last (btree_keys (stored s)).
Definition mem_get_block (s : InMemoryStore) (r : Round) : option IndexedBlock := stored s !! r.

(** [BTreeMap::range] panics on a range that starts after it ends. *)
Definition mem_get_blocks (s : InMemoryStore) (from to : Round) : option (list IndexedBlock) :=
  if bool_decide (to < from)%N then None
  else Some (snd <$> take 1024 (filter (λ e, from ≤ e.1 ∧ e.1 ≤ to)%N (btree_entries (stored s)))).

#[global] Instance mem_store : Store InMemoryStore := {|
  ingest_committed_block := mem_ingest;
  latest_round := mem_latest_round;
  get_block := mem_get_block;
  get_blocks := mem_get_blocks;
|}.

(** *** The live subscriber: [subscriber.rs] *)

Definition block_from_committed_event (ev : EventView) (now_ms : N) : option IndexedBlock :=
  if bool_decide (Events.v_event ev ≠ "committed"%string ∨ Events.v_lane ev ≠ "main"%string) then None
  else
    round ← Events.v_round ev;
    cert_hash ← Events.v_cert_hash ev;
    Some (mk_block round now_ms cert_hash (default [] (Events.v_intent_hashes ev))).

(** [serde_json::from_str] at the two types the subscriber parses. *)
Record LaggedNotice := mk_notice { error : string; skipped : N }.
Class FrameParser := {
  parse_lagged : string → option LaggedNotice;
  parse_event : string → option EventView;
}.

Section live.
Context {T : Type} `{HP : FrameParser, HS : Store T}.

(** The part of [handle_frame] after parsing. *)
Definition index_event (ev : EventView) (now_ms : N) (s : T) : T :=
  match block_from_committed_event ev now_ms with
  | Some b => ingest_committed_block b s
  | None => s
  end.

Definition handle_frame (line : string) (now_ms : N) (s : T) : T :=
  let is_lagged := match parse_lagged line with
                   | Some notice => bool_decide (error notice = "lagged"%string)
                   | None => false
                   end in
  if is_lagged then s
  else match parse_event line with
       | None => s
       | Some ev => index_event ev now_ms s
       end.
End live.

(** *** The backfill: [backfill.rs] *)

Definition DEFAULT_MAX_PER_ITER : N := 256.

(** What the backfill uses of the SDK's client. *)
Record Chain (E : Type) := mk_chain {
  chain_epoch : outcome E EpochView;
  chain_block : Round → outcome E (option BlockView);
}.
Arguments chain_epoch {E} _.
Arguments chain_block {E} _ _.
Arguments mk_chain {E} _ _.

Definition block_from_view (v : BlockView) (now_ms : N) : IndexedBlock :=
  mk_block (bv_round v) now_ms (bv_cert_hash v) (strip_0x <$> bv_tx_hashes v).

Section backfill.
Context {T : Type} `{HS : Store T} {E : Type} (chain : Chain E) (clock : Round → N).

Fixpoint ingest_rounds (rs : list Round) (s : T) (ingested : N) : outcome E N * T :=
  match rs with
  | [] => (Ok ingested, s)
  | r :: rest =>
      match chain_block chain r with
      | Ok (Some view) =>
          ingest_rounds rest (ingest_committed_block (block_from_view view (clock r)) s) (wrap 64 (ingested + 1))
      | Ok None => ingest_rounds rest s ingested
      | Err e => (Err e, s)
      | Panic => (Panic, s)
      end
  end.

(** [None]: out of fuel. *)
Fixpoint catch_up_loop (fuel : nat) (next head max_per_iter : N) (s : T) (ingested : N)
    : option (outcome E N * T) :=
  match fuel with
  | O => None
  | S fuel =>
      if bool_decide (next ≤ head)%N then
        let end_ := N.min (saturating_add 64 next max_per_iter) (saturating_add 64 head 1) in
        match ingest_rounds (range next end_) s ingested with
        | (Ok n, s') => catch_up_loop fuel end_ head max_per_iter s' n
        | other => Some other
        end
      else Some (Ok ingested, s)
  end.

Definition first_missing (s : T) : Round :=
  match latest_round s with Some r => saturating_add 64 r 1 | None => 0%N end.

Definition catch_up (fuel : nat) (max_per_iter : N) (s : T) : option (outcome E N * T) :=
  let max_per_iter := N.max max_per_iter 1 in
  match chain_epoch chain with
  | Err e => Some (Err e, s)
  | Panic => Some (Panic, s)
  | Ok epoch =>
      let head := latest_committed_round epoch in
      let next := first_missing s in
      if bool_decide (head < next)%N then Some (Ok 0%N, s)
      else catch_up_loop fuel next head max_per_iter s 0
  end.
End backfill.

(** *** The read API: [api.rs] *)

Definition api_get_block {T} `{Store T} (s : T) (round : Round) : N * option IndexedBlock :=
  match get_block s round with Some b => (200%N, Some b) | None => (404%N, None) end.

Definition api_list_blocks {T} `{Store T} (s : T) (from : Round) (to : option Round) : option (list IndexedBlock) :=
  get_blocks s from (default from to).

(** ** The in-memory store keeps its contract *)

#[global] Instance mem_laws : StoreLaws InMemoryStore.
Proof.
  split; simpl.
  - intros b s r. unfold mem_get_block, mem_ingest. case_bool_decide as Hb.
    + destruct (stored s !! r) as [x|] eqn:Er; [done|]. case_decide as E; [|done]. subst r.
      rewrite Er in Hb. by destruct Hb.
    + simpl. destruct (decide (r = ib_round b)) as [->|Hne].
      * rewrite lookup_insert_eq. destruct (stored s !! ib_round b); [by destruct Hb|done].
      * rewrite lookup_insert_ne by done. by destruct (stored s !! r).
  - unfold mem_latest_round, mem_get_block. intros s r E%btree_keys_last_None. by rewrite E, lookup_empty.
  - intros s k [? _]%btree_keys_last. done.
  - intros s k r [_ Hmax]%btree_keys_last Hr. by apply Hmax.
Qed.

(** The transaction index agrees with the blocks. *)
Record tx_index_ok (s : InMemoryStore) : Prop := {
  ti_keys : map_Forall (λ r b, ib_round b = r) (stored s);
  ti_sound : ∀ h r, tx_index s !! h = Some r → ∃ b, stored s !! r = Some b ∧ h ∈ ib_tx_hashes b;
  ti_complete : ∀ r b h, stored s !! r = Some b → h ∈ ib_tx_hashes b → is_Some (tx_index s !! h);
}.

Lemma lookup_indexed (r : Round) l (m : gmap string Round) h :
  foldl (λ m tx, <[tx := r]> m) m l !! h = if decide (h ∈ l) then Some r else m !! h.
Proof.
  revert m. induction l as [|x l IH]; intros m; simpl; [done|]. rewrite IH.
  destruct (decide (h ∈ l)) as [Hl|Hl]; [by rewrite decide_True by set_solver|].
  destruct (decide (h = x)) as [->|Hne]; [by rewrite lookup_insert_eq, decide_True by set_solver|].
  by rewrite lookup_insert_ne, decide_False by set_solver.
Qed.

Lemma empty_store_ok : tx_index_ok empty_store.
Proof. split; simpl; [by apply map_Forall_empty|..]; intros; by rewrite lookup_empty in *. Qed.

(** Every ingestion keeps the transaction index in step with the blocks. *)
Theorem tx_index_preserved b s : tx_index_ok s → tx_index_ok (mem_ingest b s).
Proof.
  intros [H1 H2 H3]. unfold mem_ingest. case_bool_decide as Hb; [by split|].
  apply eq_None_not_Some in Hb. split; simpl.
  - by apply map_Forall_insert_2.
  - intros h r. rewrite lookup_indexed. case_decide as Hh.
    + intros [= <-]. exists b. by rewrite lookup_insert_eq.
    + intros (x & Hx & ?)%H2. exists x. rewrite lookup_insert_ne by congruence. done.
  - intros r x h. rewrite lookup_indexed. intros [[<- <-]|[? Hx]]%lookup_insert_Some Hh; case_decide; eauto; done.
Qed.

(** A range query fails exactly on a range that ends before it starts; otherwise
    it answers, in ascending order of round, blocks of the range, and all of them
    if there are at most 1024. *)
Theorem get_blocks_spec s from to :
  map_Forall (λ r b, ib_round b = r) (stored s) →
  match mem_get_blocks s from to with
  | None => (to < from)%N
  | Some l =>
      (from ≤ to)%N ∧ length l ≤ 1024 ∧ StronglySorted N.le (ib_round <$> l) ∧
      (∀ b, b ∈ l → (from ≤ ib_round b ≤ to)%N ∧ stored s !! ib_round b = Some b) ∧
      (length l < 1024 → ∀ r b, stored s !! r = Some b → (from ≤ r ≤ to)%N → b ∈ l)
  end.
Proof.
  intros Hk. unfold mem_get_blocks. case_bool_decide as Hr; [done|].
  set (F := filter _ _). assert (∀ e, e ∈ F ↔ (from ≤ e.1 ∧ e.1 ≤ to)%N ∧ stored s !! e.1 = Some e.2) as HF.
  { intros [r b]. unfold F. by rewrite list_elem_of_filter, elem_of_btree_entries. }
  assert (∀ e, e ∈ F → ib_round e.2 = e.1) as Hround by (intros e [_ He]%HF; by apply (Hk _ _ He)).
  assert (StronglySorted (key_rel fst) F) as Hs by apply StronglySorted_filter, btree_entries_sorted.
  split_and!; [lia|rewrite length_fmap, length_take; lia| | |].
  - rewrite <-list_fmap_compose. clear HF. clearbody F. revert Hs Hround. generalize 1024. intros k.
    revert F. induction k as [|k IH]; intros [|e F] Hs Hround; simpl; try constructor.
    + apply IH; [by inversion Hs|]. intros; apply Hround; set_solver.
    + inversion Hs as [|? ? _ Hall]; subst. apply Forall_fmap, Forall_take, Forall_forall.
      intros x Hx. simpl. rewrite !Hround by set_solver. rewrite Forall_forall in Hall. exact (Hall x Hx).
  - intros b ([r b'] & -> & Hin%elem_of_take)%list_elem_of_fmap. destruct Hin as (i & Hi%list_elem_of_lookup_2 & _).
    pose proof (Hround _ Hi) as Er. apply HF in Hi as [? ?]. simpl in *. by rewrite Er.
  - rewrite length_fmap, length_take. intros Hl r b Hb Hin. apply list_elem_of_fmap. exists (r, b). split; [done|].
    rewrite take_ge by lia. by apply HF.
Qed.

(** *** The live index *)

Section live_index.
Context {T : Type} `{HS : Store T, HL : !StoreLaws T, HE : HexEncode}.

(** The frames of a daemon, delivered in order and indexed at the times given. *)
Definition follow (label : string) (evs : list NodeCommit.Event) (t : N) (s : T) : T :=
  foldl (λ s ev, index_event (Events.event_to_view (Events.log_line label t ev)) t s) s evs.

(** The commits a subscriber indexes are those of the main lane. *)
Lemma block_of_log_line label t ev :
  block_from_committed_event (Events.event_to_view (Events.log_line label t ev)) t =
    match ev with
    | EvCommitted r h hs => Some (mk_block r t (hex_encode h) (hex_encode <$> hs))
    | _ => None
    end.
Proof. by destruct ev as [| |[] ? ?|[] ? ?| | | | | |[]|]. Qed.

Definition first_commit (t : N) (r : Round) (evs : list NodeCommit.Event) : option IndexedBlock :=
  head (omap (λ ev, match ev with
                    | EvCommitted r' h hs =>
                        if decide (r' = r) then Some (mk_block r' t (hex_encode h) (hex_encode <$> hs)) else None
                    | _ => None
                    end) evs).

(** Following a daemon leaves in each round the block held before, or else the
    first certificate of that round the daemon committed. *)
Theorem follow_spec label evs t s r :
  get_block (follow label evs t s) r =
    match get_block s r with Some b => Some b | None => first_commit t r evs end.
Proof.
  unfold follow, first_commit. revert s. induction evs as [|ev evs IH]; intros s; simpl; [by destruct (get_block s r)|].
  rewrite IH. unfold index_event. rewrite block_of_log_line. destruct ev; try done.
  rewrite get_ingest. simpl. destruct (get_block s r) as [b|]; [done|].
  destruct (decide (r = round)) as [->|Hne]; [by rewrite decide_True|by rewrite decide_False].
Qed.

(** What a subscriber of a node indexes was committed by that node. *)
Theorem follow_sound `{HB : Blake3, HM : MlDsa65, HN : Bincode, HSh : Sha3, HBl : Blst, HX : Hex} m sk self s0 evs cs s label t (st : T) r b :
  new_state m sk = Some s0 → (self < width 32)%N → run self s0 evs cs s →
  get_block st r = None → get_block (follow label evs t st) r = Some b →
  (∃ h, h ∈ committed s ∧ ib_cert_hash b = hex_encode h) ∨ collision.
Proof.
  intros (Hok & _)%new_state_ok Hself Hrun Hn. rewrite follow_spec, Hn.
  destruct (run_spec _ _ _ _ _ Hok Hself Hrun) as [[_ _ Hc _ _ _]|?]; [|by right].
  unfold first_commit. intros Hh. left.
  assert (b ∈ omap (λ ev, match ev with
                    | EvCommitted r' h hs =>
                        if decide (r' = r) then Some (mk_block r' t (hex_encode h) (hex_encode <$> hs)) else None
                    | _ => None
                    end) evs) as (ev & Hev & Eb)%list_elem_of_omap.
  { destruct (omap _ _) as [|x l]; [done|]. injection Hh as ->. by left. }
  destruct ev as [| | | |r' h hs| | | | | |]; try done. case_decide; [|done]. injection Eb as <-.
  exists h. split; [|done]. rewrite Hc. apply elem_of_union_l, elem_of_list_to_set, list_elem_of_omap. by eexists.
Qed.
End live_index.

(** *** The backfill *)

Section catch_up.
Context {T : Type} `{HS : Store T, HL : !StoreLaws T} {E : Type} (chain : Chain E) (clock : Round → N).

Lemma ingest_rounds_app rs1 rs2 (s : T) n :
  ingest_rounds chain clock (rs1 ++ rs2) s n =
    match ingest_rounds chain clock rs1 s n with
    | (Ok n', s') => ingest_rounds chain clock rs2 s' n'
    | other => other
    end.
Proof.
  revert s n. induction rs1 as [|r rs1 IH]; intros s n; simpl; [done|].
  by destruct (chain_block chain r) as [[v|]|e|].
Qed.

Lemma range_split lo mid hi : (lo ≤ mid ≤ hi)%N → range lo hi = range lo mid ++ range mid hi.
Proof.
  intros H. unfold range. replace (N.to_nat (hi - lo)) with (N.to_nat (mid - lo) + N.to_nat (hi - mid)) by lia.
  rewrite seq_app, fmap_app. f_equal. rewrite Nat.add_comm, <-fmap_add_seq, <-list_fmap_compose.
  apply list_fmap_ext. intros i x _. simpl. lia.
Qed.

(** The batched walk ends, with what one pass over the whole gap gives, whatever
    the batch size and whatever the node answers. *)
Theorem catch_up_batches fuel next head k (s : T) n :
  (head < width 64 - 1)%N → (0 < k)%N → N.to_nat (head + 1 - next) < fuel →
  catch_up_loop chain clock fuel next head k s n = Some (ingest_rounds chain clock (range next (head + 1)) s n).
Proof.
  intros Hh Hk. revert next s n. induction fuel as [|fuel IH]; intros next s n Hf; [lia|]. simpl.
  case_bool_decide as Hn.
  - set (e := N.min _ _). assert (next < e ≤ head + 1)%N as He.
    { unfold e, saturating_add. lia. }
    rewrite (range_split next e (head + 1)), ingest_rounds_app by lia.
    destruct (ingest_rounds chain clock (range next e) s n) as [[n'|x|] s']; [|done..]. apply IH. lia.
  - unfold range. by replace (N.to_nat (head + 1 - next)) with 0 by lia.
Qed.

(** At the last representable round the walk never ends: the end of the batch
    saturates at the head, which is never passed. *)
Theorem catch_up_diverges fuel next k (s : T) n :
  (∀ r, ∃ v, chain_block chain r = Ok v) → (next < width 64)%N →
  catch_up_loop chain clock fuel next (width 64 - 1) k s n = None.
Proof.
  intros Hok. revert next s n. induction fuel as [|fuel IH]; intros next s n Hn; [done|]. simpl.
  rewrite bool_decide_true by lia. set (e := N.min _ _).
  assert (e < width 64)%N as He by (unfold e, saturating_add; pose proof (width_pos 64); lia).
  assert (∀ l s n, ∃ n' s', ingest_rounds chain clock l s n = (Ok n', s')) as Hall.
  { clear -Hok. induction l as [|r l IH]; intros s n; simpl; [by do 2 eexists|].
    destruct (Hok r) as [[v|] ->]; apply IH. }
  destruct (Hall (range next e) s n) as (n' & s' & ->). by apply IH.
Qed.

Lemma ingest_rounds_Ok rs (s : T) n (view : Round → option BlockView) :
  (∀ r, r ∈ rs → chain_block chain r = Ok (view r)) → (∀ r v, view r = Some v → bv_round v = r) →
  (n + N.of_nat (length rs) < width 64)%N →
  ∃ s', ingest_rounds chain clock rs s n = (Ok (n + N.of_nat (length (omap view rs)))%N, s') ∧
    ∀ r, get_block s' r =
      match get_block s r with
      | Some b => Some b
      | None => if decide (r ∈ rs) then (λ v, block_from_view v (clock r)) <$> view r else None
      end.
Proof.
  intros Hc Hv. revert s n. induction rs as [|x rs IH]; intros s n Hn.
  { exists s. split; [simpl; by rewrite N.add_0_r|]. intros r. rewrite decide_False by set_solver. by destruct (get_block s r). }
  cbn [ingest_rounds]. cbn [length] in Hn. rewrite Hc by set_solver.
  change (omap view (x :: rs)) with (match view x with Some y => y :: omap view rs | None => omap view rs end). specialize (IH ltac:(set_solver)).
  destruct (view x) as [v|] eqn:Ex.
  - rewrite wrap_small by lia. destruct (IH (ingest_committed_block (block_from_view v (clock x)) s) (n + 1)%N) as (s' & -> & Hg); [lia|].
    exists s'. split; [simpl; do 2 f_equal; lia|]. intros r. rewrite Hg, get_ingest. cbn [block_from_view ib_round]. rewrite (Hv x v Ex).
    destruct (get_block s r); [done|]. destruct (decide (r = x)) as [->|Hne].
    + by rewrite (decide_True (P := x ∈ x :: rs)), Ex by set_solver.
    + destruct (decide (r ∈ rs)); [by rewrite decide_True by set_solver|by rewrite decide_False by set_solver].
  - destruct (IH s n) as (s' & -> & Hg); [lia|]. exists s'. split; [done|]. intros r. rewrite Hg.
    destruct (get_block s r); [done|]. destruct (decide (r = x)) as [->|Hne].
    + rewrite (decide_True (P := x ∈ x :: rs)), Ex by set_solver. by destruct (decide (x ∈ rs)).
    + destruct (decide (r ∈ rs)); [by rewrite decide_True by set_solver|by rewrite decide_False by set_solver].
Qed.

(** The backfill against a node that answers: it ends, ingests every block the
    node shows between the round after the latest one held and the head, counts
    them, and touches no other round.  In particular a round missed below the
    latest one held is not fetched. *)
Theorem catch_up_spec fuel k (s : T) epoch (view : Round → option BlockView)
    (head := latest_committed_round epoch) (next := first_missing s) :
  chain_epoch chain = Ok epoch → (head < width 64 - 1)%N → N.to_nat (head + 1) < fuel →
  (∀ r, (r ≤ head)%N → chain_block chain r = Ok (view r)) → (∀ r v, view r = Some v → bv_round v = r) →
  ∃ s', catch_up chain clock fuel k s = Some (Ok (N.of_nat (length (omap view (range next (head + 1))))), s') ∧
    ∀ r, get_block s' r =
      match get_block s r with
      | Some b => Some b
      | None => if decide (next ≤ r ≤ head)%N then (λ v, block_from_view v (clock r)) <$> view r else None
      end.
Proof.
  intros He Hh Hf Hc Hv. unfold catch_up. rewrite He. fold head next.
  assert (length (range next (head + 1)) = N.to_nat (head + 1 - next)) as Hlen
    by (unfold range; by rewrite length_fmap, length_seq).
  case_bool_decide as Hn.
  - exists s. assert (range next (head + 1) = []) as -> by (apply nil_length_inv; lia). split; [done|].
    intros r. rewrite decide_False by lia. by destruct (get_block s r).
  - rewrite catch_up_batches by lia.
    destruct (ingest_rounds_Ok (range next (head + 1)) s 0 view) as (s' & -> & Hg); [|done|lia|].
    { intros r Hr%elem_of_range. apply Hc. lia. }
    exists s'. split; [by rewrite N.add_0_l|]. intros r. rewrite Hg. destruct (get_block s r); [done|].
    by rewrite (decide_ext _ (next ≤ r ≤ head)%N) by (rewrite elem_of_range; lia).
Qed.
End catch_up.

(** ** The indexer against a node *)

Section node_chain.
Context `{HB : Blake3, HM : MlDsa65, HN : Bincode, HE : HexEncode}.

(** What the RPC server of a node in state [s] answers. *)
Definition node_chain (s : State) : Chain ClientError :=
  mk_chain (Ok (epoch_snapshot s))
    (λ r, match block_at_round s r with Some v => Ok v | None => Panic end).

(** The two paths spell one certificate differently: the live stream carries the
    bare hash, the block view the prefixed one. *)
Theorem live_and_backfilled_differ label t r h hs is_ :
  hex_encode h ≠ hex0x h →
  let live := block_from_committed_event (Events.event_to_view (Events.log_line label t (EvCommitted r h hs))) t in
  let filled := block_from_view (mk_block_view r (hex0x h) is_ (hex0x <$> hs)) t in
  live ≠ Some filled ∧ ib_tx_hashes <$> live = Some (ib_tx_hashes filled).
Proof.
  intros Hne. simpl. split; [intros [= ? _]; done|]. f_equal. rewrite <-list_fmap_compose.
  apply list_fmap_ext. intros i x _. done.
Qed.

(** A fresh indexer that catches up with a node holds, for the round of every
    certificate the node has committed, the block of a certificate of that round,
    unless BLAKE3 collides or a payload encoding is ambiguous. *)
Theorem backfill_covers_commits `{HSh : Sha3, HBl : Blst, HX : Hex} m sk self s0 evs cs s fuel k clock :
  new_state m sk = Some s0 → (self < width 32)%N → run self s0 evs cs s →
  (latest_committed_round (epoch_snapshot s) < width 64 - 1)%N →
  N.to_nat (latest_committed_round (epoch_snapshot s) + 1) < fuel →
  (∃ n st, catch_up (node_chain s) clock fuel k empty_store = Some (Ok n, st) ∧
    ∀ h, h ∈ committed s → ∃ c b c' b' h' x, held s h c b ∧ held s h' c' b' ∧ Certificate.round c' = Certificate.round c ∧
      get_block st (Certificate.round c) = Some x ∧ ib_cert_hash x = hex0x h') ∨
  collision ∨ ambiguous_payload.
Proof.
  intros Hnew Hself Hrun Hh Hf. destruct (run_index m sk self s0 evs cs s Hnew Hself Hrun) as [Hi|?]; [left|by right].
  set (view r := default None (block_at_round s r)).
  assert (∀ r, block_at_round s r = Some (view r)) as Hview.
  { intros r. unfold view. destruct (block_at_round_spec s r Hi) as [[-> _]|(? & ? & ? & ? & _ & _ & _ & _ & ->)]; done. }
  destruct (catch_up_spec (node_chain s) clock fuel k empty_store (epoch_snapshot s) view) as (st & E & Hg); [done..| | |].
  { intros r _. simpl. by rewrite Hview. }
  { intros r v Ev. destruct (block_at_round_spec s r Hi) as [[Hb _]|(? & ? & ? & ? & _ & _ & _ & _ & Hb)];
      rewrite Hview, Ev in Hb; [done|]. injection Hb as ->. done. }
  eexists _, st. split; [exact E|]. intros h Hc.
  destruct (ix_committed _ Hi h Hc) as (c & b & Hheld & Hr & _).
  destruct (block_at_round_spec s (Certificate.round c) Hi) as [[_ Hn]|(h' & c' & b' & hs & Hl & Hh' & Er & _ & Hb)];
    [rewrite Hn in Hr; by destruct Hr|].
  eexists c, b, c', b', h', _. split_and!; [done|done|done| |].
  - rewrite Hg. change (get_block empty_store (Certificate.round c)) with (None (A := IndexedBlock)). cbv iota.
    rewrite decide_True, <-(Some_inj _ _ (eq_trans (eq_sym Hb) (Hview _))); [done|].
    split; [apply N.le_0_l|]. unfold epoch_snapshot. cbn [latest_committed_round].
    set (M := blocks_by_round (inner s)) in *. destruct (last (btree_keys M)) as [x|] eqn:El.
    + apply btree_keys_last in El as [_ Hmax]. apply Hmax. by eexists.
    + apply btree_keys_last_None in El. rewrite El in Hl. by rewrite lookup_empty in Hl.
  - done.
Qed.
End node_chain.
End Indexer.
