(* ===== verification/RpcMethods.v ===== *)
(** * The JSON-RPC server and the Rust SDK

    The request envelope, the methods and their dispatch ([suwappu-rpc]:
    [methods.rs], [router.rs], [types.rs], [error.rs], [per_ip.rs]) over the
    adapter of [Rpc], and the SDK that calls them ([clients/rust-sdk]).  A request
    and a response are JSON values; HTTP and the text of JSON are left out, and so
    are the texts of error messages.  A [None] is a panic of the handler. *)

From Stdlib Require Import Strings.Ascii Strings.String ZArith.
From stdpp Require Import pretty.
From S2P Require Import Prelude Crypto Cert Dag Commit Joint Equivocation BridgeHeader Rings FastPath Mempool.
From S2P Require Import ExecTypes Substrate Block Sha3 Ltp RecordSet Governance NodeState Ingest NodeCommit.
From S2P Require Import NodeSafety Inbox Driver Client Node NodeIndex Rpc Indexer.

(** ** JSON values *)

Module Json.
#[local] Unset Program Cases.
(** [serde_json]'s numbers; a float is carried as its text. *)
Inductive Number := PosInt (n : N) | NegInt (z : Z) | Float (text : string).
Inductive Value :=
| Null
| Bool (b : bool)
| Num (n : Number)
| Str (s : string)
| Array (l : list Value)
| Object (fields : list (string * Value)).

Fixpoint assoc (k : string) (fields : list (string * Value)) : option Value :=
  match fields with
  | [] => None
  | (k', v) :: rest => if String.eqb k k' then Some v else assoc k rest
  end.

(** The member of an object. *)
Definition member (k : string) (v : Value) : option Value :=
  match v with Object fields => assoc k fields | _ => None end.

(** Types with a JSON form.  [fits] is what the width of the Rust type ensures. *)
Class Serde (A : Type) := {
  to_value : A → Value;
  from_value : Value → option A;
  fits : A → Prop;
  from_to a : fits a → from_value (to_value a) = Some a;
}.

Definition uint (n : N) : Value := Num (PosInt n).
Definition as_uint (w : N) (v : Value) : option N :=
  match v with Num (PosInt n) => if bool_decide (n < width w)%N then Some n else None | _ => None end.
Definition as_string (v : Value) : option string := match v with Str s => Some s | _ => None end.

Lemma as_uint_uint w n : (n < width w)%N → as_uint w (uint n) = Some n.
Proof. intros Hn. simpl. by rewrite bool_decide_true. Qed.

#[global] Program Instance list_serde {A} `{Serde A} : Serde (list A) := {|
  to_value l := Array (to_value <$> l);
  from_value v := match v with Array l => mapM from_value l | _ => None end;
  fits := Forall fits;
|}.
Next Obligation.
  intros A HA l. cbn beta iota. induction l as [|a l IH]; intros Hl; [done|]. apply Forall_cons in Hl as [Ha Hl].
  cbn. rewrite (from_to a Ha). cbn. by rewrite (IH Hl).
Qed.

#[global] Program Instance epoch_serde : Serde EpochView := {|
  to_value e := Object [("current", uint (view_current e)); ("last_boundary_round", uint (view_last_boundary_round e));
    ("rounds_per_epoch", uint (view_rounds_per_epoch e)); ("latest_committed_round", uint (latest_committed_round e))];
  from_value v :=
    c ← member "current" v ≫= as_uint 64;
    b ← member "last_boundary_round" v ≫= as_uint 64;
    r ← member "rounds_per_epoch" v ≫= as_uint 64;
    l ← match member "latest_committed_round" v with Some x => as_uint 64 x | None => Some 0%N end;
    Some (mk_epoch_view c b r l);
  fits e := (view_current e < width 64 ∧ view_last_boundary_round e < width 64 ∧ view_rounds_per_epoch e < width 64 ∧
    latest_committed_round e < width 64)%N;
|}.
Next Obligation. intros [c b r l] (? & ? & ? & ?). cbn -[as_uint uint]. by rewrite !as_uint_uint. Qed.

#[global] Program Instance authority_serde : Serde AuthorityMemberView := {|
  to_value a := Object [("id", uint (av_id a)); ("stake_suwappu", uint (av_stake a)); ("public_key_hex", Str (av_public_key_hex a))];
  from_value v :=
    i ← member "id" v ≫= as_uint 32;
    s ← member "stake_suwappu" v ≫= as_uint 64;
    k ← member "public_key_hex" v ≫= as_string;
    Some (mk_authority_view i s k);
  fits a := (av_id a < width 32 ∧ av_stake a < width 64)%N;
|}.
Next Obligation. intros [i s k] (? & ?). cbn -[as_uint uint]. by rewrite !as_uint_uint. Qed.

#[global] Program Instance validator_serde : Serde ValidatorMemberView := {|
  to_value a := Object [("id", uint (vv_id a)); ("stake_suwappu", Str (vv_stake a))];
  from_value v := i ← member "id" v ≫= as_uint 32; s ← member "stake_suwappu" v ≫= as_string; Some (mk_validator_view i s);
  fits a := (vv_id a < width 32)%N;
|}.
Next Obligation. intros [i s] ?. cbn -[as_uint uint]. by rewrite !as_uint_uint. Qed.

(** [#[serde(tag = "kind", rename_all = "snake_case")]] *)
#[global] Program Instance intent_serde : Serde IntentView.IntentView := {|
  to_value i := Object match i with
    | IntentView.Transfer f t a => [("kind", Str "transfer"); ("from", Str f); ("to", Str t); ("amount", Str a)]
    | IntentView.AdmitAuthority a s m b => [("kind", Str "admit_authority"); ("authority_id", uint a); ("stake_suwappu", Str s);
        ("mldsa_public_key_hex", Str m); ("bls_public_key_hex", Str b)]
    | IntentView.ExitAuthority a => [("kind", Str "exit_authority"); ("authority_id", uint a)]
    | IntentView.EjectAuthority a p => [("kind", Str "eject_authority"); ("authority_id", uint a); ("proof_ref", Str p)]
    | IntentView.Unknown k => [("kind", Str "unknown"); ("kind_hint", Str k)]
    end;
  from_value v :=
    k ← member "kind" v ≫= as_string;
    let str f := member f v ≫= as_string in
    let id := member "authority_id" v ≫= as_uint 32 in
    if String.eqb k "transfer" then f ← str "from"; t ← str "to"; a ← str "amount"; Some (IntentView.Transfer f t a)
    else if String.eqb k "admit_authority" then
      a ← id; s ← str "stake_suwappu"; m ← str "mldsa_public_key_hex"; b ← str "bls_public_key_hex";
      Some (IntentView.AdmitAuthority a s m b)
    else if String.eqb k "exit_authority" then a ← id; Some (IntentView.ExitAuthority a)
    else if String.eqb k "eject_authority" then a ← id; p ← str "proof_ref"; Some (IntentView.EjectAuthority a p)
    else if String.eqb k "unknown" then h ← str "kind_hint"; Some (IntentView.Unknown h)
    else None;
  fits i := match i with
    | IntentView.AdmitAuthority a _ _ _ | IntentView.ExitAuthority a | IntentView.EjectAuthority a _ => (a < width 32)%N
    | _ => True
    end;
|}.
Next Obligation. intros [] ?; cbn -[as_uint uint]; by rewrite ?as_uint_uint. Qed.

#[global] Program Instance block_serde : Serde BlockView := {|
  to_value b := Object [("round", uint (bv_round b)); ("cert_hash", Str (bv_cert_hash b)); ("intents", to_value (bv_intents b));
    ("tx_hashes", Array (Str <$> bv_tx_hashes b))];
  from_value v :=
    r ← member "round" v ≫= as_uint 64;
    c ← member "cert_hash" v ≫= as_string;
    i ← member "intents" v ≫= from_value;
    t ← match member "tx_hashes" v with Some (Array l) => mapM as_string l | Some _ => None | None => Some [] end;
    Some (mk_block_view r c i t);
  fits b := (bv_round b < width 64)%N ∧ fits (bv_intents b);
|}.
Next Obligation.
  intros [r c i t] (Hr & Hi). cbn -[as_uint uint from_value to_value]. rewrite as_uint_uint by done. cbn -[from_value to_value].
  rewrite (from_to i Hi). cbn. assert (mapM as_string (Str <$> t) = Some t) as ->; [|done].
  clear. induction t as [|x t IH]; [done|]. cbn. by rewrite IH.
Qed.

#[global] Program Instance tx_serde : Serde TransactionView := {|
  to_value t := Object [("tx_hash", Str (tv_tx_hash t)); ("round", uint (tv_round t)); ("cert_hash", Str (tv_cert_hash t));
    ("index", uint (N.of_nat (tv_index t))); ("intent", to_value (tv_intent t))];
  from_value v :=
    h ← member "tx_hash" v ≫= as_string;
    r ← member "round" v ≫= as_uint 64;
    c ← member "cert_hash" v ≫= as_string;
    k ← member "index" v ≫= as_uint 64;
    i ← member "intent" v ≫= from_value;
    Some (mk_tx_view h r c (N.to_nat k) i);
  fits t := (tv_round t < width 64 ∧ N.of_nat (tv_index t) < width 64)%N ∧ fits (tv_intent t);
|}.
Next Obligation.
  intros [h r c k i] ((? & ?) & Hi). cbn -[as_uint uint from_value to_value]. rewrite !as_uint_uint by done.
  cbn -[from_value to_value]. rewrite (from_to i Hi). cbn. by rewrite Nat2N.id.
Qed.
End Json.
Import Json(Value, Null, Str, Array, Object, uint, member, as_uint, as_string, Serde, to_value, from_value, fits, from_to).

(** ** The server *)

Module Server.

(** The errors, without their texts. *)
Inductive RpcError :=
| InvalidRequest | MethodNotFound | InvalidParams | Internal | NotFound | UnknownSigner | BadSignature | EnqueueFull
| GovernanceRequiresCoSignature | RateLimited.

Definition code (e : RpcError) : Z :=
  match e with
  | InvalidRequest => -32600 | MethodNotFound => -32601 | InvalidParams => -32602 | Internal => -32603
  | NotFound => -32000 | UnknownSigner => -32001 | BadSignature => -32002 | EnqueueFull => -32003
  | GovernanceRequiresCoSignature => -32004 | RateLimited => -32099
  end.

(** What the handlers share: the node, its bridge signer and the attestation
    cache. *)
Record Server := mk_server { node : State; signer : option BridgeHeaderSigner; cache : option HeaderAttestation }.

(** A parameter given by name or as the one element of an array. *)
Definition one_param {A} (name : string) (dec : Value → option A) (params : Value) : outcome RpcError A :=
  match params with
  | Object _ => ok_or (member name params ≫= dec) InvalidParams
  | Array [v] => ok_or (dec v) InvalidParams
  | _ => Err InvalidParams
  end.

Definition expect_no_params (params : Value) : outcome RpcError unit :=
  match params with Null | Array [] | Object [] => Ok tt | _ => Err InvalidParams end.

(** [try_into] an array of [n] bytes. *)
Definition exactly (n : nat) (b : bytes) : outcome RpcError bytes :=
  if bool_decide (length b = n) then Ok b else Err InvalidParams.

(** [strip_prefix("0x").or(strip_prefix("0X"))] *)
Definition strip_hex (s : string) : string :=
  match s with
  | String c (String x rest) =>
      if bool_decide (N_of_ascii c = 48%N) && (bool_decide (N_of_ascii x = 120%N) || bool_decide (N_of_ascii x = 88%N))
      then rest else s
  | _ => s
  end.

Section methods.
Context `{HB : Blake3, HM : MlDsa65, HN : Bincode, HE : HexEncode, HD : BincodeDecode, HX : Hex}.

Definition decode_hex_field (s : string) : outcome RpcError bytes := ok_or (hex_decode (strip_hex s)) InvalidParams.

Definition get_epoch (s : State) (params : Value) : outcome RpcError Value :=
  let! _ := expect_no_params params in Ok (to_value (epoch_snapshot s)).
Definition get_authority_registry (s : State) (params : Value) : outcome RpcError Value :=
  let! _ := expect_no_params params in Ok (to_value (authority_snapshot s)).
Definition get_validator_registry (s : State) (params : Value) : outcome RpcError Value :=
  let! _ := expect_no_params params in Ok (to_value (validator_snapshot s)).

Definition get_stake (s : State) (params : Value) : outcome RpcError Value :=
  let! id := one_param "authority_id" (as_uint 32) params in
  match stake_for s id with
  | Some stake => Ok (Object [("id", uint id); ("stake_suwappu", Str (pretty stake))]%string)
  | None => Err NotFound
  end.

Definition get_balance (s : State) (params : Value) : outcome RpcError Value :=
  let! text := one_param "address" as_string params in
  let! b := decode_hex_field text in
  let! addr := exactly 20 b in
  Ok (Object [("address", Str (hex0x addr)); ("balance", Str (pretty (balance_for s addr)))]%string).

Definition get_block (s : State) (params : Value) : outcome RpcError Value :=
  let! round := one_param "round" (as_uint 64) params in
  match block_at_round s round with
  | None => Panic
  | Some (Some view) => Ok (to_value view)
  | Some None => Err NotFound
  end.

Definition get_transaction (s : State) (params : Value) : outcome RpcError Value :=
  let! text := one_param "tx_hash" as_string params in
  let! b := decode_hex_field text in
  let! h := exactly 32 b in
  match transaction_by_hash s h with
  | Some view => Ok (to_value view)
  | None => Err NotFound
  end.

Definition attestation_value (a : HeaderAttestationView) : Value :=
  Object [("block_number", uint (hv_block_number a)); ("state_root", Str (hv_state_root a));
    ("authority_id", uint (hv_authority_id a)); ("pubkey", Str (hv_pubkey a)); ("signature", Str (hv_signature a));
    ("network_id", Str (hv_network_id a)); ("oracle", Str (hv_oracle a))]%string.

Definition get_header_attestation (sv : Server) (params : Value) : outcome RpcError Value * Server :=
  match expect_no_params params with
  | Ok _ =>
      match header_attestation (node sv) (signer sv) (cache sv) with
      | None => (Panic, sv)
      | Some (att, c) =>
          (Ok (match att with Some a => attestation_value a | None => Null end), mk_server (node sv) (signer sv) c)
      end
  | Err e => (Err e, sv)
  | Panic => (Panic, sv)
  end.

Definition submit_params (params : Value) : outcome RpcError (string * string * string) :=
  match params with
  | Object _ =>
      ok_or (i ← member "intent" params ≫= as_string; s ← member "signature" params ≫= as_string;
             h ← member "signer_pubkey_hash" params ≫= as_string; Some (i, s, h)) InvalidParams
  | Array [i; s; h] =>
      ok_or (i ← as_string i; s ← as_string s; h ← as_string h; Some (i, s, h)) InvalidParams
  | _ => Err InvalidParams
  end.

Definition submit_error (e : SubmitIntentError) : RpcError :=
  match e with
  | SubmitIntentError.BadIntentEncoding _ => InvalidParams
  | SubmitIntentError.UnknownSigner => UnknownSigner
  | SubmitIntentError.BadSignature => BadSignature
  | SubmitIntentError.GovernanceRequiresCoSignature => GovernanceRequiresCoSignature
  | SubmitIntentError.EnqueueFull => EnqueueFull
  end.

(** The fields of a submission as bytes. *)
Definition submit_fields (params : Value) : outcome RpcError (bytes * bytes * bytes) :=
  let! p := submit_params params in
  let! i := decode_hex_field p.1.1 in
  let! s := decode_hex_field p.1.2 in
  let! h := decode_hex_field p.2 in
  let! h := exactly 32 h in
  Ok (i, s, h).

Definition submit_method (s : State) (params : Value) (now_ms : N) : outcome RpcError Value * State :=
  match submit_fields params with
  | Ok (i, sig, h) =>
      match submit_intent s i sig h now_ms with
      | None => (Panic, s)
      | Some (Ok x, s') => (Ok (Object [("tx_hash", Str (hex0x x))]%string), s')
      | Some (Err e, s') => (Err (submit_error e), s')
      | Some (Panic, s') => (Panic, s')
      end
  | Err e => (Err e, s)
  | Panic => (Panic, s)
  end.

Definition dispatch (sv : Server) (method : string) (params : Value) (now_ms : N) : outcome RpcError Value * Server :=
  let read (f : State → Value → outcome RpcError Value) := (f (node sv) params, sv) in
  if String.eqb method "suwappu_getEpoch" then read get_epoch
  else if String.eqb method "suwappu_getAuthorityRegistry" then read get_authority_registry
  else if String.eqb method "suwappu_getValidatorRegistry" then read get_validator_registry
  else if String.eqb method "suwappu_getStake" then read get_stake
  else if String.eqb method "suwappu_getBalance" then read get_balance
  else if String.eqb method "suwappu_getBlock" then read get_block
  else if String.eqb method "suwappu_getTransaction" then read get_transaction
  else if String.eqb method "suwappu_getHeaderAttestation" then get_header_attestation sv params
  else if String.eqb method "suwappu_submitIntent" then
    let '(res, s') := submit_method (node sv) params now_ms in (res, mk_server s' (signer sv) (cache sv))
  else (Err MethodNotFound, sv).

(** *** Envelopes *)

Record JsonRpcRequest := mk_request { jsonrpc : string; id : Value; method : string; params : Value }.
Record JsonRpcResponse := mk_response { r_jsonrpc : string; r_id : Value; result : option Value; error : option Z }.

Definition response_ok (i : Value) (v : Value) : JsonRpcResponse := mk_response "2.0" i (Some v) None.
Definition response_err (i : Value) (e : RpcError) : JsonRpcResponse := mk_response "2.0" i None (Some (code e)).

(** The derived deserialisation: parameters default to null. *)
Definition request_of_value (v : Value) : option JsonRpcRequest :=
  j ← member "jsonrpc" v ≫= as_string;
  i ← member "id" v;
  m ← member "method" v ≫= as_string;
  Some (mk_request j i m (default Null (member "params" v))).

(** [body] is the parsed request, if it parses. *)
Definition handle_rpc (sv : Server) (body : option Value) (now_ms : N) : option (JsonRpcResponse * Server) :=
  match body ≫= request_of_value with
  | None => Some (response_err Null InvalidRequest, sv)
  | Some req =>
      if negb (String.eqb (jsonrpc req) "2.0") then Some (response_err (id req) InvalidRequest, sv)
      else
        match dispatch sv (method req) (params req) now_ms with
        | (Ok v, sv') => Some (response_ok (id req) v, sv')
        | (Err e, sv') => Some (response_err (id req) e, sv')
        | (Panic, _) => None
        end
  end.

(** The identifier echoed by a rejection; [None] also for a body over 64 KiB. *)
Definition peek_jsonrpc_id (body : option Value) : Value :=
  default Null (body ≫= member "id").

(** The route behind the per-address limiter. *)
Definition serve (l : PerIpRateLimiter) (sv : Server) (ip : option IpAddr) (body peeked : option Value) (now_ms : N)
    : option (JsonRpcResponse * PerIpRateLimiter * Server) :=
  match PerIp.middleware l ip now_ms with
  | (true, l') => '(resp, sv') ← handle_rpc sv body now_ms; Some (resp, l', sv')
  | (false, l') => Some (response_err (peek_jsonrpc_id peeked) RateLimited, l', sv)
  end.
End methods.
End Server.
Import Server(mk_server, node).

(** ** The SDK: [clients/rust-sdk/src/lib.rs] *)

Module Sdk.
Inductive Error := Transport | Rpc (code : Z) | MalformedResponse | Deserialize.

(** [post] is the HTTP exchange: the parsed envelope of the answer. *)
Record Client := mk_client { post : Value → option Server.JsonRpcResponse; next_id : N }.

Definition request (i : N) (method : string) (params : Value) : Value :=
  Object [("jsonrpc", Str "2.0"); ("id", uint i); ("method", Str method); ("params", params)]%string.

(** A [null] result reads as an absent one. *)
Definition call {A} (dec : Value → option A) (c : Client) (method : string) (params : Value)
    : outcome Error A * Client :=
  let c' := mk_client (post c) (wrap 64 (next_id c + 1)) in
  (match post c (request (next_id c) method params) with
   | None => Err Transport
   | Some envelope =>
       match Server.error envelope with
       | Some n => Err (Rpc n)
       | None =>
           match Server.result envelope with
           | None | Some Null => Err MalformedResponse
           | Some v => ok_or (dec v) Deserialize
           end
       end
   end, c').

(** The application's "not found" is no error. *)
Definition optional {A} (r : outcome Error A * Client) : outcome Error (option A) * Client :=
  (match r.1 with
   | Ok a => Ok (Some a)
   | Err (Rpc n) => if Z.eqb n (-32000) then Ok None else Err (Rpc n)
   | Err e => Err e
   | Panic => Panic
   end, r.2).

Record StakeEntry := mk_stake { se_id : N; se_stake : string }.
Definition stake_of_value (v : Value) : option StakeEntry :=
  i ← member "id" v ≫= as_uint 32; s ← member "stake_suwappu" v ≫= as_string; Some (mk_stake i s).
Record BalanceView := mk_balance { bal_address : string; bal_balance : string }.
Definition balance_of_value (v : Value) : option BalanceView :=
  a ← member "address" v ≫= as_string; b ← member "balance" v ≫= as_string; Some (mk_balance a b).

Section sdk.
Context `{HE : HexEncode, HX : Hex}.

Definition get_epoch (c : Client) : outcome Error EpochView * Client := call from_value c "suwappu_getEpoch" Null.
Definition get_authority_registry (c : Client) : outcome Error (list AuthorityMemberView) * Client :=
  call from_value c "suwappu_getAuthorityRegistry" Null.
Definition get_validator_registry (c : Client) : outcome Error (list ValidatorMemberView) * Client :=
  call from_value c "suwappu_getValidatorRegistry" Null.
Definition get_stake (c : Client) (a : N) : outcome Error (option StakeEntry) * Client :=
  optional (call stake_of_value c "suwappu_getStake" (Object [("authority_id"%string, uint a)])).
Definition get_balance (c : Client) (a : Address) : outcome Error BalanceView * Client :=
  call balance_of_value c "suwappu_getBalance" (Object [("address"%string, Str (hex0x a))]).
Definition get_block (c : Client) (round : Round) : outcome Error (option BlockView) * Client :=
  optional (call from_value c "suwappu_getBlock" (Object [("round"%string, uint round)])).
Definition get_transaction (c : Client) (h : bytes) : outcome Error (option TransactionView) * Client :=
  optional (call from_value c "suwappu_getTransaction" (Object [("tx_hash"%string, Str (hex0x h))])).

Definition submit_intent_raw (c : Client) (intent signature h : bytes) : outcome Error bytes * Client :=
  let '(ack, c') := call (λ v, member "tx_hash" v ≫= as_string) c "suwappu_submitIntent"
    (Object [("intent", Str (hex0x intent)); ("signature", Str (hex0x signature));
             ("signer_pubkey_hash", Str (hex0x h))]%string) in
  (let! text := ack in
   let! b := ok_or (hex_decode (Server.strip_hex text)) Deserialize in
   if bool_decide (length b = 32) then Ok b else Err Deserialize, c').
End sdk.
End Sdk.

(** ** What the server and the SDK promise *)

Section server.
Context `{HB : Blake3, HM : MlDsa65, HN : Bincode, HE : HexEncode, HD : BincodeDecode, HX : Hex}.

Lemma submit_method_frame s p now res s' : Server.submit_method s p now = (res, s') → (∃ v, res = Ok v) ∨ s' = s.
Proof.
  unfold Server.submit_method. destruct (Server.submit_fields p) as [[[i sig] h]|e|]; [|intros [= <- <-]; by right..].
  destruct (submit_intent s i sig h now) as [[r s1]|] eqn:E; [|intros [= <- <-]; by right].
  pose proof (rpc_submit_spec _ _ _ _ _ _ _ E) as H. destruct r; [|subst s1|done]; intros [= <- <-]; [left; eauto|by right].
Qed.

(** Only an accepted submission changes the node; a request that fails, and every
    other method, leaves it as it was.  The signer never changes. *)
Theorem dispatch_frame sv m p now res sv' :
  Server.dispatch sv m p now = (res, sv') →
  Server.signer sv' = Server.signer sv ∧
  (node sv' = node sv ∨ m = "suwappu_submitIntent"%string ∧ ∃ v, res = Ok v).
Proof.
  unfold Server.dispatch.
  do 7 (destruct (String.eqb m _); [intros [= <- <-]; split; [done|by left]|]).
  destruct (String.eqb m _).
  { unfold Server.get_header_attestation. destruct (Server.expect_no_params p); [|intros [= <- <-]; split; [done|by left]..].
    destruct (header_attestation _ _ _) as [[att ch]|]; intros [= <- <-]; (split; [done|by left]). }
  destruct (String.eqb_spec m "suwappu_submitIntent"); [|intros [= <- <-]; split; [done|by left]].
  destruct (Server.submit_method _ _ _) as [r s1] eqn:E. intros [= <- <-]. split; [done|]. simpl.
  destruct (submit_method_frame _ _ _ _ _ E) as [?| ->]; [by right|by left].
Qed.

(** Every answer is a version 2.0 envelope with exactly one of a result and an
    error, and echoes the identifier of the request, null when there is none to
    read; a request over the rate is answered with the error reserved for it and
    does not reach the node. *)
Theorem serve_well_formed l sv ip body now resp l' sv' :
  Server.serve l sv ip body body now = Some (resp, l', sv') →
  Server.r_jsonrpc resp = "2.0"%string ∧
  (is_Some (Server.result resp) ↔ Server.error resp = None) ∧
  (Server.r_id resp = Null ∨ Some (Server.r_id resp) = body ≫= member "id") ∧
  ((PerIp.middleware l ip now).1 = false → sv' = sv ∧ Server.error resp = Some (-32099)%Z).
Proof.
  unfold Server.serve. destruct (PerIp.middleware l ip now) as [[] l1]; simpl.
  - unfold Server.handle_rpc. destruct (body ≫= Server.request_of_value) as [req|] eqn:Er.
    + assert (Some (Server.id req) = body ≫= member "id") as Ei.
      { destruct body as [v|]; [|done]. simpl in *. unfold Server.request_of_value in Er.
        destruct (member "jsonrpc" v ≫= as_string); [|done]. simpl in Er. destruct (member "id" v) as [i|]; [|done]. simpl in Er.
        destruct (member "method" v ≫= as_string); [|done]. by injection Er as <-. }
      destruct (negb _); simpl; [intros [= <- <- <-]|destruct (Server.dispatch _ _ _ _) as [[v|e|] sv1]; [..|done];
        simpl; intros [= <- <- <-]]; (split_and!; [done|split; [by intros []|done] || (split; [done|by eexists])|by right|done]).
    + simpl. intros [= <- <- <-]. split_and!; [done|split; [by intros []|done]|by left|done].
  - intros [= <- <- <-]. split_and!; [done|split; [by intros []|done]| |done]. simpl. unfold Server.peek_jsonrpc_id.
    destruct (body ≫= member "id"); [by right|by left].
Qed.

(** The client of a node. *)
Definition connect (sv : Server.Server) (now_ms i : N) : Sdk.Client :=
  Sdk.mk_client (λ body, fst <$> Server.handle_rpc sv (Some body) now_ms) i.

(** What the SDK makes of a handler's result. *)
Definition answer {A} (dec : Value → option A) (r : outcome Server.RpcError Value) : outcome Sdk.Error A :=
  match r with
  | Ok Null => Err Sdk.MalformedResponse
  | Ok v => ok_or (dec v) Sdk.Deserialize
  | Err e => Err (Sdk.Rpc (Server.code e))
  | Panic => Err Sdk.Transport
  end.

Lemma call_server {A} (dec : Value → option A) sv now i m p :
  (Sdk.call dec (connect sv now i) m p).1 = answer dec (Server.dispatch sv m p now).1.
Proof.
  unfold Sdk.call, connect. cbn [Sdk.post Sdk.next_id fst]. unfold Server.handle_rpc.
  assert (Some (Sdk.request i m p) ≫= Server.request_of_value = Some (Server.mk_request "2.0" (uint i) m p)) as -> by done.
  cbn -[Server.dispatch]. by destruct (Server.dispatch sv m p now) as [[[]|e|] sv'].
Qed.

Lemma decoded {A} `{Serde A} (a : A) : fits a → to_value a ≠ Null →
  answer from_value (Ok (to_value a)) = Ok a.
Proof. intros Hf Hn. unfold answer. pose proof (from_to a Hf) as E. by destruct (to_value a); rewrite ?E. Qed.

(** A call of a method, at the method. *)
Ltac at_method := rewrite call_server; unfold Server.dispatch; cbn [String.eqb Ascii.eqb Bool.eqb fst].

(** An attestation that does not exist yet is answered with null, which the SDK
    reports as a malformed response. *)
Theorem null_result_malformed {A} (dec : Value → option A) sv now i :
  latest_bridge_header (inner (node sv)) = None →
  (Sdk.call dec (connect sv now i) "suwappu_getHeaderAttestation" Null).1 = Err Sdk.MalformedResponse.
Proof.
  intros Hn. at_method.
  unfold Server.get_header_attestation, header_attestation. cbn [Server.expect_no_params]. rewrite Hn.
  by destruct (Server.signer sv).
Qed.

(** *** The SDK implements the adapter *)

Hypothesis hex_roundtrip : ∀ b, hex_decode (hex_encode b) = Some b.

Lemma strip_hex0x b : Server.strip_hex (hex0x b) = hex_encode b.
Proof. reflexivity. Qed.

Lemma decode_hex0x b : Server.decode_hex_field (hex0x b) = Ok b.
Proof. unfold Server.decode_hex_field. by rewrite strip_hex0x, hex_roundtrip. Qed.

Lemma stake_named s a : (a < width 32)%N →
  Server.get_stake s (Object [("authority_id"%string, uint a)]) =
    match stake_for s a with
    | Some x => Ok (Object [("id", uint a); ("stake_suwappu", Str (pretty x))]%string)
    | None => Err Server.NotFound
    end.
Proof. intros Ha. unfold Server.get_stake, Server.one_param. cbn -[as_uint uint]. by rewrite Json.as_uint_uint. Qed.

Lemma balance_named s a : length a = 20 →
  Server.get_balance s (Object [("address"%string, Str (hex0x a))]) =
    Ok (Object [("address", Str (hex0x a)); ("balance", Str (pretty (balance_for s a)))]%string).
Proof.
  intros Ha. unfold Server.get_balance, Server.one_param. cbn -[Server.decode_hex_field hex0x]. rewrite decode_hex0x.
  cbn -[hex0x]. unfold Server.exactly. by rewrite bool_decide_true.
Qed.

Lemma block_named s r : (r < width 64)%N →
  Server.get_block s (Object [("round"%string, uint r)]) =
    match block_at_round s r with
    | None => Panic
    | Some (Some view) => Ok (to_value view)
    | Some None => Err Server.NotFound
    end.
Proof. intros Hr. unfold Server.get_block, Server.one_param. cbn -[as_uint uint to_value]. by rewrite Json.as_uint_uint. Qed.

Lemma tx_named s h : length h = 32 →
  Server.get_transaction s (Object [("tx_hash"%string, Str (hex0x h))]) =
    match transaction_by_hash s h with Some view => Ok (to_value view) | None => Err Server.NotFound end.
Proof.
  intros Ha. unfold Server.get_transaction, Server.one_param. cbn -[Server.decode_hex_field hex0x to_value]. rewrite decode_hex0x.
  cbn -[hex0x to_value]. unfold Server.exactly. by rewrite bool_decide_true.
Qed.

(** Through the JSON of both sides, each call of the SDK returns what the adapter
    reads in the node's state, a missing block, transaction or stake as [None];
    a submission returns the hash the adapter answers, or the code of its error. *)
Theorem sdk_refines_adapter sv now i (s := node sv) (c := connect sv now i) :
  (fits (epoch_snapshot s) → (Sdk.get_epoch c).1 = Ok (epoch_snapshot s)) ∧
  (fits (authority_snapshot s) → (Sdk.get_authority_registry c).1 = Ok (authority_snapshot s)) ∧
  (fits (validator_snapshot s) → (Sdk.get_validator_registry c).1 = Ok (validator_snapshot s)) ∧
  (∀ a, (a < width 32)%N → (Sdk.get_stake c a).1 = Ok ((λ x, Sdk.mk_stake a (pretty x)) <$> stake_for s a)) ∧
  (∀ a, length a = 20 → (Sdk.get_balance c a).1 = Ok (Sdk.mk_balance (hex0x a) (pretty (balance_for s a)))) ∧
  (∀ r v, (r < width 64)%N → block_at_round s r = Some v → (∀ b, v = Some b → fits b) → (Sdk.get_block c r).1 = Ok v) ∧
  (∀ h, length h = 32 → (∀ t, transaction_by_hash s h = Some t → fits t) →
     (Sdk.get_transaction c h).1 = Ok (transaction_by_hash s h)) ∧
  (∀ raw sig h, length h = 32 →
     match submit_intent s raw sig h now with
     | Some (Ok x, _) => length x = 32 → (Sdk.submit_intent_raw c raw sig h).1 = Ok x
     | Some (Err e, _) => (Sdk.submit_intent_raw c raw sig h).1 = Err (Sdk.Rpc (Server.code (Server.submit_error e)))
     | _ => (Sdk.submit_intent_raw c raw sig h).1 = Err Sdk.Transport
     end).
Proof.
  subst c. split_and!.
  - intros Hf. unfold Sdk.get_epoch. at_method. exact (decoded _ Hf ltac:(done)).
  - intros Hf. unfold Sdk.get_authority_registry. at_method. exact (decoded _ Hf ltac:(done)).
  - intros Hf. unfold Sdk.get_validator_registry. at_method. exact (decoded _ Hf ltac:(done)).
  - intros a Ha. unfold Sdk.get_stake, Sdk.optional. cbn [fst]. at_method.
    rewrite stake_named by done. fold s. destruct (stake_for s a); [|done]. cbn -[as_uint uint]. by rewrite Json.as_uint_uint.
  - intros a Ha. unfold Sdk.get_balance. at_method. by rewrite balance_named.
  - intros r v Hr Hv Hf. unfold Sdk.get_block, Sdk.optional. cbn [fst]. at_method.
    rewrite block_named by done. fold s. rewrite Hv. destruct v as [b|]; [|done].
    by rewrite (decoded b) by auto.
  - intros h Hh Hf. unfold Sdk.get_transaction, Sdk.optional. cbn [fst]. at_method.
    rewrite tx_named by done. fold s. destruct (transaction_by_hash s h) as [t|]; [|done].
    by rewrite (decoded t) by auto.
  - intros raw sig h Hh. unfold Sdk.submit_intent_raw.
    match goal with |- context [Sdk.call ?d ?c ?m ?p] => pose proof (call_server d sv now i m p) as Ec; destruct (Sdk.call d c m p) as [ack c'] end.
    cbn -[submit_intent hex0x Server.submit_method] in Ec. simpl fst in *.
    unfold Server.submit_method in Ec.
    match type of Ec with context [Server.submit_fields ?p] => assert (Server.submit_fields p = Ok (raw, sig, h)) as Ef end.
    { unfold Server.submit_fields. cbn -[Server.decode_hex_field hex0x]. rewrite !decode_hex0x. cbn.
      unfold Server.exactly. by rewrite bool_decide_true. }
    rewrite Ef in Ec. fold s in Ec. destruct (submit_intent s raw sig h now) as [[[x|e|] s']|]; cbn -[hex0x] in Ec; subst ack; cbn -[hex0x]; try done.
    intros Hx. rewrite strip_hex0x, hex_roundtrip. simpl. by rewrite bool_decide_true.
Qed.
End server.
