(* ===== verification/Metrics.v ===== *)
(** * The event-log analyser ([suwappu-node/src/bin/suwappu-metrics.rs])

    The five reports computed from the validators' event logs, as the rows they
    print.  Argument parsing, files and the rendering of a row (with the
    floating-point rate of the throughput report) are left out; the JSON parser is
    a parameter. *)

From Stdlib Require Import Strings.Ascii Strings.String.
From S2P Require Import Prelude ExecTypes NodeState NodeCommit Rpc Indexer.

(** Strings are ordered by their bytes. *)
Definition string_le (s t : string) : Prop := key_le (list_byte_of_string s) (list_byte_of_string t).
#[global] Instance string_le_dec : RelDecision string_le := λ s t, key_le_dec _ _.
Lemma list_byte_of_string_inj : Inj (=) (=) list_byte_of_string.
Proof. intros s t E. by rewrite <-(string_of_list_byte_of_string s), E, string_of_list_byte_of_string. Qed.
#[global] Program Instance string_key_order : KeyOrder string := {| key_le := string_le |}.
Next Obligation. intros s. unfold string_le. reflexivity. Qed.
Next Obligation. intros s t u. unfold string_le. apply transitivity. Qed.
Next Obligation. intros s t H1 H2. by apply list_byte_of_string_inj, (anti_symm key_le). Qed.
Next Obligation. intros s t. unfold string_le. apply (total key_le). Qed.

Module Metrics.

(** The fields of a log line the analyser reads. *)
Record Event := mk {
  t_ms : N;
  region : string;
  lane : string;
  event : string;
  cert_hash : option string;
  tx_hash : option string;
  peer : option string;
  intent_hashes : option (list string);
}.

(** A line of [events.rs] as the analyser parses it. *)
Definition parsed (e : Events.Event) : Event :=
  mk (Events.t_ms e) (Events.region e) (Events.lane_name (Events.lane e)) (Events.event e) (Events.cert_hash e)
    (Events.tx_hash e) (Events.peer e) (Events.intent_hashes e).

(** [serde_json::from_str]. *)
Class LineParser := parse_line : string → option Event.

(** [trim().is_empty()] on ASCII. *)
Fixpoint blank (s : string) : bool :=
  match s with
  | EmptyString => true
  | String c rest =>
      let n := N_of_ascii c in
      (bool_decide (n = 32)%N || bool_decide (9 ≤ n ∧ n ≤ 13)%N) && blank rest
  end.

Section load.
Context `{HP : LineParser}.

Definition load_line (r : string) (line : string) : option Event :=
  if blank line then None
  else ev ← parse_line line; if bool_decide (region ev ≠ r) then None else Some ev.

Definition load (logs : list (string * list string)) : list Event :=
  logs ≫= λ p, omap (load_line p.1) p.2.
End load.

(** ** [cert]: the life of a certificate *)

Record CertRow := mk_row {
  proposed_ms : option N;
  received_ms : option N;
  voted_ms : option N;
  committed_ms : option N;
}.

Definition stamp (verb : string) (t : N) (r : CertRow) : CertRow :=
  if bool_decide (verb = "proposed"%string) then mk_row (Some t) (received_ms r) (voted_ms r) (committed_ms r)
  else if bool_decide (verb = "received"%string) then mk_row (proposed_ms r) (Some t) (voted_ms r) (committed_ms r)
  else if bool_decide (verb = "voted"%string) then mk_row (proposed_ms r) (received_ms r) (Some t) (committed_ms r)
  else if bool_decide (verb = "committed"%string) then mk_row (proposed_ms r) (received_ms r) (voted_ms r) (Some t)
  else r.

Definition cert_step (l : string) (m : gmap (string * string) CertRow) (ev : Event) : gmap (string * string) CertRow :=
  if bool_decide (lane ev ≠ l) then m
  else match (match cert_hash ev with Some h => Some h | None => tx_hash ev end) with
       | None => m
       | Some hash =>
           let key := (hash, region ev) in
           <[key := stamp (event ev) (t_ms ev) (default (mk_row None None None None) (m !! key))]> m
       end.

Definition cert_mode (evs : list Event) (l : string) : list (string * string * CertRow) :=
  btree_entries (foldl (cert_step l) ∅ evs).

(** ** [e2e]: from submission to finality *)

(** [entry(k).and_modify(min).or_insert(v)] *)
Definition note_min {K} `{Countable K} (k : K) (v : N) (m : gmap K N) : gmap K N :=
  <[k := match m !! k with Some prev => if bool_decide (v < prev)%N then v else prev | None => v end]> m.

(** [str::split(',')] *)
Fixpoint split_comma (s : string) : list string :=
  match s with
  | EmptyString => [EmptyString]
  | String c rest =>
      if bool_decide (N_of_ascii c = 44%N) then EmptyString :: split_comma rest
      else match split_comma rest with
           | part :: parts => String c part :: parts
           | [] => [String c EmptyString]
           end
  end.

(** [str::parse::<u64>]: the digits of a wider integer that fits. *)
Definition parse_u64 (s : string) : option N :=
  n ← parse_u128 s; if bool_decide (n < width 64)%N then Some n else None.

Definition csv_row (line : string) : option (string * N) :=
  if blank line then None
  else match split_comma line with
       | ms :: h :: _ => n ← parse_u64 ms; Some (h, n)
       | _ => None
       end.

(** The load generator's rows after the header. *)
Definition submissions (csv : list string) : gmap string N :=
  foldl (λ m p, note_min p.1 p.2 m) ∅ (omap csv_row (drop 1 csv)).

Definition campaign_window (start end_ : N) : N * N :=
  (if bool_decide (0 < start)%N then (start - 5000)%N else 0%N,
   if bool_decide (0 < end_)%N then saturating_add 64 end_ 60000 else (width 64 - 1)%N).

Definition in_window (start end_ : N) (ev : Event) : bool :=
  let '(lo, hi) := campaign_window start end_ in
  negb ((bool_decide (0 < start)%N || bool_decide (0 < end_)%N) &&
        (bool_decide (t_ms ev < lo)%N || bool_decide (hi < t_ms ev)%N)).

Definition commit_step (start end_ : N) (m : gmap (string * string) N) (ev : Event) : gmap (string * string) N :=
  if bool_decide (event ev ≠ "committed"%string) then m
  else if negb (in_window start end_ ev) then m
  else match intent_hashes ev with
       | None => m
       | Some hs => foldl (λ m tx, note_min (tx, region ev) (t_ms ev) m) m hs
       end.

Record E2eRow := mk_e2e {
  e_tx_hash : string;
  submitted_ms : option N;
  e_region : string;
  first_committed_ms : N;
  latency_ms : option N;
}.

(** The row of a pair, unless the commit precedes the submission. *)
Definition e2e_row (submitted : gmap string N) (p : string * string * N) : option E2eRow :=
  let '(tx, r, committed) := p in
  let s := submitted !! tx in
  let row := mk_e2e tx s r committed ((λ s, (committed - s)%N) <$> s) in
  match s with
  | Some t => if bool_decide (committed < t)%N then None else Some row
  | None => Some row
  end.

(** The rows in the order of a hash map: any order. *)
Definition e2e_mode (evs : list Event) (csv : list string) (start end_ : N) : list E2eRow :=
  omap (e2e_row (submissions csv)) (map_to_list (foldl (commit_step start end_) ∅ evs)).

(** ** [pair]: the edges of the mesh *)

Definition pair_step (m : gmap (string * string) N) (ev : Event) : gmap (string * string) N :=
  if bool_decide (event ev ≠ "received"%string) then m
  else match peer ev with
       | None => m
       | Some p => <[(region ev, p) := wrap 64 (default 0%N (m !! (region ev, p)) + 1)]> m
       end.
Definition pair_mode (evs : list Event) : list (string * string * N) := btree_entries (foldl pair_step ∅ evs).

(** ** [tps]: throughput *)

Definition intents_of (ev : Event) : N :=
  match intent_hashes ev with
  | Some (h :: hs) => N.of_nat (length (h :: hs))
  | _ => 1%N
  end.

Definition bucket_of (bucket_ms : N) (ev : Event) : N := ((t_ms ev / bucket_ms) * bucket_ms)%N.

Definition tps_step (bucket_ms : N) (m : gmap N (gset string * N)) (ev : Event) : gmap N (gset string * N) :=
  if bool_decide (event ev ≠ "committed"%string) then m
  else
    let '(certs, n) := default (∅, 0%N) (m !! bucket_of bucket_ms ev) in
    let certs' := match cert_hash ev with Some h => {[h]} ∪ certs | None => certs end in
    <[bucket_of bucket_ms ev := (certs', wrap 64 (n + intents_of ev))]> m.

(** [None]: the division by a zero width.  A row is the window, the certificates
    and the intents. *)
Definition tps_mode (evs : list Event) (bucket_ms : N) : option (list (N * N * nat * N)) :=
  if bool_decide (bucket_ms = 0%N ∧ Exists (λ ev, event ev = "committed"%string) evs) then None
  else Some ((λ e : N * (gset string * N), (e.1, wrap 64 (e.1 + bucket_ms), size e.2.1, e.2.2))
             <$> btree_entries (foldl (tps_step bucket_ms) ∅ evs)).

(** ** [recovery]: outages *)

Definition times_step (m : gmap string (list N)) (ev : Event) : gmap string (list N) :=
  if bool_decide (event ev = "committed"%string)
  then <[region ev := default [] (m !! region ev) ++ [t_ms ev]]> m else m.

(** [windows(2)] *)
Definition windows2 (l : list N) : list (N * N) := zip l (tail l).

Definition gaps (threshold_ms : N) (times : list N) : list (N * N) :=
  filter (λ w, threshold_ms < w.2 - w.1)%N (windows2 (sort_by_key id times)).

Definition recovery_mode (evs : list Event) (threshold_ms : N) : list (string * N * N * N) :=
  btree_entries (foldl times_step ∅ evs) ≫= λ e, (λ w, (e.1, w.1, w.2, (w.2 - w.1)%N)) <$> gaps threshold_ms e.2.

(** ** What the reports show *)

(** What a log line is about. *)
Definition subject (ev : Event) : option string :=
  match cert_hash ev with Some h => Some h | None => tx_hash ev end.
Definition about (l : string) (k : string * string) (ev : Event) : Prop :=
  lane ev = l ∧ subject ev = Some k.1 ∧ region ev = k.2.
#[global] Instance about_dec l k ev : Decision (about l k ev).
Proof. unfold about. apply _. Defined.

(** The time of the last line of a kind about a certificate. *)
Definition last_stamp (l verb : string) (k : string * string) (evs : list Event) : option N :=
  last (omap (λ ev, if decide (about l k ev ∧ event ev = verb) then Some (t_ms ev) else None) evs).
Definition life (l : string) (k : string * string) (evs : list Event) : CertRow :=
  mk_row (last_stamp l "proposed" k evs) (last_stamp l "received" k evs) (last_stamp l "voted" k evs)
    (last_stamp l "committed" k evs).

Lemma last_stamp_snoc l verb k evs ev :
  last_stamp l verb k (evs ++ [ev]) =
    if decide (about l k ev ∧ event ev = verb) then Some (t_ms ev) else last_stamp l verb k evs.
Proof.
  unfold last_stamp. rewrite omap_app. simpl. destruct (decide _); [by rewrite last_snoc|by rewrite app_nil_r].
Qed.

Lemma life_snoc l k evs ev :
  life l k (evs ++ [ev]) = if decide (about l k ev) then stamp (event ev) (t_ms ev) (life l k evs) else life l k evs.
Proof.
  unfold life. rewrite !last_stamp_snoc. destruct (decide (about l k ev)) as [Ha|Hn].
  - rewrite (decide_ext (_ ∧ event ev = "proposed"%string) (event ev = "proposed"%string)),
      (decide_ext (_ ∧ event ev = "received"%string) (event ev = "received"%string)),
      (decide_ext (_ ∧ event ev = "voted"%string) (event ev = "voted"%string)),
      (decide_ext (_ ∧ event ev = "committed"%string) (event ev = "committed"%string)) by naive_solver.
    unfold stamp. simpl. repeat case_bool_decide; repeat case_decide; congruence.
  - by rewrite !decide_False by naive_solver.
Qed.

Lemma cert_step_lookup l m ev k :
  cert_step l m ev !! k =
    if decide (about l k ev) then Some (stamp (event ev) (t_ms ev) (default (mk_row None None None None) (m !! k)))
    else m !! k.
Proof.
  unfold cert_step. fold (subject ev). case_bool_decide as Hl; [by rewrite decide_False by (unfold about; naive_solver)|].
  destruct (subject ev) as [h|] eqn:Es; [|by rewrite decide_False by (unfold about; naive_solver)].
  destruct (decide (k = (h, region ev))) as [->|Hk].
  - by rewrite lookup_insert_eq, decide_True.
  - rewrite lookup_insert_ne by done. rewrite decide_False; [done|]. destruct k. unfold about. naive_solver.
Qed.

(** The certificate report has one row for each certificate and region some line
    of the lane is about, with the time of the last line of each kind. *)
Theorem cert_mode_spec evs l k row :
  (k, row) ∈ cert_mode evs l ↔ Exists (about l k) evs ∧ row = life l k evs.
Proof.
  unfold cert_mode. rewrite elem_of_btree_entries.
  cut (foldl (cert_step l) ∅ evs !! k = if decide (Exists (about l k) evs) then Some (life l k evs) else None).
  { intros ->. case_decide; naive_solver. }
  induction evs as [|ev evs IH] using rev_ind; [done|].
  rewrite foldl_snoc, cert_step_lookup, life_snoc, IH.
  destruct (decide (about l k ev)) as [Ha|Ha].
  - rewrite (decide_True (P := Exists _ (evs ++ _))) by (rewrite Exists_app, Exists_cons; naive_solver).
    case_decide as He; [done|]. simpl. f_equal. unfold life, last_stamp.
    assert (∀ verb, omap (λ ev0, if decide (about l k ev0 ∧ event ev0 = verb) then Some (t_ms ev0) else None) evs = []) as E.
    { intros verb. clear -He. induction evs as [|e evs IHe]; [done|]. simpl.
      rewrite decide_False by (intros [? _]; apply He; by left). apply IHe. intros ?. apply He. by right. }
    by rewrite !E.
  - rewrite (decide_ext (Exists _ (evs ++ _)) (Exists (about l k) evs)); [done|].
    rewrite Exists_app, Exists_cons, Exists_nil. naive_solver.
Qed.

(** *** Minima *)

Definition least {K} (ps : list (K * N)) (k : K) (v : N) : Prop :=
  (k, v) ∈ ps ∧ ∀ w, (k, w) ∈ ps → (v ≤ w)%N.

Lemma least_exists {K} `{EqDecision K} (ps : list (K * N)) k w : (k, w) ∈ ps → ∃ u, least ps k u.
Proof.
  intros Hw. set (l := omap (λ p, if decide (p.1 = k) then Some p.2 else None) ps).
  assert (∀ u, u ∈ l ↔ (k, u) ∈ ps) as Hl.
  { intros u. unfold l. rewrite list_elem_of_omap. split.
    - intros ([k' u'] & Hp & E). simpl in E. case_decide; naive_solver.
    - intros Hu. exists (k, u). simpl. by rewrite decide_True. }
  pose proof (list_min_spec l) as Hm. destruct (list_min l) as [u|].
  - destruct Hm as [Hu Hm]. exists u. split; [by apply Hl|]. intros v Hv%Hl. exact (Hm v Hv).
  - apply Hl in Hw. rewrite Hm in Hw. by apply elem_of_nil in Hw.
Qed.

Lemma note_min_fold {K} `{Countable K} (ps : list (K * N)) k v :
  foldl (λ m p, note_min p.1 p.2 m) ∅ ps !! k = Some v ↔ least ps k v.
Proof.
  revert v. induction ps as [|[k' x] ps IH] using rev_ind; intros v.
  { split; [simpl; by rewrite lookup_empty|]. intros [[]%elem_of_nil _]. }
  rewrite foldl_snoc. simpl. unfold note_min. destruct (decide (k = k')) as [<-|Hne].
  - rewrite lookup_insert_eq. unfold least. setoid_rewrite elem_of_app. setoid_rewrite list_elem_of_singleton.
    destruct (foldl _ _ _ !! k) as [prev|] eqn:E.
    + destruct (proj1 (IH prev) eq_refl) as [Hin Hle]. case_bool_decide as Hx; split.
      * intros [= <-]. split; [by right|]. intros w [Hw|[= ->]]; [specialize (Hle w Hw)|]; lia.
      * intros [[Hv|[= ->]] Hall]; [|done]. specialize (Hall x ltac:(by right)). specialize (Hle v Hv). lia.
      * intros [= <-]. split; [by left|]. intros w [Hw|[= ->]]; [by apply Hle|lia].
      * intros [[Hv|[= ->]] Hall]; f_equal; specialize (Hall prev ltac:(by left)); [specialize (Hle v Hv)|]; lia.
    + assert (∀ w, (k, w) ∉ ps) as Hno.
      { intros w Hw. destruct (least_exists ps k w Hw) as [u Hu]. apply IH in Hu. done. }
      split; [intros [= <-]; split; [by right|]; intros w [Hw|[= ->]]; [by destruct (Hno w)|lia]|].
      intros [[Hv|[= ->]] _]; [by destruct (Hno v)|done].
  - rewrite lookup_insert_ne by done. rewrite IH. unfold least. setoid_rewrite elem_of_app.
    setoid_rewrite list_elem_of_singleton. naive_solver.
Qed.

(** *** End to end *)

(** The commits an event contributes to the join. *)
Definition commits (start end_ : N) (ev : Event) : list (string * string * N) :=
  if decide (event ev = "committed"%string ∧ in_window start end_ ev = true)
  then (λ tx, (tx, region ev, t_ms ev)) <$> default [] (intent_hashes ev) else [].

Lemma commit_fold start end_ evs m :
  foldl (commit_step start end_) m evs = foldl (λ m p, note_min p.1 p.2 m) m (evs ≫= commits start end_).
Proof.
  revert m. induction evs as [|ev evs IH]; intros m; [done|]. rewrite bind_cons, foldl_app. simpl. rewrite IH. f_equal.
  unfold commit_step, commits. case_bool_decide as He; [by rewrite decide_False by naive_solver|].
  destruct (in_window start end_ ev); simpl; [|by rewrite decide_False by naive_solver].
  rewrite decide_True by done. destruct (intent_hashes ev) as [hs|]; [|done]. simpl.
  revert m. induction hs as [|h hs IHh]; intros m; [done|]. simpl. apply IHh.
Qed.

(** The finality report has a row for a transaction and region exactly if the
    first commit of the window does not precede the submission; the row shows
    that commit, the earliest submission and their difference. *)
Theorem e2e_mode_spec evs csv start end_ row :
  row ∈ e2e_mode evs csv start end_ ↔
    least (evs ≫= commits start end_) (e_tx_hash row, e_region row) (first_committed_ms row) ∧
    submitted_ms row = submissions csv !! e_tx_hash row ∧
    latency_ms row = (λ s, (first_committed_ms row - s)%N) <$> submitted_ms row ∧
    ∀ s, submitted_ms row = Some s → (s ≤ first_committed_ms row)%N.
Proof.
  unfold e2e_mode. rewrite list_elem_of_omap. setoid_rewrite elem_of_map_to_list'. setoid_rewrite commit_fold.
  setoid_rewrite <-note_min_fold. split.
  - intros ([[tx r] c] & Hc & E). unfold e2e_row in E. simpl in Hc.
    destruct (submissions csv !! tx) as [s|] eqn:Es; [case_bool_decide; [done|]|]; injection E as <-; simpl;
      (split_and!; [done|done|done|]); intros ? [= <-]; lia.
  - destruct row as [tx s r c lat]. simpl. intros (Hc & -> & -> & Hs). exists (tx, r, c). split; [done|].
    unfold e2e_row. destruct (submissions csv !! tx) as [t|]; [|done].
    specialize (Hs t eq_refl). rewrite bool_decide_false by lia. done.
Qed.

(** One stale commit of a transaction in a region hides every later one: the
    filter runs after the minimum. *)
Theorem stale_commit_hides_row evs csv start end_ tx r s t :
  submissions csv !! tx = Some s → (tx, r, t) ∈ evs ≫= commits start end_ → (t < s)%N →
  ∀ row, row ∈ e2e_mode evs csv start end_ → (e_tx_hash row, e_region row) ≠ (tx, r).
Proof.
  intros Hs Ht Hlt row (Hl & Esub & _ & Hle)%e2e_mode_spec [= E1 E2]. rewrite E1, E2 in *.
  destruct Hl as [_ Hmin]. specialize (Hmin t Ht). rewrite Hs in Esub. specialize (Hle s Esub). lia.
Qed.

(** *** Counts *)

Definition edge (k : string * string) (ev : Event) : Prop :=
  event ev = "received"%string ∧ region ev = k.1 ∧ peer ev = Some k.2.
#[global] Instance edge_dec k ev : Decision (edge k ev).
Proof. unfold edge. apply _. Defined.

(** The mesh report counts, for each receiver and sender with one, the lines
    received. *)
Theorem pair_mode_spec evs k n :
  (N.of_nat (length evs) < width 64)%N →
  (k, n) ∈ pair_mode evs ↔ n = N.of_nat (length (filter (edge k) evs)) ∧ (0 < n)%N.
Proof.
  intros Hlen. unfold pair_mode. rewrite elem_of_btree_entries.
  cut (foldl pair_step ∅ evs !! k = let c := length (filter (edge k) evs) in if decide (c = 0) then None else Some (N.of_nat c)).
  { intros ->. simpl. case_decide; split; [done|lia|by intros [= <-]; split; [done|lia]|by intros [-> _]]. }
  induction evs as [|ev evs IH] using rev_ind; [done|]. rewrite length_app in Hlen. simpl in Hlen.
  specialize (IH ltac:(lia)). rewrite foldl_snoc, filter_app, length_app, filter_cons, filter_nil.
  pose proof (length_filter (edge k) evs) as Hf. unfold pair_step at 1.
  case_bool_decide as He; [rewrite (decide_False (P := edge k ev)) by (unfold edge; naive_solver); simpl; by rewrite Nat.add_0_r|].
  destruct (peer ev) as [p|] eqn:Ep; [|rewrite (decide_False (P := edge k ev)) by (unfold edge; naive_solver); simpl; by rewrite Nat.add_0_r].
  destruct (decide (k = (region ev, p))) as [->|Hk].
  - rewrite lookup_insert_eq, IH, (decide_True (P := edge _ ev)) by done. simpl. case_decide as E0.
    + rewrite E0. simpl. rewrite wrap_small by lia. done.
    + simpl. rewrite decide_False by lia. f_equal. rewrite wrap_small; lia.
  - rewrite lookup_insert_ne by done. rewrite (decide_False (P := edge k ev)) by (destruct k; unfold edge; naive_solver).
    simpl. by rewrite Nat.add_0_r.
Qed.

(** *** Throughput *)

Definition in_bucket (w b : N) (ev : Event) : Prop := event ev = "committed"%string ∧ bucket_of w ev = b.
#[global] Instance in_bucket_dec w b ev : Decision (in_bucket w b ev).
Proof. unfold in_bucket. apply _. Defined.

Lemma in_bucket_window w b ev : (0 < w)%N → in_bucket w b ev → (b ≤ t_ms ev < b + w)%N.
Proof.
  intros Hw [_ <-]. unfold bucket_of. destruct (div_mod_N (t_ms ev) w) as (q & r & -> & _ & -> & Hr); [lia|]. lia.
Qed.

Definition bucket_certs (w b : N) (evs : list Event) : gset string :=
  list_to_set (omap cert_hash (filter (in_bucket w b) evs)).
Definition bucket_intents (w b : N) (evs : list Event) : N :=
  sum_N (intents_of <$> filter (in_bucket w b) evs).

Lemma bucket_intents_le w b evs : (bucket_intents w b evs ≤ sum_N (intents_of <$> evs))%N.
Proof.
  unfold bucket_intents. induction evs as [|ev evs IH]; [done|]. rewrite filter_cons.
  case_decide; rewrite !fmap_cons, ?sum_N_cons; lia.
Qed.

Lemma tps_fold_lookup w b evs :
  (sum_N (intents_of <$> evs) < width 64)%N →
  foldl (tps_step w) ∅ evs !! b =
    if decide (Exists (in_bucket w b) evs) then Some (bucket_certs w b evs, bucket_intents w b evs) else None.
Proof.
  induction evs as [|ev evs IH] using rev_ind; intros Hs; [done|]. rewrite fmap_app, sum_N_app in Hs. simpl in Hs.
  specialize (IH ltac:(lia)). pose proof (bucket_intents_le w b evs) as Hle. rewrite foldl_snoc.
  unfold bucket_certs, bucket_intents in *. rewrite filter_app, filter_cons, filter_nil. unfold tps_step at 1.
  destruct (decide (in_bucket w b ev)) as [Hb|Hb].
  - rewrite (decide_True (P := Exists _ (evs ++ _))) by (rewrite Exists_app, Exists_cons; naive_solver).
    destruct Hb as [He <-]. rewrite bool_decide_false by naive_solver. rewrite IH.
    rewrite omap_app, fmap_app, sum_N_app, list_to_set_app_L. simpl. rewrite N.add_0_r.
    case_decide as Hx; simpl.
    + rewrite lookup_insert_eq, wrap_small by lia. do 2 f_equal. destruct (cert_hash ev); set_solver.
    + assert (filter (in_bucket w (bucket_of w ev)) evs = []) as ->.
      { apply filter_none. intros x Hin Hx'. apply Hx, Exists_exists. by exists x. }
      rewrite lookup_insert_eq, wrap_small by lia. simpl. do 2 f_equal. destruct (cert_hash ev); set_solver.
  - rewrite !app_nil_r, (decide_ext (Exists _ (evs ++ _)) (Exists (in_bucket w b) evs))
      by (rewrite Exists_app, Exists_cons, Exists_nil; naive_solver).
    case_bool_decide as He; [exact IH|]. destruct (default _ _) as [cs n].
    rewrite lookup_insert_ne; [exact IH|]. intros E. apply Hb. by split.
Qed.

(** The throughput report fails exactly with a zero width and a commit to place;
    otherwise it has one row for each window with a commit, counting its distinct
    certificates and its intents, a commit without a list of intents as one. *)
Theorem tps_mode_spec evs w :
  (sum_N (intents_of <$> evs) < width 64)%N →
  match tps_mode evs w with
  | None => w = 0%N ∧ Exists (λ ev, event ev = "committed"%string) evs
  | Some rows =>
      ∀ b e c n, (b, e, c, n) ∈ rows ↔
        Exists (in_bucket w b) evs ∧ e = wrap 64 (b + w) ∧ c = size (bucket_certs w b evs) ∧ n = bucket_intents w b evs
  end.
Proof.
  intros Hs. unfold tps_mode. case_bool_decide as H0; [done|]. intros b e c n. rewrite list_elem_of_fmap. split.
  - intros ([b' [cs m]] & [= -> -> -> ->] & Hin%elem_of_btree_entries). simpl in *.
    rewrite tps_fold_lookup in Hin by done. case_decide; [|done]. injection Hin as <- <-. done.
  - intros (Hb & -> & -> & ->). exists (b, (bucket_certs w b evs, bucket_intents w b evs)). split; [done|].
    rewrite elem_of_btree_entries, tps_fold_lookup by done. by rewrite decide_True.
Qed.

(** *** Outages *)

Lemma windows2_sorted L a b :
  StronglySorted N.le L → (a < b)%N →
  (a, b) ∈ windows2 L ↔ a ∈ L ∧ b ∈ L ∧ ∀ t, t ∈ L → (t ≤ a ∨ b ≤ t)%N.
Proof.
  intros Hs Hab. induction L as [|x L IH]; [set_solver|]. inversion Hs as [|? ? Hs' Hx]; subst.
  rewrite Forall_forall in Hx. specialize (IH Hs'). destruct L as [|y L].
  { simpl. split; [by intros ?%elem_of_nil|]. intros (->%list_elem_of_singleton & ->%list_elem_of_singleton & _). lia. }
  assert (∀ t, t ∈ y :: L → (y ≤ t)%N) as Hy.
  { inversion Hs' as [|? ? _ Hy]; subst. rewrite Forall_forall in Hy.
    intros t [->|Ht]%elem_of_cons; [done|by apply Hy]. }
  change (windows2 (x :: y :: L)) with ((x, y) :: windows2 (y :: L)). rewrite elem_of_cons, IH. split.
  - intros [[= -> ->]|(Ha & Hb & Hall)].
    + split_and!; [set_solver..|]. intros t [->|Ht]%elem_of_cons; [by left|right; by apply Hy].
    + split_and!; [set_solver..|]. intros t [->|Ht]%elem_of_cons; [left; by apply Hx|by apply Hall].
  - intros (Ha & Hb & Hall). apply elem_of_cons in Ha, Hb.
    assert (b ∈ y :: L) as Hb' by (destruct Hb as [->|?]; [|done]; destruct Ha as [->|Ha]; [lia|specialize (Hx a Ha); lia]).
    destruct (decide (a ∈ y :: L)) as [Ha'|Ha'].
    + right. split_and!; [done|done|]. intros t Ht. apply Hall. by right.
    + destruct Ha as [->|?]; [|done]. left. f_equal. specialize (Hy b Hb'). specialize (Hx y ltac:(by left)).
      destruct (Hall y ltac:(set_solver)); [|lia]. destruct Ha'. replace x with y by lia. by left.
Qed.

Definition commit_times (r : string) (evs : list Event) : list N :=
  omap (λ ev, if decide (event ev = "committed"%string ∧ region ev = r) then Some (t_ms ev) else None) evs.

Lemma times_fold_lookup r evs :
  default [] (foldl times_step ∅ evs !! r) = commit_times r evs.
Proof.
  unfold commit_times. induction evs as [|ev evs IH] using rev_ind; [done|]. rewrite foldl_snoc, omap_app, <-IH.
  unfold times_step at 1. simpl. case_bool_decide as He; [|rewrite decide_False by naive_solver; by rewrite app_nil_r].
  destruct (decide (region ev = r)) as [<-|Hr].
  - by rewrite lookup_insert_eq, decide_True.
  - rewrite lookup_insert_ne, decide_False by naive_solver. by rewrite app_nil_r.
Qed.

(** The outage report lists, for each region, exactly the pairs of its commits
    further apart than the threshold with no commit of any lane in between. *)
Theorem recovery_mode_spec evs th r a b g :
  (r, a, b, g) ∈ recovery_mode evs th ↔
    a ∈ commit_times r evs ∧ b ∈ commit_times r evs ∧ g = (b - a)%N ∧ (th < g)%N ∧
    ∀ t, t ∈ commit_times r evs → (t ≤ a ∨ b ≤ t)%N.
Proof.
  unfold recovery_mode. rewrite list_elem_of_bind. setoid_rewrite list_elem_of_fmap.
  assert (∀ l, (th < b - a)%N → (a, b) ∈ gaps th l ↔ a ∈ l ∧ b ∈ l ∧ ∀ t, t ∈ l → (t ≤ a ∨ b ≤ t)%N) as Hg.
  { intros l Hth. unfold gaps. rewrite list_elem_of_filter, windows2_sorted; [|exact (sort_by_key_sorted id l)|lia].
    setoid_rewrite elem_of_sort_by_key. naive_solver. }
  split.
  - intros ([r' l] & ([a' b'] & [= <- <- <- ->] & Hin) & He%elem_of_btree_entries). simpl in *.
    assert (th < b - a)%N as Hth by (unfold gaps in Hin; by apply list_elem_of_filter in Hin as [? _]).
    apply Hg in Hin as (Ha & Hb & Hall); [|done].
    pose proof (times_fold_lookup r evs) as E. rewrite He in E. simpl in E. subst l. by split_and!.
  - intros (Ha & Hb & -> & Hth & Hall). rewrite <-times_fold_lookup in Ha, Hb, Hall.
    destruct (foldl times_step ∅ evs !! r) as [l|] eqn:E; [|by apply elem_of_nil in Ha].
    exists (r, l). split; [|by apply elem_of_btree_entries]. exists (a, b). split; [done|]. by apply Hg.
Qed.

(** ** Lanes *)

(** Two main-lane commits a minute apart, and fast-path commits every four
    seconds in between. *)
Definition commit_line (l : Events.Lane) (t : N) : Event :=
  parsed (Events.now t "eu" l "committed").
Definition quiet_main : list Event :=
  (commit_line Events.Main <$> [0; 60000]%N) ++
  (commit_line Events.FastPath <$> ((λ k, N.of_nat k * 4000)%N <$> seq 1 14)).

(** The reports do not separate the lanes: the main lane's outage is not
    reported, and the fast-path certificates count as intents. *)
Example fastpath_masks_outage :
  recovery_mode quiet_main 5000 = [] ∧
  recovery_mode (filter (λ ev, lane ev = "main"%string) quiet_main) 5000 = [("eu"%string, 0, 60000, 60000)%N] ∧
  tps_mode quiet_main 60000 = Some [(0, 60000, 0%nat, 15); (60000, 120000, 0%nat, 1)]%N.
Proof. split_and!; vm_compute; reflexivity. Qed.
End Metrics.
