(* ===== verification/RpcExamples.v ===== *)
(** * The RPC surface at concrete inputs

    A one-authority node that commits a transfer and answers queries about it, a
    faucet connected to it, the submission whose answered hash no query finds, and
    an indexer that follows the node, and the SDK connected to it. *)

From Stdlib Require Import Strings.Ascii Strings.String.
From S2P Require Import Prelude Crypto Cert Dag Commit Joint Equivocation Rings FastPath Mempool ExecTypes.
From S2P Require Import Substrate Block Sha3 Ltp RecordSet Governance NodeState Ingest NodeCommit.
From S2P Require Import NodeSafety Inbox Driver Client Node NodeIndex Rpc Indexer RpcMethods NodeExamples.
Import ToyNode.

Module RpcWitnesses.
(** Two characters per byte. *)
#[local] Instance toy_hex_encode : HexEncode :=
  foldr (λ b s, String (ascii_of_N (97 + Byte.to_N b / 16)) (String (ascii_of_N (97 + Byte.to_N b mod 16)) s)) EmptyString.

(** The inverse of the toy encoding on transfers, with trailing bytes allowed. *)
#[local] Instance toy_decode : BincodeDecode := λ raw,
  match raw with
  | Byte.x01 :: rest =>
      if bool_decide (56 ≤ length rest)
      then Ok (Transfer (take 20 rest) (take 20 (drop 20 rest)) (be_value (take 16 (drop 40 rest))))
      else Err "short"%string
  | _ => Err "tag"%string
  end.

(** *** Reads *)

Definition wish : Intent := pay Byte.x0a Byte.x0b 3.
Definition wish_hash : bytes := Eval vm_compute in default [] (intent_hash wish).
Definition opening : list action := AClient (signed wish 0) :: three_rounds.
Definition busy_first : CertHash := Eval vm_compute in
  default [] (Certificate.hash <$> head (play 0 alice opening).2).
Definition busy_does : list action := opening ++ [AMsg "p" false (WVote (mk_vote 0 busy_first))].
Definition busy : State := (play 0 alice busy_does).1.1.

Lemma busy_run : run 0 alice (play 0 alice busy_does).1.2 (play 0 alice busy_does).2 busy.
Proof. apply played. vm_compute. reflexivity. Qed.


(** The transfer was committed, and is found in round 0 at index 0. *)
Example wish_found :
  bool_decide (busy_first ∈ committed busy) = true ∧
  (λ v, (tv_round v, tv_index v)) <$> transaction_by_hash busy wish_hash = Some (0%N, 0%nat) ∧
  balance_for busy (addr Byte.x0b) = 3%N.
Proof. split_and!; vm_compute; reflexivity. Qed.

(** Before any vote nothing is committed, and yet the epoch view reports round 2
    as committed and the transfer is found. *)
Example uncommitted_but_listed :
  let s := (play 0 alice opening).1.1 in
  bool_decide (committed s = ∅) = true ∧ latest_committed_round (epoch_snapshot s) = 2%N ∧
  is_Some (transaction_by_hash s wish_hash) ∧ balance_for s (addr Byte.x0b) = 0%N.
Proof. split_and!; vm_compute; try reflexivity. by eexists. Qed.

(** *** The faucet *)

Definition tap : Faucet := faucet_new (sk 0) (mldsa.mk_pk (key 0)) (addr Byte.x0a) (tag "toy") 3 1 1.

Lemma faucet_drip_spec_witness :
  ∃ f', drip tap (node_client alice 0) "10.0.0.1" (addr Byte.x0b) 0 = (Ok (mk_ack wish_hash 3), f') ∧
    ∀ ip, ip ≠ "10.0.0.1"%string → f_buckets f' !! ip = f_buckets tap !! ip.
Proof.
  destruct (drip tap (node_client alice 0) "10.0.0.1" (addr Byte.x0b) 0) as [res f'] eqn:E.
  assert (res = Ok (mk_ack wish_hash 3)) as Er.
  { apply (f_equal fst) in E. cbn [fst] in E. rewrite <-E. vm_compute. reflexivity. }
  exists f'. split; [by rewrite Er|].
  apply (faucet_drip_spec tap alice (key 0) (key 0) "10.0.0.1" (addr Byte.x0b) 0 (enc wish) res f').
  - split_and!; [done|done|]. intros msg. split_and!; [done|done|]. by apply bool_decide_true.
  - reflexivity.
  - reflexivity.
  - vm_compute. reflexivity.
  - vm_compute. reflexivity.
  - reflexivity.
  - vm_compute. reflexivity.
  - apply N.ltb_lt. vm_compute. reflexivity.
  - exact E.
Defined.

(** The second request from the same address finds an empty bucket, another
    address does not. *)
Example second_drip_limited :
  let f := (drip tap (node_client alice 0) "10.0.0.1" (addr Byte.x0b) 0).2 in
  (drip f (node_client alice 0) "10.0.0.1" (addr Byte.x0b) 0).1 = Err (FaucetRateLimited 1000) ∧
  (drip f (node_client alice 0) "10.0.0.2" (addr Byte.x0b) 0).1 = Ok (mk_ack wish_hash 3).
Proof. split; vm_compute; reflexivity. Qed.

(** *** A hash no query finds *)

(** The transfer followed by a stray byte is accepted and queued, and answered
    with a hash under which it will never be indexed. *)
Definition padded : bytes := enc wish ++ [Byte.x00].
Definition padded_answer : option (outcome SubmitIntentError bytes * State) :=
  submit_intent alice padded (sig_of wish 0) (signer_pubkey_hash (key 0)) 0.
Example padded_submission_hash :
  match padded_answer with Some (Ok x, _) => bool_decide (x = blake3 padded) | _ => false end = true ∧
  bool_decide (blake3 padded = wish_hash) = false ∧
  match padded_answer with Some (_, s) => bool_decide (wish_hash ∈ seen (mempool s)) | _ => false end = true.
Proof. refine (conj _ (conj _ _)); vm_compute; reflexivity. Qed.

(** *** The indexer *)

Definition commits_of (r : Round) (evs : list Event) : list CertHash :=
  omap (λ e, match e with EvCommitted r' h _ => if decide (r' = r) then Some h else None | _ => None end) evs.
Definition eve_events : list Event := Eval vm_compute in match try_commit eve with Some (_, evs) => evs | None => [] end.

(** One walk of the committee of four commits four certificates of round 0, of
    which a subscriber indexes one. *)
Example one_commit_per_round_indexed :
  let idx := Indexer.follow "v0" eve_events 7 Indexer.empty_store in
  length (commits_of 0 eve_events) = 4 ∧
  Indexer.ib_cert_hash <$> Indexer.get_block idx 0 = hex_encode <$> commits_of 0 eve_events !! 0 ∧
  size (Indexer.stored idx) = 2.
Proof. split_and!; vm_compute; reflexivity. Qed.

(** Backfilled from a node that has committed nothing, the index shows three
    blocks. *)
Example uncommitted_backfilled :
  let s := (play 0 alice opening).1.1 in
  bool_decide (committed s = ∅) = true ∧
  (λ x : _ * Indexer.InMemoryStore, (x.1, Indexer.mem_latest_round x.2)) <$>
    Indexer.catch_up (Indexer.node_chain s) (λ _, 7%N) 4 Indexer.DEFAULT_MAX_PER_ITER Indexer.empty_store =
  Some (Ok 3%N, Some 2%N).
Proof. split; vm_compute; reflexivity. Qed.

(** An index that missed rounds 0 and 1 and saw round 2 never fetches them. *)
Example missed_rounds_stay_missing :
  let late := Indexer.mem_ingest (Indexer.mk_block 2 7 "live" []) Indexer.empty_store in
  (λ x : _ * Indexer.InMemoryStore, (x.1, Indexer.mem_get_block x.2 0, Indexer.mem_get_block x.2 1)) <$>
    Indexer.catch_up (Indexer.node_chain busy) (λ _, 8%N) 4 256 late = Some (Ok 0%N, None, None).
Proof. vm_compute. reflexivity. Qed.

(** A range that ends before it starts fails the request. *)
Example reversed_range_panics : Indexer.api_list_blocks Indexer.empty_store 5 (Some 3%N) = None.
Proof. reflexivity. Qed.
End RpcWitnesses.

Module SdkExample.
(** Lower-case hexadecimal, the inverse of [ToyNode.unhex]. *)
Definition digit (n : N) : ascii := ascii_of_N (if bool_decide (n < 10)%N then 48 + n else 87 + n).
#[local] Instance hex_lower : HexEncode :=
  foldr (λ b s, String (digit (Byte.to_N b / 16)) (String (digit (Byte.to_N b mod 16)) s)) EmptyString.

Lemma hex_lower_roundtrip (b : bytes) : hex_decode (hex_encode b) = Some b.
Proof.
  unfold hex_decode, hex_encode, toy_hex, hex_lower. induction b as [|x b IH]; [done|]. cbn [foldr unhex].
  rewrite IH. by destruct x.
Qed.

#[local] Instance no_decode : BincodeDecode := λ _, Err "unused"%string.

(** The balance of the committed transfer, read through the SDK. *)
Example sdk_reads_balance :
  (Sdk.get_balance (connect (Server.mk_server RpcWitnesses.busy None None) 0 1) (addr Byte.x0b)).1 =
    Ok (Sdk.mk_balance "0x0b0b0b0b0b0b0b0b0b0b0b0b0b0b0b0b0b0b0b0b" "3").
Proof.
  destruct (sdk_refines_adapter hex_lower_roundtrip (Server.mk_server RpcWitnesses.busy None None) 0 1)
    as (_ & _ & _ & _ & Hb & _).
  rewrite Hb by done. vm_compute. reflexivity.
Qed.
End SdkExample.
