(* ===== verification/DbSubstrate.v ===== *)
(** * The database-backed substrate

    [suwappu-execution/src/suwappu_db_substrate.rs]: the [Substrate] implementation
    over the external [suwappu-db] crates, which are a parameter with their
    documented behaviour.  The theorems compare it with the reference
    [InMemorySubstrate]. *)

From S2P Require Import Prelude Crypto Cert Rings ExecTypes Codec Registries Substrate.
From S2P Require Import LedgerSpec Moves Refinement Ledger Block.

Inductive RejectReason := RejInsufficientBalance | RejAmountOverflow | RejOther.

(** [suwappudb_state::State] and the operations of [suwappudb_bridge::Bridge] the
    adapter calls. *)
Class SuwappuDb := {
  DbState : Type;
  Slot : Type;
  slot_canonical : Slot → Balance;
  db_default : DbState;
  db_balance_of : DbState → Address → Balance;
  db_bytes_of : DbState → Address → option bytes;
  db_entries : DbState → list (Address * Slot);
  db_bytes_entries : DbState → list (Address * bytes);
  db_credit : Address → Balance → DbState → outcome RejectReason unit * DbState;
  db_submit_transfer : Address → Address → Balance → DbState → outcome RejectReason unit * DbState;
}.

Section observe.
Context `{SuwappuDb}.

(** What a state shows: nothing changed, or one account's balance did. *)
Definition db_same (d d' : DbState) : Prop :=
  (∀ a, db_balance_of d' a = db_balance_of d a) ∧ (∀ a, db_bytes_of d' a = db_bytes_of d a).
Definition db_moved (f : Address → Balance) (d d' : DbState) : Prop :=
  (∀ a, db_balance_of d' a = f a) ∧ (∀ a, db_bytes_of d' a = db_bytes_of d a).
End observe.

(** The documented behaviour of the two crates: balances are 128-bit and listed
    once; a transfer moves its amount, to oneself nothing, or is refused whole; a
    credit adds or is refused; the record column lists what it reads. *)
Class SuwappuDbLaws `{SuwappuDb} : Prop := {
  db_balance_lt d a : (db_balance_of d a < width 128)%N;
  db_default_balance a : db_balance_of db_default a = 0%N;
  db_default_bytes a : db_bytes_of db_default a = None;
  db_entries_NoDup d : NoDup (db_entries d).*1;
  db_entries_balance d a sl : (a, sl) ∈ db_entries d → slot_canonical sl = db_balance_of d a;
  db_entries_complete d a : db_balance_of d a ≠ 0%N → ∃ sl, (a, sl) ∈ db_entries d;
  db_bytes_entries_NoDup d : NoDup (db_bytes_entries d).*1;
  db_bytes_entries_spec d a b : (a, b) ∈ db_bytes_entries d ↔ db_bytes_of d a = Some b;
  db_transfer_short from to n d : (db_balance_of d from < n)%N →
    ∃ d', db_submit_transfer from to n d = (Err RejInsufficientBalance, d') ∧ db_same d d';
  db_transfer_self from n d : (n ≤ db_balance_of d from)%N →
    ∃ d', db_submit_transfer from from n d = (Ok tt, d') ∧ db_same d d';
  db_transfer_overflow from to n d : from ≠ to → (n ≤ db_balance_of d from)%N →
    (width 128 ≤ db_balance_of d to + n)%N →
    ∃ d', db_submit_transfer from to n d = (Err RejAmountOverflow, d') ∧ db_same d d';
  db_transfer_moves from to n d : from ≠ to → (n ≤ db_balance_of d from)%N →
    (db_balance_of d to + n < width 128)%N →
    ∃ d', db_submit_transfer from to n d = (Ok tt, d') ∧
      db_moved (λ a, if decide (a = to) then db_balance_of d to + n
                     else if decide (a = from) then db_balance_of d from - n else db_balance_of d a)%N d d';
  db_credit_adds to n d : (db_balance_of d to + n < width 128)%N →
    ∃ d', db_credit to n d = (Ok tt, d') ∧
      db_moved (λ a, if decide (a = to) then db_balance_of d to + n else db_balance_of d a)%N d d';
}.

(** ** The adapter *)

Section adapter.
Context `{HB : Blake3, HS : SuwappuDb}.

Definition db_new : DbState := db_default.

(** [from_balances]; a refused credit panics on [expect]. *)
Fixpoint db_seed (l : list (Address * Balance)) (d : DbState) : option DbState :=
  match l with
  | [] => Some d
  | (a, n) :: rest => match db_credit a n d with (Ok _, d') => db_seed rest d' | _ => None end
  end.
Definition db_from_balances (l : list (Address * Balance)) : option DbState := db_seed l db_new.

Definition db_balance (d : DbState) (a : Address) : Balance := db_balance_of d a.
Definition db_read_bytes (d : DbState) (a : Address) : option bytes := db_bytes_of d a.

Definition db_apply_transfer (from to : Address) (amount : Balance) (d : DbState)
    : outcome ExecutionError unit * DbState :=
  if reserved.is_reserved from then (Err (ReservedAddressTransferDenied from), d)
  else if reserved.is_reserved to then (Err (ReservedAddressTransferDenied to), d)
  else match db_submit_transfer from to amount d with
       | (Ok _, d') => (Ok tt, d')
       | (Err RejInsufficientBalance, d') =>
           (Err (InsufficientBalance from (db_balance_of d' from) amount), d')
       | (Err RejAmountOverflow, d') => (Err (BalanceOverflow to), d')
       | (_, d') => (Panic, d')
       end.

Definition db_apply_intent (intent : Intent) (d : DbState) : outcome ExecutionError unit * DbState :=
  match intent with
  | Transfer from to amount => db_apply_transfer from to amount d
  | CommitL2StateRoot _ _ proof inputs vk =>
      match l2_verifier.verify_l2_batch proof inputs vk with
      | Ok _ => (Ok tt, d)
      | Err e => (Err (L2VerifierRejected (l2_verifier.to_string e)), d)
      | Panic => (Panic, d)
      end
  | AdmitAuthority _ _ _ _ | ExitAuthority _ | EjectAuthority _ _
  | AdmitValidator _ _ _ _ | ExitValidator _ | EjectValidator _ _
  | GenesisAllocation _ | MintInflation _ _ _ _ | DistributeRewards _ _ _ | Delegate _ _ _
  | SetL2VerifyingKey _ _ _
  | L1Lock _ _ _ _ | L2BurnProven _ _ _ _ _ _ | L2ForceInclude _ _ _ _ | SlashSequencer _ _
  | MarkForceIncludeHonored _ | EjectSequencer _ _ | DepositSequencerBond _ _ | DepositSafetyBond _ _
  | DepositAuthorityStake _ _ _ | DepositValidatorStake _ _ _ | WithdrawAuthorityStake _ _ _
  | WithdrawValidatorStake _ _ _ | ClaimInsurance _ _ _ | DisburseTreasury _ _ _ | PostL2DA _ _
  | DistributeSlashedFunds _ _ _ _
  | AddBridgeAsset _ _ _ _ _ | PauseBridgeAsset _ | RemoveBridgeAsset _ => (Ok tt, d)
  end.

Definition db_state_root (d : DbState) : bytes :=
  compute_state_root_v2
    (sort_by_key fst (filter (λ e, e.2 ≠ 0%N) (prod_map id slot_canonical <$> db_entries d)))
    (sort_by_key fst (db_bytes_entries d)).

(** The trait's default [set_current_block_height] does nothing. *)
#[global] Instance db_ops : SubstrateOps DbState := {|
  op_apply_intent := db_apply_intent;
  op_set_current_block_height d _ := d;
  op_state_root := db_state_root;
|}.
End adapter.

(** ** Executing a block over two related substrates *)

Section simulation.
Context {S1 S2 : Type} `{SubstrateOps S1, SubstrateOps S2} (R : S1 → S2 → Prop).

Definition agrees_on (i : Intent) : Prop :=
  ∀ s1 s2, R s1 s2 →
    (op_apply_intent i s1).1 = (op_apply_intent i s2).1 ∧ R (op_apply_intent i s1).2 (op_apply_intent i s2).2.

(** The loops on both sides count the same and end in related states. *)
Definition related_runs {A} (x : option (A * S1)) (y : option (A * S2)) : Prop :=
  match x, y with
  | Some (a, s1), Some (b, s2) => a = b ∧ R s1 s2
  | None, None => True
  | _, _ => False
  end.

Lemma execute_loop_related l idx ok err skip s1 s2 :
  Forall agrees_on l → R s1 s2 →
  related_runs (execute_loop idx l ok err skip s1) (execute_loop idx l ok err skip s2).
Proof.
  intros Hl. revert idx ok err skip s1 s2. induction Hl as [|i l Hi _ IH]; intros idx ok err skip s1 s2 HR; [done|].
  cbn [execute_loop]. case_bool_decide; [by apply IH|].
  destruct (Hi s1 s2 HR) as [E HR']. destruct (op_apply_intent i s1) as [r1 s1'], (op_apply_intent i s2) as [r2 s2'].
  simpl in *. subst. destruct r2; [by apply IH..|done].
Qed.

Lemma execute_block_related b s1 s2 :
  (∀ s1 s2 h, R s1 s2 → R (op_set_current_block_height s1 h) (op_set_current_block_height s2 h)) →
  (∀ s1 s2, R s1 s2 → op_state_root s1 = op_state_root s2) →
  Forall agrees_on (intents b) → R s1 s2 → related_runs (execute_block s1 b) (execute_block s2 b).
Proof.
  intros Hh Hr Hl HR. unfold execute_block.
  pose proof (execute_loop_related (intents b) 0 0 None 0 _ _ Hl (Hh _ _ (block_round b) HR)) as HE.
  unfold related_runs in HE.
  destruct (execute_loop _ _ _ _ _ (op_set_current_block_height s1 _)) as [[[[ok1 e1] k1] t1]|],
    (execute_loop _ _ _ _ _ (op_set_current_block_height s2 _)) as [[[[ok2 e2] k2] t2]|]; simpl in *; try done.
  destruct HE as [E HR']. injection E as -> -> ->. by rewrite (Hr _ _ HR').
Qed.
End simulation.

(** ** Parity with the reference *)

Section parity.
Context `{HB : Blake3, HS : SuwappuDb, HL : !SuwappuDbLaws}.

(** The database holds what the in-memory maps hold. *)
Definition mirror (d : DbState) (s : InMemorySubstrate) : Prop :=
  (∀ a, db_balance_of d a = balance s a) ∧ (∀ a, db_bytes_of d a = read_bytes s a) ∧ canonical_balances s.

Lemma balance_mk m b h a : balance (mk m b h) a = default 0%N (m !! a).
Proof. done. Qed.

(** The normalised listing of a database is the listing of the map it mirrors. *)
Lemma listing_perm {V} (l : list (Address * V)) (m : gmap Address V) :
  NoDup l.*1 → (∀ a v, (a, v) ∈ l ↔ m !! a = Some v) → sort_by_key fst l = btree_entries m.
Proof.
  intros Hnd Hm. unfold btree_entries. apply sort_by_key_proper.
  - intros [a v] [a' v'] Hx Hy E. simpl in E. subst. apply Hm in Hx, Hy. congruence.
  - apply NoDup_Permutation; [by eapply NoDup_fmap_1|apply NoDup_map_to_list|].
    intros [a v]. by rewrite Hm, elem_of_map_to_list.
Qed.

Lemma NoDup_fst_filter {V} (P : Address * V → Prop) `{∀ x, Decision (P x)} (l : list (Address * V)) :
  NoDup l.*1 → NoDup (filter P l).*1.
Proof. intros Hn. eapply sublist_NoDup; [exact Hn|]. by apply sublist_fmap, sublist_filter. Qed.

Lemma mirror_root d s : mirror d s → db_state_root d = state_root s.
Proof.
  intros (Hb & Hr & Hc). unfold db_state_root, state_root. f_equal; apply listing_perm.
  - apply NoDup_fst_filter. rewrite <-list_fmap_compose.
    rewrite (list_fmap_ext _ fst) by (by intros ? [??]). apply db_entries_NoDup.
  - intros a v. rewrite list_elem_of_filter, list_elem_of_fmap. simpl. split.
    + intros (Hv & [a' sl] & E & Hin). injection E as -> ->. apply db_entries_balance in Hin as E.
      rewrite E in *. rewrite Hb in *. unfold balance in *. by destruct (balances s !! a').
    + intros Ev. destruct (Hc a v Ev) as [Hpos _]. split; [lia|].
      assert (db_balance_of d a = v) as Ed by (rewrite Hb; unfold balance; by rewrite Ev).
      destruct (db_entries_complete d a) as [sl Hin]; [lia|]. exists (a, sl). split; [|done].
      simpl. by rewrite (db_entries_balance d a sl Hin), Ed.
  - apply db_bytes_entries_NoDup.
  - intros a b. by rewrite db_bytes_entries_spec, Hr.
Qed.

Lemma mirror_same d d' s : mirror d s → db_same d d' → mirror d' s.
Proof. intros (Hb & Hr & Hc) [Eb Er]. split_and!; [intros a; by rewrite Eb|intros a; by rewrite Er|done]. Qed.

(** The in-memory transfer, case by case, for accounts of users. *)
Lemma apply_transfer_cases from to n s :
  reserved.is_reserved from = false → reserved.is_reserved to = false →
  apply_transfer from to n s =
  (if decide (balance s from < n)%N then (Err (InsufficientBalance from (balance s from) n), s)
   else if decide (n = 0%N ∨ from = to) then (Ok tt, s)
   else if decide (balance s to + n < width 128)%N
   then (Ok tt, mk (<[to := balance s to + n]> (put_balance (balances s) from (balance s from - n)))
                   (bytes_state s) (current_block_height s))
   else (Err (BalanceOverflow to), s))%N.
Proof.
  intros Hf Ht. unfold apply_transfer, deny. rewrite Hf, Ht.
  cbv [mbind exec_bind mret exec_ret gets throw of_outcome set_balances id].
  case_bool_decide as H0; [rewrite decide_False by lia; by rewrite decide_True by (by left)|].
  case_bool_decide as Hl; [by rewrite decide_True|]. rewrite decide_False by done.
  case_bool_decide as He; [by rewrite decide_True by (by right)|]. rewrite decide_False by naive_solver.
  unfold checked_add. case_decide as Hx; case_bool_decide; (done || lia).
Qed.

Lemma mirror_moved from to n d d' s :
  mirror d s → from ≠ to → n ≠ 0%N → (n ≤ balance s from)%N → (balance s to + n < width 128)%N →
  db_moved (λ a, if decide (a = to) then db_balance_of d to + n
                 else if decide (a = from) then db_balance_of d from - n else db_balance_of d a)%N d d' →
  mirror d' (mk (<[to := (balance s to + n)%N]> (put_balance (balances s) from (balance s from - n)))
                (bytes_state s) (current_block_height s)).
Proof.
  intros (Hb & Hr & Hc) Hne Hn Hle Hlt [Eb Er]. split_and!.
  - intros a. rewrite Eb, balance_mk, !Hb. destruct (decide (a = to)) as [->|Ha].
    { by rewrite lookup_insert_eq. }
    rewrite lookup_insert_ne, lookup_put_balance by done. by repeat case_decide; subst.
  - intros a. by rewrite Er, Hr.
  - pose proof (balance_lt s from Hc). apply map_Forall_insert_2; [lia|]. apply canonical_put; [done|lia].
Qed.

Lemma transfer_parity from to n :
  agrees_on mirror (Transfer from to n).
Proof.
  intros d s HM. cbn [op_apply_intent db_ops in_memory_ops db_apply_intent apply_intent].
  unfold db_apply_transfer. destruct (reserved.is_reserved from) eqn:Hf.
  { unfold apply_transfer, deny. rewrite Hf. done. }
  destruct (reserved.is_reserved to) eqn:Ht.
  { unfold apply_transfer, deny. rewrite Hf, Ht. done. }
  rewrite apply_transfer_cases by done. destruct (HM) as (Hb & _ & Hc).
  destruct (decide (balance s from < n)%N) as [Hs|Hs].
  { destruct (db_transfer_short from to n d) as (d' & -> & Hd); [by rewrite Hb|].
    simpl. destruct (Hd) as [Eb _]. rewrite Eb, Hb. split; [done|by eapply mirror_same]. }
  destruct (decide (from = to)) as [<-|Hne].
  { destruct (db_transfer_self from n d) as (d' & -> & Hd); [rewrite Hb; lia|].
    rewrite decide_True by (by right). split; [done|by eapply mirror_same]. }
  destruct (decide (balance s to + n < width 128)%N) as [Hx|Hx].
  - destruct (db_transfer_moves from to n d) as (d' & -> & Hd); [done|rewrite Hb; lia|by rewrite Hb|].
    destruct (decide (n = 0%N ∨ from = to)) as [[->|?]|Hz]; [|done|].
    + split; [done|]. eapply mirror_same; [done|]. destruct Hd as [Eb Er]. split; [|done].
      intros a. rewrite Eb. repeat case_decide; subst; lia.
    + split; [done|]. eapply mirror_moved; [done|done|naive_solver|lia|done|done].
  - destruct (db_transfer_overflow from to n d) as (d' & -> & Hd); [done|rewrite Hb; lia|rewrite Hb; lia|].
    rewrite decide_False. 2:{ intros [->|?]; [|done]. pose proof (balance_lt s to Hc). lia. }
    split; [done|by eapply mirror_same].
Qed.

(** The intents both implementations carry out. *)
Definition ported (i : Intent) : bool :=
  match i with Transfer _ _ _ | PostL2DA _ _ | SlashSequencer SlashReason.Downtime _ => true | _ => false end.

Lemma ported_parity i : ported i = true → agrees_on mirror i.
Proof.
  intros Hp. destruct i as [from to n| | | | | | | | | | | | | | | | | | | | | | | | | | | | | | |]; try discriminate Hp;
    try apply transfer_parity; [..|by intros d s HM].
  destruct reason; try discriminate Hp. by intros d s HM.
Qed.

Lemma mirror_credit a n d s :
  mirror d s → balances s !! a = None → (n < width 128)%N →
  ∃ d', db_credit a n d = (Ok tt, d') ∧
    mirror d' (mk (if bool_decide (0 < n)%N then <[a := n]> (balances s) else balances s)
                  (bytes_state s) (current_block_height s)).
Proof.
  intros (Hb & Hr & Hc) Ha Hn.
  assert (db_balance_of d a = 0%N) as E0 by (rewrite Hb; unfold balance; by rewrite Ha).
  destruct (db_credit_adds a n d) as (d' & E & Eb & Er); [by rewrite E0|].
  exists d'. split; [done|]. split_and!.
  - intros b. rewrite Eb, E0, balance_mk, Hb. case_bool_decide as Hp.
    + destruct (decide (b = a)) as [->|?]; [by rewrite lookup_insert_eq|by rewrite lookup_insert_ne].
    + case_decide; [subst; rewrite Ha; simpl; lia|done].
  - intros b. by rewrite Er, Hr.
  - case_bool_decide; [apply map_Forall_insert_2; [lia|done]|done].
Qed.

(** Seeding distinct accounts gives the same genesis on both sides. *)
Lemma mirror_from_balances l :
  NoDup l.*1 → Forall (λ e, (e.2 < width 128)%N) l →
  ∃ d, db_from_balances l = Some d ∧ mirror d (from_balances l).
Proof.
  unfold db_from_balances, from_balances, db_new.
  assert (mirror db_default (mk ∅ ∅ 0)) as HM.
  { split_and!; [intros a; by rewrite db_default_balance|intros a; by rewrite db_default_bytes|done]. }
  assert (∀ a, a ∈ l.*1 → (∅ : gmap Address Balance) !! a = None) as Hf by done.
  generalize dependent db_default. generalize dependent (∅ : gmap Address Balance).
  induction l as [|[a n] l IH]; intros m Hf d HM Hnd Hl; [by exists d|].
  apply NoDup_cons in Hnd as [Ha Hnd]. apply Forall_cons in Hl as [Hn Hl]. simpl in Hn.
  destruct (mirror_credit a n d _ HM) as (d' & E & HM'); [by apply Hf; left|done|].
  cbn [db_seed foldl fst snd]. rewrite E. apply IH; [|done..].
  intros b Hb. assert (a ≠ b) by (intros ->; by apply Ha).
  case_bool_decide; [rewrite lookup_insert_ne by done|]; apply Hf; by right.
Qed.

(** The reports of consecutive blocks. *)
Fixpoint execute_blocks {St} `{SubstrateOps St} (s : St) (l : list Block) : option (list ExecutionReport * St) :=
  match l with
  | [] => Some ([], s)
  | b :: rest =>
      '(r, s') ← execute_block s b;
      '(rs, s'') ← execute_blocks s' rest;
      Some (r :: rs, s'')
  end.

Lemma execute_blocks_related l d s :
  Forall (λ b, Forall (λ i, ported i = true) (intents b)) l → mirror d s →
  related_runs mirror (execute_blocks d l) (execute_blocks s l).
Proof.
  intros Hl. revert d s. induction Hl as [|b l Hb _ IH]; intros d s HM; [done|].
  assert (related_runs mirror (execute_block d b) (execute_block s b)) as HE.
  { apply execute_block_related; [|apply mirror_root| |done].
    - intros d0 s0 h HM0. exact HM0.
    - eapply Forall_impl; [exact Hb|apply ported_parity]. }
  cbn [execute_blocks]. unfold related_runs in HE.
  destruct (execute_block d b) as [[r1 d']|], (execute_block s b) as [[r2 s']|]; simpl; try done.
  destruct HE as [<- HM']. specialize (IH d' s' HM'). unfold related_runs in *.
  destruct (execute_blocks d' l) as [[rs1 d'']|], (execute_blocks s' l) as [[rs2 s'']|]; simpl in *; try done.
  by destruct IH as [<- HM''].
Qed.

(** Every other intent changes nothing and is accepted, except that the format
    gate of a state-root commitment runs. *)
Lemma unported_intents i d :
  ported i = false →
  (db_apply_intent i d).2 = d ∧
  ((db_apply_intent i d).1 = Ok tt ∨ ∃ e, (db_apply_intent i d).1 = Err (L2VerifierRejected e)).
Proof.
  intros Hp. destruct i; try discriminate Hp; try (split; [done|by left]).
  cbn. unfold l2_verifier.verify_l2_batch.
  repeat (case_bool_decide; [split; [done|by right; eexists]|]). split; [done|by left].
Qed.

End parity.

(** ** A concrete database *)
Module DbExamples.
Import LedgerExamples.
#[local] Existing Instance Toy.toy_blake3.

(** Balances and records in maps; a zero balance stays listed. *)
Record toy_state := mk_toy { toy_balances : gmap Address Balance; toy_bytes : gmap Address bytes }.

Definition toy_balance (d : toy_state) (a : Address) : Balance := wrap 128 (default 0%N (toy_balances d !! a)).

Definition toy_put (a : Address) (n : Balance) (d : toy_state) : toy_state :=
  mk_toy (<[a := n]> (toy_balances d)) (toy_bytes d).

#[local] Instance toy_db : SuwappuDb := {|
  DbState := toy_state;
  Slot := N;
  slot_canonical := wrap 128;
  db_default := mk_toy ∅ ∅;
  db_balance_of := toy_balance;
  db_bytes_of d a := toy_bytes d !! a;
  db_entries d := map_to_list (toy_balances d);
  db_bytes_entries d := map_to_list (toy_bytes d);
  db_credit a n d :=
    if decide (toy_balance d a + n < width 128)%N then (Ok tt, toy_put a (toy_balance d a + n) d)
    else (Err RejAmountOverflow, d);
  db_submit_transfer from to n d :=
    if decide (toy_balance d from < n)%N then (Err RejInsufficientBalance, d)
    else if decide (from = to) then (Ok tt, d)
    else if decide (toy_balance d to + n < width 128)%N
    then (Ok tt, toy_put to (toy_balance d to + n) (toy_put from (toy_balance d from - n) d))
    else (Err RejAmountOverflow, d);
|}.

Lemma toy_balance_lt d a : (toy_balance d a < width 128)%N.
Proof. apply wrap_lt. Qed.

Lemma toy_balance_put a n d b :
  (n < width 128)%N → toy_balance (toy_put a n d) b = if decide (b = a) then n else toy_balance d b.
Proof.
  intros Hn. unfold toy_balance at 1. simpl. case_decide as Hb; [subst; rewrite lookup_insert_eq; by apply wrap_small|].
  by rewrite lookup_insert_ne.
Qed.

Lemma toy_laws : SuwappuDbLaws.
Proof.
  split; cbn.
  - apply toy_balance_lt.
  - done.
  - done.
  - intros d. apply NoDup_fst_map_to_list.
  - intros d a sl Hin%elem_of_map_to_list. unfold toy_balance. by rewrite Hin.
  - intros d a Ha. unfold toy_balance in Ha. destruct (toy_balances d !! a) as [n|] eqn:E; [|done].
    exists n. by apply elem_of_map_to_list.
  - intros d. apply NoDup_fst_map_to_list.
  - intros d a b. apply elem_of_map_to_list.
  - intros from to n d Hn. eexists. rewrite decide_True by done. by split.
  - intros from n d Hn. eexists. rewrite decide_False by lia. rewrite decide_True by done. by split.
  - intros from to n d Hne Hn Hx. eexists. rewrite !decide_False by (done || lia). by split.
  - intros from to n d Hne Hn Hx. eexists. rewrite !decide_False by (done || lia). rewrite decide_True by done.
    split; [done|]. split; [|done]. intros a. pose proof (toy_balance_lt d from). cbn.
    by rewrite !toy_balance_put by lia.
  - intros to n d Hx. eexists. rewrite decide_True by done. split; [done|]. split; [|done].
    intros a. cbn. by rewrite toy_balance_put.
Qed.
#[local] Existing Instance toy_laws.

Definition seed : list (Address * Balance) := [(alice, 50%N); (bob, 5%N)].
Definition first_block : Block := mk_block 1 [Transfer alice bob 20; Transfer bob alice 99; Transfer alice bob 1].
Definition second_block : Block := mk_block 2 [Transfer bob bob 7; PostL2DA 1 []; Transfer bob alice 25].


(** A lock of funds the account does not have: the in-memory substrate rejects it,
    the database substrate reports it applied. *)
Definition unfunded_lock : Block := mk_block 1 [L1Lock alice bob 60 None].
Example unfunded_lock_diverges :
  (λ r, (applied r.1, first_error r.1)) <$> (d ← db_from_balances seed; execute_block d unfunded_lock) = Some (1, None) ∧
  (λ r, (applied r.1, first_error r.1)) <$> execute_block (from_balances seed) unfunded_lock =
    Some (0, Some (0, InsufficientBalance alice 50 60)).
Proof. split; vm_compute; reflexivity. Qed.

(** [from_balances] adds up repeated accounts where the reference keeps the last. *)
Example repeated_seed_diverges :
  let l := [(alice, 1%N); (alice, 2%N)] in
  (λ d, db_balance d alice) <$> db_from_balances l = Some 3%N ∧ balance (from_balances l) alice = 2%N.
Proof. split; vm_compute; reflexivity. Qed.
End DbExamples.
