(* ===== verification/Transport.v ===== *)
(** * Inter-validator transport

    [crates/suwappu-transport/src/]: path-authenticated routing ([scion.rs]), the
    gateway that answers external clients ([gateway.rs]) and reconstruction of
    shredded blocks ([raptorq.rs]).  Keyed BLAKE3 and the RaptorQ codec are
    parameters. *)

From S2P Require Import Prelude Crypto Sha3.

(** [blake3::Hasher::new_keyed]: the hash of the concatenated updates under a key. *)
Class Blake3Keyed := {
  blake3_keyed : bytes → bytes → bytes;
  blake3_keyed_length : ∀ k b, length (blake3_keyed k b) = 32;
}.

(** ** Routing: [scion.rs] *)

Definition IsdId := N.
Definition AsId := N.
Definition HopMac := bytes.

Record HopField := mk_hop {
  isd_as : IsdId * AsId;
  ingress_iface : N;
  egress_iface : N;
  expiration_round : N;
  mac : HopMac;
}.

Record Path := mk_path { path_isd : IsdId; hops : list HopField; path_created_at : N }.

Record TrustRootConfig := mk_trc {
  trc_isd : IsdId;
  version : N;
  as_keys : gmap AsId bytes;
  valid_until : N;
}.

Inductive ScionError :=
| IsdMismatch (path_isd trc_isd : IsdId)
| TrcExpired (expired_at : N)
| EmptyPath
| UnauthorizedAs (hop_index : nat) (isd : IsdId) (as_id : AsId)
| HopExpired (hop_index : nat) (expiration_round now : N)
| InvalidHopMac (hop_index : nat).

(** What a hop's MAC covers. *)
Definition hop_input (prev : HopMac) (h : HopField) : bytes :=
  prev ++ be_bytes 2 (ingress_iface h) ++ be_bytes 2 (egress_iface h) ++ be_bytes 8 (expiration_round h).

Definition seed_input (p : Path) : bytes :=
  tag "SUWAPPU-SCION-PATH-SEED-V1" ++ be_bytes 2 (path_isd p) ++ be_bytes 8 (path_created_at p).

Section scion.
Context `{Blake3, Blake3Keyed}.

Definition hop_mac (as_key : bytes) (prev_mac : HopMac) (hop : HopField) : HopMac :=
  take 16 (blake3_keyed as_key (hop_input prev_mac hop)).

Definition path_seed_mac (p : Path) : HopMac := take 16 (blake3 (seed_input p)).

Definition unauthorized (idx : nat) (h : HopField) : ScionError :=
  UnauthorizedAs idx (isd_as h).1 (isd_as h).2.

(** The sealing loop over [hops.iter_mut().enumerate()]. *)
Fixpoint seal_hops (trc : TrustRootConfig) (idx : nat) (seed : HopMac) (l : list HopField)
    : outcome ScionError (list HopField) :=
  match l with
  | [] => Ok []
  | h :: rest =>
      let! key := ok_or (as_keys trc !! (isd_as h).2) (unauthorized idx h) in
      let m := hop_mac key seed h in
      let! sealed := seal_hops trc (S idx) m rest in
      Ok (mk_hop (isd_as h) (ingress_iface h) (egress_iface h) (expiration_round h) m :: sealed)
  end.

Definition seal_path (isd : IsdId) (created_at : N) (l : list HopField) (trc : TrustRootConfig)
    : outcome ScionError Path :=
  let seed := path_seed_mac (mk_path isd [] created_at) in
  let! sealed := seal_hops trc 0 seed l in
  Ok (mk_path isd sealed created_at).

(** The verification loop. *)
Fixpoint verify_hops (trc : TrustRootConfig) (now : N) (idx : nat) (prev : HopMac) (l : list HopField)
    : outcome ScionError unit :=
  match l with
  | [] => Ok tt
  | h :: rest =>
      let! key := ok_or (as_keys trc !! (isd_as h).2) (unauthorized idx h) in
      if bool_decide (expiration_round h < now)%N then Err (HopExpired idx (expiration_round h) now)
      else if bool_decide (hop_mac key prev h ≠ mac h) then Err (InvalidHopMac idx)
      else verify_hops trc now (S idx) (mac h) rest
  end.

Definition verify_path (p : Path) (trc : TrustRootConfig) (now : N) : outcome ScionError unit :=
  if bool_decide (path_isd p ≠ trc_isd trc) then Err (IsdMismatch (path_isd p) (trc_isd trc))
  else if bool_decide (valid_until trc < now)%N then Err (TrcExpired (valid_until trc))
  else if bool_decide (hops p = []) then Err EmptyPath
  else verify_hops trc now 0 (path_seed_mac p) (hops p).

(** *** The chain, declaratively *)

(** The MAC each hop chains from: the seed, then the MAC of the hop before. *)
Definition prevs (seed : HopMac) (l : list HopField) : list HopMac := seed :: (mac <$> l).

Definition hop_ok (trc : TrustRootConfig) (now : N) (prev : HopMac) (h : HopField) : Prop :=
  ∃ key, as_keys trc !! (isd_as h).2 = Some key ∧ (now ≤ expiration_round h)%N ∧ mac h = hop_mac key prev h.

(** Why a hop is refused, in the order of the checks. *)
Definition hop_fault (trc : TrustRootConfig) (now : N) (prev : HopMac) (i : nat) (h : HopField)
    (e : ScionError) : Prop :=
  match as_keys trc !! (isd_as h).2 with
  | None => e = unauthorized i h
  | Some key =>
      if decide (expiration_round h < now)%N then e = HopExpired i (expiration_round h) now
      else mac h ≠ hop_mac key prev h ∧ e = InvalidHopMac i
  end.

(** The first [n] hops are in order. *)
Definition chained (trc : TrustRootConfig) (now : N) (seed : HopMac) (l : list HopField) (n : nat) : Prop :=
  ∀ i h prev, i < n → l !! i = Some h → prevs seed l !! i = Some prev → hop_ok trc now prev h.

(** The verdict of the loop: either every hop is in order, or the error names the
    first hop that is not, and why. *)
Inductive hops_verdict (trc : TrustRootConfig) (now : N) (seed : HopMac) (l : list HopField) (idx : nat)
    : outcome ScionError unit → Prop :=
| Accepted : chained trc now seed l (length l) → hops_verdict trc now seed l idx (Ok tt)
| Refused i h prev e :
    l !! i = Some h → prevs seed l !! i = Some prev → chained trc now seed l i →
    hop_fault trc now prev (idx + i) h e → hops_verdict trc now seed l idx (Err e).

Lemma chained_cons trc now seed h l n :
  hop_ok trc now seed h → chained trc now (mac h) l n → chained trc now seed (h :: l) (S n).
Proof.
  intros Hh Hc [|i] h' prev Hi El Ep; simpl in *; [by simplify_eq|]. eapply Hc; [|done..]. lia.
Qed.

Lemma chained_cons_inv trc now seed h l n :
  chained trc now seed (h :: l) (S n) → hop_ok trc now seed h ∧ chained trc now (mac h) l n.
Proof.
  intros Hc. split; [by apply (Hc 0 h seed); [lia|..]|].
  intros i h' prev Hi El Ep. apply (Hc (S i) h' prev); [lia|done..].
Qed.

Lemma verify_hops_verdict trc now idx seed l :
  hops_verdict trc now seed l idx (verify_hops trc now idx seed l).
Proof.
  revert idx seed. induction l as [|h l IH]; intros idx seed; simpl; [by constructor|].
  destruct (as_keys trc !! (isd_as h).2) as [key|] eqn:Ek; simpl.
  2:{ eapply (Refused _ _ _ _ _ 0 h seed); [done..|by intros ???; lia|]. unfold hop_fault. by rewrite Ek, Nat.add_0_r. }
  case_bool_decide as Hx.
  { eapply (Refused _ _ _ _ _ 0 h seed); [done..|by intros ???; lia|].
    unfold hop_fault. by rewrite Ek, decide_True, Nat.add_0_r. }
  case_bool_decide as Hm.
  { eapply (Refused _ _ _ _ _ 0 h seed); [done..|by intros ???; lia|].
    unfold hop_fault. rewrite Ek, decide_False, Nat.add_0_r by done. split; [congruence|done]. }
  assert (hop_ok trc now seed h) as Hok by (exists key; split_and!; [done|lia|done]).
  destruct (IH (S idx) (mac h)) as [Hc|i h' prev e El Ep Hc Hf].
  - constructor. by apply chained_cons.
  - apply (Refused _ _ _ _ _ (S i) h' prev); [done..|by apply chained_cons|].
    by replace (idx + S i) with (S idx + i) by lia.
Qed.

Lemma chained_not_fault trc now seed l n i h prev idx e :
  chained trc now seed l n → i < n → l !! i = Some h → prevs seed l !! i = Some prev →
  hop_fault trc now prev idx h e → False.
Proof.
  intros Hc Hi El Ep Hf. destruct (Hc i h prev Hi El Ep) as (key & Ek & Hx & Em).
  unfold hop_fault in Hf. rewrite Ek, decide_False in Hf by lia. by destruct Hf.
Qed.

Lemma verify_hops_Ok trc now idx seed l :
  verify_hops trc now idx seed l = Ok tt ↔ chained trc now seed l (length l).
Proof.
  destruct (verify_hops_verdict trc now idx seed l) as [Hc|i h prev e El Ep Hc Hf]; [done|].
  split; [done|]. intros Hc'. exfalso.
  eapply chained_not_fault; [apply Hc'| |done..]. by eapply lookup_lt_Some.
Qed.

Lemma verify_path_Ok p trc now :
  verify_path p trc now = Ok tt ↔
  path_isd p = trc_isd trc ∧ (now ≤ valid_until trc)%N ∧ hops p ≠ [] ∧
  chained trc now (path_seed_mac p) (hops p) (length (hops p)).
Proof.
  unfold verify_path. case_bool_decide as Hi; [by split; [|intros (? & _)]|].
  case_bool_decide as Hv; [by split; [|intros (_ & ? & _); lia]|].
  case_bool_decide as He; [by split; [|intros (_ & _ & ? & _)]|].
  rewrite verify_hops_Ok. split; [|tauto]. intros Hc. split_and!; [done|lia|done|done].
Qed.

(** *** Sealing *)

(** The fields of a hop other than its MAC. *)
Definition template (h : HopField) : (IsdId * AsId) * N * N * N :=
  (isd_as h, ingress_iface h, egress_iface h, expiration_round h).

Lemma hop_mac_template key prev h h' : template h = template h' → hop_mac key prev h = hop_mac key prev h'.
Proof. unfold template, hop_mac, hop_input. intros E. by injection E as _ -> -> ->. Qed.

Lemma seal_hops_Ok trc now idx seed l l' :
  seal_hops trc idx seed l = Ok l' →
  template <$> l' = template <$> l ∧
  (Forall (λ h, (now ≤ expiration_round h)%N) l → chained trc now seed l' (length l')).
Proof.
  revert idx seed l'. induction l as [|h l IH]; intros idx seed l' E; simpl in E.
  { injection E as <-. split; [done|]. intros _ i ? ? Hi; simpl in Hi; lia. }
  destruct (as_keys trc !! (isd_as h).2) as [key|] eqn:Ek; simpl in E; [|done].
  destruct (seal_hops trc (S idx) (hop_mac key seed h) l) as [sealed| |] eqn:Es; simpl in E; [|done..].
  injection E as <-. destruct (IH _ _ _ Es) as [Et Hc]. split; [simpl; by f_equal|].
  intros [Hx Hf]%Forall_cons. apply chained_cons; [|by apply Hc].
  exists key. split_and!; [done|done|by apply hop_mac_template].
Qed.

Lemma seal_hops_total trc idx seed l :
  Forall (λ h, is_Some (as_keys trc !! (isd_as h).2)) l → ∃ l', seal_hops trc idx seed l = Ok l'.
Proof.
  intros Hf. revert idx seed. induction Hf as [|h l [key Ek] _ IH]; intros idx seed; simpl; [by eexists|].
  rewrite Ek. simpl. destruct (IH (S idx) (hop_mac key seed h)) as [l' ->]. simpl. by eexists.
Qed.
End scion.

(** ** The gateway: [gateway.rs] *)

Record GatewayConfig := mk_gateway {
  gateway_isd : IsdId;
  gateway_as : AsId;
  gateway_pubkey : bytes;
  gateway_trc : TrustRootConfig;
}.

Record IpPacket := mk_packet { source_ip : bytes; dest_ip : bytes; payload : bytes }.

Record GatewayEnvelope := mk_envelope { ip_packet : IpPacket; scion_path : Path; created_at : N }.

Record GatewayResponse := mk_response {
  request_digest : bytes;
  response_payload : bytes;
  gateway_signature : bytes;
  responded_at : N;
}.

Inductive GatewayError :=
| PathVerificationFailed (e : ScionError)
| MalformedGatewayKey
| DigestMismatch
| InvalidSignature
| MalformedSignature.

(** A length cast to [u32], then its bytes. *)
Definition len_be (n : nat) : bytes := be_bytes 4 (wrap 32 (N.of_nat n)).

Definition envelope_blob (env : GatewayEnvelope) : bytes :=
  source_ip (ip_packet env) ++ dest_ip (ip_packet env) ++
  len_be (length (payload (ip_packet env))) ++ payload (ip_packet env) ++
  be_bytes 2 (path_isd (scion_path env)) ++ be_bytes 8 (path_created_at (scion_path env)) ++
  len_be (length (hops (scion_path env))) ++ mjoin (mac <$> hops (scion_path env)) ++
  be_bytes 8 (created_at env).

Definition response_blob (request_digest response_payload : bytes) (created_at : N) : bytes :=
  request_digest ++ len_be (length response_payload) ++ response_payload ++ be_bytes 8 created_at.

Section gateway.
Context `{Blake3, Blake3Keyed, Sha3, MlDsa65}.

Definition canonical_digest (env : GatewayEnvelope) : bytes :=
  sha3_256_domain (tag "SUWAPPU-GATEWAY-ENV-V1") (envelope_blob env).

Definition response_signing_digest (request_digest response_payload : bytes) (created_at : N) : bytes :=
  sha3_256_domain (tag "SUWAPPU-GATEWAY-RESP-V1") (response_blob request_digest response_payload created_at).

Definition map_err {E F A} (f : E → F) (x : outcome E A) : outcome F A :=
  match x with Ok a => Ok a | Err e => Err (f e) | Panic => Panic end.

Definition sign_response (config : GatewayConfig) (sk : mldsa.SecretKey) (env : GatewayEnvelope)
    (response : bytes) (now : N) : outcome GatewayError GatewayResponse :=
  let! _ := map_err PathVerificationFailed (verify_path (scion_path env) (gateway_trc config) now) in
  let digest := canonical_digest env in
  let signing_digest := response_signing_digest digest response now in
  let! sig := map_err (λ _, InvalidSignature) (mldsa.sign signing_digest sk) in
  Ok (mk_response digest response (mldsa.sig_bytes sig) now).

Definition verify_response (config : GatewayConfig) (env : GatewayEnvelope) (resp : GatewayResponse) (now : N)
    : outcome GatewayError unit :=
  let! _ := map_err PathVerificationFailed (verify_path (scion_path env) (gateway_trc config) now) in
  if bool_decide (canonical_digest env ≠ request_digest resp) then Err DigestMismatch
  else
    let! pk := map_err (λ _, MalformedGatewayKey) (mldsa.PublicKey_from_bytes (gateway_pubkey config)) in
    let! sig := map_err (λ _, MalformedSignature) (mldsa.Signature_from_bytes (gateway_signature resp)) in
    map_err (λ _, InvalidSignature)
      (mldsa.verify (response_signing_digest (request_digest resp) (response_payload resp) (responded_at resp)) sig pk).

(** *** Binding *)

Definition typed_hop (h : HopField) : Prop :=
  (ingress_iface h < width 16)%N ∧ (egress_iface h < width 16)%N ∧ (expiration_round h < width 64)%N ∧
  length (mac h) = 16.

Definition typed_envelope (env : GatewayEnvelope) : Prop :=
  length (source_ip (ip_packet env)) = 16 ∧ length (dest_ip (ip_packet env)) = 16 ∧
  (N.of_nat (length (payload (ip_packet env))) < width 32)%N ∧
  (path_isd (scion_path env) < width 16)%N ∧ (path_created_at (scion_path env) < width 64)%N ∧
  (N.of_nat (length (hops (scion_path env))) < width 32)%N ∧ Forall typed_hop (hops (scion_path env)) ∧
  (created_at env < width 64)%N.

(** Two keyed inputs with the same truncated MAC. *)
Definition mac_collision : Prop :=
  ∃ k x k' y, (k, x) ≠ (k', y) ∧ take 16 (blake3_keyed k x) = take 16 (blake3_keyed k' y).

(** The same interfaces, expirations and MACs, hop by hop, under the same keys. *)
Definition same_hop (trc : TrustRootConfig) (h h' : HopField) : Prop :=
  ingress_iface h = ingress_iface h' ∧ egress_iface h = egress_iface h' ∧
  expiration_round h = expiration_round h' ∧ mac h = mac h' ∧
  as_keys trc !! (isd_as h).2 = as_keys trc !! (isd_as h').2.

Definition same_request (trc : TrustRootConfig) (env env' : GatewayEnvelope) : Prop :=
  ip_packet env = ip_packet env' ∧ created_at env = created_at env' ∧
  path_isd (scion_path env) = path_isd (scion_path env') ∧
  path_created_at (scion_path env) = path_created_at (scion_path env') ∧
  Forall2 (same_hop trc) (hops (scion_path env)) (hops (scion_path env')).

Lemma hop_input_inj prev h h' :
  typed_hop h → typed_hop h' → hop_input prev h = hop_input prev h' →
  ingress_iface h = ingress_iface h' ∧ egress_iface h = egress_iface h' ∧
  expiration_round h = expiration_round h'.
Proof.
  intros (Hi & He & Hx & _) (Hi' & He' & Hx' & _) E. unfold hop_input in E. apply app_inv_head in E.
  apply delimited_be in E as [? E]; [|done..]. apply delimited_be in E as [? E]; [|done..].
  apply be_bytes_inj in E; [done|by rewrite <-width_64..].
Qed.

Lemma hop_mac_inj k k' prev h h' :
  typed_hop h → typed_hop h' → hop_mac k prev h = hop_mac k' prev h' →
  (k = k' ∧ ingress_iface h = ingress_iface h' ∧ egress_iface h = egress_iface h' ∧
   expiration_round h = expiration_round h') ∨ mac_collision.
Proof.
  intros Hh Hh' E. destruct (decide ((k, hop_input prev h) = (k', hop_input prev h'))) as [Eq|Hn].
  - injection Eq as -> Eq. left. split; [done|by eapply hop_input_inj].
  - right. by exists k, (hop_input prev h), k', (hop_input prev h').
Qed.

(** The MACs of an accepted route determine the route. *)
Lemma chained_bind trc now now' seed l l' :
  chained trc now seed l (length l) → chained trc now' seed l' (length l') →
  Forall typed_hop l → Forall typed_hop l' → mac <$> l = mac <$> l' →
  Forall2 (same_hop trc) l l' ∨ mac_collision.
Proof.
  intros Hc Hc' Ht. revert seed l' Hc Hc'. induction Ht as [|h l Hh _ IH]; intros seed [|h' l'] Hc Hc' Ht' E;
    [left; constructor|done|done|].
  csimpl in E. injection E as E1 E2.
  apply Forall_cons in Ht' as [Hh' Ht'].
  apply chained_cons_inv in Hc as [(k & Ek & _ & Em) Hc], Hc' as [(k' & Ek' & _ & Em') Hc'].
  destruct (hop_mac_inj k k' seed h h') as [(<- & ? & ? & ?)|?]; [done|done|congruence| |by right].
  destruct (IH (mac h) l') as [?|?]; [done|by rewrite E1|done|done| |by right].
  left. constructor; [|done]. by rewrite <-Ek' in Ek.
Qed.

Lemma len_be_app n m r1 r2 :
  (N.of_nat n < width 32)%N → (N.of_nat m < width 32)%N → len_be n ++ r1 = len_be m ++ r2 → n = m ∧ r1 = r2.
Proof.
  intros Hn Hm E. unfold len_be in E. rewrite !wrap_small in E by done. rewrite width_32 in *.
  apply delimited_be in E as [? ?]; [|done..]. split; [lia|done].
Qed.

Lemma sized_app {r1 r2 : bytes} (p q : bytes) :
  (N.of_nat (length p) < width 32)%N → (N.of_nat (length q) < width 32)%N →
  len_be (length p) ++ p ++ r1 = len_be (length q) ++ q ++ r2 → p = q ∧ r1 = r2.
Proof. intros Hp Hq E. apply len_be_app in E as [El E]; [|done..]. by apply app_inj_1 in E. Qed.

Lemma envelope_blob_inj env env' :
  typed_envelope env → typed_envelope env' → envelope_blob env = envelope_blob env' →
  ip_packet env = ip_packet env' ∧ created_at env = created_at env' ∧
  path_isd (scion_path env) = path_isd (scion_path env') ∧
  path_created_at (scion_path env) = path_created_at (scion_path env') ∧
  mac <$> hops (scion_path env) = mac <$> hops (scion_path env').
Proof.
  destruct env as [[src dst pl] [isd hs cr] at_], env' as [[src' dst' pl'] [isd' hs' cr'] at_'].
  intros (Hs & Hd & Hp & Hi & Hc & Hh & Hf & Ha) (Hs' & Hd' & Hp' & Hi' & Hc' & Hh' & Hf' & Ha') E.
  unfold envelope_blob in E.
  cbn [ip_packet source_ip dest_ip payload scion_path path_isd hops path_created_at created_at] in *.
  apply app_inj_1 in E as [-> E]; [|congruence]. apply app_inj_1 in E as [-> E]; [|congruence].
  apply sized_app in E as [-> E]; [|done..].
  apply delimited_be in E as [-> E]; [|done..]. apply delimited_be in E as [-> E]; [|by rewrite <-width_64..].
  apply len_be_app in E as [El E]; [|done..].
  rewrite <-(list_fmap_id (mac <$> hs)), <-(list_fmap_id (mac <$> hs')) in E.
  apply (delimited_items (λ m, length m = 16) id) in E as [-> E].
  - apply be_bytes_inj in E; [by subst|by rewrite <-width_64..].
  - intros x y r1 r2 Hx Hy Ex. apply app_inj_1 in Ex; [done|]. simpl. congruence.
  - apply Forall_fmap. eapply Forall_impl; [apply Hf|]. by intros h (_ & _ & _ & ?).
  - apply Forall_fmap. eapply Forall_impl; [apply Hf'|]. by intros h (_ & _ & _ & ?).
  - by rewrite !length_fmap.
Qed.

Lemma verify_response_Ok cfg env resp now :
  verify_response cfg env resp now = Ok tt ↔
  verify_path (scion_path env) (gateway_trc cfg) now = Ok tt ∧ canonical_digest env = request_digest resp ∧
  mldsa65_pk_parses (gateway_pubkey cfg) = true ∧ mldsa65_sig_parses (gateway_signature resp) = true ∧
  mldsa65_verify (gateway_signature resp)
    (response_signing_digest (request_digest resp) (response_payload resp) (responded_at resp))
    (gateway_pubkey cfg) = true.
Proof.
  unfold verify_response, mldsa.PublicKey_from_bytes, mldsa.Signature_from_bytes, mldsa.verify.
  destruct (verify_path (scion_path env) (gateway_trc cfg) now) as [[]| |]; simpl; [|naive_solver..].
  case_bool_decide as Hd; [naive_solver|].
  destruct (mldsa65_pk_parses _) eqn:Ep; simpl; [|naive_solver].
  destruct (mldsa65_sig_parses _) eqn:Es; simpl; [|naive_solver]. rewrite Ep, Es. simpl.
  destruct (mldsa65_verify _ _ _); naive_solver.
Qed.

Lemma response_digest_inj d d' p p' a a' :
  length d = length d' → (N.of_nat (length p) < width 32)%N → (N.of_nat (length p') < width 32)%N →
  (a < width 64)%N → (a' < width 64)%N →
  response_signing_digest d p a = response_signing_digest d' p' a' →
  (d = d' ∧ p = p' ∧ a = a') ∨ sha3_collision.
Proof.
  intros Hd Hp Hp' Ha Ha' E. apply sha3_256_domain_inj in E as [[_ E]|?]; [|by right|done|done].
  left. unfold response_blob in E. apply app_inj_1 in E as [-> E]; [|done].
  apply sized_app in E as [-> E]; [|done..]. apply be_bytes_inj in E; [done|by rewrite <-width_64..].
Qed.

Lemma verify_path_later p trc now now' :
  verify_path p trc now = Ok tt → (now' ≤ valid_until trc)%N →
  Forall (λ h, (now' ≤ expiration_round h)%N) (hops p) → verify_path p trc now' = Ok tt.
Proof.
  rewrite !verify_path_Ok. intros (Hi & _ & Hne & Hc) Hv Hf. split_and!; [done..|].
  intros i h prev Hl El Ep. destruct (Hc i h prev Hl El Ep) as (key & Ek & _ & Em).
  exists key. split_and!; [done|by eapply Forall_lookup_1 in Hf|done].
Qed.


(** *** The isolation domain of a hop is not authenticated *)

(** An envelope with the isolation domain of every hop rewritten. *)
Definition relabel_hop (f : IsdId → IsdId) (h : HopField) : HopField :=
  mk_hop (f (isd_as h).1, (isd_as h).2) (ingress_iface h) (egress_iface h) (expiration_round h) (mac h).
Definition relabel (f : IsdId → IsdId) (env : GatewayEnvelope) : GatewayEnvelope :=
  mk_envelope (ip_packet env)
    (mk_path (path_isd (scion_path env)) (relabel_hop f <$> hops (scion_path env)) (path_created_at (scion_path env)))
    (created_at env).

Lemma verify_hops_relabel f trc now idx seed l :
  verify_hops trc now idx seed (relabel_hop f <$> l) = Ok tt ↔ verify_hops trc now idx seed l = Ok tt.
Proof.
  revert idx seed. induction l as [|h l IH]; intros idx seed; [done|]. csimpl.
  destruct (as_keys trc !! (isd_as h).2) as [key|]; simpl; [|done].
  case_bool_decide; [done|]. change (hop_mac key seed (relabel_hop f h)) with (hop_mac key seed h).
  case_bool_decide; [done|]. apply IH.
Qed.

(** A client accepts a response for an envelope whose hops were rewritten to any
    other isolation domains: neither the hop MACs nor the envelope digest cover
    that field, and the route check does not compare it with the path's. *)
Theorem hop_isd_unauthenticated f cfg env resp now :
  verify_response cfg (relabel f env) resp now = Ok tt ↔ verify_response cfg env resp now = Ok tt.
Proof.
  assert (canonical_digest (relabel f env) = canonical_digest env) as Ed.
  { unfold canonical_digest, envelope_blob. cbn. rewrite length_fmap, <-list_fmap_compose. done. }
  assert (verify_path (scion_path (relabel f env)) (gateway_trc cfg) now = Ok tt ↔
          verify_path (scion_path env) (gateway_trc cfg) now = Ok tt) as Ep.
  { unfold verify_path. cbn [relabel scion_path path_isd hops].
    do 2 (case_bool_decide; [done|]). destruct (hops (scion_path env)) as [|h l] eqn:El; [done|].
    rewrite !bool_decide_false by done. rewrite <-El. apply verify_hops_relabel. }
  by rewrite !verify_response_Ok, Ed, Ep.
Qed.

(** A sealed route passes the check under the trust root that sealed it at every
    round up to its expiry, and sealing changes nothing but the MACs. *)
Theorem seal_then_verify created l trc :
  l ≠ [] → Forall (λ h, is_Some (as_keys trc !! (isd_as h).2)) l →
  ∃ p, seal_path (trc_isd trc) created l trc = Ok p ∧ template <$> hops p = template <$> l ∧
    ∀ now, (now ≤ valid_until trc)%N → Forall (λ h, (now ≤ expiration_round h)%N) l → verify_path p trc now = Ok tt.
Proof.
  intros Hne Hf. unfold seal_path.
  set (seed := path_seed_mac (mk_path (trc_isd trc) [] created)).
  destruct (seal_hops_total trc 0 seed l Hf) as [l' E]. rewrite E. simpl. eexists. split; [done|].
  split; [apply (seal_hops_Ok trc 0 _ _ _ _ E)|]. intros now Hv Hx.
  destruct (seal_hops_Ok trc now _ _ _ _ E) as [Et Hc]. apply verify_path_Ok. split_and!; [done..| |by apply Hc].
  simpl. intros ->. by destruct l.
Qed.
End gateway.

(** ** Shreds: [raptorq.rs] *)

Definition FEC_PAYLOAD_ID_BYTES : nat := 4.

(** The [raptorq] crate: the encoder's packets, the decoder and its step.
    Deserialization indexes the first four bytes without a length check. *)
Class RaptorQ := {
  Oti : Type;
  Decoder : Type;
  Packet : Type;
  rq_config : bytes → N → Oti;
  rq_encoded_packets : bytes → N → N → list bytes;
  rq_decoder : Oti → Decoder;
  rq_deserialize : bytes → Packet;
  rq_decode : Decoder → Packet → Decoder * option bytes;
}.

Inductive TransportError := DecodeFailed | MalformedPacket.

Definition Shred := bytes.
Record ShredSet `{RaptorQ} := mk_shreds { oti : Oti; packets : list Shred }.

Section raptorq.
Context `{RaptorQ}.

Definition shred (pl : bytes) (packet_size_bytes repair_packets : N) : ShredSet :=
  mk_shreds _ (rq_config pl packet_size_bytes) (rq_encoded_packets pl packet_size_bytes repair_packets).

(** [EncodingPacket::deserialize] panics on fewer than four bytes. *)
Definition deserialize (b : bytes) : outcome TransportError Packet :=
  if bool_decide (length b < FEC_PAYLOAD_ID_BYTES) then Panic else Ok (rq_deserialize b).

Fixpoint reconstruct_loop (d : Decoder) (l : list Shred) : outcome TransportError bytes :=
  match l with
  | [] => Err DecodeFailed
  | b :: rest =>
      if bool_decide (length b < FEC_PAYLOAD_ID_BYTES) then reconstruct_loop d rest
      else
        let! pkt := deserialize b in
        match rq_decode d pkt with
        | (_, Some out) => Ok out
        | (d', None) => reconstruct_loop d' rest
        end
  end.

Definition reconstruct (o : Oti) (l : list Shred) : outcome TransportError bytes :=
  reconstruct_loop (rq_decoder o) l.

(** The decoder fed with whole packets until it answers. *)
Fixpoint feed (d : Decoder) (l : list Packet) : option bytes :=
  match l with
  | [] => None
  | p :: rest => match rq_decode d p with (_, Some out) => Some out | (d', None) => feed d' rest end
  end.

(** Reconstruction never panics, whatever bytes arrive, and is the decoder run on
    the shreds long enough to be packets: truncated shreds have no effect. *)
Theorem reconstruct_spec o l :
  reconstruct o l =
  ok_or (feed (rq_decoder o) (rq_deserialize <$> filter (λ b, FEC_PAYLOAD_ID_BYTES ≤ length b) l)) DecodeFailed.
Proof.
  unfold reconstruct. generalize (rq_decoder o). induction l as [|b l IH]; intros d; [done|].
  cbn [reconstruct_loop]. case_bool_decide as Hb.
  - rewrite IH, filter_cons_False by lia. done.
  - rewrite filter_cons_True by lia. unfold deserialize. rewrite bool_decide_false by done. cbn.
    destruct (rq_decode d (rq_deserialize b)) as [d' [out|]]; [done|apply IH].
Qed.
End raptorq.

Module TransportExamples.
#[local] Open Scope N_scope.
#[local] Existing Instance Toy.toy_mldsa.
(** The low bytes of the rolling hash come first, so that truncation keeps them. *)
Definition rev_hash (b : bytes) : bytes := rev (Toy.hash b).
Lemma rev_hash_length b : length (rev_hash b) = 32%nat.
Proof. unfold rev_hash. rewrite length_rev. apply length_be_bytes. Qed.
#[local] Instance toy_blake3 : Blake3 := {| blake3 := rev_hash; blake3_length := rev_hash_length |}.
#[local] Instance toy_sha3 : Sha3 := {| sha3 := rev_hash; sha3_length := rev_hash_length |}.
#[local] Instance toy_keyed : Blake3Keyed :=
  {| blake3_keyed k b := rev_hash (k ++ b); blake3_keyed_length k b := rev_hash_length (k ++ b) |}.

Definition trc : TrustRootConfig := mk_trc 1 1 {[10%N := [Byte.xab]; 20%N := [Byte.xcd]]} 1000000.
Definition cfg : GatewayConfig := mk_gateway 1 10 [Byte.x07] trc.
Definition hop (a : AsId) : HopField := mk_hop (1%N, a) 1 2 1000 [].
Definition route : Path := unwrap_or (seal_path 1 100 [hop 10; hop 20] trc) (mk_path 1 [] 0).
Definition env : GatewayEnvelope :=
  mk_envelope (mk_packet (replicate 16%nat Byte.x01) (replicate 16%nat Byte.x02) [Byte.x03]) route 150.
Definition answer : GatewayResponse :=
  unwrap_or (sign_response cfg (mldsa.mk_sk [Byte.x07]) env [Byte.x09] 200) (mk_response [] [] [] 0).


(** A hop claimed by another isolation domain is accepted. *)
Example foreign_hop_accepted :
  verify_response cfg (relabel (λ _, 9%N) env) answer 900 = Ok tt ∧ relabel (λ _, 9%N) env ≠ env.
Proof. split; [vm_compute; reflexivity|]. vm_compute. discriminate. Qed.

(** Every check of the route refuses what it names. *)
Example route_checks :
  verify_path route trc 1001 = Err (HopExpired 0%nat 1000 1001) ∧
  verify_path (mk_path 1 [] 100) trc 200 = Err EmptyPath ∧
  verify_path (mk_path 1 [hop 99] 100) trc 200 = Err (UnauthorizedAs 0%nat 1 99) ∧
  verify_path (mk_path 1 (hops route) 101) trc 200 = Err (InvalidHopMac 0%nat).
Proof. split_and!; vm_compute; reflexivity. Qed.
End TransportExamples.
