(* ===== verification/Bridge.v ===== *)
(** * Off-chain checks

    [suwappu-l2-bridge/src/lib.rs], the payload checks a bridge front end runs
    before it submits a deposit or a withdrawal, related to the intents of the
    substrate; and the point formulas of [suwappu-validator-program/src/score.rs]. *)

From Stdlib Require Import ZArith.
From S2P Require Import Prelude Crypto Cert Rings ExecTypes Codec Registries Substrate.

Definition MAX_MERKLE_PATH_BYTES : nat := N.to_nat 4096.
Definition DUST_THRESHOLD_SUWAPPU : Balance := 100.

Inductive BridgeError :=
| ZeroAmount
| BelowDustThreshold (amount threshold : Balance)
| EmptyMerklePath
| MerklePathTooLong (max got : nat)
| MerklePathAlignment (got : nat).

Module L1LockPayload.
Record L1LockPayload := mk { user_address : Address; l2_recipient : Address; amount : Balance }.

Definition validate (p : L1LockPayload) : outcome BridgeError (option BridgeError) :=
  if bool_decide (amount p = 0%N) then Err ZeroAmount
  else if bool_decide (amount p < DUST_THRESHOLD_SUWAPPU)%N
  then Ok (Some (BelowDustThreshold (amount p) DUST_THRESHOLD_SUWAPPU))
  else Ok None.
End L1LockPayload.

Module L2BurnProvenPayload.
Record L2BurnProvenPayload := mk { batch_id : N; recipient : Address; amount : Balance; merkle_path : bytes }.

Definition validate (p : L2BurnProvenPayload) : outcome BridgeError unit :=
  if bool_decide (amount p = 0%N) then Err ZeroAmount
  else if bool_decide (merkle_path p = []) then Err EmptyMerklePath
  else if bool_decide (MAX_MERKLE_PATH_BYTES < length (merkle_path p))
  then Err (MerklePathTooLong MAX_MERKLE_PATH_BYTES (length (merkle_path p)))
  else if bool_decide (Nat.modulo (length (merkle_path p)) 32 ≠ 0) then Err (MerklePathAlignment (length (merkle_path p)))
  else Ok tt.
End L2BurnProvenPayload.

Section checks.
Context `{Blake3}.

(** The intents the payloads become. *)
Definition lock_intent (p : L1LockPayload.L1LockPayload) (asset : option bytes) : Intent :=
  L1Lock (L1LockPayload.user_address p) (L1LockPayload.l2_recipient p) (L1LockPayload.amount p) asset.
Definition burn_intent (p : L2BurnProvenPayload.L2BurnProvenPayload) (asset : option bytes) (chain : bytes) : Intent :=
  L2BurnProven (L2BurnProvenPayload.batch_id p) (L2BurnProvenPayload.recipient p) (L2BurnProvenPayload.amount p)
    (L2BurnProvenPayload.merkle_path p) asset chain.

(** The checks refuse no deposit that would move funds: a refused lock is a no-op
    of the substrate, and so is a burn refused for its amount.  An accepted
    payload has a positive amount, a warning exactly below the dust threshold,
    and a withdrawal a proof of 1 to 128 whole digests. *)
Theorem bridge_checks_spec (lock : L1LockPayload.L1LockPayload) (burn : L2BurnProvenPayload.L2BurnProvenPayload)
    s asset chain :
  match L1LockPayload.validate lock with
  | Err e => e = ZeroAmount ∧ apply_intent (lock_intent lock asset) s = (Ok tt, s)
  | Ok w => (0 < L1LockPayload.amount lock)%N ∧ (is_Some w ↔ (L1LockPayload.amount lock < 100)%N)
  | Panic => False
  end ∧
  match L2BurnProvenPayload.validate burn with
  | Err e => e = ZeroAmount → apply_intent (burn_intent burn asset chain) s = (Ok tt, s)
  | Ok _ => (0 < L2BurnProvenPayload.amount burn)%N ∧
      ∃ k, 1 ≤ k ≤ 128 ∧ length (L2BurnProvenPayload.merkle_path burn) = 32 * k
  | Panic => False
  end.
Proof.
  destruct lock as [u r n], burn as [b r' n' path]. unfold L1LockPayload.validate, L2BurnProvenPayload.validate.
  cbn [L1LockPayload.amount L2BurnProvenPayload.amount L2BurnProvenPayload.merkle_path].
  split.
  - case_bool_decide as H0; [split; [done|]; by subst|].
    unfold DUST_THRESHOLD_SUWAPPU. case_bool_decide; (split; [lia|]).
    + split; [done|by eexists].
    + split; [by intros [? ?]|done].
  - case_bool_decide as H0; [intros _; by subst|]. case_bool_decide as Hp; [done|].
    case_bool_decide as Hl; [done|]. case_bool_decide as Hm; [done|]. split; [lia|].
    exists (Nat.div (length path) 32). pose proof (Nat.div_mod_eq (length path) 32) as E.
    assert (length path ≠ 0) by (by destruct path). unfold MAX_MERKLE_PATH_BYTES in Hl. lia.
Qed.
End checks.

(** ** Points *)

Open Scope Z_scope.
(** [i64] arithmetic of a release build. *)
Definition wrap_i64 (z : Z) : Z := (z + 2 ^ 63) mod 2 ^ 64 - 2 ^ 63.
Definition CERT_POINTS_CAP_PER_EPOCH : Z := 50.

Definition compute_cert_points (cert_count : Z) : Z :=
  if bool_decide (cert_count <= 0) then 0 else Z.min (Z.quot cert_count 1000) CERT_POINTS_CAP_PER_EPOCH.

Definition compute_uptime_points (ok_samples total_samples : Z) : Z :=
  if bool_decide (total_samples = 0) then 0
  else
    let ratio_pct := Z.quot (wrap_i64 (ok_samples * 100)) total_samples in
    if bool_decide (ratio_pct >= 99) then 100 else if bool_decide (ratio_pct >= 95) then 50 else 0.

Lemma wrap_i64_small z : - 2 ^ 63 <= z < 2 ^ 63 -> wrap_i64 z = z.
Proof. intros Hz. unfold wrap_i64. rewrite Z.mod_small; lia. Qed.

(** The published tiers: 100 points from 99 percent of the probes, 50 from 95
    percent, compared without rounding; and certificate points between 0 and 50
    that grow with the count. *)
Theorem points_spec ok total c c' :
  0 <= ok <= total -> 0 < total < 2 ^ 56 -> c <= c' ->
  (compute_uptime_points ok total =
     if decide (99 * total <= 100 * ok) then 100 else if decide (95 * total <= 100 * ok) then 50 else 0) ∧
  0 <= compute_cert_points c <= compute_cert_points c' ∧ compute_cert_points c' <= 50.
Proof.
  intros Hok Ht Hc. split.
  - unfold compute_uptime_points. rewrite bool_decide_false by lia. rewrite wrap_i64_small by lia.
    rewrite Z.quot_div_nonneg by lia. pose proof (Z.div_mod (ok * 100) total) as E.
    pose proof (Z.mod_pos_bound (ok * 100) total) as Hm.
    set (q := ok * 100 / total) in *. assert (q >= 99 <-> 99 * total <= 100 * ok) as H1 by nia.
    assert (q >= 95 <-> 95 * total <= 100 * ok) as H2 by nia.
    repeat case_bool_decide; repeat case_decide; tauto || lia.
  - unfold compute_cert_points, CERT_POINTS_CAP_PER_EPOCH.
    assert (0 < c -> Z.quot c 1000 <= Z.quot c' 1000) as Hmono by (intros; apply Z.quot_le_mono; lia).
    repeat case_bool_decide; try lia.
    + pose proof (Z.quot_pos c' 1000). lia.
    + pose proof (Z.quot_pos c 1000). lia.
Qed.

Lemma points_spec_witness : compute_uptime_points 57 60 = 50 ∧ compute_cert_points 999999 <= 50.
Proof. destruct (points_spec 57 60 10 999999) as (E & _ & H); [lia..|]. split; [exact E|exact H]. Defined.
